(* ===== verification/_CoqProject ===== *)
-Q . S2P
Prelude.v
Float64.v
Domain.v
Auth.v
Config.v
Ports.v
Fixture.v
Execution.v
MemStore.v
StoreProps.v
Postgres.v
PgFixture.v
PgProps.v
PgQueries.v
MemQueue.v
Kafka.v
KafkaFixture.v
Ingest.v
Calls.v
Backoff.v
WorkerClient.v
Scheduler.v
Lifecycle.v
Refinement.v
Control.v
Results.v
Assign.v
Delivery.v
KafkaDelivery.v
Polling.v
Liveness.v
Grpc.v
Cancels.v
Races.v
PgSafe.v
Api.v
System.v
KafkaSubmission.v
Endpoints.v
Queries.v
Schema.v
Replay.v
Worker.v
Session.v
Task.v
EndToEnd.v
Outbox.v
PgOutbox.v
Registry.v
App.v
Routes.v
Process.v
Commands.v
