(* ===== verification/Prelude.v ===== *)
(** * Chronos: a verified model of a distributed job scheduler

    Chronos accepts jobs over HTTP, keeps them in a store, hands the ones that
    are due to workers through a queue and gRPC, retries what fails, and
    publishes what happened as events that end up in ClickHouse.  This library
    models the Go code of the repository and proves what makes it correct, and
    where it is not, how it fails.

    ** The program and the files

    - internal/domain (Domain.v): the records and enumerations all parts share,
      schedules ([NextRunAt], [ValidateSchedule]) and worker slots.
    - internal/ports and internal/domain/queue.go (Ports.v): the environment
      [Env] (clock, UUIDs, random numbers, map order, network), the interfaces
      [JobStore] and [Queue] as type classes of operations, and their laws on
      abstract views: [QueueLaws], [JobStoreLaws] for a store whose calls
      succeed, and the weaker [JobStoreSafe] for one whose calls may fail or
      report an error after they took effect; the state [World] a handler runs
      in, with its calls and their [wp] rules.  Calls.v has the derived rules and
      the tactic [run].
    - internal/scheduler/scheduler.go (Scheduler.v, Backoff.v): [Service] with
      its worker table and pending cancellations, one definition per method.
      internal/scheduler/grpc_server.go is Grpc.v, internal/workerclient is
      WorkerClient.v.
    - internal/store/memory (MemStore.v, StoreProps.v): the store that satisfies
      [JobStoreLaws].  internal/store/postgres (Postgres.v): the tables of the
      migration and every method with its SQL, with statements that fail;
      PgProps.v has creation, consistency and round trip, PgQueries.v the
      listings against the in-memory store and the races and failures of the
      updates, PgSafe.v the proof of [JobStoreSafe], PgOutbox.v its outbox.
    - internal/queue/memory (MemQueue.v), internal/queue/kafka (Kafka.v),
      internal/queue/registry.go (Registry.v) and internal/app/wire.go (App.v,
      with the choice of the queue in Registry.v).
    - internal/api (Api.v for jobs, Endpoints.v for health and analytics,
      Routes.v for the table of routes behind the authentication),
      internal/auth (Auth.v), internal/config (Config.v).
    - internal/worker (Worker.v, Session.v, Task.v) and internal/execution
      (Execution.v): the worker, its session with the scheduler, what it runs,
      and the goroutine of a job up to its report.  System.v is the transition
      system of API, RPCs and scheduler, EndToEnd.v the way of one submission
      through API, queue, scheduler and worker, KafkaSubmission.v the one to the
      scheduler with Kafka in between.
    - cmd/ and the connections, listeners and waiting methods of all packages
      (Process.v, Commands.v): the processes as traces of what they open and
      close.
    - internal/events, internal/outbox (Outbox.v) and the consumer of
      internal/analytics (Ingest.v): the way of an event to ClickHouse;
      query.go on the table that results (Queries.v), the statistics tables of
      schema.go (Schema.v) and cmd/event-replay (Replay.v).
    - Float64.v is the floating-point arithmetic [computeBackoff] and the
      reports need, Fixture.v, KafkaFixture.v and PgFixture.v are the concrete
      environment, cron library, broker and database the witnesses run on, and
      this file has machine integers, instants, errors, the state monad with its
      [wp] rules, and lemmas on lists and maps.

    A Go method is a total function from the state before to its result and the
    state after ([M]), so that a theorem [wp m Q s] says that [m] returns and
    that [Q] holds of its result and of the state.  Methods take their names
    from the code, with a prefix where two packages share one ([mem_], [mq_],
    [pg_], [kafka_], [ch_], [grpc_], [worker_], [client_]).

    ** How the parts interact

    The API creates jobs in the store and enqueues the due ones; together with
    the RPCs and the scheduler it is the transition system of System.v.  The
    scheduler promotes due jobs to the queue (Polling.v), receives deliveries and pushes
    jobs to workers (Assign.v), is called by workers through gRPC (Grpc.v), and
    reacts to results (Results.v), timeouts and lost workers (Polling.v), and
    cancellations (Cancels.v, Session.v).  Every one of these calls is an
    operation of the transition system of Control.v, which takes any operations
    with any arguments in any order.  Liveness.v composes promotion, queue and
    dispatch, and EndToEnd.v a submission with its dispatch, execution and
    report.  The handlers are proved against the interfaces.  The lifecycle of
    jobs needs [JobStoreSafe] only: [JobStoreLaws] implies it, and the Postgres
    store satisfies it with any failing statements.  What a method does on each
    branch is proved with [JobStoreLaws], which MemStore.v discharges; that the
    Postgres store does the same when no statement fails is shown by comparison
    (PgProps.v, PgQueries.v).  Its calls can fail and other processes run in
    between, so that [JobStoreLaws] does not hold of it.

    ** What the theorems show

    - The scheduler refines an abstract job lifecycle ([edge], [evolves] of
      Lifecycle.v): Refinement.v shows it per method, Control.v for all
      reachable states, with its consequences for terminal and for cancelled
      jobs (C1, C2), PgSafe.v on a Postgres store with failing statements (C14),
      Grpc.v for forged and unauthenticated calls (C34).  The whole system with
      the API refines an extended lifecycle (C6, System.v).
    - A submitted job runs on a worker and is settled by its result (C3).
    - What each method does on each branch: results, with every field, execution
      and event they write (C4) and the next occurrence of a recurring job (C37),
      dispatch (C7, C8, C10), the polling loop (C11, C15, with what becomes of the
      jobs of a lost worker), the way of a cancellation to the
      context on the worker (C17), and an interleaving the code does not guard
      against (C19).  With willing workers due jobs get running (C9).
    - The stores: the contract of the in-memory one (C23), the consistency of the
      tables (C20), creation with every fault (C21), the round trip of a job,
      with the columns the INSERT leaves out (C40), the listings, under any
      limit, against those of the in-memory store (C12) and the order of the due
      jobs that no one has locked (C16), and what goes wrong between two
      statements (C18).
    - The way of events: the outbox loses none (C24), nor does the ingestion, as
      long as the topic holds events only (C27); repetitions change no report
      (C31), nor does a replay of events with identifiers, which ends and is
      complete on partition 0, the only one it reads (C28); the statistics tables
      stand for what was inserted since the last start, exactly but for the plain
      columns of job_minute_stats, which are only bounded (C13).
    - A submission gets through Kafka to the scheduler (C26).  The Kafka queue
      hands over every job in order (C5), but a session does not repeat a failed
      delivery: a job that meets no free worker is stranded, unless the scheduler
      restarts before it accepts a later message of the partition (C22).
    - Retry delays (C29); executions end (C30), and what they report of
      contexts, handlers and webhook answers (C32).
    - Who is answered by which handler (C33) and which calls of workers have an
      effect (C34); the API's validation, submission and cancellation
      (C35, C36, C38), and the worker's capacity (C39).
    - How the processes end, with which status, and what they close (C25).
    - Further theorems that stand on their own: lost workers and timeouts
      (Polling.v), the order and stability of the in-memory queue and failed
      deliveries (Delivery.v), heartbeats and the end of a cancellation
      (Cancels.v), the indexes of the in-memory store (StoreProps.v), resubmitted
      jobs (Api.v), workers that stay hidden (PgQueries.v), the overflow of the
      backoff (Backoff.v), the round trip of a report (Worker.v), the backends
      (Registry.v, App.v).

    ** Bounds and fuel

    Integers are kept in [Z] and wrapped where Go's type can overflow ([int64],
    [int32], durations).  Loops over slices and maps are structural.  Fuel is
    used by [Pow] (64 rounds: one per bit of an exponent), by the trimming of
    strings (their length), and by [burn] and [replay_loop], where C30 and C28
    give a bound in terms of the clock; C3 takes the one of the execution.  The
    attempts of [ch_connect] are the 30 of the code.  The lists of the scheduler
    have the limits of the code; C15 asks for fewer active jobs than the 1000
    [recoverWorkerJobs] lists.

    ** What is a parameter, and what is left out

    Parameters are the cron library, Kafka, the ClickHouse driver and its
    aggregate functions, the Postgres driver with the conversion of uuid, text
    and jsonb values, the container (nexus), the router, HTTP and gRPC transport,
    encoding/json, the parsing of durations and RFC 3339 times, and error rendering; the laws that
    are assumed are stated with the class of each.  [JobStoreLaws] describes a
    store whose calls succeed.

    The methods of the scheduler run one after the other; the mutexes make the
    parts of a method atomic, not the whole, and of the finer interleavings the
    ones of Races.v (within [handleQueuedJob]), Worker.v (within [ExecuteJob]) and
    System.v (within [cancelJob]) are modelled, and between the processes the statements of Postgres.v.  What
    connections, listeners, the container and signals answer is the parameter
    [Host] of Process.v; goroutines that run beside a main function appear there
    with their end only.  Not modelled: the middleware
    for panics and for requests of more than 60 seconds; logging, which has no
    effect on the state; and the generated protocol code. *)

From Stdlib Require Export ZArith.
From stdpp Require Export base numbers gmap strings list fin_maps sorting sets.

#[export] Set Warnings "-clear-no-such-hyp".
Open Scope Z_scope.

(** ** Machine integers *)

(** Go's [int] and [int64] are 64-bit two's complement here, [int32] is the
    width of the protobuf fields; arithmetic wraps around. *)
Definition wrap (w z : Z) : Z := (z + 2 ^ (w - 1)) `mod` 2 ^ w - 2 ^ (w - 1).
Definition int64 (z : Z) : Z := wrap 64 z.
Definition int32 (z : Z) : Z := wrap 32 z.

Definition in_range (w z : Z) : Prop := - 2 ^ (w - 1) ≤ z < 2 ^ (w - 1).

Lemma wrap_range w z : 0 < w → in_range w (wrap w z).
Proof.
  intros Hw. unfold in_range, wrap.
  assert (0 < 2 ^ (w - 1)) by (apply Z.pow_pos_nonneg; lia).
  assert (2 ^ w = 2 * 2 ^ (w - 1)) as Hd.
  { rewrite <- Z.pow_succ_r by lia. f_equal. lia. }
  pose proof (Z.mod_pos_bound (z + 2 ^ (w - 1)) (2 ^ w)) as Hb. lia.
Qed.

Lemma wrap_id w z : 0 < w → in_range w z → wrap w z = z.
Proof.
  intros Hw [H1 H2]. unfold wrap.
  assert (2 ^ w = 2 * 2 ^ (w - 1)) as Hd.
  { rewrite <- Z.pow_succ_r by lia. f_equal. lia. }
  rewrite Z.mod_small by lia. lia.
Qed.

Lemma int64_id z : in_range 64 z → int64 z = z.
Proof. by apply wrap_id. Qed.

Lemma int32_id z : in_range 32 z → int32 z = z.
Proof. by apply wrap_id. Qed.

(** ** Instants and durations

    [time.Time] is the number of nanoseconds since Go's zero time (January 1,
    year 1, UTC), so [time.Time{}] is 0; [time.Duration] is an [int64] number
    of nanoseconds. *)
Definition time := Z.
Definition Duration := Z.
Definition zero_time : time := 0.
Definition IsZero (t : time) : bool := bool_decide (t = zero_time).
Definition Nanosecond : Duration := 1.
Definition Millisecond : Duration := 1000000.
Definition Second : Duration := 1000000000.
Definition Minute : Duration := 60 * Second.
Definition Hour : Duration := 3600 * Second.
Definition time_add (t : time) (d : Duration) : time := t + d.
Definition After (t u : time) : bool := bool_decide (u < t).
Definition Before (t u : time) : bool := bool_decide (t < u).
Definition dur_add (a b : Duration) : Duration := int64 (a + b).
Definition dur_neg (a : Duration) : Duration := int64 (- a).
Definition dur_mul (a b : Duration) : Duration := int64 (a * b).
(** [Duration.Milliseconds]: integer division truncates toward zero. *)
Definition Milliseconds (d : Duration) : Z := d `quot` 1000000.

(** ** Errors *)

(** The [error] values of the code. [Errorf] keeps the format string and its
    arguments unrendered; [Wrapf] is [fmt.Errorf("...: %w", err)]; [External]
    is an error of a library or of the network; [GoPanic] is a run-time panic
    (nil dereference, negative [make]) that unwinds the handler. *)
Inductive GoError :=
  | ErrNotFound
  | ErrConflict
  | ErrNoWorker
  | ContextCanceled
  | DeadlineExceeded
  | Errorf (fmt : string) (args : list string)
  | Wrapf (fmt : string) (e : GoError)
  | External (msg : string)
  | GoPanic (msg : string).

#[global] Instance GoError_eq_dec : EqDecision GoError.
Proof. solve_decision. Defined.

(** [(T, error)] returns: the value of a nil error or the error. *)
Inductive result (A : Type) :=
  | Ok (a : A)
  | Err (e : GoError).
Arguments Ok {A} a.
Arguments Err {A} e.

(** ** The dynamic values of [any] and of [map[string]any] literals *)
Inductive any :=
  | AString (s : string)
  | AInt (z : Z)
  | ABool (b : bool)
  | ATime (t : time)
  | ATimePtr (t : option time).

(** A map literal: its keys are distinct, so a list of pairs read left to
    right is the map. *)
Definition fields := list (string * any).

Fixpoint field (k : string) (f : fields) : option any :=
  match f with
  | [] => None
  | (k', v) :: f' => if String.eqb k k' then Some v else field k f'
  end.

(** The type assertions [f["k"].(string)], [.(int)], [.( *time.Time)]. *)
Definition field_string (k : string) (f : fields) : option string :=
  match field k f with Some (AString s) => Some s | _ => None end.
Definition field_int (k : string) (f : fields) : option Z :=
  match field k f with Some (AInt z) => Some z | _ => None end.
Definition field_time (k : string) (f : fields) : option (option time) :=
  match field k f with Some (ATimePtr t) => Some t | _ => None end.

(** ** State monad

    A method is a total function from the state before to its result and the
    state after. *)
Definition M (Σ A : Type) : Type := Σ → A * Σ.

#[global] Instance M_ret {Σ} : MRet (M Σ) := λ A a s, (a, s).
#[global] Instance M_bind {Σ} : MBind (M Σ) := λ A B f m s,
  match m s with (a, s') => f a s' end.
#[global] Typeclasses Opaque M.

Definition gets {Σ A} (f : Σ → A) : M Σ A := λ s, (f s, s).
Definition modify {Σ} (f : Σ → Σ) : M Σ () := λ s, ((), f s).

(** [for _, x := range l { f(x) }] *)
Fixpoint forM_ {Σ A} (l : list A) (f : A → M Σ ()) : M Σ () :=
  match l with
  | [] => mret ()
  | x :: l' => _ ← f x; forM_ l' f
  end.

(** [wp m Q s]: running [m] from [s] returns [a] and ends in [s'] with
    [Q a s'].  As methods are total functions this is total correctness. *)
Definition wp {Σ A} (m : M Σ A) (Q : A → Σ → Prop) (s : Σ) : Prop :=
  Q (m s).1 (m s).2.

Section wp_rules.
Context {Σ : Type}.
Implicit Types (s : Σ).

Lemma wp_ret {A} (a : A) (Q : A → Σ → Prop) s : Q a s → wp (mret a) Q s.
Proof. done. Qed.

Lemma wp_bind {A B} (m : M Σ A) (f : A → M Σ B) (Q : B → Σ → Prop) s :
  wp m (λ a, wp (f a) Q) s → wp (m ≫= f) Q s.
Proof. unfold wp, mbind, M_bind. by destruct (m s). Qed.

Lemma wp_mono {A} (m : M Σ A) (P Q : A → Σ → Prop) s :
  wp m P s → (∀ a s', P a s' → Q a s') → wp m Q s.
Proof. unfold wp. eauto. Qed.

Lemma wp_all {A} (m : M Σ A) (Q : A → Σ → Prop) s : (∀ a s', Q a s') → wp m Q s.
Proof. intros HQ. apply HQ. Qed.

Lemma wp_and {A} (m : M Σ A) (P Q : A → Σ → Prop) s :
  wp m P s → wp m Q s → wp m (λ a s', P a s' ∧ Q a s') s.
Proof. by split. Qed.

Lemma wp_gets {A} (f : Σ → A) (Q : A → Σ → Prop) s :
  Q (f s) s → wp (gets f) Q s.
Proof. done. Qed.

Lemma wp_modify (f : Σ → Σ) (Q : () → Σ → Prop) s :
  Q () (f s) → wp (modify f) Q s.
Proof. done. Qed.

Lemma wp_eq {A} (m : M Σ A) (Q : A → Σ → Prop) s a s' :
  wp m Q s → m s = (a, s') → Q a s'.
Proof. unfold wp. intros H Heq. by rewrite Heq in H. Qed.

(** The loop rule: [I pre s] holds after the elements [pre] were handled. *)
Lemma wp_forM {A} (l : list A) (f : A → M Σ ()) (I : list A → Σ → Prop)
    (Q : () → Σ → Prop) s :
  I [] s →
  (∀ pre x post s', l = pre ++ x :: post → I pre s' →
     wp (f x) (λ _ s'', I (pre ++ [x]) s'') s') →
  (∀ s', I l s' → Q () s') →
  wp (forM_ l f) Q s.
Proof.
  intros H0 Hstep HQ.
  assert (∀ post pre s', l = pre ++ post → I pre s' → wp (forM_ post f) Q s')
    as Hgen.
  { induction post as [|x post IH]; intros pre s' -> HI; simpl.
    - rewrite app_nil_r in HQ. by apply wp_ret, HQ.
    - apply wp_bind. eapply wp_mono; [by eapply Hstep|].
      intros ? s'' HI'. apply (IH (pre ++ [x])); [by rewrite <- app_assoc|done]. }
  by apply (Hgen l []).
Qed.

(** An invariant of the body is an invariant of the loop. *)
Lemma wp_forM_inv {A} (l : list A) (f : A → M Σ ()) (I : Σ → Prop) s :
  I s →
  (∀ x s', x ∈ l → I s' → wp (f x) (λ _, I) s') →
  wp (forM_ l f) (λ _, I) s.
Proof.
  intros H0 Hstep. eapply (wp_forM _ _ (λ _, I)); [done| |done].
  intros pre x post s' -> HI. apply Hstep; [set_solver|done].
Qed.
End wp_rules.

(** ** Lists and maps *)

Lemma elem_of_fst_filter {A B} (P : A * B → Prop) `{∀ x, Decision (P x)} (l : list (A * B)) k :
  k ∈ (filter P l).*1 ↔ ∃ v, P (k, v) ∧ (k, v) ∈ l.
Proof.
  rewrite list_elem_of_fmap. setoid_rewrite list_elem_of_filter. split.
  - intros ([k' v] & -> & ? & ?). eauto.
  - intros (v & ? & ?). by exists (k, v).
Qed.

Lemma filter_none {A} (P : A → Prop) `{∀ x, Decision (P x)} (l : list A) :
  Forall (λ x, ¬ P x) l → filter P l = [].
Proof. induction 1; [done|]. by rewrite filter_cons_False. Qed.

Lemma filter_all {A} (P : A → Prop) `{∀ x, Decision (P x)} (l : list A) :
  Forall P l → filter P l = l.
Proof. induction 1; [done|]. rewrite filter_cons_True by done. by f_equal. Qed.

(** Elements of a list are known by a field without duplicates. *)
Lemma NoDup_fmap_eq {A B} (f : A → B) (l : list A) x y :
  NoDup (f <$> l) → x ∈ l → y ∈ l → f x = f y → x = y.
Proof.
  induction l as [|z l IH]; [by intros _ ?%elem_of_nil|]. cbn. rewrite NoDup_cons.
  intros [Hz Hl] Hx Hy Heq. rewrite list_elem_of_fmap in Hz. rewrite !elem_of_cons in Hx, Hy.
  destruct Hx as [->|Hx], Hy as [->|Hy]; [done| | |by apply IH]; destruct Hz; eauto.
Qed.

Lemma NoDup_fmap_filter {A B} (f : A → B) (P : A → Prop) `{∀ x, Decision (P x)} (l : list A) :
  NoDup (f <$> l) → NoDup (f <$> filter P l).
Proof.
  induction l as [|z l IH]; [done|]. rewrite fmap_cons, NoDup_cons. intros [Hz Hl].
  rewrite filter_cons. case_decide; [|by apply IH]. cbn. apply NoDup_cons. split; [|by apply IH].
  intros (y & Hy & [_ Hin]%list_elem_of_filter)%list_elem_of_fmap. apply Hz.
  apply list_elem_of_fmap. eauto.
Qed.

(** [alter] by inserting the image of what the lookup found. *)
Lemma insert_alter {A} (f : A → A) k (m : gmap string A) x :
  m !! k = Some x → <[k := f x]> m = alter f k m.
Proof.
  intros Hk. apply map_eq. intros k'. rewrite lookup_insert, lookup_alter.
  case_decide; subst; [by rewrite Hk|done].
Qed.

(** The automation of the development: [chronos] rewrites with the equations
    that are always wanted, [no_wrap] removes a wrap-around that the bounds in
    the context exclude. *)
Create Rewrite HintDb chronos.
Ltac no_wrap := rewrite ?int64_id, ?int32_id by (unfold in_range; lia).
