(* ===== verification/Float64.v ===== *)
(** * IEEE-754 doubles as Go computes with them

    [float64] is the Standard Library's executable specification of binary64
    (53-bit mantissa, exponents up to 1024, round to nearest even), so a
    computation of the model is the computation of the machine.  The file has
    the conversions of the language and the part of [math.Pow] that
    [computeBackoff] of internal/scheduler/scheduler.go runs: a base that is
    at least one (or NaN) and an integral exponent. *)

From Stdlib Require Import SpecFloat.
From S2P Require Import Prelude.

Definition float64 := spec_float.

#[global] Instance float64_eq_dec : EqDecision spec_float.
Proof. solve_decision. Defined.

Definition f64_of_Z (z : Z) : float64 := binary_normalize 53 1024 z 0 false.
Definition f64_mul : float64 → float64 → float64 := SFmul 53 1024.
Definition f64_add : float64 → float64 → float64 := SFadd 53 1024.
Definition f64_div : float64 → float64 → float64 := SFdiv 53 1024.
Definition f64_lt : float64 → float64 → bool := SFltb.
Definition f64_eq : float64 → float64 → bool := SFeqb.
Definition f64_le : float64 → float64 → bool := SFleb.
Definition f64_sub : float64 → float64 → float64 := SFsub 53 1024.
Definition f64_zero : float64 := S754_zero false.
Definition f64_inf : float64 := S754_infinity false.
Definition f64_half : float64 := S754_finite false (2 ^ 52)%positive (-53).
Definition f64_one : float64 := f64_of_Z 1.

(** Discarding the fraction; NaN and the infinities have no integer part. *)
Definition f64_trunc (f : float64) : option Z :=
  match f with
  | S754_zero _ => Some 0
  | S754_finite s m e =>
      let a := if bool_decide (0 ≤ e) then Zpos m * 2 ^ e
               else Zpos m `quot` 2 ^ (- e) in
      Some (if s then - a else a)
  | _ => None
  end.

(** [math.Ceil], up to the sign of a zero, which [int] drops. *)
Definition f64_ceil (f : float64) : float64 :=
  match f64_trunc f with
  | None => f
  | Some z => if f64_lt (f64_of_Z z) f then f64_of_Z (z + 1) else f64_of_Z z
  end.

(** [int64(f)]: the language truncates a value in range; "if the value cannot
    be represented by the type the result is implementation-dependent", which
    is the parameter [oob]. *)
Definition f64_to_int64 (oob : float64 → Z) (f : float64) : Z :=
  match f64_trunc f with
  | Some z => if bool_decide (- 2 ^ 63 ≤ z < 2 ^ 63) then z else oob f
  | None => oob f
  end.

(** The two conversions in use: CVTTSD2SQ (amd64) gives the least integer,
    FCVTZS (arm64) saturates and maps NaN to 0. *)
Definition oob_amd64 (_ : float64) : Z := - 2 ^ 63.
Definition oob_arm64 (f : float64) : Z :=
  match f with
  | S754_nan => 0
  | S754_infinity s | S754_finite s _ _ => if s then - 2 ^ 63 else 2 ^ 63 - 1
  | S754_zero _ => 0
  end.

(** The loop of [math.pow] on the exponent's bits: [x1 * 2^xe] is the current
    square, [a1 * 2^ae] the product so far. *)
Fixpoint pow_loop (fuel : nat) (i : Z) (x1 : float64) (xe : Z)
    (a1 : float64) (ae : Z) : float64 * Z :=
  match fuel with
  | O => (a1, ae)
  | S fuel' =>
      if bool_decide (i = 0) then (a1, ae)
      else if bool_decide (xe < - 4096) || bool_decide (4096 < xe)
      then (a1, ae + xe)
      else
        let '(a1', ae') :=
          if bool_decide (Z.land i 1 = 1) then (f64_mul a1 x1, ae + xe)
          else (a1, ae) in
        let x1' := f64_mul x1 x1 in
        let xe' := Z.shiftl xe 1 in
        let '(x1'', xe'') :=
          if f64_lt x1' f64_half then (f64_add x1' x1', xe' - 1)
          else (x1', xe') in
        pow_loop fuel' (Z.shiftr i 1) x1'' xe'' a1' ae'
  end.

(** [math.Pow(x, y)] for [x >= 1], infinite or NaN and an integral [y]; the
    loop runs once per bit of an [int64], so 64 rounds are enough. *)
Definition Pow (x y : float64) : float64 :=
  if f64_eq y (f64_of_Z 0) || f64_eq x f64_one then f64_one
  else if f64_eq y f64_one then x
  else match x, f64_trunc y with
  | S754_nan, _ | _, None => S754_nan
  | S754_infinity _, Some yi =>
      if bool_decide (yi < 0) then S754_zero false else S754_infinity false
  | _, Some yi =>
      if bool_decide (2 ^ 63 ≤ Z.abs yi) then
        (if bool_decide (0 < yi) then S754_infinity false else S754_zero false)
      else
        let '(x1, xe) := SFfrexp 53 1024 x in
        let '(a1, ae) := pow_loop 64 (Z.abs yi) x1 xe f64_one 0 in
        let '(a1', ae') :=
          if bool_decide (yi < 0) then (f64_div f64_one a1, - ae) else (a1, ae) in
        SFldexp 53 1024 a1' ae'
  end.

(** ** Exactness of the arithmetic on small integers and powers of two *)

(** [2.0 ^ n] is exact for every exponent an [int64] duration can hold. *)
Definition pow2_float (n : Z) : float64 := S754_finite false (2 ^ 52)%positive (n - 52).

Lemma Pow_two_exact n :
  0 ≤ n < 1000 → Pow (f64_of_Z 2) (f64_of_Z n) = pow2_float n.
Proof.
  intros Hn.
  assert (Forall (λ k : nat, Pow (f64_of_Z 2) (f64_of_Z (Z.of_nat k)) =
                             pow2_float (Z.of_nat k)) (seq 0 1000)) as Hall.
  { apply (bool_decide_unpack _). vm_compute. exact I. }
  rewrite Forall_forall in Hall.
  rewrite <- (Z2Nat.id n) by lia. apply Hall, elem_of_seq. lia.
Qed.

Lemma digits2_pos_bounds m :
  2 ^ (Zpos (digits2_pos m) - 1) ≤ Zpos m < 2 ^ Zpos (digits2_pos m).
Proof.
  induction m as [m IH|m IH|]; cbn [digits2_pos]; [| |done].
  all: rewrite Pos2Z.inj_succ;
    replace (Z.succ (Zpos (digits2_pos m)) - 1) with (Zpos (digits2_pos m)) by lia.
  all: assert (2 ^ Zpos (digits2_pos m) = 2 * 2 ^ (Zpos (digits2_pos m) - 1)) as E
    by (rewrite <- Z.pow_succ_r by lia; f_equal; lia).
  all: rewrite Z.pow_succ_r by lia; lia.
Qed.

Lemma digits2_pos_iter_xO m k :
  digits2_pos (Pos.iter xO m k) = (digits2_pos m + k)%positive.
Proof.
  induction k as [|k IH] using Pos.peano_ind; [cbn; lia|].
  rewrite Pos.iter_succ. cbn [digits2_pos]. rewrite IH. lia.
Qed.

Lemma Zpos_iter_xO m k : Zpos (Pos.iter xO m k) = Zpos m * 2 ^ Zpos k.
Proof.
  induction k as [|k IH] using Pos.peano_ind; [cbn; lia|].
  rewrite Pos.iter_succ, Pos2Z.inj_xO, IH, Pos2Z.inj_succ, Z.pow_succ_r by lia. lia.
Qed.

(** A full mantissa is left alone, one with 52 zeros behind it is shifted. *)
Lemma shr_fexp_full m e :
  digits2_pos m = 53%positive → -1074 ≤ e →
  shr_fexp 53 1024 (Zpos m) e loc_Exact = (Build_shr_record (Zpos m) false false, e).
Proof.
  intros Hd He. unfold shr_fexp, fexp, emin. cbn [Zdigits2 shr_record_of_loc].
  rewrite Hd. replace (Z.max (53 + e - 53) (3 - 1024 - 53) - e) with 0 by lia. done.
Qed.

Lemma shr_fexp_shift m e :
  digits2_pos m = 53%positive → -1074 ≤ e + 52 →
  shr_fexp 53 1024 (Zpos (Pos.iter xO m 52)) e loc_Exact =
    (Build_shr_record (Zpos m) false false, e + 52).
Proof.
  intros Hd He. unfold shr_fexp, fexp, emin. unfold Zdigits2.
  rewrite digits2_pos_iter_xO, Hd.
  replace (Z.max (Zpos (53 + 52) + e - 53) (3 - 1024 - 53) - e) with 52 by lia.
  reflexivity.
Qed.

(** A full mantissa in the exponent range is not rounded. *)
Lemma binary_round_aux_full s m e :
  digits2_pos m = 53%positive → -1074 ≤ e ≤ 971 →
  binary_round_aux 53 1024 s (Zpos m) e loc_Exact = S754_finite s m e.
Proof.
  intros Hd He. unfold binary_round_aux.
  rewrite shr_fexp_full by (done || lia).
  cbn [shr_m loc_of_shr_record round_nearest_even].
  rewrite shr_fexp_full by (done || lia). cbn [shr_m].
  by destruct (Z.leb_spec e (1024 - 53)); [|lia].
Qed.

(** A small integer converts exactly, to its scaled full mantissa. *)
Lemma f64_of_Z_small z :
  0 < z < 2 ^ 53 →
  ∃ m k, f64_of_Z z = S754_finite false m (- k) ∧ digits2_pos m = 53%positive ∧
         Zpos m = z * 2 ^ k ∧ 0 ≤ k ≤ 52.
Proof.
  intros Hz. destruct z as [|p|p]; [lia| |lia].
  pose proof (digits2_pos_bounds p) as [Hlo Hhi].
  assert (Zpos (digits2_pos p) ≤ 53) as Hd.
  { assert (2 ^ (Zpos (digits2_pos p) - 1) < 2 ^ 53) as H by lia.
    apply Z.pow_lt_mono_r_iff in H; lia. }
  unfold f64_of_Z, binary_normalize, binary_round, shl_align, fexp, emin.
  replace (Z.max (Zpos (digits2_pos p) + 0 - 53) (3 - 1024 - 53) - 0)
    with (Zpos (digits2_pos p) - 53) by lia.
  destruct (Zpos (digits2_pos p) - 53) as [|q|q] eqn:E.
  - exists p, 0. split_and!; [|lia|lia|lia|lia].
    apply binary_round_aux_full; lia.
  - lia.
  - exists (Pos.iter xO p q), (Zpos q).
    assert (digits2_pos (Pos.iter xO p q) = 53%positive) as E'
      by (rewrite digits2_pos_iter_xO; lia).
    split_and!; [|done|apply Zpos_iter_xO|lia|lia].
    replace (Z.max (Zpos (digits2_pos p) + 0 - 53) (3 - 1024 - 53))
      with (- Zpos q) by lia.
    apply binary_round_aux_full; [done|lia].
Qed.

(** Multiplying by a power of two is exact. *)
Lemma f64_mul_pow2 s m e n :
  digits2_pos m = 53%positive → -1074 ≤ e + n ≤ 971 →
  f64_mul (S754_finite s m e) (pow2_float n) = S754_finite s m (e + n).
Proof.
  intros Hd He. unfold f64_mul, SFmul, pow2_float. rewrite xorb_false_r.
  replace (m * 2 ^ 52)%positive with (Pos.iter xO m 52)
    by (apply Pos2Z.inj; rewrite Zpos_iter_xO, Pos2Z.inj_mul, Pos2Z.inj_pow; done).
  unfold binary_round_aux. rewrite shr_fexp_shift by (done || lia).
  cbn [shr_m loc_of_shr_record round_nearest_even].
  replace (e + (n - 52) + 52) with (e + n) by lia.
  rewrite shr_fexp_full by (done || lia). cbn [shr_m].
  by destruct (Z.leb_spec (e + n) (1024 - 53)); [|lia].
Qed.

(** [float64(z) * math.Pow(2, n)] is [z * 2^n]. *)
Lemma f64_scale_trunc z n :
  0 < z < 2 ^ 53 → 0 ≤ n ≤ 971 →
  ∃ m e, f64_mul (f64_of_Z z) (pow2_float n) = S754_finite false m e ∧
         f64_trunc (S754_finite false m e) = Some (z * 2 ^ n).
Proof.
  intros Hz Hn. destruct (f64_of_Z_small z Hz) as (m & k & -> & Hd & Hm & Hk).
  rewrite f64_mul_pow2 by (done || lia). eexists _, _. split; [done|].
  unfold f64_trunc. f_equal. cbn zeta. rewrite Hm. case_bool_decide.
  - rewrite <- Z.mul_assoc, <- Z.pow_add_r by lia. do 2 f_equal. lia.
  - replace k with (n + - (- k + n)) at 1 by lia.
    rewrite Z.pow_add_r, Z.mul_assoc, Z.quot_mul; [done|lia..].
Qed.

(** As a duration it is exact while it fits, and the machine's choice when it
    does not. *)
Lemma f64_scale_int64 oob z n :
  0 < z < 2 ^ 53 → 0 ≤ n ≤ 971 →
  f64_to_int64 oob (f64_mul (f64_of_Z z) (pow2_float n)) =
    if bool_decide (z * 2 ^ n < 2 ^ 63) then z * 2 ^ n
    else oob (f64_mul (f64_of_Z z) (pow2_float n)).
Proof.
  intros Hz Hn. destruct (f64_scale_trunc z n Hz Hn) as (m & e & Heq & Ht).
  unfold f64_to_int64. rewrite Heq, Ht.
  assert (0 < 2 ^ n) by (apply Z.pow_pos_nonneg; lia).
  case_bool_decide; case_bool_decide; try done; nia.
Qed.

Lemma oob_arm64_scale z n :
  0 < z < 2 ^ 53 → 0 ≤ n ≤ 971 →
  oob_arm64 (f64_mul (f64_of_Z z) (pow2_float n)) = 2 ^ 63 - 1.
Proof. intros Hz Hn. by destruct (f64_scale_trunc z n Hz Hn) as (m & e & -> & _). Qed.
