(* ===== verification/Domain.v ===== *)
(** * internal/domain: the data the components exchange

    The structs of internal/domain as records (one field prefix per struct),
    its string enumerations as inductive types where every value that reaches
    a state is one of the constants, and as strings where a client chooses the
    value (job types, schedule types, result reasons); [AvailableSlots],
    [IsAssignable], [NextRunAt], [ValidateSchedule] and
    [DefaultRetryPolicy]. *)

From S2P Require Import Prelude.
From S2P Require Import Float64.

(** ** job.go *)

(** [JobState]; [JobStateNone] is the zero value [""]. *)
Inductive JobState :=
  | JobStateNone
  | JobStateCreated
  | JobStateScheduled
  | JobStateQueued
  | JobStateAssigned
  | JobStateRunning
  | JobStateCompleted
  | JobStateFailed
  | JobStateTimeout
  | JobStateRetrying
  | JobStateCancelRequested
  | JobStateCancelled
  | JobStateExpired.

#[global] Instance JobState_eq_dec : EqDecision JobState.
Proof. solve_decision. Defined.

Definition JobState_string (s : JobState) : string :=
  match s with
  | JobStateNone => ""
  | JobStateCreated => "CREATED"
  | JobStateScheduled => "SCHEDULED"
  | JobStateQueued => "QUEUED"
  | JobStateAssigned => "ASSIGNED"
  | JobStateRunning => "RUNNING"
  | JobStateCompleted => "COMPLETED"
  | JobStateFailed => "FAILED"
  | JobStateTimeout => "TIMEOUT"
  | JobStateRetrying => "RETRYING"
  | JobStateCancelRequested => "CANCEL_REQUESTED"
  | JobStateCancelled => "CANCELLED"
  | JobStateExpired => "EXPIRED"
  end.

#[global] Instance JobState_string_inj : Inj (=) (=) JobState_string.
Proof. intros [] []; done. Qed.

Definition ScheduleType := string.
Definition ScheduleImmediate : ScheduleType := "immediate".
Definition ScheduleDelayed : ScheduleType := "delayed".
Definition ScheduleOneTime : ScheduleType := "one_time".
Definition ScheduleRecurring : ScheduleType := "recurring".

Definition JobType := string.
Definition JobTypeBuiltin : JobType := "builtin".
Definition JobTypeWebhook : JobType := "webhook".

Record RetryPolicy := mkRetryPolicy {
  rp_MaxAttempts : Z;
  rp_BackoffStrategy : string;
  rp_InitialDelay : Duration;
  rp_MaxDelay : Duration;
  rp_Multiplier : float64;
  rp_Jitter : bool;
}.

Definition DefaultRetryPolicy : RetryPolicy :=
  {| rp_MaxAttempts := 3;
     rp_BackoffStrategy := "exponential";
     rp_InitialDelay := Second;
     rp_MaxDelay := 5 * Minute;
     rp_Multiplier := f64_of_Z 2;
     rp_Jitter := true |}.

Record Schedule := mkSchedule {
  sc_Type : ScheduleType;
  sc_RunAt : option time;
  sc_Delay : Duration;
  sc_CronExpr : string;
  sc_Timezone : string;
}.

(** [json.RawMessage] and [[]byte] are byte strings, [None] is nil. *)
Record Job := mkJob {
  j_ID : string;
  j_Name : string;
  j_Type : JobType;
  j_Payload : option string;
  j_Priority : Z;
  j_State : JobState;
  j_Schedule : Schedule;
  j_RetryPolicy : RetryPolicy;
  j_Timeout : Duration;
  j_IdempotencyKey : string;
  j_Attempt : Z;
  j_MaxAttempts : Z;
  j_WorkerID : string;
  j_ExecutionID : string;
  j_LastError : string;
  j_ScheduledAt : option time;
  j_QueuedAt : option time;
  j_StartedAt : option time;
  j_CompletedAt : option time;
  j_NextRetryAt : option time;
  j_CreatedAt : time;
  j_UpdatedAt : time;
  j_Metadata : option (gmap string string);
}.


(** Assignments [j.F = v]. *)
Definition set_ID (v : string) (r : Job) : Job :=
  mkJob v (j_Name r) (j_Type r) (j_Payload r) (j_Priority r)
    (j_State r) (j_Schedule r) (j_RetryPolicy r) (j_Timeout r) (j_IdempotencyKey r)
    (j_Attempt r) (j_MaxAttempts r) (j_WorkerID r) (j_ExecutionID r) (j_LastError r)
    (j_ScheduledAt r) (j_QueuedAt r) (j_StartedAt r) (j_CompletedAt r) (j_NextRetryAt r)
    (j_CreatedAt r) (j_UpdatedAt r) (j_Metadata r).
Definition set_State (v : JobState) (r : Job) : Job :=
  mkJob (j_ID r) (j_Name r) (j_Type r) (j_Payload r) (j_Priority r)
    v (j_Schedule r) (j_RetryPolicy r) (j_Timeout r) (j_IdempotencyKey r)
    (j_Attempt r) (j_MaxAttempts r) (j_WorkerID r) (j_ExecutionID r) (j_LastError r)
    (j_ScheduledAt r) (j_QueuedAt r) (j_StartedAt r) (j_CompletedAt r) (j_NextRetryAt r)
    (j_CreatedAt r) (j_UpdatedAt r) (j_Metadata r).
Definition set_WorkerID (v : string) (r : Job) : Job :=
  mkJob (j_ID r) (j_Name r) (j_Type r) (j_Payload r) (j_Priority r)
    (j_State r) (j_Schedule r) (j_RetryPolicy r) (j_Timeout r) (j_IdempotencyKey r)
    (j_Attempt r) (j_MaxAttempts r) v (j_ExecutionID r) (j_LastError r)
    (j_ScheduledAt r) (j_QueuedAt r) (j_StartedAt r) (j_CompletedAt r) (j_NextRetryAt r)
    (j_CreatedAt r) (j_UpdatedAt r) (j_Metadata r).
Definition set_ExecutionID (v : string) (r : Job) : Job :=
  mkJob (j_ID r) (j_Name r) (j_Type r) (j_Payload r) (j_Priority r)
    (j_State r) (j_Schedule r) (j_RetryPolicy r) (j_Timeout r) (j_IdempotencyKey r)
    (j_Attempt r) (j_MaxAttempts r) (j_WorkerID r) v (j_LastError r)
    (j_ScheduledAt r) (j_QueuedAt r) (j_StartedAt r) (j_CompletedAt r) (j_NextRetryAt r)
    (j_CreatedAt r) (j_UpdatedAt r) (j_Metadata r).
Definition set_LastError (v : string) (r : Job) : Job :=
  mkJob (j_ID r) (j_Name r) (j_Type r) (j_Payload r) (j_Priority r)
    (j_State r) (j_Schedule r) (j_RetryPolicy r) (j_Timeout r) (j_IdempotencyKey r)
    (j_Attempt r) (j_MaxAttempts r) (j_WorkerID r) (j_ExecutionID r) v
    (j_ScheduledAt r) (j_QueuedAt r) (j_StartedAt r) (j_CompletedAt r) (j_NextRetryAt r)
    (j_CreatedAt r) (j_UpdatedAt r) (j_Metadata r).
Definition set_Attempt (v : Z) (r : Job) : Job :=
  mkJob (j_ID r) (j_Name r) (j_Type r) (j_Payload r) (j_Priority r)
    (j_State r) (j_Schedule r) (j_RetryPolicy r) (j_Timeout r) (j_IdempotencyKey r)
    v (j_MaxAttempts r) (j_WorkerID r) (j_ExecutionID r) (j_LastError r)
    (j_ScheduledAt r) (j_QueuedAt r) (j_StartedAt r) (j_CompletedAt r) (j_NextRetryAt r)
    (j_CreatedAt r) (j_UpdatedAt r) (j_Metadata r).
Definition set_ScheduledAt (v : option time) (r : Job) : Job :=
  mkJob (j_ID r) (j_Name r) (j_Type r) (j_Payload r) (j_Priority r)
    (j_State r) (j_Schedule r) (j_RetryPolicy r) (j_Timeout r) (j_IdempotencyKey r)
    (j_Attempt r) (j_MaxAttempts r) (j_WorkerID r) (j_ExecutionID r) (j_LastError r)
    v (j_QueuedAt r) (j_StartedAt r) (j_CompletedAt r) (j_NextRetryAt r)
    (j_CreatedAt r) (j_UpdatedAt r) (j_Metadata r).
Definition set_QueuedAt (v : option time) (r : Job) : Job :=
  mkJob (j_ID r) (j_Name r) (j_Type r) (j_Payload r) (j_Priority r)
    (j_State r) (j_Schedule r) (j_RetryPolicy r) (j_Timeout r) (j_IdempotencyKey r)
    (j_Attempt r) (j_MaxAttempts r) (j_WorkerID r) (j_ExecutionID r) (j_LastError r)
    (j_ScheduledAt r) v (j_StartedAt r) (j_CompletedAt r) (j_NextRetryAt r)
    (j_CreatedAt r) (j_UpdatedAt r) (j_Metadata r).
Definition set_StartedAt (v : option time) (r : Job) : Job :=
  mkJob (j_ID r) (j_Name r) (j_Type r) (j_Payload r) (j_Priority r)
    (j_State r) (j_Schedule r) (j_RetryPolicy r) (j_Timeout r) (j_IdempotencyKey r)
    (j_Attempt r) (j_MaxAttempts r) (j_WorkerID r) (j_ExecutionID r) (j_LastError r)
    (j_ScheduledAt r) (j_QueuedAt r) v (j_CompletedAt r) (j_NextRetryAt r)
    (j_CreatedAt r) (j_UpdatedAt r) (j_Metadata r).
Definition set_CompletedAt (v : option time) (r : Job) : Job :=
  mkJob (j_ID r) (j_Name r) (j_Type r) (j_Payload r) (j_Priority r)
    (j_State r) (j_Schedule r) (j_RetryPolicy r) (j_Timeout r) (j_IdempotencyKey r)
    (j_Attempt r) (j_MaxAttempts r) (j_WorkerID r) (j_ExecutionID r) (j_LastError r)
    (j_ScheduledAt r) (j_QueuedAt r) (j_StartedAt r) v (j_NextRetryAt r)
    (j_CreatedAt r) (j_UpdatedAt r) (j_Metadata r).
Definition set_NextRetryAt (v : option time) (r : Job) : Job :=
  mkJob (j_ID r) (j_Name r) (j_Type r) (j_Payload r) (j_Priority r)
    (j_State r) (j_Schedule r) (j_RetryPolicy r) (j_Timeout r) (j_IdempotencyKey r)
    (j_Attempt r) (j_MaxAttempts r) (j_WorkerID r) (j_ExecutionID r) (j_LastError r)
    (j_ScheduledAt r) (j_QueuedAt r) (j_StartedAt r) (j_CompletedAt r) v
    (j_CreatedAt r) (j_UpdatedAt r) (j_Metadata r).
Definition set_CreatedAt (v : time) (r : Job) : Job :=
  mkJob (j_ID r) (j_Name r) (j_Type r) (j_Payload r) (j_Priority r)
    (j_State r) (j_Schedule r) (j_RetryPolicy r) (j_Timeout r) (j_IdempotencyKey r)
    (j_Attempt r) (j_MaxAttempts r) (j_WorkerID r) (j_ExecutionID r) (j_LastError r)
    (j_ScheduledAt r) (j_QueuedAt r) (j_StartedAt r) (j_CompletedAt r) (j_NextRetryAt r)
    v (j_UpdatedAt r) (j_Metadata r).
Definition set_UpdatedAt (v : time) (r : Job) : Job :=
  mkJob (j_ID r) (j_Name r) (j_Type r) (j_Payload r) (j_Priority r)
    (j_State r) (j_Schedule r) (j_RetryPolicy r) (j_Timeout r) (j_IdempotencyKey r)
    (j_Attempt r) (j_MaxAttempts r) (j_WorkerID r) (j_ExecutionID r) (j_LastError r)
    (j_ScheduledAt r) (j_QueuedAt r) (j_StartedAt r) (j_CompletedAt r) (j_NextRetryAt r)
    (j_CreatedAt r) v (j_Metadata r).
Definition set_Priority (v : Z) (r : Job) : Job :=
  mkJob (j_ID r) (j_Name r) (j_Type r) (j_Payload r) v
    (j_State r) (j_Schedule r) (j_RetryPolicy r) (j_Timeout r) (j_IdempotencyKey r)
    (j_Attempt r) (j_MaxAttempts r) (j_WorkerID r) (j_ExecutionID r) (j_LastError r)
    (j_ScheduledAt r) (j_QueuedAt r) (j_StartedAt r) (j_CompletedAt r) (j_NextRetryAt r)
    (j_CreatedAt r) (j_UpdatedAt r) (j_Metadata r).
Definition set_Payload (v : option string) (r : Job) : Job :=
  mkJob (j_ID r) (j_Name r) (j_Type r) v (j_Priority r)
    (j_State r) (j_Schedule r) (j_RetryPolicy r) (j_Timeout r) (j_IdempotencyKey r)
    (j_Attempt r) (j_MaxAttempts r) (j_WorkerID r) (j_ExecutionID r) (j_LastError r)
    (j_ScheduledAt r) (j_QueuedAt r) (j_StartedAt r) (j_CompletedAt r) (j_NextRetryAt r)
    (j_CreatedAt r) (j_UpdatedAt r) (j_Metadata r).

Record CreateJobRequest := mkCreateJobRequest {
  req_Name : string;
  req_Type : JobType;
  req_Payload : option string;
  req_Priority : Z;
  req_Schedule : Schedule;
  req_RetryPolicy : option RetryPolicy;
  req_TimeoutSeconds : Z;
  req_IdempotencyKey : string;
  req_Metadata : option (gmap string string);
}.

Definition ResultReason := string.
Definition ReasonSuccess : ResultReason := "success".
Definition ReasonFailed : ResultReason := "failed".
Definition ReasonTimeout : ResultReason := "timeout".
Definition ReasonCancelled : ResultReason := "cancelled".

Record ExecutionResult := mkExecutionResult {
  res_Success : bool;
  res_Output : option string;
  res_Error : string;
  res_Retryable : bool;
  res_Duration : Duration;
  res_Reason : ResultReason;
}.

Definition set_Reason (v : ResultReason) (r : ExecutionResult) : ExecutionResult :=
  mkExecutionResult (res_Success r) (res_Output r) (res_Error r)
    (res_Retryable r) (res_Duration r) v.

(** ** execution.go *)

Inductive ExecutionState :=
  | ExecutionPending
  | ExecutionRunning
  | ExecutionCompleted
  | ExecutionFailed
  | ExecutionTimeout
  | ExecutionCancelled.

#[global] Instance ExecutionState_eq_dec : EqDecision ExecutionState.
Proof. solve_decision. Defined.

Record JobExecution := mkJobExecution {
  x_ID : string;
  x_JobID : string;
  x_WorkerID : string;
  x_Attempt : Z;
  x_State : ExecutionState;
  x_StartedAt : option time;
  x_FinishedAt : option time;
  x_DurationMs : Z;
  x_Error : string;
  x_Output : option string;
  x_Retryable : bool;
  x_CreatedAt : time;
}.

(** ** queue.go *)

Record QueuedJob := mkQueuedJob {
  q_JobID : string;
  q_ExecutionID : string;
  q_Name : string;
  q_Type : JobType;
  q_Payload : option string;
  q_Priority : Z;
  q_Attempt : Z;
  q_Timeout : Duration;
  q_EnqueuedAt : time;
  q_TraceID : string;
}.

#[global] Instance QueuedJob_eq_dec : EqDecision QueuedJob.
Proof. solve_decision. Defined.

Definition set_q_EnqueuedAt (v : time) (q : QueuedJob) : QueuedJob :=
  mkQueuedJob (q_JobID q) (q_ExecutionID q) (q_Name q) (q_Type q) (q_Payload q)
    (q_Priority q) (q_Attempt q) (q_Timeout q) v (q_TraceID q).

(** [job.Attempt = a; job.ExecutionID = e] *)
Definition set_q_Attempt_ExecutionID (a : Z) (e : string) (q : QueuedJob) : QueuedJob :=
  mkQueuedJob (q_JobID q) e (q_Name q) (q_Type q) (q_Payload q)
    (q_Priority q) a (q_Timeout q) (q_EnqueuedAt q) (q_TraceID q).

(** ** worker.go *)

(** [WorkerStatusNone] is the zero value [""]. *)
Inductive WorkerStatus :=
  | WorkerStatusNone
  | WorkerStatusHealthy
  | WorkerStatusSuspected
  | WorkerStatusUnavailable
  | WorkerStatusDraining.

#[global] Instance WorkerStatus_eq_dec : EqDecision WorkerStatus.
Proof. solve_decision. Defined.

Record WorkerCapabilities := mkWorkerCapabilities {
  cap_Builtin : bool;
  cap_Webhook : bool;
}.

Record Worker := mkWorker {
  w_ID : string;
  w_Address : string;
  w_Status : WorkerStatus;
  w_Capacity : Z;
  w_ActiveJobs : Z;
  w_Capabilities : WorkerCapabilities;
  w_Labels : option (gmap string string);
  w_LastHeartbeat : time;
  w_RegisteredAt : time;
  w_Metadata : option (gmap string string);
}.

Definition set_w_Status (v : WorkerStatus) (r : Worker) : Worker :=
  mkWorker (w_ID r) (w_Address r) v (w_Capacity r) (w_ActiveJobs r)
    (w_Capabilities r) (w_Labels r) (w_LastHeartbeat r) (w_RegisteredAt r) (w_Metadata r).
Definition set_w_Capacity (v : Z) (r : Worker) : Worker :=
  mkWorker (w_ID r) (w_Address r) (w_Status r) v (w_ActiveJobs r)
    (w_Capabilities r) (w_Labels r) (w_LastHeartbeat r) (w_RegisteredAt r) (w_Metadata r).
Definition set_w_ActiveJobs (v : Z) (r : Worker) : Worker :=
  mkWorker (w_ID r) (w_Address r) (w_Status r) (w_Capacity r) v
    (w_Capabilities r) (w_Labels r) (w_LastHeartbeat r) (w_RegisteredAt r) (w_Metadata r).
Definition set_w_LastHeartbeat (v : time) (r : Worker) : Worker :=
  mkWorker (w_ID r) (w_Address r) (w_Status r) (w_Capacity r) (w_ActiveJobs r)
    (w_Capabilities r) (w_Labels r) v (w_RegisteredAt r) (w_Metadata r).
Definition set_w_RegisteredAt (v : time) (r : Worker) : Worker :=
  mkWorker (w_ID r) (w_Address r) (w_Status r) (w_Capacity r) (w_ActiveJobs r)
    (w_Capabilities r) (w_Labels r) (w_LastHeartbeat r) v (w_Metadata r).

Definition AvailableSlots (w : Worker) : Z :=
  let slots := int64 (w_Capacity w - w_ActiveJobs w) in
  if bool_decide (slots < 0) then 0 else slots.

Definition IsAssignable (w : Worker) : bool :=
  bool_decide (w_Status w = WorkerStatusHealthy) && bool_decide (0 < AvailableSlots w).

(** ** event.go *)

Inductive EventType :=
  | EventJobCreated
  | EventJobScheduled
  | EventJobQueued
  | EventJobAssigned
  | EventJobStarted
  | EventJobCompleted
  | EventJobFailed
  | EventJobRetryScheduled
  | EventJobCancelRequested
  | EventJobCancelled
  | EventJobTimeout
  | EventJobExpired
  | EventWorkerRegistered
  | EventWorkerHeartbeat
  | EventWorkerCapacityChanged
  | EventWorkerUnavailable
  | EventWorkerRecovered
  | EventWorkerDeregistered
  | EventSchedulerStarted
  | EventSchedulerStopped
  | EventSchedulerLeaderAcquired
  | EventSchedulerLeaderLost
  | EventSchedulerRebalanced.

#[global] Instance EventType_eq_dec : EqDecision EventType.
Proof. solve_decision. Defined.

Definition EventType_string (e : EventType) : string :=
  match e with
  | EventJobCreated => "JOB_CREATED"
  | EventJobScheduled => "JOB_SCHEDULED"
  | EventJobQueued => "JOB_QUEUED"
  | EventJobAssigned => "JOB_ASSIGNED"
  | EventJobStarted => "JOB_STARTED"
  | EventJobCompleted => "JOB_COMPLETED"
  | EventJobFailed => "JOB_FAILED"
  | EventJobRetryScheduled => "JOB_RETRY_SCHEDULED"
  | EventJobCancelRequested => "JOB_CANCEL_REQUESTED"
  | EventJobCancelled => "JOB_CANCELLED"
  | EventJobTimeout => "JOB_TIMEOUT"
  | EventJobExpired => "JOB_EXPIRED"
  | EventWorkerRegistered => "WORKER_REGISTERED"
  | EventWorkerHeartbeat => "WORKER_HEARTBEAT"
  | EventWorkerCapacityChanged => "WORKER_CAPACITY_CHANGED"
  | EventWorkerUnavailable => "WORKER_UNAVAILABLE"
  | EventWorkerRecovered => "WORKER_RECOVERED"
  | EventWorkerDeregistered => "WORKER_DEREGISTERED"
  | EventSchedulerStarted => "SCHEDULER_STARTED"
  | EventSchedulerStopped => "SCHEDULER_STOPPED"
  | EventSchedulerLeaderAcquired => "SCHEDULER_LEADER_ACQUIRED"
  | EventSchedulerLeaderLost => "SCHEDULER_LEADER_LOST"
  | EventSchedulerRebalanced => "SCHEDULER_REBALANCED"
  end.

(** [IngestedAt] is set by no code of the repository; the payload is the
    marshalled JSON of the map passed to [Emit], kept as the map here. *)
Record Event := mkEvent {
  ev_EventID : string;
  ev_EventType : EventType;
  ev_EventVersion : Z;
  ev_EventTime : time;
  ev_IngestedAt : option time;
  ev_JobID : string;
  ev_ExecutionID : string;
  ev_WorkerID : string;
  ev_SchedulerID : string;
  ev_Attempt : Z;
  ev_TraceID : string;
  ev_Payload : option fields;
}.

(** ** schedule.go *)

(** The cron library and the time zone database: [Parse] is the parser's,
    [Next] the schedule's method at an instant seen in a location. *)
Class CronLib := {
  Location : Type;
  UTC : Location;
  LoadLocation : string → result Location;
  CronSchedule : Type;
  Parse : string → result CronSchedule;
  Next : CronSchedule → Location → time → time;
}.

(** The library's documentation of [Next]: "the next time this schedule is
    activated, greater than the given time; if no time can be found to satisfy
    the schedule, return the zero time". *)
Class CronLaws `{CronLib} : Prop :=
  Next_later : ∀ s loc t, Next s loc t = zero_time ∨ t < Next s loc t.

Section schedule.
Context `{CronLib}.

Definition NextRunAt (s : Schedule) (from : time) : result time :=
  if bool_decide (sc_Type s = ScheduleImmediate) then Ok from
  else if bool_decide (sc_Type s = ScheduleDelayed) then
    let d := sc_Delay s in
    let d := if bool_decide (d ≤ 0) then 0 else d in
    Ok (time_add from d)
  else if bool_decide (sc_Type s = ScheduleOneTime) then
    match sc_RunAt s with
    | None => Err (Errorf "run_at required" [])
    | Some t => Ok t
    end
  else if bool_decide (sc_Type s = ScheduleRecurring) then
    if bool_decide (sc_CronExpr s = "") then
      Err (Errorf "cron_expr required for recurring" [])
    else
      let loc := if bool_decide (sc_Timezone s = "") then Ok UTC
                 else LoadLocation (sc_Timezone s) in
      match loc with
      | Err e => Err (Wrapf "timezone: %w" e)
      | Ok loc =>
          match Parse (sc_CronExpr s) with
          | Err e => Err (Wrapf "cron_expr: %w" e)
          | Ok sched => Ok (Next sched loc from)
          end
      end
  else Err (Errorf "unknown schedule type %q" [sc_Type s]).

(** [now] is the clock reading of the recurring branch. *)
Definition ValidateSchedule (now : time) (s : Schedule) : option GoError :=
  if bool_decide (sc_Type s = "") || bool_decide (sc_Type s = ScheduleImmediate)
  then None
  else if bool_decide (sc_Type s = ScheduleDelayed) then None
  else if bool_decide (sc_Type s = ScheduleOneTime) then
    match sc_RunAt s with
    | None => Some (Errorf "run_at required for one_time" [])
    | Some _ => None
    end
  else if bool_decide (sc_Type s = ScheduleRecurring) then
    if bool_decide (sc_CronExpr s = "") then
      Some (Errorf "cron_expr required for recurring" [])
    else match NextRunAt s now with Ok _ => None | Err e => Some e end
  else Some (Errorf "unknown schedule type %q" [sc_Type s]).

(** Whether a recurring schedule has a next run does not depend on the
    instant it is asked at. *)
Lemma NextRunAt_recurring `{!CronLaws} s t t' a :
  sc_Type s = ScheduleRecurring → NextRunAt s t = Ok a →
  ∃ a', NextRunAt s t' = Ok a' ∧ (a' = zero_time ∨ t' < a').
Proof.
  unfold NextRunAt. intros ->.
  rewrite (bool_decide_false (ScheduleRecurring = ScheduleImmediate)),
    (bool_decide_false (ScheduleRecurring = ScheduleDelayed)),
    (bool_decide_false (ScheduleRecurring = ScheduleOneTime)),
    (bool_decide_true (ScheduleRecurring = ScheduleRecurring)) by done.
  cbn zeta. destruct (bool_decide (sc_CronExpr s = "")); [done|].
  destruct (if bool_decide _ then _ else _) as [loc|]; [|done].
  destruct (Parse (sc_CronExpr s)); [|done]. intros _. eexists. split; [done|]. apply Next_later.
Qed.
End schedule.
