(* ===== verification/Auth.v ===== *)
(** * internal/auth/apikey.go: API keys and worker tokens

    The [Authenticator] and its middleware.  A request is given by the values
    of the two headers the middleware reads (empty when absent); the wrapped
    handler is an argument. *)

From S2P Require Import Prelude.

Record Authenticator := mkAuthenticator {
  au_apiKeys : gset string;
  au_workerTokens : gset string;
  au_disabled : bool;
}.

(** The loops of [New] skip empty strings. *)
Definition non_empty (ks : list string) : gset string :=
  foldl (λ s k, if bool_decide (k = "") then s else {[k]} ∪ s) ∅ ks.

Definition auth_New (apiKeys workerTokens : list string) (disabled : bool) : Authenticator :=
  mkAuthenticator (non_empty apiKeys) (non_empty workerTokens) disabled.

Definition ValidAPIKey (a : Authenticator) (key : string) : bool :=
  if au_disabled a then true else bool_decide (key ∈ au_apiKeys a).

Definition ValidWorkerToken (a : Authenticator) (token : string) : bool :=
  if au_disabled a then true else bool_decide (token ∈ au_workerTokens a).

(** ** The part of package strings the middleware uses, on the bytes *)

Definition byte (n : nat) : Ascii.ascii := Ascii.ascii_of_nat n.

Definition bytes (l : list nat) : string := String.string_of_list_ascii (byte <$> l).

(** The first letter of [s] in lower case, when it is an ASCII character, and
    the rest.  Besides the ASCII letters only U+0130 and U+212A have an ASCII
    lower case, "i" and "k". *)
Definition lower_head (s : string) : option (nat * string) :=
  match String.list_ascii_of_string s with
  | [] => None
  | c :: rest =>
      let n := Ascii.nat_of_ascii c in
      if bool_decide (n < 128)%nat then
        Some ((if bool_decide (65 ≤ n ≤ 90)%nat then n + 32 else n)%nat,
              String.string_of_list_ascii rest)
      else match n, Ascii.nat_of_ascii <$> rest with
      | 196%nat, 176%nat :: _ => Some (105%nat, String.string_of_list_ascii (drop 1 rest))
      | 226%nat, 132%nat :: 170%nat :: _ => Some (107%nat, String.string_of_list_ascii (drop 2 rest))
      | _, _ => None
      end
  end.

(** [strings.HasPrefix(strings.ToLower(s), p)] for an ASCII prefix [p]. *)
Fixpoint lower_has_prefix (p : list nat) (s : string) : bool :=
  match p with
  | [] => true
  | c :: p' =>
      match lower_head s with
      | Some (c', s') => bool_decide (c' = c) && lower_has_prefix p' s'
      | None => false
      end
  end.

(** The white space of [strings.TrimSpace] in UTF-8. *)
Definition spaces : list string :=
  bytes <$> [[9]; [10]; [11]; [12]; [13]; [32]; [194; 133]; [194; 160]; [225; 154; 128];
    [226; 128; 128]; [226; 128; 129]; [226; 128; 130]; [226; 128; 131]; [226; 128; 132];
    [226; 128; 133]; [226; 128; 134]; [226; 128; 135]; [226; 128; 136]; [226; 128; 137];
    [226; 128; 138]; [226; 128; 168]; [226; 128; 169]; [226; 128; 175]; [226; 129; 159];
    [227; 128; 128]]%nat.

Definition chop (sp s : string) : option string :=
  if String.prefix sp s
  then Some (String.substring (String.length sp) (String.length s - String.length sp) s)
  else None.

Fixpoint first_chop (sps : list string) (s : string) : option string :=
  match sps with
  | [] => None
  | sp :: sps' => match chop sp s with Some s' => Some s' | None => first_chop sps' s end
  end.

Fixpoint trim_left (fuel : nat) (sps : list string) (s : string) : string :=
  match fuel with
  | O => s
  | Datatypes.S fuel' =>
      match first_chop sps s with Some s' => trim_left fuel' sps s' | None => s end
  end.

Definition rev_string (s : string) : string :=
  String.string_of_list_ascii (reverse (String.list_ascii_of_string s)).

(** Every round removes a character, so the length is enough fuel. *)
Definition TrimSpace (s : string) : string :=
  let s := trim_left (String.length s) spaces s in
  rev_string (trim_left (String.length s) (rev_string <$> spaces) (rev_string s)).

(** "apikey " *)
Definition apikey_prefix : list nat := [97; 112; 105; 107; 101; 121; 32]%nat.

(** The key the middleware looks up. *)
Definition presented_key (xApiKey authorization : string) : string :=
  if bool_decide (xApiKey = "") then
    if lower_has_prefix apikey_prefix authorization
    then TrimSpace (String.substring 7 (String.length authorization - 7) authorization)
    else xApiKey
  else xApiKey.

(** [next] is the handler behind the middleware, [unauthorized] the reply with
    status 401. *)
Definition HTTPMiddleware {A} (a : Authenticator) (xApiKey authorization : string)
    (next unauthorized : A) : A :=
  if au_disabled a then next
  else if negb (ValidAPIKey a (presented_key xApiKey authorization)) then unauthorized
  else next.

(** [subtle.ConstantTimeCompare] is 1 exactly on equal slices. *)
Definition SecureCompare (a b : string) : bool :=
  if negb (bool_decide (String.length a = String.length b)) then false
  else bool_decide (a = b).

Lemma elem_of_non_empty k ks : k ∈ non_empty ks ↔ k ≠ "" ∧ k ∈ ks.
Proof.
  unfold non_empty.
  assert (∀ s : gset string, k ∈ foldl (λ s k, if bool_decide (k = "") then s else {[k]} ∪ s) s ks
    ↔ k ∈ s ∨ (k ≠ "" ∧ k ∈ ks)) as Hgen; [|rewrite Hgen; set_solver].
  induction ks as [|k' ks IH]; intros s; simpl; [set_solver|].
  rewrite IH. case_bool_decide; set_solver.
Qed.

(** Authentication is exact.  With authentication enabled, a request
    passes the middleware exactly when it presents one of the configured
    non-empty API keys, in X-API-Key or, when that header is absent, after
    "ApiKey " in Authorization; in particular a request without a key is always
    refused.  A worker's call passes exactly with a configured non-empty token.
    With authentication disabled everything passes. *)
Lemma authentication_exact apiKeys tokens disabled x authz token :
  let a := auth_New apiKeys tokens disabled in
  (HTTPMiddleware a x authz true false = true ↔
     disabled = true ∨
     (presented_key x authz ≠ "" ∧ presented_key x authz ∈ apiKeys)) ∧
  (ValidWorkerToken a token = true ↔ disabled = true ∨ (token ≠ "" ∧ token ∈ tokens)).
Proof.
  intros a. subst a. unfold HTTPMiddleware, ValidAPIKey, ValidWorkerToken. cbn.
  destruct disabled; [naive_solver|].
  split; case_bool_decide as Hin; rewrite elem_of_non_empty in Hin; naive_solver.
Qed.

(** Keys are found in either header, whatever the case of the scheme and the
    spaces around the key. *)
Example presented_key_examples :
  presented_key "k1" "ApiKey k2" = "k1" ∧ presented_key "" "APIKEY   k2 " = "k2" ∧
  presented_key "" "Bearer k2" = "" ∧ presented_key "" "" = "".
Proof. vm_compute. done. Qed.
