(* ===== verification/Ports.v ===== *)
(** * The environment and the interfaces between components

    - [Env]: what a handler reads from outside the repository (clock, UUIDs,
      random numbers, map iteration order, the network), as functions of a
      counter [tick] that every reading advances, so that two readings are
      independent;
    - [JobStore], [Queue]: the interfaces of internal/ports/ports.go and
      internal/domain/queue.go, with the laws that their clients rely on
      ([JobStoreLaws], [QueueLaws]) stated on abstract views;
    - [World]: the state a handler runs in, its calls and their [wp] rules. *)

From S2P Require Import Prelude.
From S2P Require Import Float64.
From S2P Require Import Domain.

(** ** proto/chronos/v1: the messages of WorkerService *)

Record ExecuteJobRequest := mkExecuteJobRequest {
  er_JobId : string;
  er_ExecutionId : string;
  er_Name : string;
  er_Type : string;
  er_Payload : option string;
  er_Attempt : Z;
  er_TimeoutMs : Z;
  er_TraceId : string;
}.

Record ExecuteJobResponse := mkExecuteJobResponse {
  eresp_Accepted : bool;
  eresp_Message : string;
}.

Record CancelJobRequest := mkCancelJobRequest {
  cr_JobId : string;
  cr_ExecutionId : string;
}.

(** ** The environment *)

Class Env := {
  (** [time.Now()] *)
  env_now : nat → time;
  (** [uuid.NewString()] *)
  env_uuid : nat → string;
  (** [rand.Float64()] *)
  env_rand : nat → float64;
  (** the order in which [range] visits the keys of a map: any order, each
      key once *)
  env_order : nat → list string → list string;
  env_order_perm : ∀ n l, env_order n l ≡ₚ l;
  (** the case a [select] takes when both are ready *)
  env_select : nat → bool;
  (** the result of writing one event *)
  env_emit : nat → option GoError;
  (** [grpc.DialContext] to an address *)
  env_dial : nat → string → option GoError;
  (** the RPCs of WorkerService to the worker at an address *)
  env_ExecuteJob : nat → string → ExecuteJobRequest → result (option ExecuteJobResponse);
  env_CancelJob : nat → string → CancelJobRequest → option GoError;
  (** [int64(f)] of a float64 out of range *)
  env_oob : float64 → Z;
}.

(** UUIDs are non-empty and do not repeat. *)
Class EnvLaws `{Env} : Prop := {
  #[global] env_uuid_inj :: Inj (=) (=) env_uuid;
  env_uuid_ne n : env_uuid n ≠ "";
}.

(** [ask f]: one reading of the environment. *)
Definition ask {Σ A} (f : nat → A) : M (nat * Σ) A :=
  λ ns, (f ns.1, (Datatypes.S ns.1, ns.2)).

(** The component's own state: reading it and assigning to it. *)
Definition getst {Σ} : M (nat * Σ) Σ := λ ns, (ns.2, ns).
Definition upd {Σ} (f : Σ → Σ) : M (nat * Σ) () := λ ns, ((), (ns.1, f ns.2)).

Section range.
Context {A : Type}.

(** The entries of [m] in the order of the keys [ks]. *)
Definition entries (ks : list string) (m : gmap string A) : list (string * A) :=
  omap (λ k, (k,.) <$> m !! k) ks.

(** [for k, v := range m] visits this list. *)
Definition range `{Env} {Σ} (m : gmap string A) : M (nat * Σ) (list (string * A)) :=
  ks ← ask (λ n, env_order n (map_to_list m).*1);
  mret (entries ks m).

Lemma entries_keys_self (m : gmap string A) :
  entries (map_to_list m).*1 m = map_to_list m.
Proof.
  unfold entries.
  assert (∀ l : list (string * A), (∀ kv, kv ∈ l → m !! kv.1 = Some kv.2) →
            omap (λ k, (k,.) <$> m !! k) l.*1 = l) as H.
  { induction l as [|[k v] l IH]; intros Hl; [done|]. simpl.
    assert (m !! k = Some v) as -> by (apply (Hl (k, v)); set_solver).
    simpl. f_equal. apply IH. set_solver. }
  apply H. intros [k v] Hin. by apply elem_of_map_to_list.
Qed.

Lemma entries_perm (ks : list string) (m : gmap string A) :
  ks ≡ₚ (map_to_list m).*1 → entries ks m ≡ₚ map_to_list m.
Proof. intros Hp. unfold entries. rewrite Hp. by rewrite <- entries_keys_self at 2. Qed.

Lemma wp_range `{Env} {Σ} (m : gmap string A) Q (ns : nat * Σ) :
  (∀ l, l ≡ₚ map_to_list m → Q l (Datatypes.S ns.1, ns.2)) → wp (range m) Q ns.
Proof.
  intros HQ. unfold range. apply wp_bind. unfold wp, ask. simpl.
  apply HQ, entries_perm, env_order_perm.
Qed.
End range.

Lemma wp_ask {Σ A} (f : nat → A) Q (ns : nat * Σ) :
  Q (f ns.1) (Datatypes.S ns.1, ns.2) → wp (ask f) Q ns.
Proof. done. Qed.

Lemma wp_getst {Σ} Q (ns : nat * Σ) : Q ns.2 ns → wp getst Q ns.
Proof. done. Qed.

Lemma wp_upd {Σ} (f : Σ → Σ) Q (ns : nat * Σ) :
  Q () (ns.1, f ns.2) → wp (upd f) Q ns.
Proof. done. Qed.

(** Symbolic execution of a component's method. *)
Ltac wp_step :=
  lazymatch goal with
  | |- wp (_ ≫= _) _ _ => apply wp_bind
  | |- wp (mret _) _ _ => apply wp_ret
  | |- wp (ask _) _ _ => apply wp_ask
  | |- wp getst _ _ => apply wp_getst
  | |- wp (upd _) _ _ => apply wp_upd
  | |- wp (range _) _ _ =>
      let l := fresh "l" in let Hl := fresh "Hl" in
      apply wp_range; intros l Hl
  end; cbn beta iota zeta; cbn [fst snd].
Ltac wp_steps := repeat wp_step.

(** ** ports.JobStore *)

(** postgres.OutboxRow; the payload is the marshalled event. *)
Record OutboxRow := mkOutboxRow {
  ob_ID : string;
  ob_EventType : string;
  ob_AggregateID : string;
  ob_Payload : option Event;
  ob_CreatedAt : time;
}.

Class JobStore (S : Type) := {
  store_CreateJob : Job → M (nat * S) (result Job);
  store_GetJob : string → M (nat * S) (result Job);
  store_GetJobByIdempotencyKey : string → M (nat * S) (result (option Job));
  store_UpdateJobState : string → JobState → fields → M (nat * S) (option GoError);
  store_UpdateJobStateIf :
    string → JobState → fields → list JobState → M (nat * S) (option GoError);
  store_ListJobs : string → Z → M (nat * S) (result (list Job));
  store_ListDueScheduled : Z → M (nat * S) (result (list Job));
  store_ListCancelRequested : Z → M (nat * S) (result (list Job));
  store_ListTimedOutRunning : time → Z → M (nat * S) (result (list Job));
  store_CreateExecution : JobExecution → M (nat * S) (result JobExecution);
  store_FinishExecution :
    string → ExecutionState → ExecutionResult → M (nat * S) (option GoError);
  store_UpsertWorker : Worker → M (nat * S) (option GoError);
  store_ListHealthyWorkers : M (nat * S) (result (list Worker));
  store_ListWorkers : M (nat * S) (result (list Worker));
  store_MarkStaleWorkers :
    Duration → Duration → M (nat * S) (result (list string * list string));
  store_InsertOutbox : Event → M (nat * S) (option GoError);
  store_FetchOutboxBatch : Z → M (nat * S) (result (list OutboxRow));
  store_MarkOutboxPublished : list string → M (nat * S) (option GoError);
}.

(** ** domain.Queue *)

Class Queue (Q : Type) := {
  queue_Enqueue : QueuedJob → M (nat * Q) (option GoError);
  queue_EnqueueDelay : QueuedJob → Duration → M (nat * Q) (option GoError);
  queue_Close : M (nat * Q) (option GoError);
  queue_Name : string;
}.

(** ** What the clients rely on *)

(** [if v, ok := fields["k"].(T); ok { j.F = v }] *)
Definition assign_if {A} (v : option A) (set : A → Job → Job) (j : Job) : Job :=
  match v with Some v => set v j | None => j end.

(** The assignments of [UpdateJobStateIf] to the job it found: both stores
    have them word for word. *)
Definition update_job (state : JobState) (now : time) (f : fields) (j : Job) : Job :=
  let j := set_State state j in
  let j := set_UpdatedAt now j in
  let j := assign_if (field_string "worker_id" f) set_WorkerID j in
  let j := assign_if (field_string "execution_id" f) set_ExecutionID j in
  let j := assign_if (field_string "last_error" f) set_LastError j in
  let j := assign_if (field_int "attempt" f) set_Attempt j in
  let j := assign_if (field_time "queued_at" f) set_QueuedAt j in
  let j := assign_if (field_time "started_at" f) set_StartedAt j in
  let j := assign_if (field_time "completed_at" f) set_CompletedAt j in
  let j := assign_if (field_time "next_retry_at" f) set_NextRetryAt j in
  let j := assign_if (field_time "scheduled_at" f) set_ScheduledAt j in
  j.

(** The assignments of [CreateExecution] and [FinishExecution]. *)
Definition stamp_execution (id : string) (now : time) (x : JobExecution) : JobExecution :=
  mkJobExecution id (x_JobID x) (x_WorkerID x) (x_Attempt x) (x_State x) (x_StartedAt x)
    (x_FinishedAt x) (x_DurationMs x) (x_Error x) (x_Output x) (x_Retryable x) now.
Definition finish_execution (state : ExecutionState) (now : time) (res : ExecutionResult)
    (x : JobExecution) : JobExecution :=
  mkJobExecution (x_ID x) (x_JobID x) (x_WorkerID x) (x_Attempt x) state (x_StartedAt x)
    (Some now) (Milliseconds (res_Duration res)) (res_Error res) (res_Output res)
    (res_Retryable res) (x_CreatedAt x).

(** The guard of [UpdateJobStateIf]. *)
Definition allowed_from (onlyFrom : list JobState) (state : JobState) : bool :=
  match onlyFrom with [] => true | _ => bool_decide (state ∈ onlyFrom) end.

(** The job is ready to be promoted at [now]. *)
Definition due (now : time) (j : Job) : bool :=
  match j_State j with
  | JobStateScheduled =>
      match j_ScheduledAt j with Some t => negb (After t now) | None => false end
  | JobStateRetrying =>
      match j_NextRetryAt j with Some t => negb (After t now) | None => false end
  | _ => false
  end.

(** The job runs longer than its timeout, which is 30 seconds when unset. *)
Definition timed_out (now : time) (j : Job) : bool :=
  (bool_decide (j_State j = JobStateRunning) || bool_decide (j_State j = JobStateAssigned)) &&
  match j_StartedAt j with
  | None => false
  | Some t =>
      let to := if bool_decide (j_Timeout j ≤ 0) then 30 * Second else j_Timeout j in
      Before (time_add t to) now
  end.

(** The status [MarkStaleWorkers] leaves a worker in. *)
Definition stale_status (now : time) (timeout grace : Duration) (w : Worker) : WorkerStatus :=
  let deadBefore := time_add now (dur_neg (dur_add timeout grace)) in
  let suspectBefore := time_add now (dur_neg timeout) in
  if Before (w_LastHeartbeat w) deadBefore &&
     (bool_decide (w_Status w = WorkerStatusHealthy) ||
      bool_decide (w_Status w = WorkerStatusSuspected))
  then WorkerStatusUnavailable
  else if Before (w_LastHeartbeat w) suspectBefore &&
          bool_decide (w_Status w = WorkerStatusHealthy)
  then WorkerStatusSuspected
  else w_Status w.

(** [l] lists entries of [m] that satisfy [keep], each once and at most
    [limit] of them; below the limit it lists them all. *)
Definition listing (keep : Job → bool) (limit : Z) (m : gmap string Job) (l : list Job) : Prop :=
  ∃ kvs : list (string * Job),
    l = kvs.*2 ∧ NoDup kvs.*1 ∧
    (∀ k j, (k, j) ∈ kvs → m !! k = Some j ∧ keep j) ∧
    Z.of_nat (length l) ≤ limit ∧
    (Z.of_nat (length l) < limit →
       ∀ k j, m !! k = Some j → keep j → (k, j) ∈ kvs).

(** Jobs are stored under their identifier. *)
Definition keyed (m : gmap string Job) : Prop := ∀ k j, m !! k = Some j → j_ID j = k.

(** The jobs in a store, the form in which it keeps an identifier, and the
    idempotency keys that are taken. *)
Class JobsView (S : Type) := {
  jobs : S → gmap string Job;
  store_key : string → string;
  key_used : S → string → bool;
}.
Arguments store_key S {_} _.

(** All its clients can observe of a store. *)
Class StoreView (S : Type) := {
  #[global] view_jobs :: JobsView S;
  idem : S → gmap string string;
  execs : S → gmap string JobExecution;
  workers : S → gmap string Worker;
}.

(** [s] and [s'] agree on everything but the jobs. *)
Definition same_but_jobs {St} `{StoreView St} (s s' : St) : Prop :=
  idem s' = idem s ∧ execs s' = execs s ∧ workers s' = workers s.

Definition same_view {St} `{StoreView St} (s s' : St) : Prop :=
  jobs s' = jobs s ∧ same_but_jobs s s'.

(** The readings of the environment only move forward. *)
Definition post {Σ A} (n : nat) (P : A → Σ → Prop) (r : A) (ns : nat * Σ) : Prop :=
  (n ≤ ns.1)%nat ∧ P r ns.2.

(** The contract of a store whose calls do not fail on their own. *)
Class JobStoreLaws (S : Type) `{Env, JobStore S, StoreView S} : Prop := {
  store_key_id id : store_key S id = id;
  key_used_idem s key : key_used s key = bool_decide (is_Some (idem s !! key));
  GetJob_spec id n s :
    wp (store_GetJob id) (post n (λ r s', s' = s ∧
      r = match jobs s !! id with Some j => Ok j | None => Err ErrNotFound end)) (n, s);
  UpdateJobState_If id state f :
    store_UpdateJobState id state f = store_UpdateJobStateIf id state f [];
  UpdateJobStateIf_spec id state f only n s :
    wp (store_UpdateJobStateIf id state f only) (post n (λ r s', ∃ t,
      same_but_jobs s s' ∧
      match jobs s !! id with
      | None => r = Some ErrNotFound ∧ jobs s' = jobs s
      | Some j => r = None ∧
          jobs s' = if allowed_from only (j_State j)
                    then <[id := update_job state t f j]> (jobs s) else jobs s
      end)) (n, s);
  CreateJob_spec job n s :
    wp (store_CreateJob job) (λ r ns', post n (λ r s',
      execs s' = execs s ∧ workers s' = workers s ∧
      match (if bool_decide (j_IdempotencyKey job = "") then None
             else idem s !! j_IdempotencyKey job) with
      | Some id0 => same_view s s' ∧ ∀ j0, jobs s !! id0 = Some j0 → r = Ok j0
      | None => ∃ id t,
          (if bool_decide (j_ID job = "") then ∃ m, (n ≤ m < ns'.1)%nat ∧ id = env_uuid m
           else id = j_ID job) ∧
          let j' := set_UpdatedAt t (set_CreatedAt t (set_ID id job)) in
          r = Ok j' ∧ jobs s' = <[id := j']> (jobs s) ∧
          idem s' = if bool_decide (j_IdempotencyKey job = "") then idem s
                    else <[j_IdempotencyKey job := id]> (idem s)
      end) r ns') (n, s);
  ListJobs_spec state limit n s :
    wp (store_ListJobs state limit) (post n (λ r s', s' = s ∧ ∃ l, r = Ok l ∧
      listing (λ j, bool_decide (state = "") || bool_decide (JobState_string (j_State j) = state))
        (if bool_decide (limit ≤ 0) then 50 else limit) (jobs s) l)) (n, s);
  ListDueScheduled_pure limit n s :
    wp (store_ListDueScheduled limit) (post n (λ _ s', s' = s)) (n, s);
  ListDueScheduled_spec limit n s :
    0 < limit →
    wp (store_ListDueScheduled limit) (post n (λ r s', s' = s ∧ ∃ l m, r = Ok l ∧
      (n ≤ m)%nat ∧ listing (due (env_now m)) limit (jobs s) l)) (n, s);
  ListCancelRequested_spec limit n s :
    wp (store_ListCancelRequested limit) (post n (λ r s', s' = s ∧ ∃ l, r = Ok l ∧
      listing (λ j, bool_decide (j_State j = JobStateCancelRequested))
        (if bool_decide (limit ≤ 0) then 50 else limit) (jobs s) l)) (n, s);
  ListTimedOutRunning_spec now limit n s :
    wp (store_ListTimedOutRunning now limit) (post n (λ r s', s' = s ∧ ∃ l, r = Ok l ∧
      listing (timed_out now)
        (if bool_decide (limit ≤ 0) then 50 else limit) (jobs s) l)) (n, s);
  CreateExecution_spec ex n s :
    x_ID ex ≠ "" →
    wp (store_CreateExecution ex) (post n (λ r s', jobs s' = jobs s ∧ idem s' = idem s ∧
      workers s' = workers s ∧ ∃ t,
      let ex' := stamp_execution (x_ID ex) t ex in
      r = Ok ex' ∧ execs s' = <[x_ID ex := ex']> (execs s))) (n, s);
  FinishExecution_spec id state res n s :
    wp (store_FinishExecution id state res) (post n (λ r s', jobs s' = jobs s ∧
      idem s' = idem s ∧ workers s' = workers s ∧ ∃ t,
      execs s' = alter (finish_execution state t res) id (execs s))) (n, s);
  UpsertWorker_spec w n s :
    wp (store_UpsertWorker w) (post n (λ r s', r = None ∧ jobs s' = jobs s ∧
      idem s' = idem s ∧ execs s' = execs s ∧ workers s' = <[w_ID w := w]> (workers s))) (n, s);
  MarkStaleWorkers_spec timeout grace n s :
    wp (store_MarkStaleWorkers timeout grace) (post n (λ r s', jobs s' = jobs s ∧
      idem s' = idem s ∧ execs s' = execs s ∧ ∃ t sus una, r = Ok (sus, una) ∧ NoDup una ∧
      (∀ id, id ∈ una ↔ ∃ w, workers s !! id = Some w ∧
         stale_status t timeout grace w = WorkerStatusUnavailable ∧
         w_Status w ≠ WorkerStatusUnavailable) ∧
      (∀ id, id ∈ sus ↔ ∃ w, workers s !! id = Some w ∧
         stale_status t timeout grace w = WorkerStatusSuspected ∧
         w_Status w ≠ WorkerStatusSuspected) ∧
      (∀ id, workers s' !! id =
         (λ w, set_w_Status (stale_status t timeout grace w) w) <$> workers s !! id))) (n, s);
}.

(** The contract of a queue: an open queue takes every job, a closed one
    none.  [ready] is the list of jobs in delivery order. *)
Class QueueView (Q : Type) := {
  ready : Q → list QueuedJob;
  closed : Q → bool;
}.

Class QueueLaws (Q : Type) `{Queue Q, QueueView Q} : Prop := {
  Enqueue_spec job n q :
    wp (queue_Enqueue job) (post n (λ r q',
      if closed q then r ≠ None ∧ q' = q
      else r = None ∧ closed q' = false ∧ ∃ t,
        (IsZero (q_EnqueuedAt job) = false → t = q_EnqueuedAt job) ∧
        ready q' ≡ₚ set_q_EnqueuedAt t job :: ready q)) (n, q);
}.

(** ** What an update cannot change *)

(** What the submitter chose, and the identity of the job. *)
Definition same_spec (j j' : Job) : Prop :=
  j_ID j' = j_ID j ∧ j_Name j' = j_Name j ∧ j_Type j' = j_Type j ∧
  j_Payload j' = j_Payload j ∧ j_Priority j' = j_Priority j ∧
  j_Schedule j' = j_Schedule j ∧ j_RetryPolicy j' = j_RetryPolicy j ∧
  j_Timeout j' = j_Timeout j ∧ j_IdempotencyKey j' = j_IdempotencyKey j ∧
  j_MaxAttempts j' = j_MaxAttempts j ∧ j_CreatedAt j' = j_CreatedAt j ∧
  j_Metadata j' = j_Metadata j.

#[global] Instance same_spec_preorder : PreOrder same_spec.
Proof.
  split; [by intros j; repeat split|].
  intros j1 j2 j3 H1 H2. unfold same_spec in *. destruct_and?. split_and!; congruence.
Qed.

Lemma assign_if_spec {A} (v : option A) set j0 j :
  (∀ a j, same_spec j (set a j)) → same_spec j0 j → same_spec j0 (assign_if v set j).
Proof. intros Hset Hj. destruct v; cbn; [|done]. by etrans. Qed.

Lemma assign_if_state {A} (v : option A) set j :
  (∀ a j, j_State (set a j) = j_State j) → j_State (assign_if v set j) = j_State j.
Proof. intros Hset. by destruct v; cbn. Qed.

(** [update_job] writes the state and the bookkeeping fields only. *)
Lemma update_job_state st t f j : j_State (update_job st t f j) = st.
Proof. unfold update_job. cbv zeta. by rewrite !assign_if_state. Qed.

Lemma update_job_spec st t f j : same_spec j (update_job st t f j).
Proof.
  unfold update_job. cbv zeta. repeat (apply assign_if_spec; [by repeat split|]). by repeat split.
Qed.

Lemma update_job_ID st t f j : j_ID (update_job st t f j) = j_ID j.
Proof. apply update_job_spec. Qed.

(** ** A weaker contract

    What the safety of the scheduler needs: calls that fail, before or after they
    took effect, and a store that rounds what it keeps. *)

(** [l] lists jobs of [m] that satisfy [keep], each once. *)
Definition sublisting (keep : Job → bool) (m : gmap string Job) (l : list Job) : Prop :=
  ∃ kvs : list (string * Job),
    l = kvs.*2 ∧ NoDup kvs.*1 ∧ ∀ k j, (k, j) ∈ kvs → m !! k = Some j ∧ keep j.

(** The job under [k], which was in a state of [only] if there are any, is in
    [state] now and keeps what its submitter chose; nothing else changed. *)
Definition state_set (k : string) (state : JobState) (only : list JobState)
    (m m' : gmap string Job) : Prop :=
  ∃ j j', m !! k = Some j ∧ allowed_from only (j_State j) = true ∧ same_spec j j' ∧
    j_State j' = state ∧ m' = <[k := j']> m.

(** The call leaves the jobs alone. *)
Definition quiet {S A} `{JobsView S} (m : M (nat * S) A) : Prop :=
  ∀ n s, wp m (post n (λ _ s', jobs s' = jobs s)) (n, s).

(** The call only lists jobs that satisfy [keep]. *)
Definition lists {S} `{JobsView S} (m : M (nat * S) (result (list Job))) (keep : Job → bool) : Prop :=
  ∀ n s, wp m (post n (λ r s', jobs s' = jobs s ∧
    ∀ l, r = Ok l → sublisting keep (jobs s) l)) (n, s).

(** The identifier a job is to be created under is unused: its own, or UUIDs to
    come. *)
Definition unused_id {S} `{Env, JobsView S} (job : Job) (n : nat) (s : S) : Prop :=
  if bool_decide (j_ID job = "") then ∀ m, (n ≤ m)%nat → jobs s !! env_uuid m = None
  else store_key S (j_ID job) = j_ID job ∧ jobs s !! j_ID job = None.

Class JobStoreSafe (S : Type) `{Env, JobStore S, JobsView S} : Prop := {
  safe_key_uuid n : store_key S (env_uuid n) = env_uuid n;
  safe_GetJob id n s :
    wp (store_GetJob id) (post n (λ r s', jobs s' = jobs s ∧
      ∀ j, r = Ok j → jobs s !! store_key S id = Some j)) (n, s);
  safe_UpdateJobState id state f n s :
    wp (store_UpdateJobState id state f) (post n (λ r s',
      (r ≠ None ∧ jobs s' = jobs s) ∨
      state_set (store_key S id) state [] (jobs s) (jobs s'))) (n, s);
  safe_UpdateJobStateIf id state f only n s :
    wp (store_UpdateJobStateIf id state f only) (post n (λ r s',
      (jobs s' = jobs s ∧ (r = None → ∃ j, jobs s !! store_key S id = Some j ∧
         allowed_from only (j_State j) = false)) ∨
      state_set (store_key S id) state only (jobs s) (jobs s'))) (n, s);
  (** At most one job is added; a new submission is answered, if at all, with a
      job that is not in the store or that was added in this call *)
  safe_CreateJob job n s :
    unused_id job n s →
    wp (store_CreateJob job) (λ r ns', post n (λ r s',
      (jobs s' = jobs s ∨ ∃ id j',
         (if bool_decide (j_ID job = "") then ∃ m, (n ≤ m < ns'.1)%nat ∧ id = env_uuid m
          else id = j_ID job) ∧
         j_ID j' = id ∧ jobs s' = <[id := j']> (jobs s)) ∧
      (j_IdempotencyKey job = "" ∨ key_used s (j_IdempotencyKey job) = false →
       j_State job ≠ JobStateNone →
       ∀ j j0, r = Ok j → jobs s' !! store_key S (j_ID j) = Some j0 →
         jobs s !! store_key S (j_ID j) = None ∧ j_State j0 = j_State job)) r ns') (n, s);
  safe_ListJobs state limit :
    lists (store_ListJobs state limit) (λ j,
      bool_decide (state = "") || bool_decide (JobState_string (j_State j) = state));
  safe_ListCancelRequested limit :
    lists (store_ListCancelRequested limit) (λ j, bool_decide (j_State j = JobStateCancelRequested));
  safe_ListDueScheduled limit : quiet (store_ListDueScheduled limit);
  safe_ListTimedOutRunning now limit : quiet (store_ListTimedOutRunning now limit);
  safe_CreateExecution ex : x_ID ex ≠ "" → quiet (store_CreateExecution ex);
  safe_FinishExecution id state res : quiet (store_FinishExecution id state res);
  safe_UpsertWorker w : quiet (store_UpsertWorker w);
  safe_MarkStaleWorkers timeout grace : quiet (store_MarkStaleWorkers timeout grace);
}.

Lemma listing_sublisting keep limit m l : listing keep limit m l → sublisting keep m l.
Proof. intros (kvs & -> & Hnd & Hin & _). by exists kvs. Qed.

Lemma wp_quiet {S A} `{JobsView S} (m : M (nat * S) A) (P : nat → S → A → S → Prop) :
  (∀ n s, wp m (post n (P n s)) (n, s)) → (∀ n s r s', P n s r s' → jobs s' = jobs s) → quiet m.
Proof.
  intros Hm HP n s. eapply wp_mono; [apply Hm|]. intros r ns [Hn Hr]. split; [done|]. by eapply HP.
Qed.

Lemma quiet_ret {S A} `{JobsView S} (a : A) : quiet (S := S) (mret a).
Proof. intros n s. by split. Qed.

Lemma quiet_ask {S A} `{JobsView S} (f : nat → A) : quiet (S := S) (ask f).
Proof. intros n s. split; [cbn; lia|done]. Qed.

Lemma quiet_bind {S A B} `{JobsView S} (m : M (nat * S) A) (f : A → M (nat * S) B) :
  quiet m → (∀ a, quiet (f a)) → quiet (m ≫= f).
Proof.
  intros Hm Hf n s. apply wp_bind. eapply wp_mono; [apply Hm|]. intros a [n1 s1] [Hn Hs].
  eapply wp_mono; [apply Hf|]. intros b [n2 s2] [Hn' Hs']. cbn in *. split; cbn; [lia|congruence].
Qed.

(** A store whose calls do not fail satisfies it. *)
Section weaken.
Context {St : Type} `{Env, JobStore St, StoreView St, !JobStoreLaws St}.

Lemma laws_lists m (P : gmap string Job → list Job → Prop) keep :
  (∀ n s, wp m (post n (λ r s', s' = s ∧ ∃ l, r = Ok l ∧ P (jobs s) l)) (n, s)) →
  (∀ jm l, P jm l → sublisting keep jm l) → lists (S := St) m keep.
Proof.
  intros Hm HP n s. eapply wp_mono; [apply Hm|].
  intros r ns (Hn & Hs & l & -> & Hl). split; [done|]. rewrite Hs. split; [done|].
  intros l' [= <-]. eauto.
Qed.

Lemma laws_UpdateJobStateIf id st f only n (s : St) :
  wp (store_UpdateJobStateIf id st f only) (post n (λ r s',
    (jobs s' = jobs s ∧ (r = None → ∃ j, jobs s !! store_key St id = Some j ∧
       allowed_from only (j_State j) = false)) ∨
    state_set (store_key St id) st only (jobs s) (jobs s'))) (n, s).
Proof.
  eapply wp_mono; [apply UpdateJobStateIf_spec|].
  intros r ns (Hn & t & _ & Hj). split; [done|]. rewrite !store_key_id.
  destruct (jobs s !! id) as [j|] eqn:Hid; [|destruct Hj as [-> ->]; naive_solver].
  destruct Hj as [-> ->]. destruct (allowed_from only (j_State j)) eqn:Ha; [right|left; eauto].
  exists j, (update_job st t f j). split_and!; [done..|apply update_job_spec| |done].
  apply update_job_state.
Qed.

#[global] Instance laws_safe : JobStoreSafe St.
Proof.
  split.
  - intros n. apply store_key_id.
  - intros id n s. eapply wp_mono; [apply GetJob_spec|]. intros r ns (Hn & Hs & ->).
    split; [done|]. rewrite Hs, store_key_id. split; [done|]. intros j.
    destruct (jobs s !! id); naive_solver.
  - intros id st f n s. rewrite UpdateJobState_If. eapply wp_mono; [apply laws_UpdateJobStateIf|].
    intros r ns [Hn [[Hj Hr]|Hs]]; split; try done; [|by right].
    left. split; [|done]. intros ->. destruct Hr as (j & _ & ?); done.
  - apply laws_UpdateJobStateIf.
  - intros job n s Hfree. eapply wp_mono; [apply CreateJob_spec|].
    intros r ns (Hn & _ & _ & Hr). split; [done|].
    destruct (if bool_decide _ then None else _) as [id0|] eqn:E.
    { destruct Hr as [[Hs _] _]. split; [by left|]. intros Hkey. exfalso.
      case_bool_decide; [done|]. rewrite key_used_idem, E in Hkey. naive_solver. }
    destruct Hr as (id & t & Hid & -> & Hj & _). split.
    { right. by exists id, (set_UpdatedAt t (set_CreatedAt t (set_ID id job))). }
    intros _ _ j j0 [= <-]. rewrite store_key_id, Hj. cbn. rewrite lookup_insert_eq. intros [= <-].
    split; [|done]. unfold unused_id in Hfree. case_bool_decide.
    + destruct Hid as (m & Hm & ->). apply Hfree. lia.
    + rewrite Hid. apply Hfree.
  - intros st limit. eapply laws_lists; [intros; apply ListJobs_spec|].
    intros jm l. cbn beta. apply listing_sublisting.
  - intros limit. eapply laws_lists; [intros; apply ListCancelRequested_spec|].
    intros jm l. cbn beta. apply listing_sublisting.
  - intros limit. eapply wp_quiet; [intros; apply ListDueScheduled_pure|]. by cbn; intros ? ? ? ? ->.
  - intros now limit. eapply wp_quiet; [intros; apply ListTimedOutRunning_spec|].
    by cbn; intros ? ? ? ? [-> _].
  - intros ex Hx. eapply wp_quiet; [intros; by apply CreateExecution_spec|]. by cbn; intros ? ? ? ? [-> _].
  - intros id st res. eapply wp_quiet; [intros; apply FinishExecution_spec|].
    by cbn; intros ? ? ? ? [-> _].
  - intros w. eapply wp_quiet; [intros; apply UpsertWorker_spec|]. by cbn; intros ? ? ? ? (_ & -> & _).
  - intros to gr. eapply wp_quiet; [intros; apply MarkStaleWorkers_spec|].
    by cbn; intros ? ? ? ? [-> _].
Qed.
End weaken.

(** ** The world a handler runs in

    [St] and [Qu] are the states of the store and of the queue, [V] is the
    private state of the component; [g_events] and [g_rpcs] record the calls
    of [EventPublisher.Emit] and of the worker's RPCs, in order. *)
Record EmitCall := mkEmitCall {
  em_Type : EventType;
  em_JobID : string;
  em_ExecutionID : string;
  em_WorkerID : string;
  em_Attempt : Z;
  em_Payload : option fields;
}.

Inductive RpcCall :=
  | RpcExecuteJob (addr : string) (req : ExecuteJobRequest)
  | RpcCancelJob (addr : string) (req : CancelJobRequest).

Record World (St Qu V : Type) := mkWorld {
  g_tick : nat;
  g_store : St;
  g_queue : Qu;
  g_svc : V;
  g_events : list EmitCall;
  g_rpcs : list RpcCall;
}.
Arguments mkWorld {St Qu V} _ _ _ _ _ _.
Arguments g_tick {St Qu V} _.
Arguments g_store {St Qu V} _.
Arguments g_queue {St Qu V} _.
Arguments g_svc {St Qu V} _.
Arguments g_events {St Qu V} _.
Arguments g_rpcs {St Qu V} _.

Section world.
Context {St Qu V : Type}.
#[local] Abbreviation W := (World St Qu V).

(** A call of the store or of the queue. *)
Definition callS {A} (m : M (nat * St) A) : M W A := λ w,
  match w with
  | mkWorld n s q v ev rp =>
      match m (n, s) with (a, (n', s')) => (a, mkWorld n' s' q v ev rp) end
  end.
Definition callQ {A} (m : M (nat * Qu) A) : M W A := λ w,
  match w with
  | mkWorld n s q v ev rp =>
      match m (n, q) with (a, (n', q')) => (a, mkWorld n' s q' v ev rp) end
  end.

(** A reading of the environment. *)
Definition askW {A} (f : nat → A) : M W A := λ w,
  match w with
  | mkWorld n s q v ev rp => (f n, mkWorld (Datatypes.S n) s q v ev rp)
  end.

Definition getV : M W V := λ w, (g_svc w, w).
Definition updV (f : V → V) : M W () := λ w,
  match w with mkWorld n s q v ev rp => ((), mkWorld n s q (f v) ev rp) end.

(** [events.Emit]: the call is recorded, its outcome is the environment's. *)
Definition Emit `{Env} (ty : EventType) (jobID executionID workerID : string)
    (attempt : Z) (payload : option fields) : M W (option GoError) := λ w,
  match w with
  | mkWorld n s q v ev rp =>
      (env_emit n, mkWorld (Datatypes.S n) s q v
         (ev ++ [mkEmitCall ty jobID executionID workerID attempt payload]) rp)
  end.

(** An RPC to a worker. *)
Definition rpc {A} (c : RpcCall) (f : nat → A) : M W A := λ w,
  match w with
  | mkWorld n s q v ev rp => (f n, mkWorld (Datatypes.S n) s q v ev (rp ++ [c]))
  end.

Lemma wp_callS {A} (m : M (nat * St) A) P Q n s q v ev rp :
  wp m P (n, s) →
  (∀ a n' s', P a (n', s') → Q a (mkWorld n' s' q v ev rp)) →
  wp (callS m) Q (mkWorld n s q v ev rp).
Proof. unfold wp, callS. destruct (m (n, s)) as [a [n' s']]. eauto. Qed.

Lemma wp_callQ {A} (m : M (nat * Qu) A) P Q n s q v ev rp :
  wp m P (n, q) →
  (∀ a n' q', P a (n', q') → Q a (mkWorld n' s q' v ev rp)) →
  wp (callQ m) Q (mkWorld n s q v ev rp).
Proof. unfold wp, callQ. destruct (m (n, q)) as [a [n' q']]. eauto. Qed.

Lemma wp_askW {A} (f : nat → A) Q n s q v ev rp :
  Q (f n) (mkWorld (Datatypes.S n) s q v ev rp) → wp (askW f) Q (mkWorld n s q v ev rp).
Proof. done. Qed.

Lemma wp_getV Q (w : W) : Q (g_svc w) w → wp getV Q w.
Proof. done. Qed.

Lemma wp_updV f Q n s q v ev rp :
  Q () (mkWorld n s q (f v) ev rp) → wp (updV f) Q (mkWorld n s q v ev rp).
Proof. done. Qed.

Lemma wp_Emit `{Env} ty j x k a p Q n s q v ev rp :
  (∀ r, Q r (mkWorld (Datatypes.S n) s q v (ev ++ [mkEmitCall ty j x k a p]) rp)) →
  wp (Emit ty j x k a p) Q (mkWorld n s q v ev rp).
Proof. intros HQ. apply HQ. Qed.

Lemma wp_rpc {A} c (f : nat → A) Q n s q v ev rp :
  Q (f n) (mkWorld (Datatypes.S n) s q v ev (rp ++ [c])) →
  wp (rpc c f) Q (mkWorld n s q v ev rp).
Proof. done. Qed.
End world.
