(* ===== verification/Fixture.v ===== *)
(** * A concrete environment

    A clock that advances by a millisecond with every reading, UUIDs told apart
    by their length, a network in which every call succeeds, and a cron
    library with one schedule, "* * * * *", which fires at the full minutes.
    The theorems about handlers are applied to it in their witnesses. *)

From S2P Require Import Prelude.
From S2P Require Import Float64.
From S2P Require Import Domain.
From S2P Require Import Ports.

Fixpoint sample_uuid (n : nat) : string :=
  match n with
  | O => "u"
  | Datatypes.S n => ("a" ++ sample_uuid n)%string
  end.

Lemma sample_uuid_inj : Inj (=) (=) sample_uuid.
Proof.
  intros m. induction m as [|m IH]; intros [|n] Heq; simplify_eq/=; auto.
Qed.

Definition sample_now (n : nat) : time := 1000 * Hour + Z.of_nat n * Millisecond.

Definition sample_env : Env := {|
  env_now := sample_now;
  env_uuid := sample_uuid;
  env_rand := λ _, f64_half;
  env_order := λ _ l, l;
  env_order_perm := λ _ l, Permutation_refl l;
  env_select := λ _, true;
  env_emit := λ _, None;
  env_dial := λ _ _, None;
  env_ExecuteJob := λ _ _ _, Ok (Some (mkExecuteJobResponse true ""));
  env_CancelJob := λ _ _ _, None;
  env_oob := oob_amd64;
|}.

Lemma sample_env_laws : @EnvLaws sample_env.
Proof. split; [apply sample_uuid_inj|]. by intros []. Qed.

(** The worker refuses every job. *)
Definition refusing_env : Env := {|
  env_now := sample_now;
  env_uuid := sample_uuid;
  env_rand := λ _, f64_half;
  env_order := λ _ l, l;
  env_order_perm := λ _ l, Permutation_refl l;
  env_select := λ _, true;
  env_emit := λ _, None;
  env_dial := λ _ _, None;
  env_ExecuteJob := λ _ _ _, Ok (Some (mkExecuteJobResponse false "at capacity"));
  env_CancelJob := λ _ _ _, None;
  env_oob := oob_amd64;
|}.

Lemma refusing_env_laws : @EnvLaws refusing_env.
Proof. split; [apply sample_uuid_inj|]. by intros []. Qed.

Definition sample_cron : CronLib := {|
  Location := ();
  UTC := ();
  LoadLocation := λ s, if String.eqb s "UTC" then Ok () else Err (External "unknown time zone");
  CronSchedule := ();
  Parse := λ s, if String.eqb s "* * * * *" then Ok () else Err (External "bad spec");
  Next := λ _ _ t, (t / Minute + 1) * Minute;
|}.

Lemma sample_cron_laws : @CronLaws sample_cron.
Proof.
  intros s loc t. right. cbn.
  pose proof (Z.mod_pos_bound t Minute). pose proof (Z.div_mod t Minute).
  assert (Minute > 0) by done. lia.
Qed.

(** A worker with four slots and a job in a given state. *)
Definition sample_worker (id : string) (active : Z) : Worker :=
  mkWorker id "addr" WorkerStatusHealthy 4 active (mkWorkerCapabilities true true) None
    (sample_now 0) (sample_now 0) None.

Definition sample_schedule (ty : ScheduleType) : Schedule := mkSchedule ty None 0 "* * * * *" "UTC".

(** Exponential backoff with factor 2 and without jitter. *)
Definition sample_policy : RetryPolicy :=
  mkRetryPolicy 3 "exponential" Second (5 * Minute) (f64_of_Z 2) false.

Definition sample_job (id : string) (st : JobState) (workerID : string) (attempt : Z) : Job :=
  mkJob id "job" JobTypeBuiltin None 5 st (sample_schedule ScheduleImmediate) sample_policy
    (30 * Second) "" attempt 3 workerID (if String.eqb workerID "" then "" else "x") ""
    (Some (sample_now 0)) None (Some (sample_now 0)) None (Some (sample_now 0))
    (sample_now 0) (sample_now 0) None.
