(* ===== verification/Execution.v ===== *)
(** * internal/execution: what a worker runs

    [Executor.Execute] with its two executors.  A context is known by the
    instant it ends and the reason it ends for.  Package encoding/json, the
    rendering of errors and the HTTP client are parameters. *)

From S2P Require Import Prelude.
From S2P Require Import Float64.
From S2P Require Import Domain.
From S2P Require Import Auth.
From S2P Require Import Ports.
From S2P Require Import Fixture.

Record BuiltinPayload := mkBuiltinPayload {
  bp_Handler : string;
  bp_Args : option string;
}.

Record WebhookPayload := mkWebhookPayload {
  wp_URL : string;
  wp_Method : string;
  wp_Headers : gmap string string;
  wp_Body : option string;
}.

(** The HTTP request the webhook sends. *)
Record HTTPRequest := mkHTTPRequest {
  hq_Method : string;
  hq_URL : string;
  hq_Header : gmap string string;
  hq_Body : option string;
}.

Class Lib := {
  (** [json.Unmarshal] into each of the structs; where the code ignores the
      error, the struct as it is afterwards *)
  unmarshal_builtin : option string → result BuiltinPayload;
  unmarshal_webhook : option string → result WebhookPayload;
  unmarshal_sleepArgs : option string → Z;
  unmarshal_echoArgs : option string → string;
  unmarshal_failArgs : option string → string * bool;
  unmarshal_cpuBurnArgs : option string → Z;
  (** [json.Marshal] of a map literal *)
  marshal : fields → option string;
  (** [err.Error()] and the verb %q *)
  error_string : GoError → string;
  quote : string → string;
  (** the decimal digits of an [int] *)
  itoa : Z → string;
  (** [http.CanonicalHeaderKey], [http.NewRequestWithContext] (its error) and
      [http.Client.Do]: the status and the body *)
  CanonicalHeaderKey : string → string;
  NewRequest : string → string → option GoError;
  http_Do : nat → HTTPRequest → result (Z * string);
}.

(** A context ends at an instant, by its deadline or by a cancellation. *)
Record Ctx := mkCtx {
  ctx_end : time;
  ctx_cause : GoError;
}.

(** [errors.Is] on the wrapped chain. *)
Fixpoint errors_Is (e target : GoError) : bool :=
  bool_decide (e = target) ||
  match e with Wrapf _ e' => errors_Is e' target | _ => false end.

Definition Since (start now : time) : Duration := int64 (now - start).

Definition failed (msg : string) (retryable : bool) (d : Duration) : ExecutionResult :=
  mkExecutionResult false None msg retryable d ReasonFailed.
Definition succeeded (out : option string) (d : Duration) : ExecutionResult :=
  mkExecutionResult true out "" false d ReasonSuccess.
Definition timed_out_result (d : Duration) : ExecutionResult :=
  mkExecutionResult false None "timeout" true d ReasonTimeout.
Definition cancelled_result (d : Duration) : ExecutionResult :=
  mkExecutionResult false None "cancelled" false d ReasonCancelled.

Section execution.
Context `{Env, Lib}.
#[local] Abbreviation E := (M (nat * ())).

Definition since (start : time) : E Duration :=
  now ← ask env_now;
  mret (Since start now).

(** [ctxResult] of a context that has ended. *)
Definition ctxResult (ctx : Ctx) (start : time) : E ExecutionResult :=
  d ← since start;
  if errors_Is (ctx_cause ctx) DeadlineExceeded then mret (timed_out_result d)
  else mret (cancelled_result d).

(** The loop of cpu_burn: [None] when the fuel does not last, else whether the
    context ended and the number of iterations. *)
Fixpoint burn (fuel : nat) (ctx : Ctx) (deadline : time) (x : Z) : E (option (bool * Z)) :=
  match fuel with
  | O => mret None
  | Datatypes.S fuel' =>
      now ← ask env_now;
      if Before now deadline then
        t ← ask env_now;
        if bool_decide (ctx_end ctx ≤ t) then mret (Some (true, x))
        else burn fuel' ctx deadline (int64 (x + 1))
      else mret (Some (false, x))
  end.

Definition builtin_sleep (ctx : Ctx) (start : time) (args : option string) : E ExecutionResult :=
  let ms := unmarshal_sleepArgs args in
  let ms := if bool_decide (ms ≤ 0) then 100 else ms in
  t0 ← ask env_now;
  let fires := time_add t0 (dur_mul ms Millisecond) in
  choice ← ask env_select;
  if bool_decide (ctx_end ctx < fires) || (bool_decide (ctx_end ctx = fires) && choice)
  then ctxResult ctx start
  else
    d ← since start;
    mret (succeeded (marshal [("slept_ms", AInt ms)]) d).

Definition builtin_echo (start : time) (args : option string) : E ExecutionResult :=
  d ← since start;
  mret (succeeded (marshal [("echo", AString (unmarshal_echoArgs args))]) d).

Definition builtin_fail (start : time) (args : option string) : E ExecutionResult :=
  let '(msg, retryable) := unmarshal_failArgs args in
  let msg := if bool_decide (msg = "") then "intentional failure" else msg in
  d ← since start;
  mret (failed msg retryable d).

Definition builtin_cpu_burn (fuel : nat) (ctx : Ctx) (start : time) (args : option string) :
    E (option ExecutionResult) :=
  let ms := unmarshal_cpuBurnArgs args in
  let ms := if bool_decide (ms ≤ 0) then 50 else ms in
  t0 ← ask env_now;
  r ← burn fuel ctx (time_add t0 (dur_mul ms Millisecond)) 0;
  match r with
  | None => mret None
  | Some (true, _) => res ← ctxResult ctx start; mret (Some res)
  | Some (false, x) =>
      d ← since start;
      mret (Some (succeeded (marshal [("iterations", AInt x)]) d))
  end.

Definition builtin_Execute (fuel : nat) (ctx : Ctx) (payload : option string) :
    E (option ExecutionResult) :=
  start ← ask env_now;
  match unmarshal_builtin payload with
  | Err e =>
      d ← since start;
      mret (Some (failed ("invalid builtin payload: " ++ error_string e)%string false d))
  | Ok p =>
      if bool_decide (bp_Handler p = "sleep") then
        res ← builtin_sleep ctx start (bp_Args p); mret (Some res)
      else if bool_decide (bp_Handler p = "echo") then
        res ← builtin_echo start (bp_Args p); mret (Some res)
      else if bool_decide (bp_Handler p = "fail") then
        res ← builtin_fail start (bp_Args p); mret (Some res)
      else if bool_decide (bp_Handler p = "cpu_burn") then
        builtin_cpu_burn fuel ctx start (bp_Args p)
      else
        d ← since start;
        mret (Some (failed ("unknown builtin handler " ++ quote (bp_Handler p))%string false d))
  end.

(** [strings.EqualFold(k, "Host")]: besides the ASCII letters, U+017F folds
    to "s". *)
Definition is_host (k : string) : bool :=
  match Ascii.nat_of_ascii <$> String.list_ascii_of_string k with
  | [h; o; s; t] =>
      (bool_decide (h = 72 ∨ h = 104) && bool_decide (o = 79 ∨ o = 111) &&
       bool_decide (s = 83 ∨ s = 115) && bool_decide (t = 84 ∨ t = 116))%nat
  | [h; o; s1; s2; t] =>
      (bool_decide (h = 72 ∨ h = 104) && bool_decide (o = 79 ∨ o = 111) &&
       bool_decide (s1 = 197) && bool_decide (s2 = 191) && bool_decide (t = 84 ∨ t = 116))%nat
  | _ => false
  end.

(** The headers: two fixed ones, then the payload's in the order of the range,
    later ones winning. *)
Definition set_headers (l : list (string * string)) : gmap string string :=
  foldl (λ m kv, if is_host kv.1 then m else <[CanonicalHeaderKey kv.1 := kv.2]> m)
    (<["User-Agent" := "chronos-worker/1.0"]> {["Content-Type" := "application/json"]}) l.

(** [1<<20] bytes of the body are read. *)
Definition body_limit : nat := Z.to_nat (2 ^ 20).

Definition status_result (code : Z) (body : string) (d : Duration) : ExecutionResult :=
  let out := marshal [("status_code", AInt code);
                      ("body", AString (String.substring 0 body_limit body))] in
  if bool_decide (200 ≤ code) && bool_decide (code < 300)
  then mkExecutionResult true out "" false d ReasonSuccess
  else mkExecutionResult false out ("webhook status " ++ itoa code)%string
         (bool_decide (500 ≤ code) || bool_decide (code = 429)) d ReasonFailed.

(** The error of [client.Do]; [ended] is [ctx.Err()] after the call. *)
Definition do_error_result (e : GoError) (ended : option GoError) (d : Duration) : ExecutionResult :=
  let ctx_is t := match ended with Some c => errors_Is c t | None => false end in
  if errors_Is e DeadlineExceeded || ctx_is DeadlineExceeded then timed_out_result d
  else if errors_Is e ContextCanceled || ctx_is ContextCanceled then cancelled_result d
  else failed (error_string e) true d.

(** The requests that are sent are recorded. *)
Definition webhook_Execute (ctx : Ctx) (payload : option string) :
    E (ExecutionResult * list HTTPRequest) :=
  start ← ask env_now;
  match unmarshal_webhook payload with
  | Err e =>
      d ← since start;
      mret (failed ("invalid webhook payload: " ++ error_string e)%string false d, [])
  | Ok p =>
      if bool_decide (wp_URL p = "") then
        d ← since start; mret (failed "webhook url required" false d, [])
      else if negb (String.prefix "http://" (wp_URL p)) && negb (String.prefix "https://" (wp_URL p))
      then d ← since start; mret (failed "webhook url must be http(s)" false d, [])
      else
        let method := if bool_decide (wp_Method p = "") then "POST" else wp_Method p in
        let body := match wp_Body p with Some "" | None => None | Some b => Some b end in
        match NewRequest method (wp_URL p) with
        | Some e => d ← since start; mret (failed (error_string e) false d, [])
        | None =>
            hs ← range (wp_Headers p);
            let req := mkHTTPRequest method (wp_URL p) (set_headers hs) body in
            resp ← ask (λ n, http_Do n req);
            t ← ask env_now;
            d ← since start;
            let ended := if bool_decide (ctx_end ctx ≤ t) then Some (ctx_cause ctx) else None in
            match resp with
            | Err e => mret (do_error_result e ended d, [req])
            | Ok (code, body) => mret (status_result code body d, [req])
            end
        end
  end.

(** [Executor.Execute]; a result without a reason for an unknown type. *)
Definition Execute (fuel : nat) (ctx : Ctx) (ty : JobType) (payload : option string) :
    E (option ExecutionResult) :=
  if bool_decide (ty = JobTypeBuiltin) then builtin_Execute fuel ctx payload
  else if bool_decide (ty = JobTypeWebhook) then
    r ← webhook_Execute ctx payload; mret (Some r.1)
  else mret (Some (mkExecutionResult false None ("unsupported job type " ++ quote ty)%string
                     false 0 "")).
End execution.

(** ** What the results mean *)

(** The kinds of result an executor produces: success; failure, retryable or
    not; timeout, which is retryable; cancellation, which is not. *)
Definition coherent (res : ExecutionResult) : Prop :=
  if res_Success res then res_Reason res = ReasonSuccess ∧ res_Error res = ""
  else (res_Reason res = ReasonTimeout ∧ res_Retryable res = true) ∨
       (res_Reason res = ReasonCancelled ∧ res_Retryable res = false) ∨
       res_Reason res = ReasonFailed ∨ (res_Reason res = "" ∧ res_Retryable res = false).

(** What a result reports. *)
Definition success_reported (out : option string) (res : ExecutionResult) : Prop :=
  res_Success res = true ∧ res_Reason res = ReasonSuccess ∧ res_Output res = out ∧
  res_Error res = "" ∧ res_Retryable res = false.
Definition timeout_reported (res : ExecutionResult) : Prop :=
  res_Success res = false ∧ res_Reason res = ReasonTimeout ∧ res_Output res = None ∧
  res_Error res = "timeout" ∧ res_Retryable res = true.
Definition cancel_reported (res : ExecutionResult) : Prop :=
  res_Success res = false ∧ res_Reason res = ReasonCancelled ∧ res_Output res = None ∧
  res_Error res = "cancelled" ∧ res_Retryable res = false.
Definition failure_reported (retryable : bool) (out : option string) (msg : string)
    (res : ExecutionResult) : Prop :=
  res_Success res = false ∧ res_Reason res = ReasonFailed ∧ res_Output res = out ∧
  res_Error res = msg ∧ res_Retryable res = retryable.

(** A deadline is a timeout, anything else that ends a context a cancellation. *)
Definition context_reported (ctx : Ctx) (res : ExecutionResult) : Prop :=
  if errors_Is (ctx_cause ctx) DeadlineExceeded then timeout_reported res else cancel_reported res.

Create HintDb reports.
Ltac reported :=
  unfold coherent; intros (Hs & Hr & _ & He & Ht); rewrite Hs, Hr, ?He, ?Ht; auto.
Lemma success_coherent out res : success_reported out res → coherent res.
Proof. reported. Qed.
Lemma timeout_coherent res : timeout_reported res → coherent res.
Proof. reported. Qed.
Lemma cancel_coherent res : cancel_reported res → coherent res.
Proof. reported. Qed.
Lemma failure_coherent b out msg res : failure_reported b out msg res → coherent res.
Proof. reported. Qed.
#[local] Hint Resolve success_coherent timeout_coherent cancel_coherent failure_coherent : reports.

Lemma context_coherent ctx res : context_reported ctx res → coherent res.
Proof. unfold context_reported. case_match; eauto with reports. Qed.
#[local] Hint Resolve context_coherent : reports.

Section outcomes.
Context `{Env, Lib}.

(** The outcomes of a builtin handler that is started at reading [n]: a handler
    that waits is interrupted only by a context that ended in time. *)
Definition builtin_reports (n : nat) (ctx : Ctx) (payload : option string)
    (res : ExecutionResult) : Prop :=
  match unmarshal_builtin payload with
  | Err e => failure_reported false None ("invalid builtin payload: " ++ error_string e)%string res
  | Ok p =>
      let args := bp_Args p in
      if bool_decide (bp_Handler p = "sleep") then
        let ms := if bool_decide (unmarshal_sleepArgs args ≤ 0) then 100 else unmarshal_sleepArgs args in
        ∃ m, (n ≤ m)%nat ∧
          let fires := time_add (env_now m) (dur_mul ms Millisecond) in
          (fires ≤ ctx_end ctx ∧ success_reported (marshal [("slept_ms", AInt ms)]) res) ∨
          (ctx_end ctx ≤ fires ∧ context_reported ctx res)
      else if bool_decide (bp_Handler p = "echo") then
        success_reported (marshal [("echo", AString (unmarshal_echoArgs args))]) res
      else if bool_decide (bp_Handler p = "fail") then
        let msg := (unmarshal_failArgs args).1 in
        failure_reported (unmarshal_failArgs args).2 None
          (if bool_decide (msg = "") then "intentional failure" else msg) res
      else if bool_decide (bp_Handler p = "cpu_burn") then
        let ms := if bool_decide (unmarshal_cpuBurnArgs args ≤ 0) then 50 else unmarshal_cpuBurnArgs args in
        ∃ m m', (n ≤ m ≤ m')%nat ∧
          let deadline := time_add (env_now m) (dur_mul ms Millisecond) in
          (deadline ≤ env_now m' ∧ ∃ x, success_reported (marshal [("iterations", AInt x)]) res) ∨
          (ctx_end ctx ≤ env_now m' ∧ context_reported ctx res)
      else failure_reported false None ("unknown builtin handler " ++ quote (bp_Handler p))%string res
  end.

(** What the answer to the request makes of the result; [t] is a reading of the
    clock after it. *)
Definition answer_reports (ctx : Ctx) (t : nat) (answer : result (Z * string))
    (res : ExecutionResult) : Prop :=
  match answer with
  | Ok (code, body) =>
      let out := marshal [("status_code", AInt code);
                          ("body", AString (String.substring 0 body_limit body))] in
      if bool_decide (200 ≤ code < 300) then success_reported out res
      else failure_reported (bool_decide (code = 429 ∨ 500 ≤ code)) out
             ("webhook status " ++ itoa code)%string res
  | Err e =>
      let because target := errors_Is e target ||
        (bool_decide (ctx_end ctx ≤ env_now t) && errors_Is (ctx_cause ctx) target) in
      if because DeadlineExceeded then timeout_reported res
      else if because ContextCanceled then cancel_reported res
      else failure_reported true None (error_string e) res
  end.

(** The outcomes of a webhook, with the requests that were sent. *)
Definition webhook_reports (n : nat) (ctx : Ctx) (payload : option string)
    (res : ExecutionResult) (reqs : list HTTPRequest) : Prop :=
  match unmarshal_webhook payload with
  | Err e => reqs = [] ∧
      failure_reported false None ("invalid webhook payload: " ++ error_string e)%string res
  | Ok p =>
      let url := wp_URL p in
      let method := if bool_decide (wp_Method p = "") then "POST" else wp_Method p in
      if bool_decide (url = "") then
        reqs = [] ∧ failure_reported false None "webhook url required" res
      else if String.prefix "http://" url || String.prefix "https://" url then
        match NewRequest method url with
        | Some e => reqs = [] ∧ failure_reported false None (error_string e) res
        | None => ∃ req m t, reqs = [req] ∧ (n ≤ m ≤ t)%nat ∧
            hq_Method req = method ∧ hq_URL req = url ∧
            hq_Body req = (if bool_decide (wp_Body p = Some "") then None else wp_Body p) ∧
            answer_reports ctx t (http_Do m req) res
        end
      else reqs = [] ∧ failure_reported false None "webhook url must be http(s)" res
  end.
End outcomes.

Section execution_facts.
Context `{Env, Lib}.

(** Once the clock has passed the deadline, the rounds up to then are enough
    fuel. *)
Lemma burn_terminates ctx deadline N fuel x n u :
  (∀ m, (N ≤ m)%nat → deadline ≤ env_now m) → (N < n + fuel)%nat → (0 < fuel)%nat →
  wp (burn fuel ctx deadline x) (λ r _, r ≠ None) (n, u).
Proof.
  intros HN. revert x n. induction fuel as [|fuel IH]; intros x n Hf Hpos; [lia|].
  cbn [burn]. wp_steps. unfold Before. case_bool_decide as Hb.
  - assert (n < N)%nat as Hn by (destruct (decide (n < N)%nat); [done|]; specialize (HN n); lia).
    wp_steps. case_match; wp_steps; [done|]. apply IH; lia.
  - by wp_steps.
Qed.

Lemma wp_ctxResult ctx start (Q : ExecutionResult → nat * () → Prop) ns :
  (∀ res ns', context_reported ctx res → Q res ns') → wp (ctxResult ctx start) Q ns.
Proof.
  intros HQ. unfold ctxResult, since. wp_steps.
  case_match eqn:Hc; wp_steps; apply HQ; unfold context_reported; by rewrite Hc.
Qed.

(** When the loop of cpu_burn ends, and why. *)
Lemma wp_burn fuel ctx deadline x n u :
  wp (burn fuel ctx deadline x) (λ r _, ∀ b y, r = Some (b, y) → ∃ m, (n ≤ m)%nat ∧
    if b : bool then ctx_end ctx ≤ env_now m else deadline ≤ env_now m) (n, u).
Proof.
  revert x n. induction fuel as [|fuel IH]; intros x n; cbn [burn]; wp_steps; [done|].
  unfold Before. case_bool_decide; wp_steps.
  - case_bool_decide; wp_steps; [intros b y [= <- <-]; exists (Datatypes.S n); split; [lia|done]|].
    eapply wp_mono; [apply IH|]. intros r ns' Hr b y Hy. destruct (Hr b y Hy) as (m & ? & ?).
    exists m. split; [lia|done].
  - intros b y [= <- <-]. exists n. split; [lia|]. lia.
Qed.

(** The time a busy loop asks for. *)
Definition burn_time (payload : option string) : Duration :=
  let ms := match unmarshal_builtin payload with
            | Ok p => unmarshal_cpuBurnArgs (bp_Args p) | Err _ => 0 end in
  dur_mul (if bool_decide (ms ≤ 0) then 50 else ms) Millisecond.

(** As many rounds as the clock has readings until then are enough. *)
Lemma Execute_enough ctx ty payload N fuel n u :
  (∀ m, (N ≤ m)%nat → time_add (env_now (Datatypes.S n)) (burn_time payload) ≤ env_now m) →
  (N < fuel)%nat →
  wp (Execute fuel ctx ty payload) (λ r _, r ≠ None) (n, u).
Proof.
  intros HN Hfuel. unfold Execute.
  case_bool_decide; [|case_bool_decide; [|by wp_steps]].
  2:{ wp_steps. apply wp_all. intros r ns. by wp_steps. }
  unfold builtin_Execute. wp_steps. revert HN. unfold burn_time. cbv zeta.
  destruct (unmarshal_builtin payload) as [p|e]; intros HN.
  2:{ unfold since. by wp_steps. }
  do 3 (destruct (bool_decide (bp_Handler p = _)); [apply wp_bind, wp_all; intros ? ?; by wp_steps|]).
  destruct (bool_decide (bp_Handler p = _)); [|unfold since; by wp_steps].
  unfold builtin_cpu_burn. cbv zeta. wp_steps.
  eapply wp_mono; [apply (burn_terminates _ _ N); [exact HN|lia|lia]|].
  intros [[[] x]|] ns' Hr; [|unfold since; by wp_steps|done].
  apply wp_bind, wp_all. intros. by wp_steps.
Qed.

(** C30: every execution ends.  If the clock passes every instant, then for
    every job type, payload and context there is a bound such that with any
    larger number of rounds the executor returns a result: no handler, the busy
    loop of cpu_burn included, runs forever. *)
Theorem Execute_terminates ctx ty payload n u :
  (∀ t, ∃ N, ∀ m, (N ≤ m)%nat → t ≤ env_now m) →
  ∃ fuel0, ∀ fuel, (fuel0 ≤ fuel)%nat →
    wp (Execute fuel ctx ty payload) (λ r _, r ≠ None) (n, u).
Proof.
  intros Hclock.
  destruct (Hclock (time_add (env_now (Datatypes.S n)) (burn_time payload))) as [N HN].
  exists (Datatypes.S N). intros fuel Hfuel. by apply (Execute_enough _ _ _ N).
Qed.

Lemma answer_coherent ctx t a res : answer_reports ctx t a res → coherent res.
Proof. unfold answer_reports. repeat case_match; eauto with reports. Qed.
#[local] Hint Resolve answer_coherent : reports.

Lemma webhook_coherent n ctx payload res reqs :
  webhook_reports n ctx payload res reqs → coherent res.
Proof. unfold webhook_reports. repeat case_match; intros; destruct_and?; naive_solver eauto with reports. Qed.

Lemma builtin_coherent n ctx payload res : builtin_reports n ctx payload res → coherent res.
Proof. unfold builtin_reports. repeat case_match; naive_solver eauto with reports. Qed.

Definition http_url (url : string) : Prop :=
  String.prefix "http://" url = true ∨ String.prefix "https://" url = true.

Lemma status_result_reports ctx t code body d :
  answer_reports ctx t (Ok (code, body)) (status_result code body d).
Proof.
  unfold answer_reports, status_result. cbv zeta.
  repeat case_bool_decide; cbn; first [lia|by repeat split|idtac].
  all: split_and!; try done; cbn; repeat case_bool_decide; naive_solver lia.
Qed.

Lemma do_error_reports ctx t e d :
  answer_reports ctx t (Err e) (do_error_result e
    (if bool_decide (ctx_end ctx ≤ env_now t) then Some (ctx_cause ctx) else None) d).
Proof.
  unfold answer_reports, do_error_result. cbv zeta.
  destruct (bool_decide (ctx_end ctx ≤ env_now t)); cbn; by repeat case_match.
Qed.

Lemma wp_webhook_Execute ctx payload n u :
  wp (webhook_Execute ctx payload) (λ r _, webhook_reports n ctx payload r.1 r.2) (n, u).
Proof.
  unfold webhook_Execute, webhook_reports, since. wp_steps.
  destruct (unmarshal_webhook payload) as [p|e]; [|by wp_steps]. cbv zeta.
  case_match; [by wp_steps|]. rewrite <- negb_orb.
  destruct (_ || _); cbn [negb]; [|by wp_steps].
  case_match; [by wp_steps|]. wp_steps.
  match goal with |- context [http_Do ?m ?req] => destruct (http_Do m req) as [[code b]|e] eqn:Ha end;
    wp_steps; cbn [fst snd]; eexists _, (Datatypes.S (Datatypes.S n)), _; (split; [done|]);
    (split; [split; [lia|apply Nat.le_succ_diag_r]|]);
    (split; [done|]); (split; [done|]);
    (split; [cbn; destruct (wp_Body p) as [[]|]; done|]); rewrite Ha;
    [apply status_result_reports|apply do_error_reports].
Qed.

Lemma wp_builtin_Execute fuel ctx payload n u :
  wp (builtin_Execute fuel ctx payload) (λ r _, ∀ res, r = Some res →
    builtin_reports n ctx payload res) (n, u).
Proof.
  unfold builtin_Execute, builtin_reports. wp_steps.
  destruct (unmarshal_builtin payload) as [p|e]; [|unfold since; wp_steps; by intros ? [= <-]].
  cbv zeta. case_match.
  { unfold builtin_sleep. wp_steps. case_match eqn:Hc.
    - apply wp_ctxResult. intros res ns' Hres. wp_steps. intros ? [= <-].
      exists (Datatypes.S n). split; [lia|]. right. split; [|done].
      apply orb_true_iff in Hc as [Hc%bool_decide_eq_true|[Hc%bool_decide_eq_true _]%andb_true_iff]; lia.
    - unfold since. wp_steps. intros ? [= <-]. exists (Datatypes.S n). split; [lia|]. left.
      apply orb_false_iff in Hc as [Hc%bool_decide_eq_false _]. split; [lia|done]. }
  case_match; [unfold builtin_echo, since; wp_steps; by intros ? [= <-]|].
  case_match.
  { unfold builtin_fail, since. destruct (unmarshal_failArgs (bp_Args p)). wp_steps. by intros ? [= <-]. }
  case_match; [|unfold since; wp_steps; by intros ? [= <-]].
  unfold builtin_cpu_burn. wp_steps. eapply wp_mono; [apply wp_burn|].
  intros [[b x]|] ns' Hr; [|by wp_steps]. destruct (Hr b x eq_refl) as (m & Hm & Hb).
  destruct b.
  - wp_step. apply wp_ctxResult. intros res ns'' Hres. wp_steps. intros ? [= <-].
    exists (Datatypes.S n), m. split; [lia|]. by right.
  - unfold since. wp_steps. intros ? [= <-]. exists (Datatypes.S n), m. split; [lia|]. left.
    split; [done|]. by exists x.
Qed.

Lemma wp_Execute fuel ctx ty payload n u :
  wp (Execute fuel ctx ty payload) (λ r _, ∀ res, r = Some res →
    if bool_decide (ty = JobTypeBuiltin) then builtin_reports n ctx payload res
    else if bool_decide (ty = JobTypeWebhook) then ∃ reqs, webhook_reports n ctx payload res reqs
    else res = mkExecutionResult false None ("unsupported job type " ++ quote ty)%string false 0 "")
    (n, u).
Proof.
  unfold Execute. case_bool_decide; [apply wp_builtin_Execute|].
  case_bool_decide; wp_steps; [|by intros ? [= <-]].
  eapply wp_mono; [apply wp_webhook_Execute|]. intros r ns' Hr. wp_steps.
  intros ? [= <-]. by exists r.2.
Qed.

Lemma wp_Execute_coherent fuel ctx ty payload ns :
  wp (Execute fuel ctx ty payload) (λ r _, ∀ res, r = Some res → coherent res) ns.
Proof.
  destruct ns as [n u]. eapply wp_mono; [apply wp_Execute|]. intros r ns Hr res Hres.
  specialize (Hr res Hres). case_bool_decide; [by eapply builtin_coherent|].
  case_bool_decide; [destruct Hr; by eapply webhook_coherent|]. rewrite Hr. cbn. auto 10.
Qed.

(** C32: results say what happened.  Every result of the executor is coherent: a
    success carries the reason "success" and no error, a timeout is retryable and
    a cancellation is not.  A builtin handler reports what [builtin_reports] says
    of its payload; sleep and cpu_burn report the end of the context, and only
    of one that had ended by then: a retryable timeout if it ended by its
    deadline, a cancellation otherwise.  A webhook reports what
    [webhook_reports] says: a payload, a URL or a method it cannot use is a
    failure that is not retryable, and nothing is sent; otherwise exactly one
    request is sent, with the URL of the payload, an http or https one, and the
    result is a success for a status 200 to 299, a failure for any other status,
    retryable exactly for 429 and from 500, a timeout or a cancellation if the
    error or the context says so, and a retryable failure for any other error of
    the transport.  An unsupported type is a failure that is not retryable. *)
Theorem results_coherent fuel ctx ty payload n u :
  wp (Execute fuel ctx ty payload) (λ r _, ∀ res, r = Some res →
    coherent res ∧
    if bool_decide (ty = JobTypeBuiltin) then builtin_reports n ctx payload res
    else if bool_decide (ty = JobTypeWebhook) then ∃ reqs, webhook_reports n ctx payload res reqs
    else res = mkExecutionResult false None ("unsupported job type " ++ quote ty)%string false 0 "")
    (n, u) ∧
  wp (webhook_Execute ctx payload) (λ r _,
    webhook_reports n ctx payload r.1 r.2 ∧ (length r.2 ≤ 1)%nat ∧
    Forall (λ q, http_url (hq_URL q)) r.2 ∧
    (r.2 = [] → res_Retryable r.1 = false)) (n, u).
Proof.
  split.
  - eapply wp_mono; [apply wp_and; [apply wp_Execute_coherent|apply wp_Execute]|].
    intros r ns' [Hc Hr] res Hres. split; [by apply Hc|by apply Hr].
  - eapply wp_mono; [apply wp_webhook_Execute|]. intros r ns Hr. split; [done|]. revert Hr.
    assert (∀ msg out, r.2 = [] ∧ failure_reported false out msg r.1 → (length r.2 ≤ 1)%nat ∧
      Forall (λ q, http_url (hq_URL q)) r.2 ∧ (r.2 = [] → res_Retryable r.1 = false)) as Hnone.
    { intros msg out [-> (_ & _ & _ & _ & ?)]. split_and!; [cbn; lia|constructor|done]. }
    unfold webhook_reports. destruct (unmarshal_webhook payload) as [p|e]; [|apply Hnone].
    cbv zeta. case_bool_decide; [apply Hnone|]. destruct (_ || _) eqn:Hurl; [|apply Hnone].
    case_match; [apply Hnone|]. intros (req & m & t & -> & _ & _ & Hu & _).
    split_and!; [cbn; lia| |done]. apply Forall_singleton. rewrite Hu. by apply orb_true_iff in Hurl.
Qed.
End execution_facts.

(** ** A concrete library: the payload is the name of the handler *)

#[local] Existing Instance sample_env.

Definition sample_lib : Lib := {|
  unmarshal_builtin := λ p, match p with
    | Some h => Ok (mkBuiltinPayload h None) | None => Err (External "unexpected end of JSON input") end;
  unmarshal_webhook := λ p, match p with
    | Some u => Ok (mkWebhookPayload u "" ∅ None) | None => Err (External "unexpected end of JSON input") end;
  unmarshal_sleepArgs := λ _, 0;
  unmarshal_echoArgs := λ _, "";
  unmarshal_failArgs := λ _, ("", true);
  unmarshal_cpuBurnArgs := λ _, 3;
  marshal := λ _, Some "{}";
  error_string := λ _, "error";
  quote := λ s, s;
  itoa := λ _, "n";
  CanonicalHeaderKey := λ s, s;
  NewRequest := λ _ _, None;
  http_Do := λ _ _, Ok (503, "busy");
|}.
#[local] Existing Instance sample_lib.

Lemma Execute_terminates_witness :
  ∃ fuel0, ∀ fuel, (fuel0 ≤ fuel)%nat →
    wp (Execute fuel (mkCtx (2000 * Hour) DeadlineExceeded) JobTypeBuiltin (Some "cpu_burn"))
      (λ r _, r ≠ None) (0%nat, ()).
Proof.
  apply (Execute_terminates (mkCtx (2000 * Hour) DeadlineExceeded) JobTypeBuiltin
           (Some "cpu_burn") 0 ()).
  intros t. exists (Z.to_nat t). intros m Hm. change (env_now m) with (sample_now m).
  unfold sample_now, Hour, Second, Millisecond. lia.
Defined.

(** Three milliseconds of cpu_burn on this clock. *)
Example cpu_burn_runs :
  option_map res_Success
    (Execute 10 (mkCtx (2000 * Hour) DeadlineExceeded) JobTypeBuiltin (Some "cpu_burn")
       (0%nat, ())).1 = Some true.
Proof. vm_compute. done. Qed.
