(* ===== verification/MemStore.v ===== *)
(** * internal/store/memory: the in-process job store

    The struct [Store] as a record of maps, one definition per method (the
    mutex makes each method atomic), and the proof that it keeps the contract
    [JobStoreLaws] of its clients.  Pointers to jobs never escape: every
    method copies ([cloneJob]) what it stores and what it returns. *)

From S2P Require Import Prelude.
From S2P Require Import Domain.
From S2P Require Import Ports.

Record MemStore := mkMemStore {
  ms_jobs : gmap string Job;
  ms_byIdem : gmap string string;
  ms_executions : gmap string JobExecution;
  ms_workers : gmap string Worker;
  ms_outbox : list OutboxRow;
}.

Definition mem_New : MemStore := mkMemStore ∅ ∅ ∅ ∅ [].

Definition set_ms_jobs v (s : MemStore) : MemStore :=
  mkMemStore v (ms_byIdem s) (ms_executions s) (ms_workers s) (ms_outbox s).
Definition set_ms_byIdem v (s : MemStore) : MemStore :=
  mkMemStore (ms_jobs s) v (ms_executions s) (ms_workers s) (ms_outbox s).
Definition set_ms_executions v (s : MemStore) : MemStore :=
  mkMemStore (ms_jobs s) (ms_byIdem s) v (ms_workers s) (ms_outbox s).
Definition set_ms_workers v (s : MemStore) : MemStore :=
  mkMemStore (ms_jobs s) (ms_byIdem s) (ms_executions s) v (ms_outbox s).
Definition set_ms_outbox v (s : MemStore) : MemStore :=
  mkMemStore (ms_jobs s) (ms_byIdem s) (ms_executions s) (ms_workers s) v.

(** The deep copy of a job: the fields are copied, each time pointer gets a
    fresh cell with the same instant, the metadata map is copied entry by
    entry. *)
Definition cloneJob (j : Job) : Job :=
  let clone_time (p : option time) := match p with Some t => Some t | None => None end in
  mkJob (j_ID j) (j_Name j) (j_Type j) (j_Payload j) (j_Priority j) (j_State j)
    (j_Schedule j) (j_RetryPolicy j) (j_Timeout j) (j_IdempotencyKey j) (j_Attempt j)
    (j_MaxAttempts j) (j_WorkerID j) (j_ExecutionID j) (j_LastError j)
    (clone_time (j_ScheduledAt j)) (clone_time (j_QueuedAt j)) (clone_time (j_StartedAt j))
    (clone_time (j_CompletedAt j)) (clone_time (j_NextRetryAt j))
    (j_CreatedAt j) (j_UpdatedAt j)
    (match j_Metadata j with
     | Some m => Some (map_fold (λ k v c, <[k := v]> c) ∅ m)
     | None => None
     end).

Section methods.
Context `{Env}.

(** [CreateJob] from the time stamps on. *)
Definition mem_put_job (job : Job) : M (nat * MemStore) (result Job) :=
  now ← ask env_now;
  let job := set_UpdatedAt now (set_CreatedAt now job) in
  s ← getst;
  if negb (bool_decide (j_IdempotencyKey job = "")) then
    match ms_byIdem s !! j_IdempotencyKey job with
    | Some id =>
        match ms_jobs s !! id with
        | Some existing => mret (Ok (cloneJob existing))
        | None => mret (Err (GoPanic "nil pointer dereference"))
        end
    | None =>
        upd (λ s, set_ms_byIdem (<[j_IdempotencyKey job := j_ID job]> (ms_byIdem s)) s);;
        upd (λ s, set_ms_jobs (<[j_ID job := cloneJob job]> (ms_jobs s)) s);;
        mret (Ok job)
    end
  else
    upd (λ s, set_ms_jobs (<[j_ID job := cloneJob job]> (ms_jobs s)) s);;
    mret (Ok job).

Definition mem_CreateJob (job : Job) : M (nat * MemStore) (result Job) :=
  job ← (if bool_decide (j_ID job = "")
         then (id ← ask env_uuid; mret (set_ID id job))
         else mret job);
  mem_put_job job.

Definition mem_GetJob (id : string) : M (nat * MemStore) (result Job) :=
  s ← getst;
  match ms_jobs s !! id with
  | None => mret (Err ErrNotFound)
  | Some j => mret (Ok (cloneJob j))
  end.

(** A key whose job is missing would give the nil job [cloneJob(nil)]. *)
Definition mem_GetJobByIdempotencyKey (key : string) : M (nat * MemStore) (result (option Job)) :=
  s ← getst;
  match ms_byIdem s !! key with
  | None => mret (Err ErrNotFound)
  | Some id => mret (Ok (cloneJob <$> ms_jobs s !! id))
  end.

Definition mem_UpdateJobStateIf (id : string) (state : JobState) (f : fields)
    (onlyFrom : list JobState) : M (nat * MemStore) (option GoError) :=
  s ← getst;
  match ms_jobs s !! id with
  | None => mret (Some ErrNotFound)
  | Some j =>
      if allowed_from onlyFrom (j_State j) then
        now ← ask env_now;
        upd (λ s, set_ms_jobs (<[id := update_job state now f j]> (ms_jobs s)) s);;
        mret None
      else mret None
  end.

Definition mem_UpdateJobState (id : string) (state : JobState) (f : fields) :
    M (nat * MemStore) (option GoError) :=
  mem_UpdateJobStateIf id state f [].

(** The loops of the list methods: [out] grows by the copies of the jobs
    [keep] selects until it has [limit] elements.  In [ListDueScheduled] the
    limit is tested after every job, in the others after an append. *)
Fixpoint collect (keep : Job → bool) (limit : Z) (l : list (string * Job)) (out : list Job) :
    list Job :=
  match l with
  | [] => out
  | (_, j) :: l' =>
      if keep j then
        let out' := out ++ [cloneJob j] in
        if bool_decide (limit ≤ Z.of_nat (length out')) then out'
        else collect keep limit l' out'
      else collect keep limit l' out
  end.

Fixpoint collect_due (now : time) (limit : Z) (l : list (string * Job)) (out : list Job) :
    list Job :=
  match l with
  | [] => out
  | (_, j) :: l' =>
      let out' := if due now j then out ++ [cloneJob j] else out in
      if bool_decide (limit ≤ Z.of_nat (length out')) then out'
      else collect_due now limit l' out'
  end.

Definition mem_ListJobs (state : string) (limit : Z) : M (nat * MemStore) (result (list Job)) :=
  let limit := if bool_decide (limit ≤ 0) then 50 else limit in
  s ← getst;
  l ← range (ms_jobs s);
  mret (Ok (collect (λ j, bool_decide (state = "") ||
                          bool_decide (JobState_string (j_State j) = state)) limit l [])).

Definition mem_ListDueScheduled (limit : Z) : M (nat * MemStore) (result (list Job)) :=
  now ← ask env_now;
  s ← getst;
  l ← range (ms_jobs s);
  mret (Ok (collect_due now limit l [])).

Definition mem_ListCancelRequested (limit : Z) : M (nat * MemStore) (result (list Job)) :=
  let limit := if bool_decide (limit ≤ 0) then 50 else limit in
  s ← getst;
  l ← range (ms_jobs s);
  mret (Ok (collect (λ j, bool_decide (j_State j = JobStateCancelRequested)) limit l [])).

Definition mem_ListTimedOutRunning (now : time) (limit : Z) :
    M (nat * MemStore) (result (list Job)) :=
  let limit := if bool_decide (limit ≤ 0) then 50 else limit in
  s ← getst;
  l ← range (ms_jobs s);
  mret (Ok (collect (timed_out now) limit l [])).

Definition mem_CreateExecution (ex : JobExecution) : M (nat * MemStore) (result JobExecution) :=
  exid ← (if bool_decide (x_ID ex = "") then ask env_uuid else mret (x_ID ex));
  now ← ask env_now;
  let ex := stamp_execution exid now ex in
  upd (λ s, set_ms_executions (<[exid := ex]> (ms_executions s)) s);;
  mret (Ok ex).

Definition mem_FinishExecution (exid : string) (state : ExecutionState) (res : ExecutionResult) :
    M (nat * MemStore) (option GoError) :=
  s ← getst;
  match ms_executions s !! exid with
  | None => mret (Some ErrNotFound)
  | Some x =>
      now ← ask env_now;
      upd (λ s, set_ms_executions
        (<[exid := finish_execution state now res x]> (ms_executions s)) s);;
      mret None
  end.

Definition mem_UpsertWorker (w : Worker) : M (nat * MemStore) (option GoError) :=
  upd (λ s, set_ms_workers (<[w_ID w := w]> (ms_workers s)) s);;
  mret None.

Definition mem_ListHealthyWorkers : M (nat * MemStore) (result (list Worker)) :=
  s ← getst;
  l ← range (ms_workers s);
  mret (Ok (filter (λ w, w_Status w = WorkerStatusHealthy) l.*2)).

Definition mem_ListWorkers : M (nat * MemStore) (result (list Worker)) :=
  s ← getst;
  l ← range (ms_workers s);
  mret (Ok l.*2).

(** One round of the loop of [MarkStaleWorkers] on the map and the two
    slices. *)
Definition mark_one (deadBefore suspectBefore : time)
    (acc : gmap string Worker * (list string * list string)) (kw : string * Worker) :
    gmap string Worker * (list string * list string) :=
  let '(m, (suspected, unavailable)) := acc in
  let '(wid, w) := kw in
  if Before (w_LastHeartbeat w) deadBefore &&
     (bool_decide (w_Status w = WorkerStatusHealthy) ||
      bool_decide (w_Status w = WorkerStatusSuspected))
  then (<[wid := set_w_Status WorkerStatusUnavailable w]> m, (suspected, unavailable ++ [wid]))
  else if Before (w_LastHeartbeat w) suspectBefore &&
          bool_decide (w_Status w = WorkerStatusHealthy)
  then (<[wid := set_w_Status WorkerStatusSuspected w]> m, (suspected ++ [wid], unavailable))
  else acc.

Definition mem_MarkStaleWorkers (heartbeatTimeout grace : Duration) :
    M (nat * MemStore) (result (list string * list string)) :=
  now ← ask env_now;
  let deadBefore := time_add now (dur_neg (dur_add heartbeatTimeout grace)) in
  let suspectBefore := time_add now (dur_neg heartbeatTimeout) in
  s ← getst;
  l ← range (ms_workers s);
  let '(m, out) := foldl (mark_one deadBefore suspectBefore) (ms_workers s, ([], [])) l in
  upd (set_ms_workers m);;
  mret (Ok out).

(** The row keeps no payload. *)
Definition mem_InsertOutbox (ev : Event) : M (nat * MemStore) (option GoError) :=
  upd (λ s, set_ms_outbox (ms_outbox s ++
    [mkOutboxRow (ev_EventID ev) (EventType_string (ev_EventType ev)) (ev_JobID ev)
       None (ev_EventTime ev)]) s);;
  mret None.

Definition mem_FetchOutboxBatch (limit : Z) : M (nat * MemStore) (result (list OutboxRow)) :=
  s ← getst;
  let limit := if bool_decide (Z.of_nat (length (ms_outbox s)) < limit)
               then Z.of_nat (length (ms_outbox s)) else limit in
  if bool_decide (limit < 0) then mret (Err (GoPanic "makeslice: len out of range"))
  else mret (Ok (take (Z.to_nat limit) (ms_outbox s))).

Definition mem_MarkOutboxPublished (ids : list string) : M (nat * MemStore) (option GoError) :=
  upd (λ s, set_ms_outbox (filter (λ r, ob_ID r ∉ ids) (ms_outbox s)) s);;
  mret None.

#[global] Instance mem_JobStore : JobStore MemStore := {
  store_CreateJob := mem_CreateJob;
  store_GetJob := mem_GetJob;
  store_GetJobByIdempotencyKey := mem_GetJobByIdempotencyKey;
  store_UpdateJobState := mem_UpdateJobState;
  store_UpdateJobStateIf := mem_UpdateJobStateIf;
  store_ListJobs := mem_ListJobs;
  store_ListDueScheduled := mem_ListDueScheduled;
  store_ListCancelRequested := mem_ListCancelRequested;
  store_ListTimedOutRunning := mem_ListTimedOutRunning;
  store_CreateExecution := mem_CreateExecution;
  store_FinishExecution := mem_FinishExecution;
  store_UpsertWorker := mem_UpsertWorker;
  store_ListHealthyWorkers := mem_ListHealthyWorkers;
  store_ListWorkers := mem_ListWorkers;
  store_MarkStaleWorkers := mem_MarkStaleWorkers;
  store_InsertOutbox := mem_InsertOutbox;
  store_FetchOutboxBatch := mem_FetchOutboxBatch;
  store_MarkOutboxPublished := mem_MarkOutboxPublished;
}.
End methods.

#[global] Instance mem_StoreView : StoreView MemStore := {
  view_jobs := {| jobs := ms_jobs; store_key := id;
                  key_used := λ s key, bool_decide (is_Some (ms_byIdem s !! key)) |};
  idem := ms_byIdem;
  execs := ms_executions;
  workers := ms_workers;
}.

(** ** The methods keep the store's contract *)

Lemma map_fold_insert_self {A} (m : gmap string A) :
  map_fold (λ k v c, <[k := v]> c) ∅ m = m.
Proof.
  apply (map_fold_weak_ind (λ r m, r = m)); [done|]. by intros k x m' r _ ->.
Qed.

Lemma cloneJob_id j : cloneJob j = j.
Proof.
  destruct j as [????????? ?????????? ??? [m|]]; unfold cloneJob; cbn;
    [rewrite map_fold_insert_self|];
    repeat match goal with p : option time |- _ => destruct p end; done.
Qed.
#[export] Hint Rewrite cloneJob_id : chronos.

(** The collecting loop with a positive limit is a prefix of the filtered
    list. *)
Lemma collect_take keep limit l out :
  Z.of_nat (length out) < limit →
  collect keep limit l out =
    out ++ take (Z.to_nat limit - length out) (filter (λ kv : string * Job, keep kv.2) l).*2.
Proof.
  revert out. induction l as [|[k j] l IH]; intros out Hlt; simpl.
  { by rewrite take_nil, app_nil_r. }
  rewrite filter_cons. cbn [snd]. autorewrite with chronos.
  destruct (keep j) eqn:Hk; simpl; [|by apply IH].
  destruct (Z.to_nat limit - length out)%nat as [|n] eqn:Hn; [lia|]. simpl.
  rewrite length_app. simpl. case_bool_decide as Hlim.
  - assert (n = O) as -> by lia. by rewrite take_0.
  - rewrite IH by (rewrite length_app; simpl; lia).
    rewrite length_app, <- app_assoc. simpl. do 3 f_equal. lia.
Qed.

Lemma collect_due_collect now limit l out :
  Z.of_nat (length out) < limit →
  collect_due now limit l out = collect (due now) limit l out.
Proof.
  revert out. induction l as [|[k j] l IH]; intros out Hlt; simpl; [done|].
  destruct (due now j).
  - case_bool_decide as Hlim; [done|]. apply IH. lia.
  - rewrite bool_decide_false by lia. by apply IH.
Qed.

Lemma listing_collect keep limit (m : gmap string Job) l :
  0 < limit → l ≡ₚ map_to_list m → listing keep limit m (collect keep limit l []).
Proof.
  intros Hlim Hl. rewrite collect_take by done. simpl. rewrite Nat.sub_0_r.
  set (fl := filter (λ kv : string * Job, keep kv.2) l).
  assert (NoDup fl.*1) as Hnd.
  { apply (sublist_NoDup _ l.*1); [rewrite Hl; apply NoDup_fst_map_to_list|].
    apply fmap_sublist, sublist_filter. }
  assert (∀ k j, (k, j) ∈ fl ↔ keep j ∧ m !! k = Some j) as Hfl.
  { intros k j. unfold fl. by rewrite list_elem_of_filter, Hl, elem_of_map_to_list. }
  exists (take (Z.to_nat limit) fl). split_and!.
  - by rewrite fmap_take.
  - rewrite fmap_take. eapply sublist_NoDup; [exact Hnd|]. apply sublist_take.
  - intros k j Hin. assert ((k, j) ∈ fl) as [? ?]%Hfl; [|done].
    rewrite <- (take_drop (Z.to_nat limit) fl). set_solver.
  - rewrite length_take. lia.
  - rewrite length_take, length_fmap. intros Hlt k j Hj Hk.
    rewrite take_ge by lia. by apply Hfl.
Qed.

Lemma set_w_Status_id w : set_w_Status (w_Status w) w = w.
Proof. by destruct w. Qed.

Section mark.
Context (dB sB : time).

Definition dead_now (w : Worker) : bool :=
  Before (w_LastHeartbeat w) dB &&
  (bool_decide (w_Status w = WorkerStatusHealthy) ||
   bool_decide (w_Status w = WorkerStatusSuspected)).
Definition suspect_now (w : Worker) : bool :=
  negb (dead_now w) && (Before (w_LastHeartbeat w) sB &&
                        bool_decide (w_Status w = WorkerStatusHealthy)).
Definition marked (w : Worker) : WorkerStatus :=
  if dead_now w then WorkerStatusUnavailable
  else if suspect_now w then WorkerStatusSuspected else w_Status w.

Lemma mark_one_eq m sus una k w :
  m !! k = Some w →
  mark_one dB sB (m, (sus, una)) (k, w) =
    (<[k := set_w_Status (marked w) w]> m,
     (sus ++ (if suspect_now w then [k] else []), una ++ (if dead_now w then [k] else []))).
Proof.
  intros Hk. unfold mark_one, marked, suspect_now. fold (dead_now w).
  destruct (dead_now w); simpl; [by rewrite app_nil_r|].
  destruct (Before (w_LastHeartbeat w) sB && _); simpl; rewrite ?app_nil_r; [done|].
  by rewrite set_w_Status_id, insert_id.
Qed.

Lemma mark_fold l m sus una :
  NoDup l.*1 → (∀ k w, (k, w) ∈ l → m !! k = Some w) →
  ∃ m', foldl (mark_one dB sB) (m, (sus, una)) l =
    (m', (sus ++ (filter (λ kw : string * Worker, suspect_now kw.2) l).*1,
          una ++ (filter (λ kw : string * Worker, dead_now kw.2) l).*1)) ∧
    (∀ k, k ∉ l.*1 → m' !! k = m !! k) ∧
    (∀ k w, (k, w) ∈ l → m' !! k = Some (set_w_Status (marked w) w)).
Proof.
  revert m sus una. induction l as [|[k w] l IH]; intros m sus una Hnd Hm.
  { exists m. simpl. rewrite !app_nil_r. set_solver. }
  cbn [foldl]. rewrite mark_one_eq by (apply Hm; set_solver).
  cbn in Hnd. apply NoDup_cons in Hnd as [Hk Hnd].
  destruct (IH (<[k := set_w_Status (marked w) w]> m)
              (sus ++ (if suspect_now w then [k] else []))
              (una ++ (if dead_now w then [k] else []))) as (m' & -> & Hout & Hin); [done| |].
  { intros k' w' Hin. rewrite lookup_insert_ne; [apply Hm; set_solver|].
    intros ->. apply Hk. by apply (list_elem_of_fmap_2 fst) in Hin. }
  exists m'. split_and!.
  - rewrite !filter_cons. cbn [snd].
    destruct (suspect_now w), (dead_now w); simpl; by rewrite <- ?app_assoc, ?app_nil_r.
  - intros k' Hk'. rewrite Hout by set_solver. apply lookup_insert_ne. set_solver.
  - intros k' w' [[= -> ->]|Hin']%elem_of_cons; [|by apply Hin].
    rewrite Hout by done. apply lookup_insert_eq.
Qed.

Lemma marked_unavailable w :
  dead_now w ↔ marked w = WorkerStatusUnavailable ∧ w_Status w ≠ WorkerStatusUnavailable.
Proof.
  unfold marked, suspect_now. destruct (dead_now w) eqn:E; simpl.
  - split; [|done]. intros _. split; [done|]. intros Hw. revert E.
    unfold dead_now. rewrite Hw. by rewrite !bool_decide_false, andb_false_r.
  - destruct (Before _ _ && _); naive_solver.
Qed.

Lemma marked_suspected w :
  suspect_now w ↔ marked w = WorkerStatusSuspected ∧ w_Status w ≠ WorkerStatusSuspected.
Proof.
  unfold marked. destruct (suspect_now w) eqn:E.
  - revert E. unfold suspect_now. destruct (dead_now w); [done|]. simpl.
    case_bool_decide as Hw; [rewrite Hw|rewrite andb_false_r]; naive_solver.
  - destruct (dead_now w); naive_solver.
Qed.
End mark.

Lemma stale_status_marked now to gr w :
  stale_status now to gr w =
    marked (time_add now (dur_neg (dur_add to gr))) (time_add now (dur_neg to)) w.
Proof.
  unfold stale_status, marked, suspect_now.
  fold (dead_now (time_add now (dur_neg (dur_add to gr))) w).
  by destruct (dead_now _ w).
Qed.

Section laws.
Context `{Env}.

(** What [CreateJob] does with a job that got the identifier [id]. *)
Definition create_post (id : string) (job : Job) (s : MemStore) (r : result Job)
    (s' : MemStore) : Prop :=
  match (if bool_decide (j_IdempotencyKey job = "") then None
         else ms_byIdem s !! j_IdempotencyKey job) with
  | Some id0 => s' = s ∧ ∀ j0, ms_jobs s !! id0 = Some j0 → r = Ok j0
  | None => ∃ t,
      let j' := set_UpdatedAt t (set_CreatedAt t (set_ID id job)) in
      r = Ok j' ∧
      s' = set_ms_jobs (<[id := j']> (ms_jobs s))
             (if bool_decide (j_IdempotencyKey job = "") then s
              else set_ms_byIdem (<[j_IdempotencyKey job := id]> (ms_byIdem s)) s)
  end.

Lemma mem_put_job_spec id job n s :
  wp (mem_put_job (set_ID id job)) (post (Datatypes.S n) (create_post id job s)) (n, s).
Proof.
  unfold mem_put_job, post, create_post. wp_steps.
  change (j_IdempotencyKey (set_UpdatedAt _ _)) with (j_IdempotencyKey job).
  change (j_ID (set_UpdatedAt _ _)) with id.
  destruct (bool_decide (j_IdempotencyKey job = "")); simpl.
  - wp_steps. autorewrite with chronos. eauto.
  - destruct (ms_byIdem s !! j_IdempotencyKey job) as [id0|]; [|wp_steps].
    + destruct (ms_jobs s !! id0); wp_steps; (split; [lia|]); [|done].
      autorewrite with chronos. naive_solver.
    + autorewrite with chronos. eauto.
Qed.

Definition created_id (job : Job) (n : nat) : string :=
  if bool_decide (j_ID job = "") then env_uuid n else j_ID job.

Lemma mem_CreateJob_post job n s :
  wp (mem_CreateJob job) (post (Datatypes.S n) (create_post (created_id job n) job s)) (n, s).
Proof.
  unfold mem_CreateJob, created_id. wp_step.
  case_bool_decide as Hid; wp_steps.
  { eapply wp_mono; [apply mem_put_job_spec|]. intros r ns [Hn ?]. split; [lia|done]. }
  replace job with (set_ID (j_ID job) job) at 1 by by destruct job.
  apply mem_put_job_spec.
Qed.

(** The tick only advanced; a list method collected a listing. *)
Ltac mem_post := unfold post; cbn [fst snd]; split; [lia|].
Ltac mem_listing :=
  split; [done|]; eexists; split; [done|];
  apply listing_collect; [case_bool_decide; lia|done].

Lemma mem_MarkStaleWorkers_law to gr n s :
  wp (mem_MarkStaleWorkers to gr) (post n (λ r s', ms_jobs s' = ms_jobs s ∧
    ms_byIdem s' = ms_byIdem s ∧ ms_executions s' = ms_executions s ∧
    ∃ t sus una, r = Ok (sus, una) ∧ NoDup una ∧
    (∀ id, id ∈ una ↔ ∃ w, ms_workers s !! id = Some w ∧
       stale_status t to gr w = WorkerStatusUnavailable ∧ w_Status w ≠ WorkerStatusUnavailable) ∧
    (∀ id, id ∈ sus ↔ ∃ w, ms_workers s !! id = Some w ∧
       stale_status t to gr w = WorkerStatusSuspected ∧ w_Status w ≠ WorkerStatusSuspected) ∧
    (∀ id, ms_workers s' !! id =
       (λ w, set_w_Status (stale_status t to gr w) w) <$> ms_workers s !! id))) (n, s).
Proof.
  unfold mem_MarkStaleWorkers. wp_steps.
  assert (NoDup l.*1) as Hnd by (rewrite Hl; apply NoDup_fst_map_to_list).
  assert (∀ k w, (k, w) ∈ l ↔ ms_workers s !! k = Some w) as Hin
    by (intros; rewrite Hl; apply elem_of_map_to_list).
  edestruct (mark_fold (time_add (env_now n) (dur_neg (dur_add to gr)))
    (time_add (env_now n) (dur_neg to)) l (ms_workers s) [] []) as (m' & -> & Hout & Hm');
    [done|naive_solver|].
  wp_steps. split; [simpl; lia|]. simpl. split_and!; [done..|].
  eexists (env_now n), _, _. split_and!; [done| | | |].
  - eapply sublist_NoDup; [exact Hnd|]. apply fmap_sublist, sublist_filter.
  - intros k. rewrite elem_of_fst_filter. simpl. setoid_rewrite stale_status_marked.
    setoid_rewrite <- marked_unavailable. setoid_rewrite Hin. naive_solver.
  - intros k. rewrite elem_of_fst_filter. simpl. setoid_rewrite stale_status_marked.
    setoid_rewrite <- marked_suspected. setoid_rewrite Hin. naive_solver.
  - intros k. destruct (ms_workers s !! k) as [w|] eqn:Hw; simpl.
    + rewrite stale_status_marked. by apply Hm', Hin.
    + rewrite Hout; [done|]. intros ([k' w] & -> & Hk)%list_elem_of_fmap.
      apply Hin in Hk. simpl in Hw. congruence.
Qed.

#[global] Instance mem_JobStoreLaws : JobStoreLaws MemStore.
Proof.
  constructor; cbn.
  - done.
  - done.
  - intros id n s. unfold mem_GetJob. wp_steps.
    destruct (ms_jobs s !! id); wp_steps; mem_post; by rewrite ?cloneJob_id.
  - done.
  - intros id st f only n s. unfold mem_UpdateJobStateIf. wp_steps.
    destruct (ms_jobs s !! id) as [j|]; [|wp_steps; mem_post; by exists 0].
    destruct (allowed_from only (j_State j)); wp_steps; mem_post; by exists (env_now n).
  - intros job n s. eapply wp_mono; [apply mem_CreateJob_post|].
    intros r [n' s'] [Hn Hpost]. cbn in Hn. split; [cbn; lia|]. revert Hpost. unfold create_post. cbn [snd].
    destruct (if bool_decide (j_IdempotencyKey job = "") then None
              else ms_byIdem s !! j_IdempotencyKey job) as [id0|].
    + intros [-> Hr]. by split_and!.
    + intros (t & -> & ->). split_and!; [by case_bool_decide..|].
      exists (created_id job n), t. split_and!; [|done|by case_bool_decide..].
      unfold created_id. destruct (bool_decide (j_ID job = "")); [|done].
      exists n. cbn. split; [lia|done].
  - intros st limit n s. unfold mem_ListJobs. wp_steps. mem_post. mem_listing.
  - intros limit n s. unfold mem_ListDueScheduled. wp_steps. by mem_post.
  - intros limit n s Hlim. unfold mem_ListDueScheduled. wp_steps. mem_post.
    split; [done|]. eexists _, n. split; [done|]. split; [done|].
    rewrite collect_due_collect by done. by apply listing_collect.
  - intros limit n s. unfold mem_ListCancelRequested. wp_steps. mem_post. mem_listing.
  - intros now limit n s. unfold mem_ListTimedOutRunning. wp_steps. mem_post. mem_listing.
  - intros ex n s Hid. unfold mem_CreateExecution. wp_step.
    rewrite bool_decide_false by done. wp_steps. mem_post. split_and!; [done..|].
    by exists (env_now n).
  - intros id st res n s. unfold mem_FinishExecution. wp_steps.
    destruct (ms_executions s !! id) as [x|] eqn:Hx; wp_steps; mem_post; split_and!; try done.
    + exists (env_now n). cbn. by apply insert_alter.
    + exists 0. cbn. symmetry. by apply alter_id'.
  - intros w n s. unfold mem_UpsertWorker. wp_steps. by mem_post.
  - intros to gr n s. apply mem_MarkStaleWorkers_law.
Qed.
End laws.
