(* ===== verification/StoreProps.v ===== *)
(** * Properties of the in-memory store

    Idempotent creation, round trips, the compare-and-set of
    [UpdateJobStateIf] and the outbox, on the definitions of MemStore.v. *)

From S2P Require Import Prelude.
From S2P Require Import Float64.
From S2P Require Import Domain.
From S2P Require Import Ports.
From S2P Require Import Fixture.
From S2P Require Import MemStore.

(** Every idempotency key leads to a stored job with that key, and every
    stored job is under its identifier. *)
Definition store_ok (s : MemStore) : Prop :=
  keyed (ms_jobs s) ∧
  ∀ key id, ms_byIdem s !! key = Some id →
    ∃ j, ms_jobs s !! id = Some j ∧ j_IdempotencyKey j = key.

Section props.
Context `{Env}.

(** The methods that write jobs. *)
Inductive store_step : MemStore → MemStore → Prop :=
  | step_CreateJob n job s :
      (** identifiers chosen by the caller are unused *)
      (j_ID job ≠ "" → ms_jobs s !! j_ID job = None) →
      (j_ID job = "" → ms_jobs s !! env_uuid n = None) →
      store_step s (mem_CreateJob job (n, s)).2.2
  | step_UpdateJobStateIf n id st f only s :
      store_step s (mem_UpdateJobStateIf id st f only (n, s)).2.2
  | step_CreateExecution n ex s : store_step s (mem_CreateExecution ex (n, s)).2.2
  | step_FinishExecution n id st res s : store_step s (mem_FinishExecution id st res (n, s)).2.2
  | step_UpsertWorker n w s : store_step s (mem_UpsertWorker w (n, s)).2.2
  | step_MarkStaleWorkers n a b s : store_step s (mem_MarkStaleWorkers a b (n, s)).2.2
  | step_InsertOutbox n ev s : store_step s (mem_InsertOutbox ev (n, s)).2.2
  | step_MarkOutboxPublished n ids s : store_step s (mem_MarkOutboxPublished ids (n, s)).2.2.

Lemma store_ok_same s s' :
  ms_jobs s' = ms_jobs s → ms_byIdem s' = ms_byIdem s → store_ok s → store_ok s'.
Proof. unfold store_ok. by intros -> ->. Qed.

Lemma store_ok_put s id j :
  store_ok s → ms_jobs s !! id = None → j_ID j = id →
  store_ok (set_ms_jobs (<[id := j]> (ms_jobs s))
    (if bool_decide (j_IdempotencyKey j = "") then s
     else set_ms_byIdem (<[j_IdempotencyKey j := id]> (ms_byIdem s)) s)).
Proof.
  intros [Hk Hi] Hid Hj. split.
  - intros k jk. cbn. rewrite lookup_insert. case_decide; [naive_solver|]. by apply Hk.
  - intros key id' Hkey.
    assert ((key = j_IdempotencyKey j ∧ id' = id) ∨ ms_byIdem s !! key = Some id') as [[-> ->]|Hk'].
    { revert Hkey. case_bool_decide; cbn; [auto|]. rewrite lookup_insert.
      case_decide; [naive_solver|auto]. }
    + exists j. cbn. by rewrite lookup_insert_eq.
    + destruct (Hi _ _ Hk') as (j' & Hj' & He). exists j'. cbn.
      rewrite lookup_insert_ne by congruence. done.
Qed.

Lemma store_ok_update s id j j' :
  store_ok s → ms_jobs s !! id = Some j → j_ID j' = id → j_IdempotencyKey j' = j_IdempotencyKey j →
  store_ok (set_ms_jobs (<[id := j']> (ms_jobs s)) s).
Proof.
  intros [Hk Hi] Hid Hj He. split.
  - intros k jk. cbn. rewrite lookup_insert. case_decide; [naive_solver|]. by apply Hk.
  - intros key id' Hkey. destruct (Hi _ _ Hkey) as (j0 & Hj0 & He0). cbn.
    rewrite lookup_insert. case_decide; [|eauto]. subst. exists j'. simplify_eq. by rewrite He.
Qed.

Lemma store_step_ok s s' : store_step s s' → store_ok s → store_ok s'.
Proof.
  intros Hstep Hok. destruct Hstep as
    [n job s Hid Hu|n id st f only s|n ex s|n id st res s|n w s|n a b s|n ev s|n ids s].
  - pose proof (mem_CreateJob_post job n s) as Hp. unfold wp, post in Hp. destruct Hp as [_ Hp].
    unfold create_post in Hp.
    destruct (if bool_decide _ then _ else _) as [id0|]; [by destruct Hp as [-> _]|].
    destruct Hp as (t & _ & ->).
    apply (store_ok_put s _ (set_UpdatedAt t (set_CreatedAt t (set_ID (created_id job n) job))));
      [done| |done].
    unfold created_id. case_bool_decide; auto.
  - unfold mem_UpdateJobStateIf, mbind, M_bind, getst. cbn [fst snd].
    destruct (ms_jobs s !! id) as [j|] eqn:Hj; [|done].
    destruct (allowed_from only (j_State j)); [|done]. cbn.
    pose proof (update_job_spec st (env_now n) f j) as Hs. unfold same_spec in Hs.
    eapply store_ok_update; [done|done| |apply Hs].
    rewrite update_job_ID. by apply Hok.
  - unfold mem_CreateExecution, mbind, M_bind.
    destruct (bool_decide (x_ID ex = "")); by apply (store_ok_same s).
  - unfold mem_FinishExecution, mbind, M_bind, getst, ask, upd. cbn.
    by case_match; apply (store_ok_same s).
  - by apply (store_ok_same s).
  - pose proof (mem_MarkStaleWorkers_law a b n s) as Hp. unfold wp, post in Hp.
    by apply (store_ok_same s); [apply Hp..|].
  - by apply (store_ok_same s).
  - by apply (store_ok_same s).
Qed.

(** The indexes of the store agree.  In every state that the methods of
    the in-memory store reach from an empty store (with identifiers that are
    not reused), each job is stored under its own identifier and each
    idempotency key leads to a stored job with that key, so that looking a key
    up never dereferences a missing job. *)
Lemma store_reachable_ok s : rtc store_step mem_New s → store_ok s.
Proof.
  intros Hr. assert (store_ok mem_New) as H0 by (split; intros ? ? E; cbn in E; by rewrite lookup_empty in E).
  induction Hr as [|s1 s2 s3 Hstep _ IH]; [done|]. by apply IH, (store_step_ok s1).
Qed.

(** Creation is idempotent.  When two submissions carry the same
    non-empty idempotency key, the second one is answered with the stored job
    of the key and changes nothing in the store; after the first one the key
    can be looked up and leads to the job that was returned. *)
Lemma CreateJob_idempotent n s job1 job2 :
  store_ok s → j_IdempotencyKey job1 ≠ "" → j_IdempotencyKey job2 = j_IdempotencyKey job1 →
  wp (r1 ← mem_CreateJob job1; s1 ← getst; r2 ← mem_CreateJob job2;
      g ← mem_GetJobByIdempotencyKey (j_IdempotencyKey job1); mret (r1, s1, r2, g))
    (λ out ns, let '(r1, s1, r2, g) := out in
       r2 = r1 ∧ ns.2 = s1 ∧
       ∃ j, r1 = Ok j ∧ g = Ok (Some j) ∧ ms_jobs s1 !! j_ID j = Some j ∧
            j_IdempotencyKey j = j_IdempotencyKey job1) (n, s).
Proof.
  intros [Hk Hi] Hne Heq. wp_step. eapply wp_mono; [apply mem_CreateJob_post|].
  intros r1 [n1 s1] [_ Hc1]. cbn in Hc1. wp_steps.
  eapply wp_mono; [apply mem_CreateJob_post|]. intros r2 [n2 s2] [_ Hc2]. cbn in Hc2.
  assert (∃ j, r1 = Ok j ∧ ms_byIdem s1 !! j_IdempotencyKey job1 = Some (j_ID j) ∧
    ms_jobs s1 !! j_ID j = Some j ∧ j_IdempotencyKey j = j_IdempotencyKey job1)
    as (j & -> & Hidx & Hj & Hkey).
  { unfold create_post in Hc1. rewrite bool_decide_false in Hc1 by done.
    destruct (ms_byIdem s !! j_IdempotencyKey job1) as [id0|] eqn:Hid.
    - destruct Hc1 as [-> Hr]. destruct (Hi _ _ Hid) as (j & Hj & Hkey). exists j.
      pose proof (Hk _ _ Hj) as <-. auto.
    - destruct Hc1 as (t & -> & ->). eexists. split; [done|]. cbn.
      by rewrite !lookup_insert_eq. }
  unfold create_post in Hc2. rewrite Heq, bool_decide_false in Hc2 by done. rewrite Hidx in Hc2.
  destruct Hc2 as [-> Hr2]. rewrite (Hr2 j Hj). unfold mem_GetJobByIdempotencyKey. wp_steps.
  rewrite Hidx. wp_steps. split; [done|]. split; [done|]. exists j.
  rewrite Hj. cbn. by autorewrite with chronos.
Qed.

(** What was created can be read.  A job that is created without an
    idempotency key is stored under its identifier (a new one if it had none)
    exactly as it is returned: reading it back gives the same job, and all
    other jobs are unchanged. *)
Lemma CreateJob_GetJob n s job :
  j_IdempotencyKey job = "" →
  wp (r ← mem_CreateJob job;
      g ← mem_GetJob (match r with Ok j => j_ID j | Err _ => "" end); mret (r, g))
    (λ out ns, ∃ j t, out = (Ok j, Ok j) ∧
       j = set_UpdatedAt t (set_CreatedAt t (set_ID (created_id job n) job)) ∧
       ms_jobs ns.2 = <[j_ID j := j]> (ms_jobs s) ∧ ms_byIdem ns.2 = ms_byIdem s) (n, s).
Proof.
  intros He. wp_step. eapply wp_mono; [apply mem_CreateJob_post|]. intros r [n1 s1] [_ Hc].
  unfold create_post in Hc. rewrite He in Hc. rewrite !(bool_decide_true (_ = _)) in Hc by done.
  destruct Hc as (t & -> & Hs). cbn in Hs. subst s1. wp_step. unfold mem_GetJob. wp_steps. cbn.
  rewrite lookup_insert_eq, cloneJob_id. wp_steps. eexists _, t. cbn. done.
Qed.

(** C23: the in-memory store keeps the contract of its clients.  All its
    methods satisfy the laws [JobStoreLaws] (Ports.v) on which the theorems
    about the scheduler rest, for every clock, UUID source and map iteration
    order: among them that a list method returns entries that qualify, each
    once, as many as the limit allows and all of them below the limit, that
    [UpdateJobStateIf] is a compare-and-set, and that [MarkStaleWorkers] reports
    exactly the workers whose status it changed. *)
Theorem mem_store_contract : JobStoreLaws MemStore.
Proof. apply mem_JobStoreLaws. Qed.

End props.

(** ** On concrete stores *)

#[local] Existing Instance sample_env.

Definition keyed_job (key : string) : Job :=
  let j := sample_job "" JobStateCreated "" 0 in
  mkJob (j_ID j) (j_Name j) (j_Type j) (j_Payload j) (j_Priority j) (j_State j) (j_Schedule j)
    (j_RetryPolicy j) (j_Timeout j) key 0 3 "" "" "" None None None None None 0 0 None.

Lemma store_reachable_ok_witness : store_ok (mem_CreateJob (keyed_job "k") (0%nat, mem_New)).2.2.
Proof. apply store_reachable_ok. eapply rtc_once. by apply step_CreateJob. Defined.

Lemma CreateJob_idempotent_witness :
  wp (r1 ← mem_CreateJob (keyed_job "k"); s1 ← getst; r2 ← mem_CreateJob (keyed_job "k");
      g ← mem_GetJobByIdempotencyKey "k"; mret (r1, s1, r2, g))
    (λ out ns, ns.2 = out.1.1.2) (0%nat, mem_New).
Proof.
  eapply wp_mono; [apply (CreateJob_idempotent 0 mem_New (keyed_job "k") (keyed_job "k"))|].
  - split; intros ? ? E; cbn in E; by rewrite lookup_empty in E.
  - done.
  - done.
  - by intros [[[r1 s1] r2] g] ns (_ & Hs & _).
Defined.
