(* ===== verification/Postgres.v ===== *)
(** * internal/store/postgres: the job store on a database

    The tables of migrations/001_init.sql as maps from the primary key to a row
    with the columns' types, and one definition per method of store.go.  A
    statement ([stmt]) is applied to the tables atomically; it may get lost, or
    be executed while its answer is lost ([Fault]).  What the code leaves to
    Postgres, pgx and encoding/json is a parameter: [Pg] has the faults, the
    database's clock, row locks and the input of uuid, text and jsonb values,
    [Json] the encoding of a Go value.

    Instants are within Postgres's range and have its resolution, a
    microsecond.  The order of rows is the environment's wherever the statement
    leaves it open. *)

From S2P Require Import Prelude.
From S2P Require Import Domain.
From S2P Require Import Ports.

Inductive Fault :=
  | Executed
  | NotSent (e : GoError)
  | AnswerLost (e : GoError).

Class Pg := {
  (** what happens to a statement *)
  pg_fault : nat → Fault;
  (** [NOW()] *)
  pg_now : nat → time;
  (** rows that another transaction has locked, by primary key *)
  pg_locked : nat → string → bool;
  (** the canonical form of a text that is a UUID *)
  pg_uuid : string → option string;
  (** the text is valid in the database's encoding *)
  pg_text : string → bool;
  (** the normal form in which a jsonb column gives a valid text back *)
  pg_jsonb : string → option string;
}.

(** [json.Marshal], whose result is nil on an error the code drops, and
    [json.Unmarshal] into a zero value, whose error the code drops. *)
Class Json (T : Type) := {
  Marshal : T → option string;
  Unmarshal : string → T;
}.

Class JsonLib := {
  #[global] json_Schedule :: Json Schedule;
  #[global] json_RetryPolicy :: Json RetryPolicy;
  #[global] json_map :: Json (option (gmap string string));
  #[global] json_Capabilities :: Json WorkerCapabilities;
  #[global] json_Event :: Json Event;
}.

(** ** The tables *)

Record JobRow := mkJobRow {
  jr_name : string;
  jr_type : string;
  jr_payload : string;
  jr_priority : Z;
  jr_state : JobState;
  jr_schedule : string;
  jr_retry_policy : string;
  jr_timeout_ms : Z;
  jr_idempotency_key : option string;
  jr_attempt : Z;
  jr_max_attempts : Z;
  jr_worker_id : option string;
  jr_execution_id : option string;
  jr_last_error : option string;
  jr_scheduled_at : option time;
  jr_queued_at : option time;
  jr_started_at : option time;
  jr_completed_at : option time;
  jr_next_retry_at : option time;
  jr_metadata : string;
  jr_created_at : time;
  jr_updated_at : time;
}.

Record ExecutionRow := mkExecutionRow {
  xr_job_id : string;
  xr_worker_id : string;
  xr_attempt : Z;
  xr_state : ExecutionState;
  xr_started_at : option time;
  xr_finished_at : option time;
  xr_duration_ms : option Z;
  xr_error : option string;
  xr_output : option string;
  xr_retryable : bool;
  xr_created_at : time;
}.

Record WorkerRow := mkWorkerRow {
  wr_address : string;
  wr_status : WorkerStatus;
  wr_capacity : Z;
  wr_active_jobs : Z;
  wr_capabilities : string;
  wr_labels : string;
  wr_last_heartbeat : time;
  wr_registered_at : time;
  wr_metadata : string;
}.

Record EventOutboxRow := mkEventOutboxRow {
  or_event_type : string;
  or_aggregate_id : string;
  or_payload : string;
  or_created_at : time;
  or_published_at : option time;
}.

Record PgDB := mkPgDB {
  pg_jobs : gmap string JobRow;
  pg_executions : gmap string ExecutionRow;
  pg_workers : gmap string WorkerRow;
  pg_outbox : gmap string EventOutboxRow;
}.

Definition pg_empty : PgDB := mkPgDB ∅ ∅ ∅ ∅.

Definition set_pg_jobs v (d : PgDB) : PgDB :=
  mkPgDB v (pg_executions d) (pg_workers d) (pg_outbox d).
Definition set_pg_executions v (d : PgDB) : PgDB :=
  mkPgDB (pg_jobs d) v (pg_workers d) (pg_outbox d).
Definition set_pg_workers v (d : PgDB) : PgDB :=
  mkPgDB (pg_jobs d) (pg_executions d) v (pg_outbox d).
Definition set_pg_outbox v (d : PgDB) : PgDB :=
  mkPgDB (pg_jobs d) (pg_executions d) (pg_workers d) v.

(** ** Values of the columns

    A parameter of a statement is converted to the type of its column, or the
    statement fails. *)

Definition timestamptz (t : time) : time := t / 1000 * 1000.
Definition col_int4 (z : Z) : option Z :=
  if bool_decide (in_range 32 z) then Some z else None.
Definition nullable {A B} (conv : A → option B) (v : option A) : option (option B) :=
  match v with None => Some None | Some a => Some <$> conv a end.

Definition nullStr (s : string) : option string :=
  if bool_decide (s = "") then None else Some s.

(** [COALESCE(c, '')] *)
Definition coalesce (c : option string) : string := default "" c.

Definition invalid_input : GoError := External "invalid input value".
Definition unique_violation : GoError := External "unique_violation".
Definition foreign_key_violation : GoError := External "foreign_key_violation".
Definition negative_limit : GoError := External "LIMIT must not be negative".

Section columns.
Context `{Pg, JsonLib}.

Definition col_text (s : string) : option string := if pg_text s then Some s else None.
Definition col_json {T} `{Json T} (v : T) : option string := Marshal v ≫= pg_jsonb.
(** [CHECK (type IN ('builtin', 'webhook'))] *)
Definition col_type (s : string) : option string :=
  if bool_decide (s = JobTypeBuiltin ∨ s = JobTypeWebhook) then Some s else None.

(** The row the INSERT of [CreateJob] makes of its parameters; the columns it
    does not name are null. *)
Definition job_row (job : Job) : option (string * JobRow) :=
  id ← pg_uuid (j_ID job);
  name ← col_text (j_Name job);
  ty ← col_type (j_Type job);
  payload ← pg_jsonb (default "{}" (j_Payload job));
  priority ← col_int4 (j_Priority job);
  sched ← col_json (j_Schedule job);
  retry ← col_json (j_RetryPolicy job);
  key ← nullable col_text (nullStr (j_IdempotencyKey job));
  attempt ← col_int4 (j_Attempt job);
  max_attempts ← col_int4 (j_MaxAttempts job);
  meta ← col_json (j_Metadata job);
  Some (id, mkJobRow name ty payload priority (j_State job) sched retry
    (Milliseconds (j_Timeout job)) key attempt max_attempts None None None
    (timestamptz <$> j_ScheduledAt job) None None None None meta
    (timestamptz (j_CreatedAt job)) (timestamptz (j_UpdatedAt job))).

(** The row after the UPDATE of [UpdateJobStateIf]: what the SET clause makes
    of it. *)
Definition updated_row (job : Job) : option (string * (JobRow → JobRow)) :=
  id ← pg_uuid (j_ID job);
  worker ← nullable col_text (nullStr (j_WorkerID job));
  execution ← nullable pg_uuid (nullStr (j_ExecutionID job));
  last_error ← nullable col_text (nullStr (j_LastError job));
  attempt ← col_int4 (j_Attempt job);
  Some (id, λ r, mkJobRow (jr_name r) (jr_type r) (jr_payload r) (jr_priority r) (j_State job)
    (jr_schedule r) (jr_retry_policy r) (jr_timeout_ms r) (jr_idempotency_key r)
    attempt (jr_max_attempts r) worker execution last_error
    (timestamptz <$> j_ScheduledAt job) (timestamptz <$> j_QueuedAt job)
    (timestamptz <$> j_StartedAt job) (timestamptz <$> j_CompletedAt job)
    (timestamptz <$> j_NextRetryAt job) (jr_metadata r) (jr_created_at r)
    (timestamptz (j_UpdatedAt job))).

Definition scanJob (id : string) (r : JobRow) : Job :=
  mkJob id (jr_name r) (jr_type r) (Some (jr_payload r)) (jr_priority r) (jr_state r)
    (Unmarshal (jr_schedule r)) (Unmarshal (jr_retry_policy r))
    (dur_mul (jr_timeout_ms r) Millisecond) (coalesce (jr_idempotency_key r))
    (jr_attempt r) (jr_max_attempts r) (coalesce (jr_worker_id r))
    (coalesce (jr_execution_id r)) (coalesce (jr_last_error r))
    (jr_scheduled_at r) (jr_queued_at r) (jr_started_at r) (jr_completed_at r)
    (jr_next_retry_at r) (jr_created_at r) (jr_updated_at r) (Unmarshal (jr_metadata r)).

Definition scanWorker (id : string) (r : WorkerRow) : Worker :=
  mkWorker id (wr_address r) (wr_status r) (wr_capacity r) (wr_active_jobs r)
    (Unmarshal (wr_capabilities r)) (Unmarshal (wr_labels r)) (wr_last_heartbeat r)
    (wr_registered_at r) (Unmarshal (wr_metadata r)).

Definition execution_row (ex : JobExecution) : option (string * ExecutionRow) :=
  id ← pg_uuid (x_ID ex);
  job_id ← pg_uuid (x_JobID ex);
  worker ← col_text (x_WorkerID ex);
  attempt ← col_int4 (x_Attempt ex);
  Some (id, mkExecutionRow job_id worker attempt (x_State ex) None None None None None false
    (timestamptz (x_CreatedAt ex))).

Definition finished_row (state : ExecutionState) (now : time) (result : ExecutionResult) :
    option (ExecutionRow → ExecutionRow) :=
  error ← nullable col_text (nullStr (res_Error result));
  output ← nullable pg_jsonb (res_Output result);
  Some (λ r, mkExecutionRow (xr_job_id r) (xr_worker_id r) (xr_attempt r) state
    (xr_started_at r) (Some (timestamptz now)) (Some (Milliseconds (res_Duration result)))
    error output (res_Retryable result) (xr_created_at r)).

Definition worker_row (w : Worker) : option (string * WorkerRow) :=
  id ← col_text (w_ID w);
  address ← col_text (w_Address w);
  capacity ← col_int4 (w_Capacity w);
  active ← col_int4 (w_ActiveJobs w);
  caps ← col_json (w_Capabilities w);
  labels ← col_json (w_Labels w);
  meta ← col_json (w_Metadata w);
  Some (id, mkWorkerRow address (w_Status w) capacity active caps labels
    (timestamptz (w_LastHeartbeat w)) (timestamptz (w_RegisteredAt w)) meta).

Definition outbox_row (event : Event) : option (string * EventOutboxRow) :=
  id ← pg_uuid (ev_EventID event);
  aggregate ← col_text (ev_JobID event);
  payload ← col_json event;
  Some (id, mkEventOutboxRow (EventType_string (ev_EventType event)) aggregate payload
    (timestamptz (ev_EventTime event)) None).
End columns.

(** ** Statements *)

(** Both clauses of [ON CONFLICT (idempotency_key) WHERE ...]: the parameter is
    null or not empty. *)
Definition key_taken (key : option string) (d : PgDB) : bool :=
  match key with
  | None => false
  | Some k =>
      bool_decide (map_Exists (λ _ r, jr_idempotency_key r = Some k) (pg_jobs d))
  end.

(** The orders of the queries. *)
Definition created_desc (a b : string * JobRow) : bool :=
  bool_decide (jr_created_at b.2 ≤ jr_created_at a.2).
Definition updated_asc (a b : string * JobRow) : bool :=
  bool_decide (jr_updated_at a.2 ≤ jr_updated_at b.2).
Definition nulls_first (a b : option time) : bool :=
  match a, b with
  | None, _ => true
  | Some _, None => false
  | Some t, Some u => bool_decide (t ≤ u)
  end.
Definition started_asc (a b : string * JobRow) : bool :=
  nulls_first (jr_started_at a.2) (jr_started_at b.2).
(** [ORDER BY priority DESC, scheduled_at ASC NULLS FIRST] *)
Definition dispatch_order (a b : string * JobRow) : bool :=
  bool_decide (jr_priority b.2 < jr_priority a.2) ||
  (bool_decide (jr_priority a.2 = jr_priority b.2) &&
   nulls_first (jr_scheduled_at a.2) (jr_scheduled_at b.2)).
Definition active_asc (a b : string * WorkerRow) : bool :=
  bool_decide (wr_active_jobs a.2 ≤ wr_active_jobs b.2).
Definition registered_asc (a b : string * WorkerRow) : bool :=
  bool_decide (wr_registered_at a.2 ≤ wr_registered_at b.2).
Definition outbox_asc (a b : string * EventOutboxRow) : bool :=
  bool_decide (or_created_at a.2 ≤ or_created_at b.2).

(** A comparison with null is not true. *)
Definition null_le (a : option time) (b : time) : bool :=
  match a with None => false | Some t => bool_decide (t ≤ b) end.

(** The WHERE clauses of the queries on jobs. *)
Definition where_due (now : time) (r : JobRow) : bool :=
  (bool_decide (jr_state r = JobStateScheduled) && null_le (jr_scheduled_at r) now) ||
  (bool_decide (jr_state r = JobStateRetrying) && null_le (jr_next_retry_at r) now).
Definition where_timed_out (now : time) (r : JobRow) : bool :=
  (bool_decide (jr_state r = JobStateRunning) || bool_decide (jr_state r = JobStateAssigned)) &&
  match jr_started_at r with
  | None => false
  | Some t => bool_decide (t + jr_timeout_ms r * Millisecond < timestamptz now)
  end.
Definition where_dead (deadBefore : time) (r : WorkerRow) : bool :=
  (bool_decide (wr_status r = WorkerStatusHealthy) ||
   bool_decide (wr_status r = WorkerStatusSuspected)) &&
  bool_decide (wr_last_heartbeat r < deadBefore).
Definition where_suspect (suspectBefore deadBefore : time) (r : WorkerRow) : bool :=
  bool_decide (wr_status r = WorkerStatusHealthy) &&
  bool_decide (wr_last_heartbeat r < suspectBefore) &&
  bool_decide (deadBefore ≤ wr_last_heartbeat r).

Definition set_wr_status (v : WorkerStatus) (r : WorkerRow) : WorkerRow :=
  mkWorkerRow (wr_address r) v (wr_capacity r) (wr_active_jobs r) (wr_capabilities r)
    (wr_labels r) (wr_last_heartbeat r) (wr_registered_at r) (wr_metadata r).

(** [SELECT ... WHERE keep ORDER BY ord] of a table whose rows come in the
    order [o]. *)
Definition select {R} (o : list string → list string) (keep : string * R → bool)
    (ord : string * R → string * R → bool) (t : gmap string R) : list (string * R) :=
  merge_sort (λ a b, ord a b) (filter (λ ir, keep ir) (entries (o (map_to_list t).*1) t)).

(** [LIMIT n] *)
Definition sql_limit {A} (n : Z) (l : list A) : result (list A) :=
  if bool_decide (n < 0) then Err negative_limit else Ok (take (Z.to_nat n) l).

Definition result_map {A B} (f : A → B) (r : result A) : result B :=
  match r with Ok a => Ok (f a) | Err e => Err e end.

Section methods.
Context `{Env, Pg, JsonLib}.
#[local] Abbreviation D := (M (nat * PgDB)).

(** [ExecContext]: the tables change if the statement succeeds. *)
Definition stmt {A} (f : PgDB → result (A * PgDB)) : D (result A) :=
  fault ← ask pg_fault;
  d ← getst;
  match fault with
  | NotSent e => mret (Err e)
  | Executed | AnswerLost _ =>
      match f d with
      | Err e => mret (Err e)
      | Ok (a, d') =>
          upd (λ _, d');;
          mret (match fault with AnswerLost e => Err e | _ => Ok a end)
      end
  end.

(** A statement that reads only. *)
Definition query {A} (f : PgDB → result A) : D (result A) :=
  stmt (λ d, result_map (λ a, (a, d)) (f d)).

Definition err_of {A} (r : result A) : option GoError :=
  match r with Ok _ => None | Err e => Some e end.

Definition sql_insert_job (job : Job) (d : PgDB) : result (() * PgDB) :=
  match job_row job with
  | None => Err invalid_input
  | Some (id, row) =>
      if key_taken (jr_idempotency_key row) d then Ok ((), d)
      else match pg_jobs d !! id with
           | Some _ => Err unique_violation
           | None => Ok ((), set_pg_jobs (<[id := row]> (pg_jobs d)) d)
           end
  end.

(** [WHERE id = $1] *)
Definition pg_GetJob (id : string) : D (result Job) :=
  r ← query (λ d,
    match pg_uuid id with
    | None => Err invalid_input
    | Some id => Ok (scanJob id <$> pg_jobs d !! id)
    end);
  mret (match r with Ok (Some j) => Ok j | Ok None => Err ErrNotFound | Err e => Err e end).

(** [WHERE idempotency_key = $1]: the first row found. *)
Definition pg_GetJobByIdempotencyKey (key : string) : D (result Job) :=
  o ← ask env_order;
  r ← query (λ d,
    if pg_text key then
      Ok (head (filter (λ ir : string * JobRow, jr_idempotency_key ir.2 = Some key)
                  (entries (o (map_to_list (pg_jobs d)).*1) (pg_jobs d))))
    else Err invalid_input);
  mret (match r with
        | Ok (Some (id, row)) => Ok (scanJob id row)
        | Ok None => Err ErrNotFound
        | Err e => Err e
        end).

(** The fields [CreateJob] fills in before the INSERT. *)
Definition new_job (id : string) (now : time) (job : Job) : Job :=
  let job := set_ID id job in
  let job := set_UpdatedAt now (set_CreatedAt now job) in
  let job := if bool_decide (j_State job = JobStateNone) then set_State JobStateCreated job
             else job in
  if bool_decide (j_Priority job = 0) then set_Priority 5 job else job.

(** [CreateJob] from the INSERT on. *)
Definition pg_put_job (job : Job) : D (result Job) :=
  r ← stmt (sql_insert_job job);
  match r with
  | Err e => mret (Err e)
  | Ok _ =>
      if bool_decide (j_IdempotencyKey job = "") then mret (Ok job)
      else
        existing ← pg_GetJobByIdempotencyKey (j_IdempotencyKey job);
        mret (match existing with
              | Ok existing => if bool_decide (j_ID existing = j_ID job) then Ok job else Ok existing
              | Err _ => Ok job
              end)
  end.

Definition pg_CreateJob (job : Job) : D (result Job) :=
  id ← (if bool_decide (j_ID job = "") then ask env_uuid else mret (j_ID job));
  now ← ask env_now;
  pg_put_job (new_job id now job).

(** [UpdateJobStateIf] is a query and a later update.  [pg_read_job] gives the
    job with its new fields, or nothing for a stale transition. *)
Definition pg_read_job (id : string) (state : JobState) (f : fields) (onlyFrom : list JobState) :
    D (result (option Job)) :=
  job ← pg_GetJob id;
  match job with
  | Err e => mret (Err e)
  | Ok job =>
      if allowed_from onlyFrom (j_State job) then
        now ← ask env_now;
        mret (Ok (Some (update_job state now f job)))
      else mret (Ok None)
  end.

Definition sql_update_job (job : Job) (d : PgDB) : result (() * PgDB) :=
  match updated_row job with
  | None => Err invalid_input
  | Some (id, set) => Ok ((), set_pg_jobs (alter set id (pg_jobs d)) d)
  end.

Definition pg_write_job (job : Job) : D (option GoError) :=
  r ← stmt (sql_update_job job);
  mret (err_of r).

Definition pg_UpdateJobStateIf (id : string) (state : JobState) (f : fields)
    (onlyFrom : list JobState) : D (option GoError) :=
  job ← pg_read_job id state f onlyFrom;
  match job with
  | Err e => mret (Some e)
  | Ok None => mret None
  | Ok (Some job) => pg_write_job job
  end.

Definition pg_UpdateJobState (id : string) (state : JobState) (f : fields) :
    D (option GoError) :=
  pg_UpdateJobStateIf id state f [].

(** The loop over the rows of a query. *)
Definition scan_jobs (r : result (list (string * JobRow))) : result (list Job) :=
  result_map (fmap (λ ir : string * JobRow, scanJob ir.1 ir.2)) r.
Definition scan_workers (r : result (list (string * WorkerRow))) : result (list Worker) :=
  result_map (fmap (λ ir : string * WorkerRow, scanWorker ir.1 ir.2)) r.

Definition pg_ListJobs (state : string) (limit : Z) : D (result (list Job)) :=
  let limit := if bool_decide (limit ≤ 0) then 50 else limit in
  o ← ask env_order;
  r ← (if bool_decide (state = "") then
         query (λ d, sql_limit limit (select o (λ _, true) created_desc (pg_jobs d)))
       else
         query (λ d, if pg_text state then
           sql_limit limit (select o (λ ir, bool_decide (JobState_string (jr_state ir.2) = state))
                              created_desc (pg_jobs d))
           else Err invalid_input));
  mret (scan_jobs r).

Definition pg_ListDueScheduled (limit : Z) : D (result (list Job)) :=
  o ← ask env_order;
  now ← ask pg_now;
  locked ← ask pg_locked;
  r ← query (λ d, sql_limit limit
         (select o (λ ir, where_due now ir.2 && negb (locked ir.1)) dispatch_order (pg_jobs d)));
  mret (scan_jobs r).

Definition pg_ListCancelRequested (limit : Z) : D (result (list Job)) :=
  let limit := if bool_decide (limit ≤ 0) then 50 else limit in
  o ← ask env_order;
  r ← query (λ d, sql_limit limit
         (select o (λ ir, bool_decide (jr_state ir.2 = JobStateCancelRequested)) updated_asc
            (pg_jobs d)));
  mret (scan_jobs r).

Definition pg_ListTimedOutRunning (now : time) (limit : Z) : D (result (list Job)) :=
  let limit := if bool_decide (limit ≤ 0) then 50 else limit in
  o ← ask env_order;
  r ← query (λ d, sql_limit limit
         (select o (λ ir, where_timed_out now ir.2) started_asc (pg_jobs d)));
  mret (scan_jobs r).

Definition sql_insert_execution (ex : JobExecution) (d : PgDB) : result (() * PgDB) :=
  match execution_row ex with
  | None => Err invalid_input
  | Some (id, row) =>
      match pg_executions d !! id, pg_jobs d !! xr_job_id row with
      | Some _, _ => Err unique_violation
      | None, None => Err foreign_key_violation
      | None, Some _ => Ok ((), set_pg_executions (<[id := row]> (pg_executions d)) d)
      end
  end.

Definition pg_CreateExecution (ex : JobExecution) : D (result JobExecution) :=
  exid ← (if bool_decide (x_ID ex = "") then ask env_uuid else mret (x_ID ex));
  now ← ask env_now;
  let ex := stamp_execution exid now ex in
  r ← stmt (sql_insert_execution ex);
  mret (result_map (λ _, ex) r).

Definition pg_FinishExecution (id : string) (state : ExecutionState) (result : ExecutionResult) :
    D (option GoError) :=
  now ← ask env_now;
  r ← stmt (λ d,
    match pg_uuid id, finished_row state now result with
    | Some id, Some set => Ok ((), set_pg_executions (alter set id (pg_executions d)) d)
    | _, _ => Err invalid_input
    end);
  mret (err_of r).

(** [ON CONFLICT (id) DO UPDATE] keeps the column [registered_at]. *)
Definition upserted (new : WorkerRow) (old : option WorkerRow) : WorkerRow :=
  match old with
  | None => new
  | Some old =>
      mkWorkerRow (wr_address new) (wr_status new) (wr_capacity new) (wr_active_jobs new)
        (wr_capabilities new) (wr_labels new) (wr_last_heartbeat new) (wr_registered_at old)
        (wr_metadata new)
  end.

Definition pg_UpsertWorker (w : Worker) : D (option GoError) :=
  r ← stmt (λ d,
    match worker_row w with
    | None => Err invalid_input
    | Some (id, row) =>
        Ok ((), set_pg_workers (<[id := upserted row (pg_workers d !! id)]> (pg_workers d)) d)
    end);
  mret (err_of r).

Definition pg_ListHealthyWorkers : D (result (list Worker)) :=
  o ← ask env_order;
  r ← query (λ d, Ok (select o (λ ir, bool_decide (wr_status ir.2 = WorkerStatusHealthy))
                        active_asc (pg_workers d)));
  mret (scan_workers r).

Definition pg_ListWorkers : D (result (list Worker)) :=
  o ← ask env_order;
  r ← query (λ d, Ok (select o (λ _, true) registered_asc (pg_workers d)));
  mret (scan_workers r).

(** [UPDATE workers SET status=st WHERE keep RETURNING id] *)
Definition sql_mark (o : list string → list string) (keep : WorkerRow → bool) (st : WorkerStatus)
    (d : PgDB) : result (list string * PgDB) :=
  let t := pg_workers d in
  Ok ((filter (λ ir : string * WorkerRow, keep ir.2) (entries (o (map_to_list t).*1) t)).*1,
      set_pg_workers ((λ r, if keep r then set_wr_status st r else r) <$> t) d).

Definition pg_MarkStaleWorkers (heartbeatTimeout grace : Duration) :
    D (result (list string * list string)) :=
  now1 ← ask env_now;
  let suspectBefore := timestamptz (time_add now1 (dur_neg heartbeatTimeout)) in
  now2 ← ask env_now;
  let deadBefore := timestamptz (time_add now2 (dur_neg (dur_add heartbeatTimeout grace))) in
  o ← ask env_order;
  unavailable ← stmt (sql_mark o (where_dead deadBefore) WorkerStatusUnavailable);
  match unavailable with
  | Err e => mret (Err e)
  | Ok unavailable =>
      o ← ask env_order;
      suspected ← stmt (sql_mark o (where_suspect suspectBefore deadBefore) WorkerStatusSuspected);
      mret (result_map (λ suspected, (suspected, unavailable)) suspected)
  end.

(** Without a transaction: every caller passes nil. *)
Definition pg_InsertOutbox (event : Event) : D (option GoError) :=
  r ← stmt (λ d,
    match outbox_row event with
    | None => Err invalid_input
    | Some (id, row) =>
        match pg_outbox d !! id with
        | Some _ => Err unique_violation
        | None => Ok ((), set_pg_outbox (<[id := row]> (pg_outbox d)) d)
        end
    end);
  mret (err_of r).

(** The payload bytes stand for the event they decode to. *)
Definition scan_outbox (ir : string * EventOutboxRow) : OutboxRow :=
  mkOutboxRow ir.1 (or_event_type ir.2) (or_aggregate_id ir.2)
    (Some (Unmarshal (or_payload ir.2))) (or_created_at ir.2).

Definition unpublished (ir : string * EventOutboxRow) : bool :=
  bool_decide (or_published_at ir.2 = None).

Definition pg_FetchOutboxBatch (limit : Z) : D (result (list OutboxRow)) :=
  o ← ask env_order;
  locked ← ask pg_locked;
  r ← query (λ d, sql_limit limit
         (select o (λ ir, unpublished ir && negb (locked ir.1)) outbox_asc (pg_outbox d)));
  mret (result_map (fmap scan_outbox) r).

Definition published_row (now : time) (r : EventOutboxRow) : EventOutboxRow :=
  mkEventOutboxRow (or_event_type r) (or_aggregate_id r) (or_payload r) (or_created_at r)
    (Some now).

Fixpoint pg_MarkOutboxPublished (ids : list string) : D (option GoError) :=
  match ids with
  | [] => mret None
  | id :: ids =>
      now ← ask pg_now;
      r ← stmt (λ d,
        match pg_uuid id with
        | None => Err invalid_input
        | Some id => Ok ((), set_pg_outbox (alter (published_row now) id (pg_outbox d)) d)
        end);
      match r with
      | Err e => mret (Some e)
      | Ok _ => pg_MarkOutboxPublished ids
      end
  end.

#[global] Instance pg_JobStore : JobStore PgDB := {
  store_CreateJob := pg_CreateJob;
  store_GetJob := pg_GetJob;
  store_GetJobByIdempotencyKey := λ key, r ← pg_GetJobByIdempotencyKey key; mret (result_map Some r);
  store_UpdateJobState := pg_UpdateJobState;
  store_UpdateJobStateIf := pg_UpdateJobStateIf;
  store_ListJobs := pg_ListJobs;
  store_ListDueScheduled := pg_ListDueScheduled;
  store_ListCancelRequested := pg_ListCancelRequested;
  store_ListTimedOutRunning := pg_ListTimedOutRunning;
  store_CreateExecution := pg_CreateExecution;
  store_FinishExecution := pg_FinishExecution;
  store_UpsertWorker := pg_UpsertWorker;
  store_ListHealthyWorkers := pg_ListHealthyWorkers;
  store_ListWorkers := pg_ListWorkers;
  store_MarkStaleWorkers := pg_MarkStaleWorkers;
  store_InsertOutbox := pg_InsertOutbox;
  store_FetchOutboxBatch := pg_FetchOutboxBatch;
  store_MarkOutboxPublished := pg_MarkOutboxPublished;
}.
End methods.
