(* ===== verification/PgFixture.v ===== *)
(** * A concrete database

    A server that executes and answers every statement, or fails chosen ones,
    and an encoding that keeps the sample values of Fixture.v apart. *)

From S2P Require Import Prelude.
From S2P Require Import Float64.
From S2P Require Import Domain.
From S2P Require Import Ports.
From S2P Require Import Fixture.
From S2P Require Import Postgres.

(** Every non-empty text is a UUID; [faults] says which statements fail. *)
Definition pg_with (faults : nat → Fault) : Pg := {|
  pg_fault := faults;
  pg_now := sample_now;
  pg_locked := λ _ _, false;
  pg_uuid := λ s, if String.eqb s "" then None else Some s;
  pg_text := λ _, true;
  pg_jsonb := Some;
|}.

Definition sample_pg : Pg := pg_with (λ _, Executed).

(** The statement at reading [k] is not sent. *)
Definition pg_failing (k : nat) : Pg :=
  pg_with (λ n, if Nat.eqb n k then NotSent (External "connection reset") else Executed).

Definition sample_db_event : Event :=
  mkEvent "e" EventJobQueued 1 0 None "j1" "" "" "s1" 0 "" None.

Definition sample_json : JsonLib := {|
  json_Schedule := {| Marshal := λ s, Some (sc_Type s); Unmarshal := sample_schedule |};
  json_RetryPolicy := {| Marshal := λ _, Some "policy"; Unmarshal := λ _, sample_policy |};
  json_map := {| Marshal := λ m, Some (match m with None => "null" | Some _ => "{}" end);
                 Unmarshal := λ s, if String.eqb s "null" then None else Some ∅ |};
  json_Capabilities := {| Marshal := λ _, Some "caps"; Unmarshal := λ _, mkWorkerCapabilities true true |};
  json_Event := {| Marshal := λ _, Some "event"; Unmarshal := λ _, sample_db_event |};
|}.

(** A job as the API submits it. *)
Definition new_sample_job (id key : string) (priority : Z) : Job :=
  mkJob id "job" JobTypeBuiltin None priority JobStateScheduled (sample_schedule ScheduleImmediate)
    sample_policy (30 * Second) key 0 3 "" "" "" (Some (sample_now 0)) None None None None 0 0 None.

(** Its row. *)
Definition sample_row (st : JobState) (key : option string) (priority : Z) : JobRow :=
  mkJobRow "job" JobTypeBuiltin "{}" priority st ScheduleImmediate "policy" 30000 key 0 3
    None None None (Some (sample_now 0)) None None None None "null" (sample_now 0) (sample_now 0).

Definition sample_db (st : JobState) : PgDB :=
  mkPgDB {[ "j1" := sample_row st None 5; "j2" := sample_row st (Some "k") 7 ]} ∅
    {[ "w1" := mkWorkerRow "addr" WorkerStatusHealthy 4 0 "caps" "null" (sample_now 0)
                 (sample_now 0) "null" ]} ∅.
