(* ===== verification/PgProps.v ===== *)
(** * Properties of the Postgres store

    What the tables promise under any interleaving of statements and any
    faults, creation and what is read back, and the two-step update. *)

From S2P Require Import Prelude.
From S2P Require Import Domain.
From S2P Require Import Ports.
From S2P Require Import Fixture.
From S2P Require Import MemStore.
From S2P Require Import Postgres.
From S2P Require Import PgFixture.

(** ** Rules for statements *)

Section rules.
Context `{Env, Pg, JsonLib}.

Lemma wp_stmt {A} (f : PgDB → result (A * PgDB)) Q n d :
  (∀ e, Q (Err e) (Datatypes.S n, d)) →
  (∀ a d' r, f d = Ok (a, d') → r = Ok a ∨ (∃ e, r = Err e) → Q r (Datatypes.S n, d')) →
  wp (stmt f) Q (n, d).
Proof.
  intros Herr Hok. unfold stmt. wp_steps. destruct (pg_fault n); [|by wp_steps|].
  all: destruct (f d) as [[a d']|e'] eqn:Hf; wp_steps; eauto.
Qed.

Lemma wp_query {A} (f : PgDB → result A) Q n d :
  (∀ r, r = f d ∨ (∃ e, r = Err e) → Q r (Datatypes.S n, d)) → wp (query f) Q (n, d).
Proof.
  intros HQ. apply wp_stmt; [eauto|]. intros a d' r Hf Hr.
  destruct (f d) as [a'|]; simplify_eq/=. naive_solver.
Qed.

(** A statement that is executed and answered. *)
Lemma wp_stmt_ok {A} (f : PgDB → result (A * PgDB)) (Q : result A → nat * PgDB → Prop) n d :
  pg_fault n = Executed →
  match f d with
  | Ok (a, d') => Q (Ok a) (Datatypes.S n, d')
  | Err e => Q (Err e) (Datatypes.S n, d)
  end → wp (stmt f) Q (n, d).
Proof.
  intros Hn HQ. unfold stmt. wp_steps. rewrite Hn.
  destruct (f d) as [[a d']|e]; by wp_steps.
Qed.

Lemma wp_query_ok {A} (f : PgDB → result A) (Q : result A → nat * PgDB → Prop) n d :
  pg_fault n = Executed → Q (f d) (Datatypes.S n, d) → wp (query f) Q (n, d).
Proof. intros Hn HQ. apply wp_stmt_ok; [done|]. by destruct (f d). Qed.

(** Statement results. *)
Lemma sql_insert_job_ok job d r :
  sql_insert_job job d = Ok r →
  ∃ id row, job_row job = Some (id, row) ∧
    ((key_taken (jr_idempotency_key row) d = true ∧ r = ((), d)) ∨
     (key_taken (jr_idempotency_key row) d = false ∧ pg_jobs d !! id = None ∧
      r = ((), set_pg_jobs (<[id := row]> (pg_jobs d)) d))).
Proof.
  unfold sql_insert_job. destruct (job_row job) as [[id row]|]; [|done].
  destruct (key_taken _ _) eqn:Hk; [naive_solver|].
  destruct (pg_jobs d !! id) eqn:Hid; [done|]. naive_solver.
Qed.

Lemma key_taken_true k d :
  key_taken (Some k) d = true ↔
  ∃ id r, pg_jobs d !! id = Some r ∧ jr_idempotency_key r = Some k.
Proof.
  unfold key_taken. rewrite bool_decide_eq_true, map_Exists_lookup. naive_solver.
Qed.

Lemma col_text_Some s t : col_text s = Some t → t = s.
Proof. unfold col_text. by destruct (pg_text s); intros [= <-]. Qed.

Lemma nullable_text v o : nullable col_text v = Some o → o = v.
Proof.
  destruct v as [s|]; cbn; [|by intros [= <-]]. unfold col_text.
  destruct (pg_text s); [by intros [= <-]|done].
Qed.

Lemma col_int4_Some z t : col_int4 z = Some t → t = z ∧ in_range 32 z.
Proof. unfold col_int4. case_bool_decide; [by intros [= <-]|done]. Qed.

Lemma nullStr_Some s t : nullStr s = Some t ↔ t = s ∧ s ≠ "".
Proof. unfold nullStr. case_bool_decide; naive_solver. Qed.
End rules.

(** Inversion of a conversion in the option monad. *)
Ltac invert_row H :=
  repeat (apply bind_Some in H; destruct H as (? & ? & H)); simplify_eq/=.

(** ** The tables under any interleaving *)

(** What the schema promises: an idempotency key is held by one job, a
    identifier is a UUID, numbers fit their columns, and an execution belongs to
    a job. *)
Record db_ok `{Pg} (d : PgDB) : Prop := {
  ok_keys i j r r' k : pg_jobs d !! i = Some r → pg_jobs d !! j = Some r' →
    jr_idempotency_key r = Some k → jr_idempotency_key r' = Some k → i = j;
  ok_row i r : pg_jobs d !! i = Some r →
    jr_idempotency_key r ≠ Some "" ∧ (∃ s, pg_uuid s = Some i) ∧
    (jr_type r = JobTypeBuiltin ∨ jr_type r = JobTypeWebhook) ∧
    in_range 32 (jr_priority r) ∧ in_range 32 (jr_attempt r) ∧ in_range 32 (jr_max_attempts r) ∧
    (∀ x, jr_execution_id r = Some x → ∃ s, pg_uuid s = Some x);
  ok_job x r : pg_executions d !! x = Some r → is_Some (pg_jobs d !! xr_job_id r);
}.

(** The columns no UPDATE writes. *)
Definition same_columns (r r' : JobRow) : Prop :=
  jr_name r' = jr_name r ∧ jr_type r' = jr_type r ∧ jr_payload r' = jr_payload r ∧
  jr_priority r' = jr_priority r ∧ jr_schedule r' = jr_schedule r ∧
  jr_retry_policy r' = jr_retry_policy r ∧ jr_timeout_ms r' = jr_timeout_ms r ∧
  jr_idempotency_key r' = jr_idempotency_key r ∧ jr_max_attempts r' = jr_max_attempts r ∧
  jr_metadata r' = jr_metadata r ∧ jr_created_at r' = jr_created_at r.

(** No job disappears or changes its specification; no worker disappears or
    changes the time it registered. *)
Definition grown (d d' : PgDB) : Prop :=
  (∀ i r, pg_jobs d !! i = Some r → ∃ r', pg_jobs d' !! i = Some r' ∧ same_columns r r') ∧
  (∀ i r, pg_workers d !! i = Some r →
     ∃ r', pg_workers d' !! i = Some r' ∧ wr_registered_at r' = wr_registered_at r).

#[global] Instance same_columns_preorder : PreOrder same_columns.
Proof.
  split; [by intros r; repeat split|]. intros r1 r2 r3 H1 H2. unfold same_columns in *.
  destruct_and?. split_and!; congruence.
Qed.

#[global] Instance grown_preorder : PreOrder grown.
Proof.
  split; [by intros d; split; intros i r Hr; exists r|]. intros d1 d2 d3 [HJ1 HW1] [HJ2 HW2]. split.
  - intros i r (r2 & Hr2 & S1)%HJ1. destruct (HJ2 _ _ Hr2) as (r3 & ? & S2).
    exists r3. split; [done|by etrans].
  - intros i r (r2 & Hr2 & S1)%HW1. destruct (HW2 _ _ Hr2) as (r3 & ? & S2).
    exists r3. split; [done|congruence].
Qed.

Section tables.
Context `{Env, Pg, JsonLib}.

Definition kept_ok (d d' : PgDB) : Prop := db_ok d → db_ok d' ∧ grown d d'.

Lemma kept_ok_refl d : kept_ok d d.
Proof. by split. Qed.
Lemma kept_ok_trans d1 d2 d3 : kept_ok d1 d2 → kept_ok d2 d3 → kept_ok d1 d3.
Proof.
  intros Hk1 Hk2 [Ha Hg]%Hk1. destruct (Hk2 Ha) as [Hb Hg']. split; [done|by etrans].
Qed.

(** [m] keeps the promises of the tables. *)
Definition keeps {A} (m : M (nat * PgDB) A) : Prop :=
  ∀ n d, wp m (λ _ ns, kept_ok d ns.2) (n, d).

Lemma pg_keeps_ret {A} (a : A) : keeps (mret a).
Proof. intros n d. apply kept_ok_refl. Qed.
Lemma pg_keeps_bind {A B} (m : M (nat * PgDB) A) (f : A → M (nat * PgDB) B) :
  keeps m → (∀ a, keeps (f a)) → keeps (m ≫= f).
Proof.
  intros Hm Hf n d. apply wp_bind. eapply wp_mono; [apply Hm|]. intros a [n1 d1] Hk1.
  eapply wp_mono; [apply Hf|]. intros b [n2 d2] Hk2. by eapply kept_ok_trans.
Qed.
Lemma pg_keeps_ask {A} (f : nat → A) : keeps (ask f).
Proof. intros n d. apply kept_ok_refl. Qed.
Lemma pg_keeps_stmt {A} (f : PgDB → result (A * PgDB)) :
  (∀ d a d', f d = Ok (a, d') → kept_ok d d') → keeps (stmt f).
Proof.
  intros Hf n d. apply wp_stmt; [intros; apply kept_ok_refl|]. intros a d' r Heq _. by eapply Hf.
Qed.
Lemma pg_keeps_query {A} (f : PgDB → result A) : keeps (query f).
Proof. intros n d. apply wp_query. intros. apply kept_ok_refl. Qed.

(** The tables the statement does not write stay as they are. *)
Lemma kept_ok_same d d' :
  pg_jobs d' = pg_jobs d → pg_executions d' = pg_executions d → pg_workers d' = pg_workers d →
  kept_ok d d'.
Proof.
  intros HJ HX HW [Hk Hr Hj]. split; [split; rewrite ?HJ, ?HX; eauto|].
  unfold grown. rewrite HJ, HW. apply (reflexivity (R := grown) d).
Qed.

Lemma job_row_inv job id row :
  job_row job = Some (id, row) →
  pg_uuid (j_ID job) = Some id ∧ jr_idempotency_key row = nullStr (j_IdempotencyKey job) ∧
  (jr_type row = JobTypeBuiltin ∨ jr_type row = JobTypeWebhook) ∧
  in_range 32 (jr_priority row) ∧ in_range 32 (jr_attempt row) ∧ in_range 32 (jr_max_attempts row) ∧
  jr_execution_id row = None.
Proof.
  unfold job_row, col_type. intros Hrow. invert_row Hrow.
  repeat match goal with
  | H : col_int4 _ = Some _ |- _ => apply col_int4_Some in H as [-> ?]
  end.
  case_bool_decide; [|done]. simplify_eq. split_and!; try done.
  by eapply nullable_text.
Qed.

Lemma kept_ok_insert_job job d r : sql_insert_job job d = Ok r → kept_ok d r.2.
Proof.
  intros (id & row & Hrow & Hr)%sql_insert_job_ok Hok. destruct Hr as [[_ ->]|(Hkey & Hid & ->)].
  { by apply kept_ok_refl. }
  apply job_row_inv in Hrow as (Hu & Hk' & Ht & Hp & Ha & Hm & Hx).
  destruct Hok as [Hk Hr Hj]. split; [split|split]; cbn.
  - intros i j r r'. rewrite !lookup_insert. intros k.
    repeat case_decide; intros ? ? Hi Hj'; simplify_eq; [done|exfalso|exfalso|by eapply Hk].
    all: (rewrite Hi in Hkey || rewrite Hj' in Hkey).
    all: apply not_true_iff_false in Hkey; apply Hkey, key_taken_true; eauto.
  - intros i r. rewrite lookup_insert. case_decide; [|by apply Hr]. intros [= <-]. subst i.
    split_and!; eauto; [|by rewrite Hx]. rewrite Hk'. intros [<- ?]%nullStr_Some. done.
  - intros i r Hr'. rewrite lookup_insert. case_decide; [done|]. by eapply Hj.
  - intros i r Hi. rewrite lookup_insert_ne by congruence. by exists r.
  - eauto.
Qed.

Lemma updated_row_same job id set r : updated_row job = Some (id, set) → same_columns r (set r).
Proof. unfold updated_row. intros Hrow. invert_row Hrow. by repeat split. Qed.

Lemma updated_row_new job id set r :
  updated_row job = Some (id, set) →
  in_range 32 (jr_attempt (set r)) ∧
  ∀ x, jr_execution_id (set r) = Some x → ∃ s, pg_uuid s = Some x.
Proof.
  unfold updated_row. intros Hrow. invert_row Hrow.
  match goal with H : col_int4 _ = Some _ |- _ => apply col_int4_Some in H as [-> ?] end.
  split; [done|]. intros x ->.
  destruct (nullStr (j_ExecutionID job)) as [y|]; cbn in *; [|done].
  destruct (pg_uuid y) eqn:Hy; naive_solver.
Qed.

Lemma kept_ok_update_job job d r : sql_update_job job d = Ok r → kept_ok d r.2.
Proof.
  unfold sql_update_job. destruct (updated_row job) as [[id set]|] eqn:Hrow; [|done].
  intros [= <-] [Hk Hr Hj]. cbn.
  assert (∀ i r, alter set id (pg_jobs d) !! i = Some r →
    ∃ r0, pg_jobs d !! i = Some r0 ∧ same_columns r0 r ∧
      (r = r0 ∨ in_range 32 (jr_attempt r) ∧
         ∀ x, jr_execution_id r = Some x → ∃ s, pg_uuid s = Some x)) as Hback.
  { intros i r. rewrite lookup_alter. case_decide; [|naive_solver]. subst i.
    destruct (pg_jobs d !! id) as [r0|]; [|done]. intros [= <-]. exists r0.
    split; [done|]. split; [by eapply updated_row_same|]. right.
    by eapply updated_row_new. }
  split; [split|split]; cbn.
  - intros i j r r' k (r0 & Hi & S & _)%Hback (r0' & Hj' & S' & _)%Hback Hkr Hkr'.
    unfold same_columns in S, S'. destruct_and?. eapply (Hk i j r0 r0' k); congruence.
  - intros i r (r0 & Hi & S & Hnew)%Hback. pose proof (Hr _ _ Hi) as Hr0.
    destruct Hnew as [->|[??]]; [done|].
    destruct S as (?&->&?&->&?&?&?&->&->&?&?). naive_solver.
  - intros x r (r0 & Hr0)%Hj. rewrite lookup_alter. case_decide; subst; rewrite ?Hr0; eauto.
  - intros i r Hi. rewrite lookup_alter. case_decide; subst; rewrite ?Hi; cbn; eauto using updated_row_same.
    by exists r.
  - eauto.
Qed.

Lemma kept_ok_executions d m :
  (∀ x r, m !! x = Some r → is_Some (pg_jobs d !! xr_job_id r)) → kept_ok d (set_pg_executions m d).
Proof. intros Hm [Hk Hr Hj]. split; [by split|]. apply (reflexivity (R := grown) d). Qed.

Lemma kept_ok_workers d m :
  (∀ i r, pg_workers d !! i = Some r →
     ∃ r', m !! i = Some r' ∧ wr_registered_at r' = wr_registered_at r) →
  kept_ok d (set_pg_workers m d).
Proof.
  intros Hm [Hk Hr Hj]. split; [by split|]. split; [|done]. apply (reflexivity (R := grown) d).
Qed.

Lemma kept_ok_mark o keep st d r : sql_mark o keep st d = Ok r → kept_ok d r.2.
Proof.
  unfold sql_mark. intros [= <-]. cbn. apply kept_ok_workers. intros i r Hi. rewrite lookup_fmap, Hi.
  eexists. split; [done|]. by destruct (keep r).
Qed.

Lemma kept_ok_insert_execution ex d r : sql_insert_execution ex d = Ok r → kept_ok d r.2.
Proof.
  unfold sql_insert_execution. destruct (execution_row ex) as [[id row]|]; [|done].
  destruct (pg_executions d !! id); [done|]. destruct (pg_jobs d !! xr_job_id row) eqn:Hj; [|done].
  intros [= <-] Hok. cbn. apply kept_ok_executions; [|done].
  intros x rx. rewrite lookup_insert. case_decide; [intros [= <-]; by rewrite Hj|]. by apply Hok.
Qed.

Lemma kept_ok_alter_execution f x d :
  (∀ r, xr_job_id (f r) = xr_job_id r) →
  kept_ok d (set_pg_executions (alter f x (pg_executions d)) d).
Proof.
  intros Hf Hok. apply kept_ok_executions; [|done]. intros y r.
  rewrite lookup_alter. case_decide; [|by apply Hok]. subst.
  destruct (pg_executions d !! y) eqn:Hy; [|done]. intros [= <-]. rewrite Hf. by eapply Hok.
Qed.

#[local] Create HintDb keeps.
#[local] Hint Resolve pg_keeps_ret pg_keeps_ask pg_keeps_query : keeps.

Ltac pg_keeps_step :=
  lazymatch goal with
  | |- keeps (_ ≫= _) => apply pg_keeps_bind; [|intros ?]
  | |- keeps (stmt _) => apply pg_keeps_stmt; intros ? ? ? ?
  | |- keeps _ => first [ solve [eauto with keeps] | progress case_match ]
  | |- kept_ok _ _ => progress case_match
  end.
Ltac keeps := repeat pg_keeps_step.

Lemma pg_keeps_GetJob id : keeps (pg_GetJob id).
Proof. unfold pg_GetJob. keeps. Qed.
Lemma pg_keeps_GetJobByIdempotencyKey key : keeps (pg_GetJobByIdempotencyKey key).
Proof. unfold pg_GetJobByIdempotencyKey. keeps. Qed.
#[local] Hint Resolve pg_keeps_GetJob pg_keeps_GetJobByIdempotencyKey : keeps.

Lemma pg_keeps_CreateJob job : keeps (pg_CreateJob job).
Proof.
  unfold pg_CreateJob, pg_put_job. keeps. by eapply (kept_ok_insert_job _ _ (_, _)).
Qed.

Lemma pg_keeps_write_job job : keeps (pg_write_job job).
Proof. unfold pg_write_job. keeps. by eapply (kept_ok_update_job _ _ (_, _)). Qed.

Lemma pg_keeps_read_job id st f only : keeps (pg_read_job id st f only).
Proof. unfold pg_read_job. keeps. Qed.
#[local] Hint Resolve pg_keeps_write_job pg_keeps_read_job : keeps.

Lemma pg_keeps_UpdateJobStateIf id st f only : keeps (pg_UpdateJobStateIf id st f only).
Proof. unfold pg_UpdateJobStateIf. keeps. Qed.

Lemma pg_keeps_CreateExecution ex : keeps (pg_CreateExecution ex).
Proof. unfold pg_CreateExecution. keeps. by eapply (kept_ok_insert_execution _ _ (_, _)). Qed.

Lemma pg_keeps_FinishExecution id st res : keeps (pg_FinishExecution id st res).
Proof.
  unfold pg_FinishExecution. keeps; simplify_eq. apply kept_ok_alter_execution. intros r.
  match goal with H : finished_row _ _ _ = Some _ |- _ => unfold finished_row in H; invert_row H end.
  done.
Qed.

Lemma pg_keeps_UpsertWorker w : keeps (pg_UpsertWorker w).
Proof.
  unfold pg_UpsertWorker. keeps; simplify_eq. apply kept_ok_workers. intros i r Hi.
  rewrite lookup_insert. case_decide; [|by exists r]. subst. rewrite Hi. by eexists.
Qed.

Lemma pg_keeps_MarkStaleWorkers a b : keeps (pg_MarkStaleWorkers a b).
Proof. unfold pg_MarkStaleWorkers. keeps; by eapply (kept_ok_mark _ _ _ _ (_, _)). Qed.

Lemma pg_keeps_InsertOutbox ev : keeps (pg_InsertOutbox ev).
Proof. unfold pg_InsertOutbox. keeps; simplify_eq. by apply kept_ok_same. Qed.

Lemma pg_keeps_MarkOutboxPublished ids : keeps (pg_MarkOutboxPublished ids).
Proof.
  induction ids as [|id ids IH]; cbn; [apply pg_keeps_ret|]. keeps; simplify_eq. by apply kept_ok_same.
Qed.

(** One call by any process, with any arguments; [UpdateJobStateIf] is cut in
    two, so that other calls come in between. *)
Inductive pg_step : PgDB → PgDB → Prop :=
  | pg_step_CreateJob n job d : pg_step d (pg_CreateJob job (n, d)).2.2
  | pg_step_read_job n id st f only d : pg_step d (pg_read_job id st f only (n, d)).2.2
  | pg_step_write_job n job d : pg_step d (pg_write_job job (n, d)).2.2
  | pg_step_CreateExecution n ex d : pg_step d (pg_CreateExecution ex (n, d)).2.2
  | pg_step_FinishExecution n id st res d : pg_step d (pg_FinishExecution id st res (n, d)).2.2
  | pg_step_UpsertWorker n w d : pg_step d (pg_UpsertWorker w (n, d)).2.2
  | pg_step_MarkStaleWorkers n a b d : pg_step d (pg_MarkStaleWorkers a b (n, d)).2.2
  | pg_step_InsertOutbox n ev d : pg_step d (pg_InsertOutbox ev (n, d)).2.2
  | pg_step_MarkOutboxPublished n ids d : pg_step d (pg_MarkOutboxPublished ids (n, d)).2.2.

Lemma pg_step_kept d d' : pg_step d d' → kept_ok d d'.
Proof.
  destruct 1.
  - apply pg_keeps_CreateJob.
  - apply pg_keeps_read_job.
  - apply pg_keeps_write_job.
  - apply pg_keeps_CreateExecution.
  - apply pg_keeps_FinishExecution.
  - apply pg_keeps_UpsertWorker.
  - apply pg_keeps_MarkStaleWorkers.
  - apply pg_keeps_InsertOutbox.
  - apply pg_keeps_MarkOutboxPublished.
Qed.

Lemma pg_steps_kept d d' : rtc pg_step d d' → kept_ok d d'.
Proof.
  induction 1 as [|d1 d2 d3 Hs _ IH]; [apply kept_ok_refl|].
  eapply kept_ok_trans; [by apply pg_step_kept|done].
Qed.

Lemma db_ok_empty : db_ok pg_empty.
Proof. by split; intros; simplify_map_eq. Qed.

End tables.

(** ** Creation *)

Section creation.
Context `{Env, Pg, JsonLib}.

(** The rows a lookup of a key finds. *)
Definition with_key (key : string) (l : list (string * JobRow)) : list (string * JobRow) :=
  filter (λ ir, jr_idempotency_key ir.2 = Some key) l.

Lemma head_with_key o key d id row :
  db_ok d → o (map_to_list (pg_jobs d)).*1 ≡ₚ (map_to_list (pg_jobs d)).*1 →
  pg_jobs d !! id = Some row → jr_idempotency_key row = Some key →
  head (with_key key (entries (o (map_to_list (pg_jobs d)).*1) (pg_jobs d))) = Some (id, row).
Proof.
  intros Hok Ho Hid Hkey. pose proof (entries_perm _ _ Ho) as Hp.
  assert ((id, row) ∈ with_key key (entries (o (map_to_list (pg_jobs d)).*1) (pg_jobs d))) as Hin.
  { apply list_elem_of_filter. split; [done|]. rewrite Hp. by apply elem_of_map_to_list. }
  destruct (with_key _ _) as [|[id' row'] l] eqn:E; [by apply elem_of_nil in Hin|]. cbn. f_equal.
  assert ((id', row') ∈ (id', row') :: l) as Hin' by set_solver. rewrite <- E in Hin'.
  apply list_elem_of_filter in Hin' as [Hkey' Hin']. rewrite Hp, elem_of_map_to_list in Hin'.
  cbn in Hkey'. assert (id' = id) as -> by (by eapply (ok_keys d Hok)). congruence.
Qed.

Lemma wp_lookup_key key id row Q n d :
  db_ok d → pg_text key = true →
  pg_jobs d !! id = Some row → jr_idempotency_key row = Some key →
  (∀ r, match pg_fault (Datatypes.S n) with
        | Executed => r = Ok (scanJob id row)
        | NotSent e | AnswerLost e => r = Err e
        end → Q r (Datatypes.S (Datatypes.S n), d)) →
  wp (pg_GetJobByIdempotencyKey key) Q (n, d).
Proof.
  intros Hok Ht Hid Hkey HQ. unfold pg_GetJobByIdempotencyKey, query, stmt. wp_steps.
  assert (env_order n (map_to_list (pg_jobs d)).*1 ≡ₚ (map_to_list (pg_jobs d)).*1) as Ho
    by apply env_order_perm.
  pose proof (head_with_key _ key d id row Hok Ho Hid Hkey) as Hh. unfold with_key in Hh.
  rewrite Ht, Hh. cbn. destruct (pg_fault (Datatypes.S n)) eqn:Hf; wp_steps; by apply HQ.
Qed.

(** The job [CreateJob] submits to the INSERT, and the moment of it. *)
Definition create_tick (job : Job) (n : nat) : nat :=
  if bool_decide (j_ID job = "") then Datatypes.S n else n.
Definition submitted (job : Job) (n : nat) : Job :=
  new_job (created_id job n) (env_now (create_tick job n)) job.

(** The caller gets the stored job, or its own where the identifiers agree. *)
Definition answer_for (job : Job) (id : string) (row : JobRow) : Job :=
  if bool_decide (id = j_ID job) then job else scanJob id row.

(** What [CreateJob] returns and stores: [insert] and [lookup] say what
    happened to its two statements. *)
Definition create_table (job : Job) (insert lookup : Fault) (d : PgDB) (r : result Job)
    (d' : PgDB) : Prop :=
  match insert, job_row job with
  | NotSent e, _ => r = Err e ∧ d' = d
  | _, None => r = Err invalid_input ∧ d' = d
  | _, Some (id, row) =>
      let answered r' := match insert with AnswerLost e => r = Err e | _ => r' end in
      let looked_up id row :=
        match lookup with Executed => r = Ok (answer_for job id row) | _ => r = Ok job end in
      if key_taken (jr_idempotency_key row) d then
        d' = d ∧ answered (∃ id0 row0, pg_jobs d !! id0 = Some row0 ∧
          jr_idempotency_key row0 = jr_idempotency_key row ∧ looked_up id0 row0)
      else match pg_jobs d !! id with
           | Some _ => r = Err unique_violation ∧ d' = d
           | None => d' = set_pg_jobs (<[id := row]> (pg_jobs d)) d ∧
               answered (match jr_idempotency_key row with
                         | None => r = Ok job
                         | Some _ => looked_up id row
                         end)
           end
  end.

(** The part of [CreateJob] after the INSERT. *)
Lemma wp_create_lookup job id row Q n d :
  db_ok d → pg_text (j_IdempotencyKey job) = true →
  pg_jobs d !! id = Some row → jr_idempotency_key row = Some (j_IdempotencyKey job) →
  (∀ r n', match pg_fault (Datatypes.S n) with
        | Executed => r = Ok (answer_for job id row)
        | _ => r = Ok job
        end → (n ≤ n')%nat → Q r (n', d)) →
  wp (existing ← pg_GetJobByIdempotencyKey (j_IdempotencyKey job);
      mret (match existing with
            | Ok existing =>
                if bool_decide (j_ID existing = j_ID job) then Ok job else Ok existing
            | Err _ => Ok job
            end)) Q (n, d).
Proof.
  intros Hok Ht Hid Hkey HQ. wp_step. eapply wp_lookup_key; [done..|]. intros r Hr. wp_steps.
  apply HQ; [|lia]. unfold answer_for.
  destruct (pg_fault (Datatypes.S n)); subst r; [|done..]. cbn. by case_bool_decide.
Qed.

Lemma job_row_text job id row key :
  job_row job = Some (id, row) → jr_idempotency_key row = Some key → pg_text key = true.
Proof.
  unfold job_row. intros Hrow. invert_row Hrow. intros ->.
  match goal with H : nullable col_text ?v = Some _ |- _ => destruct v as [s|]; cbn in H; [|done] end.
  unfold col_text in *. destruct (pg_text s) eqn:Hs; naive_solver.
Qed.

Lemma wp_put_job job n d :
  db_ok d →
  wp (pg_put_job job) (λ r ns,
    create_table job (pg_fault n) (pg_fault (2 + n)) d r ns.2 ∧ (n ≤ ns.1)%nat) (n, d).
Proof.
  intros Hok. unfold pg_put_job, create_table, stmt, sql_insert_job. wp_steps.
  destruct (pg_fault n) as [|e|e]; cbn beta iota; [|wp_steps; split; [done|lia]|].
  all: destruct (job_row job) as [[id row]|] eqn:Hrow; [|wp_steps; split; [done|lia]].
  all: pose proof (job_row_inv _ _ _ Hrow) as (_ & Hkey & _).
  all: destruct (key_taken _ d) eqn:Htaken; wp_steps.
  all: try (destruct (pg_jobs d !! id) eqn:Hid; wp_steps; [split; [done|lia]|]).
  - (* conflict, answered *)
    destruct (jr_idempotency_key row) as [key|] eqn:Hk; [|done].
    symmetry in Hkey. apply nullStr_Some in Hkey as [-> Hne].
    rewrite bool_decide_false by done.
    apply key_taken_true in Htaken as (id0 & row0 & Hid0 & Hk0).
    eapply wp_create_lookup; [done|by eapply job_row_text|done..|].
    intros r n' Hr Hn. cbn. split; [|lia]. split; [done|]. eauto.
  - rewrite Hkey. unfold nullStr. case_bool_decide as He.
    { wp_steps. split; [done|lia]. }
    assert (sql_insert_job job d = Ok ((), set_pg_jobs (<[id := row]> (pg_jobs d)) d)) as Hins.
    { unfold sql_insert_job. by rewrite Hrow, Htaken, Hid. }
    pose proof (kept_ok_insert_job _ _ _ Hins Hok) as [Hok' _]. cbn in Hok'.
    eapply wp_create_lookup; [done| | | |].
    + eapply job_row_text; [done|]. rewrite Hkey. unfold nullStr. by rewrite bool_decide_false.
    + cbn. apply lookup_insert_eq.
    + rewrite Hkey. unfold nullStr. by rewrite bool_decide_false.
    + intros r n' Hr Hn. cbn. split; [done|lia].
  - split; [done|lia].
  - split; [done|lia].
Qed.

Lemma wp_pg_CreateJob job n d :
  db_ok d →
  wp (pg_CreateJob job) (λ r ns,
    create_table (submitted job n) (pg_fault (1 + create_tick job n))
      (pg_fault (3 + create_tick job n)) d r ns.2) (n, d).
Proof.
  intros Hok. unfold pg_CreateJob, submitted, created_id, create_tick. wp_step.
  case_bool_decide; wp_steps; (eapply wp_mono; [by apply wp_put_job|]); by intros r ns [Hr _].
Qed.

(** C21: what [CreateJob] does on the database, for every fault of its two
    statements.  An INSERT that is not sent, or whose row the column types
    refuse, leaves the table as it is and is an error; so is one whose
    identifier is taken.  When the idempotency key is in use nothing is
    inserted and the answer is the stored job of the key, but if the lookup that
    should find it fails, the answer is the submitted job, which is not stored.
    Otherwise exactly the row of the job is inserted, also when the answer of
    the server is lost and the caller sees an error; and the caller gets back
    the job it submitted. *)
Theorem pg_CreateJob_table job n d :
  db_ok d →
  wp (pg_CreateJob job) (λ r ns,
    create_table (submitted job n) (pg_fault (1 + create_tick job n))
      (pg_fault (3 + create_tick job n)) d r ns.2) (n, d).
Proof. apply wp_pg_CreateJob. Qed.
End creation.

(** ** What is read back *)

(** Documented: the output of a uuid column is a UUID in canonical form, which
    is the form of [uuid.NewString] too. *)
Class PgLaws `{Env, Pg} : Prop := {
  pg_uuid_canonical s u : pg_uuid s = Some u → pg_uuid u = Some u;
  pg_uuid_new n : pg_uuid (env_uuid n) = Some (env_uuid n);
}.

(** Every statement is executed and answered. *)
Class NoFaults `{Pg} : Prop := no_faults n : pg_fault n = Executed.

(** The column gives the value back. *)
Definition stable `{Pg} {T} `{Json T} (v : T) : Prop := Unmarshal <$> col_json v = Some v.

(** The instants an UPDATE writes, in microseconds. *)
Definition round_times (j : Job) : Job :=
  set_ScheduledAt (timestamptz <$> j_ScheduledAt j)
    (set_QueuedAt (timestamptz <$> j_QueuedAt j)
      (set_StartedAt (timestamptz <$> j_StartedAt j)
        (set_CompletedAt (timestamptz <$> j_CompletedAt j)
          (set_NextRetryAt (timestamptz <$> j_NextRetryAt j)
            (set_UpdatedAt (timestamptz (j_UpdatedAt j)) j))))).

(** The job a new row is read as: its identifier and payload in normal form,
    instants in microseconds and the timeout in milliseconds; the columns the
    INSERT does not set are NULL and read as empty. *)
Definition read_back (id payload : string) (j : Job) : Job :=
  mkJob id (j_Name j) (j_Type j) (Some payload) (j_Priority j) (j_State j) (j_Schedule j)
    (j_RetryPolicy j) (j_Timeout j - Z.rem (j_Timeout j) Millisecond) (j_IdempotencyKey j)
    (j_Attempt j) (j_MaxAttempts j) "" "" "" (timestamptz <$> j_ScheduledAt j)
    None None None None (timestamptz (j_CreatedAt j)) (timestamptz (j_UpdatedAt j)) (j_Metadata j).

Section round_trip.
Context `{Env, Pg, JsonLib}.

#[local] Arguments coalesce : simpl never.

Lemma coalesce_nullStr s : coalesce (nullStr s) = s.
Proof. unfold nullStr. by case_bool_decide. Qed.

Lemma timeout_stored t :
  in_range 64 t → dur_mul (Milliseconds t) Millisecond = t - Z.rem t Millisecond.
Proof.
  intros Ht. unfold dur_mul, Milliseconds, Millisecond. unfold in_range in Ht.
  pose proof (Z.quot_rem' t 1000000). pose proof (Z.rem_bound_abs t 1000000).
  pose proof (Z.rem_sign_nz t 1000000).
  rewrite int64_id; [lia|]. unfold in_range. destruct (decide (Z.rem t 1000000 = 0)); nia.
Qed.

Lemma scan_new_row job id row :
  job_row job = Some (id, row) → in_range 64 (j_Timeout job) →
  stable (j_Schedule job) → stable (j_RetryPolicy job) → stable (j_Metadata job) →
  scanJob id row = read_back id (jr_payload row) job ∧
  pg_jsonb (default "{}" (j_Payload job)) = Some (jr_payload row).
Proof.
  unfold job_row, stable, col_type. intros Hrow Ht Hs Hr Hm. invert_row Hrow.
  repeat match goal with
  | H : col_int4 _ = Some _ |- _ => apply col_int4_Some in H as [-> ?]
  | H : col_text _ = Some _ |- _ => apply col_text_Some in H as ->
  | H : nullable col_text _ = Some _ |- _ => apply nullable_text in H as ->
  | H : col_json ?v = Some _, H' : _ <$> col_json ?v = _ |- _ => rewrite H in H'; cbn in H'
  end.
  case_bool_decide; [|done]. simplify_eq. split; [|done].
  unfold scanJob, read_back. cbn. rewrite coalesce_nullStr, timeout_stored by done.
  by repeat f_equal.
Qed.

(** The execution identifier is unset or in canonical form. *)
Definition canonical (s : string) : Prop := s = "" ∨ pg_uuid s = Some s.

Lemma scan_updated_row id row job set :
  same_spec (scanJob id row) job → canonical (j_ExecutionID job) →
  updated_row job = Some (id, set) → scanJob id (set row) = round_times job.
Proof.
  unfold updated_row, canonical. intros Hsame Hcan Hrow. invert_row Hrow.
  repeat match goal with
  | H : col_int4 _ = Some _ |- _ => apply col_int4_Some in H as [-> ?]
  | H : nullable col_text _ = Some _ |- _ => apply nullable_text in H as ->
  end.
  match goal with H : nullable pg_uuid _ = Some ?v |- _ =>
    assert (coalesce v = j_ExecutionID job) as Hx
  end.
  { unfold nullStr in *. case_bool_decide as He; cbn in *; simplify_eq; [by rewrite He|].
    destruct Hcan as [?|Hcan]; [done|]. rewrite Hcan in *. by simplify_eq/=. }
  unfold same_spec in Hsame. cbn in Hsame. destruct job. cbn in *. destruct_and?.
  unfold scanJob, round_times. cbn. rewrite !coalesce_nullStr, Hx. subst. done.
Qed.

Lemma assign_if_proj {A B} (p : Job → B) (v : option A) set j :
  (∀ a j, p (set a j) = p j) → p (assign_if v set j) = p j.
Proof. intros Hp. by destruct v; cbn. Qed.

Lemma update_job_ExecutionID st t f j :
  j_ExecutionID (update_job st t f j) = default (j_ExecutionID j) (field_string "execution_id" f).
Proof.
  unfold update_job. cbv zeta. rewrite 7!(assign_if_proj j_ExecutionID) by done.
  destruct (field_string "execution_id" f); cbn; [done|].
  by rewrite (assign_if_proj j_ExecutionID).
Qed.

Lemma wp_pg_GetJob `{!NoFaults} id Q n d :
  Q (match pg_uuid id with
     | None => Err invalid_input
     | Some u => match pg_jobs d !! u with
                 | Some row => Ok (scanJob u row)
                 | None => Err ErrNotFound
                 end
     end) (Datatypes.S n, d) → wp (pg_GetJob id) Q (n, d).
Proof.
  intros HQ. unfold pg_GetJob. wp_step. apply wp_query_ok; [apply no_faults|]. wp_steps.
  destruct (pg_uuid id) as [u|]; [|done]. by destruct (pg_jobs d !! u).
Qed.

(** A compare-and-set on a job that is stored under its identifier. *)
Lemma wp_pg_UpdateJobStateIf `{!NoFaults} id row st f only Q n d :
  pg_uuid id = Some id → pg_jobs d !! id = Some row →
  (∀ t, is_Some (updated_row (update_job st t f (scanJob id row)))) →
  (∀ t set n', allowed_from only (jr_state row) = true →
     updated_row (update_job st t f (scanJob id row)) = Some (id, set) →
     Q None (n', set_pg_jobs (<[id := set row]> (pg_jobs d)) d)) →
  (∀ n', allowed_from only (jr_state row) = false → Q None (n', d)) →
  wp (pg_UpdateJobStateIf id st f only) Q (n, d).
Proof.
  intros Hu Hid Hstor Hset Hskip. unfold pg_UpdateJobStateIf, pg_read_job. wp_steps.
  apply wp_pg_GetJob. rewrite Hu, Hid. cbn [scanJob j_State].
  change (j_State (scanJob id row)) with (jr_state row).
  destruct (allowed_from only (jr_state row)) eqn:Ha; wp_steps; [|by apply Hskip].
  unfold pg_write_job. wp_steps. apply wp_stmt_ok; [apply no_faults|].
  unfold sql_update_job. set (t := env_now _). destruct (Hstor t) as [[id' set] Hrow].
  rewrite Hrow. assert (id' = id) as ->.
  { unfold updated_row in Hrow. invert_row Hrow. rewrite update_job_ID in *. cbn in *. congruence. }
  wp_steps. cbn. rewrite <- (insert_alter set id (pg_jobs d) row Hid). by eapply (Hset t).
Qed.

(** C40: the round trip of a job through the database.  When the server answers
    every statement, a new job whose values the columns can hold is read back
    after [CreateJob] as [read_back] says.  The columns of the INSERT come back:
    name, type, priority, state, schedule, retry policy, idempotency key, attempt,
    maximum of attempts and metadata as they were submitted, identifier and payload in
    normal form, scheduled_at, created_at and updated_at in microseconds, the
    timeout cut to milliseconds.  The INSERT has no columns for worker_id,
    execution_id, last_error, queued_at, started_at, completed_at and
    next_retry_at: these seven are read back empty, whatever was submitted.
    [UpdateJobStateIf] from one of the allowed states then has exactly the effect
    of [update_job], the update of the in-memory store, on the job that is read,
    and from any other state none. *)
Theorem pg_round_trip `{!PgLaws, !NoFaults} job id row st f only n d :
  let job' := submitted job n in
  db_ok d → job_row job' = Some (id, row) → in_range 64 (j_Timeout job) →
  stable (j_Schedule job) → stable (j_RetryPolicy job) → stable (j_Metadata job) →
  key_taken (jr_idempotency_key row) d = false → pg_jobs d !! id = None →
  (∀ t, is_Some (updated_row (update_job st t f (scanJob id row)))) →
  (∀ x, field_string "execution_id" f = Some x → canonical x) →
  wp (_ ← pg_CreateJob job; g ← pg_GetJob id;
      u ← pg_UpdateJobStateIf id st f only; g' ← pg_GetJob id; mret (g, u, g'))
    (λ out ns, ∃ payload t,
       pg_jsonb (default "{}" (j_Payload job)) = Some payload ∧
       let j := read_back id payload job' in
       out = (Ok j, None, Ok (if allowed_from only (j_State j)
                              then round_times (update_job st t f j) else j))) (n, d).
Proof.
  intros job' Hok Hrow Ht Hs Hr Hm Hkey Hid Hstor Hcan. wp_step.
  eapply wp_mono; [by apply wp_pg_CreateJob|]. intros r [n1 d1] Hc. cbn [snd] in Hc.
  unfold create_table in Hc. fold job' in Hc. rewrite !no_faults, Hrow, Hkey, Hid in Hc.
  destruct Hc as [-> _].
  assert (in_range 64 (j_Timeout job') ∧ stable (j_Schedule job') ∧ stable (j_RetryPolicy job') ∧
    stable (j_Metadata job') ∧ j_Payload job' = j_Payload job) as (?&?&?&?&Hpay).
  { unfold job', submitted, new_job. cbv zeta. repeat case_bool_decide; done. }
  destruct (scan_new_row job' id row) as [Hscan Hp]; [done..|]. rewrite Hpay in Hp.
  assert (jr_state row = j_State job') as Hst by (by pose proof (f_equal j_State Hscan)).
  assert (pg_uuid id = Some id) as Hu
    by (apply job_row_inv in Hrow as [? _]; by eapply pg_uuid_canonical).
  wp_step. apply wp_pg_GetJob. cbn. rewrite Hu, lookup_insert_eq. wp_step.
  eapply wp_pg_UpdateJobStateIf; [done|cbn; apply lookup_insert_eq|done| |].
  - intros t set n' Ha Hset. wp_step. apply wp_pg_GetJob. cbn. rewrite Hu, lookup_insert_eq.
    wp_steps. exists (jr_payload row), t. split; [done|]. cbv zeta. rewrite <- Hscan.
    rewrite <- Hst, Ha. do 2 f_equal.
    apply (scan_updated_row id row (update_job st t f (scanJob id row))); [apply update_job_spec| |done].
    rewrite update_job_ExecutionID. destruct (field_string "execution_id" f) eqn:Hx; [by apply Hcan|].
    rewrite Hscan. by left.
  - intros n' Ha. wp_step. apply wp_pg_GetJob. cbn. rewrite Hu, lookup_insert_eq.
    wp_steps. exists (jr_payload row), 0. split; [done|]. cbv zeta. rewrite <- Hscan.
    by rewrite <- Hst, Ha.
Qed.
End round_trip.

(** ** On concrete databases *)

#[local] Existing Instance sample_env.
#[local] Existing Instance sample_json.

Lemma sample_pg_laws faults : @PgLaws sample_env (pg_with faults).
Proof.
  split; cbn.
  - intros s u. destruct (String.eqb_spec s ""); [done|]. intros [= <-].
    by destruct (String.eqb_spec s "").
  - by intros [].
Qed.

Lemma sample_db_ok faults st : @db_ok (pg_with faults) (sample_db st).
Proof.
  split.
  - intros i j r r' k Hi Hj Hr Hr'. cbn in Hi, Hj.
    rewrite lookup_insert_Some, lookup_singleton_Some in Hi, Hj.
    destruct Hi as [[<- <-]|(? & <- & <-)], Hj as [[<- <-]|(? & <- & <-)]; cbn in *;
      first [done|congruence].
  - intros i r Hi. cbn in Hi. rewrite lookup_insert_Some, lookup_singleton_Some in Hi.
    destruct Hi as [[<- <-]|(? & <- & <-)]; split_and!; cbn; try done; auto;
      first [by exists "j1" | by exists "j2"].
  - intros x r Hx. cbn in Hx. by rewrite lookup_empty in Hx.
Qed.

Section witnesses.
#[local] Existing Instance sample_pg.


(** The worker of a submitted job is not stored, its priority is. *)
Lemma pg_round_trip_witness :
  let job := set_WorkerID "w9" (new_sample_job "j3" "" 5) in
  wp (_ ← pg_CreateJob job; g ← pg_GetJob "j3";
      u ← pg_UpdateJobStateIf "j3" JobStateQueued [] []; g' ← pg_GetJob "j3"; mret (g, u, g'))
    (λ out _, out.1.2 = None ∧ ∃ j j', out.1.1 = Ok j ∧ j_Priority j = 5 ∧ j_WorkerID j = "" ∧
       out.2 = Ok j' ∧ j_State j' = JobStateQueued) (0%nat, sample_db JobStateScheduled).
Proof.
  intros job. eapply wp_mono.
  - apply (pg_round_trip (H2 := sample_pg_laws _) (H3 := λ _, eq_refl) job "j3"
      (mkJobRow "job" JobTypeBuiltin "{}" 5 JobStateScheduled ScheduleImmediate "policy" 30000 None
         0 3 None None None (Some (sample_now 0)) None None None None "null" (sample_now 0)
         (sample_now 0)) JobStateQueued [] []); try done.
    + apply sample_db_ok.
  - intros [[g u] g'] ns (payload & t & _ & [= -> -> ->]). split; [done|].
    eexists _, _. by repeat split.
Defined.
End witnesses.

(** The second statement of [CreateJob] fails: the caller gets a job that is
    not in the table. *)
Lemma pg_CreateJob_table_witness :
  let run := @pg_CreateJob _ (pg_failing 3) _ (new_sample_job "j3" "k" 5)
               (0%nat, sample_db JobStateScheduled) in
  (∃ job, run.1 = Ok job ∧ j_ID job = "j3") ∧ pg_jobs run.2.2 !! "j3" = None ∧
  @create_table (pg_failing 3) _ (submitted (new_sample_job "j3" "k" 5) 0) Executed
    (NotSent (External "connection reset")) (sample_db JobStateScheduled) run.1 run.2.2.
Proof.
  intros run. split; [eexists; by split|]. split; [by vm_compute|].
  apply (@pg_CreateJob_table _ (pg_failing 3) _ (new_sample_job "j3" "k" 5) 0).
  apply sample_db_ok.
Defined.
