(* ===== verification/PgQueries.v ===== *)
(** * The queries of the Postgres store, and what its two-step methods allow

    The list queries against the loops of the in-memory store, the order of
    dispatch, the update that overwrites, and the stale workers an error
    hides. *)

From S2P Require Import Prelude.
From S2P Require Import Domain.
From S2P Require Import Ports.
From S2P Require Import Fixture.
From S2P Require Import MemStore.
From S2P Require Import Postgres.
From S2P Require Import PgFixture.
From S2P Require Import PgProps.

(** ** SELECT *)

Lemma select_perm {R} o keep ord (t : gmap string R) :
  o (map_to_list t).*1 ≡ₚ (map_to_list t).*1 →
  select o keep ord t ≡ₚ filter (λ ir, keep ir) (map_to_list t).
Proof.
  intros Ho. unfold select. rewrite merge_sort_Permutation.
  apply filter_Permutation, entries_perm, Ho.
Qed.

Lemma select_sorted {R} o keep (ord : string * R → string * R → bool) (t : gmap string R) :
  (∀ a b, ord a b ∨ ord b a) → (∀ a b c, ord a b → ord b c → ord a c) →
  StronglySorted (λ a b, ord a b) (select o keep ord t).
Proof.
  intros Htot Htr. unfold select. apply StronglySorted_merge_sort; [|intros a b; apply Htot].
  intros a b c. apply Htr.
Qed.

Lemma nulls_first_total a b : nulls_first a b ∨ nulls_first b a.
Proof.
  destruct a as [a|], b as [b|]; cbn; auto. rewrite !bool_decide_spec. lia.
Qed.
Lemma nulls_first_trans a b c : nulls_first a b → nulls_first b c → nulls_first a c.
Proof.
  destruct a as [a|], b as [b|], c as [c|]; cbn; try done. rewrite !bool_decide_spec. lia.
Qed.

Lemma dispatch_order_spec a b :
  dispatch_order a b ↔
  jr_priority b.2 < jr_priority a.2 ∨
  (jr_priority a.2 = jr_priority b.2 ∧ nulls_first (jr_scheduled_at a.2) (jr_scheduled_at b.2)).
Proof. unfold dispatch_order. by rewrite orb_True, andb_True, !bool_decide_spec. Qed.

Lemma dispatch_order_total a b : dispatch_order a b ∨ dispatch_order b a.
Proof.
  rewrite !dispatch_order_spec.
  pose proof (nulls_first_total (jr_scheduled_at a.2) (jr_scheduled_at b.2)).
  destruct (Z.lt_trichotomy (jr_priority a.2) (jr_priority b.2)) as [?|[?|?]]; naive_solver.
Qed.

Lemma dispatch_order_trans a b c : dispatch_order a b → dispatch_order b c → dispatch_order a c.
Proof.
  rewrite !dispatch_order_spec. intros [?|[? Hn]] [?|[? Hn']]; [left; lia..|].
  right. split; [congruence|]. by eapply nulls_first_trans.
Qed.

(** The part a LIMIT leaves out comes after the part it keeps. *)
Lemma sorted_take {A} (R : A → A → Prop) n l a b :
  StronglySorted R l → a ∈ take n l → b ∈ drop n l → R a b.
Proof.
  intros Hs. rewrite <- (take_drop n l) in Hs. by eapply StronglySorted_app_1_elem_of.
Qed.

(** ** The jobs as the clients see them *)

Section queries.
Context `{Env, Pg, JsonLib}.

Definition pg_view (d : PgDB) : gmap string Job :=
  map_imap (λ id r, Some (scanJob id r)) (pg_jobs d).

Lemma pg_view_lookup d id : pg_view d !! id = scanJob id <$> pg_jobs d !! id.
Proof. unfold pg_view. rewrite map_lookup_imap. by destruct (pg_jobs d !! id). Qed.

Lemma pg_view_filter d (keep : string * JobRow → bool) (keep' : Job → bool) l :
  l ≡ₚ map_to_list (pg_view d) →
  (∀ id r, pg_jobs d !! id = Some r → keep (id, r) = keep' (scanJob id r)) →
  (filter (λ kv : string * Job, keep' kv.2) l).*2 ≡ₚ
    (λ ir, scanJob ir.1 ir.2) <$> filter (λ ir, keep ir) (map_to_list (pg_jobs d)).
Proof.
  intros Hl Hk.
  assert (filter (λ kv : string * Job, keep' kv.2) l ≡ₚ
    (λ ir, (ir.1, scanJob ir.1 ir.2)) <$> filter (λ ir, keep ir) (map_to_list (pg_jobs d))) as ->.
  2:{ by rewrite <- list_fmap_compose. }
  rewrite Hl. apply NoDup_Permutation.
  - apply NoDup_filter, NoDup_map_to_list.
  - apply (NoDup_fmap_1 fst). rewrite <- list_fmap_compose.
    apply NoDup_fmap_filter. apply NoDup_fst_map_to_list.
  - intros [id j]. rewrite list_elem_of_filter, elem_of_map_to_list, pg_view_lookup. cbn.
    rewrite list_elem_of_fmap. split.
    + intros [Hj (r & Hr & ->)%fmap_Some]. exists (id, r). split; [done|].
      rewrite list_elem_of_filter, elem_of_map_to_list. by rewrite (Hk _ _ Hr).
    + intros ([id' r] & [= -> ->] & [Hkeep Hr]%list_elem_of_filter).
      apply elem_of_map_to_list in Hr. cbn. rewrite Hr, <- (Hk _ _ Hr). done.
Qed.

Lemma where_due_due now id r : where_due now r = due now (scanJob id r).
Proof.
  unfold where_due, due. cbn.
  assert (∀ o, null_le o now = match o with Some t => negb (After t now) | None => false end) as Hle.
  { intros [t|]; [|done]. cbn. unfold After. rewrite <- bool_decide_not.
    apply bool_decide_ext. lia. }
  destruct (jr_state r); cbn; rewrite ?Hle, ?orb_false_r; done.
Qed.

Lemma where_timed_out_timed_out now id r :
  timestamptz now = now → 0 < jr_timeout_ms r * Millisecond < 2 ^ 63 →
  where_timed_out now r = timed_out now (scanJob id r).
Proof.
  intros Hnow Hms. unfold where_timed_out, timed_out. cbn. f_equal.
  destruct (jr_started_at r) as [t|]; [|done]. unfold dur_mul. rewrite Hnow. no_wrap.
  rewrite (bool_decide_false (_ ≤ 0)) by lia. done.
Qed.

(** The jobs that satisfy a condition. *)
Definition jobs_where (keep : Job → bool) (m : gmap string Job) : list Job :=
  (filter (λ kv : string * Job, keep kv.2) (map_to_list m)).*2.

(** Two answers with the first [limit] of the jobs that satisfy [keep], each
    store in an order of its own. *)
Definition lists_agree (keep : Job → bool) (limit : Z) (m : gmap string Job)
    (r1 r2 : result (list Job)) : Prop :=
  ∃ l1 l2, l1 ≡ₚ jobs_where keep m ∧ l2 ≡ₚ jobs_where keep m ∧
    r1 = Ok (take (Z.to_nat limit) l1) ∧ r2 = Ok (take (Z.to_nat limit) l2).

(** They have the same length, and below the limit the same jobs. *)
Lemma lists_agree_same keep limit m r1 r2 :
  lists_agree keep limit m r1 r2 → ∃ l1 l2, r1 = Ok l1 ∧ r2 = Ok l2 ∧ length l1 = length l2 ∧
    (Z.of_nat (length (jobs_where keep m)) ≤ limit → l1 ≡ₚ l2 ∧ l2 ≡ₚ jobs_where keep m).
Proof.
  intros (l1 & l2 & Hl1 & Hl2 & -> & ->). eexists _, _. split; [done|]. split; [done|].
  pose proof (Permutation_length Hl1). pose proof (Permutation_length Hl2).
  split; [rewrite !length_take; lia|]. intros Hlim. rewrite !take_ge by lia.
  by split; [rewrite Hl1, Hl2|].
Qed.

(** The loop of the in-memory store and the query agree when their conditions
    do. *)
Lemma collect_select d o (ks : list string) keep keep' ord limit :
  o (map_to_list (pg_jobs d)).*1 ≡ₚ (map_to_list (pg_jobs d)).*1 →
  ks ≡ₚ (map_to_list (pg_view d)).*1 →
  (∀ id r, pg_jobs d !! id = Some r → keep (id, r) = keep' (scanJob id r)) →
  0 < limit →
  lists_agree keep' limit (pg_view d) (Ok (collect keep' limit (entries ks (pg_view d)) []))
    (scan_jobs (sql_limit limit (select o keep ord (pg_jobs d)))).
Proof.
  intros Ho Hks Hk Hlim. apply entries_perm in Hks.
  rewrite collect_take by done. cbn. rewrite Nat.sub_0_r.
  unfold sql_limit. rewrite bool_decide_false by lia. cbn.
  eexists (filter (λ kv : string * Job, keep' kv.2) (entries ks (pg_view d))).*2,
    ((λ ir, scanJob ir.1 ir.2) <$> select o keep ord (pg_jobs d)).
  split; [by apply fmap_Permutation, filter_Permutation|]. split; [|by rewrite fmap_take].
  unfold jobs_where. rewrite (pg_view_filter d keep) by done.
  by apply fmap_Permutation, select_perm.
Qed.

Lemma query_run `{!NoFaults} {A} (f : PgDB → result A) n d :
  query f (n, d) = (f d, (Datatypes.S n, d)).
Proof.
  unfold query, stmt, mbind, M_bind, ask, getst, upd, mret, M_ret. cbn. rewrite no_faults.
  by destruct (f d).
Qed.

Ltac run_both :=
  cbn -[query]; unfold range, mbind, M_bind, ask, getst, mret, M_ret; cbn -[query];
  rewrite ?query_run; cbn [fst].

(** C12: the two stores list the same jobs.  When both hold the same jobs and
    no statement fails, each of the four listings answers, in either store, with
    the first jobs, up to the limit (a positive one), of those that satisfy one
    condition on jobs, in an order of the store's own; so the answers have the
    same length, and the same jobs when the limit does not cut.  The conditions
    are the state for [ListJobs] (any state for the empty filter), [due] at the
    store's clock, when the clocks agree and no row is locked by another
    scheduler, for [ListDueScheduled], CANCEL_REQUESTED for
    [ListCancelRequested] and [timed_out] for [ListTimedOutRunning], when every
    stored timeout is positive: one that is not ends at once in the database and
    after 30 seconds in memory. *)
Theorem pg_lists_as_memory `{!NoFaults} s d n m state limit now :
  ms_jobs s = pg_view d → 0 < limit → pg_text state = true →
  lists_agree (λ j, bool_decide (state = "") || bool_decide (JobState_string (j_State j) = state))
    limit (pg_view d) (mem_ListJobs state limit (n, s)).1 (pg_ListJobs state limit (m, d)).1 ∧
  ((∀ k id, pg_locked k id = false) → env_now n = pg_now (Datatypes.S m) →
   lists_agree (due (env_now n)) limit (pg_view d)
     (mem_ListDueScheduled limit (n, s)).1 (pg_ListDueScheduled limit (m, d)).1) ∧
  lists_agree (λ j, bool_decide (j_State j = JobStateCancelRequested)) limit (pg_view d)
    (mem_ListCancelRequested limit (n, s)).1 (pg_ListCancelRequested limit (m, d)).1 ∧
  (timestamptz now = now →
   (∀ id r, pg_jobs d !! id = Some r → 0 < jr_timeout_ms r * Millisecond < 2 ^ 63) →
   lists_agree (timed_out now) limit (pg_view d)
     (mem_ListTimedOutRunning now limit (n, s)).1 (pg_ListTimedOutRunning now limit (m, d)).1).
Proof.
  intros Hs Hlim Hst. split_and!.
  - unfold mem_ListJobs, pg_ListJobs. rewrite (bool_decide_false (limit ≤ 0)) by lia.
    destruct (bool_decide (state = "")) eqn:He; run_both; rewrite Hs, ?Hst.
    all: apply collect_select; auto using env_order_perm.
  - intros Hlock Hnow. unfold mem_ListDueScheduled, pg_ListDueScheduled. run_both. rewrite Hs.
    rewrite collect_due_collect by done. apply collect_select; auto using env_order_perm.
    intros id r _. cbn. by rewrite Hlock, andb_true_r, Hnow, <- where_due_due.
  - unfold mem_ListCancelRequested, pg_ListCancelRequested.
    rewrite (bool_decide_false (limit ≤ 0)) by lia. run_both. rewrite Hs.
    apply collect_select; auto using env_order_perm.
  - intros Hts Hms. unfold mem_ListTimedOutRunning, pg_ListTimedOutRunning.
    rewrite (bool_decide_false (limit ≤ 0)) by lia. run_both. rewrite Hs.
    apply collect_select; auto using env_order_perm.
    intros id r Hr. cbn. apply where_timed_out_timed_out; eauto.
Qed.

(** C16: which jobs are promoted first.  [ListDueScheduled] answers with due jobs
    only that no other transaction has locked, each once, in the order of the dispatch (priority from the highest,
    then the time the job is due), at most as many as the limit; and a due job
    that is neither locked nor listed is left out only because the limit is
    reached by jobs that all come before it.  The table is not changed. *)
Theorem pg_due_in_order `{!NoFaults} limit n d :
  0 ≤ limit →
  wp (pg_ListDueScheduled limit) (λ r ns, ns.2 = d ∧ ∃ l,
    r = Ok ((λ ir, scanJob ir.1 ir.2) <$> l) ∧ NoDup l.*1 ∧
    StronglySorted (λ a b, dispatch_order a b) l ∧ Z.of_nat (length l) ≤ limit ∧
    (∀ id row, (id, row) ∈ l →
       pg_jobs d !! id = Some row ∧ where_due (pg_now (Datatypes.S n)) row = true ∧
       pg_locked (2 + n) id = false) ∧
    (∀ id row, pg_jobs d !! id = Some row → where_due (pg_now (Datatypes.S n)) row = true →
       pg_locked (2 + n) id = false → (id, row) ∉ l →
       Z.of_nat (length l) = limit ∧ ∀ ir, ir ∈ l → dispatch_order ir (id, row))) (n, d).
Proof.
  intros Hlim. unfold pg_ListDueScheduled. wp_steps. apply wp_query_ok; [apply no_faults|]. wp_steps.
  unfold sql_limit. rewrite bool_decide_false by lia. split; [done|].
  set (sel := select _ _ _ _).
  assert (sel ≡ₚ filter (λ ir : string * JobRow, where_due (pg_now (Datatypes.S n)) ir.2 &&
    negb (pg_locked (Datatypes.S (Datatypes.S n)) ir.1)) (map_to_list (pg_jobs d))) as Hsel
    by apply select_perm, env_order_perm.
  assert (StronglySorted (λ a b, dispatch_order a b) sel) as Hsort
    by (apply select_sorted; [apply dispatch_order_total|apply dispatch_order_trans]).
  assert (∀ id row, (id, row) ∈ sel ↔ pg_jobs d !! id = Some row ∧
    where_due (pg_now (Datatypes.S n)) row = true ∧ pg_locked (2 + n) id = false) as Hin.
  { intros id row. rewrite Hsel, list_elem_of_filter, elem_of_map_to_list. cbn.
    rewrite Is_true_true, andb_true_iff, negb_true_iff. naive_solver. }
  exists (take (Z.to_nat limit) sel). split_and!.
  - done.
  - rewrite fmap_take. eapply sublist_NoDup; [|apply sublist_take]. rewrite Hsel.
    apply NoDup_fmap_filter, NoDup_fst_map_to_list.
  - rewrite <- (take_drop (Z.to_nat limit) sel) in Hsort.
    by apply StronglySorted_app_1_l in Hsort.
  - rewrite length_take. lia.
  - intros id row Hir. apply Hin. rewrite <- (take_drop (Z.to_nat limit) sel). set_solver.
  - intros id row Hr Hd Hl Hni. assert ((id, row) ∈ sel) as Hs by by apply Hin.
    rewrite <- (take_drop (Z.to_nat limit) sel) in Hs. apply elem_of_app in Hs as [?|Hs]; [done|].
    split; [|intros ir Hir; by apply (sorted_take (λ a b, dispatch_order a b) (Z.to_nat limit) sel)].
    assert (drop (Z.to_nat limit) sel ≠ []) as Hne by (intros E; rewrite E in Hs; by apply elem_of_nil in Hs).
    rewrite length_take. pose proof (length_drop sel (Z.to_nat limit)) as Hdl.
    destruct (drop _ sel); [done|]. cbn in Hdl. lia.
Qed.

(** ** The update that overwrites *)

Lemma pg_read_job_some id st f only n d j :
  (pg_read_job id st f only (n, d)).1 = Ok (Some j) →
  ∃ u row t, pg_uuid id = Some u ∧ pg_jobs d !! u = Some row ∧
    allowed_from only (jr_state row) = true ∧ j = update_job st t f (scanJob u row).
Proof.
  unfold pg_read_job, pg_GetJob, query, stmt.
  unfold mbind, M_bind, ask, getst, upd, mret, M_ret. cbn.
  destruct (pg_fault n); cbn; [|done|]; destruct (pg_uuid id) as [u|]; cbn; try done;
    destruct (pg_jobs d !! u) as [row|] eqn:Hu; cbn; try done.
  destruct (allowed_from only (jr_state row)) eqn:Ha; cbn; [|done]. intros [= <-]. eauto 10.
Qed.

(** C18: a conditional update is not atomic.  Between the SELECT and the UPDATE of
    [UpdateJobStateIf] other processes can run any statements; when the UPDATE
    succeeds, the job in the table is the one computed from what was read
    before them: the state it was in is not tested again, so a completion, a
    cancellation or an assignment written in between is overwritten. *)
Theorem pg_lost_update `{!PgLaws} id st f only n d j d1 n1 :
  db_ok d → (pg_read_job id st f only (n, d)).1 = Ok (Some j) →
  (∀ x, field_string "execution_id" f = Some x → canonical x) →
  rtc pg_step d d1 →
  j_State j = st ∧
  wp (pg_write_job j) (λ r ns, r = None →
    ∃ row, pg_jobs ns.2 !! j_ID j = Some row ∧ scanJob (j_ID j) row = round_times j) (n1, d1).
Proof.
  intros Hok (u & row & t & Hu & Hrow & _ & ->)%pg_read_job_some Hx Hsteps.
  split; [apply update_job_state|]. rewrite update_job_ID. cbn [scanJob j_ID].
  destruct (pg_steps_kept _ _ Hsteps Hok) as [_ [Hg _]].
  destruct (Hg _ _ Hrow) as (row1 & Hrow1 & Hsame).
  set (j := update_job st t f (scanJob u row)).
  assert (same_spec (scanJob u row1) j) as Hspec.
  { etrans; [|apply update_job_spec]. unfold same_spec, same_columns in *. cbn.
    destruct_and?. split_and!; congruence. }
  assert (canonical (j_ExecutionID j)) as Hcan.
  { unfold j. rewrite update_job_ExecutionID.
    destruct (field_string "execution_id" f) eqn:E; cbn; [by apply Hx|].
    destruct (jr_execution_id row) as [x|] eqn:Er; [|by left]. right.
    edestruct (ok_row d Hok _ _ Hrow) as (_&_&_&_&_&_&Hex). destruct (Hex _ Er) as [s Hs].
    by eapply pg_uuid_canonical. }
  unfold pg_write_job. wp_step. apply wp_stmt; [intros; by wp_steps|].
  intros a d' r Hset [->|[e ->]]; wp_steps; [|done]. intros _. unfold sql_update_job in Hset.
  destruct (updated_row j) as [[u' set]|] eqn:Hup; [|done]. simplify_eq. cbn.
  assert (u' = u) as ->.
  { unfold updated_row in Hup. invert_row Hup. unfold j in *. rewrite update_job_ID in *.
    pose proof (pg_uuid_canonical _ _ Hu). cbn in *. congruence. }
  rewrite lookup_alter_eq, Hrow1. eexists. split; [done|]. by apply scan_updated_row.
Qed.

(** ** Stale workers *)

Lemma sql_mark_status o keep st d ids d' id row :
  sql_mark o keep st d = Ok (ids, d') → pg_workers d !! id = Some row →
  pg_workers d' !! id = Some (if keep row then set_wr_status st row else row).
Proof. unfold sql_mark. intros [= <- <-] Hrow. cbn. by rewrite lookup_fmap, Hrow. Qed.

Lemma sql_mark_ids o keep st d ids d' id row :
  sql_mark o keep st d = Ok (ids, d') →
  o (map_to_list (pg_workers d)).*1 ≡ₚ (map_to_list (pg_workers d)).*1 →
  pg_workers d !! id = Some row → (id ∈ ids ↔ keep row = true).
Proof.
  unfold sql_mark. intros [= <- _] Ho%entries_perm Hrow. rewrite elem_of_fst_filter. cbn.
  setoid_rewrite Ho. setoid_rewrite elem_of_map_to_list. split.
  - intros (r & Hk%Is_true_true & ?). by simplify_eq.
  - intros Hk%Is_true_true. eauto.
Qed.

(** A worker that is UNAVAILABLE stays so, and is not reported. *)
Lemma wp_MarkStaleWorkers_unavailable a b id row n d :
  pg_workers d !! id = Some row → wr_status row = WorkerStatusUnavailable →
  wp (pg_MarkStaleWorkers a b) (λ r ns,
    pg_workers ns.2 !! id = Some row ∧
    ∀ sus una, r = Ok (sus, una) → ¬ (id ∈ una ∨ id ∈ sus)) (n, d).
Proof.
  intros Hrow Hst. unfold pg_MarkStaleWorkers.
  assert (∀ t, where_dead t row = false) as Hdead
    by (intros t; unfold where_dead; by rewrite Hst).
  assert (∀ t u, where_suspect t u row = false) as Hsus
    by (intros t u; unfold where_suspect; by rewrite Hst).
  wp_steps. apply wp_stmt; [intros; wp_steps; done|]. intros una d1 r Hm Hr.
  pose proof (sql_mark_status _ _ _ _ _ _ _ _ Hm Hrow) as Hrow1. rewrite Hdead in Hrow1.
  eapply sql_mark_ids in Hm; [|apply env_order_perm|done]. rewrite Hdead in Hm.
  destruct Hr as [->|[e ->]]; wp_steps; [|done].
  apply wp_stmt; [intros; wp_steps; done|]. intros sus d2 r Hm2 Hr.
  pose proof (sql_mark_status _ _ _ _ _ _ _ _ Hm2 Hrow1) as Hrow2. rewrite Hsus in Hrow2.
  eapply sql_mark_ids in Hm2; [|apply env_order_perm|done]. rewrite Hsus in Hm2.
  destruct Hr as [->|[e ->]]; wp_steps; split; try done.
  intros ? ? [= <- <-]. rewrite Hm, Hm2. by intros [?|?].
Qed.

(** Dead workers can be hidden for good.  When the first UPDATE of
    [MarkStaleWorkers] succeeds and the second one fails, the call is an error,
    but the workers that were dead are marked UNAVAILABLE; the next call, with
    whatever statements and faults, lists none of them, so that the scheduler
    never recovers their jobs. *)
Lemma pg_stale_hidden a b a' b' n d e :
  let deadBefore := timestamptz (time_add (env_now (1 + n)) (dur_neg (dur_add a b))) in
  pg_fault (3 + n) = Executed → (pg_fault (5 + n) = NotSent e ∨ pg_fault (5 + n) = AnswerLost e) →
  wp (r ← pg_MarkStaleWorkers a b; r' ← pg_MarkStaleWorkers a' b'; mret (r, r'))
    (λ out ns, out.1 = Err e ∧
       ∀ id row, pg_workers d !! id = Some row → where_dead deadBefore row = true →
         (∃ row', pg_workers ns.2 !! id = Some row' ∧ wr_status row' = WorkerStatusUnavailable) ∧
         ∀ sus una, out.2 = Ok (sus, una) → ¬ (id ∈ una ∨ id ∈ sus)) (n, d).
Proof.
  intros deadBefore Hf1 Hf2. wp_step.
  assert (wp (pg_MarkStaleWorkers a b) (λ r ns, r = Err e ∧
    ∀ id row, pg_workers d !! id = Some row → where_dead deadBefore row = true →
      ∃ row', pg_workers ns.2 !! id = Some row' ∧ wr_status row' = WorkerStatusUnavailable) (n, d))
    as Hfirst.
  { unfold pg_MarkStaleWorkers. wp_steps. apply wp_stmt_ok; [done|].
    destruct (sql_mark _ _ WorkerStatusUnavailable d) as [[una d1]|e1] eqn:Hm; [|done]. wp_steps.
    assert (∀ id row, pg_workers d !! id = Some row → where_dead deadBefore row = true →
      pg_workers d1 !! id = Some (set_wr_status WorkerStatusUnavailable row)) as Hd1.
    { intros id row Hrow Hdead. rewrite (sql_mark_status _ _ _ _ _ _ _ _ Hm Hrow).
      change (where_dead _ row) with (where_dead deadBefore row). by rewrite Hdead. }
    unfold stmt. wp_steps.
    destruct Hf2 as [Hf2|Hf2]; cbn in Hf2; rewrite Hf2; cbn beta iota; wp_steps.
    - split; [done|]. intros id row Hrow Hdead. eexists. by split; [eapply Hd1|].
    - destruct (sql_mark _ _ WorkerStatusSuspected d1) as [[sus d2]|e2] eqn:Hm2; [|done]. wp_steps.
      split; [done|]. intros id row Hrow Hdead. eexists.
      split; [eapply sql_mark_status; [done|by apply Hd1]|]. by case_match. }
  eapply wp_mono; [exact Hfirst|]. intros r [n1 d1] [-> Hd1]. cbn in Hd1. wp_step.
  set (m := pg_MarkStaleWorkers a' b').
  assert (wp m (λ r' ns, ∀ id row', pg_workers d1 !! id = Some row' →
    wr_status row' = WorkerStatusUnavailable → pg_workers ns.2 !! id = Some row' ∧
    ∀ sus una, r' = Ok (sus, una) → ¬ (id ∈ una ∨ id ∈ sus)) (n1, d1)) as Hsecond
    by (intros id row' ??; by apply wp_MarkStaleWorkers_unavailable).
  eapply wp_mono; [exact Hsecond|]. intros r' [n2 d2] Hr'. wp_steps. split; [done|].
  intros id row Hrow Hdead. destruct (Hd1 _ _ Hrow Hdead) as (row' & Hrow' & Hst).
  destruct (Hr' _ _ Hrow' Hst) as [? ?]. eauto.
Qed.
End queries.

(** ** On concrete databases *)

#[local] Existing Instance sample_env.
#[local] Existing Instance sample_json.

Section witnesses.
#[local] Existing Instance sample_pg.
#[local] Instance sample_no_faults : NoFaults := λ _, eq_refl.

Lemma pg_lists_as_memory_witness :
  let d := sample_db JobStateScheduled in
  let s := mkMemStore (pg_view d) ∅ ∅ ∅ [] in
  (∃ j1 j2, (mem_ListDueScheduled 1 (1%nat, s)).1 = Ok [j1] ∧
     (pg_ListDueScheduled 1 (0%nat, d)).1 = Ok [j2]) ∧
  lists_agree (due (env_now 1)) 1 (pg_view d)
    (mem_ListDueScheduled 1 (1%nat, s)).1 (pg_ListDueScheduled 1 (0%nat, d)).1 ∧
  lists_agree (timed_out (sample_now 0)) 1 (pg_view d)
    (mem_ListTimedOutRunning (sample_now 0) 1 (1%nat, s)).1
    (pg_ListTimedOutRunning (sample_now 0) 1 (0%nat, d)).1.
Proof.
  intros d s. split; [vm_compute; by eexists _, _|].
  assert (∀ id r, pg_jobs d !! id = Some r → 0 < jr_timeout_ms r * Millisecond < 2 ^ 63) as Hms.
  { intros id r Hr. unfold d in Hr. cbn in Hr.
    rewrite lookup_insert_Some, lookup_singleton_Some in Hr. by destruct Hr as [[_ <-]|(_ & _ & <-)]. }
  assert (∀ k id, pg_locked k id = false) as Hlock by done.
  assert (env_now 1 = pg_now 1) as Hn by done. assert (pg_text "" = true) as Ht by done.
  destruct (pg_lists_as_memory s d 1 0 "" 1 (sample_now 0) eq_refl eq_refl Ht)
    as (_ & Hdue & _ & Hout).
  split; [by apply Hdue|by apply Hout].
Defined.

(** The job of priority 7 comes before the one of priority 5, unless another
    transaction has locked it. *)
Definition locked_pg : Pg := {|
  pg_fault := pg_fault; pg_now := pg_now; pg_locked := λ _ id, bool_decide (id = "j2");
  pg_uuid := pg_uuid; pg_text := pg_text; pg_jsonb := pg_jsonb;
|}.

Lemma pg_due_in_order_witness :
  (result_map (fmap j_ID) (pg_ListDueScheduled (H0 := sample_pg) 10
     (0%nat, sample_db JobStateScheduled)).1 = Ok ["j2"; "j1"]) ∧
  (result_map (fmap j_ID) (pg_ListDueScheduled (H0 := locked_pg) 10
     (0%nat, sample_db JobStateScheduled)).1 = Ok ["j1"]) ∧
  wp (pg_ListDueScheduled (H0 := locked_pg) 10) (λ r _, ∃ l,
    r = Ok ((λ ir, scanJob ir.1 ir.2) <$> l) ∧
    StronglySorted (λ a b, dispatch_order a b) l ∧ "j2" ∉ l.*1) (0%nat, sample_db JobStateScheduled).
Proof.
  split; [by vm_compute|]. split; [by vm_compute|].
  eapply wp_mono; [by apply (pg_due_in_order (H0 := locked_pg) (H2 := λ _, eq_refl) 10)|].
  intros r ns (_ & l & Hr & _ & Hs & _ & Hin & _). exists l. split_and!; [done..|].
  intros ([id row] & Hid & Hir)%list_elem_of_fmap. destruct (Hin _ _ Hir) as (_ & _ & Hlock).
  cbn in Hid. by subst id.
Defined.

(** A cancellation that was recorded while another process updated the job is
    gone: the job is RUNNING again. *)
Lemma pg_lost_update_witness :
  let d := sample_db JobStateAssigned in
  let job := match (pg_read_job "j1" JobStateRunning [] [] (0%nat, d)).1 with
             | Ok (Some j) => j | _ => new_sample_job "" "" 0 end in
  let d1 := (pg_UpdateJobStateIf "j1" JobStateCancelRequested [] [] (1%nat, d)).2.2 in
  (jr_state <$> pg_jobs d1 !! "j1") = Some JobStateCancelRequested ∧
  wp (pg_write_job job) (λ r ns, r = None →
    ∃ row, pg_jobs ns.2 !! "j1" = Some row ∧ scanJob "j1" row = round_times job) (9%nat, d1).
Proof.
  intros d job d1. split; [by vm_compute|].
  destruct (pg_lost_update (H2 := sample_pg_laws (λ _, Executed)) "j1" JobStateRunning [] [] 0 d job d1 9)
    as [_ Hw].
  - apply sample_db_ok.
  - by vm_compute.
  - done.
  - apply rtc_once. unfold d1.
    replace (pg_UpdateJobStateIf "j1" JobStateCancelRequested [] [] (1%nat, d)).2.2
      with (pg_write_job match (pg_read_job "j1" JobStateCancelRequested [] [] (1%nat, d)).1 with
             | Ok (Some j) => j | _ => new_sample_job "" "" 0 end (9%nat, d)).2.2
      by by vm_compute.
    apply pg_step_write_job.
  - exact Hw.
Defined.
End witnesses.

(** The second UPDATE fails while the first made a worker UNAVAILABLE. *)
Lemma pg_stale_hidden_witness :
  let pg := pg_failing 5 in
  let run := (r ← pg_MarkStaleWorkers 0 0; r' ← pg_MarkStaleWorkers 0 0; mret (r, r'))
               (0%nat, sample_db JobStateRunning) in
  run.1 = (Err (External "connection reset"), Ok ([], [])) ∧
  (∃ row, pg_workers run.2.2 !! "w1" = Some row ∧ wr_status row = WorkerStatusUnavailable).
Proof.
  intros pg run. split; [by vm_compute|].
  destruct (pg_stale_hidden 0 0 0 0 0 (sample_db JobStateRunning) (External "connection reset"))
    as [_ Hw]; [done|by left|].
  by edestruct (Hw "w1") as [Hrow _].
Defined.
