(* ===== verification/MemQueue.v ===== *)
(** * internal/queue/memory: the in-process priority queue

    The struct [Queue] with its ready items and its delayed ones, one
    definition per method.  [StartConsumer] is modelled by the round of its
    loop ([consume_one]): the wait on the condition variable is the result
    [Waiting], the return on a closed queue the result [Stopped].  The
    goroutine [releaseDelayed] is modelled by what one tick of its timer does
    ([release_tick]). *)

From S2P Require Import Prelude.
From S2P Require Import Domain.
From S2P Require Import Ports.

Record delayedItem := mkDelayedItem {
  di_job : QueuedJob;
  di_available : time;
}.

Record MemQueue := mkMemQueue {
  mq_items : list QueuedJob;
  mq_closed : bool;
  mq_delayed : list delayedItem;
}.

Definition mq_New : MemQueue := mkMemQueue [] false [].

Definition set_mq_items v (q : MemQueue) : MemQueue :=
  mkMemQueue v (mq_closed q) (mq_delayed q).
Definition set_mq_closed v (q : MemQueue) : MemQueue :=
  mkMemQueue (mq_items q) v (mq_delayed q).
Definition set_mq_delayed v (q : MemQueue) : MemQueue :=
  mkMemQueue (mq_items q) (mq_closed q) v.

(** The index the loop of [insertLocked] stops at. *)
Fixpoint insert_index (job : QueuedJob) (items : list QueuedJob) : nat :=
  match items with
  | [] => 0
  | x :: items' =>
      if bool_decide (q_Priority x < q_Priority job) then 0
      else if bool_decide (q_Priority job = q_Priority x) &&
              Before (q_EnqueuedAt job) (q_EnqueuedAt x) then 0
      else Datatypes.S (insert_index job items')
  end.

(** Appending a zero item, shifting the tail with [copy] and storing at [i]
    inserts the job at [i]. *)
Definition insertLocked (job : QueuedJob) (items : list QueuedJob) : list QueuedJob :=
  let i := insert_index job items in
  take i items ++ job :: drop i items.

(** The filtering loop of [releaseDelayed] on the items and on [remaining]. *)
Fixpoint release_loop (now : time) (ds : list delayedItem) (items : list QueuedJob)
    (remaining : list delayedItem) : list QueuedJob * list delayedItem :=
  match ds with
  | [] => (items, remaining)
  | d :: ds' =>
      if negb (After (di_available d) now)
      then release_loop now ds' (insertLocked (di_job d) items) remaining
      else release_loop now ds' items (remaining ++ [d])
  end.

Section methods.
Context `{Env}.

Definition mq_Enqueue (job : QueuedJob) : M (nat * MemQueue) (option GoError) :=
  q ← getst;
  if mq_closed q then mret (Some ContextCanceled)
  else
    job ← (if IsZero (q_EnqueuedAt job)
           then (now ← ask env_now; mret (set_q_EnqueuedAt now job))
           else mret job);
    upd (λ q, set_mq_items (insertLocked job (mq_items q)) q);;
    mret None.

Definition mq_EnqueueDelay (job : QueuedJob) (delay : Duration) :
    M (nat * MemQueue) (option GoError) :=
  q ← getst;
  if mq_closed q then mret (Some ContextCanceled)
  else if bool_decide (delay ≤ 0) then
    upd (λ q, set_mq_items (insertLocked job (mq_items q)) q);;
    mret None
  else
    now ← ask env_now;
    upd (λ q, set_mq_delayed (mq_delayed q ++ [mkDelayedItem job (time_add now delay)]) q);;
    mret None.

(** One tick; [false] when the goroutine returns. *)
Definition release_tick : M (nat * MemQueue) bool :=
  q ← getst;
  if mq_closed q then mret false
  else
    now ← ask env_now;
    let '(items, remaining) := release_loop now (mq_delayed q) (mq_items q) [] in
    upd (λ q, set_mq_delayed remaining (set_mq_items items q));;
    mret true.

Definition mq_Close : M (nat * MemQueue) (option GoError) :=
  upd (set_mq_closed true);;
  mret None.

#[global] Instance mem_Queue : Queue MemQueue := {
  queue_Enqueue := mq_Enqueue;
  queue_EnqueueDelay := mq_EnqueueDelay;
  queue_Close := mq_Close;
  queue_Name := "memory";
}.

Inductive consumed := Stopped | Waiting | Handled (job : QueuedJob) (err : option GoError).

(** One round of [StartConsumer] with its context alive. *)
Definition consume_one {St V}
    (handler : QueuedJob → M (World St MemQueue V) (option GoError)) :
    M (World St MemQueue V) consumed :=
  q ← callQ getst;
  if mq_closed q then mret Stopped
  else match mq_items q with
  | [] => mret Waiting
  | job :: rest =>
      _ ← callQ (upd (set_mq_items rest));
      err ← handler job;
      match err with
      | Some _ => _ ← callQ (mq_Enqueue job); mret (Handled job err)
      | None => mret (Handled job err)
      end
  end.
End methods.

#[global] Instance mem_QueueView : QueueView MemQueue := {
  ready := mq_items;
  closed := mq_closed;
}.

(** ** Delivery order *)

(** [a] may stand before [b]: a higher priority, or the same one and not
    enqueued later. *)
Definition ahead (a b : QueuedJob) : Prop :=
  q_Priority b < q_Priority a ∨
  (q_Priority a = q_Priority b ∧ q_EnqueuedAt a ≤ q_EnqueuedAt b).

Definition mq_sorted (q : MemQueue) : Prop := StronglySorted ahead (mq_items q).

Lemma ahead_trans a b c : ahead a b → ahead b c → ahead a c.
Proof. unfold ahead. lia. Qed.

Lemma insertLocked_nil job : insertLocked job [] = [job].
Proof. done. Qed.

(** The recursive reading of the insertion. *)
Lemma insertLocked_cons job x items :
  insertLocked job (x :: items) =
    if bool_decide (ahead x job) then x :: insertLocked job items else job :: x :: items.
Proof.
  unfold insertLocked. cbn [insert_index]. unfold ahead, Before.
  repeat case_bool_decide; simpl; first [done|lia].
Qed.

Lemma insertLocked_perm job items : insertLocked job items ≡ₚ job :: items.
Proof.
  unfold insertLocked.
  rewrite <- Permutation_middle, take_drop. done.
Qed.

Lemma insertLocked_sorted job items :
  StronglySorted ahead items → StronglySorted ahead (insertLocked job items).
Proof.
  induction 1 as [|x items Hs IH Hx]; [repeat constructor|].
  rewrite insertLocked_cons. case_bool_decide as Ha.
  - constructor; [done|]. rewrite insertLocked_perm. by constructor.
  - assert (ahead job x) as Hjx by (unfold ahead in *; lia).
    constructor; [by constructor|]. constructor; [done|].
    eapply Forall_impl; [exact Hx|]. intros y. by apply ahead_trans.
Qed.

(** Jobs of the same priority and enqueue time keep their order of arrival. *)
Lemma insertLocked_stable job items :
  StronglySorted ahead items →
  filter (λ x, q_Priority x = q_Priority job ∧ q_EnqueuedAt x = q_EnqueuedAt job)
    (insertLocked job items) =
  filter (λ x, q_Priority x = q_Priority job ∧ q_EnqueuedAt x = q_EnqueuedAt job) items ++ [job].
Proof.
  induction 1 as [|x items Hs IH Hx].
  { rewrite insertLocked_nil, filter_cons_True by done. done. }
  rewrite insertLocked_cons. case_bool_decide as Ha.
  - rewrite !filter_cons, IH. by case_decide.
  - rewrite filter_cons_True by done.
    assert (filter (λ x, q_Priority x = q_Priority job ∧ q_EnqueuedAt x = q_EnqueuedAt job)
              (x :: items) = []) as ->; [|done].
    apply filter_none. apply Forall_cons. unfold ahead in *. split; [lia|].
    eapply Forall_impl; [exact Hx|]. simpl. intros y Hy. unfold ahead in Hy. lia.
Qed.

Lemma release_loop_spec now ds items remaining :
  StronglySorted ahead items →
  let '(items', remaining') := release_loop now ds items remaining in
  StronglySorted ahead items' ∧
  items' ≡ₚ items ++ (di_job <$> filter (λ d, di_available d ≤ now) ds) ∧
  remaining' = remaining ++ filter (λ d, now < di_available d) ds.
Proof.
  revert items remaining. induction ds as [|d ds IH]; intros items remaining Hs; simpl.
  { by rewrite !app_nil_r. }
  unfold After. case_bool_decide as Hd; simpl.
  - specialize (IH items (remaining ++ [d]) Hs).
    destruct (release_loop now ds items (remaining ++ [d])) as [items' rem'].
    rewrite filter_cons_False by lia. rewrite (filter_cons_True _ d) by done.
    destruct IH as (? & ? & ->). by rewrite <- app_assoc.
  - specialize (IH (insertLocked (di_job d) items) remaining (insertLocked_sorted _ _ Hs)).
    destruct (release_loop now ds (insertLocked (di_job d) items) remaining) as [items' rem'].
    rewrite filter_cons_True by lia. rewrite (filter_cons_False _ d) by lia.
    destruct IH as (? & Hp & ->). split_and!; [done| |done].
    rewrite Hp, insertLocked_perm. simpl. by rewrite Permutation_middle.
Qed.

(** ** The queue as a state machine *)

(** What happens to a queue: its methods, the ticks of the delay timer and
    the consumer taking the head. *)
Inductive mq_step `{Env} : MemQueue → MemQueue → Prop :=
  | step_Enqueue n job q : mq_step q (mq_Enqueue job (n, q)).2.2
  | step_EnqueueDelay n job d q : mq_step q (mq_EnqueueDelay job d (n, q)).2.2
  | step_release n q : mq_step q (release_tick (n, q)).2.2
  | step_pop job rest q : mq_items q = job :: rest → mq_step q (set_mq_items rest q)
  | step_Close n q : mq_step q (mq_Close (n, q)).2.2.

Section queue_facts.
Context `{Env}.

Lemma mq_Enqueue_spec job n q :
  wp (mq_Enqueue job) (post n (λ r q',
    if mq_closed q then r = Some ContextCanceled ∧ q' = q
    else r = None ∧ ∃ t, (IsZero (q_EnqueuedAt job) = false → t = q_EnqueuedAt job) ∧
      q' = set_mq_items (insertLocked (set_q_EnqueuedAt t job) (mq_items q)) q)) (n, q).
Proof.
  unfold mq_Enqueue. wp_steps. destruct (mq_closed q) eqn:Hc; [by wp_steps|].
  wp_step. destruct (IsZero (q_EnqueuedAt job)) eqn:Hz; wp_steps; (split; [simpl; lia|]).
  - split; [done|]. exists (env_now n). by split.
  - split; [done|]. exists (q_EnqueuedAt job). split; [done|]. by destruct job.
Qed.

#[global] Instance mem_QueueLaws : QueueLaws MemQueue.
Proof.
  constructor. intros job n q. eapply wp_mono; [apply mq_Enqueue_spec|].
  intros r [n' q'] [Hn Hq]. split; [done|]. revert Hq. cbn.
  destruct (mq_closed q) eqn:Hc; [naive_solver|].
  intros (-> & t & Ht & ->). split_and!; [done|done|].
  exists t. split; [done|]. apply insertLocked_perm.
Qed.

Lemma release_tick_spec n q :
  mq_sorted q →
  wp release_tick (λ r nq,
    if mq_closed q then r = false ∧ nq.2 = q
    else r = true ∧ mq_sorted nq.2 ∧ mq_closed nq.2 = false ∧
      mq_items nq.2 ≡ₚ mq_items q ++
        (di_job <$> filter (λ d, di_available d ≤ env_now n) (mq_delayed q)) ∧
      mq_delayed nq.2 = filter (λ d, env_now n < di_available d) (mq_delayed q)) (n, q).
Proof.
  intros Hs. unfold release_tick. wp_steps.
  destruct (mq_closed q) eqn:Hc; wp_steps; [done|].
  pose proof (release_loop_spec (env_now n) (mq_delayed q) (mq_items q) [] Hs) as Hr.
  destruct (release_loop _ _ _ _) as [items' rem']. destruct Hr as (? & ? & ->).
  wp_steps. by split_and!.
Qed.

Lemma mq_step_sorted q q' : mq_step q q' → mq_sorted q → mq_sorted q'.
Proof.
  unfold mq_sorted. intros Hstep Hs. destruct Hstep as [n job q|n job d q|n q|job rest q E|n q].
  - pose proof (mq_Enqueue_spec job n q) as Hq. unfold wp, post in Hq. apply proj2 in Hq.
    destruct (mq_closed q); [by destruct Hq as [_ ->]|].
    destruct Hq as (_ & t & _ & ->). by apply insertLocked_sorted.
  - unfold mq_EnqueueDelay, mbind, M_bind, getst. simpl.
    destruct (mq_closed q); [done|]. case_bool_decide; [|done].
    by apply insertLocked_sorted.
  - pose proof (release_tick_spec n q Hs) as Hq. unfold wp in Hq.
    destruct (mq_closed q); [by destruct Hq as [_ ->]|]. apply Hq.
  - rewrite E in Hs. by inversion Hs.
  - done.
Qed.
End queue_facts.
