(* ===== verification/Kafka.v ===== *)
(** * internal/queue/kafka: the job queue on Kafka

    The struct [Queue] and its methods over a Kafka client, which is a
    parameter: a log of values per partition, a reader with a position per
    partition and the offsets its consumer group has committed
    ([KafkaClientLaws], the documented behaviour of a group reader with manual
    commits).  [StartConsumer] is modelled by the round of its loop, the
    goroutine of [EnqueueDelay] by an entry of [kq_timers] until its timer
    fires or its context ends. *)

From stdpp Require Import pretty.
From S2P Require Import Prelude.
From S2P Require Import Domain.
From S2P Require Import Ports.
From S2P Require Import MemQueue.

(** kafka.Message as the writer gets it, and as the reader returns it. *)
Record OutMessage := mkOutMessage {
  om_Key : string;
  om_Value : string;
  om_Headers : list (string * string);
  om_Time : time;
}.

Record InMessage := mkInMessage {
  im_Partition : nat;
  im_Offset : nat;
  im_Value : string;
}.

(** ** The Kafka client and the codec *)

Class KafkaClient (K : Type) := {
  kafka_WriteMessages : OutMessage → M (nat * K) (option GoError);
  kafka_FetchMessage : M (nat * K) (result InMessage);
  kafka_CommitMessages : list InMessage → M (nat * K) (option GoError);
  kafka_CloseWriter : M (nat * K) (option GoError);
}.

(** The values of each partition, the offset the reader fetches next and the
    offset the group has committed. *)
Class KafkaView (K : Type) := {
  klog : K → nat → list string;
  kpos : K → nat → nat;
  kcommitted : K → nat → nat;
}.

(** Other producers append at any time. *)
Definition log_grows {K} `{KafkaView K} (k k' : K) : Prop :=
  ∀ p, klog k p `prefix_of` klog k' p.

(** The committed offset of partition [p] after a commit of [msgs] on top of
    [c]: one past the last of them. *)
Definition commit_offset (msgs : list InMessage) (p c : nat) : nat :=
  match filter (λ m, im_Partition m = p) msgs with
  | [] => c
  | ms => S (max_list (im_Offset <$> ms))
  end.

Class KafkaClientLaws (K : Type) `{KafkaClient K, KafkaView K} : Prop := {
  Write_spec m n k :
    wp (kafka_WriteMessages m) (post n (λ r k', log_grows k k' ∧
      kpos k' = kpos k ∧ kcommitted k' = kcommitted k ∧
      (r = None → ∃ p, klog k p ++ [om_Value m] `prefix_of` klog k' p))) (n, k);
  Fetch_spec n k :
    wp kafka_FetchMessage (post n (λ r k', log_grows k k' ∧ kcommitted k' = kcommitted k ∧
      match r with
      | Err _ => kpos k' = kpos k
      | Ok m =>
          im_Offset m = kpos k (im_Partition m) ∧
          klog k' (im_Partition m) !! im_Offset m = Some (im_Value m) ∧
          ∀ p, kpos k' p = if bool_decide (p = im_Partition m) then S (kpos k p) else kpos k p
      end)) (n, k);
  Commit_spec msgs n k :
    wp (kafka_CommitMessages msgs) (post n (λ r k', log_grows k k' ∧ kpos k' = kpos k ∧
      ∀ p, kcommitted k' p = commit_offset msgs p (kcommitted k p) ∨
           (r ≠ None ∧ kcommitted k' p = kcommitted k p))) (n, k);
  CloseWriter_spec n k :
    wp kafka_CloseWriter (post n (λ _ k', k' = k)) (n, k);
}.

(** encoding/json on [domain.QueuedJob].  [portable] are the values JSON can
    carry: valid UTF-8 strings and years up to 9999. *)
Class JobCodec := {
  json_Marshal : QueuedJob → result string;
  json_Unmarshal : string → result QueuedJob;
  portable : QueuedJob → Prop;
  json_Marshal_portable job : portable job → ∃ b, json_Marshal job = Ok b;
  json_roundtrip job b : portable job → json_Marshal job = Ok b → json_Unmarshal b = Ok job;
}.

(** ** The queue *)

(** kafka.Config *)
Record KafkaQueueConfig := mkKafkaQueueConfig {
  kqc_Brokers : list string;
  kqc_Topic : string;
  kqc_Group : string;
}.

Record KafkaQueue (K : Type) := mkKafkaQueue {
  kq_cfg : KafkaQueueConfig;
  kq_client : K;
  kq_closed : bool;
  kq_timers : list delayedItem;
}.
Arguments mkKafkaQueue {K} _ _ _ _.
Arguments kq_cfg {K} _.
Arguments kq_client {K} _.
Arguments kq_closed {K} _.
Arguments kq_timers {K} _.

Section kafka.
Context `{Env, JobCodec} {K : Type} `{KafkaClient K}.

Definition set_kq_timers (v : list delayedItem) (q : KafkaQueue K) : KafkaQueue K :=
  mkKafkaQueue (kq_cfg q) (kq_client q) (kq_closed q) v.
Definition set_kq_closed (v : bool) (q : KafkaQueue K) : KafkaQueue K :=
  mkKafkaQueue (kq_cfg q) (kq_client q) v (kq_timers q).

(** A call of the client. *)
Definition callK {A} (m : M (nat * K) A) : M (nat * KafkaQueue K) A := λ nq,
  match nq with
  | (n, q) =>
      match m (n, kq_client q) with
      | (a, (n', k')) => (a, (n', mkKafkaQueue (kq_cfg q) k' (kq_closed q) (kq_timers q)))
      end
  end.

(** The writer of the client is the one [New] builds for the topic. *)
Definition kafka_New (cfg : KafkaQueueConfig) (client : K) : result (KafkaQueue K) :=
  match kqc_Brokers cfg with
  | [] => Err (Errorf "kafka queue: brokers required" [])
  | brokers =>
      let topic := if bool_decide (kqc_Topic cfg = "") then "chronos.jobs" else kqc_Topic cfg in
      let group := if bool_decide (kqc_Group cfg = "") then "chronos-scheduler"
                   else kqc_Group cfg in
      Ok (mkKafkaQueue (mkKafkaQueueConfig brokers topic group) client false [])
  end.

(** [fmt.Sprintf("%d", n)] *)
Definition decimal (z : Z) : string := pretty z.

Definition kafka_Enqueue (job : QueuedJob) : M (nat * KafkaQueue K) (option GoError) :=
  q ← getst;
  if kq_closed q then mret (Some (Errorf "kafka queue closed" []))
  else
    job ← (if IsZero (q_EnqueuedAt job)
           then (now ← ask env_now; mret (set_q_EnqueuedAt now job))
           else mret job);
    match json_Marshal job with
    | Err e => mret (Some e)
    | Ok body =>
        now ← ask env_now;
        callK (kafka_WriteMessages (mkOutMessage (q_JobID job) body
          [("priority", decimal (q_Priority job)); ("job_id", q_JobID job)] now))
    end.

Definition kafka_EnqueueDelay (job : QueuedJob) (delay : Duration) :
    M (nat * KafkaQueue K) (option GoError) :=
  if bool_decide (delay ≤ 0) then kafka_Enqueue job
  else
    now ← ask env_now;
    upd (λ q, set_kq_timers (kq_timers q ++ [mkDelayedItem job (time_add now delay)]) q);;
    mret None.

(** The goroutine of the [i]-th delayed job: its timer fires (the error of
    [Enqueue] is dropped), or its context ends first. *)
Definition timer_fires (i : nat) : M (nat * KafkaQueue K) () :=
  q ← getst;
  match kq_timers q !! i with
  | None => mret ()
  | Some d =>
      upd (set_kq_timers (delete i (kq_timers q)));;
      _ ← kafka_Enqueue (di_job d);
      mret ()
  end.

Definition timer_cancelled (i : nat) : M (nat * KafkaQueue K) () :=
  upd (λ q, set_kq_timers (delete i (kq_timers q)) q).

Definition kafka_Close : M (nat * KafkaQueue K) (option GoError) :=
  upd (set_kq_closed true);;
  callK kafka_CloseWriter.

#[global] Instance kafka_Queue : Queue (KafkaQueue K) := {
  queue_Enqueue := kafka_Enqueue;
  queue_EnqueueDelay := kafka_EnqueueDelay;
  queue_Close := kafka_Close;
  queue_Name := "kafka";
}.

(** What a round of [StartConsumer] came to: the loop returns because the
    fetch or the commit failed, or it goes on after a message that is no job,
    one whose handler failed or one that was handled. *)
Inductive round :=
  | FetchFailed (e : GoError)
  | Poison (m : InMessage)
  | Refused (m : InMessage) (job : QueuedJob) (e : GoError)
  | CommitFailed (m : InMessage) (job : QueuedJob) (e : GoError)
  | Accepted (m : InMessage) (job : QueuedJob).

(** [ctxErr] is [ctx.Err()] when a fetch fails. *)
Definition kafka_round {St V} (ctxErr : option GoError)
    (handler : QueuedJob → M (World St (KafkaQueue K) V) (option GoError)) :
    M (World St (KafkaQueue K) V) round :=
  msg ← callQ (callK kafka_FetchMessage);
  match msg with
  | Err err => mret (FetchFailed (default err ctxErr))
  | Ok msg =>
      match json_Unmarshal (im_Value msg) with
      | Err _ => _ ← callQ (callK (kafka_CommitMessages [msg])); mret (Poison msg)
      | Ok job =>
          err ← handler job;
          match err with
          | Some e => mret (Refused msg job e)
          | None =>
              err ← callQ (callK (kafka_CommitMessages [msg]));
              match err with
              | Some e => mret (CommitFailed msg job e)
              | None => mret (Accepted msg job)
              end
          end
      end
  end.
End kafka.

(** ** The consumer and the offsets *)

(** The message a round fetched. *)
Definition fetched (r : round) : option InMessage :=
  match r with
  | FetchFailed _ => None
  | Poison m | Refused m _ _ | CommitFailed m _ _ | Accepted m _ => Some m
  end.

Lemma commit_offset_one m p c :
  commit_offset [m] p c = if bool_decide (p = im_Partition m) then S (im_Offset m) else c.
Proof.
  unfold commit_offset. rewrite filter_cons. case_decide as Hp.
  - rewrite bool_decide_true by done. simpl. by rewrite Nat.max_0_r.
  - by rewrite bool_decide_false.
Qed.

Section consumer.
Context `{Env, JobCodec} {K : Type} `{!KafkaClient K, !KafkaView K, !KafkaClientLaws K}.

#[global] Instance log_grows_preorder : PreOrder (log_grows (K := K)).
Proof. split; [by intros k p|]. intros k1 k2 k3 H1 H2 p. etrans; [apply H1|apply H2]. Qed.

(** A step that leaves the reader and the committed offsets alone. *)
Definition keeps_reader (k k' : K) : Prop :=
  log_grows k k' ∧ kpos k' = kpos k ∧ kcommitted k' = kcommitted k.

(** What a round does to the reader. *)
Definition round_post (r : round) (k k' : K) : Prop :=
  log_grows k k' ∧
  match fetched r with
  | None => kpos k' = kpos k ∧ kcommitted k' = kcommitted k
  | Some m =>
      im_Offset m = kpos k (im_Partition m) ∧
      klog k' (im_Partition m) !! im_Offset m = Some (im_Value m) ∧
      (∀ p, kpos k' p = if bool_decide (p = im_Partition m) then S (kpos k p) else kpos k p) ∧
      (∀ p, kcommitted k' p = kcommitted k p ∧ (∀ m' j', r ≠ Accepted m' j' ∨ p ≠ im_Partition m) ∨
            kcommitted k' p = S (im_Offset m) ∧ p = im_Partition m ∧ (∀ m' j' e, r ≠ Refused m' j' e))
  end ∧
  match r with
  | FetchFailed _ => True
  | Poison m => ∃ e, json_Unmarshal (im_Value m) = Err e
  | Refused m job _ | CommitFailed m job _ | Accepted m job => json_Unmarshal (im_Value m) = Ok job
  end.

Lemma log_lookup (k k' : K) p i v :
  log_grows k k' → klog k p !! i = Some v → klog k' p !! i = Some v.
Proof. intros Hg Hi. eapply prefix_lookup_Some; [exact Hi|apply Hg]. Qed.

Context {St V : Type}.
#[local] Abbreviation W := (World St (KafkaQueue K) V).
Definition client (w : W) : K := kq_client (g_queue w).

(** The handler does not consume by itself. *)
Definition leaves_reader (handler : QueuedJob → M W (option GoError)) : Prop :=
  ∀ job w, wp (handler job) (λ _ w', keeps_reader (client w) (client w')) w.

(** A call of the client changes the client only. *)
Lemma wp_callK_frame {A} (m : M (nat * K) A) (P : A → K → Prop) (Q : A → W → Prop) (w : W) :
  wp m (post (g_tick w) P) (g_tick w, client w) →
  (∀ a w', P a (client w') → g_store w' = g_store w → g_svc w' = g_svc w → Q a w') →
  wp (callQ (callK m)) Q w.
Proof.
  destruct w as [n s [cfg k c ts] v ev rp]. unfold wp, post, callQ, callK, client. simpl.
  destruct (m (n, k)) as [a [n' k']]. intros [_ HP] HQ. by apply HQ.
Qed.

Lemma wp_callK {A} (m : M (nat * K) A) (P : A → K → Prop) (Q : A → W → Prop) (w : W) :
  wp m (post (g_tick w) P) (g_tick w, client w) →
  (∀ a w', P a (client w') → Q a w') →
  wp (callQ (callK m)) Q w.
Proof. intros Hm HQ. eapply wp_callK_frame; eauto. Qed.

Lemma wp_kafka_round ctxErr handler (w : W) :
  leaves_reader handler →
  wp (kafka_round ctxErr handler) (λ r w', round_post r (client w) (client w')) w.
Proof.
  intros Hh. unfold kafka_round. apply wp_bind. eapply wp_callK; [apply Fetch_spec|].
  intros [m|e] w1 (Hg & Hc & Hm); [|by apply wp_ret]. cbn beta in Hm.
  destruct Hm as (Hoff & Hlog & Hpos).
  assert (∀ r w2 w3, keeps_reader (client w1) (client w2) → fetched r = Some m →
    log_grows (client w2) (client w3) → kpos (client w3) = kpos (client w2) →
    (∀ p, kcommitted (client w3) p = kcommitted (client w2) p ∧
            (∀ m' j', r ≠ Accepted m' j' ∨ p ≠ im_Partition m) ∨
          kcommitted (client w3) p = S (im_Offset m) ∧ p = im_Partition m ∧
            (∀ m' j' e, r ≠ Refused m' j' e)) →
    match r with
    | FetchFailed _ => True
    | Poison m => ∃ e, json_Unmarshal (im_Value m) = Err e
    | Refused m job _ | CommitFailed m job _ | Accepted m job =>
        json_Unmarshal (im_Value m) = Ok job
    end →
    round_post r (client w) (client w3)) as Hdone.
  { intros r w2 w3 (Hg2 & Hp2 & Hc2) Hf Hg3 Hp3 Hcm Hr. split; [by do 2 (etrans; [eassumption|])|].
    split; [|done]. rewrite Hf. split; [done|]. split; [by do 2 (eapply log_lookup; [eassumption|])|].
    split; [intros p; by rewrite Hp3, Hp2|]. intros p. rewrite <- Hc, <- Hc2. apply Hcm. }
  assert (∀ msgs r (w2 w3 : W), msgs = [m] →
    log_grows (client w2) (client w3) ∧ kpos (client w3) = kpos (client w2) ∧
      (∀ p, kcommitted (client w3) p = commit_offset msgs p (kcommitted (client w2) p) ∨
            (r ≠ None ∧ kcommitted (client w3) p = kcommitted (client w2) p)) →
    ∀ p, (r ≠ @None GoError ∨ p ≠ im_Partition m) ∧ kcommitted (client w3) p = kcommitted (client w2) p ∨
         kcommitted (client w3) p = S (im_Offset m) ∧ p = im_Partition m) as Hcommit.
  { intros msgs r w2 w3 -> (_ & _ & Hcm) p. specialize (Hcm p). rewrite commit_offset_one in Hcm.
    case_bool_decide; naive_solver. }
  destruct (json_Unmarshal (im_Value m)) as [job|e] eqn:Hj.
  - apply wp_bind. eapply wp_mono; [apply Hh|]. intros [e|] w2 Hk2.
    + apply wp_ret. apply (Hdone _ w2 w2); try done. intros p. left. split; [done|]. by left.
    + apply wp_bind. eapply wp_callK; [apply Commit_spec|]. intros r w3 Hcm.
      specialize (Hcommit [m] r w2 w3 eq_refl Hcm). destruct Hcm as (Hg3 & Hp3 & _).
      destruct r as [e|]; apply wp_ret; apply (Hdone _ w2 w3); try done; intros p;
        destruct (Hcommit p) as [[Hr Hp]|[Hp ->]]; naive_solver.
  - apply wp_bind. eapply wp_callK; [apply Commit_spec|]. intros r w3 Hcm.
    specialize (Hcommit [m] r w1 w3 eq_refl Hcm). destruct Hcm as (Hg3 & Hp3 & _).
    apply wp_ret. apply (Hdone _ w1 w3); try done; [|by eauto].
    intros p. destruct (Hcommit p) as [[Hr Hp]|[Hp ->]]; naive_solver.
Qed.
End consumer.
