(* ===== verification/KafkaFixture.v ===== *)
(** * A concrete Kafka broker

    One partition, and a network that never fails: the client on which the
    theorems about the Kafka queue and the analytics consumer are applied in
    their witnesses. *)

From Stdlib Require Import Ascii.
From stdpp Require Import countable.
From S2P Require Import Prelude.
From S2P Require Import Domain.
From S2P Require Import Ports.
From S2P Require Import Kafka.

(** One partition, and a network that never fails. *)
Record Broker := mkBroker {
  br_log : list string;
  br_pos : nat;
  br_committed : nat → nat;
}.

Definition broker_write (m : OutMessage) : M (nat * Broker) (option GoError) :=
  upd (λ b, mkBroker (br_log b ++ [om_Value m]) (br_pos b) (br_committed b));; mret None.

Definition broker_fetch : M (nat * Broker) (result InMessage) :=
  b ← getst;
  match br_log b !! br_pos b with
  | None => mret (Err DeadlineExceeded)
  | Some v =>
      upd (λ b, mkBroker (br_log b) (S (br_pos b)) (br_committed b));;
      mret (Ok (mkInMessage 0 (br_pos b) v))
  end.

Definition broker_commit (msgs : list InMessage) : M (nat * Broker) (option GoError) :=
  upd (λ b, mkBroker (br_log b) (br_pos b)
    (λ p, commit_offset msgs p (br_committed b p)));; mret None.

#[global] Instance broker_client : KafkaClient Broker := {
  kafka_WriteMessages := broker_write;
  kafka_FetchMessage := broker_fetch;
  kafka_CommitMessages := broker_commit;
  kafka_CloseWriter := mret None;
}.

#[global] Instance broker_view : KafkaView Broker := {
  klog b p := if bool_decide (p = 0%nat) then br_log b else [];
  kpos b p := if bool_decide (p = 0%nat) then br_pos b else 0%nat;
  kcommitted := br_committed;
}.

#[global] Instance broker_laws : KafkaClientLaws Broker.
Proof.
  split.
  - intros m n b. cbn. unfold broker_write. wp_steps. split; [cbn; lia|]. cbn. split_and!; try done.
    + intros p. cbn. case_bool_decide; [by eexists|done].
    + intros _. by exists 0%nat.
  - intros n b. cbn. unfold broker_fetch. wp_steps.
    destruct (br_log b !! br_pos b) as [v|] eqn:E; wp_steps; (split; [cbn; lia|]); cbn;
      split_and!; try done; try (intros p; by case_bool_decide); by intros p.
  - intros msgs n b. cbn. unfold broker_commit. wp_steps. split; [cbn; lia|]. cbn. split_and!; try done.
    + by intros p.
    + intros p. by left.
  - intros n b. cbn. by wp_steps.
Qed.

(** ** An encoding of all jobs

    A job is a number, and a number is a string of digits. *)

#[global] Instance QueuedJob_countable : Countable QueuedJob.
Proof.
  apply (inj_countable'
    (λ q, (q_JobID q, q_ExecutionID q, q_Name q, q_Type q, q_Payload q, q_Priority q, q_Attempt q,
           q_Timeout q, q_EnqueuedAt q, q_TraceID q))
    (λ '(a, b, c, d, e, f, g, h, i, j), mkQueuedJob a b c d e f g h i j)).
  by intros [].
Defined.

Fixpoint bits (p : positive) : string :=
  match p with
  | xH => "e"
  | xO p => String.String "0"%char (bits p)
  | xI p => String.String "1"%char (bits p)
  end.

Fixpoint of_bits (s : string) : option positive :=
  match s with
  | String.String "e"%char String.EmptyString => Some xH
  | String.String "0"%char s => xO <$> of_bits s
  | String.String "1"%char s => xI <$> of_bits s
  | _ => None
  end.

Lemma of_bits_bits p : of_bits (bits p) = Some p.
Proof. induction p as [p IH|p IH|]; cbn; by rewrite ?IH. Qed.

Definition bits_codec : JobCodec.
Proof.
  refine {|
    json_Marshal job := Ok (bits (encode job));
    json_Unmarshal s := match of_bits s ≫= decode with
                        | Some job => Ok job
                        | None => Err (External "unexpected end of JSON input")
                        end;
    portable _ := True |}.
  - by eexists.
  - intros job b _ [= <-]. rewrite of_bits_bits. cbn [mbind option_bind]. by rewrite decode_encode.
Defined.
