(* ===== verification/Ingest.v ===== *)
(** * internal/analytics: domain events from Kafka into ClickHouse

    The loop of [consumeTopic] of consumer.go and [InsertEvents] of
    clickhouse.go.  The Kafka reader is the client of Kafka.v; the ClickHouse
    driver, the decoding of an event and [uuid.Parse] are parameters
    ([ClickHouse]).  A round of the loop, and the flush when its context ends,
    are the steps of the consumer. *)

From S2P Require Import Prelude.
From S2P Require Import Domain.
From S2P Require Import Ports.
From S2P Require Import Fixture.
From S2P Require Import Kafka.
From S2P Require Import KafkaFixture.

(** domain.Event as it is decoded from JSON: any text may stand for the type,
    and the payload is the raw text, empty when absent. *)
Record InEvent := mkInEvent {
  ie_EventID : string;
  ie_EventType : string;
  ie_EventVersion : Z;
  ie_EventTime : time;
  ie_JobID : string;
  ie_ExecutionID : string;
  ie_WorkerID : string;
  ie_SchedulerID : string;
  ie_Attempt : Z;
  ie_TraceID : string;
  ie_Payload : string;
}.

(** The columns [InsertEvents] appends, in their order. *)
Record EventRow := mkEventRow {
  row_event_id : string;
  row_event_type : string;
  row_event_version : Z;
  row_event_time : time;
  row_ingested_at : time;
  row_job_id : string;
  row_execution_id : string;
  row_worker_id : string;
  row_scheduler_id : string;
  row_attempt : Z;
  row_trace_id : string;
  row_payload : string;
}.

(** [uuid_Parse] is the normal form of a UUID, if the text is one.
    [ch_Append] may reject a row, [ch_Send] returns the rows that were written
    and its error.  Documented: without an error all rows are written. *)
Class ClickHouse := {
  event_Unmarshal : string → result InEvent;
  uuid_Parse : string → option string;
  ch_PrepareBatch : nat → option GoError;
  ch_Append : nat → EventRow → option GoError;
  ch_Send : nat → list EventRow → list EventRow * option GoError;
  ch_Send_ok n rows : (ch_Send n rows).2 = None → (ch_Send n rows).1 = rows;
}.

Definition uint16 (z : Z) : Z := z `mod` 2 ^ 16.
Definition uint32 (z : Z) : Z := z `mod` 2 ^ 32.

Definition row_of (now : time) (id : string) (e : InEvent) : EventRow :=
  mkEventRow id (ie_EventType e) (uint16 (ie_EventVersion e))
    (if IsZero (ie_EventTime e) then now else ie_EventTime e) now
    (ie_JobID e) (ie_ExecutionID e) (ie_WorkerID e) (ie_SchedulerID e)
    (uint32 (ie_Attempt e)) (ie_TraceID e)
    (if bool_decide (ie_Payload e = "") then "{}" else ie_Payload e).

(** The consumer of one topic: its reader, the table it writes to, and the
    slices [buf] and [msgs]. *)
Record Ingest (K : Type) := mkIngest {
  ig_client : K;
  ig_table : list EventRow;
  ig_buf : list InEvent;
  ig_msgs : list InMessage;
}.
Arguments mkIngest {K} _ _ _ _.
Arguments ig_client {K} _.
Arguments ig_table {K} _.
Arguments ig_buf {K} _.
Arguments ig_msgs {K} _.

Section ingest.
Context `{Env, ClickHouse} {K : Type} `{KafkaClient K}.

Definition callI {A} (m : M (nat * K) A) : M (nat * Ingest K) A := λ ns,
  match ns with
  | (n, s) =>
      match m (n, ig_client s) with
      | (a, (n', k')) => (a, (n', mkIngest k' (ig_table s) (ig_buf s) (ig_msgs s)))
      end
  end.

Definition sendI (rows : list EventRow) : M (nat * Ingest K) (option GoError) := λ ns,
  match ns with
  | (n, s) =>
      match ch_Send n rows with
      | (out, err) =>
          (err, (S n, mkIngest (ig_client s) (ig_table s ++ out) (ig_buf s) (ig_msgs s)))
      end
  end.

(** The loop of [InsertEvents]; a text that is no UUID gets a new one. *)
Fixpoint append_rows (now : time) (events : list InEvent) (rows : list EventRow) :
    M (nat * Ingest K) (result (list EventRow)) :=
  match events with
  | [] => mret (Ok rows)
  | e :: events' =>
      id ← (match uuid_Parse (ie_EventID e) with
            | Some id => mret id
            | None => ask env_uuid
            end);
      err ← ask (λ n, ch_Append n (row_of now id e));
      match err with
      | Some err => mret (Err err)
      | None => append_rows now events' (rows ++ [row_of now id e])
      end
  end.

Definition InsertEvents (events : list InEvent) : M (nat * Ingest K) (option GoError) :=
  match events with
  | [] => mret None
  | _ =>
      err ← ask ch_PrepareBatch;
      match err with
      | Some e => mret (Some e)
      | None =>
          now ← ask env_now;
          rows ← append_rows now events [];
          match rows with
          | Err e => mret (Some e)
          | Ok rows => sendI rows
          end
      end
  end.

Definition ingest_flush : M (nat * Ingest K) (option GoError) :=
  s ← getst;
  match ig_buf s with
  | [] => mret None
  | buf =>
      err ← InsertEvents buf;
      match err with
      | Some e => mret (Some e)
      | None =>
          err ← callI (kafka_CommitMessages (ig_msgs s));
          match err with
          | Some e => mret (Some e)
          | None =>
              upd (λ s, mkIngest (ig_client s) (ig_table s) [] []);;
              mret None
          end
      end
  end.

(** [NewConsumer] *)
Definition consumer_batch : nat := 100.

(** One round of the loop of [consumeTopic] with its context alive; [ticked]
    says whether the ticker fired. *)
Definition ingest_round (ticked : bool) : M (nat * Ingest K) () :=
  _ ← (if ticked then ingest_flush else mret None);
  msg ← callI kafka_FetchMessage;
  match msg with
  | Err _ => mret ()
  | Ok msg =>
      match event_Unmarshal (im_Value msg) with
      | Err _ => _ ← callI (kafka_CommitMessages [msg]); mret ()
      | Ok ev =>
          if bool_decide (ie_EventID ev = "")
          then _ ← callI (kafka_CommitMessages [msg]); mret ()
          else
            upd (λ s, mkIngest (ig_client s) (ig_table s) (ig_buf s ++ [ev]) (ig_msgs s ++ [msg]));;
            s ← getst;
            if bool_decide (consumer_batch ≤ length (ig_buf s))%nat
            then _ ← ingest_flush; mret ()
            else mret ()
      end
  end.

Inductive ingest_step : Ingest K → Ingest K → Prop :=
  | step_ingest n ticked s : ingest_step s (ingest_round ticked (n, s)).2.2
  | step_stop n s : ingest_step s (ingest_flush (n, s)).2.2.
End ingest.

(** ** Events reach the table *)

Section delivery.
Context `{Env, ClickHouse} {K : Type} `{!KafkaClient K, !KafkaView K, !KafkaClientLaws K}.
#[local] Abbreviation I := (Ingest K).

(** [v] is the JSON of an event with an identifier; other values are skipped. *)
Definition holds_event (v : string) (e : InEvent) : Prop :=
  event_Unmarshal v = Ok e ∧ ie_EventID e ≠ "".

(** A row of the table has the fields of [e], and its identifier if that is a
    UUID. *)
Definition inserted (e : InEvent) (table : list EventRow) : Prop :=
  ∃ now id, row_of now id e ∈ table ∧ ∀ i, uuid_Parse (ie_EventID e) = Some i → id = i.

(** All values of the partition are events. *)
Definition clean (k : K) (p : nat) : Prop := ∀ v, v ∈ klog k p → ∃ e, holds_event v e.

Lemma inserted_app e table more : inserted e table → inserted e (table ++ more).
Proof. intros (now & id & Hin & Hid). exists now, id. split; [set_solver|done]. Qed.

Lemma wp_callI {A} (m : M (nat * K) A) (P : A → K → Prop) (Q : A → nat * I → Prop) n (s : I) :
  wp m (post n P) (n, ig_client s) →
  (∀ a n' k', P a k' → Q a (n', mkIngest k' (ig_table s) (ig_buf s) (ig_msgs s))) →
  wp (callI m) Q (n, s).
Proof.
  unfold wp, post, callI. destruct (m (n, ig_client s)) as [a [n' k']]. intros [_ HP] HQ.
  by apply HQ.
Qed.

(** A row for an event. *)
Definition row_for (e : InEvent) (r : EventRow) : Prop :=
  ∃ now id, (∀ i, uuid_Parse (ie_EventID e) = Some i → id = i) ∧ r = row_of now id e.

Lemma row_for_inserted events out table :
  Forall2 row_for events out → ∀ e, e ∈ events → inserted e (table ++ out).
Proof.
  intros Hf e [i Hi]%list_elem_of_lookup.
  destruct (Forall2_lookup_l _ _ _ _ _ Hf Hi) as (r & Hr & now & id & Hid & ->).
  exists now, id. split; [|done]. apply elem_of_app. right. by eapply list_elem_of_lookup_2.
Qed.

Lemma wp_append_rows now events rows n (s : I) :
  wp (append_rows now events rows) (λ r ns', ns'.2 = s ∧ ∀ rs, r = Ok rs →
    ∃ out, rs = rows ++ out ∧ Forall2 row_for events out) (n, s).
Proof.
  revert rows n. induction events as [|e events IH]; intros rows n; cbn [append_rows].
  { wp_steps. split; [done|]. intros rs [= <-]. exists []. by rewrite app_nil_r. }
  wp_step.
  assert (∀ id n, (∀ i, uuid_Parse (ie_EventID e) = Some i → id = i) →
    wp (err ← ask (λ n, ch_Append n (row_of now id e));
        match err with
        | Some err => mret (Err err)
        | None => append_rows now events (rows ++ [row_of now id e])
        end) (λ r ns', ns'.2 = s ∧ ∀ rs, r = Ok rs →
      ∃ out, rs = rows ++ out ∧ Forall2 row_for (e :: events) out) (n, s)) as Hgo.
  { intros id n' Hid. wp_steps. destruct (ch_Append _ _); [by wp_steps|].
    eapply wp_mono; [apply IH|]. intros r ns' [-> Hr]. split; [done|]. intros rs Hrs.
    destruct (Hr rs Hrs) as (out & -> & Hout). exists (row_of now id e :: out).
    rewrite <- app_assoc. split; [done|]. constructor; [by exists now, id|done]. }
  destruct (uuid_Parse (ie_EventID e)) as [id|] eqn:Hid.
  - wp_step. apply Hgo. congruence.
  - wp_step. by apply Hgo.
Qed.

Lemma wp_InsertEvents events n (s : I) :
  wp (InsertEvents events) (λ r ns', ∃ out,
    ns'.2 = mkIngest (ig_client s) (ig_table s ++ out) (ig_buf s) (ig_msgs s) ∧
    (r = None → Forall2 row_for events out)) (n, s).
Proof.
  assert (s = mkIngest (ig_client s) (ig_table s ++ []) (ig_buf s) (ig_msgs s)) as Hnil
    by (rewrite app_nil_r; by destruct s).
  unfold InsertEvents. destruct events as [|e0 events0].
  { wp_steps. exists []. split; [done|]. by constructor. }
  set (events := e0 :: events0). wp_steps. destruct (ch_PrepareBatch n); [wp_steps; by exists []|].
  wp_steps. eapply wp_mono; [apply wp_append_rows|]. intros r [n' s'] [Hs Hr]. cbn in Hs. subst s'.
  destruct r as [rs|e]; [|wp_steps; by exists []]. destruct (Hr rs eq_refl) as (out & -> & Hins).
  unfold wp, sendI. pose proof (ch_Send_ok n' out) as Hok. cbn [app] in *.
  destruct (ch_Send n' out) as [sent err]. cbn in *. exists sent. split; [done|].
  intros Herr. by rewrite (Hok Herr).
Qed.

Context (start : nat → nat).

Record ingest_inv (s : I) : Prop := {
  inv_buf : Forall2 (λ e m, event_Unmarshal (im_Value m) = Ok e) (ig_buf s) (ig_msgs s);
  inv_msgs m : m ∈ ig_msgs s →
    (start (im_Partition m) ≤ im_Offset m < kpos (ig_client s) (im_Partition m))%nat;
  inv_log p : (start p ≤ kcommitted (ig_client s) p ≤ kpos (ig_client s) p)%nat ∧
    (kpos (ig_client s) p ≤ length (klog (ig_client s) p))%nat;
  inv_seen p o v e : (start p ≤ o < kpos (ig_client s) p)%nat →
    klog (ig_client s) p !! o = Some v → holds_event v e →
    inserted e (ig_table s) ∨ mkInMessage p o v ∈ ig_msgs s;
  inv_clean p o v e : clean (ig_client s) p → (start p ≤ o < kcommitted (ig_client s) p)%nat →
    klog (ig_client s) p !! o = Some v → holds_event v e → inserted e (ig_table s);
}.

(** Below the position a growing log does not change. *)
Lemma log_lookup_old (k k' : K) p o v :
  log_grows k k' → (o < length (klog k p))%nat → klog k' p !! o = Some v → klog k p !! o = Some v.
Proof.
  intros Hg Ho Hv. destruct (Hg p) as [more Hm]. rewrite Hm, lookup_app_l in Hv by done. done.
Qed.

Lemma clean_old (k k' : K) p : log_grows k k' → clean k' p → clean k p.
Proof. intros Hg Hc v Hv. apply Hc. destruct (Hg p) as [more ->]. set_solver. Qed.

(** The greatest offset of some messages is one of them. *)
Lemma max_list_elem l : l ≠ [] → max_list l ∈ l.
Proof.
  induction l as [|x l IH]; [done|]. intros _. cbn. destruct l as [|y l].
  { cbn. rewrite Nat.max_0_r. set_solver. }
  destruct (Nat.max_spec x (max_list (y :: l))) as [[_ ->]|[_ ->]]; [|set_solver].
  apply list_elem_of_further. by apply IH.
Qed.

Lemma commit_offset_cases msgs p c :
  commit_offset msgs p c = c ∨
  ∃ m, m ∈ msgs ∧ im_Partition m = p ∧ commit_offset msgs p c = S (im_Offset m).
Proof.
  unfold commit_offset. destruct (filter _ msgs) as [|m0 ms] eqn:E; [by left|]. right.
  assert (max_list (im_Offset <$> m0 :: ms) ∈ im_Offset <$> m0 :: ms) as Hin by by apply max_list_elem.
  apply list_elem_of_fmap in Hin as (m & Hm & Hin). exists m.
  rewrite <- E in Hin. apply list_elem_of_filter in Hin as [? ?]. by rewrite Hm.
Qed.

(** What keeps the invariant: the reader stays, the table grows. *)
Lemma inv_frame k k' table more buf msgs :
  ingest_inv (mkIngest k table buf msgs) → log_grows k k' → kpos k' = kpos k →
  (∀ p, (start p ≤ kcommitted k' p ≤ kpos k p)%nat) →
  (∀ p o v e, clean k' p → (start p ≤ o < kcommitted k' p)%nat →
     klog k p !! o = Some v → holds_event v e → inserted e (table ++ more)) →
  ingest_inv (mkIngest k' (table ++ more) buf msgs).
Proof.
  intros [Hb Hm Hl Hs Hc] Hg Hp Hc1 Hc2. cbn in *.
  assert (∀ p, (length (klog k p) ≤ length (klog k' p))%nat) as Hlen
    by (intros p; apply prefix_length, Hg).
  split; cbn; try rewrite Hp; [done|done| | |].
  - intros p. specialize (Hc1 p). specialize (Hlen p). destruct (Hl p). lia.
  - intros p o v e Ho Hv He. destruct (Hl p) as [_ Hle].
    destruct (Hs p o v e Ho) as [?|?]; [eapply log_lookup_old; [done|lia|done]|done|left; by apply inserted_app|by right].
  - intros p o v e Hcl Ho Hv He. destruct (Hl p) as [_ Hle]. specialize (Hc1 p).
    eapply Hc2; [done|done| |done]. eapply log_lookup_old; [done|lia|done].
Qed.

Lemma buffered_event (buf : list InEvent) (msgs : list InMessage) m :
  Forall2 (λ e m, event_Unmarshal (im_Value m) = Ok e) buf msgs → m ∈ msgs →
  ∃ e, e ∈ buf ∧ event_Unmarshal (im_Value m) = Ok e.
Proof.
  intros Hb [i Hi]%list_elem_of_lookup. destruct (Forall2_lookup_r _ _ _ _ _ Hb Hi) as (e & He & Hu).
  exists e. split; [by eapply list_elem_of_lookup_2|done].
Qed.

Lemma inv_flush n (s : I) : ingest_inv s → wp ingest_flush (λ _ ns', ingest_inv ns'.2) (n, s).
Proof.
  intros Hinv. unfold ingest_flush. wp_steps. destruct (ig_buf s) as [|e0 buf0] eqn:Hbuf; [by wp_steps|].
  rewrite <- Hbuf. clear e0 buf0 Hbuf. wp_step.
  eapply wp_mono; [apply wp_InsertEvents|]. intros r [n1 s1] (out & Hs1 & Hins). cbn in Hs1. subst s1.
  destruct s as [k table buf msgs]. cbn in *. destruct Hinv as [Hb Hm Hl Hs Hc] eqn:E. clear E. cbn in *.
  destruct r as [e|].
  { wp_steps. apply inv_frame with k; [done|reflexivity|done|intros p; apply Hl|].
    intros p o v e' Hcl Ho Hv He. by eapply inserted_app, Hc. }
  specialize (Hins eq_refl).
  assert (∀ p o v e, (start p ≤ o < kpos k p)%nat → klog k p !! o = Some v → holds_event v e →
            inserted e (table ++ out)) as Hall.
  { intros p o v e Ho Hv He. destruct (Hs p o v e Ho Hv He) as [?|Hin]; [by apply inserted_app|].
    destruct (buffered_event _ _ _ Hb Hin) as (e' & He' & Hu). cbn in Hu. destruct He as [He _].
    rewrite He in Hu. injection Hu as <-. by apply (row_for_inserted buf). }
  wp_step. eapply wp_callI; [apply Commit_spec|]. cbn. intros r n2 k2 (Hg & Hp & Hcm).
  assert (∀ p, (start p ≤ kcommitted k2 p ≤ kpos k p)%nat) as Hbound.
  { intros p. destruct (Hl p) as [Hle _]. destruct (Hcm p) as [->|[_ ->]]; [|done].
    destruct (commit_offset_cases msgs p (kcommitted k p)) as [->|(m & Hin & <- & ->)]; [done|].
    specialize (Hm m Hin). lia. }
  assert (ingest_inv (mkIngest k2 (table ++ out) buf msgs)) as Hinv2.
  { apply inv_frame with k; [done..|]. intros p o v e _ Ho Hv He. specialize (Hbound p).
    eapply Hall; [|done..]. lia. }
  destruct r as [e|]; wp_steps; cbn; [done|]. destruct Hinv2 as [_ _ Hl2 _ Hc2]. cbn in *.
  split; cbn; [constructor|by intros m ?%elem_of_nil|done| |done].
  intros p o v e Ho Hv He. left. rewrite Hp in Ho. destruct (Hl p).
  eapply Hall; [done| |done]. eapply log_lookup_old; [done|lia|done].
Qed.

(** A fetch moves the reader to the next message. *)
Definition fetch_post (m : InMessage) (k k' : K) : Prop :=
  log_grows k k' ∧ kcommitted k' = kcommitted k ∧ im_Offset m = kpos k (im_Partition m) ∧
  klog k' (im_Partition m) !! im_Offset m = Some (im_Value m) ∧
  ∀ p, kpos k' p = if bool_decide (p = im_Partition m) then S (kpos k p) else kpos k p.

(** What has been seen after a fetch was seen before or is the message. *)
Lemma seen_after_fetch m k k' p o v :
  fetch_post m k k' → (kpos k p ≤ length (klog k p))%nat → (o < kpos k' p)%nat →
  klog k' p !! o = Some v →
  (o < kpos k p)%nat ∧ klog k p !! o = Some v ∨ m = mkInMessage p o v.
Proof.
  intros (Hg & _ & Ho & Hv & Hp) Hlen Hlt Hv'. rewrite Hp in Hlt. case_bool_decide as Hd.
  - destruct (decide (o = kpos k p)) as [->|Hne].
    + right. subst p. rewrite <- Ho in Hv'. rewrite Hv in Hv'. injection Hv' as <-.
      rewrite <- Ho. by destruct m.
    + left. split; [lia|]. eapply log_lookup_old; [done|lia|done].
  - left. split; [lia|]. eapply log_lookup_old; [done|lia|done].
Qed.

Lemma fetch_length m k k' p :
  fetch_post m k k' → (kpos k p ≤ length (klog k p))%nat → (kpos k' p ≤ length (klog k' p))%nat.
Proof.
  intros (Hg & _ & Ho & Hv & Hp) Hlen. rewrite Hp. pose proof (prefix_length _ _ (Hg p)).
  case_bool_decide as Hd; [|lia]. subst p. apply lookup_lt_Some in Hv. lia.
Qed.

Lemma fetch_pos m k k' p : fetch_post m k k' → (kpos k p ≤ kpos k' p)%nat.
Proof. intros (_ & _ & _ & _ & ->). case_bool_decide; lia. Qed.

(** A value that is no event is committed at once. *)
Lemma inv_skip m k k1 k2 table buf msgs :
  ingest_inv (mkIngest k table buf msgs) → fetch_post m k k1 →
  (¬ ∃ e, holds_event (im_Value m) e) →
  log_grows k1 k2 → kpos k2 = kpos k1 →
  (∀ p, kcommitted k2 p = commit_offset [m] p (kcommitted k1 p) ∨ kcommitted k2 p = kcommitted k1 p) →
  ingest_inv (mkIngest k2 table buf msgs).
Proof.
  intros [Hb Hm Hl Hs Hc] Hf Hno Hg Hp Hcm. cbn in *.
  assert (∀ p, (kpos k1 p ≤ length (klog k1 p))%nat) as Hlen1
    by (intros p; eapply fetch_length; [done|apply Hl]).
  assert (∀ p, (length (klog k1 p) ≤ length (klog k2 p))%nat) as Hlen2
    by (intros p; apply prefix_length, Hg).
  assert (∀ p, kcommitted k2 p = kcommitted k p ∨
               p = im_Partition m ∧ kcommitted k2 p = S (kpos k p)) as Hcm'.
  { intros p. destruct Hf as (_ & Hc1 & Ho & _). rewrite <- Hc1. destruct (Hcm p) as [->| ->]; [|by left].
    rewrite commit_offset_one. case_bool_decide as Hd; [|by left]. right. subst p. by rewrite Ho. }
  split; cbn.
  - done.
  - intros m' Hin. rewrite Hp. specialize (Hm m' Hin). pose proof (fetch_pos _ _ _ (im_Partition m') Hf). lia.
  - intros p. rewrite Hp. specialize (Hlen1 p). specialize (Hlen2 p). destruct (Hl p).
    pose proof (fetch_pos _ _ _ p Hf). destruct (Hcm' p) as [->|[-> ->]]; [lia|].
    destruct Hf as (_ & _ & _ & _ & Hp1). specialize (Hp1 (im_Partition m)).
    rewrite bool_decide_true in Hp1 by done. lia.
  - intros p o v e Ho Hv He. rewrite Hp in Ho. specialize (Hlen1 p).
    eapply log_lookup_old in Hv; [|done|lia].
    destruct (seen_after_fetch m k k1 p o v Hf) as [[? Hv']| ->]; [apply Hl|lia|done| |].
    + apply (Hs p o v e); [lia|done|done].
    + destruct Hno. by exists e.
  - intros p o v e Hcl Ho Hv He. destruct (Hcm' p) as [Heq|[-> _]].
    + rewrite Heq in Ho. destruct (Hl p). specialize (Hlen1 p).
      assert (log_grows k k2) as Hg2 by (destruct Hf as [Hg1 _]; intros q; etrans; [apply Hg1|apply Hg]).
      apply (Hc p o v e); [by eapply clean_old|done| |done]. eapply log_lookup_old; [done|lia|done].
    + destruct Hno. apply (Hcl (im_Value m)). destruct Hf as (_ & _ & _ & Hv1 & _).
      eapply list_elem_of_lookup_2, log_lookup; [exact Hg|exact Hv1].
Qed.

(** An event is buffered with its message. *)
Lemma inv_buffer m k k1 table buf msgs e :
  ingest_inv (mkIngest k table buf msgs) → fetch_post m k k1 → event_Unmarshal (im_Value m) = Ok e →
  ingest_inv (mkIngest k1 table (buf ++ [e]) (msgs ++ [m])).
Proof.
  intros [Hb Hm Hl Hs Hc] Hf Hu. cbn in *. pose proof Hf as (Hg & Hc1 & Ho & Hv1 & Hp).
  assert (∀ p, (kpos k1 p ≤ length (klog k1 p))%nat) as Hlen1
    by (intros p; eapply fetch_length; [done|apply Hl]).
  split; cbn.
  - apply Forall2_app; [done|]. by constructor.
  - intros m' [Hin| ->%list_elem_of_singleton]%elem_of_app.
    + specialize (Hm m' Hin). pose proof (fetch_pos _ _ _ (im_Partition m') Hf). lia.
    + rewrite Hp, bool_decide_true, Ho by done. destruct (Hl (im_Partition m)). lia.
  - intros p. rewrite Hc1. split; [|done]. pose proof (fetch_pos _ _ _ p Hf). destruct (Hl p). lia.
  - intros p o v e' Hlt Hv He.
    destruct (seen_after_fetch m k k1 p o v Hf) as [[? Hv']| ->]; [apply Hl|lia|done| |set_solver].
    destruct (Hs p o v e') as [?|?]; [lia|done|done|by left|right; set_solver].
  - intros p o v e' Hcl Hlt Hv He. rewrite Hc1 in Hlt. destruct (Hl p).
    apply (Hc p o v e'); [by eapply clean_old|done| |done]. eapply log_lookup_old; [done|lia|done].
Qed.

Lemma inv_round ticked n (s : I) :
  ingest_inv s → wp (ingest_round ticked) (λ _ ns', ingest_inv ns'.2) (n, s).
Proof.
  intros Hinv. unfold ingest_round. wp_step.
  eapply (wp_mono _ (λ _ ns', ingest_inv ns'.2)); [destruct ticked; [by apply inv_flush|by wp_steps]|].
  clear n s Hinv. intros _ [n [k table buf msgs]] Hinv. cbn in Hinv. wp_step.
  eapply wp_callI; [apply Fetch_spec|]. cbn. intros [m|e] n1 k1 (Hg & Hc & Hm).
  2:{ wp_steps. cbn. rewrite <- (app_nil_r table). apply inv_frame with k; [done|done|done| |].
      - rewrite Hc. intros p. apply Hinv.
      - rewrite app_nil_r, Hc. intros p o v e' Hcl. apply Hinv. by eapply clean_old. }
  destruct Hm as (Ho & Hv & Hp).
  assert (fetch_post m k k1) as Hf by (split_and!; done).
  assert ((¬ ∃ e, holds_event (im_Value m) e) →
    wp (_ ← callI (kafka_CommitMessages [m]); mret ()) (λ _ ns', ingest_inv ns'.2)
      (n1, mkIngest k1 table buf msgs)) as Hskip.
  { intros Hno. wp_step. eapply wp_callI; [apply Commit_spec|]. cbn. intros r n2 k2 (Hg2 & Hp2 & Hcm).
    wp_steps. cbn. eapply (inv_skip m k k1); try done. intros p. destruct (Hcm p) as [?|[_ ?]]; auto. }
  destruct (event_Unmarshal (im_Value m)) as [ev|e] eqn:Hu.
  - case_bool_decide as Hid.
    + apply Hskip. intros (e & He & Hne). congruence.
    + wp_steps. cbn. pose proof (inv_buffer _ _ _ _ _ _ _ Hinv Hf Hu) as Hinv1.
      case_bool_decide; wp_steps; [|done]. eapply wp_mono; [by apply inv_flush|].
      intros r [n2 s2] Hi. by wp_steps.
  - apply Hskip. intros (e' & He & _). congruence.
Qed.

(** C27: events reach ClickHouse at least once.  Take a consumer that resumes
    from the committed offsets with empty buffers, and let it run through any
    number of rounds, ticks and stops, with any failures of Kafka and
    ClickHouse.  Every event it has fetched is in the table or still buffered
    with its message; and on a partition whose values are all events, every
    event below the committed offset is in the table, so that a restart loses
    none.  (A value that is no event is committed at once, past the events that
    are still buffered: see [poison_commits_past_buffer].) *)
Theorem events_at_least_once (s s' : I) :
  ig_buf s = [] → ig_msgs s = [] →
  (∀ p, kpos (ig_client s) p = kcommitted (ig_client s) p) →
  (∀ p, kpos (ig_client s) p = start p ∧ (start p ≤ length (klog (ig_client s) p))%nat) →
  rtc ingest_step s s' →
  ∀ p o v e, (start p ≤ o)%nat → klog (ig_client s') p !! o = Some v → holds_event v e →
    ((o < kpos (ig_client s') p)%nat →
       inserted e (ig_table s') ∨ mkInMessage p o v ∈ ig_msgs s') ∧
    ((o < kcommitted (ig_client s') p)%nat → clean (ig_client s') p → inserted e (ig_table s')).
Proof.
  intros Hb Hm Hpc Hst Hr. cut (ingest_inv s').
  { intros [_ _ _ Hs Hc] p o v e Ho Hv He. split.
    - intros Hlt. by apply (Hs p o v e).
    - intros Hlt Hcl. by apply (Hc p o v e). }
  assert (ingest_inv s) as Hinv.
  { split.
    - by rewrite Hb, Hm.
    - rewrite Hm. by intros m ?%elem_of_nil.
    - intros p. rewrite <- Hpc. destruct (Hst p). lia.
    - intros p o v e Ho. destruct (Hst p). lia.
    - intros p o v e _ Ho. rewrite <- Hpc in Ho. destruct (Hst p). lia. }
  clear Hb Hm Hpc Hst. induction Hr as [s|s s1 s2 Hstep _ IH]; [done|]. apply IH.
  destruct Hstep as [n ticked s|n s]; [by apply (inv_round ticked n s)|by apply (inv_flush n s)].
Qed.
End delivery.

(** ** On a concrete broker *)

#[local] Existing Instance sample_env.

(** A value is an event with that identifier, unless it is "bad"; identifiers
    are taken as UUIDs, and ClickHouse accepts everything. *)
Definition sample_event (id : string) : InEvent :=
  mkInEvent id "JOB_QUEUED" 1 1 "j1" "" "" "s1" 0 "" "".

#[local] Instance sample_clickhouse : ClickHouse.
Proof.
  refine {|
    event_Unmarshal := λ v, if String.eqb v "bad" then Err (External "invalid character")
                            else Ok (sample_event v);
    uuid_Parse := Some;
    ch_PrepareBatch := λ _, None;
    ch_Append := λ _ _, None;
    ch_Send := λ _ rows, (rows, None) |}.
  done.
Defined.

Definition sample_ingest (values : list string) : Ingest Broker :=
  mkIngest (mkBroker values 0 (λ _, 0%nat)) [] [] [].

Lemma events_at_least_once_witness :
  let s1 := (ingest_round false (0%nat, sample_ingest ["e1"])).2.2 in
  let s2 := (ingest_flush (7%nat, s1)).2.2 in
  kcommitted (ig_client s2) 0 = 1%nat ∧ inserted (sample_event "e1") (ig_table s2).
Proof.
  intros s1 s2. split; [by vm_compute|].
  assert (rtc ingest_step (sample_ingest ["e1"]) s2) as Hr.
  { eapply rtc_l; [apply (step_ingest 0 false)|]. apply rtc_once, (step_stop 7). }
  assert (holds_event "e1" (sample_event "e1")) as He by done.
  destruct (events_at_least_once (λ _, 0%nat) (sample_ingest ["e1"]) s2 eq_refl eq_refl
    ltac:(by intros []) ltac:(intros []; cbn; split; (done || lia)) Hr
    0 0 "e1" (sample_event "e1") (le_n 0) eq_refl He) as [_ Hc].
  apply Hc; [by vm_compute; lia|]. intros v. replace (klog (ig_client s2) 0) with ["e1"] by done.
  intros ->%list_elem_of_singleton. by exists (sample_event "e1").
Defined.

(** The second value is no event: its commit acknowledges the event before it,
    which is in no table yet. *)
Example poison_commits_past_buffer :
  let s1 := (ingest_round false (0%nat, sample_ingest ["e1"; "bad"])).2.2 in
  let s2 := (ingest_round false (7%nat, s1)).2.2 in
  kcommitted (ig_client s2) 0 = 2%nat ∧ ig_table s2 = [] ∧
  ig_buf s2 = [sample_event "e1"].
Proof. by vm_compute. Qed.
