(* ===== verification/Calls.v ===== *)
(** * Symbolic execution of handlers against the interfaces

    The [wp] rules for the calls of a lawful store and queue, and the tactic
    [run] that applies the rules with one outcome. *)

From S2P Require Import Prelude.
From S2P Require Import Domain.
From S2P Require Import Ports.

Section calls.
Context `{Env} {St Qu V : Type}.
Context `{!JobStore St, !StoreView St, !JobStoreLaws St}.
Context `{!Queue Qu, !QueueView Qu, !QueueLaws Qu}.
#[local] Abbreviation W := (World St Qu V).
Implicit Types (s : St) (q : Qu) (v : V) (ev : list EmitCall) (rp : list RpcCall).

Lemma wp_GetJob id (Q : result Job → W → Prop) n s q v ev rp :
  (∀ n', (n ≤ n')%nat →
     Q (match jobs s !! id with Some j => Ok j | None => Err ErrNotFound end)
       (mkWorld n' s q v ev rp)) →
  wp (callS (store_GetJob id)) Q (mkWorld n s q v ev rp).
Proof.
  intros HQ. eapply wp_callS; [apply GetJob_spec|].
  intros a n' s' (Hn & Hs & ->). simpl in *. subst s'. by apply HQ.
Qed.

Lemma wp_UpdateJobStateIf id state f only (Q : option GoError → W → Prop) n s q v ev rp :
  (∀ n' s' t, (n ≤ n')%nat → same_but_jobs s s' →
     match jobs s !! id with
     | None => jobs s' = jobs s → Q (Some ErrNotFound) (mkWorld n' s' q v ev rp)
     | Some j =>
         jobs s' = (if allowed_from only (j_State j)
                    then <[id := update_job state t f j]> (jobs s) else jobs s) →
         Q None (mkWorld n' s' q v ev rp)
     end) →
  wp (callS (store_UpdateJobStateIf id state f only)) Q (mkWorld n s q v ev rp).
Proof.
  intros HQ. eapply wp_callS; [apply UpdateJobStateIf_spec|].
  intros a n' s' (Hn & t & Hsame & Hj). specialize (HQ n' s' t Hn Hsame).
  simpl in Hj. destruct (jobs s !! id); destruct Hj as [-> Hj]; by apply HQ.
Qed.

Lemma wp_UpdateJobState id state f (Q : option GoError → W → Prop) n s q v ev rp :
  (∀ n' s' t, (n ≤ n')%nat → same_but_jobs s s' →
     match jobs s !! id with
     | None => jobs s' = jobs s → Q (Some ErrNotFound) (mkWorld n' s' q v ev rp)
     | Some j => jobs s' = <[id := update_job state t f j]> (jobs s) →
         Q None (mkWorld n' s' q v ev rp)
     end) →
  wp (callS (store_UpdateJobState id state f)) Q (mkWorld n s q v ev rp).
Proof.
  intros HQ. rewrite UpdateJobState_If. apply wp_UpdateJobStateIf.
  intros n' s' t Hn Hs. specialize (HQ n' s' t Hn Hs). by destruct (jobs s !! id).
Qed.

(** The update of a job that is known to be there. *)
Lemma wp_UpdateJob id state f j (Q : option GoError → W → Prop) n s q v ev rp :
  jobs s !! id = Some j →
  (∀ n' s' t, (n ≤ n')%nat → same_but_jobs s s' →
     jobs s' = <[id := update_job state t f j]> (jobs s) →
     Q None (mkWorld n' s' q v ev rp)) →
  wp (callS (store_UpdateJobState id state f)) Q (mkWorld n s q v ev rp).
Proof.
  intros Hj HQ. apply wp_UpdateJobState. intros n' s' t Hn Hs. rewrite Hj. eauto.
Qed.

(** A job without identifier and idempotency key gets a new UUID. *)
Lemma wp_CreateJob_fresh job (Q : result Job → W → Prop) n s q v ev rp :
  j_ID job = "" → j_IdempotencyKey job = "" →
  (∀ n' s' m t, (n ≤ m < n')%nat → execs s' = execs s → workers s' = workers s →
     idem s' = idem s →
     let j' := set_UpdatedAt t (set_CreatedAt t (set_ID (env_uuid m) job)) in
     jobs s' = <[env_uuid m := j']> (jobs s) → Q (Ok j') (mkWorld n' s' q v ev rp)) →
  wp (callS (store_CreateJob job)) Q (mkWorld n s q v ev rp).
Proof.
  intros Hid Hkey HQ. eapply wp_callS; [apply CreateJob_spec|].
  intros a n' s' (Hn & Hx & Hw & Hr). rewrite Hid, Hkey in Hr.
  rewrite !(bool_decide_true (_ = _)) in Hr by done.
  destruct Hr as (id & t & (m & Hm & ->) & -> & Hj & Hi). by apply HQ.
Qed.

(** A job with an identifier and a key that is not in use (or none). *)
Lemma wp_CreateJob_new job (Q : result Job → W → Prop) n s q v ev rp :
  j_ID job ≠ "" → j_IdempotencyKey job = "" ∨ idem s !! j_IdempotencyKey job = None →
  (∀ n' s' t, (n ≤ n')%nat → execs s' = execs s → workers s' = workers s →
     let j' := set_UpdatedAt t (set_CreatedAt t job) in
     jobs s' = <[j_ID job := j']> (jobs s) → Q (Ok j') (mkWorld n' s' q v ev rp)) →
  wp (callS (store_CreateJob job)) Q (mkWorld n s q v ev rp).
Proof.
  intros Hid Hkey HQ. eapply wp_callS; [apply CreateJob_spec|].
  intros a n' s' (Hn & Hx & Hw & Hr). cbn [snd] in *.
  assert ((if bool_decide (j_IdempotencyKey job = "") then None
           else idem s !! j_IdempotencyKey job) = None) as E.
  { case_bool_decide; [done|]. by destruct Hkey. }
  rewrite E, (bool_decide_false (j_ID job = "")) in Hr by done.
  destruct Hr as (id & t & -> & -> & Hj & _).
  replace (set_ID (j_ID job) job) with job in * by by destruct job. by apply HQ.
Qed.

(** A job whose key is in use: the stored job is returned. *)
Lemma wp_CreateJob_again job id0 j0 (Q : result Job → W → Prop) n s q v ev rp :
  j_IdempotencyKey job ≠ "" → idem s !! j_IdempotencyKey job = Some id0 →
  jobs s !! id0 = Some j0 →
  (∀ n' s', (n ≤ n')%nat → same_view s s' → Q (Ok j0) (mkWorld n' s' q v ev rp)) →
  wp (callS (store_CreateJob job)) Q (mkWorld n s q v ev rp).
Proof.
  intros Hne Hkey Hj HQ. eapply wp_callS; [apply CreateJob_spec|].
  intros a n' s' (Hn & Hx & Hw & Hr). cbn [snd] in *.
  rewrite (bool_decide_false (j_IdempotencyKey job = "")), Hkey in Hr by done.
  destruct Hr as [Hs Hr]. rewrite (Hr j0 Hj). by apply HQ.
Qed.

Lemma wp_CreateExecution ex (Q : result JobExecution → W → Prop) n s q v ev rp :
  x_ID ex ≠ "" →
  (∀ n' s' t, (n ≤ n')%nat → jobs s' = jobs s → idem s' = idem s → workers s' = workers s →
     execs s' = <[x_ID ex := stamp_execution (x_ID ex) t ex]> (execs s) →
     Q (Ok (stamp_execution (x_ID ex) t ex)) (mkWorld n' s' q v ev rp)) →
  wp (callS (store_CreateExecution ex)) Q (mkWorld n s q v ev rp).
Proof.
  intros Hid HQ. eapply wp_callS; [by apply CreateExecution_spec|].
  intros a n' s' (Hn & Hj & Hi & Hw & t & -> & Hx). by apply HQ.
Qed.

Lemma wp_FinishExecution id state res (Q : option GoError → W → Prop) n s q v ev rp :
  (∀ n' s' r t, (n ≤ n')%nat → jobs s' = jobs s → idem s' = idem s → workers s' = workers s →
     execs s' = alter (finish_execution state t res) id (execs s) →
     Q r (mkWorld n' s' q v ev rp)) →
  wp (callS (store_FinishExecution id state res)) Q (mkWorld n s q v ev rp).
Proof.
  intros HQ. eapply wp_callS; [by apply FinishExecution_spec|].
  intros a n' s' (Hn & Hj & Hi & Hw & t & Hx). by eapply HQ.
Qed.

Lemma wp_UpsertWorker w (Q : option GoError → W → Prop) n s q v ev rp :
  (∀ n' s', (n ≤ n')%nat → jobs s' = jobs s → idem s' = idem s → execs s' = execs s →
     workers s' = <[w_ID w := w]> (workers s) → Q None (mkWorld n' s' q v ev rp)) →
  wp (callS (store_UpsertWorker w)) Q (mkWorld n s q v ev rp).
Proof.
  intros HQ. eapply wp_callS; [by apply UpsertWorker_spec|].
  intros a n' s' (Hn & -> & Hj & Hi & Hx & Hw). by eapply HQ.
Qed.

Lemma wp_ListJobs state limit (Q : result (list Job) → W → Prop) n s q v ev rp :
  (∀ n' l, (n ≤ n')%nat →
     listing (λ j, bool_decide (state = "") || bool_decide (JobState_string (j_State j) = state))
       (if bool_decide (limit ≤ 0) then 50 else limit) (jobs s) l →
     Q (Ok l) (mkWorld n' s q v ev rp)) →
  wp (callS (store_ListJobs state limit)) Q (mkWorld n s q v ev rp).
Proof.
  intros HQ. eapply wp_callS; [by apply ListJobs_spec|].
  intros a n' s' (Hn & Hs & l & -> & Hl). simpl in *. subst s'. by eapply HQ.
Qed.

Lemma wp_ListDueScheduled limit (Q : result (list Job) → W → Prop) n s q v ev rp :
  0 < limit →
  (∀ n' l m, (n ≤ n')%nat → (n ≤ m)%nat → listing (due (env_now m)) limit (jobs s) l →
     Q (Ok l) (mkWorld n' s q v ev rp)) →
  wp (callS (store_ListDueScheduled limit)) Q (mkWorld n s q v ev rp).
Proof.
  intros Hlim HQ. eapply wp_callS; [by apply ListDueScheduled_spec|].
  intros a n' s' (Hn & Hs & l & m & -> & Hm & Hl). simpl in *. subst s'. by eapply HQ.
Qed.

Lemma wp_ListCancelRequested limit (Q : result (list Job) → W → Prop) n s q v ev rp :
  (∀ n' l, (n ≤ n')%nat →
     listing (λ j, bool_decide (j_State j = JobStateCancelRequested))
       (if bool_decide (limit ≤ 0) then 50 else limit) (jobs s) l →
     Q (Ok l) (mkWorld n' s q v ev rp)) →
  wp (callS (store_ListCancelRequested limit)) Q (mkWorld n s q v ev rp).
Proof.
  intros HQ. eapply wp_callS; [by apply ListCancelRequested_spec|].
  intros a n' s' (Hn & Hs & l & -> & Hl). simpl in *. subst s'. by eapply HQ.
Qed.

Lemma wp_ListTimedOutRunning now limit (Q : result (list Job) → W → Prop) n s q v ev rp :
  (∀ n' l, (n ≤ n')%nat →
     listing (timed_out now) (if bool_decide (limit ≤ 0) then 50 else limit) (jobs s) l →
     Q (Ok l) (mkWorld n' s q v ev rp)) →
  wp (callS (store_ListTimedOutRunning now limit)) Q (mkWorld n s q v ev rp).
Proof.
  intros HQ. eapply wp_callS; [by apply ListTimedOutRunning_spec|].
  intros a n' s' (Hn & Hs & l & -> & Hl). simpl in *. subst s'. by eapply HQ.
Qed.

Lemma wp_Enqueue job (Q : option GoError → W → Prop) n s q v ev rp :
  (∀ n' q' t, (n ≤ n')%nat → closed q = false → closed q' = false →
     (IsZero (q_EnqueuedAt job) = false → t = q_EnqueuedAt job) →
     ready q' ≡ₚ set_q_EnqueuedAt t job :: ready q → Q None (mkWorld n' s q' v ev rp)) →
  (∀ n' e, (n ≤ n')%nat → closed q = true → Q (Some e) (mkWorld n' s q v ev rp)) →
  wp (callQ (queue_Enqueue job)) Q (mkWorld n s q v ev rp).
Proof.
  intros HQ1 HQ2. eapply wp_callQ; [by apply Enqueue_spec|].
  intros a n' q' (Hn & Hq). simpl in *. destruct (closed q) eqn:Hc.
  - destruct Hq as [Ha ->]. destruct a; [by apply HQ2|done].
  - destruct Hq as (-> & Hc' & t & Ht & Hr). by eapply HQ1.
Qed.

Lemma wp_MarkStaleWorkers to gr (Q : result (list string * list string) → W → Prop)
    n s q v ev rp :
  (∀ n' s' t sus una, (n ≤ n')%nat → jobs s' = jobs s → idem s' = idem s → execs s' = execs s →
     NoDup una →
     (∀ id, id ∈ una ↔ ∃ w, workers s !! id = Some w ∧
         stale_status t to gr w = WorkerStatusUnavailable ∧
         w_Status w ≠ WorkerStatusUnavailable) →
     (∀ id, id ∈ sus ↔ ∃ w, workers s !! id = Some w ∧
         stale_status t to gr w = WorkerStatusSuspected ∧
         w_Status w ≠ WorkerStatusSuspected) →
     (∀ id, workers s' !! id =
         (λ w, set_w_Status (stale_status t to gr w) w) <$> workers s !! id) →
     Q (Ok (sus, una)) (mkWorld n' s' q v ev rp)) →
  wp (callS (store_MarkStaleWorkers to gr)) Q (mkWorld n s q v ev rp).
Proof.
  intros HQ. eapply wp_callS; [by apply MarkStaleWorkers_spec|].
  intros a n' s' (Hn & Hj & Hi & Hx & t & sus & una & -> & Hnd & Hu & Hs & Hw).
  by eapply HQ.
Qed.
End calls.

(** One step of a handler; calls whose rule has more than one outcome or a
    side condition are left to the proof. *)
Ltac run_step :=
  lazymatch goal with
  | |- wp (_ ≫= _) _ _ => apply wp_bind
  | |- wp (mret _) _ _ => apply wp_ret
  | |- wp (askW _) _ _ => apply wp_askW
  | |- wp getV _ _ => apply wp_getV; cbn [g_svc]
  | |- wp (updV _) _ _ => apply wp_updV
  | |- wp (Emit _ _ _ _ _ _) _ _ => apply wp_Emit; intros ?
  | |- wp (rpc _ _) _ _ => apply wp_rpc
  end; cbn beta iota zeta.
Ltac run := repeat run_step.
