(* ===== verification/Backoff.v ===== *)
(** * The retry delay of internal/scheduler/scheduler.go

    [computeBackoff] on IEEE doubles, with the conversion of an out-of-range
    float ([env_oob]) left to the platform and the random number of the jitter
    as an argument. *)

From S2P Require Import Prelude.
From S2P Require Import Float64.
From S2P Require Import Domain.
From S2P Require Import Ports.
From S2P Require Import Fixture.

Section backoff.
Context (oob : float64 → Z).

(** The delay before the cap and the jitter. *)
Definition backoff_base (p : RetryPolicy) (attempt : Z) : Duration :=
  let delay := rp_InitialDelay p in
  let delay := if bool_decide (delay ≤ 0) then Second else delay in
  if bool_decide (rp_BackoffStrategy p = "exponential") then
    let mult := rp_Multiplier p in
    let mult := if f64_lt mult f64_one then f64_of_Z 2 else mult in
    f64_to_int64 oob (f64_mul (f64_of_Z delay) (Pow mult (f64_of_Z (int64 (attempt - 1)))))
  else delay.

Definition backoff_cap (p : RetryPolicy) (delay : Duration) : Duration :=
  if bool_decide (0 < rp_MaxDelay p) && bool_decide (rp_MaxDelay p < delay)
  then rp_MaxDelay p else delay.

(** [rnd] is the value of [rand.Float64()]. *)
Definition computeBackoff (p : RetryPolicy) (attempt : Z) (rnd : float64) : Duration :=
  let delay := backoff_cap p (backoff_base p attempt) in
  if rp_Jitter p then
    let j := f64_add f64_half rnd in
    f64_to_int64 oob (f64_mul (f64_of_Z delay) j)
  else delay.

(** The policies of doubling delays without jitter. *)
Definition doubling (p : RetryPolicy) : Prop :=
  rp_BackoffStrategy p = "exponential" ∧ rp_Jitter p = false ∧
  (rp_Multiplier p = f64_of_Z 2 ∨ f64_lt (rp_Multiplier p) f64_one = true).

Definition initial_delay (p : RetryPolicy) : Duration :=
  if bool_decide (rp_InitialDelay p ≤ 0) then Second else rp_InitialDelay p.

Lemma backoff_base_doubling p attempt :
  doubling p → 0 < initial_delay p < 2 ^ 53 → 1 ≤ attempt ≤ 900 →
  backoff_base p attempt =
    let d := initial_delay p * 2 ^ (attempt - 1) in
    if bool_decide (d < 2 ^ 63) then d
    else oob (f64_mul (f64_of_Z (initial_delay p)) (pow2_float (attempt - 1))).
Proof.
  intros (Hst & _ & Hm) Hd Ha. unfold backoff_base. fold (initial_delay p).
  rewrite bool_decide_true by done. cbn zeta.
  assert ((if f64_lt (rp_Multiplier p) f64_one then f64_of_Z 2 else rp_Multiplier p) = f64_of_Z 2)
    as ->.
  { destruct Hm as [-> | ->]; [by vm_compute|done]. }
  no_wrap. rewrite Pow_two_exact by lia.
  apply f64_scale_int64; lia.
Qed.

(** C29: the delay doubles and is capped.  For an exponential policy with
    multiplier 2 (also the fallback for multipliers below 1) and no jitter, the
    floating-point computation of the delay before attempt n+1 is exact:
    InitialDelay (one second when unset) times 2^(n-1), and MaxDelay when that
    is smaller and positive, as long as the product is a Duration at all. *)
Theorem computeBackoff_doubles p attempt rnd :
  doubling p → 0 < initial_delay p < 2 ^ 53 → 1 ≤ attempt ≤ 900 →
  initial_delay p * 2 ^ (attempt - 1) < 2 ^ 63 →
  computeBackoff p attempt rnd =
    (let d := initial_delay p * 2 ^ (attempt - 1) in
     if bool_decide (0 < rp_MaxDelay p) then Z.min d (rp_MaxDelay p) else d).
Proof.
  intros Hp Hd Ha Hlt. unfold computeBackoff. rewrite (proj1 (proj2 Hp)).
  rewrite backoff_base_doubling by done. cbn zeta. rewrite bool_decide_true by done.
  unfold backoff_cap. repeat case_bool_decide; cbn [andb]; lia.
Qed.

End backoff.

(** An overflowing delay is negative on amd64.  Once the doubled delay
    reaches 2^63 nanoseconds the conversion to Duration is out of range: amd64
    yields the least integer, which passes the MaxDelay test, so the retry is
    due 292 years ago, that is at once; arm64 saturates and gives MaxDelay. *)
Lemma computeBackoff_overflow p attempt rnd :
  doubling p → 0 < initial_delay p < 2 ^ 53 → 1 ≤ attempt ≤ 900 →
  2 ^ 63 ≤ initial_delay p * 2 ^ (attempt - 1) → 0 < rp_MaxDelay p < 2 ^ 63 - 1 →
  computeBackoff oob_amd64 p attempt rnd = - 2 ^ 63 ∧
  computeBackoff oob_arm64 p attempt rnd = rp_MaxDelay p.
Proof.
  intros Hp Hd Ha Hge Hm. unfold computeBackoff. rewrite (proj1 (proj2 Hp)).
  rewrite !backoff_base_doubling by done. cbn zeta. rewrite !(bool_decide_false (_ < 2 ^ 63)) by lia.
  rewrite oob_arm64_scale by lia. unfold backoff_cap, oob_amd64.
  split; repeat case_bool_decide; cbn [andb]; lia.
Qed.

(** The third attempt of a policy that starts with one second. *)
Lemma computeBackoff_doubles_witness :
  computeBackoff oob_amd64 sample_policy 3 f64_half = 4 * Second.
Proof.
  rewrite (computeBackoff_doubles oob_amd64 sample_policy 3 f64_half); try done.
  split_and!; try done. by left.
Defined.

(** The 35th attempt of the default policy without jitter. *)
Lemma computeBackoff_overflow_witness :
  computeBackoff oob_amd64 sample_policy 35 f64_half = - 2 ^ 63.
Proof.
  apply (computeBackoff_overflow sample_policy 35 f64_half); try done.
  split_and!; try done. by left.
Defined.
