(* ===== verification/WorkerClient.v ===== *)
(** * internal/workerclient: pushing jobs to a worker over gRPC *)

From S2P Require Import Prelude.
From S2P Require Import Domain.
From S2P Require Import Ports.

(** The request [ExecuteJob] builds. *)
Definition execute_request (job : QueuedJob) (executionID : string) : ExecuteJobRequest :=
  let timeout := q_Timeout job in
  let timeout := if bool_decide (timeout ≤ 0) then 30 * Second else timeout in
  mkExecuteJobRequest (q_JobID job) executionID (q_Name job) (q_Type job) (q_Payload job)
    (int32 (q_Attempt job)) (Milliseconds timeout) (q_TraceID job).

Section client.
Context `{Env} {St Qu V : Type}.

Definition client_ExecuteJob (addr : string) (job : QueuedJob) (executionID : string) :
    M (World St Qu V) (option GoError) :=
  let req := execute_request job executionID in
  resp ← rpc (RpcExecuteJob addr req) (λ n, env_ExecuteJob n addr req);
  match resp with
  | Err e => mret (Some e)
  | Ok None => mret (Some (Errorf "worker rejected job: %s" ["rejected"]))
  | Ok (Some r) =>
      if eresp_Accepted r then mret None
      else mret (Some (Errorf "worker rejected job: %s" [eresp_Message r]))
  end.

Definition client_CancelJob (addr jobID executionID : string) :
    M (World St Qu V) (option GoError) :=
  let req := mkCancelJobRequest jobID executionID in
  rpc (RpcCancelJob addr req) (λ n, env_CancelJob n addr req).
End client.
