(* ===== verification/Scheduler.v ===== *)
(** * internal/scheduler/scheduler.go: the control plane

    The struct [Service] (its worker table and its pending cancellations) and
    its methods, each run from start to end; every store, queue, event and RPC
    call of the Go method is a call here, in the same order.  Pointer fields
    that every construction site sets ([workerConn.info], [.conn], [.client])
    are plain fields, so the nil tests on them are constant.  Logging and
    sleeping have no effect on the state and are left out. *)

From S2P Require Import Prelude.
From S2P Require Import Float64.
From S2P Require Import Domain.
From S2P Require Import Config.
From S2P Require Import Ports.
From S2P Require Import WorkerClient.
From S2P Require Import Backoff.

(** [conn] and [client] are known by the address that was dialled. *)
Record workerConn := mkWorkerConn {
  wc_info : Worker;
  wc_conn : string;
}.

Record Service := mkService {
  sv_cfg : SchedulerConfig;
  sv_workers : gmap string workerConn;
  sv_pendingCancels : gmap string (gset string);
}.

Definition NewService (cfg : SchedulerConfig) : Service := mkService cfg ∅ ∅.

Definition set_sv_workers v (s : Service) : Service :=
  mkService (sv_cfg s) v (sv_pendingCancels s).
Definition set_sv_pendingCancels v (s : Service) : Service :=
  mkService (sv_cfg s) (sv_workers s) v.

(** [s.workers[id].info.ActiveJobs] and the like, updated in place. *)
Definition map_info (f : Worker → Worker) (c : workerConn) : workerConn :=
  mkWorkerConn (f (wc_info c)) (wc_conn c).

(** The loop of [pickWorker] over the workers in the order of the range. *)
Definition pick_step (best : option workerConn) (kw : string * workerConn) : option workerConn :=
  let w := kw.2 in
  if negb (IsAssignable (wc_info w)) then best
  else match best with
  | None => Some w
  | Some b =>
      if bool_decide (w_ActiveJobs (wc_info w) < w_ActiveJobs (wc_info b)) then Some w else best
  end.

Definition pick_worker (l : list (string * workerConn)) : option workerConn :=
  foldl pick_step None l.

(** [clearPendingCancel] on the map of sets. *)
Definition clear_pending (workerID jobID : string) (m : gmap string (gset string)) :
    gmap string (gset string) :=
  match m !! workerID with
  | None => m
  | Some set =>
      let set' := set ∖ {[jobID]} in
      if bool_decide (set' = ∅) then delete workerID m else <[workerID := set']> m
  end.

(** The insertion of a pending cancellation, creating the set on demand. *)
Definition add_pending (workerID jobID : string) (m : gmap string (gset string)) :
    gmap string (gset string) :=
  <[workerID := {[jobID]} ∪ default ∅ (m !! workerID)]> m.

(** [HandleResult] decrements the worker's count while it is positive. *)
Definition release_slot (workerID : string) (m : gmap string workerConn) : gmap string workerConn :=
  match m !! workerID with
  | Some c =>
      if bool_decide (0 < w_ActiveJobs (wc_info c))
      then <[workerID := map_info (λ w, set_w_ActiveJobs (int64 (w_ActiveJobs w - 1)) w) c]> m
      else m
  | None => m
  end.

(** The message [promoteDueJobs] puts on the queue. *)
Definition queued_of (job : Job) (now : time) : QueuedJob :=
  mkQueuedJob (j_ID job) "" (j_Name job) (j_Type job) (j_Payload job) (j_Priority job)
    (j_Attempt job) (j_Timeout job) now "".

(** The next occurrence of a recurring job. *)
Definition recurring_child (job : Job) (next : time) : Job :=
  mkJob "" (j_Name job) (j_Type job) (j_Payload job) (j_Priority job) JobStateScheduled
    (j_Schedule job) (j_RetryPolicy job) (j_Timeout job) "" 0 (j_MaxAttempts job)
    "" "" "" (Some next) None None None None zero_time zero_time (j_Metadata job).

(** The states [HandleResult] does not leave. *)
Definition result_terminal (s : JobState) : bool :=
  match s with
  | JobStateCompleted | JobStateFailed | JobStateCancelled | JobStateTimeout
  | JobStateExpired => true
  | _ => false
  end.

(** A result without a reason is a success or a failure. *)
Definition with_reason (result : ExecutionResult) : ExecutionResult :=
  if bool_decide (res_Reason result = "") then
    (if res_Success result then set_Reason ReasonSuccess result
     else set_Reason ReasonFailed result)
  else result.

Section service.
Context `{Env, CronLib} {St Qu : Type} `{JobStore St, Queue Qu}.
#[local] Abbreviation W := (World St Qu Service).

Definition pickWorker : M W (option workerConn) :=
  s ← getV;
  ks ← askW (λ n, env_order n (map_to_list (sv_workers s)).*1);
  mret (pick_worker (entries ks (sv_workers s))).

(** [computeBackoff] reads the random number only for a jitter. *)
Definition backoff (p : RetryPolicy) (attempt : Z) : M W Duration :=
  rnd ← (if rp_Jitter p then askW env_rand else mret f64_half);
  mret (computeBackoff env_oob p attempt rnd).

Definition promote_job (job : Job) : M W () :=
  enqueuedAt ← askW env_now;
  err ← callQ (queue_Enqueue (queued_of job enqueuedAt));
  match err with
  | Some _ => mret ()
  | None =>
      now ← askW env_now;
      _ ← callS (store_UpdateJobStateIf (j_ID job) JobStateQueued
                   [("queued_at", ATimePtr (Some now))]
                   [JobStateScheduled; JobStateRetrying]);
      _ ← Emit EventJobQueued (j_ID job) "" "" (j_Attempt job) None;
      mret ()
  end.

Definition promoteDueJobs : M W (option GoError) :=
  s ← getV;
  jobs ← callS (store_ListDueScheduled (cfg_AssignBatchSize (sv_cfg s)));
  match jobs with
  | Err e => mret (Some e)
  | Ok jobs => forM_ jobs promote_job;; mret None
  end.

(** [handleQueuedJob] once a worker is picked: up to the push of the job to
    the worker, and after it.  The worker may report the result in between. *)
Definition assign_push (job : QueuedJob) (w : workerConn) : M W (result (string * Z * time)) :=
  executionID ← askW env_uuid;
  let attempt := int64 (q_Attempt job + 1) in
  let ex := mkJobExecution executionID (q_JobID job) (w_ID (wc_info w)) attempt
              ExecutionPending None None 0 "" None false zero_time in
  err ← callS (store_CreateExecution ex);
  match err with
  | Err e => mret (Err e)
  | Ok _ =>
      now ← askW env_now;
      err ← callS (store_UpdateJobState (q_JobID job) JobStateAssigned
                     [("worker_id", AString (w_ID (wc_info w)));
                      ("execution_id", AString executionID);
                      ("attempt", AInt attempt)]);
      match err with
      | Some e => mret (Err e)
      | None =>
          _ ← Emit EventJobAssigned (q_JobID job) executionID (w_ID (wc_info w)) attempt None;
          let job := set_q_Attempt_ExecutionID attempt executionID job in
          err ← client_ExecuteJob (wc_conn w) job executionID;
          match err with
          | Some e => mret (Err e)
          | None => mret (Ok (executionID, attempt, now))
          end
      end
  end.

Definition assign_started (job : QueuedJob) (w : workerConn) (executionID : string)
    (attempt : Z) (now : time) : M W (option GoError) :=
  err ← callS (store_UpdateJobState (q_JobID job) JobStateRunning
                 [("started_at", ATimePtr (Some now))]);
  match err with
  | Some e => mret (Some e)
  | None =>
      _ ← Emit EventJobStarted (q_JobID job) executionID (w_ID (wc_info w)) attempt None;
      _ ← updV (λ s, set_sv_workers
            (alter (map_info (λ i, set_w_ActiveJobs (int64 (w_ActiveJobs i + 1)) i))
                   (w_ID (wc_info w)) (sv_workers s)) s);
      mret None
  end.

Definition assign_job (job : QueuedJob) (w : workerConn) : M W (option GoError) :=
  pushed ← assign_push job w;
  match pushed with
  | Err e => mret (Some e)
  | Ok (executionID, attempt, now) => assign_started job w executionID attempt now
  end.

Definition handleQueuedJob (job : QueuedJob) : M W (option GoError) :=
  existing ← callS (store_GetJob (q_JobID job));
  match existing with
  | Err e => mret (Some e)
  | Ok existing =>
      match j_State existing with
      | JobStateQueued | JobStateScheduled | JobStateRetrying =>
          w ← pickWorker;
          match w with
          | None => mret (Some ErrNoWorker)
          | Some w => assign_job job w
          end
      | _ => mret None
      end
  end.

Definition RegisterWorker (w : Worker) : M W (option GoError) :=
  now ← askW env_now;
  let w := set_w_LastHeartbeat now (set_w_Status WorkerStatusHealthy w) in
  let w := if IsZero (w_RegisteredAt w) then set_w_RegisteredAt now w else w in
  err ← callS (store_UpsertWorker w);
  match err with
  | Some e => mret (Some e)
  | None =>
      err ← askW (λ n, env_dial n (w_Address w));
      match err with
      | Some e => mret (Some e)
      | None =>
          _ ← updV (λ s, set_sv_workers
                (<[w_ID w := mkWorkerConn w (w_Address w)]> (sv_workers s)) s);
          _ ← Emit EventWorkerRegistered "" "" (w_ID w) 0
                (Some [("address", AString (w_Address w)); ("capacity", AInt (w_Capacity w))]);
          mret None
      end
  end.

(** The set of the worker's pending cancellations in the order of the range,
    and the store's error. *)
Definition Heartbeat (workerID : string) (active capacity : Z) :
    M W (list string * option GoError) :=
  s ← getV;
  let found := sv_workers s !! workerID in
  _ ← match found with
      | None => mret ()
      | Some _ =>
          now ← askW env_now;
          updV (λ s, set_sv_workers
            (alter (map_info (λ i, set_w_Status WorkerStatusHealthy
                                   (set_w_LastHeartbeat now
                                   (set_w_Capacity capacity
                                   (set_w_ActiveJobs active i)))))
                   workerID (sv_workers s)) s)
      end;
  s ← getV;
  cancelIDs ← match sv_pendingCancels s !! workerID with
              | None => mret []
              | Some set => askW (λ n, env_order n (elements set))
              end;
  match sv_workers s !! workerID with
  | None => mret (cancelIDs, None)
  | Some wc =>
      err ← callS (store_UpsertWorker (wc_info wc));
      mret (cancelIDs, err)
  end.

Definition RequestCancel (jobID : string) : M W (option GoError) :=
  job ← callS (store_GetJob jobID);
  match job with
  | Err e => mret (Some e)
  | Ok job =>
      if negb (bool_decide (j_WorkerID job = "")) then
        _ ← updV (λ s, set_sv_pendingCancels
              (add_pending (j_WorkerID job) jobID (sv_pendingCancels s)) s);
        s ← getV;
        match sv_workers s !! j_WorkerID job with
        | None => mret None
        | Some wc =>
            _ ← client_CancelJob (wc_conn wc) jobID (j_ExecutionID job);
            mret None
        end
      else mret None
  end.

Definition clearPendingCancel (workerID jobID : string) : M W () :=
  updV (λ s, set_sv_pendingCancels (clear_pending workerID jobID (sv_pendingCancels s)) s).

Definition push_cancel (job : Job) : M W () :=
  if bool_decide (j_WorkerID job = "") then
    now ← askW env_now;
    _ ← callS (store_UpdateJobState (j_ID job) JobStateCancelled
                 [("completed_at", ATimePtr (Some now))]);
    _ ← Emit EventJobCancelled (j_ID job) (j_ExecutionID job) "" (j_Attempt job) None;
    mret ()
  else
    _ ← updV (λ s, set_sv_pendingCancels
          (add_pending (j_WorkerID job) (j_ID job) (sv_pendingCancels s)) s);
    s ← getV;
    match sv_workers s !! j_WorkerID job with
    | None => mret ()
    | Some wc =>
        _ ← client_CancelJob (wc_conn wc) (j_ID job) (j_ExecutionID job);
        mret ()
    end.

Definition pushPendingCancels : M W (option GoError) :=
  s ← getV;
  jobs ← callS (store_ListCancelRequested (cfg_AssignBatchSize (sv_cfg s)));
  match jobs with
  | Err e => mret (Some e)
  | Ok jobs => forM_ jobs push_cancel;; mret None
  end.

Definition Deregister (workerID : string) : M W (option GoError) :=
  _ ← updV (λ s, set_sv_workers (delete workerID (sv_workers s)) s);
  _ ← Emit EventWorkerDeregistered "" "" workerID 0 None;
  mret None.

Definition maybeRescheduleRecurring (job : Job) (from : time) : M W () :=
  if negb (bool_decide (sc_Type (j_Schedule job) = ScheduleRecurring)) then mret ()
  else match NextRunAt (j_Schedule job) from with
  | Err _ => mret ()
  | Ok next =>
      child ← callS (store_CreateJob (recurring_child job next));
      match child with
      | Err _ => mret ()
      | Ok child =>
          _ ← Emit EventJobScheduled (j_ID child) "" "" 0
                (Some [("parent_job_id", AString (j_ID job));
                       ("scheduled_at", ATime next);
                       ("recurring", ABool true)]);
          mret ()
      end
  end.

(** [if executionID != "" { store.FinishExecution(...) }] *)
Definition finish_if (executionID : string) (state : ExecutionState) (result : ExecutionResult) :
    M W () :=
  if bool_decide (executionID = "") then mret ()
  else _ ← callS (store_FinishExecution executionID state result); mret ().

(** The branches of [HandleResult] on a job that is not terminal. *)
Definition result_cancelled (jobID executionID workerID : string) (attempt : Z)
    (result : ExecutionResult) (now : time) : M W () :=
  _ ← finish_if executionID ExecutionCancelled result;
  _ ← callS (store_UpdateJobState jobID JobStateCancelled
               [("completed_at", ATimePtr (Some now)); ("last_error", AString (res_Error result))]);
  _ ← Emit EventJobCancelled jobID executionID workerID attempt
        (Some [("reason", AString (res_Reason result))]);
  mret ().

Definition result_success (job : Job) (jobID executionID workerID : string) (attempt : Z)
    (result : ExecutionResult) (now : time) : M W () :=
  _ ← finish_if executionID ExecutionCompleted result;
  _ ← callS (store_UpdateJobState jobID JobStateCompleted [("completed_at", ATimePtr (Some now))]);
  _ ← Emit EventJobCompleted jobID executionID workerID attempt
        (Some [("duration_ms", AInt (Milliseconds (res_Duration result)))]);
  maybeRescheduleRecurring job now.

Definition result_timeout (job : Job) (jobID executionID workerID : string) (attempt : Z)
    (result : ExecutionResult) (now : time) : M W () :=
  _ ← finish_if executionID ExecutionTimeout result;
  _ ← Emit EventJobTimeout jobID executionID workerID attempt
        (Some [("error", AString (res_Error result))]);
  if bool_decide (attempt < j_MaxAttempts job) then
    delay ← backoff (j_RetryPolicy job) attempt;
    let next := time_add now delay in
    _ ← callS (store_UpdateJobState jobID JobStateRetrying
                 [("next_retry_at", ATimePtr (Some next)); ("last_error", AString "timeout");
                  ("worker_id", AString ""); ("execution_id", AString "")]);
    _ ← Emit EventJobRetryScheduled jobID executionID workerID attempt
          (Some [("next_retry_at", ATime next); ("reason", AString "timeout")]);
    mret ()
  else
    _ ← callS (store_UpdateJobState jobID JobStateTimeout
                 [("completed_at", ATimePtr (Some now)); ("last_error", AString "timeout")]);
    mret ().

Definition result_failed (job : Job) (jobID executionID workerID : string) (attempt : Z)
    (result : ExecutionResult) (now : time) : M W () :=
  _ ← finish_if executionID ExecutionFailed result;
  _ ← Emit EventJobFailed jobID executionID workerID attempt
        (Some [("error", AString (res_Error result)); ("retryable", ABool (res_Retryable result))]);
  if res_Retryable result && bool_decide (attempt < j_MaxAttempts job) then
    delay ← backoff (j_RetryPolicy job) attempt;
    let next := time_add now delay in
    _ ← callS (store_UpdateJobState jobID JobStateRetrying
                 [("next_retry_at", ATimePtr (Some next)); ("last_error", AString (res_Error result));
                  ("worker_id", AString ""); ("execution_id", AString "")]);
    _ ← Emit EventJobRetryScheduled jobID executionID workerID attempt
          (Some [("next_retry_at", ATime next); ("delay_ms", AInt (Milliseconds delay))]);
    mret ()
  else
    _ ← callS (store_UpdateJobState jobID JobStateFailed
                 [("completed_at", ATimePtr (Some now)); ("last_error", AString (res_Error result))]);
    mret ().

Definition HandleResult (jobID executionID workerID : string) (attempt : Z)
    (result : ExecutionResult) : M W (option GoError) :=
  _ ← updV (λ s, set_sv_workers (release_slot workerID (sv_workers s)) s);
  _ ← clearPendingCancel workerID jobID;
  let result := with_reason result in
  job ← callS (store_GetJob jobID);
  match job with
  | Err e => mret (Some e)
  | Ok job =>
      if result_terminal (j_State job) then mret None
      else
        now ← askW env_now;
        if bool_decide (res_Reason result = ReasonCancelled) ||
           bool_decide (j_State job = JobStateCancelRequested)
        then _ ← result_cancelled jobID executionID workerID attempt result now; mret None
        else if res_Success result
        then _ ← result_success job jobID executionID workerID attempt result now; mret None
        else if bool_decide (res_Reason result = ReasonTimeout)
        then _ ← result_timeout job jobID executionID workerID attempt result now; mret None
        else _ ← result_failed job jobID executionID workerID attempt result now; mret None
  end.

(** The result the watchdog reports for the worker. *)
Definition timeout_result (job : Job) : ExecutionResult :=
  mkExecutionResult false None "timeout" true (j_Timeout job) ReasonTimeout.

Definition watchdog_job (job : Job) : M W () :=
  _ ← (if bool_decide (j_WorkerID job = "") then mret ()
       else
         s ← getV;
         match sv_workers s !! j_WorkerID job with
         | None => mret ()
         | Some wc => _ ← client_CancelJob (wc_conn wc) (j_ID job) (j_ExecutionID job); mret ()
         end);
  _ ← HandleResult (j_ID job) (j_ExecutionID job) (j_WorkerID job) (j_Attempt job)
        (timeout_result job);
  mret ().

Definition watchdogTimeouts : M W (option GoError) :=
  now ← askW env_now;
  s ← getV;
  jobs ← callS (store_ListTimedOutRunning now (cfg_AssignBatchSize (sv_cfg s)));
  match jobs with
  | Err e => mret (Some e)
  | Ok jobs => forM_ jobs watchdog_job;; mret None
  end.

(** The result stored in the execution of a job whose worker is gone. *)
Definition lost_result : ExecutionResult :=
  mkExecutionResult false None "worker lost" false 0 ReasonFailed.

Definition recover_job (workerID : string) (now : time) (j : Job) : M W () :=
  if negb (bool_decide (j_WorkerID j = workerID)) then mret ()
  else
    _ ← finish_if (j_ExecutionID j) ExecutionFailed lost_result;
    if bool_decide (j_State j = JobStateCancelRequested) then
      _ ← callS (store_UpdateJobState (j_ID j) JobStateCancelled
                   [("completed_at", ATimePtr (Some now));
                    ("last_error", AString "worker lost during cancel")]);
      _ ← Emit EventJobCancelled (j_ID j) (j_ExecutionID j) workerID (j_Attempt j)
            (Some [("reason", AString "worker_lost")]);
      mret ()
    else if bool_decide (j_Attempt j < j_MaxAttempts j) then
      _ ← callS (store_UpdateJobState (j_ID j) JobStateRetrying
                   [("next_retry_at", ATimePtr (Some now)); ("last_error", AString "worker lost");
                    ("worker_id", AString ""); ("execution_id", AString "")]);
      _ ← Emit EventJobRetryScheduled (j_ID j) (j_ExecutionID j) workerID (j_Attempt j)
            (Some [("reason", AString "worker_lost")]);
      mret ()
    else
      _ ← callS (store_UpdateJobState (j_ID j) JobStateFailed
                   [("completed_at", ATimePtr (Some now));
                    ("last_error", AString "worker lost, max attempts exceeded")]);
      _ ← Emit EventJobFailed (j_ID j) (j_ExecutionID j) workerID (j_Attempt j)
            (Some [("reason", AString "worker_lost")]);
      mret ().

Definition recoverWorkerJobs (workerID : string) : M W (option GoError) :=
  running ← callS (store_ListJobs (JobState_string JobStateRunning) 1000);
  match running with
  | Err e => mret (Some e)
  | Ok running =>
  assigned ← callS (store_ListJobs (JobState_string JobStateAssigned) 1000);
  match assigned with
  | Err e => mret (Some e)
  | Ok assigned =>
  cancelReq ← callS (store_ListJobs (JobState_string JobStateCancelRequested) 1000);
  match cancelReq with
  | Err e => mret (Some e)
  | Ok cancelReq =>
  now ← askW env_now;
  forM_ (running ++ assigned ++ cancelReq) (recover_job workerID now);;
  _ ← updV (λ s, set_sv_pendingCancels (delete workerID (sv_pendingCancels s)) s);
  mret None
  end end end.

Definition lose_worker (workerID : string) : M W () :=
  _ ← updV (λ s, set_sv_workers (delete workerID (sv_workers s)) s);
  _ ← Emit EventWorkerUnavailable "" "" workerID 0 None;
  _ ← recoverWorkerJobs workerID;
  mret ().

Definition checkWorkers : M W (option GoError) :=
  s ← getV;
  stale ← callS (store_MarkStaleWorkers (cfg_HeartbeatTimeout (sv_cfg s))
                   (cfg_SuspectGracePeriod (sv_cfg s)));
  match stale with
  | Err e => mret (Some e)
  | Ok (_, unavailable) => forM_ unavailable lose_worker;; mret None
  end.

(** [Run]: its first statement, one tick of its loop (the errors are logged)
    and what it does when the context ends; the consumer it starts calls
    [handleQueuedJob] for every delivery. *)
Definition run_start : M W () :=
  s ← getV;
  _ ← Emit EventSchedulerStarted "" "" "" 0
        (Some [("scheduler_id", AString (cfg_ID (sv_cfg s)))]);
  mret ().

Definition run_stop : M W (option GoError) :=
  _ ← Emit EventSchedulerStopped "" "" "" 0 None;
  mret (Some ContextCanceled).

Definition poll_tick : M W () :=
  _ ← promoteDueJobs;
  _ ← pushPendingCancels;
  _ ← watchdogTimeouts;
  _ ← checkWorkers;
  mret ().
End service.
