(* ===== verification/Lifecycle.v ===== *)
(** * The job lifecycle as an abstract specification, and the scheduler's
      methods as a refinement of it

    [edge] is the transition relation of job states the scheduler is allowed,
    [evolves] what may happen to a job in one of its methods: its
    specification never changes, its state moves along edges, and a job in a
    terminal state is not touched.  Every method of [Service] refines
    [evolves] against any store with the weak contract [JobStoreSafe] and any
    lawful queue, for every behaviour of the environment: calls of the store may
    fail, before or after they took effect. *)

From S2P Require Import Prelude.
From S2P Require Import Float64.
From S2P Require Import Domain.
From S2P Require Import Ports.
From S2P Require Import Calls.
From S2P Require Import WorkerClient.
From S2P Require Import Backoff.
From S2P Require Import Scheduler.

(** ** The specification *)

(** The states in which a job is over. *)
Definition final (s : JobState) : bool :=
  match s with
  | JobStateCompleted | JobStateFailed | JobStateCancelled | JobStateTimeout
  | JobStateExpired => true
  | JobStateNone | JobStateCreated | JobStateScheduled | JobStateQueued | JobStateAssigned
  | JobStateRunning | JobStateRetrying | JobStateCancelRequested => false
  end.

(** Outcomes a reported result may have. *)
Definition outcome (s : JobState) : bool :=
  match s with
  | JobStateCompleted | JobStateFailed | JobStateTimeout | JobStateRetrying
  | JobStateCancelled => true
  | _ => false
  end.

Definition edge (a b : JobState) : bool :=
  match a, b with
  | (JobStateScheduled | JobStateRetrying), JobStateQueued => true
  | (JobStateScheduled | JobStateRetrying | JobStateQueued), JobStateAssigned => true
  | JobStateAssigned, JobStateRunning => true
  | JobStateCancelRequested, _ => bool_decide (b = JobStateCancelled)
  | _, _ => negb (final a) && outcome b
  end.

Definition evolves (j j' : Job) : Prop :=
  same_spec j j' ∧ rtc edge (j_State j) (j_State j') ∧
  (final (j_State j) → j' = j).

(** Every job of [m] is still there and evolved. *)
Definition evolve_all (m m' : gmap string Job) : Prop :=
  ∀ k j, m !! k = Some j → ∃ j', m' !! k = Some j' ∧ evolves j j'.

#[global] Instance evolves_preorder : PreOrder evolves.
Proof.
  split.
  - intros j. by split_and!.
  - intros j1 j2 j3 (Hs & Hr & Ht) (Hs' & Hr' & Ht'). split_and!.
    + by etrans.
    + by etrans.
    + intros H1. specialize (Ht H1). subst j2. by apply Ht'.
Qed.

#[global] Instance evolve_all_preorder : PreOrder evolve_all.
Proof.
  split.
  - intros m k j Hk. by exists j.
  - intros m1 m2 m3 H1 H2 k j Hk. destruct (H1 k j Hk) as (j' & Hk' & He).
    destruct (H2 k j' Hk') as (j'' & Hk'' & He'). exists j''. split; [done|]. by etrans.
Qed.

(** The test of [HandleResult] is the test for a final state. *)
Lemma result_terminal_final s : result_terminal s = final s.
Proof. by destruct s. Qed.

Lemma edge_not_terminal a b : edge a b → final a = false.
Proof. by destruct a, b. Qed.

Lemma edge_evolves j j' : same_spec j j' → edge (j_State j) (j_State j') → evolves j j'.
Proof.
  intros Hs He. split_and!; [done|by apply rtc_once|]. rewrite (edge_not_terminal _ _ He). done.
Qed.

Lemma evolve_all_insert m id j j' :
  m !! id = Some j → evolves j j' → evolve_all m (<[id := j']> m).
Proof.
  intros Hj He k jk Hk. rewrite lookup_insert. case_decide; subst; [|by exists jk].
  exists j'. by simplify_eq.
Qed.

Lemma evolve_all_fresh m id j :
  m !! id = None → evolve_all m (<[id := j]> m).
Proof.
  intros Hid k jk Hk. rewrite lookup_insert_ne by congruence. by exists jk.
Qed.

Lemma keyed_insert m id j : keyed m → j_ID j = id → keyed (<[id := j]> m).
Proof.
  intros Hm Hid k jk. rewrite lookup_insert. case_decide; [naive_solver|]. apply Hm.
Qed.

Lemma keyed_update m id j j' :
  keyed m → m !! id = Some j → same_spec j j' → keyed (<[id := j']> m).
Proof.
  intros Hm Hj [Hs _]. apply keyed_insert; [done|]. rewrite Hs. by apply Hm.
Qed.

(** ** The invariant and the compositional statement *)

Section handlers.
Context `{Env, !EnvLaws} {St Qu V : Type}.
Context `{!JobStore St, !JobsView St, !JobStoreSafe St}.
Context `{!Queue Qu, !QueueView Qu, !QueueLaws Qu}.
#[local] Abbreviation W := (World St Qu V).

(** The jobs are under their identifiers, which are in the form of the store. *)
Definition well_keyed (m : gmap string Job) : Prop :=
  keyed m ∧ ∀ k, is_Some (m !! k) → store_key St k = k.

Definition good (w : W) : Prop :=
  well_keyed (jobs (g_store w)) ∧
  ∀ m, (g_tick w ≤ m)%nat → jobs (g_store w) !! env_uuid m = None.

Definition moved (w w' : W) : Prop :=
  good w' ∧ (g_tick w ≤ g_tick w')%nat ∧ evolve_all (jobs (g_store w)) (jobs (g_store w')).

(** A handler that refines the lifecycle. *)
Definition refines {A} (m : M W A) : Prop :=
  ∀ w, good w → wp m (λ _ w', moved w w') w.

Lemma moved_refl w : good w → moved w w.
Proof. intros Hg. split; [done|]. split; [done|reflexivity]. Qed.

Lemma moved_trans w1 w2 w3 : moved w1 w2 → moved w2 w3 → moved w1 w3.
Proof.
  intros (_ & Ht & He) (Hg & Ht' & He'). split; [done|]. split; [lia|by etrans].
Qed.

(** A step that leaves the jobs alone. *)
Lemma moved_same n s q v ev rp n' s' q' v' ev' rp' :
  good (mkWorld n s q v ev rp) → (n ≤ n')%nat → jobs s' = jobs s →
  moved (mkWorld n s q v ev rp) (mkWorld n' s' q' v' ev' rp').
Proof.
  intros [Hk Hf] Hn Hj. unfold moved, good. cbn in *. rewrite Hj.
  split; [split; [done|]|split; [done|reflexivity]]. intros m Hm. apply Hf. lia.
Qed.

Lemma good_insert n s q v ev rp n' s' q' v' ev' rp' k j :
  good (mkWorld n s q v ev rp) → (n ≤ n')%nat → j_ID j = k → store_key St k = k →
  (∀ m, (n' ≤ m)%nat → env_uuid m ≠ k) → jobs s' = <[k := j]> (jobs s) →
  good (mkWorld n' s' q' v' ev' rp').
Proof.
  intros [[Hk Hc] Hf] Hn Hj Hkey Hfresh Hjs. unfold good, well_keyed. cbn in *. rewrite Hjs.
  split; [split|].
  - by apply keyed_insert.
  - intros k' [Hk'|[_ Hk']]%lookup_insert_is_Some; [by subst|by apply Hc].
  - intros m Hm. rewrite lookup_insert_ne; [|by intros ->; eapply Hfresh]. apply Hf. lia.
Qed.

(** A step that updates one job along an edge. *)
Lemma moved_update n s q v ev rp n' s' q' v' ev' rp' k j j' :
  good (mkWorld n s q v ev rp) → (n ≤ n')%nat → jobs s !! k = Some j →
  edge (j_State j) (j_State j') → same_spec j j' → jobs s' = <[k := j']> (jobs s) →
  moved (mkWorld n s q v ev rp) (mkWorld n' s' q' v' ev' rp').
Proof.
  intros Hg Hn Hj Hed Hs Hjs. pose proof Hg as [[Hk Hc] Hf]. cbn in Hk, Hc, Hf. split; [|split].
  - eapply good_insert; [done|done| | | |done].
    + destruct Hs as [-> _]. by apply Hk.
    + by apply Hc.
    + intros m Hm <-. rewrite Hf in Hj by lia. done.
  - done.
  - cbn. rewrite Hjs. eapply evolve_all_insert; [done|]. by apply edge_evolves.
Qed.

Lemma refines_ret {A} (a : A) : refines (mret a).
Proof. intros w Hg. apply wp_ret. by apply moved_refl. Qed.

Lemma refines_bind {A B} (m : M W A) (f : A → M W B) :
  refines m → (∀ a, refines (f a)) → refines (m ≫= f).
Proof.
  intros Hm Hf w Hg. apply wp_bind. eapply wp_mono; [by apply Hm|].
  intros a w' Hw. eapply wp_mono; [apply Hf, Hw|].
  intros b w'' Hw'. exact (moved_trans _ _ _ Hw Hw').
Qed.

Lemma refines_forM {A} (l : list A) (f : A → M W ()) :
  (∀ x, x ∈ l → refines (f x)) → refines (forM_ l f).
Proof.
  induction l as [|x l IH]; intros Hf; [apply refines_ret|].
  simpl. apply refines_bind; [apply Hf; set_solver|]. intros []. apply IH. set_solver.
Qed.

(** ** Triples over the stored jobs

    [hoare P m Q]: from a good world whose jobs satisfy [P] the handler moves
    along the lifecycle and ends with jobs that satisfy [Q]. *)
Definition hoare {A} (P : gmap string Job → Prop) (m : M W A)
    (Q : A → gmap string Job → Prop) : Prop :=
  ∀ w, good w → P (jobs (g_store w)) →
    wp m (λ a w', moved w w' ∧ Q a (jobs (g_store w'))) w.

(** A handler that leaves the jobs alone. *)
Definition keeps {A} (m : M W A) : Prop := ∀ P, hoare P m (λ _, P).

Lemma hoare_refines {A} P (m : M W A) Q :
  hoare P m Q → (∀ jm, P jm) → refines m.
Proof.
  intros Hm HP w Hg. eapply wp_mono; [apply Hm; [done|apply HP]|]. by intros a w' [? _].
Qed.

Lemma refines_hoare {A} P (m : M W A) : refines m → hoare P m (λ _ _, True).
Proof. intros Hm w Hg _. eapply wp_mono; [by apply Hm|]. by intros a w' ?. Qed.

Lemma hoare_ret {A} (a : A) (Q : A → gmap string Job → Prop) : hoare (Q a) (mret a) Q.
Proof. intros w Hg HP. apply wp_ret. split; [by apply moved_refl|done]. Qed.

Lemma hoare_bind {A B} P R Q (m : M W A) (f : A → M W B) :
  hoare P m R → (∀ a, hoare (R a) (f a) Q) → hoare P (m ≫= f) Q.
Proof.
  intros Hm Hf w Hg HP. apply wp_bind. eapply wp_mono; [by apply Hm|].
  intros a w' [Hw HR]. eapply wp_mono; [apply Hf; [apply Hw|done]|].
  intros b w'' [Hw' HQ]. split; [|done]. exact (moved_trans _ _ _ Hw Hw').
Qed.

Lemma hoare_pre {A} (P P' : gmap string Job → Prop) (m : M W A) Q :
  hoare P m Q → (∀ jm, well_keyed jm → P' jm → P jm) → hoare P' m Q.
Proof. intros Hm HP w Hg HP'. apply Hm; [done|]. apply HP; [apply Hg|done]. Qed.

Lemma hoare_post {A} P (m : M W A) Q Q' :
  hoare P m Q → (∀ a jm, Q a jm → Q' a jm) → hoare P m Q'.
Proof.
  intros Hm HQ w Hg HP. eapply wp_mono; [by apply Hm|]. intros a w' [? ?]. eauto.
Qed.

Lemma hoare_pure {A} (φ : Prop) P (m : M W A) Q :
  (φ → hoare P m Q) → hoare (λ jm, φ ∧ P jm) m Q.
Proof. intros Hm w Hg [Hφ HP]. by apply Hm. Qed.

Lemma hoare_keeps {A B} P (m : M W A) (f : A → M W B) Q :
  keeps m → (∀ a, hoare P (f a) Q) → hoare P (m ≫= f) Q.
Proof. intros Hm Hf. by eapply hoare_bind; [apply Hm|]. Qed.

Lemma keeps_refines {A} (m : M W A) : keeps m → refines m.
Proof. intros Hm. by eapply (hoare_refines (λ _, True)). Qed.

Lemma keeps_ret {A} (a : A) : keeps (mret a).
Proof. intros P. apply (hoare_ret a (λ _, P)). Qed.

Lemma keeps_bind {A B} (m : M W A) (f : A → M W B) :
  keeps m → (∀ a, keeps (f a)) → keeps (m ≫= f).
Proof. intros Hm Hf P. apply hoare_keeps; [done|]. intros a. apply Hf. Qed.

(** A loop whose body consumes the invariant of its list. *)
Lemma hoare_forM {A} (I : list A → gmap string Job → Prop) (f : A → M W ()) l :
  (∀ x l', hoare (I (x :: l')) (f x) (λ _, I l')) →
  hoare (I l) (forM_ l f) (λ _ _, True).
Proof.
  intros Hf. induction l as [|x l IH]; simpl.
  - by intros w Hg _; apply wp_ret; split; [apply moved_refl|].
  - eapply hoare_bind; [apply Hf|]. by intros [].
Qed.

(** *** The calls that leave the jobs alone *)

Lemma keeps_intro {A} (m : M W A) :
  (∀ n s q v ev rp, wp m (λ _ w', ∃ n' s' q' v' ev' rp', w' = mkWorld n' s' q' v' ev' rp' ∧
     (n ≤ n')%nat ∧ jobs s' = jobs s) (mkWorld n s q v ev rp)) → keeps m.
Proof.
  intros Hm P [n s q v ev rp] Hg HP. eapply wp_mono; [apply Hm|].
  intros a w' (n' & s' & q' & v' & ev' & rp' & -> & Hn & Hj).
  split; [by apply moved_same|]. cbn in *. by rewrite Hj.
Qed.

Ltac keeps_call := apply keeps_intro; intros n s q v ev rp.
Ltac kept := do 6 eexists; split; [reflexivity|]; split; [lia|done].

Lemma keeps_askW {A} (f : nat → A) : keeps (askW f).
Proof. keeps_call. apply wp_askW. kept. Qed.
Lemma keeps_getV : keeps getV.
Proof. keeps_call. apply wp_getV. kept. Qed.
Lemma keeps_updV f : keeps (updV f).
Proof. keeps_call. apply wp_updV. kept. Qed.
Lemma keeps_Emit ty j x k a p : keeps (Emit ty j x k a p).
Proof. keeps_call. apply wp_Emit. intros r. kept. Qed.
Lemma keeps_rpc {A} c (f : nat → A) : keeps (rpc c f).
Proof. keeps_call. apply wp_rpc. kept. Qed.
Lemma keeps_Enqueue job : keeps (callQ (queue_Enqueue job)).
Proof. keeps_call. apply wp_Enqueue; intros; kept. Qed.

(** A call of the store. *)
Lemma keeps_quiet {A} (m : M (nat * St) A) : quiet m → keeps (callS m).
Proof.
  intros Hm. keeps_call. eapply wp_callS; [apply Hm|]. intros a n' s' [Hn Hs]. cbn in *. kept.
Qed.
Lemma keeps_ListTimedOutRunning now limit : keeps (callS (store_ListTimedOutRunning now limit)).
Proof. apply keeps_quiet, safe_ListTimedOutRunning. Qed.
Lemma keeps_ListDueScheduled limit : keeps (callS (store_ListDueScheduled limit)).
Proof. apply keeps_quiet, safe_ListDueScheduled. Qed.
Lemma keeps_FinishExecution id st res : keeps (callS (store_FinishExecution id st res)).
Proof. apply keeps_quiet, safe_FinishExecution. Qed.
Lemma keeps_CreateExecution ex : x_ID ex ≠ "" → keeps (callS (store_CreateExecution ex)).
Proof. intros Hx. by apply keeps_quiet, safe_CreateExecution. Qed.
Lemma keeps_UpsertWorker w : keeps (callS (store_UpsertWorker w)).
Proof. apply keeps_quiet, safe_UpsertWorker. Qed.
Lemma keeps_MarkStaleWorkers to gr : keeps (callS (store_MarkStaleWorkers to gr)).
Proof. apply keeps_quiet, safe_MarkStaleWorkers. Qed.

(** *** The calls that read or write the jobs *)

Lemma hoare_GetJob id P :
  hoare P (callS (store_GetJob id)) (λ r jm, P jm ∧
    ∀ j, r = Ok j → jm !! store_key St id = Some j).
Proof.
  intros [n s q v ev rp] Hg HP. eapply wp_callS; [apply safe_GetJob|].
  intros a n' s' (Hn & Hs & Ha). cbn in *. rewrite Hs. split; [by apply moved_same|done].
Qed.

Lemma keeps_GetJob id : keeps (callS (store_GetJob id)).
Proof. intros P. eapply hoare_post; [apply hoare_GetJob|]. by intros a jm [? _]. Qed.

(** A list call, told by its specification. *)
Lemma hoare_list (m : M (nat * St) (result (list Job))) keep P :
  lists m keep →
  hoare P (callS m) (λ r jm, P jm ∧ ∀ l, r = Ok l → sublisting keep jm l).
Proof.
  intros Hm [n s q v ev rp] Hg HP. eapply wp_callS; [apply Hm|].
  intros a n' s' (Hn & Hs & Hl). cbn in *. rewrite Hs. split; [by apply moved_same|done].
Qed.

(** An update of a job whose state has an edge to the new one: it fails and does
    nothing, or it takes effect. *)
Lemma hoare_UpdateJobState id st f (P : gmap string Job → Prop) :
  (∀ jm, P jm → ∃ j, jm !! store_key St id = Some j ∧ edge (j_State j) st) →
  hoare P (callS (store_UpdateJobState id st f))
    (λ r jm', (r ≠ None ∧ P jm') ∨
       ∃ jm, P jm ∧ state_set (store_key St id) st [] jm jm').
Proof.
  intros HP [n s q v ev rp] Hg Hj. destruct (HP _ Hj) as (j & Hid & Hed).
  eapply wp_callS; [apply safe_UpdateJobState|]. intros r n' s' (Hn & Hr). cbn in *.
  destruct Hr as [[Hr Hs]|Hs].
  - split; [by apply moved_same|]. left. by rewrite Hs.
  - split; [|right; by exists (jobs s)]. destruct Hs as (j0 & j' & Hj0 & _ & Hsp & <- & Hjs).
    simplify_eq. by eapply moved_update.
Qed.

(** A guarded transition whose every source has an edge to the target. *)
Lemma refines_UpdateJobStateIf id st f only :
  only ≠ [] → Forall (λ a, edge a st) only →
  refines (callS (store_UpdateJobStateIf id st f only)).
Proof.
  intros Hne Honly [n s q v ev rp] Hg. eapply wp_callS; [apply safe_UpdateJobStateIf|].
  intros r n' s' (Hn & [[Hs _]|(j & j' & Hj & Ha & Hsp & <- & Hjs)]); cbn in *;
    [by apply moved_same|].
  eapply moved_update; [done..| |done|done]. unfold allowed_from in Ha.
  destruct only as [|a only]; [done|]. apply bool_decide_eq_true in Ha.
  by eapply (proj1 (Forall_forall _ _) Honly).
Qed.

(** A job that is created under a new UUID. *)
Lemma refines_CreateJob_fresh job :
  j_ID job = "" → refines (callS (store_CreateJob job)).
Proof.
  intros Hid [n s q v ev rp] Hg.
  eapply wp_callS; [apply safe_CreateJob; unfold unused_id; by rewrite bool_decide_true; [apply Hg|]|].
  rewrite Hid, bool_decide_true by done.
  intros r n' s' (Hn & [Hs|(id & j' & (m & Hm & ->) & Hj & Hjs)] & _); cbn in *;
    [by apply moved_same|].
  split; [|split; [done|]].
  - eapply good_insert; [done|done|done|apply safe_key_uuid| |done].
    intros m' Hm' ?%env_uuid_inj. lia.
  - cbn. rewrite Hjs. apply evolve_all_fresh. apply Hg. cbn. lia.
Qed.
End handlers.

Create HintDb refines.
#[export] Hint Resolve keeps_ret keeps_askW keeps_getV keeps_updV keeps_Emit keeps_rpc
  keeps_Enqueue keeps_GetJob keeps_ListTimedOutRunning keeps_ListDueScheduled keeps_FinishExecution keeps_UpsertWorker keeps_MarkStaleWorkers : refines.

(** Descend through the sequencing and the case distinctions of a handler
    that leaves the jobs alone ... *)
Ltac keeps_step :=
  lazymatch goal with
  | |- keeps (_ ≫= _) => apply keeps_bind; [|intros ?]
  | |- keeps (if ?b then _ else _) => destruct b eqn:?
  | |- keeps (match ?x with _ => _ end) => destruct x eqn:?
  | |- keeps _ => solve [eauto with refines nocore]
  end.
Ltac keeps_all := repeat keeps_step.

(** ... or that refines the lifecycle call by call. *)
Ltac refine_step :=
  lazymatch goal with
  | |- refines (_ ≫= _) => apply refines_bind; [|intros ?]
  | |- refines (forM_ _ _) => apply refines_forM; intros ? ?
  | |- refines (if ?b then _ else _) => destruct b eqn:?
  | |- refines (match ?x with _ => _ end) => destruct x eqn:?
  | |- refines _ =>
      first [solve [eauto with refines nocore] | apply keeps_refines; solve [eauto with refines nocore]]
  end.
Ltac refine_all := repeat refine_step.
