(* ===== verification/Refinement.v ===== *)
(** * Every method of the scheduler refines the job lifecycle

    The methods of scheduler.go, each shown to move the stored jobs along
    [evolves] (Lifecycle.v) against any lawful store and queue, then the step
    relation of the whole control plane and what holds in every state it
    reaches. *)

From S2P Require Import Prelude.
From S2P Require Import Float64.
From S2P Require Import Domain.
From S2P Require Import Ports.
From S2P Require Import Calls.
From S2P Require Import WorkerClient.
From S2P Require Import Backoff.
From S2P Require Import Scheduler.
From S2P Require Import Lifecycle.

(** A list of jobs as they are stored now, each once. *)
Definition snapshot (l : list Job) (jm : gmap string Job) : Prop :=
  NoDup (j_ID <$> l) ∧ ∀ j, j ∈ l → jm !! j_ID j = Some j.

Lemma sublisting_snapshot keep jm l : keyed jm → sublisting keep jm l → snapshot l jm.
Proof.
  intros Hk (kvs & -> & Hnd & Hin).
  assert (j_ID <$> kvs.*2 = kvs.*1) as Heq.
  { rewrite <- list_fmap_compose. apply list_fmap_ext. intros i [k j] Hi.
    apply list_elem_of_lookup_2 in Hi. apply Hin in Hi as [Hi _]. by apply Hk in Hi. }
  split; [by rewrite Heq|].
  intros j ([k j'] & -> & Hkj)%list_elem_of_fmap. destruct (Hin _ _ Hkj) as [Hj _].
  cbn in *. by rewrite (Hk _ _ Hj).
Qed.

Lemma listing_snapshot keep limit jm l : keyed jm → listing keep limit jm l → snapshot l jm.
Proof. intros Hk Hl. by eapply sublisting_snapshot, listing_sublisting. Qed.

Lemma sublisting_keep keep jm l j : sublisting keep jm l → j ∈ l → keep j.
Proof.
  intros (kvs & -> & _ & Hin) ([k j'] & -> & Hkj)%list_elem_of_fmap.
  by apply (Hin k).
Qed.

Lemma snapshot_tail j l jm : snapshot (j :: l) jm → snapshot l jm.
Proof. intros [Hnd Hl]. apply NoDup_cons in Hnd as [_ Hnd]. split; [done|]. set_solver. Qed.

Lemma snapshot_head j l jm : snapshot (j :: l) jm → jm !! j_ID j = Some j.
Proof. intros [_ Hl]. apply Hl. set_solver. Qed.

Lemma listing_keep keep limit jm l j : listing keep limit jm l → j ∈ l → keep j.
Proof. intros Hl. by eapply sublisting_keep, listing_sublisting. Qed.

(** Writing the first job leaves the rest of the snapshot in place. *)
Lemma snapshot_update j l jm j' : snapshot (j :: l) jm → snapshot l (<[j_ID j := j']> jm).
Proof.
  intros [Hnd Hl]. apply NoDup_cons in Hnd as [Hni Hnd]. split; [done|].
  intros i Hi. rewrite lookup_insert_ne; [apply Hl; set_solver|].
  intros Heq. apply Hni. rewrite Heq. by apply list_elem_of_fmap_2.
Qed.

(** Snapshots of jobs in different states do not overlap. *)
Lemma snapshot_app l1 l2 jm :
  snapshot l1 jm → snapshot l2 jm → (∀ j, j ∈ l1 → j ∈ l2 → False) → snapshot (l1 ++ l2) jm.
Proof.
  intros [Hnd1 Hl1] [Hnd2 Hl2] Hdisj. split.
  - rewrite fmap_app. apply NoDup_app. split_and!; [done| |done].
    intros k (j1 & -> & H1)%list_elem_of_fmap (j2 & Heq & H2)%list_elem_of_fmap.
    pose proof (Hl1 _ H1) as E1. pose proof (Hl2 _ H2) as E2. rewrite Heq in E1. naive_solver.
  - intros j [?|?]%elem_of_app; eauto.
Qed.

Section methods.
Context `{Env, !EnvLaws, CronLib} {St Qu : Type}.
Context `{!JobStore St, !JobsView St, !JobStoreSafe St}.
Context `{!Queue Qu, !QueueView Qu, !QueueLaws Qu}.
#[local] Abbreviation W := (World St Qu Service).
#[local] Abbreviation refinesW m := (refines (m : M W _)).
#[local] Abbreviation keepsW m := (keeps (m : M W _)).

(** ** The methods that leave the jobs alone *)

Lemma keeps_finish_if id st res : keepsW (finish_if id st res).
Proof. unfold finish_if. keeps_all. Qed.

Lemma keeps_backoff p a : keepsW (backoff p a).
Proof. unfold backoff. keeps_all. Qed.

Lemma keeps_pickWorker : keepsW pickWorker.
Proof. unfold pickWorker. keeps_all. Qed.

Lemma keeps_client_CancelJob addr j x : keepsW (client_CancelJob addr j x).
Proof. unfold client_CancelJob. keeps_all. Qed.

Lemma keeps_client_ExecuteJob addr j x : keepsW (client_ExecuteJob addr j x).
Proof. unfold client_ExecuteJob. keeps_all. Qed.

Lemma keeps_clearPendingCancel w j : keepsW (clearPendingCancel w j).
Proof. unfold clearPendingCancel. keeps_all. Qed.

Lemma keeps_RegisterWorker w : keepsW (RegisterWorker w).
Proof. unfold RegisterWorker. keeps_all. Qed.

Lemma keeps_Heartbeat k a c : keepsW (Heartbeat k a c).
Proof. unfold Heartbeat. keeps_all. Qed.

Lemma keeps_Deregister k : keepsW (Deregister k).
Proof. unfold Deregister. keeps_all. Qed.

#[local] Hint Resolve keeps_finish_if keeps_backoff keeps_pickWorker keeps_client_CancelJob
  keeps_client_ExecuteJob keeps_clearPendingCancel keeps_RegisterWorker keeps_Heartbeat
  keeps_Deregister : refines.

(** Pass the calls that leave the jobs alone. *)
Ltac skip1 := apply hoare_keeps; [solve [eauto with refines nocore]|intros ?].
Ltac skip := repeat skip1.

(** Finish with calls that refine whatever the jobs are. *)
Ltac rest := apply refines_hoare; refine_all.

(** The job [id] is stored and satisfies [ok]. *)
Definition stored (id : string) (ok : Job → Prop) (jm : gmap string Job) : Prop :=
  ∃ j, jm !! store_key St id = Some j ∧ ok j.

Lemma hoare_update id st f (ok : Job → Prop) :
  (∀ j, ok j → edge (j_State j) st) →
  hoare (V := Service) (Qu := Qu) (St := St) (stored id ok)
    (callS (store_UpdateJobState id st f))
    (λ r jm, r = None → stored id (λ j, j_State j = st) jm).
Proof.
  intros Hed. eapply hoare_post; [apply hoare_UpdateJobState|].
  - intros jm (j & Hj & Hok). eauto.
  - intros r jm' [[Hr _]|(jm & _ & j & j' & _ & _ & _ & Hst & ->)]; [done|]. intros _.
    exists j'. by rewrite lookup_insert_eq.
Qed.

(** After the update of the first job the snapshot has the rest. *)
Lemma hoare_update_head job l st f :
  edge (j_State job) st →
  hoare (V := Service) (Qu := Qu) (St := St) (snapshot (job :: l))
    (callS (store_UpdateJobState (j_ID job) st f)) (λ _, snapshot l).
Proof.
  intros Hed w Hg HP.
  assert (store_key St (j_ID job) = j_ID job) as Hkey.
  { apply Hg. by rewrite (snapshot_head _ _ _ HP). }
  eapply wp_mono; [apply (hoare_UpdateJobState _ _ _ (λ jm, snapshot (job :: l) jm)); [|done|done]|].
  - intros jm Hs. rewrite Hkey. exists job. split; [by eapply snapshot_head|done].
  - intros r w' [Hm Hr]. split; [done|]. rewrite Hkey in Hr.
    destruct Hr as [[_ Hr]|(jm & Hs & j & j' & _ & _ & _ & _ & ->)];
      [by eapply snapshot_tail|by apply snapshot_update].
Qed.

(** ** promoteDueJobs *)

Lemma refines_promote_job job : refinesW (promote_job job).
Proof.
  unfold promote_job. refine_all.
  apply refines_UpdateJobStateIf; [done|]. by repeat constructor.
Qed.

#[local] Hint Resolve refines_promote_job : refines.

Lemma refines_promoteDueJobs : refinesW promoteDueJobs.
Proof. unfold promoteDueJobs. refine_all. Qed.

(** ** handleQueuedJob *)

Definition queueable (s : JobState) : bool :=
  match s with
  | JobStateQueued | JobStateScheduled | JobStateRetrying => true
  | _ => false
  end.

Ltac err_ret := eapply hoare_pre; [apply hoare_ret|by intros; simplify_eq].

Lemma hoare_assign_push job w :
  hoare (V := Service) (Qu := Qu) (St := St)
    (stored (q_JobID job) (λ j, queueable (j_State j))) (assign_push job w)
    (λ r jm, ∀ x, r = Ok x → stored (q_JobID job) (λ j, j_State j = JobStateAssigned) jm).
Proof.
  unfold assign_push. eapply hoare_bind.
  { (* the identifier is a UUID, so it is not empty *)
    intros [n s q v ev rp] Hg HP. apply wp_askW.
    instantiate (1 := λ id jm, id ≠ "" ∧ stored (q_JobID job) (λ j, queueable (j_State j)) jm).
    split; [apply moved_same; [done|lia|done]|]. split; [apply env_uuid_ne|done]. }
  intros executionID. apply hoare_pure. intros Hne. apply hoare_keeps.
  { by apply keeps_CreateExecution. }
  intros [ex|e]; [|err_ret].
  skip. eapply hoare_bind; [apply hoare_update|].
  { by intros j; destruct (j_State j). }
  intros [e|]; [err_ret|].
  eapply hoare_pre with (P := stored (q_JobID job) (λ j, j_State j = JobStateAssigned));
    [|eauto].
  skip. case_match; [err_ret|].
  eapply hoare_pre; [apply hoare_ret|by intros jm _ Hs x _].
Qed.

Lemma hoare_assign_job job w :
  hoare (V := Service) (Qu := Qu) (St := St)
    (stored (q_JobID job) (λ j, queueable (j_State j))) (assign_job job w) (λ _ _, True).
Proof.
  unfold assign_job. eapply hoare_bind; [apply hoare_assign_push|].
  intros [[[x a] now]|e]; [|rest]. unfold assign_started.
  eapply hoare_pre with (P := stored (q_JobID job) (λ j, j_State j = JobStateAssigned));
    [|eauto].
  eapply hoare_bind; [apply hoare_update|].
  { by intros j ->. }
  intros [e'|]; rest.
Qed.

Lemma refines_handleQueuedJob job : refinesW (handleQueuedJob job).
Proof.
  unfold handleQueuedJob. eapply (hoare_refines (λ _, True)); [|done].
  eapply hoare_bind; [apply hoare_GetJob|]. intros [j|e]; [|rest].
  eapply hoare_pre with (P := stored (q_JobID job) (λ j', j' = j)).
  2:{ intros jm _ [_ Hr]. exists j. split; [by apply Hr|done]. }
  destruct (queueable (j_State j)) eqn:Hq; [|destruct (j_State j); try done; rest].
  assert (hoare (V := Service) (Qu := Qu) (St := St) (stored (q_JobID job) (λ j', j' = j))
    (w ← pickWorker; match w with None => mret (Some ErrNoWorker) | Some w => assign_job job w end)
    (λ _ _, True)) as Hgo.
  { skip. case_match; [|rest]. eapply hoare_pre; [apply hoare_assign_job|].
    intros jm _ (j' & Hj' & ->). exists j. split; [done|]. by rewrite Hq. }
  by destruct (j_State j).
Qed.

#[local] Hint Resolve refines_promoteDueJobs refines_handleQueuedJob : refines.

(** ** RequestCancel and pushPendingCancels *)

Lemma refines_RequestCancel id : refinesW (RequestCancel id).
Proof. unfold RequestCancel. refine_all. Qed.

Lemma hoare_push_cancel job l :
  j_State job = JobStateCancelRequested →
  hoare (V := Service) (Qu := Qu) (St := St) (snapshot (job :: l)) (push_cancel job)
    (λ _, snapshot l).
Proof.
  intros Hst. unfold push_cancel. case_bool_decide.
  - skip. eapply hoare_bind; [apply hoare_update_head; by rewrite Hst|].
    intros r. skip. apply keeps_ret.
  - eapply hoare_pre; [|intros jm _; apply snapshot_tail]. skip.
    case_match; skip; apply keeps_ret.
Qed.

(** A loop over a snapshot of jobs that satisfy [ok]. *)
Lemma hoare_snapshot_loop (f : Job → M W ()) (ok : Job → Prop) l :
  (∀ j l', ok j → hoare (snapshot (j :: l')) (f j) (λ _, snapshot l')) →
  Forall ok l → hoare (snapshot l) (forM_ l f) (λ _ _, True).
Proof.
  intros Hf Hok. eapply hoare_pre.
  - apply (hoare_forM (λ l jm, Forall ok l ∧ snapshot l jm)). intros x l'.
    apply hoare_pure. intros [Hx Hl']%Forall_cons.
    eapply hoare_post; [by apply Hf|]. done.
  - done.
Qed.

Lemma refines_pushPendingCancels : refinesW pushPendingCancels.
Proof.
  unfold pushPendingCancels. eapply (hoare_refines (λ _, True)); [|done]. skip.
  eapply hoare_bind; [apply hoare_list, safe_ListCancelRequested|].
  intros [l|e]; [|rest].
  eapply hoare_bind with (R := λ _ _, True); [|intros; rest].
  intros w Hg [_ Hl]. specialize (Hl l eq_refl).
  eapply (hoare_snapshot_loop push_cancel (λ j, j_State j = JobStateCancelRequested)).
  - intros; by apply hoare_push_cancel.
  - apply Forall_forall. intros j Hj. eapply sublisting_keep in Hl; [|done].
    by apply bool_decide_unpack in Hl.
  - done.
  - eapply sublisting_snapshot; [apply Hg|done].
Qed.

(** ** HandleResult and the watchdog *)

Lemma refines_maybeReschedule job t : refinesW (maybeRescheduleRecurring job t).
Proof. unfold maybeRescheduleRecurring. refine_all. by apply refines_CreateJob_fresh. Qed.

#[local] Hint Resolve refines_maybeReschedule refines_RequestCancel refines_pushPendingCancels
  : refines.

Ltac update_then := eapply hoare_bind; [apply hoare_update|intros ?; rest].

(** The outcome of a result, from a state that is not terminal. *)
Lemma hoare_result_cancelled j jobID x k a res now :
  final (j_State j) = false →
  hoare (V := Service) (Qu := Qu) (St := St) (stored jobID (λ j', j' = j))
    (result_cancelled jobID x k a res now) (λ _ _, True).
Proof.
  intros Ht. unfold result_cancelled. skip. update_then.
  intros j' ->. by destruct (j_State j).
Qed.

Lemma edge_outcome s st :
  final s = false → s ≠ JobStateCancelRequested → outcome st → edge s st.
Proof. by destruct s, st. Qed.

Lemma hoare_result_other j jobID x k a res now :
  final (j_State j) = false → j_State j ≠ JobStateCancelRequested →
  hoare (V := Service) (Qu := Qu) (St := St) (stored jobID (λ j', j' = j))
    (result_success j jobID x k a res now) (λ _ _, True) ∧
  hoare (V := Service) (Qu := Qu) (St := St) (stored jobID (λ j', j' = j))
    (result_timeout j jobID x k a res now) (λ _ _, True) ∧
  hoare (V := Service) (Qu := Qu) (St := St) (stored jobID (λ j', j' = j))
    (result_failed j jobID x k a res now) (λ _ _, True).
Proof.
  intros Ht Hc. unfold result_success, result_timeout, result_failed.
  split_and!; skip; try case_match; skip; update_then;
    intros j' ->; by apply edge_outcome.
Qed.

Lemma refines_HandleResult jobID x k a res : refinesW (HandleResult jobID x k a res).
Proof.
  unfold HandleResult. eapply (hoare_refines (λ _, True)); [|done]. do 2 skip1. cbn zeta.
  eapply hoare_bind; [apply hoare_GetJob|]. intros [j|e]; [|rest].
  eapply hoare_pre with (P := stored jobID (λ j', j' = j)).
  2:{ intros jm _ [_ Hr]. exists j. split; [by apply Hr|done]. }
  rewrite result_terminal_final. destruct (final (j_State j)) eqn:Ht; [rest|].
  apply hoare_keeps; [eauto with refines nocore|intros now].
  destruct (_ || _) eqn:Hc.
  { eapply hoare_bind; [by apply hoare_result_cancelled|]. intros; rest. }
  apply orb_false_iff in Hc as [_ Hc%bool_decide_eq_false].
  destruct (hoare_result_other j jobID x k a (with_reason res) now Ht Hc) as (H1' & H2' & H3').
  case_match; [|case_match]; (eapply hoare_bind; [done|]; intros; rest).
Qed.

#[local] Hint Resolve refines_HandleResult : refines.

Lemma refines_watchdogTimeouts : refinesW watchdogTimeouts.
Proof. unfold watchdogTimeouts, watchdog_job. refine_all. Qed.

(** ** recoverWorkerJobs and checkWorkers *)

(** The states whose jobs are recovered. *)
Definition on_worker (s : JobState) : bool :=
  match s with
  | JobStateRunning | JobStateAssigned | JobStateCancelRequested => true
  | _ => false
  end.

Lemma hoare_recover_job workerID now job l :
  on_worker (j_State job) →
  hoare (V := Service) (Qu := Qu) (St := St) (snapshot (job :: l)) (recover_job workerID now job)
    (λ _, snapshot l).
Proof.
  intros Hst. unfold recover_job.
  case_match; [eapply hoare_pre; [apply keeps_ret|intros jm _; apply snapshot_tail]|].
  skip. repeat case_match;
  (eapply hoare_bind; [apply hoare_update_head|intros r; skip; apply keeps_ret]);
  destruct (j_State job); try done; by case_bool_decide.
Qed.

(** The three listings of [recoverWorkerJobs] as one snapshot. *)
Lemma sublisting_state st jm l j :
  sublisting (λ j, bool_decide (JobState_string st = "") ||
                bool_decide (JobState_string (j_State j) = JobState_string st)) jm l →
  st ≠ JobStateNone → j ∈ l → j_State j = st.
Proof.
  intros Hl Hst Hj. eapply sublisting_keep in Hj; [|done].
  apply Is_true_true, orb_true_iff in Hj as [Hs|Hs]; apply bool_decide_eq_true in Hs.
  - by destruct st.
  - by apply (inj JobState_string).
Qed.

Lemma sublisting_state_all st jm l :
  sublisting (λ j, bool_decide (JobState_string st = "") ||
                bool_decide (JobState_string (j_State j) = JobState_string st)) jm l →
  st ≠ JobStateNone → Forall (λ j, j_State j = st) l.
Proof. intros Hl Hst. apply Forall_forall. intros j. by eapply sublisting_state. Qed.

Lemma listing_state_all st limit jm l :
  listing (λ j, bool_decide (JobState_string st = "") ||
                bool_decide (JobState_string (j_State j) = JobState_string st)) limit jm l →
  st ≠ JobStateNone → Forall (λ j, j_State j = st) l.
Proof. intros Hl. by eapply sublisting_state_all, listing_sublisting. Qed.

Lemma recover_list_states l1 l2 l3 :
  Forall (λ j, j_State j = JobStateRunning) l1 →
  Forall (λ j, j_State j = JobStateAssigned) l2 →
  Forall (λ j, j_State j = JobStateCancelRequested) l3 →
  Forall (λ j, on_worker (j_State j)) (l1 ++ l2 ++ l3).
Proof.
  intros H1' H2' H3'. rewrite !Forall_app. split_and!.
  all: eapply Forall_impl; [done|]; by intros j ->.
Qed.

Lemma recover_list_snapshot l1 l2 l3 jm :
  snapshot l1 jm → snapshot l2 jm → snapshot l3 jm →
  Forall (λ j, j_State j = JobStateRunning) l1 →
  Forall (λ j, j_State j = JobStateAssigned) l2 →
  Forall (λ j, j_State j = JobStateCancelRequested) l3 →
  snapshot (l1 ++ l2 ++ l3) jm.
Proof.
  rewrite !Forall_forall. intros S1 S2 S3 E1 E2 E3.
  apply snapshot_app; [done|apply snapshot_app; [done..|]|].
  - intros j Hj2%E2 Hj3%E3. congruence.
  - intros j Hj1%E1 [Hj%E2|Hj%E3]%elem_of_app; congruence.
Qed.

Lemma refines_recoverWorkerJobs workerID : refinesW (recoverWorkerJobs workerID).
Proof.
  unfold recoverWorkerJobs. eapply (hoare_refines (λ _, True)); [|done].
  eapply hoare_bind; [apply hoare_list, safe_ListJobs|].
  intros [l1|e]; [|rest].
  eapply hoare_bind; [apply hoare_list, safe_ListJobs|].
  intros [l2|e]; [|rest].
  eapply hoare_bind; [apply hoare_list, safe_ListJobs|].
  intros [l3|e]; [|rest].
  skip. eapply hoare_bind with (R := λ _ _, True); [|intros; rest].
  intros w Hg [[[_ Hl1] Hl2] Hl3].
  specialize (Hl1 l1 eq_refl). specialize (Hl2 l2 eq_refl). specialize (Hl3 l3 eq_refl).
  assert (keyed (jobs (g_store w))) as Hk by apply Hg.
  eapply (hoare_snapshot_loop _ (λ j, on_worker (j_State j))).
  - intros; by apply hoare_recover_job.
  - eapply (recover_list_states l1 l2 l3); by eapply sublisting_state_all.
  - done.
  - apply recover_list_snapshot; first [by eapply sublisting_snapshot|by eapply sublisting_state_all].
Qed.

#[local] Hint Resolve refines_recoverWorkerJobs refines_watchdogTimeouts : refines.

Lemma refines_lose_worker k : refinesW (lose_worker k).
Proof. unfold lose_worker. refine_all. Qed.

#[local] Hint Resolve refines_lose_worker : refines.

Lemma refines_checkWorkers : refinesW checkWorkers.
Proof. unfold checkWorkers. refine_all. Qed.

#[local] Hint Resolve refines_checkWorkers : refines.

Lemma refines_poll_tick : refinesW poll_tick.
Proof. unfold poll_tick. refine_all. Qed.
End methods.
