(* ===== verification/Control.v ===== *)
(** * The control plane as a transition system

    The entry points of the scheduler as operations, the step relation that
    performs any of them with any arguments in any order, and the properties
    of every state it reaches: the scheduler refines the abstract lifecycle of
    Lifecycle.v. *)

From S2P Require Import Prelude.
From S2P Require Import Float64.
From S2P Require Import Domain.
From S2P Require Import Config.
From S2P Require Import Ports.
From S2P Require Import Fixture.
From S2P Require Import MemStore.
From S2P Require Import MemQueue.
From S2P Require Import Calls.
From S2P Require Import WorkerClient.
From S2P Require Import Backoff.
From S2P Require Import Scheduler.
From S2P Require Import Lifecycle.
From S2P Require Import Refinement.

(** The calls into [Service]: its own loop, the queue's consumer, and the
    RPCs of grpc_server.go and of the API. *)
Inductive sched_op :=
  | OpStart
  | OpPromote
  | OpPushCancels
  | OpWatchdog
  | OpCheckWorkers
  | OpDeliver (job : QueuedJob)
  | OpRegister (w : Worker)
  | OpHeartbeat (workerID : string) (active capacity : Z)
  | OpResult (jobID executionID workerID : string) (attempt : Z) (res : ExecutionResult)
  | OpRequestCancel (jobID : string)
  | OpDeregister (workerID : string)
  | OpStop.

Section control.
Context `{Env, CronLib} {St Qu : Type} `{JobStore St, Queue Qu}.
#[local] Abbreviation W := (World St Qu Service).

Definition perform (op : sched_op) : M W () :=
  match op with
  | OpStart => run_start
  | OpPromote => _ ← promoteDueJobs; mret ()
  | OpPushCancels => _ ← pushPendingCancels; mret ()
  | OpWatchdog => _ ← watchdogTimeouts; mret ()
  | OpCheckWorkers => _ ← checkWorkers; mret ()
  | OpDeliver job => _ ← handleQueuedJob job; mret ()
  | OpRegister w => _ ← RegisterWorker w; mret ()
  | OpHeartbeat k a c => _ ← Heartbeat k a c; mret ()
  | OpResult j x k a res => _ ← HandleResult j x k a res; mret ()
  | OpRequestCancel j => _ ← RequestCancel j; mret ()
  | OpDeregister k => _ ← Deregister k; mret ()
  | OpStop => _ ← run_stop; mret ()
  end.

Inductive sched_step : W → W → Prop :=
  | sched_step_op op w w' : perform op w = ((), w') → sched_step w w'.

(** A sequence of operations is a path of the step relation. *)
Lemma perform_path (ops : list sched_op) (w : W) :
  rtc sched_step w (forM_ ops perform w).2.
Proof.
  revert w. induction ops as [|op ops IH]; intros w; [done|]. cbn.
  unfold mbind, M_bind. destruct (perform op w) as [[] w'] eqn:Hop.
  eapply rtc_l; [by eapply sched_step_op|]. apply IH.
Qed.

Context `{!EnvLaws, !JobsView St, !JobStoreSafe St, !QueueView Qu, !QueueLaws Qu}.

Lemma refines_perform op : refines (perform op : M W ()).
Proof.
  destruct op; cbn [perform]; unfold run_start, run_stop; refine_all;
    eauto using refines_promoteDueJobs, refines_pushPendingCancels, refines_watchdogTimeouts,
      refines_checkWorkers, refines_handleQueuedJob, refines_HandleResult, refines_RequestCancel,
      keeps_refines, keeps_RegisterWorker, keeps_Heartbeat, keeps_Deregister.
Qed.

Lemma reachable_moved (w w' : W) : rtc sched_step w w' → good w → moved w w'.
Proof.
  induction 1 as [w|w1 w2 w3 [op w1' w2' Hop] Hrest IH]; intros Hg; [by apply moved_refl|].
  assert (moved w1' w2') as Hm.
  { exact (wp_eq _ _ _ _ _ (refines_perform op w1' Hg) Hop). }
  eapply moved_trans; [exact Hm|]. apply IH, Hm.
Qed.
End control.

(** ** What holds along every run *)

Section runs.
Context `{Env, CronLib} {St Qu : Type} `{JobStore St, Queue Qu}.
Context `{!EnvLaws, !JobsView St, !JobStoreSafe St, !QueueView Qu, !QueueLaws Qu}.
#[local] Abbreviation W := (World St Qu Service).

(** C1: the scheduler refines the job lifecycle.  Whatever calls arrive, in
    whatever order and with whatever arguments, and whatever the clock, the
    UUIDs, the map iteration order, the event publisher and the workers answer:
    no job disappears from the store, what its submitter chose (and its
    identity) never changes, and its state only moves along the edges of the
    lifecycle.  The invariant that jobs are stored under their identifiers and
    that the UUIDs to come are unused is kept. *)
Theorem lifecycle_refinement (w w' : W) :
  good w → rtc sched_step w w' →
  good w' ∧
  ∀ id j, jobs (g_store w) !! id = Some j →
    ∃ j', jobs (g_store w') !! id = Some j' ∧ same_spec j j' ∧
          rtc edge (j_State j) (j_State j').
Proof.
  intros Hg Hr. destruct (reachable_moved _ _ Hr Hg) as (Hg' & _ & He).
  split; [done|]. intros id j Hj. destruct (He _ _ Hj) as (j' & ? & ? & ? & _). eauto.
Qed.

Lemma cancel_requested_edge s s' :
  rtc edge s s' → s = JobStateCancelRequested ∨ s = JobStateCancelled →
  s' = JobStateCancelRequested ∨ s' = JobStateCancelled.
Proof.
  induction 1 as [|a b c Hab _ IH]; [done|]. intros [->| ->]; [|by destruct b].
  apply IH. right. by destruct b.
Qed.

(** C2: terminal states are final, and a cancellation wins.  Once a job is
    COMPLETED, FAILED, CANCELLED, TIMEOUT or EXPIRED, no later call of the
    scheduler (duplicate deliveries, late or repeated results, cancel requests,
    watchdog and recovery rounds included) changes a single field of it.  A job
    in CANCEL_REQUESTED can only become CANCELLED: no result of its worker (a
    success reported late included), no redelivery, no timeout and no loss of
    the worker brings it anywhere else. *)
Theorem decided_jobs_stay (w w' : W) id j :
  good w → rtc sched_step w w' →
  jobs (g_store w) !! id = Some j →
  ∃ j', jobs (g_store w') !! id = Some j' ∧
    (final (j_State j) = true → j' = j) ∧
    (j_State j = JobStateCancelRequested →
     j_State j' = JobStateCancelRequested ∨ j_State j' = JobStateCancelled).
Proof.
  intros Hg Hr Hj. destruct (reachable_moved _ _ Hr Hg) as (_ & _ & He).
  destruct (He _ _ Hj) as (j' & Hj' & _ & Hedges & Hterm). exists j'. split_and!; [done| |].
  - intros Ht. apply Hterm. by rewrite Ht.
  - intros Hst. eapply cancel_requested_edge; [done|]. by left.
Qed.
End runs.

(** ** A concrete control plane: the in-memory store and queue *)

#[local] Existing Instance sample_env.
#[local] Existing Instance sample_env_laws.
#[local] Existing Instance sample_cron.

Definition sample_config : SchedulerConfig :=
  mkSchedulerConfig "s1" (500 * Millisecond) 50 (15 * Second) (15 * Second) "" "".

Definition sample_conn (id : string) (active : Z) : string * workerConn :=
  (id, mkWorkerConn (sample_worker id active) "addr").

Definition sample_store (js : list Job) : MemStore :=
  set_ms_jobs (list_to_map ((λ j, (j_ID j, j)) <$> js)) mem_New.

Definition sample_world (js : list Job) (ws : list (string * workerConn)) :
    World MemStore MemQueue Service :=
  mkWorld 0 (sample_store js) mq_New
    (set_sv_workers (list_to_map ws) (NewService sample_config)) [] [].

(** Identifiers that do not start with an "a" or a "u" are no UUIDs to come. *)
Lemma good_sample_world js ws :
  NoDup (j_ID <$> js) → Forall (λ j, ∀ n, sample_uuid n ≠ j_ID j) js →
  good (sample_world js ws).
Proof.
  intros Hnd Hu. rewrite Forall_forall in Hu. split; [split; [|done]|]; cbn.
  - intros k j Hj%elem_of_list_to_map_2.
    apply list_elem_of_fmap in Hj as (j' & ? & _). by simplify_eq.
  - intros m _. apply not_elem_of_list_to_map_1.
    rewrite <- list_fmap_compose. intros (j & Heq & Hj)%list_elem_of_fmap.
    by apply (Hu j Hj m).
Qed.

Ltac sample_good :=
  apply good_sample_world; [by vm_compute; repeat constructor; set_solver
                           |repeat constructor; by intros []].

Definition queued_job (id : string) : QueuedJob :=
  queued_of (sample_job id JobStateQueued "" 0) (sample_now 0).

Definition success_result : ExecutionResult :=
  mkExecutionResult true None "" false Second "".

(** The job "j1" is delivered, assigned to the worker and completes. *)
Lemma lifecycle_refinement_witness :
  ∃ j', jobs (g_store (forM_ [OpDeliver (queued_job "j1");
                              OpResult "j1" "x" "w1" 1 success_result] perform
          (sample_world [sample_job "j1" JobStateQueued "" 0] [sample_conn "w1" 0])).2) !! "j1"
        = Some j' ∧ rtc edge JobStateQueued (j_State j').
Proof.
  destruct (lifecycle_refinement
    (sample_world [sample_job "j1" JobStateQueued "" 0] [sample_conn "w1" 0]) _
    ltac:(sample_good)
    (perform_path [OpDeliver (queued_job "j1");
                   OpResult "j1" "x" "w1" 1 success_result] _)) as [_ Hall].
  destruct (Hall "j1" (sample_job "j1" JobStateQueued "" 0)) as (j' & Hj' & _ & He);
    [by vm_compute|].
  exists j'. by split.
Defined.

(** A late timeout report for a completed job, and a success that is reported
    after the cancellation was requested. *)
Lemma decided_jobs_stay_witness :
  let j1 := sample_job "j1" JobStateCompleted "w1" 1 in
  let j2 := sample_job "j2" JobStateCancelRequested "w1" 1 in
  let w' := (forM_ [OpResult "j1" "x" "w1" 1 (timeout_result j1); OpWatchdog;
                    OpResult "j2" "x" "w1" 1 success_result] perform
               (sample_world [j1; j2] [sample_conn "w1" 2])).2 in
  jobs (g_store w') !! "j1" = Some j1 ∧
  ∃ j', jobs (g_store w') !! "j2" = Some j' ∧
    (j_State j' = JobStateCancelRequested ∨ j_State j' = JobStateCancelled).
Proof.
  intros j1 j2 w'. split.
  - destruct (decided_jobs_stay (sample_world [j1; j2] [sample_conn "w1" 2]) w' "j1" j1)
      as (j' & Hj' & Hf & _); [sample_good|apply perform_path|by vm_compute|].
    rewrite Hj'. f_equal. by apply Hf.
  - destruct (decided_jobs_stay (sample_world [j1; j2] [sample_conn "w1" 2]) w' "j2" j2)
      as (j' & Hj' & _ & Hc); [sample_good|apply perform_path|by vm_compute|].
    exists j'. split; [done|]. by apply Hc.
Defined.
