(* ===== verification/Results.v ===== *)
(** * HandleResult: what a reported result does

    [outcome_state] is the decision table of scheduler.go's [HandleResult],
    [outcome_job] the job it leaves, field by field, [outcome_events] the events
    it records and [next_occurrence] when a recurring job runs again; the theorems
    show that the method implements them on every branch, against any lawful
    store. *)

From S2P Require Import Prelude.
From S2P Require Import Float64.
From S2P Require Import Domain.
From S2P Require Import Ports.
From S2P Require Import Fixture.
From S2P Require Import MemStore.
From S2P Require Import MemQueue.
From S2P Require Import Calls.
From S2P Require Import WorkerClient.
From S2P Require Import Backoff.
From S2P Require Import Scheduler.
From S2P Require Import Lifecycle.
From S2P Require Import Control.

(** The reason of a result; one without is a success or a failure. *)
Definition reason_of (res : ExecutionResult) : ResultReason :=
  if bool_decide (res_Reason res ≠ "") then res_Reason res
  else if res_Success res then ReasonSuccess else ReasonFailed.

(** The new state of a job that was not terminal. *)
Definition outcome_state (j : Job) (attempt : Z) (res : ExecutionResult) : JobState :=
  if bool_decide (reason_of res = ReasonCancelled) ||
     bool_decide (j_State j = JobStateCancelRequested) then JobStateCancelled
  else if res_Success res then JobStateCompleted
  else if bool_decide (reason_of res = ReasonTimeout) then
    if bool_decide (attempt < j_MaxAttempts j) then JobStateRetrying else JobStateTimeout
  else if res_Retryable res && bool_decide (attempt < j_MaxAttempts j)
  then JobStateRetrying else JobStateFailed.

(** The state its execution record ends in. *)
Definition outcome_execution (j : Job) (res : ExecutionResult) : ExecutionState :=
  if bool_decide (reason_of res = ReasonCancelled) ||
     bool_decide (j_State j = JobStateCancelRequested) then ExecutionCancelled
  else if res_Success res then ExecutionCompleted
  else if bool_decide (reason_of res = ReasonTimeout) then ExecutionTimeout
  else ExecutionFailed.

(** The job after the result: a retry waits for its backoff, detached from
    the worker; every other outcome stamps the completion. *)
Definition settled (oob : float64 → Z) (j : Job) (attempt : Z) (now : time) (j' : Job) : Prop :=
  same_spec j j' ∧ j_Attempt j' = j_Attempt j ∧
  if bool_decide (j_State j' = JobStateRetrying)
  then (∃ rnd, j_NextRetryAt j' =
                 Some (time_add now (computeBackoff oob (j_RetryPolicy j) attempt rnd))) ∧
       j_WorkerID j' = "" ∧ j_ExecutionID j' = "" ∧ j_CompletedAt j' = j_CompletedAt j
  else j_CompletedAt j' = Some now ∧ j_WorkerID j' = j_WorkerID j ∧
       j_NextRetryAt j' = j_NextRetryAt j.

(** The error the job keeps: the reported one, "timeout" for a timed-out
    attempt, and on success the one it had. *)
Definition outcome_error (j : Job) (res : ExecutionResult) : string :=
  match outcome_execution j res with
  | ExecutionCompleted => j_LastError j
  | ExecutionTimeout => "timeout"
  | _ => res_Error res
  end.

(** The stored job after the result, every field of it. *)
Definition outcome_job (j : Job) (attempt : Z) (res : ExecutionResult) (now t : time)
    (delay : Duration) : Job :=
  let retry := bool_decide (outcome_state j attempt res = JobStateRetrying) in
  mkJob (j_ID j) (j_Name j) (j_Type j) (j_Payload j) (j_Priority j)
    (outcome_state j attempt res) (j_Schedule j) (j_RetryPolicy j) (j_Timeout j)
    (j_IdempotencyKey j) (j_Attempt j) (j_MaxAttempts j)
    (if retry then "" else j_WorkerID j) (if retry then "" else j_ExecutionID j)
    (outcome_error j res) (j_ScheduledAt j) (j_QueuedAt j) (j_StartedAt j)
    (if retry then j_CompletedAt j else Some now)
    (if retry then Some (time_add now delay) else j_NextRetryAt j)
    (j_CreatedAt j) t (j_Metadata j).

(** The events of the result, in order. *)
Definition outcome_events (jobID x k : string) (j : Job) (attempt : Z) (res : ExecutionResult)
    (now : time) (delay : Duration) : list EmitCall :=
  let event ty payload := mkEmitCall ty jobID x k attempt (Some payload) in
  let retried payload :=
    if bool_decide (outcome_state j attempt res = JobStateRetrying)
    then [event EventJobRetryScheduled (("next_retry_at", ATime (time_add now delay)) :: payload)]
    else [] in
  match outcome_execution j res with
  | ExecutionCancelled => [event EventJobCancelled [("reason", AString (reason_of res))]]
  | ExecutionCompleted =>
      [event EventJobCompleted [("duration_ms", AInt (Milliseconds (res_Duration res)))]]
  | ExecutionTimeout =>
      event EventJobTimeout [("error", AString (res_Error res))] ::
      retried [("reason", AString "timeout")]
  | _ =>
      event EventJobFailed
        [("error", AString (res_Error res)); ("retryable", ABool (res_Retryable res))] ::
      retried [("delay_ms", AInt (Milliseconds delay))]
  end.

(** When a recurring job is due again, and whether the result calls for it. *)
Definition recurrence `{CronLib} (j : Job) (now : time) : option time :=
  if bool_decide (sc_Type (j_Schedule j) = ScheduleRecurring)
  then match NextRunAt (j_Schedule j) now with Ok next => Some next | Err _ => None end
  else None.
Definition next_occurrence `{CronLib} (j : Job) (attempt : Z) (res : ExecutionResult)
    (now : time) : option time :=
  if bool_decide (outcome_state j attempt res = JobStateCompleted)
  then recurrence j now else None.

(** The job of the next occurrence, created at [t]. *)
Definition next_job (j : Job) (next : time) (id : string) (t : time) : Job :=
  mkJob id (j_Name j) (j_Type j) (j_Payload j) (j_Priority j) JobStateScheduled (j_Schedule j)
    (j_RetryPolicy j) (j_Timeout j) "" 0 (j_MaxAttempts j) "" "" "" (Some next) None None None
    None t t (j_Metadata j).

(** One job fewer on the worker [k], and no cancellation of [id] pending for it. *)
Definition one_fewer (c : workerConn) : workerConn :=
  if bool_decide (0 < w_ActiveJobs (wc_info c))
  then map_info (λ w, set_w_ActiveJobs (int64 (w_ActiveJobs w - 1)) w) c else c.
Definition cancel_dropped (k id : string) (m m' : gmap string (gset string)) : Prop :=
  ∀ k', m' !! k' =
    if decide (k' = k)
    then set ← m !! k; if decide (set ∖ {[id]} = ∅) then None else Some (set ∖ {[id]})
    else m !! k'.

Lemma release_slot_alter k m : release_slot k m = alter one_fewer k m.
Proof.
  unfold release_slot. destruct (m !! k) as [c|] eqn:Hk.
  - rewrite <- (insert_alter one_fewer k m c Hk). unfold one_fewer.
    case_bool_decide; [done|]. by rewrite insert_id.
  - symmetry. apply map_eq. intros k'. rewrite lookup_alter. case_decide; [subst; by rewrite Hk|done].
Qed.

Lemma clear_pending_dropped k id m : cancel_dropped k id m (clear_pending k id m).
Proof.
  intros k'. unfold clear_pending. destruct (m !! k) as [set|] eqn:Hk; cbn.
  - case_bool_decide as He; [rewrite lookup_delete|rewrite lookup_insert];
      repeat case_decide; by simplify_eq.
  - case_decide; [by subst|done].
Qed.

Lemma with_reason_eq res :
  with_reason res = mkExecutionResult (res_Success res) (res_Output res) (res_Error res)
    (res_Retryable res) (res_Duration res) (reason_of res).
Proof.
  destruct res as [su out er re d rs]. unfold with_reason, reason_of. cbn.
  rewrite bool_decide_not. case_bool_decide; cbn; by destruct su.
Qed.

Lemma outcome_job_settled oob j attempt res now t rnd :
  settled oob j attempt now
    (outcome_job j attempt res now t (computeBackoff oob (j_RetryPolicy j) attempt rnd)).
Proof.
  split; [by repeat split|]. split; [done|]. cbn.
  case_bool_decide; [split; [by exists rnd|]|]; done.
Qed.

Section results.
Context `{Env, !EnvLaws, CronLib} {St Qu : Type}.
Context `{!JobStore St, !StoreView St, !JobStoreLaws St}.
Context `{!Queue Qu, !QueueView Qu, !QueueLaws Qu}.
#[local] Abbreviation W := (World St Qu Service).
Implicit Types (s : St) (q : Qu) (v : Service).

Definition finished (x : string) (xst : ExecutionState) (res : ExecutionResult) (s s' : St) : Prop :=
  ∃ t, execs s' = if bool_decide (x = "") then execs s
                  else alter (finish_execution xst t res) x (execs s).

Lemma finished_execs x st res s s1 s2 :
  finished x st res s s1 → execs s2 = execs s1 → finished x st res s s2.
Proof. intros [t Ht] Hx. exists t. by rewrite Hx. Qed.

Lemma wp_finish_if x st res (Q : () → W → Prop) n s q v ev rp :
  (∀ n' s', (n ≤ n')%nat → jobs s' = jobs s → idem s' = idem s → workers s' = workers s →
     finished x st res s s' → Q () (mkWorld n' s' q v ev rp)) →
  wp (finish_if x st res) Q (mkWorld n s q v ev rp).
Proof.
  intros HQ. unfold finish_if. case_bool_decide as Hx.
  - apply wp_ret, HQ; try done. exists 0. by rewrite bool_decide_true.
  - apply wp_bind, wp_FinishExecution. intros n' s' r t Hn Hj Hi Hw Hxs. apply wp_ret.
    apply HQ; try done. exists t. by rewrite bool_decide_false.
Qed.

Lemma wp_backoff p a (Q : Duration → W → Prop) n s q v ev rp :
  (∀ n' rnd, (n ≤ n')%nat → Q (computeBackoff env_oob p a rnd) (mkWorld n' s q v ev rp)) →
  wp (backoff p a) Q (mkWorld n s q v ev rp).
Proof.
  intros HQ. unfold backoff. apply wp_bind.
  destruct (rp_Jitter p); [apply wp_askW|]; apply wp_ret, HQ; lia.
Qed.

(** What the method leaves of the world: [w] before, [w'] after. *)
Definition result_post (j : Job) (jobID x k : string) (attempt : Z) (res : ExecutionResult)
    (w w' : W) : Prop :=
  (∃ now j', settled env_oob j attempt now j' ∧ j_State j' = outcome_state j attempt res ∧
     jobs (g_store w') = <[jobID := j']> (jobs (g_store w))) ∧
  finished x (outcome_execution j res) res (g_store w) (g_store w') ∧
  idem (g_store w') = idem (g_store w) ∧ workers (g_store w') = workers (g_store w) ∧
  g_queue w' = g_queue w ∧ g_rpcs w' = g_rpcs w ∧
  g_svc w' = mkService (sv_cfg (g_svc w)) (release_slot k (sv_workers (g_svc w)))
               (clear_pending k jobID (sv_pendingCancels (g_svc w))).

(** The next occurrence of a recurring job, if there is one. *)
Lemma wp_maybeRescheduleRecurring job from (Q : () → W → Prop) n s q v ev rp :
  match recurrence job from with
  | None => Q () (mkWorld n s q v ev rp)
  | Some next =>
      ∀ n' s' m t, (n ≤ m < n')%nat → execs s' = execs s → workers s' = workers s →
        idem s' = idem s →
        jobs s' = <[env_uuid m := set_UpdatedAt t (set_CreatedAt t (set_ID (env_uuid m)
                     (recurring_child job next)))]> (jobs s) →
        Q () (mkWorld n' s' q v (ev ++
          [mkEmitCall EventJobScheduled (env_uuid m) "" "" 0
             (Some [("parent_job_id", AString (j_ID job)); ("scheduled_at", ATime next);
                    ("recurring", ABool true)])]) rp)
  end →
  wp (maybeRescheduleRecurring job from) Q (mkWorld n s q v ev rp).
Proof.
  intros HQ. unfold maybeRescheduleRecurring, recurrence in *.
  destruct (bool_decide _); cbn [negb]; [|by run].
  destruct (NextRunAt _ _) as [next|e]; [|by run]. run.
  apply wp_CreateJob_fresh; [done..|]. intros n' s' m t Hm Hx Hw Hi j' Hj. run.
  by apply (HQ _ s' m t); [lia|..].
Qed.

(** The effect of the result in full: one job is written, one execution is
    finished, the events are recorded, and a recurring job that succeeded gets
    its next occurrence. *)
Definition result_effect (j : Job) (jobID x k : string) (attempt : Z) (res : ExecutionResult)
    (w w' : W) : Prop :=
  ∃ m t rnd,
    let now := env_now m in
    let delay := computeBackoff env_oob (j_RetryPolicy j) attempt rnd in
    let j' := outcome_job j attempt res now t delay in
    let events := g_events w ++ outcome_events jobID x k j attempt res now delay in
    (g_tick w ≤ m)%nat ∧
    finished x (outcome_execution j res) res (g_store w) (g_store w') ∧
    idem (g_store w') = idem (g_store w) ∧ workers (g_store w') = workers (g_store w) ∧
    g_queue w' = g_queue w ∧ g_rpcs w' = g_rpcs w ∧
    g_svc w' = mkService (sv_cfg (g_svc w)) (release_slot k (sv_workers (g_svc w)))
                 (clear_pending k jobID (sv_pendingCancels (g_svc w))) ∧
    match next_occurrence j attempt res now with
    | None =>
        jobs (g_store w') = <[jobID := j']> (jobs (g_store w)) ∧ g_events w' = events
    | Some next =>
        ∃ i t', (g_tick w ≤ i)%nat ∧
        jobs (g_store w') =
          <[env_uuid i := set_UpdatedAt t' (set_CreatedAt t' (set_ID (env_uuid i)
              (recurring_child j next)))]> (<[jobID := j']> (jobs (g_store w))) ∧
        g_events w' = events ++
          [mkEmitCall EventJobScheduled (env_uuid i) "" "" 0
             (Some [("parent_job_id", AString (j_ID j)); ("scheduled_at", ATime next);
                    ("recurring", ABool true)])]
    end.

Lemma result_effect_intro j jobID x k attempt res n s q v ev rp n' s' s2 v' ev' m rnd st t f :
  let delay := computeBackoff env_oob (j_RetryPolicy j) attempt rnd in
  v' = mkService (sv_cfg v) (release_slot k (sv_workers v))
         (clear_pending k jobID (sv_pendingCancels v)) →
  jobs s2 = jobs s → jobs s' = <[jobID := update_job st t f j]> (jobs s2) →
  finished x (outcome_execution j res) res s s2 → execs s' = execs s2 →
  idem s2 = idem s → idem s' = idem s2 → workers s2 = workers s → workers s' = workers s2 →
  (n ≤ m)%nat → next_occurrence j attempt res (env_now m) = None →
  update_job st t f j = outcome_job j attempt res (env_now m) t delay →
  ev' = ev ++ outcome_events jobID x k j attempt res (env_now m) delay →
  result_effect j jobID x k attempt res (mkWorld n s q v ev rp)
    (mkWorld n' s' q v' ev' rp).
Proof.
  intros delay; subst delay; intros -> Hj2 Hj' Hx Hx' Hi Hi' Hw Hw' Hm Hnext Hu ->.
  exists m, t, rnd. cbn. rewrite Hnext, <- Hu. split_and!; try congruence.
  by eapply finished_execs.
Qed.

(** A step of a branch of [HandleResult] on the stored job. *)
Ltac result_step :=
  lazymatch goal with
  | |- wp (finish_if _ _ _) _ _ =>
      apply wp_finish_if; intros ? ? ? ? ? ? ?
  | |- wp (backoff _ _) _ _ => apply wp_backoff; intros ? ? ?
  | Hj : jobs ?s !! ?id = Some ?j, Hs : jobs ?s' = jobs ?s
    |- wp (callS (store_UpdateJobState ?id _ _)) _ (mkWorld _ ?s' _ _ _ _) =>
      eapply wp_UpdateJob; [by rewrite Hs|]; intros ? ? ? ? [? [? ?]] ?
  | _ => run_step
  end.
Ltac result_run := repeat (cbn beta iota zeta; result_step).

(** The branch has the effect: its state and its execution's state, [Hst] and
    [Hxst], are constants. *)
Ltac settle Hst Hxst :=
  eapply result_effect_intro;
  [done|eassumption|eassumption|by rewrite Hxst|eassumption..| | | |];
  [by etrans; [eassumption|]
  |by unfold next_occurrence; rewrite Hst
  |unfold outcome_job, outcome_error; rewrite Hst, Hxst; reflexivity
  |rewrite <- ?(assoc_L (++)); f_equal; unfold outcome_events; rewrite Hst, Hxst;
   reflexivity].

Lemma wp_HandleResult_effect jobID x k attempt res j w :
  jobs (g_store w) !! jobID = Some j → final (j_State j) = false →
  wp (HandleResult jobID x k attempt res : M W _)
    (λ r w', r = None ∧ result_effect j jobID x k attempt res w w') w.
Proof.
  intros Hj Ht. destruct w as [n s q v ev rp]. cbn [g_store] in Hj.
  unfold HandleResult, clearPendingCancel. rewrite with_reason_eq.
  run. apply wp_GetJob. intros n' Hn. rewrite Hj, result_terminal_final, Ht.
  run. cbn [res_Reason res_Success].
  assert (outcome_state j attempt res = outcome_state j attempt res) as Hst by done.
  assert (outcome_execution j res = outcome_execution j res) as Hxst by done.
  unfold outcome_state at 2 in Hst. unfold outcome_execution at 2 in Hxst.
  destruct (_ || _) eqn:Hc.
  { unfold result_cancelled. result_run. split; [done|]. settle Hst Hxst. }
  destruct (res_Success res) eqn:Hsucc.
  { unfold result_success. result_run. apply wp_maybeRescheduleRecurring.
    destruct (recurrence j _) as [next|] eqn:Hnext.
    - intros n6 s6 i t6 Hi Hx6 Hw6 Hi6 Hj6. run. split; [done|].
      eexists n', _, f64_half. cbn. unfold next_occurrence.
      rewrite Hst, bool_decide_true, Hnext by done. split_and!; try congruence; [|done|].
      { rewrite Hxst. eapply finished_execs; [eassumption|congruence]. }
      exists i, t6. split; [lia|]. split.
      { rewrite Hj6. f_equal. unfold outcome_job, outcome_error. rewrite Hst, Hxst.
        etrans; [eassumption|]. f_equal. eassumption. }
      unfold outcome_events. by rewrite Hxst.
    - run. split; [done|]. settle Hst Hxst. }
  destruct (bool_decide (_ = ReasonTimeout)).
  - unfold result_timeout. result_run. destruct (bool_decide (attempt < _)); result_run;
      (split; [done|]); settle Hst Hxst.
  - unfold result_failed. cbn [res_Retryable]. result_run. destruct (_ && _); result_run;
      (split; [done|]); settle Hst Hxst.
  Unshelve. all: exact f64_half. (* no delay without a retry *)
Qed.

(** Unless a recurring job succeeds, no other job is written. *)
Lemma wp_HandleResult_stored jobID x k attempt res j w :
  jobs (g_store w) !! jobID = Some j → final (j_State j) = false →
  (sc_Type (j_Schedule j) = ScheduleRecurring →
     outcome_state j attempt res ≠ JobStateCompleted) →
  wp (HandleResult jobID x k attempt res : M W _)
    (λ r w', r = None ∧ result_post j jobID x k attempt res w w') w.
Proof.
  intros Hj Ht Hrec. eapply wp_mono; [by apply wp_HandleResult_effect|].
  intros r w' [-> (m & t & rnd & _ & Hx & Hi & Hw & Hq & Hrp & Hv & Hjobs)].
  assert (next_occurrence j attempt res (env_now m) = None) as Hnext.
  { unfold next_occurrence, recurrence. repeat case_bool_decide; [|done..].
    by destruct Hrec. }
  cbn zeta in Hjobs. rewrite Hnext in Hjobs. split; [done|].
  split; [|done]. eexists (env_now m), _. split; [apply outcome_job_settled|]. by split; [|apply Hjobs].
Qed.

(** A result for a job that is over, or that does not exist. *)
Lemma wp_HandleResult_absorbed (w : W) jobID x k attempt res :
  match jobs (g_store w) !! jobID with
  | Some j => final (j_State j) = true
  | None => True
  end →
  wp (HandleResult jobID x k attempt res) (λ r w',
    r = match jobs (g_store w) !! jobID with Some _ => None | None => Some ErrNotFound end ∧
    g_store w' = g_store w ∧ g_queue w' = g_queue w ∧ g_events w' = g_events w ∧
    g_rpcs w' = g_rpcs w ∧
    g_svc w' = mkService (sv_cfg (g_svc w)) (release_slot k (sv_workers (g_svc w)))
                 (clear_pending k jobID (sv_pendingCancels (g_svc w)))) w.
Proof.
  destruct w as [n s q v ev rp]. cbn [g_store]. intros Ht.
  unfold HandleResult, clearPendingCancel. run. apply wp_GetJob. intros n' Hn.
  destruct (jobs s !! jobID) as [j|]; [rewrite result_terminal_final, Ht|]; by apply wp_ret.
Qed.

(** C4: the decision table of HandleResult.  In every case one slot of the
    worker and its pending cancellation of the job are released, and the queue
    and the network are left alone.  A result for an unknown job is answered
    with the store's error and one for a job that is over with nil, and neither
    has any other effect.  For any other stored job the method returns nil and
    writes exactly that job, as [outcome_job] gives it field by field:
    CANCELLED when a cancellation was requested or reported, COMPLETED on
    success, RETRYING when the timed-out or retryable attempt is not the last
    one, TIMEOUT or FAILED otherwise; with the reported error ("timeout" for a
    timed-out attempt, on success the error it had); a retry is due after the
    policy's backoff and is detached from its worker, any other outcome stamps
    completed_at.  The execution record is finished with the matching state,
    and exactly the events of [outcome_events] are recorded, with their
    payloads.  A recurring job that succeeds and has a next activation also
    gets its next occurrence: one more job under a new UUID, and its
    JOB_SCHEDULED event. *)
Theorem HandleResult_outcome (w : W) jobID x k attempt res :
  wp (HandleResult jobID x k attempt res) (λ r w',
    g_queue w' = g_queue w ∧ g_rpcs w' = g_rpcs w ∧
    sv_cfg (g_svc w') = sv_cfg (g_svc w) ∧
    sv_workers (g_svc w') = alter one_fewer k (sv_workers (g_svc w)) ∧
    cancel_dropped k jobID (sv_pendingCancels (g_svc w)) (sv_pendingCancels (g_svc w')) ∧
    match jobs (g_store w) !! jobID with
    | None => r = Some ErrNotFound ∧ g_store w' = g_store w ∧ g_events w' = g_events w
    | Some j =>
        r = None ∧
        if final (j_State j) then g_store w' = g_store w ∧ g_events w' = g_events w
        else ∃ m t rnd,
          let now := env_now m in
          let delay := computeBackoff env_oob (j_RetryPolicy j) attempt rnd in
          let j' := outcome_job j attempt res now t delay in
          let events := g_events w ++ outcome_events jobID x k j attempt res now delay in
          (g_tick w ≤ m)%nat ∧
          settled env_oob j attempt now j' ∧ j_State j' = outcome_state j attempt res ∧
          finished x (outcome_execution j res) res (g_store w) (g_store w') ∧
          idem (g_store w') = idem (g_store w) ∧ workers (g_store w') = workers (g_store w) ∧
          match next_occurrence j attempt res now with
          | None =>
              jobs (g_store w') = <[jobID := j']> (jobs (g_store w)) ∧ g_events w' = events
          | Some next =>
              ∃ i t', (g_tick w ≤ i)%nat ∧
              jobs (g_store w') = <[env_uuid i := next_job j next (env_uuid i) t']>
                (<[jobID := j']> (jobs (g_store w))) ∧
              g_events w' = events ++
                [mkEmitCall EventJobScheduled (env_uuid i) "" "" 0
                   (Some [("parent_job_id", AString (j_ID j)); ("scheduled_at", ATime next);
                          ("recurring", ABool true)])]
          end
    end) w.
Proof.
  destruct (jobs (g_store w) !! jobID) as [j|] eqn:Hj; [destruct (final (j_State j)) eqn:Hf|].
  2: { eapply wp_mono; [by apply (wp_HandleResult_effect jobID x k attempt res j)|].
    intros r w' (-> & m & t & rnd & Hm & Hx & Hi & Hw & Hq & Hrp & Hv & Hjobs).
    rewrite Hv, <- release_slot_alter. split_and!; try done; [apply clear_pending_dropped|].
    exists m, t, rnd. split_and!; try done. apply outcome_job_settled. }
  all: eapply wp_mono; [apply wp_HandleResult_absorbed; by rewrite Hj|].
  all: intros r w' (-> & Hs & Hq & He & Hrp & Hv); rewrite Hv, Hj, <- release_slot_alter.
  all: split_and!; try done; apply clear_pending_dropped.
Qed.

(** C37: a recurring job reschedules itself.  When a recurring job whose cron
    expression and time zone were accepted succeeds, it becomes COMPLETED and
    exactly one new job is created, under a new identifier: SCHEDULED, with the
    same specification, no attempt made and no idempotency key, for the cron
    library's next activation after now (which is later than now, or the zero
    time for a schedule that never fires).  All other jobs are unchanged. *)
Theorem HandleResult_recurring `{!CronLaws} (w : W) jobID x k attempt res j t0 next0 :
  good w → jobs (g_store w) !! jobID = Some j → final (j_State j) = false →
  outcome_state j attempt res = JobStateCompleted →
  sc_Type (j_Schedule j) = ScheduleRecurring → NextRunAt (j_Schedule j) t0 = Ok next0 →
  wp (HandleResult jobID x k attempt res) (λ r w', r = None ∧ ∃ now next id j' child,
    jobs (g_store w) !! id = None ∧
    jobs (g_store w') = <[id := child]> (<[jobID := j']> (jobs (g_store w))) ∧
    same_spec j j' ∧ j_State j' = JobStateCompleted ∧ j_CompletedAt j' = Some now ∧
    NextRunAt (j_Schedule j) now = Ok next ∧ (next = zero_time ∨ now < next) ∧
    j_ID child = id ∧ j_State child = JobStateScheduled ∧ j_ScheduledAt child = Some next ∧
    j_Attempt child = 0 ∧ j_IdempotencyKey child = "" ∧ j_Schedule child = j_Schedule j ∧
    j_Payload child = j_Payload j ∧ j_RetryPolicy child = j_RetryPolicy j ∧
    j_MaxAttempts child = j_MaxAttempts j) w.
Proof.
  intros [_ Hf] Hj Ht Hout Hty Hnext.
  eapply wp_mono; [by apply wp_HandleResult_effect|].
  intros r w' (-> & m & t & rnd & Hm & _ & _ & _ & _ & _ & _ & Hjobs). split; [done|].
  destruct (NextRunAt_recurring (j_Schedule j) t0 (env_now m) next0 Hty Hnext)
    as (next & Hn' & Hlater).
  cbn zeta in Hjobs. unfold next_occurrence, recurrence in Hjobs.
  rewrite Hout, !bool_decide_true, Hn' in Hjobs by done.
  destruct Hjobs as (i & t' & Hi & Hjs & _).
  eexists (env_now m), next, (env_uuid i), _, _. split; [by apply Hf|]. split; [exact Hjs|].
  split; [by repeat split|]. cbn. by rewrite Hout.
Qed.
End results.

(** ** On the in-memory store *)

#[local] Existing Instance sample_env.
#[local] Existing Instance sample_env_laws.
#[local] Existing Instance sample_cron.
#[local] Existing Instance sample_cron_laws.

Definition failure_result : ExecutionResult :=
  mkExecutionResult false None "boom" true Second "".

Definition running_world : World MemStore MemQueue Service :=
  sample_world [sample_job "j1" JobStateRunning "w1" 1] [sample_conn "w1" 1].

(** The first attempt of three fails and is retried: the error is kept, and
    JOB_FAILED and JOB_RETRY_SCHEDULED are recorded. *)
Lemma HandleResult_outcome_witness :
  let w' := (HandleResult "j1" "x" "w1" 1 failure_result running_world).2 in
  ∃ j', jobs (g_store w') !! "j1" = Some j' ∧ j_State j' = JobStateRetrying ∧
    j_LastError j' = "boom" ∧ j_WorkerID j' = "" ∧
    em_Type <$> g_events w' = [EventJobFailed; EventJobRetryScheduled].
Proof.
  destruct (HandleResult_outcome running_world "j1" "x" "w1" 1 failure_result)
    as (_ & _ & _ & _ & _ & _ & m & t & rnd & _ & _ & _ & _ & _ & _ & Hj & Hev).
  eexists. split; [rewrite Hj; apply lookup_insert_eq|].
  split; [done|]. split; [done|]. split; [done|]. by rewrite Hev.
Defined.

(** A recurring job completes and its next run is a job of its own. *)
Lemma HandleResult_recurring_witness :
  let j := sample_job "j1" JobStateRunning "w1" 1 in
  let j := mkJob (j_ID j) (j_Name j) (j_Type j) (j_Payload j) (j_Priority j) (j_State j)
    (sample_schedule ScheduleRecurring) (j_RetryPolicy j) (j_Timeout j) "" 1 3 "w1" "x" ""
    (j_ScheduledAt j) None (j_StartedAt j) None None (sample_now 0) (sample_now 0) None in
  ∃ id child, jobs (g_store (HandleResult "j1" "x" "w1" 1 success_result
      (sample_world [j] [sample_conn "w1" 1])).2) !! id = Some child ∧
    j_State child = JobStateScheduled.
Proof.
  intros j0 j. destruct (HandleResult_recurring (sample_world [j] [sample_conn "w1" 1])
    "j1" "x" "w1" 1 success_result j 0 Minute)
    as (_ & now & next & id & j' & child & _ & Hj & _ & _ & _ & _ & _ & _ & Hc & _);
    [sample_good|by vm_compute|done|done|done|done|].
  exists id, child. split; [|exact Hc]. rewrite Hj. apply lookup_insert_eq.
Defined.
