(* ===== verification/Assign.v ===== *)
(** * handleQueuedJob: the dispatch of a delivered job

    The choice of the worker ([pickWorker]) and what the delivery of a queued
    job does to the store, the worker table and the network, on every branch of
    the method. *)

From S2P Require Import Prelude.
From S2P Require Import Float64.
From S2P Require Import Domain.
From S2P Require Import Ports.
From S2P Require Import Fixture.
From S2P Require Import MemStore.
From S2P Require Import MemQueue.
From S2P Require Import Calls.
From S2P Require Import WorkerClient.
From S2P Require Import Backoff.
From S2P Require Import Scheduler.
From S2P Require Import Lifecycle.
From S2P Require Import Refinement.
From S2P Require Import Control.

(** ** pickWorker *)

(** [w] is an assignable worker of [l] with the least active jobs. *)
Definition least_loaded (l : list workerConn) (w : workerConn) : Prop :=
  w ∈ l ∧ IsAssignable (wc_info w) = true ∧
  ∀ c, c ∈ l → IsAssignable (wc_info c) = true →
    w_ActiveJobs (wc_info w) ≤ w_ActiveJobs (wc_info c).

Definition picked (l : list workerConn) (r : option workerConn) : Prop :=
  match r with
  | Some w => least_loaded l w
  | None => ∀ c, c ∈ l → IsAssignable (wc_info c) = false
  end.

Lemma pick_step_picked l best k c :
  picked l best → picked (l ++ [c]) (pick_step best (k, c)).
Proof.
  unfold pick_step. cbn. intros Hb. destruct (IsAssignable (wc_info c)) eqn:Hc; cbn.
  - destruct best as [b|]; cbn in *.
    + destruct Hb as (Hin & Hab & Hmin). case_bool_decide as Hlt; cbn.
      * split_and!; [set_solver|done|]. intros c' [Hc'| ->%list_elem_of_singleton]%elem_of_app;
          [|lia]. intros Ha. specialize (Hmin _ Hc' Ha). lia.
      * split_and!; [set_solver|done|]. intros c' [Hc'| ->%list_elem_of_singleton]%elem_of_app;
          [by apply Hmin|lia].
    + split_and!; [set_solver|done|]. intros c' [Hc'| ->%list_elem_of_singleton]%elem_of_app;
        [|lia]. intros Ha. by rewrite (Hb _ Hc') in Ha.
  - destruct best as [b|]; cbn in *.
    + destruct Hb as (Hin & Hab & Hmin). split_and!; [set_solver|done|].
      intros c' [Hc'| ->%list_elem_of_singleton]%elem_of_app; [by apply Hmin|congruence].
    + intros c' [Hc'| ->%list_elem_of_singleton]%elem_of_app; [by apply Hb|done].
Qed.

Lemma pick_worker_picked l : picked l.*2 (pick_worker l).
Proof.
  unfold pick_worker. induction l as [|[k c] l IH] using rev_ind; [by intros c ?%elem_of_nil|].
  rewrite foldl_app, fmap_app. by apply pick_step_picked.
Qed.

(** The workers of the table. *)
Definition table (m : gmap string workerConn) : list workerConn := (map_to_list m).*2.

Lemma elem_of_table m c : c ∈ table m ↔ ∃ k, m !! k = Some c.
Proof.
  unfold table. rewrite list_elem_of_fmap. split.
  - intros ([k c'] & -> & Hk%elem_of_map_to_list). eauto.
  - intros [k Hk]. exists (k, c). split; [done|]. by apply elem_of_map_to_list.
Qed.

Lemma picked_perm l l' r : l ≡ₚ l' → picked l r → picked l' r.
Proof.
  intros Hp. destruct r as [w|]; cbn.
  - unfold least_loaded. by setoid_rewrite Hp.
  - by setoid_rewrite Hp.
Qed.

Section assign.
Context `{Env, !EnvLaws, CronLib} {St Qu : Type}.
Context `{!JobStore St, !StoreView St, !JobStoreLaws St}.
Context `{!Queue Qu, !QueueView Qu, !QueueLaws Qu}.
#[local] Abbreviation W := (World St Qu Service).
Implicit Types (s : St) (q : Qu) (v : Service).

Lemma wp_pickWorker (Q : option workerConn → W → Prop) n s q v ev rp :
  (∀ r, picked (table (sv_workers v)) r → Q r (mkWorld (Datatypes.S n) s q v ev rp)) →
  wp pickWorker Q (mkWorld n s q v ev rp).
Proof.
  intros HQ. unfold pickWorker. run. apply HQ.
  eapply picked_perm; [|apply pick_worker_picked].
  unfold table. rewrite entries_perm; [done|]. apply env_order_perm.
Qed.

(** C7: the least loaded worker is chosen.  In whatever order the map is
    traversed, [pickWorker] returns a worker of the table that is healthy with
    a free slot and has the fewest active jobs among those, and it returns none
    only when no worker is assignable; it changes nothing. *)
Theorem pickWorker_least_loaded (w : W) :
  wp pickWorker (λ r w',
    match r with
    | Some c =>
        (∃ k, sv_workers (g_svc w) !! k = Some c) ∧ IsAssignable (wc_info c) = true ∧
        ∀ k c', sv_workers (g_svc w) !! k = Some c' → IsAssignable (wc_info c') = true →
          w_ActiveJobs (wc_info c) ≤ w_ActiveJobs (wc_info c')
    | None => ∀ k c, sv_workers (g_svc w) !! k = Some c → IsAssignable (wc_info c) = false
    end ∧
    g_store w' = g_store w ∧ g_queue w' = g_queue w ∧ g_svc w' = g_svc w) w.
Proof.
  destruct w as [n s q v ev rp]. apply wp_pickWorker. intros [c|] Hp; cbn in *.
  - destruct Hp as (Hin & Ha & Hmin). split; [|done]. split; [by apply elem_of_table|].
    split; [done|]. intros k c' Hk. apply Hmin, elem_of_table. eauto.
  - split; [|done]. intros k c Hk. apply Hp, elem_of_table. eauto.
Qed.

(** ** The push to the worker *)

(** The record of the new execution. *)
Definition pending_execution (job : QueuedJob) (c : workerConn) (x : string) : JobExecution :=
  mkJobExecution x (q_JobID job) (w_ID (wc_info c)) (int64 (q_Attempt job + 1))
    ExecutionPending None None 0 "" None false zero_time.

(** The job after it was given to [c] as execution [x]; [started] tells
    whether the worker took it. *)
Definition assigned (j : Job) (job : QueuedJob) (c : workerConn) (x : string) (started : bool)
    (j' : Job) : Prop :=
  same_spec j j' ∧ j_WorkerID j' = w_ID (wc_info c) ∧ j_ExecutionID j' = x ∧
  j_Attempt j' = int64 (q_Attempt job + 1) ∧ j_NextRetryAt j' = j_NextRetryAt j ∧
  if started then j_State j' = JobStateRunning ∧ ∃ now, j_StartedAt j' = Some now
  else j_State j' = JobStateAssigned ∧ j_StartedAt j' = j_StartedAt j.

(** What the dispatch to [c] leaves of the world; [r] is the error returned. *)
Definition dispatched (j : Job) (job : QueuedJob) (c : workerConn) (w : W)
    (r : option GoError) (w' : W) : Prop :=
  ∃ x t j', x ≠ "" ∧
    assigned j job c x (bool_decide (r = None)) j' ∧
    jobs (g_store w') = <[q_JobID job := j']> (jobs (g_store w)) ∧
    execs (g_store w') =
      <[x := stamp_execution x t (pending_execution job c x)]> (execs (g_store w)) ∧
    workers (g_store w') = workers (g_store w) ∧ g_queue w' = g_queue w ∧
    g_rpcs w' = g_rpcs w ++ [RpcExecuteJob (wc_conn c)
      (execute_request (set_q_Attempt_ExecutionID (int64 (q_Attempt job + 1)) x job) x)] ∧
    sv_workers (g_svc w') =
      if bool_decide (r = None)
      then alter (map_info (λ i, set_w_ActiveJobs (int64 (w_ActiveJobs i + 1)) i))
             (w_ID (wc_info c)) (sv_workers (g_svc w))
      else sv_workers (g_svc w).

Lemma wp_client_ExecuteJob addr job x (Q : option GoError → W → Prop) n s q v ev rp :
  (∀ r, Q r (mkWorld (Datatypes.S n) s q v ev
               (rp ++ [RpcExecuteJob addr (execute_request job x)]))) →
  wp (client_ExecuteJob addr job x) Q (mkWorld n s q v ev rp).
Proof.
  intros HQ. unfold client_ExecuteJob. run.
  destruct (env_ExecuteJob _ _ _) as [[r|]|e]; [case_match|..]; apply wp_ret, HQ.
Qed.

Lemma wp_assign_job job c j n s q v ev rp :
  jobs s !! q_JobID job = Some j →
  wp (assign_job job c : M W _)
    (λ r w', dispatched j job c (mkWorld n s q v ev rp) r w') (mkWorld n s q v ev rp).
Proof.
  intros Hj. unfold assign_job. apply wp_bind. unfold assign_push. run.
  apply wp_CreateExecution; [apply env_uuid_ne|].
  intros n1 s1 t1 Hn1 Hj1 Hi1 Hw1 Hx1. run.
  eapply wp_UpdateJob; [by rewrite Hj1|]. intros n2 s2 t2 Hn2 (Hi2 & Hx2 & Hw2) Hj2. run.
  apply wp_client_ExecuteJob. intros [e|].
  - run. eexists (env_uuid n), t1, _. cbn [g_store g_svc g_queue g_rpcs].
    rewrite bool_decide_false by done.
    split; [apply env_uuid_ne|]. split; [|split; [by rewrite Hj2, Hj1|]].
    + split; [apply update_job_spec|by rewrite update_job_state].
    + split; [by rewrite Hx2, Hx1|]. split_and!; try done; congruence.
  - run. unfold assign_started. apply wp_bind. eapply wp_UpdateJob.
    { rewrite Hj2. apply lookup_insert_eq. }
    intros n3 s3 t3 Hn3 (Hi3 & Hx3 & Hw3) Hj3. run.
    eexists (env_uuid n), t1, _. cbn [g_store g_svc g_queue g_rpcs].
    rewrite bool_decide_true by done.
    split; [apply env_uuid_ne|].
    split; [|split; [by rewrite Hj3, Hj2, Hj1, insert_insert_eq|]].
    + split; [etrans; apply update_job_spec|]. rewrite update_job_state. cbn. eauto 10.
    + split; [by rewrite Hx3, Hx2, Hx1|]. split_and!; try done; congruence.
Qed.

Lemma wp_handleQueuedJob_queueable (w : W) job j :
  jobs (g_store w) !! q_JobID job = Some j → queueable (j_State j) = true →
  wp (handleQueuedJob job) (λ r w',
    ((∀ k c, sv_workers (g_svc w) !! k = Some c → IsAssignable (wc_info c) = false) ∧
     r = Some ErrNoWorker ∧ g_store w' = g_store w ∧ g_queue w' = g_queue w ∧
     g_svc w' = g_svc w ∧ g_rpcs w' = g_rpcs w) ∨
    (∃ c, least_loaded (table (sv_workers (g_svc w))) c ∧ dispatched j job c w r w')) w.
Proof.
  destruct w as [n s q v ev rp]. cbn [g_store]. intros Hj Hq. unfold handleQueuedJob. run.
  apply wp_GetJob. intros n' Hn. rewrite Hj.
  assert (wp (c ← pickWorker; match c with None => mret (Some ErrNoWorker)
                                         | Some c => assign_job job c end)
    (λ r w', ((∀ k c, sv_workers v !! k = Some c → IsAssignable (wc_info c) = false) ∧
      r = Some ErrNoWorker ∧ g_store w' = s ∧ g_queue w' = q ∧ g_svc w' = v ∧ g_rpcs w' = rp) ∨
      (∃ c, least_loaded (table (sv_workers v)) c ∧
            dispatched j job c (mkWorld n s q v ev rp) r w')) (mkWorld n' s q v ev rp)) as Hgo.
  { run. apply wp_pickWorker. intros [c|] Hp.
    - eapply wp_mono; [by apply wp_assign_job|]. intros r w' Hd. right. exists c.
      split; [exact Hp|]. exact Hd.
    - run. left. split; [|done]. intros k c Hk. apply Hp, elem_of_table. eauto. }
  by destruct (j_State j).
Qed.

Lemma wp_handleQueuedJob_other (w : W) job j :
  jobs (g_store w) !! q_JobID job = Some j → queueable (j_State j) = false →
  wp (handleQueuedJob job) (λ r w', r = None ∧
    g_store w' = g_store w ∧ g_queue w' = g_queue w ∧ g_svc w' = g_svc w ∧
    g_events w' = g_events w ∧ g_rpcs w' = g_rpcs w) w.
Proof.
  destruct w as [n s q v ev rp]. cbn [g_store]. intros Hj Hq. unfold handleQueuedJob. run.
  apply wp_GetJob. intros n' Hn. rewrite Hj. by destruct (j_State j).
Qed.


(** C10: a refused push strands the job.  When the worker does not take the
    first attempt of a job (the RPC fails or the worker is at capacity), the
    method answers with an error, so that the delivery can be repeated, but it
    has left the job in ASSIGNED without a start time: the repeated delivery
    skips it, it is never due again, and the timeout watchdog, which needs a
    start time, never reports it. *)
Theorem refused_push_strands_job (w : W) job j :
  jobs (g_store w) !! q_JobID job = Some j → queueable (j_State j) = true →
  j_StartedAt j = None →
  wp (handleQueuedJob job) (λ r w', r ≠ None → r ≠ Some ErrNoWorker →
    ∃ j', jobs (g_store w') !! q_JobID job = Some j' ∧ j_State j' = JobStateAssigned ∧
      (∀ now, due now j' = false ∧ timed_out now j' = false) ∧
      wp (handleQueuedJob job) (λ r2 w2, r2 = None ∧ g_store w2 = g_store w') w') w.
Proof.
  intros Hj Hq Hst. eapply wp_mono; [by apply wp_handleQueuedJob_queueable|].
  intros r w' [(_ & -> & _)|(c & _ & x & t & j' & _ & Ha & Hjs & _)] Hr Hr'; [done|].
  rewrite bool_decide_false in Ha by done.
  destruct Ha as (_ & _ & _ & _ & _ & Hstate & Hstart). rewrite Hst in Hstart.
  exists j'. rewrite Hjs, lookup_insert_eq. split; [done|]. split; [done|]. split.
  - intros now. unfold due, timed_out. rewrite Hstate, Hstart. by rewrite andb_false_r.
  - eapply wp_mono; [eapply (wp_handleQueuedJob_other w' job j')|].
    + by rewrite Hjs, lookup_insert_eq.
    + by rewrite Hstate.
    + intros r2 w2 (-> & Hs & _). done.
Qed.
End assign.

(** ** On the in-memory store *)

#[local] Existing Instance sample_cron.

Definition queued_world (active : Z) : World MemStore MemQueue Service :=
  sample_world [sample_job "j1" JobStateQueued "" 0]
    [sample_conn "w1" active; sample_conn "w2" 2].

#[local] Existing Instance sample_env.
#[local] Existing Instance sample_env_laws.

Lemma pickWorker_least_loaded_witness :
  match (pickWorker (queued_world 1)).1 with
  | Some c => w_ActiveJobs (wc_info c) ≤ 1
  | None => False
  end.
Proof.
  pose proof (pickWorker_least_loaded (queued_world 1)) as [Hp _]. unfold wp in Hp.
  destruct (pickWorker (queued_world 1)).1 as [c|].
  - destruct Hp as (_ & _ & Hmin).
    apply (Hmin "w1" (sample_conn "w1" 1).2); [by vm_compute|done].
  - specialize (Hp "w1" (sample_conn "w1" 1).2 ltac:(by vm_compute)). by vm_compute in Hp.
Defined.


Section refusing.
#[local] Existing Instance refusing_env.
#[local] Existing Instance refusing_env_laws.

(** The worker answers "at capacity" and the job stays ASSIGNED. *)
Lemma refused_push_strands_job_witness :
  let j := set_StartedAt None (sample_job "j1" JobStateQueued "" 0) in
  let w' := (handleQueuedJob (queued_job "j1")
               (sample_world [j] [sample_conn "w1" 0])).2 in
  ∃ j', jobs (g_store w') !! "j1" = Some j' ∧ j_State j' = JobStateAssigned ∧
    ∀ now, due now j' = false ∧ timed_out now j' = false.
Proof.
  intros j w'. destruct (refused_push_strands_job (sample_world [j] [sample_conn "w1" 0]) (queued_job "j1") j) as (j' & Hj' & Hst & Hd & _);
    [by vm_compute|done|done|by vm_compute|by vm_compute|].
  exists j'. split; [exact Hj'|]. split; [exact Hst|exact Hd].
Defined.
End refusing.
