(* ===== verification/Delivery.v ===== *)
(** * The in-memory queue and its consumer

    The order in which the queue delivers, the release of delayed jobs, and
    the composition of the consumer with the scheduler's handler: a job whose
    dispatch fails is not lost. *)

From S2P Require Import Prelude.
From S2P Require Import Float64.
From S2P Require Import Domain.
From S2P Require Import Ports.
From S2P Require Import Fixture.
From S2P Require Import MemStore.
From S2P Require Import MemQueue.
From S2P Require Import Calls.
From S2P Require Import WorkerClient.
From S2P Require Import Backoff.
From S2P Require Import Scheduler.
From S2P Require Import Lifecycle.
From S2P Require Import Refinement.
From S2P Require Import Control.
From S2P Require Import Assign.

Section order.
Context `{Env}.

(** The queue delivers by priority, then by age.  In every state the
    queue reaches through Enqueue, EnqueueDelay, the release of delayed jobs,
    deliveries and Close, each job stands before all jobs of lower priority and
    before all jobs of its priority that were enqueued later; so the job that is
    delivered next has the highest priority of all, and is the oldest of those. *)
Lemma queue_delivers_in_order q :
  rtc mq_step mq_New q →
  StronglySorted ahead (mq_items q) ∧
  ∀ job rest, mq_items q = job :: rest → ∀ x, x ∈ rest →
    q_Priority x < q_Priority job ∨
    (q_Priority x = q_Priority job ∧ q_EnqueuedAt job ≤ q_EnqueuedAt x).
Proof.
  intros Hr.
  assert (mq_sorted q) as Hs.
  { assert (mq_sorted mq_New) as H0 by constructor.
    induction Hr as [|q1 q2 q3 Hstep _ IH]; [done|]. by apply IH, (mq_step_sorted q1). }
  split; [done|]. intros job rest Hq x Hx. unfold mq_sorted in Hs. rewrite Hq in Hs.
  inversion Hs as [|? ? _ Hall]; subst. rewrite Forall_forall in Hall.
  specialize (Hall x Hx). unfold ahead in Hall. lia.
Qed.

(** Enqueueing is stable and loses nothing.  Enqueue on an open queue adds
    exactly the given job (stamped with the current time if it had no enqueue
    time), keeps the delivery order, and puts it behind all jobs of the same
    priority and enqueue time; on a closed queue it answers context.Canceled
    and changes nothing. *)
Lemma Enqueue_stable n q job :
  mq_sorted q →
  wp (mq_Enqueue job) (λ r nq,
    if mq_closed q then r = Some ContextCanceled ∧ nq.2 = q
    else r = None ∧ mq_sorted nq.2 ∧ mq_delayed nq.2 = mq_delayed q ∧ ∃ job',
      (job' = job ∨ IsZero (q_EnqueuedAt job) = true ∧ ∃ now, job' = set_q_EnqueuedAt now job) ∧
      mq_items nq.2 ≡ₚ job' :: mq_items q ∧
      let same x := q_Priority x = q_Priority job' ∧ q_EnqueuedAt x = q_EnqueuedAt job' in
      filter same (mq_items nq.2) = filter same (mq_items q) ++ [job']) (n, q).
Proof.
  intros Hs. eapply wp_mono; [apply mq_Enqueue_spec|]. intros r [n' q'] [_ Hq]. cbn in *.
  destruct (mq_closed q); [done|]. destruct Hq as (-> & t & Ht & ->). split; [done|].
  split; [by apply insertLocked_sorted|]. split; [done|].
  exists (set_q_EnqueuedAt t job). split; [|split].
  - destruct (IsZero (q_EnqueuedAt job)); [right; eauto|left]. rewrite Ht by done. by destruct job.
  - apply insertLocked_perm.
  - by apply insertLocked_stable.
Qed.

End order.

(** ** The consumer with the scheduler's handler *)

Section consumer.
Context `{Env, !EnvLaws, CronLib} {St : Type}.
Context `{!JobStore St, !StoreView St, !JobStoreLaws St}.
#[local] Abbreviation W := (World St MemQueue Service).

(** One round of the consumer on an open queue with a job to deliver. *)
Lemma wp_consume_one (handler : QueuedJob → M W (option GoError)) job rest n s q v ev rp
    (Q : option GoError → St → Service → list RpcCall → Prop) :
  mq_closed q = false → mq_items q = job :: rest →
  (∀ n', wp (handler job) (λ r w', g_queue w' = set_mq_items rest q ∧
           Q r (g_store w') (g_svc w') (g_rpcs w'))
         (mkWorld n' s (set_mq_items rest q) v ev rp)) →
  wp (consume_one handler) (λ out w', ∃ err, out = Handled job err ∧
    Q err (g_store w') (g_svc w') (g_rpcs w') ∧ mq_closed (g_queue w') = false ∧
    match err with
    | None => mq_items (g_queue w') = rest
    | Some _ => ∃ t, (IsZero (q_EnqueuedAt job) = false → t = q_EnqueuedAt job) ∧
        mq_items (g_queue w') = insertLocked (set_q_EnqueuedAt t job) rest
    end) (mkWorld n s q v ev rp).
Proof.
  intros Hc Hq Hh. unfold consume_one. run.
  eapply (wp_callQ _ (λ a nq, a = q ∧ nq.2 = q)); [done|].
  intros a n1 q1 [-> Hq1]. cbn in Hq1. subst q1. rewrite Hc, Hq. run.
  eapply (wp_callQ _ (λ _ nq, nq.2 = set_mq_items rest q)); [done|].
  intros [] n2 q2 Hq2. cbn in Hq2. subst q2. run. eapply wp_mono; [apply Hh|].
  intros err [n3 s3 q3 v3 ev3 rp3] [Hq3 HQ]. cbn in Hq3, HQ. subst q3. destruct err as [e|].
  - run. eapply wp_callQ; [apply mq_Enqueue_spec|]. intros r n4 q4 [_ Hq4]. cbn in Hq4.
    rewrite Hc in Hq4. destruct Hq4 as (-> & t & Ht & ->). run. exists (Some e). split; [done|].
    split; [done|]. split; [done|]. by exists t.
  - run. by exists None.
Qed.

(** A delivery that cannot be carried out is repeated.  The consumer
    takes the first message of the queue and hands it to the scheduler.  If no
    worker can take the job, the message goes back to its place in the delivery
    order and the job, the executions and the network are untouched; if a worker
    accepts it, the message is gone and the job is RUNNING; in no case is
    another message lost or duplicated. *)
Lemma delivery_not_lost (w : W) job rest j :
  mq_closed (g_queue w) = false → mq_items (g_queue w) = job :: rest →
  mq_sorted (g_queue w) → IsZero (q_EnqueuedAt job) = false →
  jobs (g_store w) !! q_JobID job = Some j → queueable (j_State j) = true →
  wp (consume_one handleQueuedJob) (λ out w', ∃ err, out = Handled job err ∧
    mq_sorted (g_queue w') ∧
    match err with
    | None => mq_items (g_queue w') = rest ∧
        ∃ j', jobs (g_store w') !! q_JobID job = Some j' ∧ j_State j' = JobStateRunning
    | Some e => mq_items (g_queue w') ≡ₚ mq_items (g_queue w)
    end ∧
    ((∀ k c, sv_workers (g_svc w) !! k = Some c → IsAssignable (wc_info c) = false) →
       err = Some ErrNoWorker ∧ g_store w' = g_store w ∧ g_rpcs w' = g_rpcs w)) w.
Proof.
  destruct w as [n s q v ev rp]. cbn [g_queue g_store g_svc g_rpcs].
  intros Hc Hq Hs Hz Hj Hqu. unfold mq_sorted in *. rewrite Hq in Hs.
  inversion Hs as [|? ? Hs' _]; subst.
  eapply wp_mono; [apply (wp_consume_one handleQueuedJob job rest n s q v ev rp (λ r s' v' rp',
    (r = None → ∃ j', jobs s' !! q_JobID job = Some j' ∧ j_State j' = JobStateRunning) ∧
    ((∀ k c, sv_workers v !! k = Some c → IsAssignable (wc_info c) = false) →
       r = Some ErrNoWorker ∧ s' = s ∧ rp' = rp))); [done|done|]|].
  - intros n'. eapply wp_mono; [by apply wp_handleQueuedJob_queueable|].
    intros r w' [(_ & -> & Hs1 & Hq1 & _ & Hr1)|(c & Hc1 & x & t & j' & _ & Ha & Hjs & _ & _ & Hq1 & _)].
    + by split.
    + split; [done|]. split.
      * intros ->. rewrite bool_decide_true in Ha by done. exists j'. rewrite Hjs. cbn.
        rewrite lookup_insert_eq. split; [done|]. apply Ha.
      * intros Hno. destruct Hc1 as (Hin & Hass & _). apply elem_of_table in Hin as [k Hk].
        cbn in Hk. by rewrite (Hno _ _ Hk) in Hass.
  - intros out w' (err & -> & (Hrun & Hno) & Hc' & Hitems). exists err. split; [done|].
    destruct err as [e|].
    + destruct Hitems as (t & Ht & ->). rewrite Ht by done.
      replace (set_q_EnqueuedAt (q_EnqueuedAt job) job) with job by by destruct job.
      split; [by apply insertLocked_sorted|]. rewrite Hq. split; [apply insertLocked_perm|done].
    + rewrite Hitems. split; [done|]. split; [|done]. split; [done|]. by apply Hrun.
Qed.
End consumer.

(** ** On the in-memory store *)

#[local] Existing Instance sample_env.
#[local] Existing Instance sample_env_laws.
#[local] Existing Instance sample_cron.

Lemma queue_delivers_in_order_witness :
  StronglySorted ahead (mq_items (mq_Enqueue (queued_job "j1") (0%nat, mq_New)).2.2).
Proof.
  apply (queue_delivers_in_order (mq_Enqueue (queued_job "j1") (0%nat, mq_New)).2.2).
  apply rtc_once, step_Enqueue.
Defined.

Lemma Enqueue_stable_witness :
  mq_sorted (mq_Enqueue (queued_job "j1") (0%nat, mq_New)).2.2.
Proof.
  destruct (Enqueue_stable 0 mq_New (queued_job "j1")) as (_ & Hs & _); [constructor|exact Hs].
Defined.

(** Both workers are full: the message stays in the queue. *)
Lemma delivery_not_lost_witness :
  let w0 := sample_world [sample_job "j1" JobStateQueued "" 0] [sample_conn "w1" 4] in
  let w := mkWorld 0 (g_store w0) (set_mq_items [queued_job "j1"] mq_New) (g_svc w0) [] [] in
  ∃ err, (consume_one handleQueuedJob w).1 = Handled (queued_job "j1") err ∧ err = Some ErrNoWorker.
Proof.
  intros w0 w. destruct (delivery_not_lost w (queued_job "j1") [] (sample_job "j1" JobStateQueued "" 0))
    as (err & Hout & _ & _ & Hno); [done|done|repeat constructor|done|by vm_compute|done|].
  exists err. split; [exact Hout|]. apply Hno. intros k c. cbn.
  rewrite lookup_insert. case_decide; [|by rewrite lookup_empty]. by intros [= <-].
Defined.
