(* ===== verification/KafkaDelivery.v ===== *)
(** * Deliveries through the Kafka queue

    Sessions of the consumer of Kafka.v: rounds of its loop, interleaved with
    anything that does not read from the queue.  What a session hands to its
    handler, what becomes of a message whose handler failed, and the
    composition with the scheduler's handler. *)

From S2P Require Import Prelude.
From S2P Require Import Float64.
From S2P Require Import Domain.
From S2P Require Import Ports.
From S2P Require Import Fixture.
From S2P Require Import MemStore.
From S2P Require Import MemQueue.
From S2P Require Import Kafka.
From S2P Require Import KafkaFixture.
From S2P Require Import Calls.
From S2P Require Import WorkerClient.
From S2P Require Import Backoff.
From S2P Require Import Scheduler.
From S2P Require Import Lifecycle.
From S2P Require Import Refinement.
From S2P Require Import Control.
From S2P Require Import Assign.

Section session.
Context `{Env, JobCodec} {K : Type} `{!KafkaClient K, !KafkaView K, !KafkaClientLaws K}.
Context {St V : Type}.
#[local] Abbreviation W := (World St (KafkaQueue K) V).
Context (handler : QueuedJob → M W (option GoError)).

(** The rounds of a session, in order. *)
Inductive session : list round → W → W → Prop :=
  | session_nil w : session [] w w
  | session_other w w1 rs w' :
      keeps_reader (client w) (client w1) → session rs w1 w' → session rs w w'
  | session_round ctxErr w rs w' :
      session rs (kafka_round ctxErr handler w).2 w' →
      session ((kafka_round ctxErr handler w).1 :: rs) w w'.

(** The messages of partition [p] a session fetched, and the jobs of it that
    were handed to the handler. *)
Definition on_partition (p : nat) (r : round) : option InMessage :=
  m ← fetched r; if decide (im_Partition m = p) then Some m else None.
Definition handed (p : nat) (r : round) : option QueuedJob :=
  match r with
  | Refused m job _ | CommitFailed m job _ | Accepted m job =>
      if decide (im_Partition m = p) then Some job else None
  | _ => None
  end.

(** The job in a value of the log, if it is one. *)
Definition decoded (v : string) : option QueuedJob :=
  match json_Unmarshal v with Ok job => Some job | Err _ => None end.

Hypothesis (Hh : leaves_reader handler).

Lemma round_reader ctxErr (w : W) :
  round_post (kafka_round ctxErr handler w).1 (client w)
    (client (kafka_round ctxErr handler w).2).
Proof. apply (wp_kafka_round ctxErr handler w Hh). Qed.

(** The induction principle of the lemmas below. *)
Lemma session_reader (P : list round → K → K → Prop) :
  (∀ k, P [] k k) →
  (∀ rs k k1 k', keeps_reader k k1 → P rs k1 k' → P rs k k') →
  (∀ r rs k k1 k', round_post r k k1 → P rs k1 k' → P (r :: rs) k k') →
  ∀ rs w w', session rs w w' → P rs (client w) (client w').
Proof.
  intros H1 H2 H3 rs w w'. induction 1; [done|by eauto|]. eapply H3; [apply round_reader|done].
Qed.

Lemma session_log rs w w' : session rs w w' → log_grows (client w) (client w').
Proof.
  apply (session_reader (λ _ k k', log_grows k k')); [done| |].
  - intros ? ? ? ? (Hg & _) ?. by etrans.
  - intros ? ? ? ? ? (Hg & _) ?. by etrans.
Qed.

(** The position of a partition after a round. *)
Lemma round_pos r k k' p :
  round_post r k k' → kpos k' p = (kpos k p + length (option_list (on_partition p r)))%nat.
Proof.
  intros (_ & Hr & _). unfold on_partition. destruct (fetched r) as [m|]; cbn; [|by destruct Hr as [-> _]].
  destruct Hr as (_ & _ & Hp & _). rewrite Hp. case_decide as Hd.
  - rewrite bool_decide_true by done. cbn. lia.
  - rewrite bool_decide_false by done. cbn. lia.
Qed.

Lemma session_pos rs w w' p :
  session rs w w' →
  kpos (client w') p = (kpos (client w) p + length (omap (on_partition p) rs))%nat.
Proof.
  revert rs w w'.
  apply (session_reader (λ rs k k', kpos k' p = kpos k p + length (omap (on_partition p) rs))%nat).
  - intros k. cbn. lia.
  - intros rs k k1 k' (_ & Hp & _) ->. by rewrite Hp.
  - intros r rs k k1 k' Hr ->. rewrite (round_pos _ _ _ p Hr). cbn.
    destruct (on_partition p r); cbn; lia.
Qed.

(** The offsets a session fetches of a partition follow each other. *)
Lemma session_offsets rs w w' p :
  session rs w w' →
  im_Offset <$> omap (on_partition p) rs =
    seq (kpos (client w) p) (length (omap (on_partition p) rs)).
Proof.
  revert rs w w'. apply (session_reader (λ rs k k',
    im_Offset <$> omap (on_partition p) rs = seq (kpos k p) (length (omap (on_partition p) rs)))).
  - done.
  - intros rs k k1 k' (_ & Hp & _). by rewrite Hp.
  - intros r rs k k1 k' Hr. rewrite (round_pos _ _ _ p Hr). destruct Hr as (_ & Hr & _). cbn.
    unfold on_partition. destruct (fetched r) as [m|]; cbn; [|by rewrite Nat.add_0_r].
    destruct Hr as (Ho & _). case_decide as Hd; cbn; [|by rewrite Nat.add_0_r].
    rewrite Nat.add_1_r. intros ->. by rewrite <- Hd, Ho.
Qed.

(** What was handed over is what the log holds. *)
Lemma session_handed rs w w' p :
  session rs w w' →
  omap (handed p) rs =
    omap decoded (take (length (omap (on_partition p) rs))
                    (drop (kpos (client w) p) (klog (client w') p))).
Proof.
  intros Hs.
  cut (log_grows (client w) (client w') ∧ omap (handed p) rs =
    omap decoded (take (length (omap (on_partition p) rs))
                    (drop (kpos (client w) p) (klog (client w') p)))); [by intros [_ ?]|].
  revert rs w w' Hs. apply (session_reader (λ rs k k', log_grows k k' ∧ omap (handed p) rs =
    omap decoded (take (length (omap (on_partition p) rs)) (drop (kpos k p) (klog k' p))))).
  - done.
  - intros rs k k1 k' (Hg & Hp & _) [Hg' ->]. rewrite Hp. split; [by etrans|done].
  - intros r rs k k1 k' Hr [Hg' IH]. pose proof (round_pos _ _ _ p Hr) as Hpos.
    destruct Hr as (Hg & Hr & Hj). split; [by etrans|]. cbn. revert Hr Hpos. unfold on_partition at 1 2.
    destruct r as [e|m|m job e|m job e|m job]; cbn [fetched handed mbind option_bind];
      [intros _ Hpos; rewrite IH, Hpos; cbn; by rewrite Nat.add_0_r|..];
      intros (Ho & Hl & _) Hpos; cbn in Hj; case_decide as Hd; cbn in *;
      rewrite IH, Hpos, ?Nat.add_0_r; try done;
      rewrite (drop_S (klog k' p) (im_Value m) (kpos k p))
        by (subst p; rewrite <- Ho; eapply log_lookup; eassumption);
      rewrite Nat.add_1_r; cbn; unfold decoded at 2; [destruct Hj as [e' ->]|rewrite Hj..]; done.
Qed.

Lemma session_app rs1 rs2 w w' :
  session (rs1 ++ rs2) w w' → ∃ w1 : W, session rs1 w w1 ∧ session rs2 w1 w'.
Proof.
  intros Hs. remember (rs1 ++ rs2) as rs eqn:E. revert rs1 E.
  induction Hs as [w|w w1 rs w' Hk Hs IH|ctxErr w rs w' Hs IH]; intros rs1 E.
  - symmetry in E. apply app_nil in E as [-> ->]. exists w. split; constructor.
  - destruct (IH rs1 E) as (w2 & ? & ?). exists w2. split; [by eapply session_other|done].
  - destruct rs1 as [|r rs1]; cbn in E.
    + exists w. split; [constructor|]. rewrite <- E. by constructor.
    + injection E as E1 E2. destruct (IH rs1 E2) as (w2 & ? & ?). exists w2. split; [|done].
      rewrite <- E1. by constructor.
Qed.

Lemma session_cons r rs w w' :
  session (r :: rs) w w' → ∃ w1 w2 : W, keeps_reader (client w) (client w1) ∧
    round_post r (client w1) (client w2) ∧ session rs w2 w'.
Proof.
  intros Hs. remember (r :: rs) as rs0 eqn:E.
  induction Hs as [w|w w1 rs0 w' Hk Hs IH|ctxErr w rs0 w' Hs IH]; [done| |].
  - destruct (IH E) as (w2 & w3 & (Hg & Hp & Hc) & ? & ?). exists w2, w3. split; [|done].
    destruct Hk as (Hg0 & Hp0 & Hc0). split_and!; [by etrans|congruence|congruence].
  - injection E as E1 E2. subst. exists w, (kafka_round ctxErr handler w).2.
    split; [by split_and!|]. split; [apply round_reader|done].
Qed.

(** A message of the session has an offset the session went past. *)
Lemma session_fetched rs w w' r m :
  session rs w w' → r ∈ rs → fetched r = Some m →
  (kpos (client w) (im_Partition m) ≤ im_Offset m < kpos (client w') (im_Partition m))%nat.
Proof.
  intros Hs Hr Hm. set (p := im_Partition m).
  rewrite (session_pos _ _ _ p Hs).
  assert (im_Offset m ∈ im_Offset <$> omap (on_partition p) rs) as Hin.
  { apply list_elem_of_fmap_2, list_elem_of_omap. exists r. split; [done|].
    unfold on_partition. rewrite Hm. cbn. by rewrite decide_True. }
  rewrite (session_offsets _ _ _ p Hs), elem_of_seq in Hin. lia.
Qed.

(** Every offset the session went past belongs to one of its messages. *)
Lemma session_past rs w w' p o :
  session rs w w' → (kpos (client w) p ≤ o < kpos (client w') p)%nat →
  ∃ r m, r ∈ rs ∧ fetched r = Some m ∧ im_Partition m = p ∧ im_Offset m = o.
Proof.
  intros Hs. rewrite (session_pos _ _ _ p Hs). intros Ho.
  assert (o ∈ im_Offset <$> omap (on_partition p) rs) as Hin
    by (rewrite (session_offsets _ _ _ p Hs), elem_of_seq; lia).
  apply list_elem_of_fmap in Hin as (m & -> & (r & Hr & Hm)%list_elem_of_omap).
  exists r, m. revert Hm. unfold on_partition. destruct (fetched r) as [m'|]; cbn; [|done].
  case_decide; [|done]. by intros [= ->].
Qed.

(** Commits do not go back behind the position. *)
Lemma session_committed rs w w' p c :
  session rs w w' → (c ≤ kcommitted (client w) p)%nat → (c ≤ kpos (client w) p)%nat →
  (c ≤ kcommitted (client w') p)%nat.
Proof.
  revert rs w w'.
  apply (session_reader (λ _ k k', (c ≤ kcommitted k p)%nat → (c ≤ kpos k p)%nat →
                                   (c ≤ kcommitted k' p)%nat)).
  - done.
  - intros rs k k1 k' (_ & Hp & Hc) IH. by rewrite <- Hc, <- Hp.
  - intros r rs k k1 k' Hr IH Hc Hp. pose proof (round_pos _ _ _ p Hr) as Hpos.
    apply IH; [|lia]. destruct Hr as (_ & Hr & _). destruct (fetched r) as [m|].
    + destruct Hr as (Ho & _ & _ & Hcm). destruct (Hcm p) as [[-> _]|(-> & -> & _)]; [done|]. lia.
    + destruct Hr as [_ ->]. done.
Qed.

(** A committed offset is the one before, or one past a message of the session
    whose handler did not fail. *)
Lemma session_committed_by rs w w' p :
  session rs w w' →
  kcommitted (client w') p = kcommitted (client w) p ∨
  ∃ r m, r ∈ rs ∧ fetched r = Some m ∧ im_Partition m = p ∧
    (∀ m' j' e, r ≠ Refused m' j' e) ∧ kcommitted (client w') p = S (im_Offset m).
Proof.
  revert rs w w'. apply (session_reader (λ rs k k', kcommitted k' p = kcommitted k p ∨
    ∃ r m, r ∈ rs ∧ fetched r = Some m ∧ im_Partition m = p ∧
      (∀ m' j' e, r ≠ Refused m' j' e) ∧ kcommitted k' p = S (im_Offset m))).
  - by left.
  - intros rs k k1 k' (_ & _ & Hc). by rewrite Hc.
  - intros r rs k k1 k' Hr [Hk|(r' & m & Hin & ?)]; [|right; exists r', m; set_solver].
    rewrite Hk. destruct Hr as (_ & Hr & _). destruct (fetched r) as [m|] eqn:Hf.
    + destruct Hr as (_ & _ & _ & Hcm). destruct (Hcm p) as [[-> _]|(-> & -> & Hn)]; [by left|].
      right. exists r, m. split; [set_solver|done].
    + destruct Hr as [_ ->]. by left.
Qed.
End session.

Section claims.
Context `{Env, JobCodec} {K : Type} `{!KafkaClient K, !KafkaView K, !KafkaClientLaws K}.
Context {St V : Type}.
#[local] Abbreviation W := (World St (KafkaQueue K) V).

(** C5: the Kafka consumer hands over every job once and in order.  In a
    session, whatever else happens in between and however the handler answers,
    the jobs handed to the handler from a partition are exactly the decodable
    values of its log from the first position to the last, in their order, each
    once; and the offset that is committed in the end is the one before the
    session or one past a message that was no job or whose handler did not
    fail. *)
Theorem kafka_delivers_in_order handler rs (w w' : W) p :
  leaves_reader handler → session handler rs w w' →
  (kpos (client w) p ≤ kpos (client w') p)%nat ∧
  omap (handed p) rs =
    omap decoded (take (kpos (client w') p - kpos (client w) p)
                    (drop (kpos (client w) p) (klog (client w') p))) ∧
  (kcommitted (client w') p = kcommitted (client w) p ∨
   ∃ r m, r ∈ rs ∧ fetched r = Some m ∧ im_Partition m = p ∧
     (∀ m' j' e, r ≠ Refused m' j' e) ∧ kcommitted (client w') p = S (im_Offset m)).
Proof.
  intros Hh Hs. pose proof (session_pos handler Hh _ _ _ p Hs) as Hp. split; [lia|]. split.
  - rewrite (session_handed handler Hh _ _ _ p Hs).
    by replace (kpos (client w') p - kpos (client w) p)%nat
      with (length (omap (on_partition p) rs)) by lia.
  - by apply (session_committed_by handler Hh).
Qed.

(** What remains of a session after a refused message. *)
Lemma refused_later handler m job e rs (w w' : W) :
  leaves_reader handler → session handler (Refused m job e :: rs) w w' →
  ∀ r' m', r' ∈ rs → fetched r' = Some m' → im_Partition m' = im_Partition m →
    (im_Offset m < im_Offset m')%nat.
Proof.
  intros Hh Hs r' m' Hr' Hm' Hp. destruct (session_cons handler Hh _ _ _ _ Hs)
    as (w1 & w2 & _ & Hround & Hs2).
  pose proof (session_fetched handler Hh _ _ _ _ _ Hs2 Hr' Hm') as [Hle _].
  rewrite Hp, (round_pos _ _ _ (im_Partition m) Hround) in Hle.
  destruct Hround as (_ & (Ho & _) & _). rewrite <- Ho in Hle.
  unfold on_partition in Hle. cbn in Hle. rewrite decide_True in Hle by done. cbn in Hle. lia.
Qed.

(** A refused delivery is not repeated.  Once the handler has answered a
    message with an error, the session never fetches that message again; and as
    soon as a later message of the same partition is accepted, the committed
    offset is past the refused one, so that no consumer of the group that
    resumes from it will see the message either. *)
Lemma kafka_refused_is_skipped handler rs1 rs2 rs3 m job e m' job' (w w' : W) :
  leaves_reader handler →
  session handler (rs1 ++ Refused m job e :: rs2 ++ Accepted m' job' :: rs3) w w' →
  im_Partition m' = im_Partition m →
  (∀ r m2, r ∈ rs2 ++ Accepted m' job' :: rs3 → fetched r = Some m2 →
     im_Partition m2 = im_Partition m → im_Offset m2 ≠ im_Offset m) ∧
  (im_Offset m < kcommitted (client w') (im_Partition m))%nat.
Proof.
  intros Hh Hs Hp. apply (session_app handler) in Hs as (w1 & _ & Hs).
  pose proof (refused_later handler m job e _ _ _ Hh Hs) as Hlater. split.
  { intros r m2 Hr Hm2 Hp2. specialize (Hlater r m2 Hr Hm2 Hp2). lia. }
  assert (im_Offset m < im_Offset m')%nat as Hlt
    by (apply (Hlater (Accepted m' job')); [set_solver|done|done]).
  destruct (session_cons handler Hh _ _ _ _ Hs) as (w2 & w3 & _ & _ & Hs3).
  apply (session_app handler) in Hs3 as (w4 & _ & Hs4).
  destruct (session_cons handler Hh _ _ _ _ Hs4) as (w5 & w6 & _ & Hround & Hs6).
  eapply (session_committed handler Hh _ _ _ (im_Partition m) (S (im_Offset m)) Hs6).
  - destruct Hround as (_ & (_ & _ & _ & Hcm) & _).
    destruct (Hcm (im_Partition m)) as [[_ Hno]|(-> & _)]; [|lia].
    destruct (Hno m' job') as [Hne|Hne]; [done|]. by rewrite Hp in Hne.
  - rewrite (round_pos _ _ _ (im_Partition m) Hround). destruct Hround as (_ & (Ho & _) & _).
    cbn in Ho. rewrite Hp in Ho. lia.
Qed.
End claims.

(** ** With the scheduler's handler *)

Section scheduler.
Context `{Env, !EnvLaws, CronLib, JobCodec}.
Context {K : Type} `{!KafkaClient K, !KafkaView K, !KafkaClientLaws K}.
Context {St : Type} `{!JobStore St, !StoreView St, !JobStoreLaws St}.
#[local] Abbreviation W := (World St (KafkaQueue K) Service).

Definition queue_kept {A} (m : M W A) : Prop := ∀ w, g_queue (m w).2 = g_queue w.

Lemma queue_kept_bind {A B} (m : M W A) (f : A → M W B) :
  queue_kept m → (∀ a, queue_kept (f a)) → queue_kept (m ≫= f).
Proof.
  intros Hm Hf w. unfold mbind, M_bind. specialize (Hm w). destruct (m w) as [a w'].
  cbn in Hm. rewrite <- Hm. apply Hf.
Qed.

Lemma queue_kept_callS {A} (m : M (nat * St) A) : queue_kept (callS m).
Proof. intros [n s q v ev rp]. unfold callS. by destruct (m (n, s)) as [? [? ?]]. Qed.

Ltac queue_keep :=
  repeat first
    [ apply queue_kept_bind; [|intros ?] | apply queue_kept_callS
    | match goal with |- queue_kept (match ?x with _ => _ end) => destruct x end
    | intros []; reflexivity ].

Lemma handleQueuedJob_leaves_reader : leaves_reader (St := St) (K := K) handleQueuedJob.
Proof.
  intros job w. unfold wp, client.
  assert (∀ j, queue_kept (handleQueuedJob j)) as ->; [|by split_and!].
  intros j. unfold handleQueuedJob, pickWorker, assign_job, assign_push, assign_started,
    client_ExecuteJob. queue_keep.
Qed.

Lemma wp_kafka_round_no_worker ctxErr (w : W) job j :
  (∀ k c, sv_workers (g_svc w) !! k = Some c → IsAssignable (wc_info c) = false) →
  jobs (g_store w) !! q_JobID job = Some j → queueable (j_State j) = true →
  wp (kafka_round ctxErr handleQueuedJob) (λ r w', ∀ m,
    fetched r = Some m → decoded (im_Value m) = Some job →
    r = Refused m job ErrNoWorker ∧ g_store w' = g_store w) w.
Proof.
  intros Hno Hjob Hq. unfold kafka_round. apply wp_bind.
  eapply wp_callK_frame; [apply Fetch_spec|]. intros [m|e] w1 _ Hs Hv; [|by apply wp_ret].
  destruct (json_Unmarshal (im_Value m)) as [job'|e] eqn:Hj.
  2:{ apply wp_bind, wp_all. intros r w2. apply wp_ret. intros m' [= <-]. unfold decoded. by rewrite Hj. }
  destruct (decide (job' = job)) as [->|Hne].
  - apply wp_bind. rewrite <- Hs in Hjob. rewrite <- Hv in Hno.
    eapply wp_mono; [by apply (wp_handleQueuedJob_queueable w1 job j)|].
    intros r w2 [(_ & -> & Hs2 & _)|(c & (Hin & Ha & _) & _)].
    + apply wp_ret. intros m' [= <-] _. by rewrite Hs2, Hs.
    + apply elem_of_table in Hin as [k Hk]. by rewrite (Hno _ _ Hk) in Ha.
  - apply wp_bind, wp_all. intros [e|] w2; [apply wp_ret; intros m' [= <-]; unfold decoded; rewrite Hj; congruence|].
    apply wp_bind, wp_all. intros [e|] w3; apply wp_ret; intros m' [= <-]; unfold decoded; rewrite Hj; congruence.
Qed.

(** C22: without a free worker a job that comes through Kafka is stranded.  When
    the message of a QUEUED job arrives while no worker is assignable, the
    scheduler answers ErrNoWorker and the job stays QUEUED; a QUEUED job is never
    due, so that the polling loop does not enqueue it.  Nothing is committed, but
    the consumer has moved past the message: for the rest of the session it never
    fetches it again.  As soon as the session accepts a later message of the
    partition, the committed offset is past the message, and no session that
    resumes there, as a restarted scheduler does, ever fetches it.  Only a restart
    before that helps: a session that resumes at an offset up to the message's
    fetches it again if it gets past it. *)
Theorem kafka_no_worker_strands ctxErr (w : W) m job j :
  (∀ k c, sv_workers (g_svc w) !! k = Some c → IsAssignable (wc_info c) = false) →
  jobs (g_store w) !! q_JobID job = Some j → j_State j = JobStateQueued →
  fetched (kafka_round ctxErr handleQueuedJob w).1 = Some m →
  decoded (im_Value m) = Some job →
  let w1 := (kafka_round ctxErr handleQueuedJob w).2 in
  let p := im_Partition m in
  let fetches rs := ∃ r' m', r' ∈ rs ∧ fetched r' = Some m' ∧
                             im_Partition m' = p ∧ im_Offset m' = im_Offset m in
  (kafka_round ctxErr handleQueuedJob w).1 = Refused m job ErrNoWorker ∧
  g_store w1 = g_store w ∧ (∀ now, due now j = false) ∧
  kpos (client w1) p = S (im_Offset m) ∧
  (∀ p, kcommitted (client w1) p = kcommitted (client w) p) ∧
  (∀ rs w', session handleQueuedJob rs w1 w' →
    ¬ fetches rs ∧
    ∀ m' job', Accepted m' job' ∈ rs → im_Partition m' = p →
      (im_Offset m < kcommitted (client w') p)%nat ∧
      ∀ rs2 (w2 w3 : W), kpos (client w2) p = kcommitted (client w') p →
        session handleQueuedJob rs2 w2 w3 → ¬ fetches rs2) ∧
  ∀ rs2 (w2 w3 : W), session handleQueuedJob rs2 w2 w3 →
    (kpos (client w2) p ≤ im_Offset m < kpos (client w3) p)%nat → fetches rs2.
Proof.
  intros Hno Hj Hst Hf Hd w1 p fetches. subst w1.
  pose proof handleQueuedJob_leaves_reader as Hh.
  destruct (wp_kafka_round_no_worker ctxErr w job j Hno Hj ltac:(by rewrite Hst) m Hf Hd) as [Hr Hs].
  pose proof (round_reader handleQueuedJob Hh ctxErr w) as Hround. rewrite Hr in Hround |- *.
  split; [done|]. split; [exact Hs|]. split; [intros now; unfold due; by rewrite Hst|].
  pose proof Hround as (_ & (Ho & _ & Hp & Hc) & _). split_and!.
  - rewrite Hp, bool_decide_true by done. by rewrite Ho.
  - intros q. destruct (Hc q) as [[-> _]|(_ & _ & Hn)]; [done|]. by destruct (Hn m job ErrNoWorker).
  - intros rs w' Hs'.
    assert (session handleQueuedJob (Refused m job ErrNoWorker :: rs) w w') as Hall
      by (rewrite <- Hr; by constructor).
    split.
    + intros (r' & m' & Hr' & Hm' & Hpm & Heq).
      pose proof (refused_later _ _ _ _ _ _ _ Hh Hall r' m' Hr' Hm' Hpm). lia.
    + intros m' job' (rs2 & rs3 & ->)%list_elem_of_split Hpm.
      assert (im_Offset m < kcommitted (client w') p)%nat as Hlt
        by by apply (kafka_refused_is_skipped handleQueuedJob [] rs2 rs3 m job ErrNoWorker m' job' w w').
      split; [done|]. intros rs4 w2 w3 Hpos Hs4 (r' & m2 & Hr' & Hm2 & Hpm2 & Heq).
      pose proof (session_fetched handleQueuedJob Hh _ _ _ _ _ Hs4 Hr' Hm2) as [Hle _].
      rewrite Hpm2, Hpos in Hle. lia.
  - intros rs2 w2 w3 Hs2 Hpos. by eapply session_past.
Qed.
End scheduler.

(** ** On a concrete broker *)

(** A codec for the jobs of the witnesses, which are known by their
    identifiers. *)
#[local] Instance sample_codec : JobCodec.
Proof.
  refine {|
    json_Marshal := λ job, Ok (q_JobID job);
    json_Unmarshal := λ b, if String.eqb b "" then Err (External "unexpected end of JSON input")
                           else Ok (queued_job b);
    portable := λ job, q_JobID job ≠ "" ∧ job = queued_job (q_JobID job) |}.
  - intros job _. by eexists.
  - intros job b [Hne Heq] [= <-]. by destruct (String.eqb_spec (q_JobID job) ""); [|rewrite <- Heq].
Defined.

#[local] Existing Instance sample_env.
#[local] Existing Instance sample_env_laws.
#[local] Existing Instance sample_cron.

Definition sample_kafka_world (values : list string) (js : list Job)
    (ws : list (string * workerConn)) : World MemStore (KafkaQueue Broker) Service :=
  let w := sample_world js ws in
  mkWorld 0 (g_store w)
    (mkKafkaQueue (mkKafkaQueueConfig ["k:9092"] "chronos.jobs" "chronos-scheduler")
       (mkBroker values 0 (λ _, 0%nat)) false []) (g_svc w) [] [].

(** A handler that refuses the job "j1". *)
Definition picky (job : QueuedJob) :
    M (World MemStore (KafkaQueue Broker) Service) (option GoError) :=
  mret (if String.eqb (q_JobID job) "j1" then Some ErrNoWorker else None).

Lemma picky_leaves_reader : leaves_reader picky.
Proof. intros job w. split_and!; [by intros p|done|done]. Qed.

Definition sample_kafka := sample_kafka_world ["j1"; ""; "j2"] [] [].
Definition sample_round (w : World MemStore (KafkaQueue Broker) Service) :=
  kafka_round None picky w.

Lemma sample_session :
  let r1 := sample_round sample_kafka in
  let r2 := sample_round r1.2 in
  let r3 := sample_round r2.2 in
  session picky [r1.1; r2.1; r3.1] sample_kafka r3.2.
Proof. repeat constructor. Qed.

Lemma kafka_delivers_in_order_witness :
  let r1 := sample_round sample_kafka in
  let r2 := sample_round r1.2 in
  let r3 := sample_round r2.2 in
  omap (handed 0) [r1.1; r2.1; r3.1] = [queued_job "j1"; queued_job "j2"].
Proof.
  intros r1 r2 r3.
  destruct (kafka_delivers_in_order picky _ _ _ 0 picky_leaves_reader sample_session)
    as (_ & Hh & _).
  etrans; [exact Hh|]. by vm_compute.
Defined.

Lemma kafka_refused_is_skipped_witness :
  let r1 := sample_round sample_kafka in
  let r2 := sample_round r1.2 in
  let r3 := sample_round r2.2 in
  r1.1 = Refused (mkInMessage 0 0 "j1") (queued_job "j1") ErrNoWorker ∧
  (0 < kcommitted (client r3.2) 0)%nat.
Proof.
  intros r1 r2 r3. split; [by vm_compute|].
  destruct (kafka_refused_is_skipped picky [] [Poison (mkInMessage 0 1 "")] []
    (mkInMessage 0 0 "j1") (queued_job "j1") ErrNoWorker (mkInMessage 0 2 "j2") (queued_job "j2")
    sample_kafka r3.2 picky_leaves_reader) as [_ Hc]; [exact sample_session|done|exact Hc].
Defined.

(** The job "j1" is refused; a job that is over is accepted after it. *)
Lemma kafka_no_worker_strands_witness :
  let w := sample_kafka_world ["j1"; "j2"]
    [sample_job "j1" JobStateQueued "" 0; sample_job "j2" JobStateCompleted "" 1]
    [sample_conn "w1" 4] in
  let r1 := kafka_round None handleQueuedJob w in
  let r2 := kafka_round None handleQueuedJob r1.2 in
  r1.1 = Refused (mkInMessage 0 0 "j1") (queued_job "j1") ErrNoWorker ∧
  (0 < kcommitted (client r2.2) 0)%nat.
Proof.
  intros w r1 r2.
  destruct (kafka_no_worker_strands None w (mkInMessage 0 0 "j1") (queued_job "j1")
    (sample_job "j1" JobStateQueued "" 0)) as (Hr & _ & _ & _ & _ & Hlater & _);
    [|by vm_compute|done|by vm_compute|done|].
  - intros k c. cbn. rewrite lookup_insert. case_decide; [|by rewrite lookup_empty]. by intros [= <-].
  - split; [exact Hr|].
    assert (session handleQueuedJob [r2.1] r1.2 r2.2) as Hs by repeat constructor.
    destruct (Hlater _ _ Hs) as [_ Hacc].
    apply (Hacc (mkInMessage 0 1 "j2") (queued_job "j2")); [|done].
    assert (r2.1 = Accepted (mkInMessage 0 1 "j2") (queued_job "j2")) as -> by by vm_compute.
    by left.
Defined.
