(* ===== verification/Polling.v ===== *)
(** * The polling loop: promoteDueJobs, pushPendingCancels, watchdogTimeouts,
      recoverWorkerJobs and checkWorkers

    Each of these methods lists jobs and then handles them one by one; the
    theorems say what became of every job of the list and that all others are
    unchanged. *)

From S2P Require Import Prelude.
From S2P Require Import Float64.
From S2P Require Import Domain.
From S2P Require Import Config.
From S2P Require Import Ports.
From S2P Require Import Fixture.
From S2P Require Import MemStore.
From S2P Require Import MemQueue.
From S2P Require Import Calls.
From S2P Require Import WorkerClient.
From S2P Require Import Backoff.
From S2P Require Import Scheduler.
From S2P Require Import Lifecycle.
From S2P Require Import Refinement.
From S2P Require Import Control.
From S2P Require Import Results.

(** ** Loops that write one job per round *)

(** From [jm] to [jm'], every job of [l] moved along [R] and nothing else
    changed. *)
Definition each_updated (R : Job → Job → Prop) (l : list Job) (jm jm' : gmap string Job) : Prop :=
  (∀ j, j ∈ l → ∃ j', jm' !! j_ID j = Some j' ∧ R j j') ∧
  (∀ k, k ∉ j_ID <$> l → jm' !! k = jm !! k).

Lemma each_updated_nil R jm : each_updated R [] jm jm.
Proof. split; [by intros j ?%elem_of_nil|done]. Qed.

Lemma each_updated_snoc R pre x x' jm jm' :
  each_updated R pre jm jm' → NoDup (j_ID <$> pre ++ [x]) → R x x' →
  each_updated R (pre ++ [x]) jm (<[j_ID x := x']> jm').
Proof.
  intros [Hin Hout] Hnd HR. rewrite fmap_app in Hnd.
  apply NoDup_app in Hnd as (_ & Hdisj & _). split.
  - intros j [Hj| ->%list_elem_of_singleton]%elem_of_app.
    + rewrite lookup_insert_ne; [by apply Hin|]. intros Heq.
      apply (Hdisj (j_ID j)); [by apply list_elem_of_fmap_2|]. rewrite <- Heq. set_solver.
    + rewrite lookup_insert_eq. eauto.
  - intros k Hk. rewrite fmap_app in Hk. rewrite lookup_insert_ne by set_solver.
    apply Hout. set_solver.
Qed.

(** The next job of the list is still as it was listed. *)
Lemma each_updated_next R pre x post jm jm' :
  each_updated R pre jm jm' → snapshot (pre ++ x :: post) jm → jm' !! j_ID x = Some x.
Proof.
  intros [_ Hout] [Hnd Hl]. rewrite Hout; [apply Hl; set_solver|].
  rewrite fmap_app in Hnd. apply NoDup_app in Hnd as (_ & Hdisj & _).
  intros Hin. apply (Hdisj _ Hin). set_solver.
Qed.

Lemma snapshot_prefix pre x post jm :
  snapshot (pre ++ x :: post) jm → NoDup (j_ID <$> pre ++ [x]).
Proof.
  intros [Hnd _]. change (x :: post) with ([x] ++ post) in Hnd. rewrite app_assoc, fmap_app in Hnd.
  by apply NoDup_app in Hnd as [? _].
Qed.

(** A job of the store that is not on the list keeps its entry; one whose
    listing is complete is on it. *)
Lemma listing_complete keep limit jm l k j :
  listing keep limit jm l → Z.of_nat (length l) < limit → jm !! k = Some j → keep j → j ∈ l.
Proof.
  intros (kvs & -> & _ & _ & _ & Hall) Hlt Hj Hk.
  apply list_elem_of_fmap. exists (k, j). split; [done|]. by apply Hall.
Qed.

(** The number of jobs in a state. *)
Definition count_state (st : JobState) (jm : gmap string Job) : nat :=
  size (filter (λ kj : string * Job, j_State kj.2 = st) jm).

Lemma listing_count st keep limit jm l :
  listing keep limit jm l → Forall (λ j, j_State j = st) l → (length l ≤ count_state st jm)%nat.
Proof.
  intros (kvs & -> & Hnd & Hin & _ & _) Hst. rewrite Forall_forall in Hst.
  unfold count_state. rewrite length_fmap.
  rewrite <- (map_to_list_to_map kvs Hnd) at 1. rewrite length_map_to_list.
  apply map_subseteq_size, map_subseteq_spec. intros k j Hk%elem_of_list_to_map_2.
  apply map_lookup_filter_Some. split; [by apply Hin|]. apply Hst.
  apply list_elem_of_fmap. by exists (k, j).
Qed.

Lemma listing_state_complete st jm l k j :
  listing (λ j, bool_decide (JobState_string st = "") ||
                bool_decide (JobState_string (j_State j) = JobState_string st))
    (if bool_decide (1000 ≤ 0) then 50 else 1000) jm l →
  st ≠ JobStateNone → (count_state st jm < 1000)%nat →
  jm !! k = Some j → j_State j = st → j ∈ l.
Proof.
  intros Hl Hst Hc Hj Hs. eapply listing_complete; [done| |done|].
  - pose proof (listing_count st _ _ _ _ Hl (listing_state_all _ _ _ _ Hl Hst)).
    rewrite bool_decide_false by lia. lia.
  - cbn beta. rewrite Hs, (bool_decide_true (JobState_string st = JobState_string st)) by done.
    by rewrite orb_true_r.
Qed.

Section polling.
Context `{Env, !EnvLaws, CronLib} {St Qu : Type}.
Context `{!JobStore St, !StoreView St, !JobStoreLaws St}.
Context `{!Queue Qu, !QueueView Qu, !QueueLaws Qu}.
#[local] Abbreviation W := (World St Qu Service).
Implicit Types (s : St) (q : Qu) (v : Service).

(** The loop over a listing: the body moves its job along [R] and carries
    [J] on. *)
Lemma wp_each (R : Job → Job → Prop) (J : list Job → W → Prop) (f : Job → M W ()) l w :
  snapshot l (jobs (g_store w)) → J [] w →
  (∀ pre j w', j ∈ l → jobs (g_store w') !! j_ID j = Some j → NoDup (j_ID <$> pre ++ [j]) →
     each_updated R pre (jobs (g_store w)) (jobs (g_store w')) → J pre w' →
     wp (f j) (λ _ w'', each_updated R (pre ++ [j]) (jobs (g_store w)) (jobs (g_store w'')) ∧
                        J (pre ++ [j]) w'') w') →
  wp (forM_ l f) (λ _ w', each_updated R l (jobs (g_store w)) (jobs (g_store w')) ∧ J l w') w.
Proof.
  intros Hsnap HJ Hf.
  eapply (wp_forM _ _ (λ pre w', each_updated R pre (jobs (g_store w)) (jobs (g_store w')) ∧
                                 J pre w')).
  - split; [apply each_updated_nil|done].
  - intros pre x post w' -> [Hup HJ']. apply Hf; [set_solver| | |done..].
    + by eapply each_updated_next.
    + by eapply snapshot_prefix.
  - done.
Qed.

(** ** promoteDueJobs *)

Definition promoted (j j' : Job) : Prop :=
  same_spec j j' ∧ j_State j' = JobStateQueued ∧ j_Attempt j' = j_Attempt j ∧
  ∃ now, j_QueuedAt j' = Some now.

(** [q'] holds the jobs of [l] besides what [q] held. *)
Definition enqueued (l : list Job) (q q' : Qu) : Prop :=
  closed q' = false ∧
  ∃ msgs, Forall2 (λ j m, ∃ t, m = queued_of j t) l msgs ∧ ready q' ≡ₚ msgs ++ ready q.

Lemma enqueued_snoc l j t q q' q'' :
  enqueued l q q' → closed q'' = false → ready q'' ≡ₚ queued_of j t :: ready q' →
  enqueued (l ++ [j]) q q''.
Proof.
  intros (_ & msgs & Hm & Hr) Hc Hr''. split; [done|].
  exists (msgs ++ [queued_of j t]). split; [apply Forall2_app; [done|]; repeat constructor; eauto|].
  rewrite Hr'', Hr. rewrite <- app_assoc. apply Permutation_middle.
Qed.

Lemma wp_promote_job j jm pre n s q0 q v ev rp :
  jobs s !! j_ID j = Some j →
  j_State j = JobStateScheduled ∨ j_State j = JobStateRetrying →
  NoDup (j_ID <$> pre ++ [j]) →
  each_updated promoted pre jm (jobs s) → enqueued pre q0 q →
  wp (promote_job j : M W _) (λ _ w', each_updated promoted (pre ++ [j]) jm (jobs (g_store w')) ∧
    enqueued (pre ++ [j]) q0 (g_queue w') ∧ g_svc w' = v) (mkWorld n s q v ev rp).
Proof.
  intros Hj Hst Hnd Hup Henq. unfold promote_job. run.
  pose proof (proj1 Henq) as Hc.
  apply wp_Enqueue; [|by rewrite Hc]. intros n1 q1 t1 Hn1 _ Hc1 _ Hr1. run.
  apply wp_UpdateJobStateIf. intros n2 s2 t2 Hn2 Hs2. rewrite Hj. intros Hj2.
  replace (allowed_from _ _) with true in Hj2 by by destruct Hst as [-> | ->].
  run. cbn [g_store g_queue g_svc]. rewrite Hj2. split_and!; [|by eapply enqueued_snoc|done].
  apply each_updated_snoc; [done..|].
  split; [apply update_job_spec|]. rewrite update_job_state. cbn. eauto.
Qed.

Lemma due_state now j : due now j → j_State j = JobStateScheduled ∨ j_State j = JobStateRetrying.
Proof. unfold due. destruct (j_State j); by auto. Qed.

Lemma wp_promote_loop l now limit n s q v ev rp :
  keyed (jobs s) → listing (due now) limit (jobs s) l → closed q = false →
  wp (forM_ l promote_job : M W _) (λ _ w', each_updated promoted l (jobs s) (jobs (g_store w')) ∧
    enqueued l q (g_queue w') ∧ g_svc w' = v) (mkWorld n s q v ev rp).
Proof.
  intros Hk Hl Hc.
  apply (wp_each promoted (λ pre w', enqueued pre q (g_queue w') ∧ g_svc w' = v)).
  - by eapply listing_snapshot.
  - split; [split; [done|]|done]. by exists [].
  - intros pre j [n' s' q' v' ev' rp'] Hin Hj Hnd Hup [Henq Hv]. cbn in *. subst v'.
    apply wp_promote_job; try done.
    apply (due_state now). by eapply listing_keep.
Qed.

Lemma wp_promoteDueJobs (w : W) :
  good w → closed (g_queue w) = false → 0 < cfg_AssignBatchSize (sv_cfg (g_svc w)) →
  wp promoteDueJobs (λ r w', r = None ∧ ∃ m l, (g_tick w ≤ m)%nat ∧
    listing (due (env_now m)) (cfg_AssignBatchSize (sv_cfg (g_svc w))) (jobs (g_store w)) l ∧
    each_updated promoted l (jobs (g_store w)) (jobs (g_store w')) ∧
    enqueued l (g_queue w) (g_queue w') ∧ g_svc w' = g_svc w) w.
Proof.
  destruct w as [n s q v ev rp]. cbn. intros [[Hk _] _] Hc Hb. unfold promoteDueJobs. run.
  apply wp_ListDueScheduled; [done|]. intros n' l m Hn Hm Hl. run.
  eapply wp_mono; [by eapply wp_promote_loop|]. intros [] w' (Hup & Henq & Hv). run.
  split; [done|]. by exists m, l.
Qed.

(** C11: promotion is exact.  With an open queue and a positive batch size,
    [promoteDueJobs] takes jobs that are due (SCHEDULED or RETRYING with their
    time reached), at most one batch of them, and all of them when they are
    fewer than a batch; every one of them becomes QUEUED and puts exactly one
    message with its attempt number on the queue; no other job and no other
    message changes. *)
Theorem promoteDueJobs_exact (w : W) :
  good w → closed (g_queue w) = false → 0 < cfg_AssignBatchSize (sv_cfg (g_svc w)) →
  wp promoteDueJobs (λ r w', r = None ∧ ∃ m l, (g_tick w ≤ m)%nat ∧
    listing (due (env_now m)) (cfg_AssignBatchSize (sv_cfg (g_svc w))) (jobs (g_store w)) l ∧
    each_updated promoted l (jobs (g_store w)) (jobs (g_store w')) ∧
    enqueued l (g_queue w) (g_queue w') ∧ g_svc w' = g_svc w) w.
Proof. apply wp_promoteDueJobs. Qed.

(** ** pushPendingCancels *)

(** A cancellation without a worker is carried out at once, one with a worker
    waits for the worker. *)
Definition cancel_pushed (j j' : Job) : Prop :=
  if bool_decide (j_WorkerID j = "")
  then same_spec j j' ∧ j_State j' = JobStateCancelled ∧ ∃ now, j_CompletedAt j' = Some now
  else j' = j.

(** Every listed job with a worker is pending for that worker. *)
Definition pending_for (l : list Job) (v : Service) : Prop :=
  ∀ j, j ∈ l → j_WorkerID j ≠ "" →
    ∃ set, sv_pendingCancels v !! j_WorkerID j = Some set ∧ j_ID j ∈ set.

Lemma add_pending_in k id m : ∃ set, add_pending k id m !! k = Some set ∧ id ∈ set.
Proof. unfold add_pending. rewrite lookup_insert_eq. eexists. split; [done|]. set_solver. Qed.

Lemma add_pending_mono k id m k' set id' :
  m !! k' = Some set → id' ∈ set → ∃ set', add_pending k id m !! k' = Some set' ∧ id' ∈ set'.
Proof.
  intros Hk Hid. unfold add_pending. rewrite lookup_insert. case_decide as Heq; [|eauto].
  eexists. split; [done|]. subst. rewrite Hk. set_solver.
Qed.

Lemma wp_push_cancel j jm pre n s q v ev rp :
  jobs s !! j_ID j = Some j → NoDup (j_ID <$> pre ++ [j]) →
  each_updated cancel_pushed pre jm (jobs s) → pending_for pre v →
  wp (push_cancel j : M W _)
    (λ _ w', each_updated cancel_pushed (pre ++ [j]) jm (jobs (g_store w')) ∧
             pending_for (pre ++ [j]) (g_svc w')) (mkWorld n s q v ev rp).
Proof.
  intros Hj Hnd Hup Hp. unfold push_cancel. case_bool_decide as Hw.
  - run. eapply wp_UpdateJob; [done|]. intros n1 s1 t1 Hn1 _ Hj1. run. cbn. rewrite Hj1. split.
    + apply each_updated_snoc; [done..|]. unfold cancel_pushed. rewrite bool_decide_true by done.
      split; [apply update_job_spec|]. rewrite update_job_state. eauto.
    + intros j' [Hj'| ->%list_elem_of_singleton]%elem_of_app; [by apply Hp|done].
  - assert (each_updated cancel_pushed (pre ++ [j]) jm (jobs s)) as Hup'.
    { rewrite <- (insert_id (jobs s) (j_ID j) j) by done. apply each_updated_snoc; [done..|].
      unfold cancel_pushed. by rewrite bool_decide_false. }
    assert (pending_for (pre ++ [j]) (set_sv_pendingCancels
      (add_pending (j_WorkerID j) (j_ID j) (sv_pendingCancels v)) v)) as Hp'.
    { intros j' [Hj'| ->%list_elem_of_singleton]%elem_of_app Hne; [|apply add_pending_in].
      destruct (Hp _ Hj' Hne) as (set & Hset & Hin). by eapply add_pending_mono. }
    run. case_match; [|by run]. unfold client_CancelJob. by run.
Qed.

(** Cancellations are carried out.  [pushPendingCancels] takes jobs in
    CANCEL_REQUESTED, all of them when they are fewer than a batch: one that
    never reached a worker becomes CANCELLED, with its completion stamped; one
    that has a worker stays as it is and is pending for that worker, so that
    the next heartbeat of the worker delivers it.  No other job changes. *)
Lemma pushPendingCancels_carries_out (w : W) :
  good w →
  wp pushPendingCancels (λ r w', r = None ∧ ∃ l,
    listing (λ j, bool_decide (j_State j = JobStateCancelRequested))
      (if bool_decide (cfg_AssignBatchSize (sv_cfg (g_svc w)) ≤ 0) then 50
       else cfg_AssignBatchSize (sv_cfg (g_svc w))) (jobs (g_store w)) l ∧
    each_updated cancel_pushed l (jobs (g_store w)) (jobs (g_store w')) ∧
    pending_for l (g_svc w')) w.
Proof.
  destruct w as [n s q v ev rp]. intros [[Hk _] _]. unfold pushPendingCancels. run.
  apply wp_ListCancelRequested. intros n' l Hn Hl. run. cbn [g_store g_svc].
  eapply wp_mono; [eapply (wp_each cancel_pushed (λ pre w', pending_for pre (g_svc w')))|].
  - by eapply listing_snapshot.
  - by intros j ?%elem_of_nil.
  - intros pre j [n2 s2 q2 v2 ev2 rp2] _. by apply wp_push_cancel.
  - intros [] w' [Hup Hp]. run. split; [done|]. by exists l.
Qed.

(** ** recoverWorkerJobs *)

(** What becomes of a job when the worker [k] is given up at [now]. *)
Definition recovered (k : string) (now : time) (j j' : Job) : Prop :=
  if negb (bool_decide (j_WorkerID j = k)) then j' = j
  else same_spec j j' ∧ j_Attempt j' = j_Attempt j ∧
    if bool_decide (j_State j = JobStateCancelRequested)
    then j_State j' = JobStateCancelled ∧ j_CompletedAt j' = Some now
    else if bool_decide (j_Attempt j < j_MaxAttempts j)
    then j_State j' = JobStateRetrying ∧ j_NextRetryAt j' = Some now ∧
         j_WorkerID j' = "" ∧ j_ExecutionID j' = ""
    else j_State j' = JobStateFailed ∧ j_CompletedAt j' = Some now.

Lemma wp_recover_job k now j jm pre n s q v ev rp :
  jobs s !! j_ID j = Some j → NoDup (j_ID <$> pre ++ [j]) →
  each_updated (recovered k now) pre jm (jobs s) →
  wp (recover_job k now j : M W _)
    (λ _ w', each_updated (recovered k now) (pre ++ [j]) jm (jobs (g_store w')) ∧
             g_svc w' = v ∧ workers (g_store w') = workers s)
    (mkWorld n s q v ev rp).
Proof.
  intros Hj Hnd Hup. unfold recover_job. destruct (negb _) eqn:Hk.
  { run. split; [|done]. cbn. rewrite <- (insert_id (jobs s) (j_ID j) j) by done.
    apply each_updated_snoc; [done..|]. unfold recovered. by rewrite Hk. }
  run. apply wp_finish_if. intros n1 s1 Hn1 Hj1 _ Hw1 _.
  assert (∀ st f s2 t, jobs s2 = <[j_ID j := update_job st t f j]> (jobs s1) →
    recovered k now j (update_job st t f j) →
    each_updated (recovered k now) (pre ++ [j]) jm (jobs s2)) as Hgo.
  { intros st f s2 t -> HR. rewrite Hj1. by apply each_updated_snoc. }
  unfold recovered in Hgo. rewrite Hk in Hgo.
  repeat case_match; run; (eapply wp_UpdateJob; [by rewrite Hj1|]); intros n2 s2 t2 Hn2 (_ & _ & Hw2) Hj2;
    run; (split; [|split; [done|cbn; congruence]]); eapply Hgo; try done;
    (split; [apply update_job_spec|]); rewrite update_job_state; by repeat split.
Qed.

(** [l] holds jobs in the states that occupy a worker, and all of them when
    there are fewer than a thousand in each. *)
Definition occupying (jm : gmap string Job) (l : list Job) : Prop :=
  snapshot l jm ∧ Forall (λ j, on_worker (j_State j)) l ∧
  ∀ k j, jm !! k = Some j → on_worker (j_State j) →
    (count_state (j_State j) jm < 1000)%nat → j ∈ l.

Lemma wp_recoverWorkerJobs k n s q v ev rp :
  keyed (jobs s) →
  wp (recoverWorkerJobs k : M W _) (λ r w', r = None ∧
    (∃ now l, occupying (jobs s) l ∧
       each_updated (recovered k now) l (jobs s) (jobs (g_store w'))) ∧
    g_svc w' = set_sv_pendingCancels (delete k (sv_pendingCancels v)) v ∧
    workers (g_store w') = workers s) (mkWorld n s q v ev rp).
Proof.
  intros Hk. unfold recoverWorkerJobs. run.
  apply wp_ListJobs. intros n1 l1 Hn1 Hl1. run.
  apply wp_ListJobs. intros n2 l2 Hn2 Hl2. run.
  apply wp_ListJobs. intros n3 l3 Hn3 Hl3. run.
  assert (occupying (jobs s) (l1 ++ l2 ++ l3)) as (Hsnap & Hon & Hall).
  { split_and!.
    - apply recover_list_snapshot; first [by eapply listing_snapshot|by eapply listing_state_all].
    - eapply recover_list_states; by eapply listing_state_all.
    - intros i j Hj Hon Hc. destruct (j_State j) eqn:Hst; try done.
      + apply elem_of_app. right. apply elem_of_app. left.
        by eapply (listing_state_complete JobStateAssigned).
      + apply elem_of_app. left. by eapply (listing_state_complete JobStateRunning).
      + apply elem_of_app. right. apply elem_of_app. right.
        by eapply (listing_state_complete JobStateCancelRequested). }
  eapply wp_mono; [eapply (wp_each (recovered k (env_now n3)) (λ _ w', g_svc w' = v ∧
    workers (g_store w') = workers s))|].
  - done.
  - done.
  - intros pre j [n4 s4 q4 v4 ev4 rp4] _ Hj Hnd Hup [Hv Hw]. cbn in Hv, Hw. subst v4.
    rewrite <- Hw. by apply wp_recover_job.
  - intros [] [n4 s4 q4 v4 ev4 rp4] (Hup & Hv & Hw). cbn in Hv, Hw. subst v4. run.
    split_and!; [done| |done|done]. by exists (env_now n3), (l1 ++ l2 ++ l3).
Qed.

(** No job is left on a lost worker.  [recoverWorkerJobs] recovers the
    jobs of the worker that are RUNNING, ASSIGNED or CANCEL_REQUESTED: a
    requested cancellation becomes CANCELLED, a job with attempts left becomes
    RETRYING, due at once and detached from the worker, and any other FAILED;
    every other job is unchanged.  With fewer than a thousand jobs in each of
    these states no job of the worker stays in one of them, and nothing is
    pending for the worker any more. *)
Lemma recoverWorkerJobs_leaves_none (w : W) k :
  good w →
  (∀ st, on_worker st → (count_state st (jobs (g_store w)) < 1000)%nat) →
  wp (recoverWorkerJobs k) (λ r w', r = None ∧
    (∃ now, ∀ id, match jobs (g_store w) !! id with
       | Some j => ∃ j', jobs (g_store w') !! id = Some j' ∧
           (if on_worker (j_State j) then recovered k now j j' else j' = j) ∧
           (j_WorkerID j = k → on_worker (j_State j') = false)
       | None => jobs (g_store w') !! id = None
       end) ∧
    sv_pendingCancels (g_svc w') !! k = None) w.
Proof.
  destruct w as [n s q v ev rp]. intros [[Hk _] _] Hc. cbn in Hk, Hc. cbn [g_store].
  eapply wp_mono; [by apply wp_recoverWorkerJobs|].
  intros r [n' s' q' v' ev' rp'] (-> & (now & l & (Hsnap & Hon & Hall) & Hup) & Hv & _).
  cbn in *. subst v'. split; [done|]. split; [|apply lookup_delete_eq].
  exists now. intros id. destruct Hup as [Hin Hout].
  rewrite Forall_forall in Hon. destruct (jobs s !! id) as [j|] eqn:Hj.
  - assert (j_ID j = id) as Hid by by apply Hk.
    destruct (on_worker (j_State j)) eqn:Hw.
    + destruct (Hin j) as (j' & Hj' & HR); [apply (Hall id); [done|by rewrite Hw|apply Hc; by rewrite Hw]|].
      exists j'. rewrite Hid in Hj'. split_and!; [done|done|].
      intros Hwk. unfold recovered in HR. rewrite bool_decide_true in HR by done. cbn in HR.
      destruct HR as (_ & _ & HR). by repeat case_match; destruct HR as [-> _].
    + exists j. rewrite Hout; [done|]. intros (i & Hi & Hil)%list_elem_of_fmap.
      pose proof (proj2 Hsnap i Hil) as Hi'. rewrite <- Hi in Hi'.
      simplify_eq. apply Hon in Hil. by rewrite Hw in Hil.
  - rewrite Hout; [done|]. intros (i & Hi & Hil)%list_elem_of_fmap.
    pose proof (proj2 Hsnap i Hil) as Hi'. rewrite <- Hi in Hi'. congruence.
Qed.

(** ** watchdogTimeouts *)

(** A job whose attempt ran too long. *)
Definition expired (j j' : Job) : Prop :=
  j_State j' = (if bool_decide (j_Attempt j < j_MaxAttempts j)
                then JobStateRetrying else JobStateTimeout) ∧
  ∃ now, settled env_oob j (j_Attempt j) now j'.

Lemma timed_out_state now j : timed_out now j → j_State j = JobStateRunning ∨ j_State j = JobStateAssigned.
Proof.
  unfold timed_out. intros Ht. apply Is_true_true, andb_true_iff in Ht as [Hst _].
  by apply orb_true_iff in Hst as [Hst|Hst]; apply bool_decide_eq_true in Hst; auto.
Qed.

Lemma outcome_timeout j :
  j_State j = JobStateRunning ∨ j_State j = JobStateAssigned →
  outcome_state j (j_Attempt j) (timeout_result j) =
    if bool_decide (j_Attempt j < j_MaxAttempts j) then JobStateRetrying else JobStateTimeout.
Proof. unfold outcome_state. by intros [-> | ->]. Qed.

Lemma wp_watchdog_job j jm pre n s q v ev rp :
  jobs s !! j_ID j = Some j → j_State j = JobStateRunning ∨ j_State j = JobStateAssigned →
  NoDup (j_ID <$> pre ++ [j]) → each_updated expired pre jm (jobs s) →
  wp (watchdog_job j : M W _) (λ _ w', each_updated expired (pre ++ [j]) jm (jobs (g_store w')))
    (mkWorld n s q v ev rp).
Proof.
  intros Hj Hst Hnd Hup. pose proof (outcome_timeout j Hst) as Hout.
  assert (∀ w0 : W, g_store w0 = s →
    wp (HandleResult (j_ID j) (j_ExecutionID j) (j_WorkerID j) (j_Attempt j) (timeout_result j))
       (λ _ w', each_updated expired (pre ++ [j]) jm (jobs (g_store w'))) w0) as Hgo.
  { intros w0 <-. eapply wp_mono; [apply wp_HandleResult_stored; [done|..]|].
    - by destruct Hst as [-> | ->].
    - rewrite Hout. by case_bool_decide.
    - intros r w' (_ & (now & j' & Hset & Hst' & Hjs) & _). rewrite Hjs.
      apply each_updated_snoc; [done..|]. split; [by rewrite Hst'|eauto]. }
  clear Hout. unfold watchdog_job. apply wp_bind. unfold client_CancelJob.
  destruct (bool_decide (j_WorkerID j = "")); [|run; case_match].
  all: run; (eapply wp_mono; [by apply Hgo|]); intros; by run.
Qed.

(** Running jobs time out.  [watchdogTimeouts] takes RUNNING and
    ASSIGNED jobs whose start plus timeout (30 seconds when unset) has passed,
    all of them when they are fewer than a batch; each becomes RETRYING while
    it has attempts left, due after its backoff and detached from the worker,
    and TIMEOUT otherwise.  No other job changes. *)
Lemma watchdogTimeouts_expires (w : W) :
  good w →
  wp watchdogTimeouts (λ r w', r = None ∧ ∃ now l,
    listing (timed_out now)
      (if bool_decide (cfg_AssignBatchSize (sv_cfg (g_svc w)) ≤ 0) then 50
       else cfg_AssignBatchSize (sv_cfg (g_svc w))) (jobs (g_store w)) l ∧
    each_updated expired l (jobs (g_store w)) (jobs (g_store w'))) w.
Proof.
  destruct w as [n s q v ev rp]. intros [[Hk _] _]. unfold watchdogTimeouts. run.
  apply wp_ListTimedOutRunning. intros n' l Hn Hl. run. cbn [g_store g_svc].
  eapply wp_mono; [eapply (wp_each expired (λ _ _, True))|].
  - by eapply listing_snapshot.
  - done.
  - intros pre j [n2 s2 q2 v2 ev2 rp2] Hin Hj Hnd Hup _.
    eapply wp_mono; [apply (wp_watchdog_job j (jobs s) pre); try done|done].
    eapply timed_out_state. by eapply listing_keep.
  - intros [] w' [Hup _]. run. split; [done|]. by exists (env_now n), l.
Qed.

(** ** checkWorkers *)

(** A job that occupies a worker after the recovery is unchanged. *)
Lemma recovered_unchanged k now l jm jm' id j' :
  keyed jm → snapshot l jm → each_updated (recovered k now) l jm jm' →
  jm' !! id = Some j' → on_worker (j_State j') → jm !! id = Some j' ∧ (j' ∈ l → j_WorkerID j' ≠ k).
Proof.
  intros Hkey [_ Hl] [Hin Hout] Hj' Hon.
  destruct (decide (id ∈ j_ID <$> l)) as [(j & -> & Hj)%list_elem_of_fmap|Hni].
  - destruct (Hin j Hj) as (j'' & Hj'' & HR). rewrite Hj' in Hj''. injection Hj'' as <-.
    unfold recovered in HR. case_bool_decide as Hk; cbn in HR.
    + destruct HR as (_ & _ & HR). exfalso.
      repeat case_match; destruct HR as [Hst _]; by rewrite Hst in Hon.
    + subst j'. split; [by apply Hl|done].
  - rewrite Hout in Hj' by done. split; [done|]. intros Hil. exfalso. apply Hni.
    rewrite <- (Hkey _ _ Hj'). by apply list_elem_of_fmap_2.
Qed.

(** The jobs on workers only leave. *)
Definition only_leave (jm jm' : gmap string Job) : Prop :=
  ∀ id j', jm' !! id = Some j' → on_worker (j_State j') → jm !! id = Some j'.

Lemma only_leave_count jm jm' st :
  only_leave jm jm' → on_worker st → (count_state st jm' ≤ count_state st jm)%nat.
Proof.
  intros Hol Hst. unfold count_state. apply map_subseteq_size, map_subseteq_spec.
  intros id j' [Hj' Hs]%map_lookup_filter_Some. cbn in Hs.
  apply map_lookup_filter_Some. split; [|done]. apply Hol; [done|]. by rewrite Hs.
Qed.

(** No job occupies the worker [k]. *)
Definition vacated (jm : gmap string Job) (k : string) : Prop :=
  ∀ id j, jm !! id = Some j → on_worker (j_State j) → j_WorkerID j ≠ k.

Definition below_limit (jm : gmap string Job) : Prop :=
  ∀ st, on_worker st → (count_state st jm < 1000)%nat.

(** What giving up the workers [l] does to the jobs: those on them are
    recovered, all others are unchanged. *)
Definition given_up (l : list string) (jm jm' : gmap string Job) : Prop :=
  ∀ id, jm' !! id = jm !! id ∨
    ∃ j j' now, jm !! id = Some j ∧ jm' !! id = Some j' ∧ on_worker (j_State j) ∧
      j_WorkerID j ∈ l ∧ recovered (j_WorkerID j) now j j'.

Lemma recovered_off_worker now j j' :
  recovered (j_WorkerID j) now j j' → ¬ on_worker (j_State j').
Proof.
  unfold recovered. rewrite bool_decide_true by done. cbn. intros (_ & _ & HR).
  repeat case_bool_decide; destruct HR as [-> _]; by intros [].
Qed.

Lemma given_up_one k now l jm jm' :
  occupying jm l → each_updated (recovered k now) l jm jm' → given_up [k] jm jm'.
Proof.
  intros (Hsnap & Hon & _) [Hin Hout] id. rewrite Forall_forall in Hon.
  destruct (decide (id ∈ j_ID <$> l)) as [(j & -> & Hj)%list_elem_of_fmap|Hni];
    [|left; by apply Hout].
  pose proof (proj2 Hsnap j Hj) as Hjm. destruct (Hin j Hj) as (j' & Hj' & HR).
  destruct (decide (j_WorkerID j = k)) as [<-|Hne].
  - right. exists j, j', now. split_and!; try done; [by apply Hon|by apply list_elem_of_singleton].
  - left. unfold recovered in HR. rewrite bool_decide_false in HR by done. cbn in HR. congruence.
Qed.

Lemma given_up_trans pre k jm jm1 jm2 :
  given_up pre jm jm1 → given_up [k] jm1 jm2 → given_up (pre ++ [k]) jm jm2.
Proof.
  intros Hpre Hk id. destruct (Hk id) as [H2'|(j1 & j2 & now & Hj1 & Hj2 & Hon & Hin & HR)].
  - rewrite H2'. destruct (Hpre id) as [?|(j & j' & now & ? & ? & ? & ? & ?)]; [by left|right].
    exists j, j', now. split_and!; try done. set_solver.
  - destruct (Hpre id) as [H1'|(j & j' & now' & _ & Hj' & _ & _ & HR')].
    + right. exists j1, j2, now. rewrite <- H1'. split_and!; try done. set_solver.
    + simplify_eq. by apply recovered_off_worker in HR'.
Qed.

Lemma given_up_nil jm : given_up [] jm jm.
Proof. by left. Qed.

Lemma given_up_only_leave l jm jm' : given_up l jm jm' → only_leave jm jm'.
Proof.
  intros Hg id j' Hj' Hon. destruct (Hg id) as [<-|(j & j2 & now & _ & Hj2 & _ & _ & HR)]; [done|].
  simplify_eq. by apply recovered_off_worker in HR.
Qed.

Lemma wp_lose_worker k (w : W) :
  good w → below_limit (jobs (g_store w)) →
  wp (lose_worker k) (λ _ w', good w' ∧
    sv_workers (g_svc w') = delete k (sv_workers (g_svc w)) ∧
    workers (g_store w') = workers (g_store w) ∧
    given_up [k] (jobs (g_store w)) (jobs (g_store w')) ∧ vacated (jobs (g_store w')) k) w.
Proof.
  destruct w as [n s q v ev rp]. intros Hg Hb.
  apply wp_and; [eapply wp_mono; [by apply refines_lose_worker|by intros a w' [? _]]|].
  destruct Hg as [[Hk _] _]. cbn in Hk, Hb. unfold lose_worker. run. cbn [g_store g_svc].
  eapply wp_mono; [by apply wp_recoverWorkerJobs|].
  intros r' [n' s' q' v' ev' rp'] (_ & (now & l & Hocc & Hup) & Hv & Hw).
  pose proof Hocc as (Hsnap & _ & Hall).
  cbn in Hup, Hv, Hw. run. cbn [g_store g_svc]. rewrite Hv. split_and!; [done|done|..].
  - by eapply given_up_one.
  - intros id j' Hj' Hon. destruct (recovered_unchanged _ _ _ _ _ _ _ Hk Hsnap Hup Hj' Hon) as [Hj Hne].
    apply Hne. apply (Hall id); [done|done|]. by apply Hb.
Qed.

(** The loop of [checkWorkers] over the workers that were given up. *)
Lemma wp_lose_loop l (w : W) :
  good w → below_limit (jobs (g_store w)) →
  wp (forM_ l lose_worker) (λ _ w',
    (∀ k, sv_workers (g_svc w') !! k =
          if decide (k ∈ l) then None else sv_workers (g_svc w) !! k) ∧
    workers (g_store w') = workers (g_store w) ∧
    given_up l (jobs (g_store w)) (jobs (g_store w')) ∧
    Forall (vacated (jobs (g_store w'))) l) w.
Proof.
  intros Hg Hb.
  eapply (wp_forM _ _ (λ pre w', good w' ∧
    (∀ k, sv_workers (g_svc w') !! k =
          if decide (k ∈ pre) then None else sv_workers (g_svc w) !! k) ∧
    workers (g_store w') = workers (g_store w) ∧
    given_up pre (jobs (g_store w)) (jobs (g_store w')) ∧
    Forall (vacated (jobs (g_store w'))) pre)); [|clear Hg|by intros w' [_ ?]].
  - split_and!; [done| |done|apply given_up_nil|done].
    intros k. rewrite decide_False; [done|]. apply not_elem_of_nil.
  - intros pre x post w' -> (Hg & Htab & Hw & Hol & Hvac).
    eapply wp_mono; [apply wp_lose_worker; [done|]|].
    { intros st Hst. specialize (Hb st Hst).
      pose proof (only_leave_count _ _ _ (given_up_only_leave _ _ _ Hol) Hst). lia. }
    intros [] w'' (Hg' & Htab' & Hw' & Hol' & Hvac'). split_and!; [done| |congruence| |].
    + intros k. rewrite Htab', lookup_delete, Htab. repeat case_decide; set_solver.
    + by eapply given_up_trans.
    + apply given_up_only_leave in Hol'. apply Forall_app. split; [|by repeat constructor].
      eapply Forall_impl; [done|]. intros k Hk id j Hj Hon. apply (Hk id); [|done]. by apply Hol'.
Qed.

(** C15: dead workers are given up completely.  After [checkWorkers] every
    stored worker has the status its last heartbeat deserves; those that just
    became UNAVAILABLE are no longer in the worker table (so no job can be
    assigned to them before they register again) while all other entries stay,
    and, with fewer than a thousand jobs per state, no job is RUNNING, ASSIGNED
    or CANCEL_REQUESTED on one of them.  A job that was is CANCELLED if its
    cancellation was requested, otherwise RETRYING at once and detached from the
    worker while it has attempts left, and FAILED when it has none, with the
    same specification and attempt; no other job is changed and none is lost. *)
Theorem checkWorkers_gives_up (w : W) :
  good w → below_limit (jobs (g_store w)) →
  let cfg := sv_cfg (g_svc w) in
  wp checkWorkers (λ r w', r = None ∧ ∃ t lost,
    (∀ id, id ∈ lost ↔ ∃ wk, workers (g_store w) !! id = Some wk ∧
       stale_status t (cfg_HeartbeatTimeout cfg) (cfg_SuspectGracePeriod cfg) wk =
         WorkerStatusUnavailable ∧ w_Status wk ≠ WorkerStatusUnavailable) ∧
    (∀ id, workers (g_store w') !! id = (λ wk, set_w_Status
       (stale_status t (cfg_HeartbeatTimeout cfg) (cfg_SuspectGracePeriod cfg) wk) wk) <$>
         workers (g_store w) !! id) ∧
    (∀ id, sv_workers (g_svc w') !! id =
       if decide (id ∈ lost) then None else sv_workers (g_svc w) !! id) ∧
    Forall (vacated (jobs (g_store w'))) lost ∧
    given_up lost (jobs (g_store w)) (jobs (g_store w'))) w.
Proof.
  destruct w as [n s q v ev rp]. intros Hg Hb cfg. unfold checkWorkers. run.
  apply wp_MarkStaleWorkers. intros n1 s1 t sus una Hn1 Hj1 Hi1 Hx1 Hnd Huna _ Hw1. run.
  eapply wp_mono; [apply wp_lose_loop|].
  - destruct Hg as [Hk Hf]. split; cbn in *; rewrite Hj1; [done|]. intros m Hm. apply Hf. lia.
  - cbn. by rewrite Hj1.
  - intros [] w' (Htab & Hw & Hgu & Hvac). cbn in *. run. split; [done|]. exists t, una.
    rewrite Hw, <- Hj1. by split_and!.
Qed.
End polling.

(** ** On the in-memory store *)

#[local] Existing Instance sample_env.
#[local] Existing Instance sample_env_laws.
#[local] Existing Instance sample_cron.

(** One job due, one on a worker, one whose cancellation is requested. *)
Definition polling_world : World MemStore MemQueue Service :=
  sample_world [sample_job "j1" JobStateScheduled "" 0; sample_job "j2" JobStateRunning "w1" 1;
                sample_job "j3" JobStateCancelRequested "" 0] [sample_conn "w1" 1].

Lemma polling_world_good : good polling_world.
Proof. sample_good. Defined.

Lemma polling_world_below : below_limit (jobs (g_store polling_world)).
Proof. intros []; cbn; intros; try done; vm_compute; lia. Defined.

Lemma promoteDueJobs_exact_witness :
  ∃ m l, listing (due (env_now m)) 50 (jobs (g_store polling_world)) l ∧
    enqueued l (g_queue polling_world) (g_queue (promoteDueJobs polling_world).2).
Proof.
  destruct (promoteDueJobs_exact polling_world polling_world_good) as (_ & m & l & _ & Hl & _ & Hq & _);
    [done|done|]. exists m, l. split; [exact Hl|exact Hq].
Defined.

Lemma pushPendingCancels_carries_out_witness :
  ∃ l, each_updated cancel_pushed l (jobs (g_store polling_world))
         (jobs (g_store (pushPendingCancels polling_world).2)).
Proof.
  destruct (pushPendingCancels_carries_out polling_world polling_world_good)
    as (_ & l & _ & Hup & _). exists l. exact Hup.
Defined.

Lemma recoverWorkerJobs_leaves_none_witness :
  sv_pendingCancels (g_svc (recoverWorkerJobs "w1" polling_world).2) !! "w1" = None.
Proof.
  destruct (recoverWorkerJobs_leaves_none polling_world "w1" polling_world_good
    polling_world_below) as (_ & _ & Hp). exact Hp.
Defined.

Lemma watchdogTimeouts_expires_witness :
  ∃ l, each_updated expired l (jobs (g_store polling_world))
         (jobs (g_store (watchdogTimeouts polling_world).2)).
Proof.
  destruct (watchdogTimeouts_expires polling_world polling_world_good)
    as (_ & now & l & _ & Hup). exists l. exact Hup.
Defined.

(** A dead worker with a job in each state that occupies it, two of them with
    attempts left, next to a late worker and a live one. *)
Definition worker_seen (id : string) (t : time) : string * Worker :=
  (id, mkWorker id "addr" WorkerStatusHealthy 4 1 (mkWorkerCapabilities true true) None
         t (sample_now 0) None).

Definition dying_world : World MemStore MemQueue Service :=
  let w := sample_world
    [sample_job "j1" JobStateRunning "w1" 1; sample_job "j2" JobStateAssigned "w1" 2;
     sample_job "j3" JobStateCancelRequested "w1" 1; sample_job "j4" JobStateRunning "w1" 3;
     sample_job "j5" JobStateRunning "w2" 1]
    [sample_conn "w1" 4; sample_conn "w2" 1; sample_conn "w3" 0] in
  mkWorld (g_tick w)
    (set_ms_workers (list_to_map [worker_seen "w1" (sample_now 0 - Hour);
       worker_seen "w2" (sample_now 0 - 20 * Second); worker_seen "w3" (sample_now 0)]) (g_store w))
    (g_queue w) (g_svc w) [] [].

(** The dead worker is given up and its jobs are recovered. *)
Lemma checkWorkers_gives_up_witness :
  let w' := (checkWorkers dying_world).2 in
  (checkWorkers dying_world).1 = None ∧
  (w_Status <$> workers (g_store w') !! "w1") = Some WorkerStatusUnavailable ∧
  (w_Status <$> workers (g_store w') !! "w2") = Some WorkerStatusSuspected ∧
  (w_Status <$> workers (g_store w') !! "w3") = Some WorkerStatusHealthy ∧
  sv_workers (g_svc w') !! "w1" = None ∧
  sv_workers (g_svc w') !! "w2" = sv_workers (g_svc dying_world) !! "w2" ∧
  vacated (jobs (g_store w')) "w1" ∧
  (λ id, j_State <$> jobs (g_store w') !! id) <$> ["j1"; "j2"; "j3"; "j4"; "j5"] =
    Some <$> [JobStateRetrying; JobStateRetrying; JobStateCancelled; JobStateFailed;
              JobStateRunning].
Proof.
  destruct (checkWorkers_gives_up dying_world) as (Hr & t & lost & Hlost & _ & Htab & Hvac & _).
  - assert (good (sample_world
      [sample_job "j1" JobStateRunning "w1" 1; sample_job "j2" JobStateAssigned "w1" 2;
       sample_job "j3" JobStateCancelRequested "w1" 1; sample_job "j4" JobStateRunning "w1" 3;
       sample_job "j5" JobStateRunning "w2" 1] [])) as Hg by sample_good.
    exact Hg.
  - intros []; cbn; intros; try done; vm_compute; lia.
  - assert (sv_workers (g_svc (checkWorkers dying_world).2) !! "w1" = None) as Hw1
      by by vm_compute.
    assert ("w1" ∈ lost) as Hin.
    { assert (sv_workers (g_svc dying_world) !! "w1" ≠ None) as Hw0 by by vm_compute.
      specialize (Htab "w1"). case_decide; congruence. }
    rewrite Forall_forall in Hvac. specialize (Hvac _ Hin).
    do 6 (split; [vm_compute; reflexivity|]). split; [exact Hvac|vm_compute; reflexivity].
Defined.
