(* ===== verification/Liveness.v ===== *)
(** * Due jobs get running

    With the in-memory queue, workers that accept what they are sent and slots
    for all messages, a promotion and one round of the consumer per message
    bring every due job to RUNNING. *)

From S2P Require Import Prelude.
From S2P Require Import Float64.
From S2P Require Import Domain.
From S2P Require Import Config.
From S2P Require Import Ports.
From S2P Require Import Fixture.
From S2P Require Import MemStore.
From S2P Require Import MemQueue.
From S2P Require Import Calls.
From S2P Require Import WorkerClient.
From S2P Require Import Backoff.
From S2P Require Import Scheduler.
From S2P Require Import Lifecycle.
From S2P Require Import Refinement.
From S2P Require Import Control.
From S2P Require Import Results.
From S2P Require Import Assign.
From S2P Require Import Delivery.
From S2P Require Import Polling.

(** ** The slots of the worker table *)

(** The jobs a worker can still be given. *)
Definition slots_of (c : workerConn) : nat :=
  if bool_decide (w_Status (wc_info c) = WorkerStatusHealthy)
  then Z.to_nat (AvailableSlots (wc_info c)) else 0.

Definition free_slots (t : gmap string workerConn) : nat := sum_list_with slots_of (table t).

(** The entries are under the identifiers of their workers, and the counts are
    within the range of an int. *)
Definition sane (t : gmap string workerConn) : Prop :=
  ∀ k c, t !! k = Some c → w_ID (wc_info c) = k ∧
    0 ≤ w_ActiveJobs (wc_info c) < 2 ^ 63 ∧ 0 ≤ w_Capacity (wc_info c) < 2 ^ 63.

(** The count after an assignment. *)
Definition one_more (c : workerConn) : workerConn :=
  map_info (λ i, set_w_ActiveJobs (int64 (w_ActiveJobs i + 1)) i) c.

Lemma assignable_slots c : IsAssignable (wc_info c) = true ↔ (0 < slots_of c)%nat.
Proof.
  unfold IsAssignable, slots_of. rewrite andb_true_iff, !bool_decide_eq_true.
  case_bool_decide; [|split; [naive_solver|lia]]. split; [intros [_ ?]; lia|]. intros. split; [done|lia].
Qed.

Lemma free_slots_some t : (0 < free_slots t)%nat → ∃ k c, t !! k = Some c ∧ IsAssignable (wc_info c) = true.
Proof.
  unfold free_slots. intros Hpos.
  assert (∃ c, c ∈ table t ∧ (0 < slots_of c)%nat) as (c & [k Hk]%elem_of_table & Hc).
  { induction (table t) as [|c l IH]; cbn in Hpos; [lia|].
    destruct (decide (0 < slots_of c)%nat); [exists c; set_solver|].
    destruct IH as (c' & ? & ?); [lia|]. exists c'. set_solver. }
  exists k, c. split; [done|]. by apply assignable_slots.
Qed.

Lemma table_insert t k c c' :
  t !! k = Some c →
  table t ≡ₚ c :: table (delete k t) ∧ table (<[k := c']> t) ≡ₚ c' :: table (delete k t).
Proof.
  intros Hk. unfold table. split.
  - rewrite <- (insert_id t k c Hk) at 1. rewrite <- insert_delete_eq.
    by rewrite map_to_list_insert by apply lookup_delete_eq.
  - rewrite <- insert_delete_eq. by rewrite map_to_list_insert by apply lookup_delete_eq.
Qed.

(** An assignment takes one slot. *)
Lemma free_slots_alter t k c :
  sane t → t !! k = Some c → IsAssignable (wc_info c) = true →
  sane (alter one_more k t) ∧ free_slots t = Datatypes.S (free_slots (alter one_more k t)).
Proof.
  intros Hs Hk Ha. destruct (Hs k c Hk) as (Hid & Hact & Hcap).
  apply assignable_slots in Ha. unfold slots_of in Ha.
  case_bool_decide as Hst; [|lia]. unfold AvailableSlots in Ha.
  rewrite int64_id in Ha by (unfold in_range; lia).
  case_bool_decide; [lia|].
  rewrite <- (insert_alter one_more k t c Hk). split.
  - intros k' c'. rewrite lookup_insert. case_decide; [|by apply Hs]. intros [= <-]. subst k'.
    cbn. rewrite int64_id by (unfold in_range; lia). split; [done|lia].
  - destruct (table_insert t k c (one_more c) Hk) as [Ht Ht']. unfold free_slots.
    rewrite Ht, Ht'. cbn. unfold slots_of. cbn. rewrite bool_decide_true by done.
    unfold AvailableSlots. cbn.
    rewrite (int64_id (w_ActiveJobs (wc_info c) + 1)) by (unfold in_range; lia).
    rewrite !(int64_id (w_Capacity (wc_info c) - _)) by (unfold in_range; lia).
    rewrite !bool_decide_false by lia. lia.
Qed.

(** ** One round of the consumer *)

Section liveness.
Context `{Env, !EnvLaws, CronLib} {St : Type}.
Context `{!JobStore St, !StoreView St, !JobStoreLaws St}.
#[local] Abbreviation W := (World St MemQueue Service).

(** Every worker accepts every job. *)
Definition willing : Prop :=
  ∀ n addr req, ∃ resp, env_ExecuteJob n addr req = Ok (Some resp) ∧ eresp_Accepted resp = true.

Lemma wp_handleQueuedJob_willing (w : W) job :
  willing → is_Some (jobs (g_store w) !! q_JobID job) →
  (∃ k c, sv_workers (g_svc w) !! k = Some c ∧ IsAssignable (wc_info c) = true) →
  wp (handleQueuedJob job) (λ r _, r = None) w.
Proof.
  destruct w as [n s q v ev rp]. intros Hw [j Hj] (k & c & Hk & Hass). cbn in Hj, Hk.
  unfold handleQueuedJob. run.
  apply wp_GetJob. intros n' Hn. rewrite Hj.
  assert (wp (c ← pickWorker; match c with None => mret (Some ErrNoWorker)
                                           | Some c => assign_job job c end)
      (λ r _, r = None) (mkWorld n' s q v ev rp)) as Hgo.
  { run. apply wp_pickWorker. intros [c'|] Hp.
    2:{ rewrite (Hp c) in Hass; [done|]. apply elem_of_table. eauto. }
    unfold assign_job. apply wp_bind. unfold assign_push. run.
    apply wp_CreateExecution; [apply env_uuid_ne|]. intros n1 s1 t1 _ Hj1 _ _ _. run.
    eapply wp_UpdateJob; [by rewrite Hj1|]. intros n2 s2 t2 _ _ Hj2. run.
    unfold client_ExecuteJob. run. edestruct (Hw) as (resp & -> & ->). run.
    unfold assign_started. run. eapply wp_UpdateJob; [rewrite Hj2; apply lookup_insert_eq|].
    intros n3 s3 t3 _ _ _. by run. }
  by destruct (j_State j).
Qed.

(** The messages are of stored jobs and there is a slot for each. *)
Definition ready_to_run (w : W) : Prop :=
  mq_closed (g_queue w) = false ∧ sane (sv_workers (g_svc w)) ∧
  (length (mq_items (g_queue w)) ≤ free_slots (sv_workers (g_svc w)))%nat ∧
  ∀ m, m ∈ mq_items (g_queue w) → is_Some (jobs (g_store w) !! q_JobID m).

(** A delivery starts the job of its message and leaves all others alone. *)
Definition started (id : string) (jm jm' : gmap string Job) : Prop :=
  (∀ j, jm !! id = Some j → ∃ j', jm' !! id = Some j' ∧
     if queueable (j_State j) then j_State j' = JobStateRunning else j' = j) ∧
  ∀ k, k ≠ id → jm' !! k = jm !! k.

Lemma wp_round (w : W) job rest :
  willing → ready_to_run w → mq_items (g_queue w) = job :: rest →
  wp (consume_one handleQueuedJob) (λ _ w', ready_to_run w' ∧ mq_items (g_queue w') = rest ∧
    started (q_JobID job) (jobs (g_store w)) (jobs (g_store w'))) w.
Proof.
  destruct w as [n s q v ev rp]. unfold ready_to_run. cbn [g_queue g_store g_svc].
  intros Hw (Hc & Hs & Hlen & Hknown) Hq. rewrite Hq in Hlen, Hknown. cbn in Hlen.
  destruct (Hknown job) as [j Hj]; [set_solver|].
  eapply wp_mono; [apply (wp_consume_one handleQueuedJob job rest n s q v ev rp (λ r s' v' _,
    r = None ∧ sane (sv_workers v') ∧ (length rest ≤ free_slots (sv_workers v'))%nat ∧
    started (q_JobID job) (jobs s) (jobs s'))); [done|done|]|].
  - intros n'. destruct (queueable (j_State j)) eqn:Hqu.
    + destruct (free_slots_some (sv_workers v)) as (k & c0 & Hk & Hass); [lia|].
      eapply wp_mono; [apply wp_and; [by apply wp_handleQueuedJob_queueable|
        apply wp_handleQueuedJob_willing; eauto]|].
      cbn [g_store g_svc g_queue].
      intros r w' [[(Hno & _)|(c & Hc1 & x & t & j' & _ & Ha & Hjs & _ & _ & Hq1 & _ & Hsv)] ->].
      { by rewrite (Hno _ _ Hk) in Hass. }
      cbn [g_store g_svc g_queue] in *. rewrite bool_decide_true in Ha, Hsv by done.
      destruct Hc1 as ([k1 Hk1]%elem_of_table & Hass1 & _). cbn in Hk1.
      assert (w_ID (wc_info c) = k1) as Hid by by eapply Hs. rewrite Hid in Hsv.
      change (sv_workers (g_svc w') = alter one_more k1 (sv_workers v)) in Hsv.
      destruct (free_slots_alter _ _ _ Hs Hk1 Hass1) as [Hs' Hfree].
      rewrite Hsv. split; [done|]. split; [done|]. split; [done|]. split; [lia|].
      rewrite Hjs. split.
      * intros j0 Hj0. simplify_eq. rewrite lookup_insert_eq, Hqu. eexists. split; [done|]. apply Ha.
      * intros k' Hne. by rewrite lookup_insert_ne.
    + eapply wp_mono; [by apply (wp_handleQueuedJob_other _ job j)|].
      cbn [g_store g_svc g_queue]. intros r w' (-> & Hst & Hq1 & Hv & _). cbn in *.
      rewrite Hq1, Hv, Hst. split; [done|]. split; [done|]. split; [done|]. split; [lia|].
      split; [|done]. intros j0 Hj0. simplify_eq. rewrite Hqu. eauto.
  - intros out w' (err & -> & (-> & Hs' & Hfree & Hst) & Hc' & Hitems). rewrite Hitems.
    split_and!; try done. intros m Hm. destruct (decide (q_JobID m = q_JobID job)) as [Heq|Hne].
    + rewrite Heq. destruct Hst as [Hst _]. destruct (Hst _ Hj) as (j' & Hj' & _). by rewrite Hj'.
    + destruct Hst as [_ Hst]. rewrite Hst by done. apply Hknown. set_solver.
Qed.

(** The rounds of the consumer's loop. *)
Fixpoint consume_rounds (k : nat) : M W () :=
  match k with
  | O => mret ()
  | Datatypes.S k => _ ← consume_one handleQueuedJob; consume_rounds k
  end.

Definition running (id : string) (jm : gmap string Job) : Prop :=
  ∃ j, jm !! id = Some j ∧ j_State j = JobStateRunning.

Lemma started_running id k jm jm' : started id jm jm' → running k jm → running k jm'.
Proof.
  intros [Hid Hother] (j & Hj & Hst). destruct (decide (k = id)) as [->|Hne].
  - destruct (Hid _ Hj) as (j' & Hj' & Hs). rewrite Hst in Hs. cbn in Hs. subst. by exists j.
  - exists j. by rewrite Hother.
Qed.

(** As many rounds as there are messages empty the queue and start their jobs. *)
Lemma wp_rounds k (w : W) :
  willing → ready_to_run w → (length (mq_items (g_queue w)) ≤ k)%nat →
  wp (consume_rounds k) (λ _ w', mq_items (g_queue w') = [] ∧
    (∀ id, running id (jobs (g_store w)) → running id (jobs (g_store w'))) ∧
    ∀ m j, m ∈ mq_items (g_queue w) → jobs (g_store w) !! q_JobID m = Some j →
      queueable (j_State j) = true → running (q_JobID m) (jobs (g_store w'))) w.
Proof.
  intros Hw. revert w. induction k as [|k IH]; intros w Hr Hk; cbn [consume_rounds].
  { apply wp_ret. destruct (mq_items (g_queue w)); [|cbn in Hk; lia].
    split_and!; [done..|]. by intros m j ?%elem_of_nil. }
  apply wp_bind. destruct (mq_items (g_queue w)) as [|job rest] eqn:Hq.
  - destruct w as [n s q v ev rp]. cbn in Hq. unfold consume_one. run.
    eapply (wp_callQ _ (λ a nq, a = q ∧ nq.2 = q)); [done|].
    intros a n1 q1 [-> Hq1]. cbn in Hq1. subst q1. destruct Hr as (Hc & Hr). cbn in Hc, Hr.
    rewrite Hc, Hq. run. eapply wp_mono; [apply IH|].
    + split; [done|]. exact Hr.
    + cbn. rewrite Hq. cbn. lia.
    + intros [] w' (Hq' & Hrun & _). split_and!; [done..|]. by intros m j ?%elem_of_nil.
  - eapply wp_mono; [by apply wp_round|]. intros _ w1 (Hr1 & Hq1 & Hst).
    eapply wp_mono; [apply IH; [done|rewrite Hq1; cbn in Hk; lia]|].
    intros [] w' (Hq' & Hrun & Hmsgs). split; [done|]. split.
    { intros id Hid. by apply Hrun, (started_running (q_JobID job) _ (jobs (g_store w))). }
    intros m j Hm Hj Hqu. destruct (decide (q_JobID m = q_JobID job)) as [Heq|Hne].
    + apply Hrun. rewrite Heq in *. destruct Hst as [Hst _].
      destruct (Hst _ Hj) as (j' & Hj' & Hs'). rewrite Hqu in Hs'. by exists j'.
    + apply elem_of_cons in Hm as [->|Hm]; [done|]. apply (Hmsgs m j); [by rewrite Hq1| |done].
      destruct Hst as [_ Hst]. by rewrite Hst.
Qed.

(** C9: due jobs get running.  From a good state, with workers that accept what
    they are sent and a slot for every message of the queue and every job of a
    batch, one promotion and as many rounds of the consumer empty the queue, and
    then every job of the batch that was due, and every QUEUED job that had a
    message, is RUNNING.  (A batch is all due jobs when they are fewer than its
    size.) *)
Theorem due_jobs_run (w : W) :
  let batch := cfg_AssignBatchSize (sv_cfg (g_svc w)) in
  let k := (length (mq_items (g_queue w)) + Z.to_nat batch)%nat in
  willing → good w → mq_closed (g_queue w) = false → 0 < batch →
  sane (sv_workers (g_svc w)) → (k ≤ free_slots (sv_workers (g_svc w)))%nat →
  (∀ m, m ∈ mq_items (g_queue w) → is_Some (jobs (g_store w) !! q_JobID m)) →
  wp (_ ← promoteDueJobs; consume_rounds k) (λ _ w', mq_items (g_queue w') = [] ∧
    (∃ m l, (g_tick w ≤ m)%nat ∧ listing (due (env_now m)) batch (jobs (g_store w)) l ∧
       ∀ j, j ∈ l → running (j_ID j) (jobs (g_store w'))) ∧
    ∀ m j, m ∈ mq_items (g_queue w) → jobs (g_store w) !! q_JobID m = Some j →
      j_State j = JobStateQueued → running (q_JobID m) (jobs (g_store w'))) w.
Proof.
  intros batch k Hw Hg Hc Hb Hs Hfree Hknown. apply wp_bind.
  eapply wp_mono; [by apply wp_promoteDueJobs|]. fold batch.
  intros _ w1 (_ & m & l & Hm & Hl & Hup & (Hc1 & msgs & Hmsgs & Hready) & Hv). cbn in Hc1, Hready.
  assert (Z.of_nat (length l) ≤ batch) as Hll by by destruct Hl as (kvs & _ & _ & _ & ? & _).
  pose proof (Forall2_length _ _ _ Hmsgs) as Hlen.
  assert (length (mq_items (g_queue w1)) ≤ k)%nat as Hk.
  { rewrite Hready, length_app, <- Hlen. lia. }
  assert (∀ id j, jobs (g_store w) !! id = Some j → is_Some (jobs (g_store w1) !! id)) as Hstill.
  { intros id j Hj. destruct (decide (id ∈ j_ID <$> l)) as [Hin|Hni].
    - apply list_elem_of_fmap in Hin as (j0 & -> & Hj0).
      destruct Hup as [Hup _]. destruct (Hup _ Hj0) as (j' & -> & _). done.
    - destruct Hup as [_ Hup]. by rewrite Hup, Hj. }
  eapply wp_mono; [apply wp_rounds; [done| |exact Hk]|].
  { split; [done|]. rewrite Hv. split; [done|]. split; [lia|]. intros msg. rewrite Hready, elem_of_app.
    intros [Hin|Hin]; [|by destruct (Hknown _ Hin) as [j Hj]; eapply Hstill].
    apply list_elem_of_lookup in Hin as [i Hi].
    destruct (Forall2_lookup_r _ _ _ _ _ Hmsgs Hi) as (j & Hj & t & ->). cbn.
    destruct Hup as [Hup _]. destruct (Hup j) as (j' & -> & _); [by eapply list_elem_of_lookup_2|done]. }
  intros [] w' (Hq' & Hrun & Hmsg). split; [done|]. split.
  - exists m, l. split; [done|]. split; [done|]. intros j Hj.
    destruct Hup as [Hup _]. destruct (Hup _ Hj) as (j' & Hj' & _ & Hst & _).
    apply list_elem_of_lookup in Hj as [i Hi].
    destruct (Forall2_lookup_l _ _ _ _ _ Hmsgs Hi) as (msg & Hmi & t & ->).
    apply (Hmsg (queued_of j t) j'); [|done|by rewrite Hst].
    rewrite Hready. apply elem_of_app. left. by eapply list_elem_of_lookup_2.
  - intros msg j Hin Hj Hst. apply (Hmsg msg j); [rewrite Hready; set_solver| |by rewrite Hst].
    destruct Hup as [_ Hup]. rewrite Hup; [done|]. intros (j0 & Hid & Hj0)%list_elem_of_fmap.
    pose proof (listing_keep _ _ _ _ _ Hl Hj0) as Hdue.
    destruct (listing_snapshot _ _ _ _ (proj1 (proj1 Hg)) Hl) as [_ Hsnap].
    specialize (Hsnap _ Hj0). rewrite <- Hid in Hsnap. simplify_eq.
    apply due_state in Hdue. destruct Hdue; congruence.
Qed.
End liveness.

(** ** On the in-memory store *)

#[local] Existing Instance sample_env.
#[local] Existing Instance sample_env_laws.
#[local] Existing Instance sample_cron.

(** A due job, a message for another one, and a worker with sixty slots. *)
Definition waiting_world : World MemStore MemQueue Service :=
  let w := sample_world [sample_job "j1" JobStateScheduled "" 0; sample_job "j2" JobStateQueued "" 0]
             [("w1", mkWorkerConn (set_w_Capacity 60 (sample_worker "w1" 0)) "addr")] in
  mkWorld 0 (g_store w) (set_mq_items [queued_job "j2"] mq_New) (g_svc w) [] [].

Lemma due_jobs_run_witness :
  let w' := (_ ← promoteDueJobs; consume_rounds 51) waiting_world in
  mq_items (g_queue w'.2) = [] ∧ running "j2" (jobs (g_store w'.2)) ∧
  (j_State <$> jobs (g_store w'.2) !! "j1") = Some JobStateRunning.
Proof.
  intros w'.
  assert (good waiting_world) as Hg.
  { pose proof (good_sample_world
      [sample_job "j1" JobStateScheduled "" 0; sample_job "j2" JobStateQueued "" 0] []) as Hg.
    apply Hg; [by vm_compute; repeat constructor; set_solver|repeat constructor; by intros []]. }
  destruct (due_jobs_run waiting_world) as (Hq & _ & Hrun).
  - intros n addr req. by eexists.
  - exact Hg.
  - done.
  - done.
  - intros k c. cbn. rewrite lookup_insert_Some, lookup_empty. intros [[<- <-]|[_ ?]]; [|done].
    cbn. by split_and!.
  - vm_compute. lia.
  - intros m ->%list_elem_of_singleton. by eexists.
  - split; [exact Hq|]. split; [|by vm_compute].
    apply (Hrun (queued_job "j2") (sample_job "j2" JobStateQueued "" 0));
      [apply list_elem_of_here|by vm_compute|done].
Defined.
