(* ===== verification/Grpc.v ===== *)
(** * internal/scheduler/grpc_server.go: the RPCs of the workers

    The four methods of [GRPCServer]: the token check, the conversion of the
    message, the call of the service and the reply.  [int(x)] of an [int32]
    field is the number itself. *)

From S2P Require Import Prelude.
From S2P Require Import Float64.
From S2P Require Import Domain.
From S2P Require Import Auth.
From S2P Require Import Ports.
From S2P Require Import Fixture.
From S2P Require Import MemStore.
From S2P Require Import MemQueue.
From S2P Require Import Calls.
From S2P Require Import WorkerClient.
From S2P Require Import Backoff.
From S2P Require Import Scheduler.
From S2P Require Import Lifecycle.
From S2P Require Import Control.
From S2P Require Import Results.

(** ** The messages of SchedulerService *)

Record RegisterRequest := mkRegisterRequest {
  rr_WorkerId : string;
  rr_Address : string;
  rr_Capacity : Z;
  rr_CapBuiltin : bool;
  rr_CapWebhook : bool;
  rr_Labels : option (gmap string string);
  rr_Token : string;
}.

(** The message of a refused registration is the error itself. *)
Inductive RegisterMessage := MsgUnauthorized | MsgRegistered | MsgError (e : GoError).

Record RegisterResponse := mkRegisterResponse {
  rresp_Ok : bool;
  rresp_Message : RegisterMessage;
}.

Record HeartbeatRequest := mkHeartbeatRequest {
  hr_WorkerId : string;
  hr_ActiveJobs : Z;
  hr_Capacity : Z;
  hr_Token : string;
}.

Record HeartbeatResponse := mkHeartbeatResponse {
  hresp_Ok : bool;
  hresp_CancelJobIds : list string;
}.

Record ReportResultRequest := mkReportResultRequest {
  rq_JobId : string;
  rq_ExecutionId : string;
  rq_WorkerId : string;
  rq_Attempt : Z;
  rq_Success : bool;
  rq_Output : option string;
  rq_Error : string;
  rq_Retryable : bool;
  rq_DurationMs : Z;
  rq_Token : string;
  rq_Reason : string;
}.

Definition worker_of (req : RegisterRequest) : Worker :=
  mkWorker (rr_WorkerId req) (rr_Address req) WorkerStatusNone (rr_Capacity req) 0
    (mkWorkerCapabilities (rr_CapBuiltin req) (rr_CapWebhook req)) (rr_Labels req)
    zero_time zero_time None.

Definition result_of (req : ReportResultRequest) : ExecutionResult :=
  mkExecutionResult (rq_Success req) (rq_Output req) (rq_Error req) (rq_Retryable req)
    (dur_mul (rq_DurationMs req) Millisecond) (rq_Reason req).

Section grpc.
Context `{Env, CronLib} {St Qu : Type} `{JobStore St, Queue Qu}.
Context (auth : Authenticator).
#[local] Abbreviation W := (World St Qu Service).

(** Each method returns the reply and the RPC's error. *)
Definition grpc_Register (req : RegisterRequest) : M W (RegisterResponse * option GoError) :=
  if negb (ValidWorkerToken auth (rr_Token req))
  then mret (mkRegisterResponse false MsgUnauthorized, None)
  else
    err ← RegisterWorker (worker_of req);
    match err with
    | Some e => mret (mkRegisterResponse false (MsgError e), None)
    | None => mret (mkRegisterResponse true MsgRegistered, None)
    end.

Definition grpc_Heartbeat (req : HeartbeatRequest) : M W (HeartbeatResponse * option GoError) :=
  if negb (ValidWorkerToken auth (hr_Token req))
  then mret (mkHeartbeatResponse false [], None)
  else
    r ← Heartbeat (hr_WorkerId req) (hr_ActiveJobs req) (hr_Capacity req);
    match r with
    | (_, Some e) => mret (mkHeartbeatResponse false [], Some e)
    | (cancelIDs, None) => mret (mkHeartbeatResponse true cancelIDs, None)
    end.

Definition grpc_Deregister (workerID token : string) : M W (bool * option GoError) :=
  if negb (ValidWorkerToken auth token) then mret (false, None)
  else
    _ ← Deregister workerID;
    mret (true, None).

Definition grpc_ReportResult (req : ReportResultRequest) : M W (bool * option GoError) :=
  if negb (ValidWorkerToken auth (rq_Token req)) then mret (false, None)
  else
    err ← HandleResult (rq_JobId req) (rq_ExecutionId req) (rq_WorkerId req) (rq_Attempt req)
            (result_of req);
    match err with
    | Some e => mret (false, Some e)
    | None => mret (true, None)
    end.

(** The calls a client of the service can make. *)
Inductive grpc_call :=
  | CallRegister (req : RegisterRequest)
  | CallHeartbeat (req : HeartbeatRequest)
  | CallDeregister (workerID token : string)
  | CallReportResult (req : ReportResultRequest).

Definition call_token (c : grpc_call) : string :=
  match c with
  | CallRegister req => rr_Token req
  | CallHeartbeat req => hr_Token req
  | CallDeregister _ token => token
  | CallReportResult req => rq_Token req
  end.

Definition serve_call (c : grpc_call) : M W () :=
  match c with
  | CallRegister req => _ ← grpc_Register req; mret ()
  | CallHeartbeat req => _ ← grpc_Heartbeat req; mret ()
  | CallDeregister k t => _ ← grpc_Deregister k t; mret ()
  | CallReportResult req => _ ← grpc_ReportResult req; mret ()
  end.
End grpc.

Section grpc_facts.
Context `{Env, CronLib} {St Qu : Type} `{JobStore St, Queue Qu}.
Context `{!EnvLaws, !JobsView St, !JobStoreSafe St, !QueueView Qu, !QueueLaws Qu}.
#[local] Abbreviation W := (World St Qu Service).

(** A served call is refused or one step of the control plane. *)
Lemma serve_call_step auth c (w : W) :
  (serve_call auth c w).2 = w ∨
  (ValidWorkerToken auth (call_token c) = true ∧ sched_step w (serve_call auth c w).2).
Proof.
  destruct c as [req|req|k t|req]; cbn [serve_call call_token];
    unfold grpc_Register, grpc_Heartbeat, grpc_Deregister, grpc_ReportResult;
    destruct (ValidWorkerToken auth _); cbn [negb]; auto; right; (split; [done|]).
  - apply (sched_step_op (OpRegister (worker_of req))). cbn. unfold mbind, M_bind.
    by destruct (RegisterWorker _ w) as [[|] ?].
  - apply (sched_step_op (OpHeartbeat (hr_WorkerId req) (hr_ActiveJobs req) (hr_Capacity req))).
    cbn. unfold mbind, M_bind. by destruct (Heartbeat _ _ _ w) as [[? [|]] ?].
  - apply (sched_step_op (OpDeregister k)). cbn. unfold mbind, M_bind.
    by destruct (Deregister k w) as [[|] ?].
  - apply (sched_step_op (OpResult (rq_JobId req) (rq_ExecutionId req) (rq_WorkerId req)
      (rq_Attempt req) (result_of req))). cbn. unfold mbind, M_bind.
    by destruct (HandleResult _ _ _ _ _ w) as [[|] ?].
Qed.

(** C34: the RPC surface is safe.  A call without a valid worker token leaves
    the whole system as it was; and however the calls of authenticated workers
    (registrations, heartbeats, departures and results, true or forged) are
    sequenced, jobs only move along the lifecycle, keep what their submitter
    chose, and terminal jobs do not change at all. *)
Theorem rpc_calls_safe auth (calls : list grpc_call) (w : W) :
  good w →
  (Forall (λ c, ValidWorkerToken auth (call_token c) = false) calls →
     (forM_ calls (serve_call auth) w).2 = w) ∧
  ∀ id j, jobs (g_store w) !! id = Some j →
    ∃ j', jobs (g_store (forM_ calls (serve_call auth) w).2) !! id = Some j' ∧
      same_spec j j' ∧ rtc edge (j_State j) (j_State j') ∧
      (final (j_State j) = true → j' = j).
Proof.
  intros Hg. split.
  - intros Hall. induction Hall as [|c calls Hc _ IH]; [done|]. cbn. unfold mbind, M_bind.
    destruct (serve_call_step auth c w) as [Heq|[Hv _]]; [|congruence].
    destruct (serve_call auth c w) as [[] w']. cbn in Heq. by subst w'.
  - intros id j Hj.
    assert (rtc sched_step w (forM_ calls (serve_call auth) w).2) as Hr.
    { clear Hg Hj. revert w. induction calls as [|c calls IH]; intros w; [done|]. cbn.
      unfold mbind, M_bind. pose proof (serve_call_step auth c w) as Hs.
      destruct (serve_call auth c w) as [[] w']. cbn in Hs.
      destruct Hs as [->|[_ Hs]]; [apply IH|]. eapply rtc_l; [exact Hs|apply IH]. }
    destruct (reachable_moved _ _ Hr Hg) as (_ & _ & He).
    destruct (He _ _ Hj) as (j' & Hj' & Hsp & Hed & Ht). exists j'. split_and!; try done.
    intros Hterm. apply Ht. by rewrite Hterm.
Qed.
End grpc_facts.

#[local] Existing Instance sample_env.
#[local] Existing Instance sample_env_laws.
#[local] Existing Instance sample_cron.

Lemma rpc_calls_safe_witness :
  (forM_ [CallDeregister "w1" "stolen"] (serve_call (auth_New ["k"] ["t"] false)) running_world).2
    = running_world.
Proof.
  apply (rpc_calls_safe (auth_New ["k"] ["t"] false) [CallDeregister "w1" "stolen"] running_world).
  - sample_good.
  - by repeat constructor.
Defined.
