(* ===== verification/Cancels.v ===== *)
(** * Heartbeats and the delivery of cancellations

    The pending cancellations of scheduler.go: how [RequestCancel],
    [Heartbeat] and [HandleResult] keep the sets and what a worker learns from
    its heartbeat. *)

From S2P Require Import Prelude.
From S2P Require Import Float64.
From S2P Require Import Domain.
From S2P Require Import Ports.
From S2P Require Import Fixture.
From S2P Require Import MemStore.
From S2P Require Import MemQueue.
From S2P Require Import Calls.
From S2P Require Import WorkerClient.
From S2P Require Import Backoff.
From S2P Require Import Scheduler.
From S2P Require Import Lifecycle.
From S2P Require Import Control.
From S2P Require Import Results.
From S2P Require Import Polling.

(** Is the cancellation of [id] pending for the worker [k]? *)
Definition pending (m : gmap string (gset string)) (k id : string) : Prop :=
  id ∈ default ∅ (m !! k).

(** No set is kept empty. *)
Definition no_empty_set (m : gmap string (gset string)) : Prop :=
  ∀ k set, m !! k = Some set → set ≠ ∅.

Lemma pending_add k id m k' id' :
  pending (add_pending k id m) k' id' ↔ (k' = k ∧ id' = id) ∨ pending m k' id'.
Proof.
  unfold pending, add_pending. rewrite lookup_insert. case_decide; cbn; set_solver.
Qed.

Lemma pending_clear k id m k' id' :
  pending (clear_pending k id m) k' id' ↔ pending m k' id' ∧ ¬ (k' = k ∧ id' = id).
Proof.
  unfold pending, clear_pending. destruct (m !! k) as [set|] eqn:Hk.
  - case_bool_decide as He.
    + rewrite lookup_delete. case_decide as Heq; [subst; rewrite Hk|]; cbn; set_solver.
    + rewrite lookup_insert. case_decide as Heq; [subst; rewrite Hk|]; cbn; set_solver.
  - split; [|tauto]. intros Hp. split; [done|]. intros [-> ->]. rewrite Hk in Hp. set_solver.
Qed.

Lemma add_pending_no_empty k id m : no_empty_set m → no_empty_set (add_pending k id m).
Proof.
  intros Hm k' set. unfold add_pending. rewrite lookup_insert. case_decide; [|apply Hm].
  intros [= <-]. set_solver.
Qed.

Lemma clear_pending_no_empty k id m : no_empty_set m → no_empty_set (clear_pending k id m).
Proof.
  intros Hm k' set. unfold clear_pending. destruct (m !! k) as [set0|]; [|apply Hm].
  case_bool_decide.
  - rewrite lookup_delete. case_decide; [done|]. apply Hm.
  - rewrite lookup_insert. case_decide; [naive_solver|]. apply Hm.
Qed.

Section cancels.
Context `{Env, CronLib} {St Qu : Type}.
Context `{!JobStore St, !StoreView St, !JobStoreLaws St}.
Context `{!Queue Qu}.
#[local] Abbreviation W := (World St Qu Service).
Implicit Types (s : St) (q : Qu) (v : Service).

(** The entry of the table after a heartbeat. *)
Definition beat (a c : Z) (now : time) : Worker → Worker := λ i,
  set_w_Status WorkerStatusHealthy (set_w_LastHeartbeat now
    (set_w_Capacity c (set_w_ActiveJobs a i))).

Lemma wp_Heartbeat k a c (w : W) :
  wp (Heartbeat k a c) (λ r w',
    r.1 ≡ₚ elements (default ∅ (sv_pendingCancels (g_svc w) !! k)) ∧ r.2 = None ∧
    sv_pendingCancels (g_svc w') = sv_pendingCancels (g_svc w) ∧
    jobs (g_store w') = jobs (g_store w) ∧ g_queue w' = g_queue w ∧ g_rpcs w' = g_rpcs w ∧
    match sv_workers (g_svc w) !! k with
    | None => g_store w' = g_store w ∧ sv_workers (g_svc w') = sv_workers (g_svc w)
    | Some wc => ∃ now,
        sv_workers (g_svc w') = <[k := map_info (beat a c now) wc]> (sv_workers (g_svc w)) ∧
        workers (g_store w') =
          <[w_ID (wc_info wc) := beat a c now (wc_info wc)]> (workers (g_store w))
    end) w.
Proof.
  destruct w as [n s q v ev rp]. unfold Heartbeat. run. cbn [g_svc g_store g_queue g_rpcs].
  destruct (sv_workers v !! k) as [wc|] eqn:Hk.
  - run. cbn [sv_workers sv_pendingCancels set_sv_workers].
    rewrite lookup_alter_eq, Hk. cbn [fmap option_fmap option_map].
    destruct (sv_pendingCancels v !! k) as [set|].
    all: run; apply wp_UpsertWorker; intros n1 s1 Hn1 Hj1 Hi1 Hx1 Hw1; run; cbn.
    all: split; [try apply env_order_perm; done|].
    all: split_and!; try done; exists (env_now n).
    all: split; [symmetry; by apply insert_alter|done].
  - run. destruct (sv_pendingCancels v !! k) as [set|]; rewrite ?Hk; run; rewrite ?Hk; run; cbn;
      (split; [try apply env_order_perm; done|by rewrite ?Hk]).
Qed.

(** What a heartbeat does.  It answers with exactly the pending
    cancellations of the worker, each once, and never changes them or any job;
    for a registered worker it records the reported load, the time and the
    status HEALTHY in the table and in the store; for a worker the scheduler
    does not know (it was given up or never registered) it still answers
    without an error and records nothing. *)
Lemma Heartbeat_answers (w : W) k a c :
  wp (Heartbeat k a c) (λ r w',
    NoDup r.1 ∧ (∀ id, id ∈ r.1 ↔ pending (sv_pendingCancels (g_svc w)) k id) ∧ r.2 = None ∧
    sv_pendingCancels (g_svc w') = sv_pendingCancels (g_svc w) ∧
    jobs (g_store w') = jobs (g_store w) ∧
    match sv_workers (g_svc w) !! k with
    | None => g_store w' = g_store w ∧ sv_workers (g_svc w') = sv_workers (g_svc w)
    | Some wc => ∃ now,
        sv_workers (g_svc w') = <[k := map_info (beat a c now) wc]> (sv_workers (g_svc w)) ∧
        workers (g_store w') =
          <[w_ID (wc_info wc) := beat a c now (wc_info wc)]> (workers (g_store w))
    end) w.
Proof.
  eapply wp_mono; [apply wp_Heartbeat|]. intros r w' (Hr & He & Hp & Hj & _ & _ & Hm).
  split_and!; [by rewrite Hr; apply NoDup_elements| |done..].
  intros id. rewrite Hr. apply elem_of_elements.
Qed.

Lemma wp_RequestCancel id j n s q v ev rp :
  jobs s !! id = Some j →
  wp (RequestCancel id : M W _) (λ r w', r = None ∧ g_store w' = s ∧ g_queue w' = q ∧
    g_svc w' = if bool_decide (j_WorkerID j = "") then v
               else set_sv_pendingCancels
                      (add_pending (j_WorkerID j) id (sv_pendingCancels v)) v)
    (mkWorld n s q v ev rp).
Proof.
  intros Hj. unfold RequestCancel. run. apply wp_GetJob. intros n' Hn. rewrite Hj.
  destruct (bool_decide (j_WorkerID j = "")); cbn [negb]; run; [done|].
  case_match; [|by run]. unfold client_CancelJob. by run.
Qed.

(** After [RequestCancel] of a job that is on a worker, the next heartbeat of
    that worker (whatever became of the direct CancelJob RPC, and even when the
    worker is not registered) lists the job, together with what was pending
    before and nothing else. *)
Lemma wp_RequestCancel_listed (w : W) id j :
  jobs (g_store w) !! id = Some j → j_WorkerID j ≠ "" →
  wp (RequestCancel id) (λ e w1, e = None ∧ jobs (g_store w1) = jobs (g_store w) ∧
    ∀ a c, wp (Heartbeat (j_WorkerID j) a c) (λ r w', r.2 = None ∧ NoDup r.1 ∧
      jobs (g_store w') = jobs (g_store w) ∧
      ∀ id', id' ∈ r.1 ↔
        id' = id ∨ pending (sv_pendingCancels (g_svc w)) (j_WorkerID j) id') w1) w.
Proof.
  destruct w as [n s q v ev rp]. cbn [g_store g_svc]. intros Hj Hw.
  eapply wp_mono; [by apply wp_RequestCancel|]. intros e w1 (-> & Hs1 & _ & Hv1).
  rewrite bool_decide_false in Hv1 by done. split; [done|]. split; [by rewrite Hs1|]. intros a c.
  eapply wp_mono; [apply wp_Heartbeat|]. intros r w2 (Hr & He & _ & Hj2 & _). cbn.
  split; [done|]. split; [by rewrite Hr; apply NoDup_elements|]. split; [congruence|].
  intros id'. rewrite Hr, Hv1. cbn. rewrite elem_of_elements.
  fold (pending (add_pending (j_WorkerID j) id (sv_pendingCancels v)) (j_WorkerID j) id').
  rewrite pending_add. naive_solver.
Qed.

(** *** Handlers that leave the service's own state alone *)

Definition svc_kept {A} (m : M W A) : Prop := ∀ w, wp m (λ _ w', g_svc w' = g_svc w) w.

Lemma svc_kept_bind {A B} (m : M W A) (f : A → M W B) :
  svc_kept m → (∀ a, svc_kept (f a)) → svc_kept (m ≫= f).
Proof.
  intros Hm Hf w. apply wp_bind. eapply wp_mono; [apply Hm|]. intros a w' Hw.
  eapply wp_mono; [apply Hf|]. congruence.
Qed.

Lemma svc_kept_ret {A} (a : A) : svc_kept (mret a).
Proof. done. Qed.
Lemma svc_kept_callS {A} (m : M (nat * St) A) : svc_kept (callS m).
Proof. intros [n s q v ev rp]. unfold wp, callS. by destruct (m (n, s)) as [? [? ?]]. Qed.
Lemma svc_kept_askW {A} (f : nat → A) : svc_kept (askW f).
Proof. by intros [n s q v ev rp]. Qed.
Lemma svc_kept_Emit ty j x k a p : svc_kept (Emit ty j x k a p).
Proof. by intros [n s q v ev rp]. Qed.

Ltac svc_keep :=
  repeat first
    [ apply svc_kept_bind; [|intros ?] | apply svc_kept_ret | apply svc_kept_callS
    | apply svc_kept_askW | apply svc_kept_Emit
    | match goal with |- svc_kept (match ?x with _ => _ end) => destruct x end ].

Lemma wp_HandleResult_svc jobID x k a res (w : W) :
  wp (HandleResult jobID x k a res) (λ _ w', g_svc w' =
    mkService (sv_cfg (g_svc w)) (release_slot k (sv_workers (g_svc w)))
      (clear_pending k jobID (sv_pendingCancels (g_svc w)))) w.
Proof.
  destruct w as [n s q v ev rp]. unfold HandleResult, clearPendingCancel. do 2 (run_step; run_step).
  cbn zeta. eapply wp_mono; [|intros ? ? Heq; exact Heq].
  assert (∀ (m : M W (option GoError)) w0, svc_kept m → wp m (λ _ w', g_svc w' = g_svc w0) w0)
    as Hk by auto.
  apply (Hk _ (mkWorld n s q _ ev rp)).
  unfold result_cancelled, result_success, result_timeout, result_failed, finish_if, backoff,
    maybeRescheduleRecurring. svc_keep.
Qed.

(** A reported result ends the cancellation.  Whatever the result and
    whatever the state of the job, after [HandleResult] the next heartbeat of
    the worker no longer lists the job, and lists every other pending
    cancellation as before. *)
Lemma result_ends_cancellation (w : W) id x k att res a c :
  wp (_ ← HandleResult id x k att res; Heartbeat k a c)
    (λ r w', ∀ id', id' ∈ r.1 ↔
       pending (sv_pendingCancels (g_svc w)) k id' ∧ id' ≠ id) w.
Proof.
  apply wp_bind. eapply wp_mono; [apply wp_HandleResult_svc|]. intros e w1 Hv1.
  eapply wp_mono; [apply wp_Heartbeat|]. intros r w2 (Hr & _). intros id'.
  rewrite Hr, Hv1. cbn. rewrite elem_of_elements.
  fold (pending (clear_pending k id (sv_pendingCancels (g_svc w))) k id').
  rewrite pending_clear. naive_solver.
Qed.
End cancels.

(** ** On the in-memory store *)

#[local] Existing Instance sample_env.
#[local] Existing Instance sample_env_laws.
#[local] Existing Instance sample_cron.

Lemma Heartbeat_answers_witness :
  let r := Heartbeat "w1" 1 4 (RequestCancel "j1" running_world).2 in
  r.1 = (["j1"], None) ∧ jobs (g_store r.2) = jobs (g_store running_world).
Proof.
  destruct (Heartbeat_answers (RequestCancel "j1" running_world).2 "w1" 1 4)
    as (_ & _ & _ & _ & Hj & _).
  split; [by vm_compute|]. etrans; [exact Hj|]. by vm_compute.
Defined.

Lemma result_ends_cancellation_witness :
  "j1" ∉ ((_ ← HandleResult "j1" "e1" "w1" 1 (mkExecutionResult true None "" false Second "");
           Heartbeat "w1" 1 4) (RequestCancel "j1" running_world).2).1.1.
Proof.
  intros Hin.
  by apply (result_ends_cancellation (RequestCancel "j1" running_world).2 "j1" "e1" "w1" 1
    (mkExecutionResult true None "" false Second "") 1 4 "j1") in Hin as [_ []].
Defined.
