(* ===== verification/Races.v ===== *)
(** * A result between the push and the RUNNING write

    [handleQueuedJob] pushes the job to the worker and then writes RUNNING
    unconditionally.  The worker runs concurrently, so that its result, or any
    other call of the scheduler, may come in between; this file interleaves the
    two halves of the method with one more operation. *)

From S2P Require Import Prelude.
From S2P Require Import Float64.
From S2P Require Import Domain.
From S2P Require Import Ports.
From S2P Require Import Fixture.
From S2P Require Import MemStore.
From S2P Require Import MemQueue.
From S2P Require Import Calls.
From S2P Require Import WorkerClient.
From S2P Require Import Backoff.
From S2P Require Import Scheduler.
From S2P Require Import Lifecycle.
From S2P Require Import Refinement.
From S2P Require Import Control.
From S2P Require Import Assign.
From S2P Require Import Results.

Section races.
Context `{Env, !EnvLaws, CronLib} {St Qu : Type}.
Context `{!JobStore St, !StoreView St, !JobStoreLaws St}.
Context `{!Queue Qu, !QueueView Qu, !QueueLaws Qu}.
#[local] Abbreviation W := (World St Qu Service).

(** The assignment with [op] between the push and the RUNNING write. *)
Definition assign_interleaved (job : QueuedJob) (c : workerConn) (op : string → Z → sched_op) :
    M W (option GoError) :=
  pushed ← assign_push job c;
  match pushed with
  | Err e => mret (Some e)
  | Ok (executionID, attempt, now) =>
      _ ← perform (op executionID attempt);
      assign_started job c executionID attempt now
  end.

Lemma wp_assign_started job c x a now j (w : W) :
  jobs (g_store w) !! q_JobID job = Some j →
  wp (assign_started job c x a now)
    (λ r w', ∃ j', jobs (g_store w') !! q_JobID job = Some j' ∧ j_State j' = JobStateRunning) w.
Proof.
  destruct w as [n s q v ev rp]. intros Hj. cbn in Hj. unfold assign_started. run.
  eapply wp_UpdateJob; [done|]. intros n1 s1 t1 Hn1 _ Hj1. run. cbn. rewrite Hj1.
  rewrite lookup_insert_eq. eexists. split; [done|]. apply update_job_state.
Qed.

(** C19: the RUNNING write overwrites whatever happened since the push.  Let
    any operation of the scheduler happen between the acceptance of a job by
    its worker and the write of RUNNING: the job is RUNNING afterwards, even if
    that operation was the worker's own report of success, which had completed
    the job. *)
Theorem running_overwrites (w : W) job c op j :
  good w → jobs (g_store w) !! q_JobID job = Some j → queueable (j_State j) = true →
  wp (assign_interleaved job c op)
    (λ r w', r = None →
       ∃ j', jobs (g_store w') !! q_JobID job = Some j' ∧ j_State j' = JobStateRunning) w.
Proof.
  intros Hg Hj Hq. unfold assign_interleaved. apply wp_bind.
  eapply wp_mono; [apply hoare_assign_push; [done|]|].
  { exists j. rewrite store_key_id. split; [done|]. by rewrite Hq. }
  intros [[[x a] now]|e] w1 [Hm Hst]; [|by apply wp_ret].
  destruct (Hst _ eq_refl) as (j1 & Hj1 & _). rewrite store_key_id in Hj1. destruct Hm as (Hg1 & _ & _).
  apply wp_bind. eapply wp_mono; [by apply refines_perform|].
  intros [] w2 (_ & _ & He). destruct (He _ _ Hj1) as (j2 & Hj2 & _).
  eapply wp_mono; [by eapply wp_assign_started|]. done.
Qed.
End races.

#[local] Existing Instance sample_env.
#[local] Existing Instance sample_env_laws.
#[local] Existing Instance sample_cron.

(** The fast success of the worker is lost: the job was completed, its record
    says so, but it ends in RUNNING. *)
Lemma running_overwrites_witness :
  let op x a := OpResult "j1" x "w1" a success_result in
  let w' := assign_interleaved (queued_job "j1") (sample_conn "w1" 0).2 op (queued_world 0) in
  w'.1 = None ∧
  (jobs (g_store w'.2) !! "j1" ≫= j_CompletedAt) ≠ None ∧
  (∃ j', jobs (g_store w'.2) !! "j1" = Some j' ∧ j_State j' = JobStateRunning).
Proof.
  intros op w'. split; [by vm_compute|]. split; [by vm_compute|].
  apply (running_overwrites (queued_world 0) (queued_job "j1") (sample_conn "w1" 0).2 op
    (sample_job "j1" JobStateQueued "" 0));
    [sample_good|by vm_compute|done|by vm_compute].
Defined.
