(* ===== verification/PgSafe.v ===== *)
(** * The Postgres store keeps the weak contract

    Whatever statements fail, before or after they were executed, the calls of
    the Postgres store do to the jobs what the lifecycle allows: [JobStoreSafe]
    (Ports.v) holds of it, and with it the theorems of Control.v. *)

From S2P Require Import Prelude.
From S2P Require Import Float64.
From S2P Require Import Domain.
From S2P Require Import Ports.
From S2P Require Import Fixture.
From S2P Require Import Postgres.
From S2P Require Import PgFixture.
From S2P Require Import PgProps.
From S2P Require Import PgQueries.
From S2P Require Import MemQueue.
From S2P Require Import WorkerClient.
From S2P Require Import Scheduler.
From S2P Require Import Lifecycle.
From S2P Require Import Control.

(** The jobs as [scanJob] reads them, under identifiers in the normal form of
    uuid columns. *)
#[global] Instance pg_JobsView `{Pg, JsonLib} : JobsView PgDB := {
  jobs := pg_view;
  store_key := λ id, default id (pg_uuid id);
  key_used := λ d key, key_taken (Some key) d;
}.

Section safe.
Context `{Env, Pg, JsonLib, !PgLaws}.

(** ** Statements that leave the jobs alone *)

Lemma quiet_stmt {A} (f : PgDB → result (A * PgDB)) :
  (∀ d a d', f d = Ok (a, d') → pg_jobs d' = pg_jobs d) → quiet (stmt f).
Proof.
  intros Hf n d. apply wp_stmt; [split; [cbn; lia|done]|]. intros a d' r Hd _.
  split; [cbn; lia|]. cbn. unfold pg_view. by rewrite (Hf _ _ _ Hd).
Qed.

Lemma quiet_query {A} (f : PgDB → result A) : quiet (query f).
Proof. intros n d. apply wp_query. intros r _. split; [cbn; lia|done]. Qed.

Ltac quiet_step :=
  lazymatch goal with
  | |- quiet (_ ≫= _) => apply quiet_bind; [|intros ?]
  | |- quiet (mret _) => apply quiet_ret
  | |- quiet (ask _) => apply quiet_ask
  | |- quiet (query _) => apply quiet_query
  | |- quiet (stmt _) => apply quiet_stmt; intros ? ? ? ?
  | |- quiet (match ?x with _ => _ end) => destruct x eqn:?
  | |- quiet (if ?b then _ else _) => destruct b eqn:?
  end.
Ltac quiet := repeat quiet_step.

Lemma pg_quiet_CreateExecution ex : quiet (pg_CreateExecution ex).
Proof.
  unfold pg_CreateExecution. quiet. unfold sql_insert_execution in *.
  by repeat case_match; simplify_eq.
Qed.

Lemma pg_quiet_FinishExecution id st res : quiet (pg_FinishExecution id st res).
Proof. unfold pg_FinishExecution. quiet. by repeat case_match; simplify_eq. Qed.

Lemma pg_quiet_UpsertWorker w : quiet (pg_UpsertWorker w).
Proof. unfold pg_UpsertWorker. quiet. by repeat case_match; simplify_eq. Qed.

Lemma pg_quiet_MarkStaleWorkers a b : quiet (pg_MarkStaleWorkers a b).
Proof. unfold pg_MarkStaleWorkers. quiet; unfold sql_mark in *; by simplify_eq. Qed.

Lemma pg_quiet_ListDueScheduled limit : quiet (pg_ListDueScheduled limit).
Proof. unfold pg_ListDueScheduled. quiet. Qed.

Lemma pg_quiet_ListTimedOutRunning now limit : quiet (pg_ListTimedOutRunning now limit).
Proof. unfold pg_ListTimedOutRunning. quiet. Qed.

(** ** Queries *)

(** What a query selects are jobs of the table, each once. *)
Lemma select_sublisting d n (keep : string * JobRow → bool) ord (keep' : Job → bool) limit l :
  (∀ id r, pg_jobs d !! id = Some r → keep (id, r) → keep' (scanJob id r)) →
  scan_jobs (sql_limit limit (select (env_order n) keep ord (pg_jobs d))) = Ok l →
  sublisting keep' (pg_view d) l.
Proof.
  intros Hk. unfold sql_limit. case_bool_decide; [done|]. cbn. intros [= <-].
  pose proof (select_perm (env_order n) keep ord (pg_jobs d) (env_order_perm _ _)) as Hsel.
  exists ((λ ir : string * JobRow, (ir.1, scanJob ir.1 ir.2)) <$>
    take (Z.to_nat limit) (select (env_order n) keep ord (pg_jobs d))).
  split; [by rewrite <- list_fmap_compose|]. split.
  - rewrite <- list_fmap_compose, (list_fmap_ext _ fst) by done. rewrite fmap_take.
    eapply sublist_NoDup; [|apply sublist_take]. rewrite Hsel.
    apply NoDup_fmap_filter, NoDup_fst_map_to_list.
  - intros k j ([id r] & [= -> ->] & Hin)%list_elem_of_fmap.
    apply (sublist_subseteq _ _ (sublist_take _ _)) in Hin. rewrite Hsel in Hin.
    apply list_elem_of_filter in Hin as [Hkeep Hin%elem_of_map_to_list].
    cbn. rewrite pg_view_lookup, Hin. split; [done|by apply Hk].
Qed.

(** A query for jobs after its readings. *)
Lemma wp_query_lists (f : PgDB → result (list (string * JobRow))) keep n0 n d :
  (n0 ≤ n)%nat → (∀ l, scan_jobs (f d) = Ok l → sublisting keep (pg_view d) l) →
  wp (r ← query f; mret (scan_jobs r)) (post n0 (λ r d', jobs d' = jobs d ∧
    ∀ l, r = Ok l → sublisting keep (jobs d) l)) (n, d).
Proof.
  intros Hn Hf. wp_step. apply wp_query. intros r Hr. wp_steps. split; [cbn; lia|].
  split; [done|]. intros l Hl. destruct Hr as [->|[e ->]]; [by apply Hf|done].
Qed.

Lemma pg_lists_ListJobs st limit :
  lists (pg_ListJobs st limit) (λ j,
    bool_decide (st = "") || bool_decide (JobState_string (j_State j) = st)).
Proof.
  intros n d. unfold pg_ListJobs. wp_step. case_bool_decide as Hst.
  - apply wp_query_lists; [cbn; lia|]. cbn [fst snd ask]. intros l. apply select_sublisting. done.
  - apply wp_query_lists; [cbn; lia|]. cbn [fst snd ask]. intros l. destruct (pg_text st); [|done].
    by apply select_sublisting.
Qed.

Lemma pg_lists_ListCancelRequested limit :
  lists (pg_ListCancelRequested limit) (λ j, bool_decide (j_State j = JobStateCancelRequested)).
Proof.
  intros n d. unfold pg_ListCancelRequested. wp_step.
  apply wp_query_lists; [cbn; lia|]. cbn [fst snd ask]. intros l. by apply select_sublisting.
Qed.

(** ** Reading and writing one job *)

Lemma wp_pg_GetJob_safe id Q n d :
  (∀ e, Q (Err e) (Datatypes.S n, d)) →
  (∀ u row, pg_uuid id = Some u → pg_jobs d !! u = Some row →
     Q (Ok (scanJob u row)) (Datatypes.S n, d)) →
  wp (pg_GetJob id) Q (n, d).
Proof.
  intros He HQ. unfold pg_GetJob. wp_step. apply wp_query.
  intros r [->|[e ->]]; wp_steps; [|apply He]. destruct (pg_uuid id) as [u|]; [|apply He].
  destruct (pg_jobs d !! u) as [row|] eqn:Hu; [by apply HQ|apply He].
Qed.

(** The UPDATE fails and does nothing, or it writes the row. *)
Lemma wp_pg_write_job u row st t f Q n d :
  pg_uuid u = Some u → pg_jobs d !! u = Some row →
  (∀ e, Q (Some e) (Datatypes.S n, d)) →
  (∀ r d', state_set u st [] (jobs d) (jobs d') → Q r (Datatypes.S n, d')) →
  wp (pg_write_job (update_job st t f (scanJob u row))) Q (n, d).
Proof.
  intros Hu Hrow He HQ. unfold pg_write_job. wp_step.
  apply wp_stmt; [intros e; wp_steps; apply He|]. intros [] d' r Hset _. wp_steps. apply HQ.
  unfold sql_update_job in Hset. destruct (updated_row _) as [[u' set]|] eqn:Hup; [|done].
  simplify_eq. cbn. pose proof (updated_row_same _ _ _ row Hup) as Hsame.
  assert (u' = u ∧ jr_state (set row) = st) as [-> Hst].
  { unfold updated_row in Hup. invert_row Hup. rewrite update_job_ID, update_job_state in *.
    cbn in *. split; [congruence|done]. }
  exists (scanJob u row), (scanJob u (set row)). cbn [jobs pg_JobsView].
  rewrite pg_view_lookup, Hrow.
  split_and!; [done|done| |done|].
  - unfold same_spec, same_columns in *. cbn. destruct_and?. split_and!; congruence.
  - apply map_eq. intros k. rewrite pg_view_lookup. cbn. rewrite lookup_alter, lookup_insert.
    case_decide; [|by rewrite pg_view_lookup]. subst k. by rewrite Hrow.
Qed.

Lemma pg_safe_UpdateJobStateIf id st f only n d :
  wp (pg_UpdateJobStateIf id st f only) (post n (λ r d',
    (jobs d' = jobs d ∧ (r = None → ∃ j, jobs d !! store_key PgDB id = Some j ∧
       allowed_from only (j_State j) = false)) ∨
    state_set (store_key PgDB id) st only (jobs d) (jobs d'))) (n, d).
Proof.
  unfold pg_UpdateJobStateIf, pg_read_job. wp_steps. apply wp_pg_GetJob_safe.
  { intros e. wp_steps. split; [cbn; lia|by left]. }
  intros u row Hu Hrow. cbn [store_key pg_JobsView]. rewrite Hu. cbn [default]. wp_steps.
  destruct (allowed_from only (j_State (scanJob u row))) eqn:Ha; wp_steps.
  2:{ split; [cbn; lia|]. left. split; [done|]. intros _. exists (scanJob u row).
      cbn in *. by rewrite pg_view_lookup, Hrow. }
  apply wp_pg_write_job; [by eapply pg_uuid_canonical|done|..].
  { intros e. split; [cbn; lia|by left]. }
  intros r d' (j & j' & Hj & _ & Hs). split; [cbn; lia|]. right. exists j, j'.
  split; [done|]. split; [|done]. cbn in Hj. rewrite pg_view_lookup, Hrow in Hj. by simplify_eq/=.
Qed.

(** ** Creation *)

(** The fields of the job that is inserted. *)
Lemma new_job_fields id t job :
  j_ID (new_job id t job) = id ∧ j_IdempotencyKey (new_job id t job) = j_IdempotencyKey job ∧
  (j_State job ≠ JobStateNone → j_State (new_job id t job) = j_State job).
Proof. unfold new_job. cbv zeta. by repeat case_bool_decide. Qed.

Lemma job_row_state job id row : job_row job = Some (id, row) → jr_state row = j_State job.
Proof. unfold job_row. intros Hrow. by invert_row Hrow. Qed.

(** A job that is found by its key is a row with that key. *)
Lemma wp_pg_by_key key (Q : result Job → nat * PgDB → Prop) n d :
  (∀ e, Q (Err e) ((2 + n)%nat, d)) →
  (∀ u row, pg_jobs d !! u = Some row → jr_idempotency_key row = Some key →
     Q (Ok (scanJob u row)) ((2 + n)%nat, d)) →
  wp (pg_GetJobByIdempotencyKey key) Q (n, d).
Proof.
  intros He HQ. unfold pg_GetJobByIdempotencyKey. do 3 wp_step. apply wp_query.
  intros r [->|[e ->]]; wp_steps; [|apply He].
  destruct (pg_text key); [|apply He]. destruct (head _) as [[u row]|] eqn:Hh; [|apply He].
  apply head_Some_elem_of in Hh. apply list_elem_of_filter in Hh as [Hk Hin].
  rewrite entries_perm, elem_of_map_to_list in Hin by apply env_order_perm. by apply HQ.
Qed.

(** From the INSERT on. *)
Lemma wp_pg_put_job job Q n d :
  (∀ e, Q (Err e) (Datatypes.S n, d)) →
  (∀ n' r, key_taken (nullStr (j_IdempotencyKey job)) d = true → (n ≤ n')%nat → Q r (n', d)) →
  (∀ n' r id row, job_row job = Some (id, row) →
     (n ≤ n')%nat → (∀ j, r = Ok j → store_key PgDB (j_ID j) = id) →
     Q r (n', set_pg_jobs (<[id := row]> (pg_jobs d)) d)) →
  wp (pg_put_job job) Q (n, d).
Proof.
  intros He Htaken HQ. unfold pg_put_job. wp_step. apply wp_stmt; [intros e; wp_steps; apply He|].
  intros a d' r (id & row & Hrow & Hins)%sql_insert_job_ok Hr.
  pose proof (job_row_inv _ _ _ Hrow) as (Hu & Hk & _). rewrite Hk in Hins.
  assert (∀ e n', (n ≤ n')%nat → Q (Err e) (n', d')) as He'.
  { intros e n' Hn. destruct Hins as [[Ht [= _ ->]]|(_ & _ & [= _ ->])]; [by apply Htaken|].
    by eapply HQ. }
  destruct Hr as [->|[e ->]]; wp_steps; [|apply He'; cbn; lia].
  case_bool_decide as Hkey; wp_steps.
  - rewrite Hkey in Hins. destruct Hins as [[? _]|(_ & _ & [= _ ->])]; [done|].
    apply (HQ _ _ id row); [done|lia|]. intros j [= <-]. cbn. by rewrite Hu.
  - assert (nullStr (j_IdempotencyKey job) = Some (j_IdempotencyKey job)) as Hnull.
    { unfold nullStr. by rewrite bool_decide_false. }
    rewrite Hnull in Hins, Htaken. apply wp_pg_by_key.
    + intros e. wp_steps. destruct Hins as [[Ht [= _ ->]]|(_ & _ & [= _ ->])]; [apply Htaken; [done|lia]|].
      apply (HQ _ _ id row); [done|lia|]. intros j [= <-]. cbn. by rewrite Hu.
    + intros u row' Hrow' Hkey'. wp_steps.
      destruct Hins as [[Ht [= _ ->]]|(Hfree & _ & [= _ ->])]; [apply Htaken; [done|lia]|].
      assert (u = id) as ->.
      { cbn in Hrow'. rewrite lookup_insert in Hrow'. case_decide; [done|]. exfalso.
        apply not_true_iff_false in Hfree. apply Hfree, key_taken_true. eauto. }
      apply (HQ _ _ id row); [done|lia|]. cbn.
      case_bool_decide; intros j [= <-]; cbn; [by rewrite Hu|].
      by rewrite (pg_uuid_canonical _ _ Hu).
Qed.

Lemma pg_safe_CreateJob job n d :
  unused_id job n d →
  wp (pg_CreateJob job) (λ r ns', post n (λ r d',
    (jobs d' = jobs d ∨ ∃ id j',
       (if bool_decide (j_ID job = "") then ∃ m, (n ≤ m < ns'.1)%nat ∧ id = env_uuid m
        else id = j_ID job) ∧
       j_ID j' = id ∧ jobs d' = <[id := j']> (jobs d)) ∧
    (j_IdempotencyKey job = "" ∨ key_used d (j_IdempotencyKey job) = false →
     j_State job ≠ JobStateNone →
     ∀ j j0, r = Ok j → jobs d' !! store_key PgDB (j_ID j) = Some j0 →
       jobs d !! store_key PgDB (j_ID j) = None ∧ j_State j0 = j_State job)) r ns') (n, d).
Proof.
  intros Hfree. unfold pg_CreateJob. wp_step.
  assert (∃ k m, (n ≤ m)%nat ∧ store_key PgDB k = k ∧ jobs d !! k = None ∧
    (if bool_decide (j_ID job = "") then ∃ m', (n ≤ m' < m)%nat ∧ k = env_uuid m' else k = j_ID job) ∧
    (if bool_decide (j_ID job = "") then ask env_uuid else mret (j_ID job)) (n, d) = (k, (m, d)))
    as (k & m & Hm & Hkk & Hnone & Hk & Hrun).
  { unfold unused_id in Hfree. case_bool_decide.
    - exists (env_uuid n), (Datatypes.S n). split; [lia|]. split; [cbn; by rewrite pg_uuid_new|].
      split; [by apply Hfree|]. split; [|done]. exists n. split; [lia|done].
    - exists (j_ID job), n. naive_solver. }
  unfold wp at 1. rewrite Hrun. cbn [fst snd]. wp_steps.
  destruct (new_job_fields k (env_now m) job) as (Hid & Hkey & Hst).
  apply wp_pg_put_job.
  - intros e. split; [cbn; lia|]. split; [by left|done].
  - intros n' r Ht Hn'. split; [cbn; lia|]. split; [by left|]. rewrite Hkey in Ht.
    intros [Hj|Hj]; [by rewrite Hj in Ht|]. unfold nullStr in Ht. case_bool_decide; [done|].
    by destruct (eq_true_false_abs _ Ht Hj).
  - intros n' r id row Hrow Hn' Hr. pose proof (job_row_inv _ _ _ Hrow) as (Hu & _).
    rewrite Hid in Hu. assert (id = k) as ->. { cbn in Hkk. rewrite Hu in Hkk. done. }
    assert (jobs (set_pg_jobs (<[k := row]> (pg_jobs d)) d) = <[k := scanJob k row]> (jobs d)) as Hjs.
    { apply map_eq. intros i. cbn. rewrite pg_view_lookup. cbn.
      rewrite !lookup_insert. destruct (decide (k = i)) as [<-|]; [done|by rewrite pg_view_lookup]. }
    split; [cbn; lia|]. split.
    + right. exists k, (scanJob k row). split; [|done]. case_bool_decide; [|done].
      destruct Hk as (m' & Hm' & ->). exists m'. split; [cbn; lia|done].
    + intros _ Hs j j0 Hj. rewrite (Hr _ Hj). cbn [snd]. rewrite Hjs, lookup_insert_eq.
      intros [= <-]. split; [done|]. cbn. rewrite <- (Hst Hs). by eapply job_row_state.
Qed.

(** The contract of the stores, which the theorems of Control.v ask for. *)
#[export] Instance pg_store_safe : JobStoreSafe PgDB.
Proof.
  split.
  - intros n. cbn. by rewrite pg_uuid_new.
  - intros id n d. apply wp_pg_GetJob_safe; [intros e; split; [cbn; lia|done]|].
    intros u row Hu Hrow. split; [cbn; lia|]. split; [done|]. intros j [= <-]. cbn in *.
    rewrite Hu. cbn. by rewrite pg_view_lookup, Hrow.
  - intros id st f n d. eapply wp_mono; [apply pg_safe_UpdateJobStateIf|].
    intros r ns [Hn [[Hj Hr]|Hs]]; (split; [done|]); [left|by right].
    split; [|done]. intros ->. by destruct Hr as (j & _ & ?).
  - apply pg_safe_UpdateJobStateIf.
  - apply pg_safe_CreateJob.
  - apply pg_lists_ListJobs.
  - apply pg_lists_ListCancelRequested.
  - apply pg_quiet_ListDueScheduled.
  - apply pg_quiet_ListTimedOutRunning.
  - intros ex _. apply pg_quiet_CreateExecution.
  - apply pg_quiet_FinishExecution.
  - apply pg_quiet_UpsertWorker.
  - apply pg_quiet_MarkStaleWorkers.
Qed.

(** C14: the scheduler keeps the job lifecycle on Postgres too, whichever
    statements fail.  Let any statement of the store fail, before or after the
    database executed it (so that a method may report an error although it has
    taken effect, and transactions roll back or commit unseen).  Whatever calls
    arrive, in whatever order: no job disappears from the table, what its
    submitter chose never changes, its state moves along the edges of the
    lifecycle, once final it does not change at all, and a requested cancellation
    is never lost. *)
Theorem pg_scheduler_lifecycle `{CronLib, !EnvLaws} {Qu} `{Queue Qu, !QueueView Qu, !QueueLaws Qu}
    (w w' : World PgDB Qu Service) :
  good w → rtc sched_step w w' →
  good w' ∧
  ∀ u row, pg_jobs (g_store w) !! u = Some row →
    let j := scanJob u row in
    ∃ row', pg_jobs (g_store w') !! u = Some row' ∧
      let j' := scanJob u row' in
      same_spec j j' ∧ rtc edge (j_State j) (j_State j') ∧
      (final (j_State j) = true → j' = j) ∧
      (j_State j = JobStateCancelRequested →
       j_State j' = JobStateCancelRequested ∨ j_State j' = JobStateCancelled).
Proof.
  intros Hg Hr. destruct (reachable_moved _ _ Hr Hg) as (Hg' & _ & He).
  split; [done|]. intros u row Hrow j.
  destruct (He u j) as (j' & Hj' & Hs & Hed & Hterm); [cbn; by rewrite pg_view_lookup, Hrow|].
  cbn in Hj'. rewrite pg_view_lookup in Hj'. apply fmap_Some in Hj' as (row' & Hrow' & ->).
  exists row'. split; [done|]. cbv zeta. split_and!; [done|done| |].
  - intros Hf. apply Hterm. by rewrite Hf.
  - intros Hc. eapply cancel_requested_edge; [done|]. by left.
Qed.
End safe.

(** ** A scheduler on a failing database *)

#[local] Existing Instance sample_env.
#[local] Existing Instance sample_env_laws.
#[local] Existing Instance sample_cron.
#[local] Existing Instance sample_json.

(** The answer to the statement at reading [k] gets lost. *)
Definition pg_losing (k : nat) : Pg :=
  pg_with (λ n, if Nat.eqb n k then AnswerLost (External "connection reset") else Executed).

#[local] Instance losing_pg : Pg := pg_losing 8.

Lemma pg_with_laws faults : @PgLaws sample_env (pg_with faults).
Proof.
  split; cbn.
  - intros s u. destruct (String.eqb_spec s "") as [|Hne]; [done|]. intros [= <-].
    by destruct (String.eqb_spec s "").
  - by intros [|n].
Qed.

Definition pg_world : World PgDB MemQueue Service :=
  mkWorld 0 (sample_db JobStateQueued) mq_New
    (set_sv_workers {["w1" := (sample_conn "w1" 0).2]} (NewService sample_config)) [] [].

Lemma pg_world_good : good pg_world.
Proof.
  assert (∀ k r, pg_jobs (sample_db JobStateQueued) !! k = Some r → k = "j1" ∨ k = "j2") as Hk.
  { intros k r. cbn. rewrite lookup_insert. case_decide; [auto|].
    rewrite lookup_singleton. case_decide; [auto|done]. }
  split; [split|].
  - intros k j. cbn. rewrite pg_view_lookup. intros (r & _ & ->)%fmap_Some. done.
  - intros k [j Hj]. cbn in Hj. rewrite pg_view_lookup in Hj.
    apply fmap_Some in Hj as (r & [-> | ->]%Hk & _); done.
  - intros m _. cbn [g_store pg_world jobs pg_JobsView]. rewrite pg_view_lookup.
    destruct (pg_jobs _ !! _) as [r|] eqn:Hr; [|done]. apply Hk in Hr. by destruct m, Hr.
Qed.

(** The delivery fails at the write of ASSIGNED, whose answer is lost: the job
    was assigned all the same. *)
Lemma pg_scheduler_lifecycle_witness :
  let w' := (forM_ [OpDeliver (queued_job "j1"); OpResult "j1" "x" "w1" 1 success_result]
               perform pg_world).2 in
  (handleQueuedJob (queued_job "j1") pg_world).1 = Some (External "connection reset") ∧
  ∃ row', pg_jobs (g_store w') !! "j1" = Some row' ∧
    rtc edge JobStateQueued (j_State (scanJob "j1" row')).
Proof.
  intros w'. split; [by vm_compute|].
  pose proof (pg_with_laws (λ n, if Nat.eqb n 8 then AnswerLost (External "connection reset")
    else Executed)) as Hlaws.
  destruct (pg_scheduler_lifecycle (H2 := Hlaws) pg_world w' pg_world_good (perform_path _ _))
    as [_ He].
  destruct (He "j1" (sample_row JobStateQueued None 5)) as (row' & Hrow' & _ & Hed & _).
  { by vm_compute. }
  exists row'. by split.
Defined.
