(* ===== verification/Api.v ===== *)
(** * internal/api/server.go: the HTTP handlers of the jobs

    [createJob] (from the decoded body on), [enqueueJob], [getJob],
    [listJobs], [cancelJob] and [listWorkers]: each handler returns the status
    and the body it writes.  The other endpoints are in Endpoints.v, the routes in
    Routes.v. *)

From S2P Require Import Prelude.
From S2P Require Import Float64.
From S2P Require Import Domain.
From S2P Require Import Ports.
From S2P Require Import Fixture.
From S2P Require Import MemStore.
From S2P Require Import MemQueue.
From S2P Require Import Calls.
From S2P Require Import WorkerClient.
From S2P Require Import Backoff.
From S2P Require Import Scheduler.
From S2P Require Import Lifecycle.
From S2P Require Import Refinement.
From S2P Require Import Control.

Definition StatusOK : Z := 200.
Definition StatusCreated : Z := 201.
Definition StatusAccepted : Z := 202.
Definition StatusBadRequest : Z := 400.
Definition StatusNotFound : Z := 404.
Definition StatusConflict : Z := 409.
Definition StatusInternalServerError : Z := 500.

(** The value that is encoded; an error message is a text and the error it
    may end with. *)
Inductive Body :=
  | BodyError (msg : string) (cause : option GoError)
  | BodyJob (j : Job)
  | BodyJobs (l : list Job)
  | BodyWorkers (l : list Worker)
  | BodyStatus (s : string).

Record Response := mkResponse { r_status : Z; r_body : Body }.

Definition writeErr (status : Z) (msg : string) (cause : option GoError) : Response :=
  mkResponse status (BodyError msg cause).

(** The defaults [createJob] fills in before it validates. *)
Definition default_type (t : JobType) : JobType :=
  if bool_decide (t = "") then JobTypeBuiltin else t.
Definition default_priority (p : Z) : Z := if bool_decide (p = 0) then 5 else p.
Definition default_schedule (s : Schedule) : Schedule :=
  if bool_decide (sc_Type s = "")
  then mkSchedule ScheduleImmediate (sc_RunAt s) (sc_Delay s) (sc_CronExpr s) (sc_Timezone s)
  else s.
Definition job_timeout (seconds : Z) : Duration :=
  if bool_decide (0 < seconds) then dur_mul seconds Second else 30 * Second.

(** The job a valid request asks for, CREATED and not yet scheduled. *)
Definition job_of (req : CreateJobRequest) (id : string) : Job :=
  let retry := default DefaultRetryPolicy (req_RetryPolicy req) in
  mkJob id (req_Name req) (default_type (req_Type req))
    (Some (default "{}" (req_Payload req)))
    (default_priority (req_Priority req)) JobStateCreated (default_schedule (req_Schedule req))
    retry (job_timeout (req_TimeoutSeconds req)) (req_IdempotencyKey req) 0
    (rp_MaxAttempts retry) "" "" "" None None None None None zero_time zero_time
    (req_Metadata req).

Section schedule.
Context `{CronLib}.

(** The checks before the job is built; [vnow] is the clock of
    [ValidateSchedule]. *)
Definition request_error (vnow : time) (req : CreateJobRequest) : option (string * option GoError) :=
  let ty := default_type (req_Type req) in
  let prio := default_priority (req_Priority req) in
  if bool_decide (req_Name req = "") then Some ("name required", None)
  else if negb (bool_decide (ty = JobTypeBuiltin)) && negb (bool_decide (ty = JobTypeWebhook))
  then Some ("type must be builtin or webhook", None)
  else if bool_decide (prio < 1) || bool_decide (10 < prio)
  then Some ("priority must be 1-10", None)
  else match ValidateSchedule vnow (default_schedule (req_Schedule req)) with
  | Some e => Some ("", Some e)
  | None => None
  end.

(** The switch on the schedule type: the instant of the first run. *)
Definition first_run (s : Schedule) (now : time) : result time :=
  if bool_decide (sc_Type s = ScheduleImmediate) then Ok now
  else if bool_decide (sc_Type s = ScheduleDelayed) then Ok (time_add now (sc_Delay s))
  else if bool_decide (sc_Type s = ScheduleOneTime) then
    match sc_RunAt s with
    | None => Err (Errorf "run_at required for one_time" [])
    | Some t => Ok t
    end
  else if bool_decide (sc_Type s = ScheduleRecurring) then
    match NextRunAt s (time_add now (- Nanosecond)) with
    | Err e => Err e
    | Ok next => if negb (After next now) then NextRunAt s now else Ok next
    end
  else Err (Errorf "unknown schedule type" []).
End schedule.

Section server.
Context `{Env, CronLib} {St Qu V : Type} `{JobStore St, Queue Qu}.
#[local] Abbreviation W := (World St Qu V).

Definition enqueueJob (job : Job) : M W (result Job) :=
  now ← askW env_now;
  err ← callQ (queue_Enqueue (queued_of job now));
  match err with
  | Some e => mret (Err e)
  | None =>
      _ ← Emit EventJobQueued (j_ID job) "" "" (j_Attempt job) None;
      err ← callS (store_UpdateJobState (j_ID job) JobStateQueued
                     [("queued_at", ATimePtr (Some now))]);
      match err with
      | Some e => mret (Err e)
      | None => mret (Ok (set_QueuedAt (Some now) (set_State JobStateQueued job)))
      end
  end.

(** [createJob] once the job is built and scheduled. *)
Definition submit_job (job : Job) (now : time) : M W Response :=
  created ← callS (store_CreateJob job);
  match created with
  | Err e => mret (writeErr StatusInternalServerError "" (Some e))
  | Ok job =>
      _ ← Emit EventJobCreated (j_ID job) "" "" 0
            (Some [("name", AString (j_Name job)); ("type", AString (j_Type job));
                   ("priority", AInt (j_Priority job))]);
      _ ← Emit EventJobScheduled (j_ID job) "" "" 0
            (Some [("scheduled_at", ATimePtr (j_ScheduledAt job))]);
      match j_ScheduledAt job with
      | Some t =>
          if negb (After t now) then
            queued ← enqueueJob job;
            match queued with
            | Err e => mret (writeErr StatusInternalServerError "enqueue failed: " (Some e))
            | Ok job => mret (mkResponse StatusCreated (BodyJob job))
            end
          else mret (mkResponse StatusCreated (BodyJob job))
      | None => mret (mkResponse StatusCreated (BodyJob job))
      end
  end.

(** [decoded] is the result of decoding the body. *)
Definition createJob (decoded : result CreateJobRequest) : M W Response :=
  match decoded with
  | Err _ => mret (writeErr StatusBadRequest "invalid json" None)
  | Ok req =>
      vnow ← askW env_now;
      match request_error vnow req with
      | Some (msg, cause) => mret (writeErr StatusBadRequest msg cause)
      | None =>
          now ← askW env_now;
          id ← askW env_uuid;
          match first_run (default_schedule (req_Schedule req)) now with
          | Err e => mret (writeErr StatusBadRequest "" (Some e))
          | Ok t =>
              submit_job (set_ScheduledAt (Some t) (set_State JobStateScheduled (job_of req id))) now
          end
      end
  end.

Definition getJob (id : string) : M W Response :=
  job ← callS (store_GetJob id);
  match job with
  | Err e =>
      if bool_decide (e = ErrNotFound)
      then mret (writeErr StatusNotFound "job not found" None)
      else mret (writeErr StatusInternalServerError "" (Some e))
  | Ok job => mret (mkResponse StatusOK (BodyJob job))
  end.

(** [limit] is what [strconv.Atoi] made of the query parameter. *)
Definition listJobs (state : string) (limit : Z) : M W Response :=
  jobs ← callS (store_ListJobs state limit);
  match jobs with
  | Err e => mret (writeErr StatusInternalServerError "" (Some e))
  | Ok jobs => mret (mkResponse StatusOK (BodyJobs jobs))
  end.

(** The map [terminal] of the handler. *)
Definition cancel_terminal (s : JobState) : bool :=
  match s with
  | JobStateCompleted | JobStateCancelled | JobStateExpired => true
  | _ => false
  end.

Definition cancelJob (id : string) : M W Response :=
  job ← callS (store_GetJob id);
  match job with
  | Err e =>
      if bool_decide (e = ErrNotFound)
      then mret (writeErr StatusNotFound "job not found" None)
      else mret (writeErr StatusInternalServerError "" (Some e))
  | Ok job =>
      if cancel_terminal (j_State job)
      then mret (writeErr StatusConflict "job already terminal" None)
      else if bool_decide (j_State job = JobStateRunning) ||
              bool_decide (j_State job = JobStateAssigned)
      then
        _ ← callS (store_UpdateJobState id JobStateCancelRequested []);
        _ ← Emit EventJobCancelRequested id (j_ExecutionID job) (j_WorkerID job)
              (j_Attempt job) None;
        mret (mkResponse StatusAccepted (BodyStatus "CANCEL_REQUESTED"))
      else
        now ← askW env_now;
        _ ← callS (store_UpdateJobState id JobStateCancelled
                     [("completed_at", ATimePtr (Some now))]);
        _ ← Emit EventJobCancelled id "" "" (j_Attempt job) None;
        mret (mkResponse StatusOK (BodyStatus "CANCELLED"))
  end.

Definition listWorkers : M W Response :=
  workers ← callS store_ListWorkers;
  match workers with
  | Err e => mret (writeErr StatusInternalServerError "" (Some e))
  | Ok workers => mret (mkResponse StatusOK (BodyWorkers workers))
  end.
End server.

(** ** Which requests are accepted *)

Section validity.
Context `{CronLib}.

(** A schedule that has a next run. *)
Definition schedule_ok (s : Schedule) : Prop :=
  if bool_decide (sc_Type s = ScheduleImmediate) || bool_decide (sc_Type s = ScheduleDelayed)
  then True
  else if bool_decide (sc_Type s = ScheduleOneTime) then sc_RunAt s ≠ None
  else sc_Type s = ScheduleRecurring ∧ sc_CronExpr s ≠ "" ∧
    (sc_Timezone s = "" ∨ ∃ loc, LoadLocation (sc_Timezone s) = Ok loc) ∧
    ∃ c, Parse (sc_CronExpr s) = Ok c.

Definition valid_request (req : CreateJobRequest) : Prop :=
  req_Name req ≠ "" ∧
  (req_Type req = "" ∨ req_Type req = JobTypeBuiltin ∨ req_Type req = JobTypeWebhook) ∧
  0 ≤ req_Priority req ≤ 10 ∧ schedule_ok (default_schedule (req_Schedule req)).

Lemma NextRunAt_recurring_ok s t :
  sc_Type s = ScheduleRecurring →
  (∃ a, NextRunAt s t = Ok a) ↔ sc_CronExpr s ≠ "" ∧
    (sc_Timezone s = "" ∨ ∃ loc, LoadLocation (sc_Timezone s) = Ok loc) ∧
    ∃ c, Parse (sc_CronExpr s) = Ok c.
Proof.
  intros Hty. unfold NextRunAt. rewrite Hty.
  rewrite (bool_decide_false (ScheduleRecurring = ScheduleImmediate)),
    (bool_decide_false (ScheduleRecurring = ScheduleDelayed)),
    (bool_decide_false (ScheduleRecurring = ScheduleOneTime)),
    (bool_decide_true (ScheduleRecurring = ScheduleRecurring)) by done.
  cbn zeta. case_bool_decide as He; [naive_solver|].
  case_bool_decide as Htz; [|destruct (LoadLocation (sc_Timezone s)) as [loc|e]];
    destruct (Parse (sc_CronExpr s)) as [c|e']; naive_solver.
Qed.

Lemma ValidateSchedule_ok now s :
  sc_Type s ≠ "" → ValidateSchedule now s = None ↔ schedule_ok s.
Proof.
  intros Hne. unfold ValidateSchedule, schedule_ok.
  rewrite (bool_decide_false (sc_Type s = "")) by done. cbn [orb].
  case_bool_decide as H1; [done|]. cbn [orb]. case_bool_decide as H2; [done|].
  case_bool_decide as H3; [destruct (sc_RunAt s); naive_solver|].
  case_bool_decide as H4; [|naive_solver].
  pose proof (NextRunAt_recurring_ok s now H4) as Hn.
  case_bool_decide as H5; [naive_solver|].
  destruct (NextRunAt s now) as [a|e]; split; intros Hx; try done.
  - split; [done|]. apply Hn. eauto.
  - exfalso. destruct Hx as [_ Hx]. apply Hn in Hx as [a Ha]. done.
Qed.

Lemma first_run_ok s now : schedule_ok s → ∃ t, first_run s now = Ok t.
Proof.
  unfold first_run, schedule_ok. case_bool_decide; [eauto|]. cbn [orb].
  case_bool_decide; [eauto|]. case_bool_decide; [destruct (sc_RunAt s); naive_solver|].
  intros (Hty & Hok). rewrite bool_decide_true by done.
  apply (NextRunAt_recurring_ok s (time_add now (- Nanosecond)) Hty) in Hok as Ha.
  destruct Ha as [a ->]. case_match; [|eauto]. by apply NextRunAt_recurring_ok.
Qed.

Lemma default_schedule_type s : sc_Type (default_schedule s) ≠ "".
Proof. unfold default_schedule. by case_bool_decide. Qed.

Lemma request_error_none vnow req : request_error vnow req = None ↔ valid_request req.
Proof.
  unfold request_error, valid_request, default_type, default_priority.
  rewrite <- (ValidateSchedule_ok vnow) by apply default_schedule_type.
  destruct (ValidateSchedule vnow _);
    repeat case_bool_decide; cbn; naive_solver lia.
Qed.
End validity.

Section handlers.
Context `{Env, !EnvLaws, CronLib} {St Qu V : Type}.
Context `{!JobStore St, !StoreView St, !JobStoreLaws St}.
Context `{!Queue Qu, !QueueView Qu, !QueueLaws Qu}.
#[local] Abbreviation W := (World St Qu V).
Implicit Types (s : St) (q : Qu) (v : V).

(** C35: invalid submissions have no effect.  A decoded request is answered
    with 400 if it is not valid (no name, an unknown type, a priority outside
    1-10, a schedule without a next run), and then nothing is stored, enqueued
    or emitted; a valid one is never answered with 400. *)
Theorem createJob_validates (w : W) req :
  wp (createJob (Ok req)) (λ r w',
    (r_status r = StatusBadRequest ↔ ¬ valid_request req) ∧
    (¬ valid_request req →
       g_store w' = g_store w ∧ g_queue w' = g_queue w ∧ g_events w' = g_events w)) w.
Proof.
  destruct w as [n s q v ev rp]. unfold createJob. run.
  pose proof (request_error_none (env_now n) req) as Hreq.
  destruct (request_error (env_now n) req) as [[msg cause]|] eqn:E.
  { run. cbn. assert (¬ valid_request req) by naive_solver. done. }
  assert (valid_request req) as Hv by naive_solver. run.
  destruct (first_run_ok (default_schedule (req_Schedule req)) (env_now (Datatypes.S n)))
    as [t ->]; [apply Hv|].
  apply (wp_mono _ (λ r _, r_status r ≠ StatusBadRequest)); [|naive_solver].
  unfold submit_job, enqueueJob.
  repeat first [apply wp_bind, wp_all; intros ? ? | apply wp_ret | case_match]; done.
Qed.

(** The queue takes the job and the store marks it QUEUED. *)
Lemma wp_enqueueJob job j (Q : result Job → W → Prop) n s q v ev rp :
  jobs s !! j_ID job = Some j → closed q = false →
  (∀ n' s' q' ev' t t', same_but_jobs s s' →
     jobs s' = <[j_ID job := update_job JobStateQueued t [("queued_at", ATimePtr (Some t'))] j]> (jobs s) →
     closed q' = false → (∃ tq, ready q' ≡ₚ queued_of job tq :: ready q) →
     Q (Ok (set_QueuedAt (Some t') (set_State JobStateQueued job))) (mkWorld n' s' q' v ev' rp)) →
  wp (enqueueJob job) Q (mkWorld n s q v ev rp).
Proof.
  intros Hj Hc HQ. unfold enqueueJob. run.
  apply wp_Enqueue; [|by rewrite Hc]. intros n1 q1 t1 Hn1 _ Hc1 _ Hr1. run.
  eapply wp_UpdateJob; [done|]. intros n2 s2 t2 Hn2 Hs2 Hj2. run.
  eapply HQ; try done. by exists t1.
Qed.

(** The job that is stored for a request; [queued] tells whether its first run
    is due. *)
Definition submitted (req : CreateJobRequest) (id : string) (t : time) (queued : bool)
    (j : Job) : Prop :=
  same_spec (set_CreatedAt (j_CreatedAt j) (job_of req id)) j ∧ j_Attempt j = 0 ∧
  j_ScheduledAt j = Some t ∧ j_WorkerID j = "" ∧
  j_State j = if queued then JobStateQueued else JobStateScheduled.

(** A submission under a new key, with all it leaves alone. *)
Lemma wp_createJob_new req (Q : Response → W → Prop) n s q v ev rp :
  good (mkWorld n s q v ev rp) → valid_request req → closed q = false →
  req_IdempotencyKey req = "" ∨ idem s !! req_IdempotencyKey req = None →
  (∀ n' s' q' ev' now id t j resp, r_status resp = StatusCreated →
     first_run (default_schedule (req_Schedule req)) now = Ok t →
     id ≠ "" → jobs s !! id = None → jobs s' = <[id := j]> (jobs s) →
     execs s' = execs s → workers s' = workers s → closed q' = false →
     submitted req id t (bool_decide (t ≤ now)) j →
     (if bool_decide (t ≤ now)
      then ∃ tq jq, ready q' ≡ₚ queued_of jq tq :: ready q ∧ same_spec jq j ∧ j_Attempt jq = 0
      else q' = q) →
     Q resp (mkWorld n' s' q' v ev' rp)) →
  wp (createJob (Ok req)) Q (mkWorld n s q v ev rp).
Proof.
  intros [_ Hf] Hv Hc Hkey HQ. cbn in Hf.
  unfold createJob. run. rewrite (proj2 (request_error_none _ _) Hv). run.
  destruct (first_run_ok (default_schedule (req_Schedule req)) (env_now (Datatypes.S n)))
    as [t Ht]; [apply Hv|]. rewrite Ht.
  set (id := env_uuid (Datatypes.S (Datatypes.S n))).
  assert (id ≠ "") as Hid by apply env_uuid_ne.
  assert (jobs s !! id = None) as Hfresh by (apply Hf; lia).
  unfold submit_job. apply wp_bind, wp_CreateJob_new; [done|done|].
  intros n1 s1 t1 Hn1 Hx1 Hw1 j1 Hj1. cbn in Hj1. run. cbn [j_ScheduledAt j1 set_UpdatedAt
    set_CreatedAt set_ScheduledAt].
  unfold After. destruct (bool_decide_reflect (env_now (Datatypes.S n) < t)) as [Hlt|Hle]; cbn [negb].
  - run. eapply (HQ _ s1 _ _ _ id t j1); try done; rewrite bool_decide_false by lia; [|done].
    by repeat split.
  - run. eapply wp_enqueueJob; [rewrite Hj1; apply lookup_insert_eq|done|].
    intros n2 s2 q2 ev2 t2 t2' (_ & Hx2 & Hw2) Hj2 Hc2 [tq Hr2]. run.
    eapply HQ; [done|exact Ht|exact Hid|exact Hfresh| | | |done|..];
      [by rewrite Hj2, Hj1, insert_insert_eq|congruence|congruence|..];
      rewrite bool_decide_true by lia.
    + split; [by repeat split|]. by repeat split.
    + exists tq, j1. split; [done|]. split; [apply update_job_spec|done].
Qed.

(** C36: what a submission creates.  A valid request whose idempotency key is
    empty or new is answered with 201 and creates exactly one job, under a new
    identifier, with the requested specification and the defaults (type
    builtin, priority 5, three attempts with backoff, 30 seconds, an empty JSON
    payload); a job whose first run is due is QUEUED with exactly one message
    on the queue, any other is SCHEDULED for its first run with no message. *)
Theorem createJob_creates (w : W) req :
  good w → valid_request req → closed (g_queue w) = false →
  req_IdempotencyKey req = "" ∨ idem (g_store w) !! req_IdempotencyKey req = None →
  wp (createJob (Ok req)) (λ r w', r_status r = StatusCreated ∧ ∃ now id t j,
    first_run (default_schedule (req_Schedule req)) now = Ok t ∧
    id ≠ "" ∧ jobs (g_store w) !! id = None ∧
    jobs (g_store w') = <[id := j]> (jobs (g_store w)) ∧
    submitted req id t (bool_decide (t ≤ now)) j ∧
    if bool_decide (t ≤ now)
    then ∃ tq jq, ready (g_queue w') ≡ₚ queued_of jq tq :: ready (g_queue w) ∧ same_spec jq j ∧
                  j_Attempt jq = 0
    else g_queue w' = g_queue w) w.
Proof.
  destruct w as [n s q v ev rp]. cbn [g_store g_queue]. intros Hg Hv Hc Hkey.
  apply wp_createJob_new; [done..|].
  intros n' s' q' ev' now id t j resp Hr Ht Hid Hnew Hj _ _ _ Hsub Hq. split; [done|].
  by exists now, id, t, j.
Qed.

(** A repeated submission runs the job again.  When the idempotency key
    of a valid request is already in use, the stored job is the one that is
    answered (201), no second job is created, but, as its scheduled time has
    passed, the job is put on the queue once more and set to QUEUED whatever its
    state: a COMPLETED, FAILED or RUNNING job is executed again. *)
Lemma createJob_requeues_duplicate (w : W) req id0 j0 t0 :
  keyed (jobs (g_store w)) → valid_request req → closed (g_queue w) = false →
  req_IdempotencyKey req ≠ "" → idem (g_store w) !! req_IdempotencyKey req = Some id0 →
  jobs (g_store w) !! id0 = Some j0 → j_ScheduledAt j0 = Some t0 → (∀ n, t0 ≤ env_now n) →
  wp (createJob (Ok req)) (λ r w', r_status r = StatusCreated ∧ ∃ j' tq,
    jobs (g_store w') = <[id0 := j']> (jobs (g_store w)) ∧ same_spec j0 j' ∧
    j_State j' = JobStateQueued ∧ j_CompletedAt j' = j_CompletedAt j0 ∧
    ready (g_queue w') ≡ₚ queued_of j0 tq :: ready (g_queue w)) w.
Proof.
  destruct w as [n s q v ev rp]. cbn [g_store g_queue].
  intros Hk Hv Hc Hne Hkey Hj0 Hsch Hpast.
  unfold createJob. run. rewrite (proj2 (request_error_none _ _) Hv). run.
  destruct (first_run_ok (default_schedule (req_Schedule req)) (env_now (Datatypes.S n)))
    as [t Ht]; [apply Hv|]. rewrite Ht.
  unfold submit_job. apply wp_bind. eapply wp_CreateJob_again; [done|exact Hkey|done|].
  intros n1 s1 Hn1 [Hj1 _]. run. rewrite Hsch. unfold After.
  pose proof (Hpast (Datatypes.S n)). rewrite bool_decide_false by lia. cbn [negb]. run.
  eapply wp_enqueueJob; [rewrite Hj1, (Hk _ _ Hj0); exact Hj0|done|].
  intros n2 s2 q2 ev2 t2 t2' _ Hj2 Hc2 [tq Hr2]. run. split; [done|].
  eexists _, tq. cbn [g_store g_queue]. rewrite Hj2, Hj1, (Hk _ _ Hj0). split; [done|].
  split; [apply update_job_spec|]. rewrite update_job_state. done.
Qed.

(** C38: what a cancellation by the API does.  An unknown job is answered with
    404, a COMPLETED, CANCELLED or EXPIRED one with 409, both without any
    effect; a RUNNING or ASSIGNED job becomes CANCEL_REQUESTED (202) and is left
    to the scheduler; every other job becomes CANCELLED at once (200), with its
    completion stamped: a job that waits to run, but also one that already
    FAILED or timed out, and one whose cancellation was requested before and
    whose worker has not confirmed it.  No other job is touched. *)
Theorem cancelJob_table (w : W) id :
  wp (cancelJob id) (λ r w',
    g_queue w' = g_queue w ∧
    match jobs (g_store w) !! id with
    | None => r_status r = StatusNotFound ∧ g_store w' = g_store w ∧ g_events w' = g_events w
    | Some j =>
        match j_State j with
        | JobStateCompleted | JobStateCancelled | JobStateExpired =>
            r_status r = StatusConflict ∧ g_store w' = g_store w ∧ g_events w' = g_events w
        | JobStateRunning | JobStateAssigned =>
            r_status r = StatusAccepted ∧ ∃ j', same_spec j j' ∧
              j_State j' = JobStateCancelRequested ∧ j_WorkerID j' = j_WorkerID j ∧
              j_ExecutionID j' = j_ExecutionID j ∧
              jobs (g_store w') = <[id := j']> (jobs (g_store w))
        | _ => r_status r = StatusOK ∧ ∃ j' now, same_spec j j' ∧
              j_State j' = JobStateCancelled ∧ j_CompletedAt j' = Some now ∧
              jobs (g_store w') = <[id := j']> (jobs (g_store w))
        end
    end) w.
Proof.
  destruct w as [n s q v ev rp]. cbn [g_store g_queue g_events]. unfold cancelJob. run.
  apply wp_GetJob. intros n1 Hn1. destruct (jobs s !! id) as [j|] eqn:Hj; [|by run].
  destruct (j_State j) eqn:Hst; cbn [cancel_terminal]; try (by run);
    repeat (rewrite bool_decide_false by done); cbn [orb];
    try rewrite bool_decide_true by done; cbn [orb]; run;
    (eapply wp_UpdateJob; [done|]); intros n2 s2 t2 Hn2 _ Hj2; run; cbn [g_store g_queue];
    (split; [done|]); (split; [done|]).
  all: match type of Hj2 with _ = <[_ := ?j']> _ => exists j' end; try exists (env_now n1).
  all: split; [apply update_job_spec|]; rewrite update_job_state; by repeat split.
Qed.
End handlers.

(** ** On the in-memory store *)

#[local] Existing Instance sample_env.
#[local] Existing Instance sample_env_laws.
#[local] Existing Instance sample_cron.

Definition sample_request (key : string) : CreateJobRequest :=
  mkCreateJobRequest "job" "" None 0 (mkSchedule "" None 0 "" "") None 0 key None.

Lemma sample_request_valid key : valid_request (sample_request key).
Proof. split_and!; try done. by left. Defined.

Lemma createJob_creates_witness :
  r_status (createJob (Ok (sample_request "")) (sample_world [] [])).1 = StatusCreated.
Proof.
  destruct (createJob_creates (sample_world [] []) (sample_request "")) as [Hr _];
    [sample_good|apply sample_request_valid|done|by left|exact Hr].
Defined.

(** A completed job of the key "k" goes back to the queue. *)
Definition completed_world : World MemStore MemQueue Service :=
  let w := sample_world [sample_job "j1" JobStateCompleted "w1" 1] [] in
  mkWorld 0 (set_ms_byIdem {["k" := "j1"]} (g_store w)) mq_New (g_svc w) [] [].

Lemma createJob_requeues_duplicate_witness :
  ∃ j', jobs (g_store (createJob (Ok (sample_request "k")) completed_world).2) !! "j1" = Some j' ∧
        j_State j' = JobStateQueued.
Proof.
  destruct (createJob_requeues_duplicate completed_world (sample_request "k") "j1"
    (sample_job "j1" JobStateCompleted "w1" 1) (sample_now 0))
    as (_ & j' & tq & Hj & _ & Hst & _).
  - apply (good_sample_world [sample_job "j1" JobStateCompleted "w1" 1] []);
      [by vm_compute; repeat constructor; set_solver|repeat constructor; by intros []].
  - apply sample_request_valid.
  - done.
  - done.
  - by vm_compute.
  - by vm_compute.
  - done.
  - intros n. change (env_now n) with (sample_now n). unfold sample_now, Millisecond. lia.
  - exists j'. split; [|exact Hst]. rewrite Hj. apply lookup_insert_eq.
Defined.

Lemma createJob_validates_witness :
  r_status (createJob (Ok (mkCreateJobRequest "" "" None 0 (mkSchedule "" None 0 "" "")
                             None 0 "" None)) (sample_world [] [])).1 = StatusBadRequest.
Proof.
  apply (createJob_validates (sample_world [] [])). intros [Hname _]. by apply Hname.
Defined.

Lemma cancelJob_table_witness :
  r_status (cancelJob "j1" (sample_world [sample_job "j1" JobStateRunning "w1" 1] [])).1
  = StatusAccepted.
Proof.
  by destruct (cancelJob_table (sample_world [sample_job "j1" JobStateRunning "w1" 1] []) "j1")
    as (_ & Hr & _).
Defined.
