(* ===== verification/System.v ===== *)
(** * The whole system: API, gRPC server and scheduler on one store

    The handlers that change jobs, of all processes, as operations of one
    transition system: the scheduler's (Control.v), the RPCs of the workers
    (Grpc.v), and the submissions and cancellations of the API (Api.v).  The API
    does not keep to the lifecycle of the scheduler: [api_edge] is what it adds.
    The store has the weak contract, so that its calls may fail. *)

From S2P Require Import Prelude.
From S2P Require Import Float64.
From S2P Require Import Domain.
From S2P Require Import Auth.
From S2P Require Import Config.
From S2P Require Import Ports.
From S2P Require Import Fixture.
From S2P Require Import MemStore.
From S2P Require Import Postgres.
From S2P Require Import PgFixture.
From S2P Require Import MemQueue.
From S2P Require Import Calls.
From S2P Require Import WorkerClient.
From S2P Require Import Backoff.
From S2P Require Import Scheduler.
From S2P Require Import Lifecycle.
From S2P Require Import Refinement.
From S2P Require Import Control.
From S2P Require Import Grpc.
From S2P Require Import PgSafe.
From S2P Require Import Api.

(** The states only a resubmission leaves. *)
Definition closed_state (s : JobState) : bool :=
  match s with
  | JobStateCompleted | JobStateCancelled | JobStateExpired => true
  | _ => false
  end.

(** What the API does to jobs: DELETE cancels what is not COMPLETED, CANCELLED
    or EXPIRED (a FAILED job, too) or requests the cancellation of what runs; a
    submission under a used key puts the stored job back into the queue. *)
Definition api_edge (again : bool) (a b : JobState) : bool :=
  match b with
  | JobStateCancelled => negb (closed_state a)
  | JobStateCancelRequested =>
      bool_decide (a = JobStateRunning) || bool_decide (a = JobStateAssigned)
  | JobStateQueued => again
  | _ => false
  end.

Definition sys_edge (again : bool) (a b : JobState) : bool := edge a b || api_edge again a b.

Definition sys_evolves (again : bool) (j j' : Job) : Prop :=
  same_spec j j' ∧ rtc (sys_edge again) (j_State j) (j_State j') ∧
  (again = false → closed_state (j_State j) = true → j' = j).

#[global] Instance sys_evolves_preorder again : PreOrder (sys_evolves again).
Proof.
  split.
  - intros j. by split_and!.
  - intros j1 j2 j3 (Hs & Hr & Ht) (Hs' & Hr' & Ht'). split_and!; [by etrans|by etrans|].
    intros Ha H1. specialize (Ht Ha H1). subst j2. by apply Ht'.
Qed.

Lemma closed_state_final a : closed_state a = true → final a = true.
Proof. by destruct a. Qed.

(** Without resubmissions nothing leads out of a closed state. *)
Lemma sys_edge_terminal a b : sys_edge false a b → closed_state a = false.
Proof. by destruct a, b. Qed.

Lemma sys_edge_final a b :
  rtc (sys_edge false) a b → final a = true → b = a ∨ b = JobStateCancelled.
Proof.
  induction 1 as [|a b c Hab _ IH]; [by left|]. intros Ha.
  assert (b = JobStateCancelled) as -> by (by destruct a, b). destruct IH as [->| ->]; auto.
Qed.

Lemma evolves_sys again j j' : evolves j j' → sys_evolves again j j'.
Proof.
  intros (Hs & Hr & Ht). split_and!; [done| |].
  - eapply rtc_subrel; [|exact Hr]. intros a b Hab. unfold sys_edge. by apply orb_True; left.
  - intros _ Hc. apply Ht. by rewrite (closed_state_final _ Hc).
Qed.

Lemma sys_edge_evolves again j j' :
  same_spec j j' → sys_edge again (j_State j) (j_State j') → sys_evolves again j j'.
Proof.
  intros Hs He. split_and!; [done|by apply rtc_once|]. intros -> Hc.
  by rewrite (sys_edge_terminal _ _ He) in Hc.
Qed.

Section system.
Context `{Env, !EnvLaws, CronLib} {St Qu : Type}.
Context `{!JobStore St, !JobsView St, !JobStoreSafe St}.
Context `{!Queue Qu, !QueueView Qu, !QueueLaws Qu}.
Context (auth : Authenticator).
#[local] Abbreviation W := (World St Qu Service).

Inductive sys_op :=
  | SysSched (op : sched_op)
  | SysCall (c : grpc_call)
  | SysCreate (body : result CreateJobRequest)
  | SysCancel (id : string)
  | SysGet (id : string)
  | SysList (state : string) (limit : Z).

Definition sys_perform (op : sys_op) : M W () :=
  match op with
  | SysSched op => perform op
  | SysCall c => serve_call auth c
  | SysCreate body => _ ← createJob body; mret ()
  | SysCancel id => _ ← cancelJob id; mret ()
  | SysGet id => _ ← getJob id; mret ()
  | SysList state limit => _ ← listJobs state limit; mret ()
  end.

(** A submission under a key that is taken. *)
Definition resubmits (w : W) (op : sys_op) : bool :=
  match op with
  | SysCreate (Ok req) =>
      negb (bool_decide (req_IdempotencyKey req = "")) &&
      key_used (g_store w) (req_IdempotencyKey req)
  | _ => false
  end.

(** Any operation, with resubmissions only if [again]. *)
Inductive sys_step (again : bool) : W → W → Prop :=
  | sys_step_op op w w' :
      (again = false → resubmits w op = false) → sys_perform op w = ((), w') → sys_step again w w'.

(** ** Its refinement *)

Context (again : bool).

Definition sys_moved (w w' : W) : Prop :=
  good w' ∧ (g_tick w ≤ g_tick w')%nat ∧
  ∀ k j, jobs (g_store w) !! k = Some j →
    ∃ j', jobs (g_store w') !! k = Some j' ∧ sys_evolves again j j'.

Lemma sys_moved_trans w1 w2 w3 : sys_moved w1 w2 → sys_moved w2 w3 → sys_moved w1 w3.
Proof.
  intros (_ & Hn & He) (Hg & Hn' & He'). split; [done|]. split; [lia|]. intros k j Hj.
  destruct (He k j Hj) as (j1 & Hj1 & ?). destruct (He' k j1 Hj1) as (j2 & ? & ?).
  exists j2. split; [done|by etrans].
Qed.

Lemma moved_sys w w' : moved w w' → sys_moved w w'.
Proof.
  intros (Hg & Hn & He). split; [done|]. split; [done|]. intros k j Hj.
  destruct (He k j Hj) as (j' & ? & ?). eauto using evolves_sys.
Qed.

(** As [hoare] of Lifecycle.v, along the edges of the system. *)
Definition sys_hoare {A} (P : gmap string Job → Prop) (m : M W A)
    (Q : A → gmap string Job → Prop) : Prop :=
  ∀ w, good w → P (jobs (g_store w)) →
    wp m (λ a w', sys_moved w w' ∧ Q a (jobs (g_store w'))) w.

Lemma sys_of_hoare {A} P (m : M W A) Q : hoare P m Q → sys_hoare P m Q.
Proof.
  intros Hm w Hg HP. eapply wp_mono; [by apply Hm|]. intros a w' [? ?]. eauto using moved_sys.
Qed.

Lemma sys_bind {A B} P R Q (m : M W A) (f : A → M W B) :
  sys_hoare P m R → (∀ a, sys_hoare (R a) (f a) Q) → sys_hoare P (m ≫= f) Q.
Proof.
  intros Hm Hf w Hg HP. apply wp_bind. eapply wp_mono; [by apply Hm|].
  intros a w' [Hw HR]. eapply wp_mono; [apply Hf; [apply Hw|done]|].
  intros b w'' [Hw' HQ]. split; [|done]. exact (sys_moved_trans _ _ _ Hw Hw').
Qed.

Lemma sys_keeps {A B} P (m : M W A) (f : A → M W B) Q :
  keeps m → (∀ a, sys_hoare P (f a) Q) → sys_hoare P (m ≫= f) Q.
Proof. intros Hm Hf. by eapply sys_bind; [apply sys_of_hoare, Hm|]. Qed.

Lemma sys_ret {A} P (a : A) : sys_hoare P (mret a) (λ _ _, True).
Proof. apply sys_of_hoare, refines_hoare, refines_ret. Qed.

Lemma sys_pre {A} (P P' : gmap string Job → Prop) (m : M W A) Q :
  sys_hoare P m Q → (∀ jm, P' jm → P jm) → sys_hoare P' m Q.
Proof. intros Hm HP w Hg HP'. apply Hm; [done|]. by apply HP. Qed.

Definition may_become (id : string) (st : JobState) (jm : gmap string Job) : Prop :=
  ∀ j, jm !! store_key St id = Some j → sys_edge again (j_State j) st.

Lemma sys_UpdateJobState id st f :
  sys_hoare (may_become id st) (callS (store_UpdateJobState id st f)) (λ _ _, True).
Proof.
  intros [n s q v ev rp] Hg HP. eapply wp_callS; [apply safe_UpdateJobState|].
  intros r n' s' (Hn & [[_ Hs]|(j & j' & Hj & _ & Hsp & <- & Hjs)]); cbn in *.
  { split; [|done]. by apply moved_sys, moved_same. }
  specialize (HP j Hj). pose proof Hg as [[Hk Hc] Hf]. cbn in Hk, Hc, Hf.
  split; [|done]. split; [|split; [done|]].
  - eapply good_insert; [done|done| | | |done].
    + destruct Hsp as [-> _]. by apply Hk.
    + by apply Hc.
    + intros m Hm Heq. rewrite <- Heq, Hf in Hj by lia. done.
  - cbn. intros k j1 Hj1. rewrite Hjs, lookup_insert. case_decide; [|by exists j1].
    subst k. simplify_eq. exists j'. split; [done|by apply sys_edge_evolves].
Qed.

Lemma sys_enqueueJob job :
  sys_hoare (may_become (j_ID job) JobStateQueued) (enqueueJob job) (λ _ _, True).
Proof.
  unfold enqueueJob. apply sys_keeps; [apply keeps_askW|]. intros now.
  apply sys_keeps; [apply keeps_Enqueue|]. intros [e|]; [apply sys_ret|].
  apply sys_keeps; [apply keeps_Emit|]. intros _.
  eapply sys_bind; [apply sys_UpdateJobState|]. intros [e|]; apply sys_ret.
Qed.

(** The job a submission gets as its answer may be queued. *)
Lemma wp_sys_CreateJob job m n s q v ev rp :
  good (mkWorld n s q v ev rp : W) → (m < n)%nat →
  j_ID job = env_uuid m → jobs s !! env_uuid m = None → j_State job = JobStateScheduled →
  (again = false → j_IdempotencyKey job = "" ∨ key_used s (j_IdempotencyKey job) = false) →
  wp (callS (store_CreateJob job)) (λ r w',
    sys_moved (mkWorld n s q v ev rp) w' ∧
    ∀ j, r = Ok j → may_become (j_ID j) JobStateQueued (jobs (g_store w')))
    (mkWorld n s q v ev rp).
Proof.
  intros Hg Hm Hid Hnone Hst Hkey.
  assert (unused_id job n s) as Hfree.
  { unfold unused_id. rewrite Hid, safe_key_uuid, (bool_decide_false _ (env_uuid_ne m)). done. }
  eapply wp_callS; [by apply safe_CreateJob|]. intros r n' s' (Hn & Hjs & Hr). cbn in *. split.
  - destruct Hjs as [Hjs|(id & j' & Hidc & Hj & Hjs)]; [by apply moved_sys, moved_same|].
    rewrite Hid, (bool_decide_false _ (env_uuid_ne m)) in Hidc. subst id.
    apply moved_sys. split; [|split; [done|]].
    + eapply good_insert; [done|done|exact Hj|apply safe_key_uuid| |done].
      intros m' Hm' ?%env_uuid_inj. lia.
    + cbn. rewrite Hjs. by apply evolve_all_fresh.
  - intros j Hj j0 Hj0. unfold sys_edge. destruct again eqn:Ha; [by apply orb_True; right|].
    destruct (Hr (Hkey eq_refl) ltac:(by rewrite Hst) j j0 Hj Hj0) as [_ ->]. by rewrite Hst.
Qed.

Lemma sys_submit_job job now m n s q v ev rp :
  good (mkWorld n s q v ev rp : W) → (m < n)%nat →
  j_ID job = env_uuid m → jobs s !! env_uuid m = None → j_State job = JobStateScheduled →
  (again = false → j_IdempotencyKey job = "" ∨ key_used s (j_IdempotencyKey job) = false) →
  wp (submit_job job now) (λ _ w', sys_moved (mkWorld n s q v ev rp) w') (mkWorld n s q v ev rp).
Proof.
  intros Hg Hm Hid Hnone Hst Hkey. unfold submit_job. apply wp_bind.
  eapply wp_mono; [by eapply wp_sys_CreateJob|]. intros [j|e] w' [Hw Hr]; [|by apply wp_ret].
  assert (∀ m' : M W Response,
    sys_hoare (may_become (j_ID j) JobStateQueued) m' (λ _ _, True) →
    wp m' (λ _ w'', sys_moved (mkWorld n s q v ev rp) w'') w') as Hgo.
  { intros m' Hm'. eapply wp_mono; [apply Hm'; [apply Hw|by apply Hr]|].
    intros a w'' [Hw' _]. exact (sys_moved_trans _ _ _ Hw Hw'). }
  apply Hgo. do 2 (apply sys_keeps; [apply keeps_Emit|]; intros _).
  destruct (j_ScheduledAt j) as [t|]; [|apply sys_ret].
  destruct (negb (After t now)); [|apply sys_ret].
  eapply sys_bind; [apply sys_enqueueJob|]. intros [?|?]; apply sys_ret.
Qed.

Lemma sys_createJob body (w : W) :
  good w → (again = false → resubmits w (SysCreate body) = false) →
  wp (createJob body) (λ _ w', sys_moved w w') w.
Proof.
  destruct w as [n s q v ev rp]. intros Hg Hkey. unfold createJob.
  destruct body as [req|e]; [|by apply wp_ret, moved_sys, moved_refl].
  apply wp_bind, wp_askW. destruct (request_error _ req) as [[msg cause]|].
  { apply wp_ret, moved_sys, moved_same; [done|lia|done]. }
  do 2 apply wp_bind, wp_askW. destruct (first_run _ _) as [t|e].
  2:{ apply wp_ret, moved_sys, moved_same; [done|lia|done]. }
  assert (moved (mkWorld n s q v ev rp)
    (mkWorld (Datatypes.S (Datatypes.S (Datatypes.S n))) s q v ev rp)) as Hm.
  { apply moved_same; [done|lia|done]. }
  eapply wp_mono; [eapply sys_submit_job; [apply Hm|by apply Nat.lt_succ_diag_r|done| |done|]|].
  - apply Hg. cbn. lia.
  - intros Ha. specialize (Hkey Ha). cbn in Hkey. cbn. apply andb_false_iff in Hkey as [Hk|Hk]; [|by right].
    left. apply negb_false_iff, bool_decide_eq_true in Hk. exact Hk.
  - intros a w' Hw'. eapply sys_moved_trans; [by apply moved_sys|exact Hw'].
Qed.

Lemma sys_cancelJob id (w : W) : good w → wp (cancelJob id) (λ _ w', sys_moved w w') w.
Proof.
  intros Hg. assert (sys_hoare (λ _, True) (cancelJob id : M W Response) (λ _ _, True)) as Hm.
  { unfold cancelJob. eapply sys_bind; [apply sys_of_hoare, hoare_GetJob|].
    intros [j|e]; [|case_bool_decide; apply sys_ret].
    destruct (cancel_terminal (j_State j)) eqn:Ht; [apply sys_ret|].
    assert (∀ st jm, sys_edge again (j_State j) st →
      (True ∧ ∀ j', Ok j = Ok j' → jm !! store_key St id = Some j') → may_become id st jm) as Hmay.
    { intros st jm Hed [_ Hjm] j' Hj'. rewrite (Hjm j eq_refl) in Hj'. by simplify_eq. }
    destruct (_ || _) eqn:Hrun.
    - eapply sys_bind; [eapply sys_pre; [apply sys_UpdateJobState|]|].
      + intros jm. apply Hmay. unfold sys_edge. apply orb_True; right. cbn. by rewrite Hrun.
      + intros ?. apply sys_keeps; [apply keeps_Emit|]. intros _. apply sys_ret.
    - apply sys_keeps; [apply keeps_askW|]. intros now.
      eapply sys_bind; [eapply sys_pre; [apply sys_UpdateJobState|]|].
      + intros jm. apply Hmay. unfold sys_edge. apply orb_True; right. cbn. by destruct (j_State j).
      + intros ?. apply sys_keeps; [apply keeps_Emit|]. intros _. apply sys_ret. }
  eapply wp_mono; [by apply Hm|]. by intros a w' [? _].
Qed.

Lemma refines_listJobs st limit : refines (listJobs st limit : M W Response).
Proof.
  unfold listJobs. apply refines_bind; [|intros [?|?]; apply refines_ret].
  eapply (hoare_refines (λ _, True)); [|done]. eapply hoare_list, safe_ListJobs.
Qed.

Lemma sys_perform_moved op (w : W) :
  good w → (again = false → resubmits w op = false) →
  wp (sys_perform op) (λ _ w', sys_moved w w') w.
Proof.
  intros Hg Hkey. destruct op as [op|c|body|id|id|st limit]; cbn [sys_perform].
  - eapply wp_mono; [by apply refines_perform|]. intros a w'. apply moved_sys.
  - destruct (serve_call_step auth c w) as [Hsame|[_ Hstep]]; unfold wp.
    + rewrite Hsame. by apply moved_sys, moved_refl.
    + apply moved_sys, reachable_moved; [by apply rtc_once|done].
  - apply wp_bind. eapply wp_mono; [by apply sys_createJob|]. intros r w' Hw. by apply wp_ret.
  - apply wp_bind. eapply wp_mono; [by apply sys_cancelJob|]. intros r w' Hw. by apply wp_ret.
  - apply wp_bind. eapply wp_mono; [eapply (keeps_refines (getJob id)); [|done]|].
    + unfold getJob. keeps_all.
    + intros r w' Hw. by apply wp_ret, moved_sys.
  - apply wp_bind. eapply wp_mono; [eapply (refines_listJobs st limit); done|].
    intros r w' Hw. by apply wp_ret, moved_sys.
Qed.

(** C6: the whole system refines an extended job lifecycle.  Let the processes
    handle, in any order, submissions and cancellations, RPCs of workers (forged
    ones included), deliveries and rounds of the scheduler, over a store whose
    calls may fail.  No job disappears, what its submitter chose never changes,
    and its state moves along the edges of the scheduler or of the API.  As long
    as no idempotency key is submitted twice, a COMPLETED, CANCELLED or EXPIRED
    job is never touched again, and a FAILED or TIMEOUT job can only become
    CANCELLED; a submission under a used key, however, puts the stored job back
    into the queue, whatever its state. *)
Theorem system_lifecycle (w w' : W) :
  good w → rtc (sys_step again) w w' →
  good w' ∧
  ∀ id j, jobs (g_store w) !! id = Some j →
    ∃ j', jobs (g_store w') !! id = Some j' ∧ same_spec j j' ∧
      rtc (sys_edge again) (j_State j) (j_State j') ∧
      (again = false →
         (closed_state (j_State j) = true → j' = j) ∧
         (final (j_State j) = true → j_State j' = j_State j ∨ j_State j' = JobStateCancelled)).
Proof.
  intros Hg Hr. assert (sys_moved w w') as (Hg' & _ & He).
  { induction Hr as [w|w w1 w2 [op w1' w2' Hre Hop] _ IH]; [by apply moved_sys, moved_refl|].
    pose proof (wp_eq _ _ _ _ _ (sys_perform_moved op w1' Hg Hre) Hop) as Hm.
    eapply sys_moved_trans; [exact Hm|]. apply IH, Hm. }
  split; [done|]. intros id j Hj. destruct (He id j Hj) as (j' & Hj' & Hs & Hed & Ht).
  exists j'. split_and!; try done. intros Ha. split; [by apply Ht|].
  intros Hf. rewrite Ha in Hed. by apply sys_edge_final.
Qed.

(** A sequence of operations is a path. *)
Fixpoint all_new (w : W) (ops : list sys_op) : Prop :=
  match ops with
  | [] => True
  | op :: ops => resubmits w op = false ∧ all_new (sys_perform op w).2 ops
  end.

Lemma sys_path ops (w : W) :
  (again = false → all_new w ops) → rtc (sys_step again) w (forM_ ops sys_perform w).2.
Proof.
  revert w. induction ops as [|op ops IH]; intros w Hnew; [done|]. cbn. unfold mbind, M_bind.
  destruct (sys_perform op w) as [[] w'] eqn:Hop. eapply rtc_l.
  - eapply sys_step_op; [|exact Hop]. intros Ha. by destruct (Hnew Ha).
  - apply IH. intros Ha. destruct (Hnew Ha) as [_ Hn]. by rewrite Hop in Hn.
Qed.
End system.

(** ** A race between the processes

    [cancelJob] reads the job and writes it later without a condition; the
    scheduler is another process, and may do anything in between. *)
Section race.
Context `{Env, !EnvLaws, CronLib} {St Qu : Type}.
Context `{!JobStore St, !StoreView St, !JobStoreLaws St}.
Context `{!Queue Qu, !QueueView Qu, !QueueLaws Qu}.
#[local] Abbreviation W := (World St Qu Service).

(** [cancelJob] from the read on. *)
Definition cancel_read (id : string) (r : result Job) : M W Response :=
  match r with
  | Err e =>
      if bool_decide (e = ErrNotFound)
      then mret (writeErr StatusNotFound "job not found" None)
      else mret (writeErr StatusInternalServerError "" (Some e))
  | Ok job =>
      if cancel_terminal (j_State job)
      then mret (writeErr StatusConflict "job already terminal" None)
      else if bool_decide (j_State job = JobStateRunning) ||
              bool_decide (j_State job = JobStateAssigned)
      then
        _ ← callS (store_UpdateJobState id JobStateCancelRequested []);
        _ ← Emit EventJobCancelRequested id (j_ExecutionID job) (j_WorkerID job)
              (j_Attempt job) None;
        mret (mkResponse StatusAccepted (BodyStatus "CANCEL_REQUESTED"))
      else
        now ← askW env_now;
        _ ← callS (store_UpdateJobState id JobStateCancelled
                     [("completed_at", ATimePtr (Some now))]);
        _ ← Emit EventJobCancelled id "" "" (j_Attempt job) None;
        mret (mkResponse StatusOK (BodyStatus "CANCELLED"))
  end.

Lemma cancelJob_parts id : (cancelJob id : M W Response) = r ← callS (store_GetJob id); cancel_read id r.
Proof. done. Qed.

Definition cancel_interleaved (id : string) (op : sched_op) : M W Response :=
  r ← callS (store_GetJob id);
  _ ← perform op;
  cancel_read id r.

(** A running job is CANCEL_REQUESTED afterwards, whatever the scheduler did to
    it in between, its completion included; no worker will confirm that. *)
Lemma cancel_overwrites id op j (w : W) :
  good w → jobs (g_store w) !! id = Some j → j_State j = JobStateRunning →
  wp (cancel_interleaved id op) (λ r w', r_status r = StatusAccepted ∧
    ∃ j', jobs (g_store w') !! id = Some j' ∧ same_spec j j' ∧
      j_State j' = JobStateCancelRequested) w.
Proof.
  destruct w as [n s q v ev rp]. intros Hg Hj Hst. cbn in Hj. unfold cancel_interleaved. apply wp_bind.
  apply wp_GetJob. intros n1 Hn1. rewrite Hj. apply wp_bind.
  eapply wp_mono; [apply refines_perform|].
  { apply (moved_same n s q v ev rp); [done|done|done]. }
  intros [] [n2 s2 q2 v2 ev2 rp2] (_ & _ & He). destruct (He id j Hj) as (j1 & Hj1 & Hs1 & _).
  unfold cancel_read. rewrite Hst. cbn [cancel_terminal]. rewrite bool_decide_true by done. cbn [orb].
  run. eapply wp_UpdateJob; [done|]. intros n3 s3 t3 Hn3 _ Hj3. run. cbn [g_store]. split; [done|].
  rewrite Hj3, lookup_insert_eq. eexists. split; [done|]. split.
  - etrans; [exact Hs1|apply update_job_spec].
  - apply update_job_state.
Qed.
End race.

(** ** Runs *)

#[local] Existing Instance sample_env.
#[local] Existing Instance sample_env_laws.
#[local] Existing Instance sample_cron.
#[local] Existing Instance sample_json.

Definition run_auth : Authenticator := auth_New ["k"] ["t"] false.

(** With a used key a completed job is queued again, and a DELETE cancels a job
    that has failed. *)
Example beyond_the_lifecycle :
  let w1 := (sys_perform run_auth (SysCreate (Ok (sample_request "k"))) completed_world).2 in
  let w2 := (sys_perform run_auth (SysCancel "j1")
               (sample_world [sample_job "j1" JobStateFailed "w1" 3] [])).2 in
  resubmits completed_world (SysCreate (Ok (sample_request "k"))) = true ∧
  (j_State <$> jobs (g_store completed_world) !! "j1") = Some JobStateCompleted ∧
  (j_State <$> jobs (g_store w1) !! "j1") = Some JobStateQueued ∧
  (j_State <$> jobs (g_store w2) !! "j1") = Some JobStateCancelled.
Proof. by vm_compute. Qed.

(** On a database that loses an answer: the API submits a job and cancels
    another, which is delivered and reported. *)
#[local] Existing Instance losing_pg.

Definition system_ops : list sys_op :=
  [SysCreate (Ok (sample_request "")); SysSched (OpDeliver (queued_job "j1")); SysCancel "j1";
   SysSched (OpResult "j1" "x" "w1" 1 success_result); SysSched OpPromote].

Lemma system_lifecycle_witness :
  let w' := (forM_ system_ops (sys_perform run_auth) pg_world).2 in
  ∃ j', jobs (g_store w') !! "j1" = Some j' ∧ rtc (sys_edge false) JobStateQueued (j_State j').
Proof.
  intros w'. pose proof (pg_with_laws (λ n, if Nat.eqb n 8 then AnswerLost (External "connection reset")
    else Executed)) as Hlaws.
  destruct (system_lifecycle run_auth false pg_world w' pg_world_good) as [_ He].
  { apply sys_path. intros _. by vm_compute. }
  destruct (He "j1" (scanJob "j1" (sample_row JobStateQueued None 5))) as (j' & Hj' & _ & Hed & _).
  { by vm_compute. }
  exists j'. by split.
Defined.

(** The success that is reported between the two statements of a DELETE is
    lost: the job was completed and stays in CANCEL_REQUESTED. *)
Example cancel_loses_completion :
  let w := sample_world [sample_job "j1" JobStateRunning "w1" 1] [sample_conn "w1" 1] in
  let op := OpResult "j1" "x" "w1" 1 success_result in
  (j_State <$> jobs (g_store (perform op w).2) !! "j1") = Some JobStateCompleted ∧
  (j_State <$> jobs (g_store (cancel_interleaved "j1" op w).2) !! "j1") =
    Some JobStateCancelRequested.
Proof. by vm_compute. Qed.
