(* ===== verification/KafkaSubmission.v ===== *)
(** * A submission by way of Kafka

    The queue of a deployment is Kafka: the API's [createJob] (Api.v) writes a
    message to the topic (Kafka.v), and the sessions of the scheduler's consumer
    (KafkaDelivery.v) hand it to [handleQueuedJob].  The write may fail, and
    other producers and consumers of the topic do what they like. *)

From stdpp Require Import countable.
From S2P Require Import Prelude.
From S2P Require Import Float64.
From S2P Require Import Domain.
From S2P Require Import Ports.
From S2P Require Import Fixture.
From S2P Require Import MemStore.
From S2P Require Import MemQueue.
From S2P Require Import Kafka.
From S2P Require Import KafkaFixture.
From S2P Require Import Calls.
From S2P Require Import WorkerClient.
From S2P Require Import Scheduler.
From S2P Require Import Lifecycle.
From S2P Require Import Control.
From S2P Require Import Assign.
From S2P Require Import KafkaDelivery.
From S2P Require Import Api.

Section submission.
Context `{Env, !EnvLaws, CronLib, JobCodec}.
Context {K : Type} `{!KafkaClient K, !KafkaView K, !KafkaClientLaws K}.
Context {St : Type} `{!JobStore St, !StoreView St, !JobStoreLaws St}.
#[local] Abbreviation W := (World St (KafkaQueue K) Service).

(** The job [m] is the last of what was appended to partition [p] between [k]
    and [k'], up to other producers. *)
Definition appended (m : QueuedJob) (p : nat) (k k' : K) : Prop :=
  ∃ body, klog k p ++ [body] `prefix_of` klog k' p ∧ decoded body = Some m.

Lemma wp_kafka_Enqueue job (Q : option GoError → W → Prop) n s q v ev rp :
  kq_closed q = false → (∀ t, portable (set_q_EnqueuedAt t job)) →
  (∀ r n' q', kq_closed q' = false → keeps_reader (kq_client q) (kq_client q') →
     (r = None → ∃ t p, appended (set_q_EnqueuedAt t job) p (kq_client q) (kq_client q')) →
     Q r (mkWorld n' s q' v ev rp)) →
  wp (callQ (queue_Enqueue job)) Q (mkWorld n s q v ev rp).
Proof.
  intros Hc Hp HQ. cbn [queue_Enqueue kafka_Queue].
  eapply (wp_callQ _ (λ r nq, kq_closed nq.2 = false ∧ keeps_reader (kq_client q) (kq_client nq.2) ∧
    (r = None → ∃ t p, appended (set_q_EnqueuedAt t job) p (kq_client q) (kq_client nq.2)))).
  2:{ intros r n' q' (? & ? & ?). by apply HQ. }
  assert (∀ t n', wp (match json_Marshal (set_q_EnqueuedAt t job) with
    | Err e => mret (Some e)
    | Ok body =>
        now ← ask env_now;
        callK (kafka_WriteMessages (mkOutMessage (q_JobID (set_q_EnqueuedAt t job)) body
          [("priority", decimal (q_Priority (set_q_EnqueuedAt t job)));
           ("job_id", q_JobID (set_q_EnqueuedAt t job))] now))
    end) (λ r nq, kq_closed nq.2 = false ∧ keeps_reader (kq_client q) (kq_client nq.2) ∧
      (r = None → ∃ t p, appended (set_q_EnqueuedAt t job) p (kq_client q) (kq_client nq.2)))
    (n', q)) as Hwrite.
  { intros t n'. destruct (json_Marshal_portable _ (Hp t)) as [body Hb]. rewrite Hb. wp_step. wp_step.
    match goal with |- wp (callK (kafka_WriteMessages ?m)) _ (?n, _) =>
      pose proof (Write_spec m n (kq_client q)) as Hw end.
    unfold wp, callK in *. destruct (kafka_WriteMessages _ _) as [r [n2 k2]]. cbn in *.
    destruct Hw as (_ & Hg & Hpos & Hcm & Hr). split; [done|]. split; [done|]. intros Hn.
    destruct (Hr Hn) as [p Hpre]. exists t, p, body. split; [done|]. unfold decoded.
    by rewrite (json_roundtrip _ _ (Hp t) Hb). }
  unfold kafka_Enqueue. wp_step. wp_step. rewrite Hc. wp_step. destruct (IsZero _).
  - wp_steps. apply Hwrite.
  - wp_steps. specialize (Hwrite (q_EnqueuedAt job)). by destruct job.
Qed.

(** What was appended is handed over by every session that gets past it. *)
Lemma appended_handed handler m p k rs (w1 w' : W) :
  leaves_reader handler → appended m p k (client w1) →
  (kpos (client w1) p ≤ length (klog k p))%nat →
  session handler rs w1 w' → (length (klog (client w1) p) ≤ kpos (client w') p)%nat →
  m ∈ omap (handed p) rs.
Proof.
  intros Hh (body & [tl Hlog] & Hd) Hpos Hs Hlen.
  pose proof (session_pos handler Hh _ _ _ p Hs) as Hp.
  rewrite (session_handed handler Hh _ _ _ p Hs). apply list_elem_of_omap. exists body. split; [|done].
  apply (list_elem_of_lookup_2 _ (length (klog k p) - kpos (client w1) p)).
  rewrite Hlog, !length_app in Hlen. cbn in Hlen.
  rewrite lookup_take, decide_True by lia. rewrite lookup_drop.
  replace (kpos (client w1) p + (length (klog k p) - kpos (client w1) p))%nat
    with (length (klog k p)) by lia.
  apply (log_lookup (client w1)); [by apply (session_log handler Hh rs)|].
  rewrite Hlog, <- app_assoc. by apply list_lookup_middle.
Qed.

(** What the API leaves behind: the job is QUEUED with its message in the log,
    or SCHEDULED and due since [now]. *)
Definition handed_in (req : CreateJobRequest) (w : W) (r : Response) (w1 : W) : Prop :=
  ∃ id j, jobs (g_store w) !! id = None ∧ jobs (g_store w1) = <[id := j]> (jobs (g_store w)) ∧
    same_spec (set_CreatedAt (j_CreatedAt j) (job_of req id)) j ∧ j_Attempt j = 0 ∧
    kpos (client w1) = kpos (client w) ∧
    ((r_status r = StatusCreated ∧ j_State j = JobStateQueued ∧
      ∃ t p, appended (queued_of (job_of req id) t) p (client w) (client w1)) ∨
     (r_status r = StatusInternalServerError ∧ j_State j = JobStateScheduled ∧
      ∃ t, ∀ now, t ≤ now → due now j = true)).

Lemma wp_createJob_kafka (w : W) req :
  good w → valid_request req →
  sc_Type (default_schedule (req_Schedule req)) = ScheduleImmediate →
  req_IdempotencyKey req = "" ∨ idem (g_store w) !! req_IdempotencyKey req = None →
  kq_closed (g_queue w) = false → (∀ id t, portable (queued_of (job_of req id) t)) →
  wp (createJob (Ok req)) (λ r w1, handed_in req w r w1) w.
Proof.
  destruct w as [n s q v ev rp]. intros [_ Hf] Hv Hsch Hkey Hc Hport. cbn in Hf, Hc, Hkey.
  unfold createJob. run. rewrite (proj2 (request_error_none _ _) Hv). run.
  unfold first_run. rewrite bool_decide_true by done.
  set (id := env_uuid (Datatypes.S (Datatypes.S n))). set (now := env_now (Datatypes.S n)).
  assert (jobs s !! id = None) as Hfresh by (apply Hf; lia).
  unfold submit_job. apply wp_bind, wp_CreateJob_new; [apply env_uuid_ne|done|].
  intros n1 s1 t1 Hn1 Hx1 Hw1 j1 Hj1. cbn in Hj1. run. cbn [j_ScheduledAt j1 set_UpdatedAt
    set_CreatedAt set_ScheduledAt]. unfold After. rewrite bool_decide_false by lia. cbn [negb]. run.
  unfold enqueueJob. run. apply wp_kafka_Enqueue; [done|intros t; apply (Hport id t)|].
  intros [e|] n2 q2 Hc2 (Hg2 & Hp2 & Hcm2) Hq2; run.
  - exists id, j1. cbn [g_store]. split_and!; [done|exact Hj1|by repeat split|done|done|]. right.
    split; [done|]. split; [done|]. exists now. intros t Ht. cbn. unfold After.
    by rewrite bool_decide_false by lia.
  - eapply wp_UpdateJob; [rewrite Hj1; apply lookup_insert_eq|]. intros n3 s3 t3 Hn3 _ Hj3. run.
    rewrite Hj1, insert_insert_eq in Hj3. eexists id, _. cbn [g_store]. split; [done|].
    split; [exact Hj3|]. split; [by repeat split|]. split; [done|]. split; [done|]. left.
    split; [done|]. split; [apply update_job_state|]. destruct (Hq2 eq_refl) as (t & p & Ha).
    exists t, p. exact Ha.
Qed.

(** C26: a submission gets to the scheduler through Kafka.  Take a valid request
    for an immediate job under a new key, a queue that is open, and a reader that
    is not ahead of the log.  Exactly one job is created, as requested.  If the
    answer is 201, it is QUEUED, and every session of the consumer (however its
    rounds interleave with other producers, commits that fail and messages that
    are no jobs) that gets past what is in the log now has handed a message of
    this job, with attempt 0, to [handleQueuedJob].  If the write fails, the
    answer is 500 and the job is nevertheless there: SCHEDULED and due, so that
    the polling loop will enqueue it. *)
Theorem kafka_submission_delivered (w : W) req :
  good w → valid_request req →
  sc_Type (default_schedule (req_Schedule req)) = ScheduleImmediate →
  req_IdempotencyKey req = "" ∨ idem (g_store w) !! req_IdempotencyKey req = None →
  kq_closed (g_queue w) = false → (∀ id t, portable (queued_of (job_of req id) t)) →
  (∀ p, (kpos (client w) p ≤ length (klog (client w) p))%nat) →
  wp (createJob (Ok req)) (λ r w1, ∃ id j,
    jobs (g_store w) !! id = None ∧ jobs (g_store w1) = <[id := j]> (jobs (g_store w)) ∧
    same_spec (set_CreatedAt (j_CreatedAt j) (job_of req id)) j ∧ j_Attempt j = 0 ∧
    ((r_status r = StatusCreated ∧ j_State j = JobStateQueued ∧
      ∃ t p, ∀ rs w', session handleQueuedJob rs w1 w' →
        (length (klog (client w1) p) ≤ kpos (client w') p)%nat →
        queued_of (job_of req id) t ∈ omap (handed p) rs) ∨
     (r_status r = StatusInternalServerError ∧ j_State j = JobStateScheduled ∧
      ∃ t, ∀ now, t ≤ now → due now j = true))) w.
Proof.
  intros Hg Hv Hsch Hkey Hc Hport Hpos.
  eapply wp_mono; [by apply wp_createJob_kafka|].
  intros r w1 (id & j & Hnew & Hjs & Hs & Ha & Hp & Hr). exists id, j. split_and!; [done..|].
  destruct Hr as [(Hst & Hq & t & p & Happ)|Hr]; [left|by right]. split; [done|]. split; [done|].
  exists t, p. intros rs w' Hs' Hlen.
  eapply (appended_handed handleQueuedJob _ p (client w) rs w1 w');
    [apply handleQueuedJob_leaves_reader|done| |done|done]. rewrite Hp. apply Hpos.
Qed.
End submission.

(** ** On a concrete broker *)

#[local] Existing Instance sample_env.
#[local] Existing Instance sample_env_laws.
#[local] Existing Instance sample_cron.
#[local] Existing Instance bits_codec.

Definition kafka_world : World MemStore (KafkaQueue Broker) Service :=
  let w := sample_world [] [sample_conn "w1" 0] in
  mkWorld 0 (g_store w)
    (mkKafkaQueue (mkKafkaQueueConfig ["k:9092"] "chronos.jobs" "chronos-scheduler")
       (mkBroker [""] 0 (λ _, 0%nat)) false []) (g_svc w) [] [].

(** The topic holds a message that is no job; the second round of the consumer
    delivers the submission to the worker. *)
Lemma kafka_submission_delivered_witness :
  let w1 := (createJob (Ok (sample_request "")) kafka_world).2 in
  let r1 := kafka_round None handleQueuedJob w1 in
  let r2 := kafka_round None handleQueuedJob r1.2 in
  let id := sample_uuid 2 in
  (∃ t p, queued_of (job_of (sample_request "") id) t ∈ omap (handed p) [r1.1; r2.1]) ∧
  (j_State <$> jobs (g_store w1) !! id) = Some JobStateQueued ∧
  (j_State <$> jobs (g_store r2.2) !! id) = Some JobStateRunning.
Proof.
  intros w1 r1 r2 id. split; [|split; by vm_compute].
  destruct (kafka_submission_delivered kafka_world (sample_request ""))
    as (id' & j & _ & Hjs & _ & _ & [(_ & _ & t & p & Hs)|(Hr & _)]);
    [|apply sample_request_valid|done|by left|done|done| | |by vm_compute in Hr].
  - exact (good_sample_world [] [sample_conn "w1" 0] (NoDup_nil_2) (Forall_nil_2 _)).
  - intros p. cbn. case_bool_decide; cbn; lia.
  - assert (is_Some (jobs (g_store w1) !! id)) as Hid by (vm_compute; by eexists).
    change (g_store (createJob (Ok (sample_request "")) kafka_world).2) with (g_store w1) in Hjs.
    rewrite Hjs in Hid. apply lookup_insert_is_Some in Hid as [->|[_ [? Hid]]]; [|by vm_compute in Hid].
    exists t, p. apply (Hs [r1.1; r2.1] r2.2); [by repeat constructor|].
    cbn [klog kpos broker_view]. case_bool_decide; [by vm_compute|done].
Defined.
