(* ===== verification/Endpoints.v ===== *)
(** * internal/api: health, queue backends and the analytics endpoints

    [healthz], [readyz] and [queueBackends] of server.go, [ParseRange] of
    internal/analytics/query.go and the handlers of internal/api/analytics.go.
    ClickHouse behind the interface [Querier] is a parameter, and so are
    [time.Parse], [time.ParseDuration] and [strconv.ParseFloat]; the state of a
    handler is the list of the ranges it has queried. *)

From S2P Require Import Prelude.
From S2P Require Import Float64.
From S2P Require Import Domain.
From S2P Require Import Ports.
From S2P Require Import Fixture.

(** analytics.TimeRange *)
Record TimeRange := mkTimeRange { tr_From : time; tr_To : time }.

(** [t.Sub(u)] saturates. *)
Definition time_sub (t u : time) : Duration :=
  Z.max (- 2 ^ 63) (Z.min (2 ^ 63 - 1) (t - u)).

(** [R] is what a query returns. *)
Class Analytics (R : Type) := {
  Parse_RFC3339 : string → result time;
  Parse_Duration : string → option Duration;
  Parse_Float : string → option float64;
  q_Throughput : nat → TimeRange → string → result R;
  q_Latency : nat → TimeRange → result R;
  q_Failures : nat → TimeRange → result R;
  q_Workers : nat → TimeRange → result R;
  q_Queue : nat → TimeRange → result R;
  q_Scheduler : nat → TimeRange → result R;
  q_Capacity : nat → TimeRange → float64 → result R;
  q_Anomalies : nat → TimeRange → TimeRange → result R;
}.

(** A response with its status, and the body or the error that is written. *)
Record Reply (R : Type) := mkReply { rp_status : Z; rp_body : result R }.
Arguments mkReply {R} _ _.
Arguments rp_status {R} _.
Arguments rp_body {R} _.

Section endpoints.
Context `{Env} {R : Type} `{!Analytics R}.

(** The ranges of the queries so far. *)
#[local] Abbreviation A := (M (nat * list (list TimeRange))).

Definition query (ranges : list TimeRange) (f : nat → result R) : A (result R) :=
  upd (λ l, l ++ [ranges]);; ask f.

(** The result of a query as a response. *)
Definition answer (r : result R) : Reply R :=
  match r with Err e => mkReply 502 (Err e) | Ok v => mkReply 200 (Ok v) end.

Definition unavailable : Reply R :=
  mkReply 503 (Err (Errorf "analytics unavailable (ClickHouse not configured)" [])).

Definition ParseRange (from to : string) (defaultWindow : Duration) : A (result TimeRange) :=
  now ← ask env_now;
  let tr := mkTimeRange (time_add now (dur_neg defaultWindow)) now in
  match (if bool_decide (from = "") then Ok tr
         else match Parse_RFC3339 from with
              | Err e => Err (Wrapf "invalid from: %w" e)
              | Ok t => Ok (mkTimeRange t (tr_To tr))
              end) with
  | Err e => mret (Err e)
  | Ok tr =>
      match (if bool_decide (to = "") then Ok tr
             else match Parse_RFC3339 to with
                  | Err e => Err (Wrapf "invalid to: %w" e)
                  | Ok t => Ok (mkTimeRange (tr_From tr) t)
                  end) with
      | Err e => mret (Err e)
      | Ok tr =>
          if negb (After (tr_To tr) (tr_From tr))
          then mret (Err (Errorf "to must be after from" []))
          else mret (Ok tr)
      end
  end.

(** The common shape of the handlers: [available] says whether a querier is
    attached, then the range is parsed and the query made. *)
Definition ranged (available : bool) (from to : string) (def : Duration)
    (f : TimeRange → nat → result R) : A (Reply R) :=
  if negb available then mret unavailable
  else
    tr ← ParseRange from to def;
    match tr with
    | Err e => mret (mkReply 400 (Err e))
    | Ok tr => r ← query [tr] (f tr); mret (answer r)
    end.

Definition analyticsThroughput (available : bool) (from to grain : string) : A (Reply R) :=
  let grain := if bool_decide (grain = "") then "minute" else grain in
  ranged available from to Hour (λ tr n, q_Throughput n tr grain).
Definition analyticsLatency (available : bool) (from to : string) : A (Reply R) :=
  ranged available from to Hour (λ tr n, q_Latency n tr).
Definition analyticsFailures (available : bool) (from to : string) : A (Reply R) :=
  ranged available from to Hour (λ tr n, q_Failures n tr).
Definition analyticsWorkers (available : bool) (from to : string) : A (Reply R) :=
  ranged available from to Hour (λ tr n, q_Workers n tr).
Definition analyticsQueue (available : bool) (from to : string) : A (Reply R) :=
  ranged available from to Hour (λ tr n, q_Queue n tr).
Definition analyticsScheduler (available : bool) (from to : string) : A (Reply R) :=
  ranged available from to (24 * Hour) (λ tr n, q_Scheduler n tr).

Definition analyticsCapacity (available : bool) (from to targetPerWorker : string) :
    A (Reply R) :=
  let target :=
    if bool_decide (targetPerWorker = "") then f64_of_Z 30
    else default (f64_of_Z 30) (Parse_Float targetPerWorker) in
  ranged available from to (24 * Hour) (λ tr n, q_Capacity n tr target).

Definition analyticsAnomalies (available : bool) (from to window : string) : A (Reply R) :=
  if negb available then mret unavailable
  else
    now ← ask env_now;
    let w := if bool_decide (window = "") then 15 * Minute
             else default (15 * Minute) (Parse_Duration window) in
    let current := mkTimeRange (time_add now (dur_neg w)) now in
    let baseline := mkTimeRange (time_add now (dur_mul (-2) w)) (time_add now (dur_neg w)) in
    ranges ← (if bool_decide (from = "") then mret (current, baseline)
              else
                tr ← ParseRange from to w;
                match tr with
                | Err _ => mret (current, baseline)
                | Ok tr =>
                    let span := time_sub (tr_To tr) (tr_From tr) in
                    mret (tr, mkTimeRange (time_add (tr_From tr) (dur_neg span)) (tr_From tr))
                end);
    let '(current, baseline) := ranges in
    r ← query [current; baseline] (λ n, q_Anomalies n current baseline);
    mret (answer r).

(** The health endpoints; [ping] is the database of the store, if it has one,
    and the result of its ping. *)
Definition healthz : Reply string := mkReply 200 (Ok "ok").
Definition readyz (ping : option (option GoError)) (queueName : string) : Reply (string * string) :=
  match ping with
  | Some (Some err) => mkReply 503 (Err err)
  | _ => mkReply 200 (Ok ("ready", queueName))
  end.

(** ** Facts *)

(** A parsed range is not empty, and it is what was asked for. *)
Lemma wp_ParseRange from to def n l :
  wp (ParseRange from to def) (λ r ns', ns'.2 = l ∧
    match r with
    | Err _ => True
    | Ok tr => tr_From tr < tr_To tr ∧
        (from ≠ "" → Parse_RFC3339 from = Ok (tr_From tr)) ∧
        (to ≠ "" → Parse_RFC3339 to = Ok (tr_To tr)) ∧
        (from = "" → tr_From tr = time_add (env_now n) (dur_neg def)) ∧
        (to = "" → tr_To tr = env_now n)
    end) (n, l).
Proof.
  match goal with |- wp _ ?Q _ => set (Post := Q) end.
  unfold ParseRange. wp_steps.
  assert (∀ x (dflt : time), ∃ t,
    (x ≠ "" → Parse_RFC3339 x = Ok t) ∧ (x = "" → t = dflt) ∨
    ∃ err, x ≠ "" ∧ Parse_RFC3339 x = Err err) as Hparse.
  { intros x dflt. destruct (decide (x = "")) as [->|Hx]; [exists dflt; by left|].
    destruct (Parse_RFC3339 x) as [t|err]; [exists t; by left|exists dflt; right; eauto]. }
  destruct (Hparse from (time_add (env_now n) (dur_neg def))) as (tf & [[Hf Hf']|(err & Hx & Hf)]).
  2:{ rewrite bool_decide_false, Hf by done. by wp_steps. }
  destruct (Hparse to (env_now n)) as (tt & [[Ht Ht']|(err & Hx & Ht)]).
  2:{ rewrite (bool_decide_false (to = "")), Ht by done.
      case_bool_decide; [|rewrite Hf by done]; by wp_steps. }
  assert (∀ tr, tr = mkTimeRange tf tt →
    wp (if negb (After (tr_To tr) (tr_From tr)) then mret (Err (Errorf "to must be after from" []))
        else mret (Ok tr)) Post (S n, l)) as Hend.
  { intros tr ->. unfold After. cbn. case_bool_decide; cbn [negb]; by wp_steps. }
  case_bool_decide as Hfe; [|rewrite Hf by done]; (case_bool_decide as Hte; [|rewrite Ht by done]);
    cbn beta iota; apply Hend; cbn; f_equal; try done; symmetry; auto.
Qed.

(** Every ranged endpoint answers 503 without a querier, 400 exactly for a
    range that is malformed or empty, and otherwise makes one query on the
    non-empty range: 502 if it fails and 200 with its result if not. *)
Lemma ranged_status available from to def f n l :
  wp (ranged available from to def f) (λ r ns',
    if available then
      (rp_status r = 400 ∧ ns'.2 = l) ∨
      ∃ tr m, tr_From tr < tr_To tr ∧ ns'.2 = l ++ [[tr]] ∧ r = answer (f tr m) ∧
        (from ≠ "" → Parse_RFC3339 from = Ok (tr_From tr)) ∧
        (to ≠ "" → Parse_RFC3339 to = Ok (tr_To tr))
    else rp_status r = 503 ∧ ns'.2 = l) (n, l).
Proof.
  unfold ranged. destruct available; cbn [negb]; [|by wp_steps]. wp_step.
  eapply wp_mono; [apply wp_ParseRange|]. intros [tr|e] [n1 l1] [Hl Htr]; cbn in Hl; subst l1.
  - destruct Htr as (Hlt & Hf & Ht & _). unfold query. wp_steps. right. exists tr, n1. done.
  - wp_steps. by left.
Qed.

(** The default windows of the anomaly report follow each other. *)
Lemma anomalies_windows to window n l d :
  (if bool_decide (window = "") then d = 15 * Minute
   else Parse_Duration window = Some d) → - 2 ^ 62 < d < 2 ^ 62 →
  wp (analyticsAnomalies true "" to window) (λ _ ns',
    ns'.2 = l ++ [[mkTimeRange (env_now n - d) (env_now n);
                   mkTimeRange (env_now n - 2 * d) (env_now n - d)]]) (n, l).
Proof.
  intros Hd Hr. unfold analyticsAnomalies. cbn [negb]. wp_steps.
  replace (if bool_decide (window = "") then 15 * Minute
           else default (15 * Minute) (Parse_Duration window)) with d
    by (case_bool_decide; [done|by rewrite Hd]).
  unfold query. wp_steps. unfold time_add, dur_neg, dur_mul.
  assert (in_range 64 (- d) ∧ in_range 64 (-2 * d)) as [H1' H2'].
  { unfold in_range. change (2 ^ (64 - 1)) with (2 * 2 ^ 62). lia. }
  rewrite !int64_id by done. cbn -[Z.add Z.sub Z.mul].
  replace (env_now n + -2 * d) with (env_now n - 2 * d) by lia.
  by replace (env_now n + - d) with (env_now n - d) by lia.
Qed.
End endpoints.
