(* ===== verification/Queries.v ===== *)
(** * internal/analytics/query.go: the queries on the events

    The table chronos_events as the list of the rows inserted so far
    (Ingest.v), each SELECT of query.go as a function of it, and the arithmetic
    the methods do on the rows of the answer.  What the statements leave to
    ClickHouse is a parameter ([ChSQL]): quantiles, averages, the number in a
    JSON payload, the instant a bound time stands for, the order of groups and
    the failures of a query.  Rows within the retention of the table. *)

From Stdlib Require Import SpecFloat.
From S2P Require Import Prelude.
From S2P Require Import Float64.
From S2P Require Import Domain.
From S2P Require Import Ports.
From S2P Require Import Fixture.
From S2P Require Import Ingest.
From S2P Require Import Endpoints.

Class ChSQL := {
  (** the failure of query [k] of the method that starts at reading [n] *)
  ch_error : nat → nat → option GoError;
  ch_bind : time → time;
  (** [toFloat64(ifNull(quantileTDigest(q)(c), 0))] and [toFloat64(ifNull(avg(c), 0))]:
      NaN is possible for no rows *)
  ch_quantile : float64 → list float64 → float64;
  ch_avg : list float64 → float64;
  (** [JSONExtractUInt(payload, 'duration_ms')] *)
  ch_duration_ms : string → Z;
  ch_group_order : nat → list string → list string;
  ch_group_order_perm n l : ch_group_order n l ≡ₚ l;
}.

(** ** chronos_events *)

(** The columns the queries read; [event_time] is a DateTime64(3). *)
Record EventCols := mkEventCols {
  ec_event_type : string;
  ec_event_time : time;
  ec_event_id : string;
  ec_job_id : string;
  ec_worker_id : string;
  ec_payload : string;
}.

Definition columns (r : EventRow) : EventCols :=
  mkEventCols (row_event_type r) (row_event_time r / Millisecond * Millisecond) (row_event_id r)
    (row_job_id r) (row_worker_id r) (row_payload r).

(** [ORDER BY (event_type, event_time, event_id)] *)
Definition sorting_key (c : EventCols) : string * time * string :=
  (ec_event_type c, ec_event_time c, ec_event_id c).

(** [ReplacingMergeTree(ingested_at)]: of the rows with one sorting key, [FINAL]
    shows the one with the greatest version, the last of equal ones. *)
Fixpoint replace_row (r : EventRow) (l : list EventRow) : list EventRow :=
  match l with
  | [] => [r]
  | x :: l' =>
      if bool_decide (sorting_key (columns x) = sorting_key (columns r))
      then (if bool_decide (row_ingested_at x ≤ row_ingested_at r) then r else x) :: l'
      else x :: replace_row r l'
  end.
Definition final_rows (t : list EventRow) : list EventCols :=
  columns <$> foldl (flip replace_row) [] t.

Definition countIf (p : EventCols → bool) (l : list EventCols) : Z :=
  Z.of_nat (length (filter (λ r, p r) l)).
Definition is_type (ty : string) (r : EventCols) : bool := bool_decide (ec_event_type r = ty).

Definition toStartOfMinute (t : time) : time := t / Minute * Minute.
Definition toStartOfHour (t : time) : time := t / Hour * Hour.

(** [GROUP BY bucket ORDER BY bucket] *)
Definition buckets (g : time → time) (l : list EventCols) : list time :=
  merge_sort (≤) (remove_dups ((λ r, g (ec_event_time r)) <$> l)).
Definition in_bucket (g : time → time) (b : time) (l : list EventCols) : list EventCols :=
  filter (λ r, g (ec_event_time r) = b) l.

Section sql.
Context `{ChSQL}.

(** [FROM chronos_events FINAL WHERE event_time >= ? AND event_time < ?] *)
Definition window (tr : TimeRange) (t : list EventRow) : list EventCols :=
  filter (λ r, ch_bind (tr_From tr) ≤ ec_event_time r < ch_bind (tr_To tr)) (final_rows t).

Definition duration_of (r : EventCols) : float64 := f64_of_Z (ch_duration_ms (ec_payload r)).
Definition has_duration (r : EventCols) : bool := bool_decide (0 < ch_duration_ms (ec_payload r)).

(** The answer of query [k], or its error. *)
Definition ch_query {A} (n k : nat) (a : A) : result A :=
  match ch_error n k with Some e => Err e | None => Ok a end.

(** [GROUP BY event_type] *)
Definition by_type (n : nat) (l : list EventCols) : list (string * Z) :=
  (λ ty, (ty, countIf (is_type ty) l)) <$> ch_group_order n (remove_dups (ec_event_type <$> l)).
End sql.

(** ** The results *)

Definition uint64 (z : Z) : Z := z `mod` 2 ^ 64.

Definition cleanF (f : float64) : float64 :=
  match f with S754_nan | S754_infinity _ => f64_zero | _ => f end.

(** [Duration.Seconds] *)
Definition Seconds (d : Duration) : float64 :=
  f64_add (f64_of_Z (d `quot` Second)) (f64_div (f64_of_Z (Z.rem d Second)) (f64_of_Z 1000000000)).

Record ThroughputPoint := mkThroughputPoint {
  tp_Bucket : time;
  tp_Completed : Z;
  tp_Failed : Z;
  tp_Created : Z;
  tp_RatePerSec : float64;
}.

Record ThroughputResult := mkThroughputResult {
  thr_Range : TimeRange;
  thr_Grain : string;
  thr_Points : list ThroughputPoint;
  thr_Completed : Z;
  thr_Failed : Z;
  thr_Created : Z;
  thr_AvgRate : float64;
}.

Record LatencyPoint := mkLatencyPoint {
  lp_Bucket : time;
  lp_P50 : float64;
  lp_P95 : float64;
  lp_P99 : float64;
  lp_Count : Z;
}.

Record LatencyResult := mkLatencyResult {
  lat_Range : TimeRange;
  lat_P50 : float64;
  lat_P90 : float64;
  lat_P95 : float64;
  lat_P99 : float64;
  lat_Avg : float64;
  lat_Count : Z;
  lat_Series : list LatencyPoint;
}.

Record FailurePoint := mkFailurePoint {
  fp_Bucket : time;
  fp_Failed : Z;
  fp_Timeout : Z;
  fp_Retry : Z;
}.

Record FailureResult := mkFailureResult {
  fr_Range : TimeRange;
  fr_ByType : gmap string Z;
  fr_SuccessRate : float64;
  fr_FailureRate : float64;
  fr_RetryRate : float64;
  fr_TimeoutRate : float64;
  fr_CancelRate : float64;
  fr_Series : list FailurePoint;
}.

Record WorkerStats := mkWorkerStats {
  ws_WorkerID : string;
  ws_Completed : Z;
  ws_Failed : Z;
  ws_AvgMs : float64;
  ws_Share : float64;
}.

Record WorkersResult := mkWorkersResult {
  wkr_Range : TimeRange;
  wkr_Workers : list WorkerStats;
}.

Record QueueResult := mkQueueResult {
  qr_Range : TimeRange;
  qr_AvgWaitMs : float64;
  qr_P95WaitMs : float64;
  qr_Queued : Z;
  qr_Started : Z;
  qr_DepthEstimate : float64;
}.

Record CapacityResult := mkCapacityResult {
  cp_Range : TimeRange;
  cp_Completed : Z;
  cp_PeakPerMinute : Z;
  cp_AvgPerMinute : float64;
  cp_ActiveWorkersHint : Z;
  cp_RecommendedWorkers : Z;
  cp_TargetPerWorker : float64;
}.

(** The message repeats the numbers. *)
Record Anomaly := mkAnomaly {
  an_Metric : string;
  an_Baseline : float64;
  an_Current : float64;
  an_Ratio : float64;
  an_Severity : string;
}.

Record AnomaliesResult := mkAnomaliesResult {
  anr_Window : TimeRange;
  anr_Baseline : TimeRange;
  anr_Anomalies : list Anomaly;
}.

(** ** The methods of ClickHouseWriter *)

Section methods.
Context `{ChSQL}.
Context (oob : float64 → Z) (t : list EventRow).

(** Counts are far below [2^64]; sums of them wrap. *)
Definition sum_uint64 (l : list Z) : Z := foldl (λ a b, uint64 (a + b)) 0 l.

Definition rate_of (count : Z) (tr : TimeRange) : float64 :=
  let dur := Seconds (time_sub (tr_To tr) (tr_From tr)) in
  if f64_lt f64_zero dur then f64_div (f64_of_Z count) dur else f64_zero.

Definition Throughput (n : nat) (tr : TimeRange) (grain : string) : result ThroughputResult :=
  let g := if bool_decide (grain = "hour") then toStartOfHour else toStartOfMinute in
  let sec := f64_of_Z (if bool_decide (grain = "hour") then 3600 else 60) in
  let rows := window tr t in
  match ch_query n 0 (buckets g rows) with
  | Err e => Err e
  | Ok bs =>
      let points := (λ b,
        let rs := in_bucket g b rows in
        let completed := countIf (is_type "JOB_COMPLETED") rs in
        mkThroughputPoint b completed (countIf (is_type "JOB_FAILED") rs)
          (countIf (is_type "JOB_CREATED") rs) (f64_div (f64_of_Z completed) sec)) <$> bs in
      let totalC := sum_uint64 (tp_Completed <$> points) in
      Ok (mkThroughputResult tr grain points totalC (sum_uint64 (tp_Failed <$> points))
            (sum_uint64 (tp_Created <$> points)) (rate_of totalC tr))
  end.

(** [event_type = 'JOB_COMPLETED' AND JSONExtractUInt(payload, 'duration_ms') > 0] *)
Definition timed_rows (tr : TimeRange) : list EventCols :=
  filter (λ r, is_type "JOB_COMPLETED" r && has_duration r) (window tr t).

Definition level (num den : Z) : float64 := f64_div (f64_of_Z num) (f64_of_Z den).

Definition Latency (n : nat) (tr : TimeRange) : result LatencyResult :=
  let rows := timed_rows tr in
  let d := duration_of <$> rows in
  match ch_query n 0 rows with
  | Err e => Err e
  | Ok rows =>
      match ch_query n 1 (buckets toStartOfMinute rows) with
      | Err e => Err e
      | Ok bs =>
          Ok (mkLatencyResult tr (cleanF (ch_quantile (level 5 10) d))
                (cleanF (ch_quantile (level 9 10) d)) (cleanF (ch_quantile (level 95 100) d))
                (cleanF (ch_quantile (level 99 100) d)) (cleanF (ch_avg d))
                (Z.of_nat (length rows))
                ((λ b, let rs := in_bucket toStartOfMinute b rows in
                       let d := duration_of <$> rs in
                       mkLatencyPoint b (cleanF (ch_quantile (level 5 10) d))
                         (cleanF (ch_quantile (level 95 100) d))
                         (cleanF (ch_quantile (level 99 100) d)) (Z.of_nat (length rs))) <$> bs))
      end
  end.

Definition failure_types : list string :=
  ["JOB_COMPLETED"; "JOB_FAILED"; "JOB_TIMEOUT"; "JOB_CANCELLED"; "JOB_RETRY_SCHEDULED"].

(** The variable of the [switch] that counts a type. *)
Definition counted (ty : string) (rows : list (string * Z)) : Z :=
  foldl (λ c (row : string * Z), if bool_decide (row.1 = ty) then row.2 else c) 0 rows.

Definition Failures (n : nat) (tr : TimeRange) : result FailureResult :=
  match ch_query n 0 (by_type n (filter (λ r, ec_event_type r ∈ failure_types) (window tr t))) with
  | Err e => Err e
  | Ok rows =>
      let completed := counted "JOB_COMPLETED" rows in
      let failed := counted "JOB_FAILED" rows in
      let timeout := counted "JOB_TIMEOUT" rows in
      let cancel := counted "JOB_CANCELLED" rows in
      let retry := counted "JOB_RETRY_SCHEDULED" rows in
      let term := f64_of_Z (uint64 (completed + failed + timeout + cancel)) in
      let rate c := if f64_lt f64_zero term then f64_div (f64_of_Z c) term else f64_zero in
      let attempts := uint64 (completed + failed + timeout) in
      let retryRate := if bool_decide (0 < attempts)
        then f64_div (f64_of_Z retry) (f64_of_Z (uint64 (attempts + retry))) else f64_zero in
      match ch_query n 1 (buckets toStartOfMinute (window tr t)) with
      | Err e => Err e
      | Ok bs =>
          Ok (mkFailureResult tr (foldl (λ m (row : string * Z), <[row.1 := row.2]> m) ∅ rows)
                (rate completed) (rate failed) retryRate (rate timeout) (rate cancel)
                ((λ b, let rs := in_bucket toStartOfMinute b (window tr t) in
                       mkFailurePoint b (countIf (is_type "JOB_FAILED") rs)
                         (countIf (is_type "JOB_TIMEOUT") rs)
                         (countIf (is_type "JOB_RETRY_SCHEDULED") rs)) <$> bs))
      end
  end.

Definition completed_desc (a b : WorkerStats) : bool :=
  bool_decide (ws_Completed b ≤ ws_Completed a).

(** [GROUP BY worker_id ORDER BY completed DESC LIMIT 100] *)
Definition worker_rows (n : nat) (tr : TimeRange) : list WorkerStats :=
  let rows := filter (λ r, ec_worker_id r ≠ "") (window tr t) in
  let groups := (λ w,
    let rs := filter (λ r, ec_worker_id r = w) rows in
    mkWorkerStats w (countIf (is_type "JOB_COMPLETED") rs) (countIf (is_type "JOB_FAILED") rs)
      (ch_avg (duration_of <$> filter (λ r, is_type "JOB_COMPLETED" r && has_duration r) rs))
      f64_zero) <$> ch_group_order n (remove_dups (ec_worker_id <$> rows)) in
  take 100 (merge_sort (λ a b, completed_desc a b) groups).

Definition set_Share (total : Z) (w : WorkerStats) : WorkerStats :=
  mkWorkerStats (ws_WorkerID w) (ws_Completed w) (ws_Failed w) (ws_AvgMs w)
    (if bool_decide (0 < total)
     then f64_div (f64_of_Z (ws_Completed w)) (f64_of_Z total) else f64_zero).

Definition Workers (n : nat) (tr : TimeRange) : result WorkersResult :=
  match ch_query n 0 (worker_rows n tr) with
  | Err e => Err e
  | Ok l => Ok (mkWorkersResult tr (set_Share (sum_uint64 (ws_Completed <$> l)) <$> l))
  end.

(** [SELECT job_id, min(event_time) ... GROUP BY job_id] *)
Definition first_times (ty : string) (rows : list EventCols) : gmap string time :=
  foldl (λ m r,
    if is_type ty r && negb (bool_decide (ec_job_id r = ""))
    then <[ec_job_id r := match m !! ec_job_id r with
                           | Some u => Z.min u (ec_event_time r)
                           | None => ec_event_time r
                           end]> m
    else m) ∅ rows.

(** The waits of the join, in milliseconds. *)
Definition waits (n : nat) (rows : list EventCols) : list Z :=
  let q := first_times "JOB_QUEUED" rows in
  let s := first_times "JOB_STARTED" rows in
  omap (λ id, match q !! id, s !! id with
              | Some a, Some b => if bool_decide (a ≤ b) then Some ((b - a) / Millisecond) else None
              | _, _ => None
              end) (ch_group_order n (map_to_list q).*1).

(** An error of either query is dropped: its numbers stay zero, and the second
    query overwrites [Started]. *)
Definition ch_Queue (n : nat) (tr : TimeRange) : result QueueResult :=
  let rows := window tr t in
  let w := waits n rows in
  let first := match ch_query n 0 w with
    | Err _ => (f64_zero, f64_zero, 0)
    | Ok w => (ch_avg (f64_of_Z <$> w), ch_quantile (level 95 100) (f64_of_Z <$> w),
               Z.of_nat (length w))
    end in
  let second := match ch_query n 1 rows with
    | Err _ => (0, first.2)
    | Ok rows => (countIf (is_type "JOB_QUEUED") rows, countIf (is_type "JOB_STARTED") rows)
    end in
  let depth := f64_sub (f64_of_Z second.1) (f64_of_Z second.2) in
  Ok (mkQueueResult tr (cleanF first.1.1) (cleanF first.1.2) second.1 second.2
        (if f64_lt f64_zero depth then depth else f64_zero)).

(** The completions of each minute that has any event. *)
Definition per_minute (rows : list EventCols) : list Z :=
  (λ b, countIf (is_type "JOB_COMPLETED") (in_bucket toStartOfMinute b rows)) <$>
    buckets toStartOfMinute rows.

Definition Capacity (n : nat) (tr : TimeRange) (targetPerWorker : float64) :
    result CapacityResult :=
  let target := if f64_le targetPerWorker f64_zero then f64_of_Z 30 else targetPerWorker in
  let rows := window tr t in
  let c := per_minute rows in
  match ch_query n 0 c with
  | Err e => Err e
  | Ok c =>
      let peak := foldl Z.max 0 c in
      let workers := match ch_query n 1 rows with
        | Err _ => 0
        | Ok rows => Z.of_nat (length (remove_dups (ec_worker_id <$>
            filter (λ r, negb (bool_decide (ec_worker_id r = "")) && is_type "JOB_COMPLETED" r) rows)))
        end in
      let recommended := f64_to_int64 oob (f64_ceil (f64_div (f64_of_Z peak) target)) in
      let recommended :=
        if bool_decide (recommended < 1) && bool_decide (0 < peak) then 1 else recommended in
      Ok (mkCapacityResult tr (sum_uint64 c) peak (ch_avg (f64_of_Z <$> c)) (int64 workers)
            (if f64_lt f64_zero target then recommended else 0) target)
  end.

(** [snap] *)
Record Snap := mkSnap { sn_p95 : float64; sn_failRate : float64; sn_throughput : float64 }.

(** [load]; [k] counts the queries. *)
Definition load (n k : nat) (tr : TimeRange) : result Snap :=
  match ch_query n k (window tr t) with
  | Err e => Err e
  | Ok rows =>
      let completed := countIf (is_type "JOB_COMPLETED") rows in
      let failed := countIf (is_type "JOB_FAILED") rows in
      let p95 := ch_quantile (level 95 100) (duration_of <$> filter (λ r, is_type "JOB_COMPLETED" r) rows) in
      let term := f64_of_Z (uint64 (completed + failed)) in
      Ok (mkSnap (cleanF p95)
            (if f64_lt f64_zero term then f64_div (f64_of_Z failed) term else f64_zero)
            (rate_of completed tr))
  end.

(** [check]: the anomaly it appends, if any. *)
Definition check (metric : string) (b c warn crit : float64) (higherBad : bool) : option Anomaly :=
  if f64_le b f64_zero && f64_le c f64_zero then None
  else
    let ratio := if f64_lt f64_zero b then f64_div c b
                 else if f64_lt f64_zero c then f64_inf else f64_zero in
    let sev :=
      if higherBad then
        (if f64_le crit ratio then "critical" else if f64_le warn ratio then "warn" else "")
      else if f64_lt f64_zero b && f64_le (f64_div c b) (f64_div f64_one crit) then "critical"
      else if f64_lt f64_zero b && f64_le (f64_div c b) (f64_div f64_one warn) then "warn"
      else "" in
    if bool_decide (sev = "") then None else Some (mkAnomaly metric b c ratio sev).

Definition Anomalies (n : nat) (current baseline : TimeRange) : result AnomaliesResult :=
  match load n 0 current with
  | Err e => Err e
  | Ok cur =>
      match load n 1 baseline with
      | Err e => Err e
      | Ok base =>
          Ok (mkAnomaliesResult current baseline (omap id
            [check "p95_latency_ms" (sn_p95 base) (sn_p95 cur) (f64_of_Z 2) (f64_of_Z 4) true;
             check "failure_rate" (sn_failRate base) (sn_failRate cur) (f64_of_Z 2) (f64_of_Z 5) true;
             check "throughput_per_sec" (sn_throughput base) (sn_throughput cur) (f64_of_Z 2)
               (f64_of_Z 4) false]))
      end
  end.

(** The values of the keys "range" and "by_type". *)
Definition ch_Scheduler (n : nat) (tr : TimeRange) : result (TimeRange * gmap string Z) :=
  match ch_query n 0 (by_type n (filter (λ r, String.prefix "SCHEDULER_" (ec_event_type r)) (window tr t))) with
  | Err e => Err e
  | Ok rows => Ok (tr, foldl (λ m (row : string * Z), <[row.1 := row.2]> m) ∅ rows)
  end.

(** [CountEvents] and [CountByType] of clickhouse.go *)
Definition CountEvents (n : nat) : result Z := ch_query n 0 (Z.of_nat (length (final_rows t))).
Definition CountByType (n : nat) (ty : string) : result Z :=
  ch_query n 0 (countIf (is_type ty) (final_rows t)).
End methods.

(** ** FINAL *)

(** Rows with one sorting key show the same event. *)
Definition consistent (t : list EventRow) : Prop :=
  ∀ r r', r ∈ t → r' ∈ t → sorting_key (columns r) = sorting_key (columns r') →
    columns r = columns r'.

#[local] Arguments columns : simpl never.

Lemma replace_row_in r l x : x ∈ replace_row r l → x = r ∨ x ∈ l.
Proof.
  induction l as [|y l IH]; cbn; [set_solver|].
  repeat case_bool_decide; rewrite ?elem_of_cons; naive_solver.
Qed.

Lemma replace_row_same r l :
  (∀ x, x ∈ l → sorting_key (columns x) = sorting_key (columns r) → columns x = columns r) →
  columns r ∈ columns <$> l → columns <$> replace_row r l = columns <$> l.
Proof.
  induction l as [|y l IH]; intros Hc; cbn; [by intros ?%elem_of_nil|].
  intros Hin. destruct (decide (sorting_key (columns y) = sorting_key (columns r))) as [Hk|Hk];
    [rewrite (bool_decide_true _ Hk)|rewrite (bool_decide_false _ Hk)].
  - assert (columns y = columns r) by (apply Hc; [set_solver|done]).
    case_bool_decide; cbn; congruence.
  - cbn. f_equal. apply IH; [intros x Hx; apply Hc; by right|]. apply elem_of_cons in Hin as [Heq|Hin]; [|done].
    by rewrite <- Heq in Hk.
Qed.

Lemma replace_row_has r l :
  (∀ x, x ∈ l → sorting_key (columns x) = sorting_key (columns r) → columns x = columns r) →
  columns r ∈ columns <$> replace_row r l ∧
  ∀ c, c ∈ columns <$> l → c ∈ columns <$> replace_row r l.
Proof.
  induction l as [|y l IH]; intros Hc; cbn; [split; [by left|by intros c ?%elem_of_nil]|].
  destruct IH as [Hr Hl]; [intros x Hx; apply Hc; by right|].
  destruct (decide (sorting_key (columns y) = sorting_key (columns r))) as [Hk|Hk];
    [rewrite (bool_decide_true _ Hk)|rewrite (bool_decide_false _ Hk)]; cbn.
  - assert (columns y = columns r) as Hy by (apply Hc; [by left|done]).
    case_bool_decide; cbn; rewrite ?Hy; (split; [by left|done]).
  - split; [by right|]. setoid_rewrite elem_of_cons. intros c [->|Hin]; auto.
Qed.

Lemma final_fold t l :
  consistent (l ++ t) →
  let f := foldl (flip replace_row) l t in
  (∀ x, x ∈ f → x ∈ l ++ t) ∧ ∀ x, x ∈ l ++ t → columns x ∈ columns <$> f.
Proof.
  revert l. induction t as [|r t IH]; intros l Hc; cbn.
  { rewrite app_nil_r. split; [done|]. intros x Hx. by apply list_elem_of_fmap_2. }
  assert (∀ x, x ∈ replace_row r l ++ t → x ∈ l ++ r :: t) as Hsub.
  { intros x [Hx|Hx]%elem_of_app; [apply replace_row_in in Hx as [->|Hx]|]; set_solver. }
  destruct (IH (replace_row r l)) as [Hin Hall].
  { intros x x' Hx Hx'. apply Hc; by apply Hsub. }
  assert (∀ x, x ∈ l → sorting_key (columns x) = sorting_key (columns r) → columns x = columns r)
    as Hcr by (intros x Hx; apply Hc; apply elem_of_app; [by left|right; by left]).
  destruct (replace_row_has r l Hcr) as [Hr Hl]. cbn in Hin, Hall. split; [by auto|].
  assert (∀ x, columns x ∈ columns <$> replace_row r l →
    columns x ∈ columns <$> foldl (flip replace_row) (replace_row r l) t) as Hlift.
  { intros x (y & -> & Hy)%list_elem_of_fmap. apply Hall, elem_of_app. by left. }
  intros x [Hx|[->|Hx]%elem_of_cons]%elem_of_app.
  - apply Hlift, Hl. by apply list_elem_of_fmap_2.
  - by apply Hlift.
  - apply Hall, elem_of_app. by right.
Qed.

(** Rows that show nothing new leave FINAL as it is. *)
Lemma fold_same dup f :
  (∀ r x, r ∈ dup → x ∈ f → sorting_key (columns x) = sorting_key (columns r) →
     columns x = columns r) →
  (∀ r, r ∈ dup → columns r ∈ columns <$> f) →
  columns <$> foldl (flip replace_row) f dup = columns <$> f.
Proof.
  revert f. induction dup as [|r dup IH]; intros f Hc Hin; cbn; [done|].
  assert (columns <$> replace_row r f = columns <$> f) as Heq
    by (apply replace_row_same; [intros x; apply Hc; by left|apply Hin; by left]).
  rewrite IH; [done| |].
  - intros r' x Hr' [->|Hx]%replace_row_in; [|apply Hc; [by right|done]].
    destruct (proj1 (list_elem_of_fmap _ _ _) (Hin r ltac:(by left))) as (y & -> & Hy).
    apply Hc; [by right|done].
  - intros r' Hr'. rewrite Heq. apply Hin. by right.
Qed.

Lemma final_rows_app t dup :
  consistent (t ++ dup) → (∀ r, r ∈ dup → columns r ∈ columns <$> t) →
  final_rows (t ++ dup) = final_rows t.
Proof.
  intros Hc Hdup. unfold final_rows. rewrite foldl_app.
  destruct (final_fold t []) as [Hin Hall].
  { intros r r' Hr Hr'. apply Hc; apply elem_of_app; by left. }
  cbn in Hin, Hall. apply fold_same.
  - intros r x Hr Hx%Hin. apply Hc; apply elem_of_app; [by left|by right].
  - intros r (x & -> & Hx)%Hdup%list_elem_of_fmap. by apply Hall.
Qed.

(** ** Counts *)

Lemma filter_filter_comm {A} (P Q : A → Prop) `{∀ x, Decision (P x), ∀ x, Decision (Q x)}
    (l : list A) :
  filter P (filter Q l) = filter Q (filter P l).
Proof.
  induction l as [|x l IH]; [done|]. rewrite !filter_cons.
  repeat case_decide; rewrite ?filter_cons; repeat case_decide; try done; by f_equal.
Qed.

Lemma sum_list_with_ext {A} (f h : A → nat) l :
  (∀ x, x ∈ l → f x = h x) → sum_list_with f l = sum_list_with h l.
Proof.
  induction l as [|x l IH]; intros Heq; cbn; [done|].
  rewrite (Heq x) by by left. rewrite IH; [done|]. intros y Hy. apply Heq. by right.
Qed.

(** The groups of a list cover it once. *)
Lemma groups_length {A} (g : A → time) (l : list A) bs :
  NoDup bs → (∀ x, x ∈ l → g x ∈ bs) →
  sum_list_with (λ b, length (filter (λ x, g x = b) l)) bs = length l.
Proof.
  intros Hnd. revert l. induction Hnd as [|b bs Hb _ IH]; intros l Hin; cbn.
  { destruct l as [|x l]; [done|]. by destruct (not_elem_of_nil (g x) (Hin x (list_elem_of_here _ _))). }
  rewrite (sum_list_with_ext _ (λ b', length (filter (λ x, g x = b') (filter (λ x, g x ≠ b) l)))).
  - rewrite IH.
    + induction l as [|x l IHl]; [done|]. rewrite !filter_cons.
      destruct (decide (g x = b)); case_decide; cbn; try done.
      * f_equal. apply IHl. intros y Hy. apply Hin. by right.
      * rewrite <- IHl; [lia|]. intros y Hy. apply Hin. by right.
    + intros x [Hne Hx]%list_elem_of_filter. apply Hin, elem_of_cons in Hx. naive_solver.
  - intros b' Hb'. f_equal. rewrite filter_filter_comm. symmetry. apply filter_all.
    apply Forall_forall. intros x [-> _]%list_elem_of_filter. by intros ->.
Qed.

Lemma buckets_spec g l :
  NoDup (buckets g l) ∧ StronglySorted (≤) (buckets g l) ∧
  ∀ b, b ∈ buckets g l ↔ ∃ c, c ∈ l ∧ b = g (ec_event_time c).
Proof.
  unfold buckets. split_and!.
  - rewrite merge_sort_Permutation. apply NoDup_remove_dups.
  - apply (StronglySorted_merge_sort (≤)).
  - intros b. rewrite merge_sort_Permutation, elem_of_remove_dups, list_elem_of_fmap. naive_solver.
Qed.

Lemma sum_uint64_eq l : sum_uint64 l = uint64 (foldr Z.add 0 l).
Proof.
  unfold sum_uint64. assert (∀ a, foldl (λ a b, uint64 (a + b)) (uint64 a) l =
    uint64 (a + foldr Z.add 0 l)) as Hgen.
  { induction l as [|z l IH]; intros a; cbn; [by rewrite Z.add_0_r|].
    assert (uint64 (uint64 a + z) = uint64 (a + z)) as ->
      by (unfold uint64; by rewrite Z.add_mod_idemp_l).
    rewrite IH. f_equal. lia. }
  exact (Hgen 0).
Qed.

(** The counts of the buckets add up to the count of all. *)
Lemma bucket_counts g p l :
  sum_uint64 ((λ b, countIf p (in_bucket g b l)) <$> buckets g l) = uint64 (countIf p l).
Proof.
  destruct (buckets_spec g l) as (Hnd & _ & Hin).
  rewrite sum_uint64_eq. f_equal. unfold countIf at 2.
  rewrite <- (groups_length (λ c, g (ec_event_time c)) (filter (λ c, p c) l) (buckets g l)); [|done|].
  - clear Hnd Hin. induction (buckets g l) as [|b bs IH]; cbn; [done|]. rewrite IH, Nat2Z.inj_add. f_equal.
    unfold countIf, in_bucket. by rewrite filter_filter_comm.
  - intros c [_ Hc]%list_elem_of_filter. apply Hin. eauto.
Qed.

(** ** Analytics over an ingestion that repeats *)

Section analytics.
Context `{ChSQL, ClickHouse}.

(** [t] holds a row for each of [events], whose identifiers are UUIDs and whose
    times are set, as every event of the publisher is. *)
Definition rows_of (events : list InEvent) (t : list EventRow) : Prop :=
  Forall2 (λ e r, IsZero (ie_EventTime e) = false ∧
    ∃ now id, uuid_Parse (ie_EventID e) = Some id ∧ r = row_of now id e) events t.

(** Different events have different identifiers. *)
Definition distinct_events (events : list InEvent) : Prop :=
  ∀ e e', e ∈ events → e' ∈ events → uuid_Parse (ie_EventID e) = uuid_Parse (ie_EventID e') → e = e'.

Lemma columns_row_of now now' id e :
  IsZero (ie_EventTime e) = false → columns (row_of now id e) = columns (row_of now' id e).
Proof. unfold row_of, columns. by intros ->. Qed.

Lemma rows_of_in events t r :
  rows_of events t → r ∈ t → ∃ e now id, e ∈ events ∧ IsZero (ie_EventTime e) = false ∧
    uuid_Parse (ie_EventID e) = Some id ∧ r = row_of now id e.
Proof.
  intros Hf [i Hi]%list_elem_of_lookup.
  destruct (Forall2_lookup_r _ _ _ _ _ Hf Hi) as (e & He & Hz & now & id & Hid & ->).
  apply list_elem_of_lookup_2 in He. eauto 10.
Qed.

Lemma rows_of_columns events t e now id :
  rows_of events t → e ∈ events → uuid_Parse (ie_EventID e) = Some id →
  columns (row_of now id e) ∈ columns <$> t.
Proof.
  intros Hf [i Hi]%list_elem_of_lookup Hid.
  destruct (Forall2_lookup_l _ _ _ _ _ Hf Hi) as (r & Hr & Hz & now' & id' & Hid' & ->).
  simplify_eq. rewrite (columns_row_of _ now' _ _ Hz).
  apply list_elem_of_fmap_2. by eapply list_elem_of_lookup_2.
Qed.

Lemma rows_of_consistent events t : distinct_events events → rows_of events t → consistent t.
Proof.
  intros Hd Hf r r' Hr Hr' Hkey.
  destruct (rows_of_in _ _ _ Hf Hr) as (e & now & id & He & Hz & Hid & ->).
  destruct (rows_of_in _ _ _ Hf Hr') as (e' & now' & id' & He' & _ & Hid' & ->).
  unfold sorting_key, columns, row_of in Hkey. cbn in Hkey. injection Hkey as _ _ <-.
  assert (e = e') as <- by (apply Hd; congruence). by apply columns_row_of.
Qed.

Lemma repeated_final events again t dup :
  distinct_events events → rows_of events t → again ⊆ events → rows_of again dup →
  final_rows (t ++ dup) = final_rows t.
Proof.
  intros Hd Ht Hsub Hdup. apply final_rows_app.
  - apply (rows_of_consistent (events ++ again)); [|by apply Forall2_app].
    intros e e' He He'. apply Hd; set_solver.
  - intros r Hr. destruct (rows_of_in _ _ _ Hdup Hr) as (e & now & id & He & _ & Hid & ->).
    eapply rows_of_columns; [done|by apply Hsub|done].
Qed.

(** C31: the analytics count every event once.  The ingestion may repeat events;
    the repetitions are invisible to every query, and the totals of the
    throughput report are the numbers of distinct events of their type in the
    range, however they are spread over its buckets. *)
Theorem analytics_exactly_once oob events again t dup n tr tr' grain target ty :
  distinct_events events → rows_of events t → again ⊆ events → rows_of again dup →
  (Throughput (t ++ dup) n tr grain = Throughput t n tr grain ∧
   Latency (t ++ dup) n tr = Latency t n tr ∧
   Failures (t ++ dup) n tr = Failures t n tr ∧
   Workers (t ++ dup) n tr = Workers t n tr ∧
   ch_Queue (t ++ dup) n tr = ch_Queue t n tr ∧
   Capacity oob (t ++ dup) n tr target = Capacity oob t n tr target ∧
   Anomalies (t ++ dup) n tr tr' = Anomalies t n tr tr' ∧
   ch_Scheduler (t ++ dup) n tr = ch_Scheduler t n tr ∧
   CountByType (t ++ dup) n ty = CountByType t n ty) ∧
  ∀ r, Throughput (t ++ dup) n tr grain = Ok r →
    thr_Completed r = uint64 (countIf (is_type "JOB_COMPLETED") (window tr t)) ∧
    thr_Failed r = uint64 (countIf (is_type "JOB_FAILED") (window tr t)) ∧
    thr_Created r = uint64 (countIf (is_type "JOB_CREATED") (window tr t)) ∧
    StronglySorted (≤) (tp_Bucket <$> thr_Points r) ∧ NoDup (tp_Bucket <$> thr_Points r).
Proof.
  intros Hd Ht Hsub Hdup. pose proof (repeated_final _ _ _ _ Hd Ht Hsub Hdup) as Hf.
  assert (∀ tr, window tr (t ++ dup) = window tr t) as Hw by (intros; unfold window; by rewrite Hf).
  split.
  - unfold Throughput, Latency, Failures, Workers, ch_Queue, Capacity, Anomalies, ch_Scheduler,
      CountByType, load, timed_rows, worker_rows. rewrite !Hw, Hf. by split_and!.
  - intros r. unfold Throughput. rewrite Hw. unfold ch_query.
    destruct (ch_error n 0); [done|]. intros [= <-]. cbn.
    set (g := if bool_decide (grain = "hour") then toStartOfHour else toStartOfMinute).
    rewrite <- !list_fmap_compose. destruct (buckets_spec g (window tr t)) as (Hnd & Hs & _).
    split_and!.
    + apply (bucket_counts g (is_type "JOB_COMPLETED")).
    + apply (bucket_counts g (is_type "JOB_FAILED")).
    + apply (bucket_counts g (is_type "JOB_CREATED")).
    + change (StronglySorted (≤) (id <$> buckets g (window tr t))). by rewrite list_fmap_id.
    + change (NoDup (id <$> buckets g (window tr t))). by rewrite list_fmap_id.
Qed.
End analytics.

(** A metric that was zero has an infinite ratio, which is reported as it is. *)
Lemma check_infinite metric b c warn crit :
  f64_le b f64_zero = true → f64_lt f64_zero b = false → f64_lt f64_zero c = true →
  f64_le crit f64_inf = true →
  check metric b c warn crit true = Some (mkAnomaly metric b c f64_inf "critical").
Proof.
  intros Hb Hb' Hc Hcrit. unfold check. rewrite Hb', Hc, Hcrit.
  replace (f64_le c f64_zero) with false; [by rewrite andb_false_r|].
  destruct c as [[]|[]| |[] m e]; done.
Qed.

(** A recommendation is made whenever anything was completed. *)
Lemma recommended_positive `{ChSQL} oob t n tr target r :
  Capacity oob t n tr target = Ok r → 0 < cp_PeakPerMinute r →
  f64_lt f64_zero (cp_TargetPerWorker r) = true → 1 ≤ cp_RecommendedWorkers r.
Proof.
  unfold Capacity. destruct (ch_query n 0 _) as [c|]; [|done]. intros [= <-]. cbn.
  intros Hpeak ->. rewrite (bool_decide_true (0 < _)) by done. rewrite andb_true_r.
  case_bool_decide; lia.
Qed.

(** ** On a concrete table *)

#[local] Existing Instance sample_clickhouse.

(** Every query succeeds; quantiles and averages are zero. *)
Definition sample_sql : ChSQL := {|
  ch_error := λ _ _, None;
  ch_bind := id;
  ch_quantile := λ _ _, f64_zero;
  ch_avg := λ _, f64_zero;
  ch_duration_ms := λ _, 0;
  ch_group_order := λ _ l, l;
  ch_group_order_perm := λ _ l, Permutation_refl l;
|}.
#[local] Existing Instance sample_sql.

Definition completed_event (id : string) : InEvent :=
  mkInEvent id "JOB_COMPLETED" 1 (sample_now 0) "j" "" "w" "" 1 "" "".

(** Two completions, the first of which was ingested twice. *)
Lemma analytics_exactly_once_witness :
  let events := [completed_event "e1"; completed_event "e2"] in
  let t := [row_of (sample_now 1) "e1" (completed_event "e1");
            row_of (sample_now 1) "e2" (completed_event "e2")] in
  let dup := [row_of (sample_now 2) "e1" (completed_event "e1")] in
  let tr := mkTimeRange 0 (sample_now 5) in
  Throughput (t ++ dup) 0 tr "minute" = Throughput t 0 tr "minute" ∧
  (∀ r, Throughput (t ++ dup) 0 tr "minute" = Ok r → thr_Completed r = 2).
Proof.
  intros events t dup tr.
  destruct (analytics_exactly_once oob_amd64 events [completed_event "e1"] t dup 0 tr tr "minute"
    f64_zero "JOB_COMPLETED") as [[Heq _] Hr].
  - intros e e'. unfold events. cbn. rewrite !elem_of_cons, !elem_of_nil.
    intros [->|[->|[]]] [->|[->|[]]] Heq; first [done|by vm_compute in Heq].
  - repeat constructor; by eexists _, _.
  - intros e ->%list_elem_of_singleton. by left.
  - repeat constructor; by eexists _, _.
  - split; [exact Heq|]. intros r Hok. destruct (Hr r Hok) as [-> _]. by vm_compute.
Defined.
