(* ===== verification/Schema.v ===== *)
(** * internal/analytics/schema.go: the schema and the statistics tables

    [EnsureAdvancedSchema] as the statements it executes on the database, and
    what the materialized views it creates make of the blocks that are inserted
    into chronos_events.  A statistics table is the list of its rows, which
    ClickHouse merges in the background whenever it likes.  Documented: a view
    adds the answer of its SELECT on every inserted block to its table; merging
    two rows with one sorting key adds the numbers of a SummingMergeTree up, and
    combines the aggregate states of an AggregatingMergeTree, whose other columns
    keep one of the values.  Rows within the retention of the tables; numbers
    below [2^64]. *)

From S2P Require Import Prelude.
From S2P Require Import Domain.
From S2P Require Import Ports.
From S2P Require Import Fixture.
From S2P Require Import Ingest.
From S2P Require Import Endpoints.
From S2P Require Import Queries.

Inductive Engine := SummingMergeTree | AggregatingMergeTree.

(** A row of any of the statistics tables; the columns a table does not have
    are 0 or empty.  The states of uniq and of the quantiles are the values that
    went into them. *)
Record StatRow := mkStatRow {
  sr_bucket : time;
  sr_worker_id : string;
  sr_event_type : string;
  sr_cnt : Z;
  sr_duration_sum : Z;
  sr_duration_count : Z;
  sr_uniq_jobs : list string;
  sr_durations : list Z;
}.

Definition stat_key : Type := time * string * string.
Definition row_key (r : StatRow) : stat_key := (sr_bucket r, sr_worker_id r, sr_event_type r).

(** A statistics table and the view that fills it. *)
Record StatsView := mkStatsView {
  vw_view : string;
  vw_target : string;
  vw_engine : Engine;
  vw_bucket : time → time;
  (** [worker_id] is a column of the table *)
  vw_by_worker : bool;
  vw_where : EventCols → bool;
  (** the table has duration_sum and duration_count; the aggregate states *)
  vw_durations : bool;
  vw_states : bool;
}.

Definition toDate (t : time) : time := t / (24 * Hour) * (24 * Hour).

Definition job_minute_stats : StatsView :=
  mkStatsView "job_minute_stats_mv" "job_minute_stats" AggregatingMergeTree toStartOfMinute
    false (λ _, true) true true.
Definition worker_minute_stats : StatsView :=
  mkStatsView "worker_minute_stats_mv" "worker_minute_stats" SummingMergeTree toStartOfMinute
    true (λ r, negb (bool_decide (ec_worker_id r = ""))) true false.
Definition failure_minute_stats : StatsView :=
  mkStatsView "failure_minute_stats_mv" "failure_minute_stats" SummingMergeTree toStartOfMinute
    false (λ r, bool_decide (ec_event_type r ∈
             ["JOB_FAILED"; "JOB_TIMEOUT"; "JOB_CANCELLED"; "JOB_RETRY_SCHEDULED"])) false false.
Definition job_hourly_stats : StatsView :=
  mkStatsView "job_hourly_stats_mv" "job_hourly_stats" SummingMergeTree toStartOfHour
    false (λ _, true) true false.
Definition job_daily_stats : StatsView :=
  mkStatsView "job_daily_stats_mv" "job_daily_stats" SummingMergeTree toDate
    false (λ _, true) false false.

Definition stats_views : list StatsView :=
  [job_minute_stats; worker_minute_stats; failure_minute_stats; job_hourly_stats; job_daily_stats].

(** The database: chronos_events if it exists, the statistics tables and the
    views by name. *)
Record ChDB := mkChDB {
  db_events : option (list EventRow);
  db_stats : gmap string (list StatRow);
  db_views : gset string;
}.

(** ** Inserts and merges *)

Section blocks.
Context `{ChSQL}.

Definition key_of (v : StatsView) (r : EventCols) : stat_key :=
  (vw_bucket v (ec_event_time r), if vw_by_worker v then ec_worker_id r else "", ec_event_type r).

Definition completed (r : EventCols) : bool := is_type "JOB_COMPLETED" r.
Definition Zsum (l : list Z) : Z := foldr Z.add 0 l.

(** [count()], [sumIf(d, event_type = 'JOB_COMPLETED')] and
    [countIf(event_type = 'JOB_COMPLETED' AND d > 0)] for the duration [d]. *)
Definition cnt_of (rs : list EventCols) : Z := Z.of_nat (length rs).
Definition duration_sum_of (rs : list EventCols) : Z :=
  Zsum ((λ r, if completed r then ch_duration_ms (ec_payload r) else 0) <$> rs).
Definition timed (rs : list EventCols) : list EventCols :=
  filter (λ r, completed r && has_duration r) rs.
Definition duration_count_of (rs : list EventCols) : Z := Z.of_nat (length (timed rs)).

(** The row of a group. *)
Definition group_row (v : StatsView) (rs : list EventCols) (k : stat_key) : StatRow :=
  mkStatRow k.1.1 k.1.2 k.2 (cnt_of rs)
    (if vw_durations v then duration_sum_of rs else 0)
    (if vw_durations v then duration_count_of rs else 0)
    (if vw_states v then ec_job_id <$> rs else [])
    (if vw_states v then (λ r, ch_duration_ms (ec_payload r)) <$> timed rs else []).

(** The rows of a block the view selects. *)
Definition selected (v : StatsView) (block : list EventRow) : list EventCols :=
  filter (λ r, vw_where v r) (columns <$> block).
Definition of_key (v : StatsView) (k : stat_key) (rs : list EventCols) : list EventCols :=
  filter (λ r, key_of v r = k) rs.

(** The SELECT of the view on a block. *)
Definition select_view (v : StatsView) (block : list EventRow) : list StatRow :=
  let rs := selected v block in
  (λ k, group_row v (of_key v k rs) k) <$> remove_dups (key_of v <$> rs).

(** A block is inserted: into the table, and by every view into its own. *)
Definition insert_block (block : list EventRow) (d : ChDB) : ChDB :=
  mkChDB ((λ t, t ++ block) <$> db_events d)
    (foldl (λ m v, if bool_decide (vw_view v ∈ db_views d)
                   then alter (λ t, t ++ select_view v block) (vw_target v) m else m)
       (db_stats d) stats_views)
    (db_views d).

(** [c] is the merge of two rows. *)
Definition merged (e : Engine) (a b c : StatRow) : Prop :=
  row_key b = row_key a ∧ row_key c = row_key a ∧
  sr_uniq_jobs c = sr_uniq_jobs a ++ sr_uniq_jobs b ∧
  sr_durations c = sr_durations a ++ sr_durations b ∧
  match e with
  | SummingMergeTree =>
      sr_cnt c = sr_cnt a + sr_cnt b ∧ sr_duration_sum c = sr_duration_sum a + sr_duration_sum b ∧
      sr_duration_count c = sr_duration_count a + sr_duration_count b
  | AggregatingMergeTree => ∃ x, (x = a ∨ x = b) ∧ sr_cnt c = sr_cnt x ∧
      sr_duration_sum c = sr_duration_sum x ∧ sr_duration_count c = sr_duration_count x
  end.

(** The database works: blocks are inserted, [rows] altogether, and rows are
    merged. *)
Inductive stats_run : ChDB → list EventRow → ChDB → Prop :=
  | run_refl d : stats_run d [] d
  | run_insert d rows d' block : stats_run d rows d' →
      stats_run d (rows ++ block) (insert_block block d')
  | run_merge d rows d' v t1 a t2 b t3 c : stats_run d rows d' → v ∈ stats_views →
      db_stats d' !! vw_target v = Some (t1 ++ a :: t2 ++ b :: t3) →
      merged (vw_engine v) a b c →
      stats_run d rows (mkChDB (db_events d')
        (<[vw_target v := t1 ++ c :: t2 ++ t3]> (db_stats d')) (db_views d')).
End blocks.

(** ** EnsureAdvancedSchema *)

Inductive DDL :=
  | CreateDatabase (name : string)
  | CreateEvents
  | CreateStats (v : StatsView)
  | CreateView (v : StatsView)
  | DropTable (name : string).

(** [CREATE ... IF NOT EXISTS] and [DROP TABLE IF EXISTS]. *)
Definition exec_ddl (s : DDL) (d : ChDB) : ChDB :=
  match s with
  | CreateDatabase _ => d
  | CreateEvents => mkChDB (Some (default [] (db_events d))) (db_stats d) (db_views d)
  | CreateStats v =>
      mkChDB (db_events d)
        (match db_stats d !! vw_target v with
         | Some _ => db_stats d
         | None => <[vw_target v := []]> (db_stats d)
         end) (db_views d)
  | CreateView v => mkChDB (db_events d) (db_stats d) ({[vw_view v]} ∪ db_views d)
  | DropTable name => mkChDB (db_events d) (delete name (db_stats d)) (db_views d ∖ {[name]})
  end.

(** [stmts] *)
Definition schema_stmts : list DDL :=
  [CreateEvents;
   CreateStats job_minute_stats; CreateView job_minute_stats;
   CreateStats worker_minute_stats; CreateView worker_minute_stats;
   CreateStats failure_minute_stats; CreateView failure_minute_stats;
   CreateStats job_hourly_stats; CreateView job_hourly_stats;
   CreateStats job_daily_stats; CreateView job_daily_stats].

Definition schema_drops : list DDL :=
  [DropTable "job_minute_stats_mv"; DropTable "job_minute_stats";
   DropTable "worker_minute_stats_mv"; DropTable "worker_minute_stats";
   DropTable "failure_minute_stats_mv"; DropTable "failure_minute_stats";
   DropTable "job_hourly_stats_mv"; DropTable "job_hourly_stats";
   DropTable "job_daily_stats_mv"; DropTable "job_daily_stats"].

Section schema.
(** the failure of a statement, which is not executed then *)
Context (exec_error : nat → option GoError).
#[local] Abbreviation D := (M (nat * ChDB)).

Definition conn_Exec (s : DDL) : D (option GoError) :=
  err ← ask exec_error;
  match err with
  | Some e => mret (Some e)
  | None => upd (exec_ddl s);; mret None
  end.

(** The loop over [stmts]. *)
Fixpoint exec_all (stmts : list DDL) : D (option GoError) :=
  match stmts with
  | [] => mret None
  | s :: stmts' =>
      err ← conn_Exec s;
      match err with
      | Some e => mret (Some e)
      | None => exec_all stmts'
      end
  end.

(** [db] is the configured database. *)
Definition EnsureAdvancedSchema (db : string) : D (option GoError) :=
  err ← (if bool_decide (db = "") then mret None else conn_Exec (CreateDatabase db));
  match err with
  | Some e => mret (Some e)
  | None =>
      _ ← forM_ schema_drops (λ s, _ ← conn_Exec s; mret ());
      exec_all schema_stmts
  end.
End schema.

(** ** What the statistics count *)

Section statistics.
Context `{ChSQL}.

(** What a query on the table adds up for a key, and the values that are in the
    aggregate states of it. *)
Definition total (f : StatRow → Z) (k : stat_key) (parts : list StatRow) : Z :=
  Zsum (f <$> filter (λ r, row_key r = k) parts).
Definition collected {A} (f : StatRow → list A) (k : stat_key) (parts : list StatRow) : list A :=
  concat (f <$> filter (λ r, row_key r = k) parts).

(** JSONExtractUInt gives an unsigned number. *)
Definition unsigned : Prop := ∀ p, 0 ≤ ch_duration_ms p.

(** The table holds what its view makes of [rows]: exactly in the aggregate
    states and in the columns of a SummingMergeTree; the plain columns of an
    AggregatingMergeTree are only bounded. *)
Definition counts (v : StatsView) (rows : list EventRow) (parts : list StatRow) (k : stat_key) : Prop :=
  let rs := of_key v k (selected v rows) in
  collected sr_uniq_jobs k parts ≡ₚ (if vw_states v then ec_job_id <$> rs else []) ∧
  collected sr_durations k parts ≡ₚ
    (if vw_states v then (λ r, ch_duration_ms (ec_payload r)) <$> timed rs else []) ∧
  match vw_engine v with
  | SummingMergeTree => total sr_cnt k parts = cnt_of rs ∧
      (vw_durations v = true → total sr_duration_sum k parts = duration_sum_of rs ∧
         total sr_duration_count k parts = duration_count_of rs)
  | AggregatingMergeTree =>
      (if decide (rs = []) then 0 else 1) ≤ total sr_cnt k parts ≤ cnt_of rs ∧
      (vw_durations v = true →
         0 ≤ total sr_duration_count k parts ≤ duration_count_of rs ∧
         (unsigned → 0 ≤ total sr_duration_sum k parts ≤ duration_sum_of rs))
  end.

(** Every row of a table stands for rows of the view's selection. *)
Definition sane (r : StatRow) : Prop :=
  1 ≤ sr_cnt r ∧ 0 ≤ sr_duration_count r ∧ (unsigned → 0 ≤ sr_duration_sum r).

Lemma Zsum_app l l' : Zsum (l ++ l') = Zsum l + Zsum l'.
Proof.
  induction l as [|x l IH]; [done|]. change (x + Zsum (l ++ l') = x + Zsum l + Zsum l').
  rewrite IH. lia.
Qed.

Lemma total_app f k l l' : total f k (l ++ l') = total f k l + total f k l'.
Proof. unfold total. by rewrite filter_app, fmap_app, Zsum_app. Qed.

Lemma collected_app {A} (f : StatRow → list A) k l l' :
  collected f k (l ++ l') = collected f k l ++ collected f k l'.
Proof. unfold collected. by rewrite filter_app, fmap_app, concat_app. Qed.

Lemma total_cons f k r l : total f k (r :: l) = (if decide (row_key r = k) then f r else 0) + total f k l.
Proof. unfold total. rewrite filter_cons. by case_decide. Qed.

Lemma collected_cons {A} (f : StatRow → list A) k r l :
  collected f k (r :: l) = (if decide (row_key r = k) then f r else []) ++ collected f k l.
Proof. unfold collected. rewrite filter_cons. by case_decide. Qed.

Lemma of_key_app v k rows block :
  of_key v k (selected v (rows ++ block)) =
  of_key v k (selected v rows) ++ of_key v k (selected v block).
Proof. unfold of_key, selected. by rewrite fmap_app, !filter_app. Qed.

(** The rows of the SELECT with a key: the one of its group, or none. *)
Lemma filter_groups (g : stat_key → StatRow) ks k :
  (∀ k, row_key (g k) = k) → NoDup ks →
  filter (λ r, row_key r = k) (g <$> ks) = if decide (k ∈ ks) then [g k] else [].
Proof.
  intros Hg. induction 1 as [|k' ks Hk' Hnd IH]; [done|].
  rewrite fmap_cons, filter_cons, IH, Hg. destruct (decide (k' = k)) as [->|Hne].
  - rewrite (decide_False (P := k ∈ ks)) by done. by rewrite decide_True by (by left).
  - destruct (decide (k ∈ ks)); [rewrite decide_True by (by right)|rewrite decide_False by set_solver]; done.
Qed.

Lemma select_view_key v block k :
  let rs := of_key v k (selected v block) in
  filter (λ r, row_key r = k) (select_view v block) = [group_row v rs k] ∨
  filter (λ r, row_key r = k) (select_view v block) = [] ∧ rs = [].
Proof.
  cbn zeta. unfold select_view. cbn zeta.
  rewrite (filter_groups (λ k, group_row v (of_key v k (selected v block)) k)); [|by intros [[]]|apply NoDup_remove_dups].
  case_decide as Hk; [by left|right]. split; [done|]. apply filter_none, Forall_forall.
  intros r Hr <-. apply Hk, elem_of_remove_dups. by apply list_elem_of_fmap_2.
Qed.

Lemma select_total f F v block k :
  (∀ rs, f (group_row v rs k) = F rs) → F [] = 0 →
  total f k (select_view v block) = F (of_key v k (selected v block)).
Proof.
  intros Hf H0. unfold total. destruct (select_view_key v block k) as [->|[-> ->]]; cbn; [|done].
  rewrite Hf. lia.
Qed.

Lemma select_collected {A} (f : StatRow → list A) F v block k :
  (∀ rs, f (group_row v rs k) = F rs) → F [] = [] →
  collected f k (select_view v block) = F (of_key v k (selected v block)).
Proof.
  intros Hf H0. unfold collected. destruct (select_view_key v block k) as [->|[-> ->]]; cbn; [|done].
  by rewrite app_nil_r.
Qed.

Lemma cnt_of_app rs rs' : cnt_of (rs ++ rs') = cnt_of rs + cnt_of rs'.
Proof. unfold cnt_of. rewrite length_app. lia. Qed.
Lemma timed_app rs rs' : timed (rs ++ rs') = timed rs ++ timed rs'.
Proof. apply filter_app. Qed.
Lemma duration_sum_of_app rs rs' :
  duration_sum_of (rs ++ rs') = duration_sum_of rs + duration_sum_of rs'.
Proof. unfold duration_sum_of. by rewrite fmap_app, Zsum_app. Qed.
Lemma duration_count_of_app rs rs' :
  duration_count_of (rs ++ rs') = duration_count_of rs + duration_count_of rs'.
Proof. unfold duration_count_of. rewrite timed_app, length_app. lia. Qed.

Lemma cnt_of_pos rs : rs ≠ [] → 1 ≤ cnt_of rs.
Proof. unfold cnt_of. destruct rs; [done|]. cbn. lia. Qed.

Lemma Zsum_nonneg l : Forall (λ x, 0 ≤ x) l → 0 ≤ Zsum l.
Proof.
  induction 1 as [|x l Hx _ IH]; [done|]. change (0 ≤ x + Zsum l). lia.
Qed.

Lemma duration_sum_of_nonneg rs : unsigned → 0 ≤ duration_sum_of rs.
Proof.
  intros Hu. apply Zsum_nonneg, Forall_fmap, Forall_forall. intros r _. cbn.
  by destruct (completed r); [apply Hu|].
Qed.

Lemma total_nonneg (f : StatRow → Z) k parts : Forall (λ r, 0 ≤ f r) parts → 0 ≤ total f k parts.
Proof.
  induction 1 as [|r parts Hr _ IH]; [done|]. rewrite total_cons. case_decide; lia.
Qed.

Lemma sane_total k parts : Forall sane parts →
  0 ≤ total sr_cnt k parts ∧ 0 ≤ total sr_duration_count k parts ∧
  (unsigned → 0 ≤ total sr_duration_sum k parts).
Proof.
  intros Hs. split_and!; [|..|intros Hu]; apply total_nonneg; (eapply Forall_impl; [exact Hs|]);
    intros r (? & ? & ?); [lia|done|auto].
Qed.

Lemma merged_sane e a b c : merged e a b c → sane a → sane b → sane c.
Proof.
  unfold sane. intros (_ & _ & _ & _ & Hnum) (? & ? & Ha) (? & ? & Hb). destruct e.
  - destruct Hnum as (-> & -> & ->). split_and!; [lia..|]. intros Hu. specialize (Ha Hu). specialize (Hb Hu). lia.
  - by destruct Hnum as (x & [->| ->] & -> & -> & ->).
Qed.

Lemma counts_nil v k : counts v [] [] k.
Proof.
  unfold counts. cbn. destruct (vw_states v), (vw_engine v), (vw_durations v);
    split_and!; try done; cbn; intros; split_and!; try done; lia.
Qed.

Lemma counts_insert v rows block parts k :
  Forall sane parts →
  counts v rows parts k → counts v (rows ++ block) (parts ++ select_view v block) k.
Proof.
  intros (Hc & Hdc & Hds)%(sane_total k).
  unfold counts. cbn zeta. rewrite of_key_app, !collected_app, !total_app.
  set (rs := of_key v k (selected v rows)). set (rs' := of_key v k (selected v block)).
  rewrite (select_collected sr_uniq_jobs (λ rs, if vw_states v then ec_job_id <$> rs else [])),
    (select_collected sr_durations (λ rs, if vw_states v
       then (λ r, ch_duration_ms (ec_payload r)) <$> timed rs else [])),
    (select_total sr_cnt cnt_of),
    (select_total sr_duration_sum (λ rs, if vw_durations v then duration_sum_of rs else 0)),
    (select_total sr_duration_count (λ rs, if vw_durations v then duration_count_of rs else 0))
    by (done || by case_match).
  fold rs'. rewrite cnt_of_app, timed_app, !fmap_app, duration_sum_of_app, duration_count_of_app.
  cbv beta. intros (Hj & Hd & He). split_and!.
  - rewrite Hj. by destruct (vw_states v).
  - rewrite Hd. by destruct (vw_states v).
  - destruct (vw_engine v).
    + destruct He as [-> He]. split; [done|]. intros Hdur. destruct (He Hdur) as [-> ->].
      by rewrite Hdur.
    + destruct He as [He1 He2]. split.
      * assert (0 ≤ cnt_of rs') by (unfold cnt_of; lia). pose proof (cnt_of_pos rs').
        repeat case_decide; destruct rs, rs'; naive_solver lia.
      * intros Hdur. rewrite Hdur. destruct (He2 Hdur) as [? He3].
        assert (0 ≤ duration_count_of rs') by (unfold duration_count_of; lia).
        split; [lia|]. intros Hu. specialize (He3 Hu). pose proof (duration_sum_of_nonneg rs' Hu). lia.
Qed.

Lemma counts_merge v rows t1 a t2 b t3 c k :
  Forall sane (t1 ++ a :: t2 ++ b :: t3) → merged (vw_engine v) a b c →
  counts v rows (t1 ++ a :: t2 ++ b :: t3) k → counts v rows (t1 ++ c :: t2 ++ t3) k.
Proof.
  intros Hnn Hm. pose proof Hm as (Hkb & Hkc & Hjc & Hdc & Hnum). unfold counts. cbn zeta.
  rewrite !collected_app, !collected_cons, !collected_app, !collected_cons.
  rewrite !total_app, !total_cons, !total_app, !total_cons. rewrite Hkb, Hkc, Hjc, Hdc.
  intros (Hj & Hd & He). split_and!.
  - rewrite <- Hj. case_decide; [|done]. rewrite <- !app_assoc. apply Permutation_app_head.
    apply Permutation_app_head. by rewrite (app_assoc (sr_uniq_jobs b)), (Permutation_app_comm (sr_uniq_jobs b)), <- app_assoc.
  - rewrite <- Hd. case_decide; [|done]. rewrite <- !app_assoc. apply Permutation_app_head.
    apply Permutation_app_head. by rewrite (app_assoc (sr_durations b)), (Permutation_app_comm (sr_durations b)), <- app_assoc.
  - rewrite !Forall_app, !Forall_cons, !Forall_app, !Forall_cons in Hnn.
    destruct Hnn as (H1 & Ha & H2 & Hb & H3). pose proof (merged_sane _ _ _ _ Hm Ha Hb) as Hc.
    pose proof (sane_total k _ H1) as (? & ? & Hs1). pose proof (sane_total k _ H2) as (? & ? & Hs2).
    pose proof (sane_total k _ H3) as (? & ? & Hs3).
    destruct Ha as (? & ? & Ha), Hb as (? & ? & Hb), Hc as (? & ? & Hc).
    destruct (vw_engine v); destruct (decide (row_key a = k)); [|exact He| |exact He].
    + destruct Hnum as (-> & -> & ->), He as [He1 He2].
      split; [lia|]. intros Hdur. specialize (He2 Hdur). lia.
    + destruct He as [He1 He2]. split.
      * destruct Hnum as (x & [->| ->] & -> & _); case_decide; lia.
      * intros Hdur. destruct (He2 Hdur) as [He3 He4]. split.
        { destruct Hnum as (x & [->| ->] & _ & _ & ->); lia. }
        intros Hu. specialize (He4 Hu). specialize (Hs1 Hu). specialize (Hs2 Hu). specialize (Hs3 Hu).
        specialize (Ha Hu). specialize (Hb Hu).
        destruct Hnum as (x & [->| ->] & _ & -> & _); lia.
Qed.

(** Every view is attached, and every table holds what it should. *)
Record attached (ev0 rows : list EventRow) (d : ChDB) : Prop := {
  at_events : db_events d = Some (ev0 ++ rows);
  at_views v : v ∈ stats_views → vw_view v ∈ db_views d;
  at_stats v : v ∈ stats_views → ∃ parts, db_stats d !! vw_target v = Some parts ∧
    Forall sane parts ∧ ∀ k, counts v rows parts k;
}.

Lemma stats_views_target v v' :
  v ∈ stats_views → v' ∈ stats_views → vw_target v = vw_target v' → v = v'.
Proof.
  apply NoDup_fmap_eq. cbn. repeat (apply NoDup_cons; split; [set_solver|]). apply NoDup_nil_2.
Qed.

Lemma insert_block_lookup block d v :
  (∀ v, v ∈ stats_views → vw_view v ∈ db_views d) → v ∈ stats_views →
  db_stats (insert_block block d) !! vw_target v =
  (λ t, t ++ select_view v block) <$> db_stats d !! vw_target v.
Proof.
  intros Hall. cbn [insert_block db_stats]. generalize (db_stats d).
  assert (NoDup (vw_target <$> stats_views)) as Hnd
    by (cbn; repeat (apply NoDup_cons; split; [set_solver|]); apply NoDup_nil_2).
  revert Hall Hnd. generalize stats_views as vs. induction vs as [|u vs IH]; intros Hall Hnd m Hv;
    [by apply elem_of_nil in Hv|]. cbn [foldl]. rewrite bool_decide_true by (apply Hall; by left).
  rewrite fmap_cons in Hnd. apply NoDup_cons in Hnd as [Hu Hnd].
  assert (∀ (m' : gmap string (list StatRow)) w, (∀ x, x ∈ vs → vw_target x ≠ vw_target w) →
    foldl (λ m v, if bool_decide (vw_view v ∈ db_views d)
      then alter (λ t, t ++ select_view v block) (vw_target v) m else m) m' vs !! vw_target w
    = m' !! vw_target w) as Hskip.
  { clear. induction vs as [|x vs IH]; intros m' w Hne; [done|]. cbn [foldl].
    rewrite IH by (intros y Hy; apply Hne; by right). case_bool_decide; [|done].
    apply lookup_alter_ne, Hne. by left. }
  apply elem_of_cons in Hv as [->|Hv].
  - rewrite Hskip by (intros x Hx Heq; apply Hu; rewrite <- Heq; by apply list_elem_of_fmap_2).
    apply lookup_alter_eq.
  - rewrite IH by (done || (intros; apply Hall; by right)).
    rewrite lookup_alter_ne; [done|]. intros Heq. apply Hu. rewrite Heq. by apply list_elem_of_fmap_2.
Qed.

Lemma select_view_sane v block : Forall sane (select_view v block).
Proof.
  apply Forall_forall. intros r (k & -> & Hk)%list_elem_of_fmap.
  apply elem_of_remove_dups, list_elem_of_fmap in Hk as (e & -> & He). unfold sane. cbn.
  split_and!.
  - apply cnt_of_pos. intros Hnil. apply (not_elem_of_nil e). rewrite <- Hnil.
    by apply list_elem_of_filter.
  - destruct (vw_durations v); [|done]. unfold duration_count_of. lia.
  - intros Hu. destruct (vw_durations v); [by apply duration_sum_of_nonneg|done].
Qed.

Lemma run_attached ev0 d rows d' :
  stats_run d rows d' → attached ev0 [] d → attached ev0 rows d'.
Proof.
  intros Hrun Hd. induction Hrun as [|d rows d' block _ IH|d rows d' v t1 a t2 b t3 c _ IH Hv Ht Hm];
    [done|specialize (IH Hd) as [He Hview Hs]..].
  - split; [by cbn; rewrite He; cbn; rewrite app_assoc|done|].
    intros v Hv. destruct (Hs v Hv) as (parts & Hp & Hnn & Hc).
    exists (parts ++ select_view v block). rewrite insert_block_lookup, Hp by done. split_and!; [done| |].
    + apply Forall_app. split; [done|apply select_view_sane].
    + intros k. by apply counts_insert.
  - split; [done|done|]. intros u Hu. destruct (Hs u Hu) as (parts & Hp & Hnn & Hc). cbn.
    destruct (decide (vw_target v = vw_target u)) as [Heq|Hne].
    + apply stats_views_target in Heq as <-; [|done..]. rewrite Ht in Hp. injection Hp as <-.
      eexists. split; [by rewrite lookup_insert_eq|]. split.
      * rewrite !Forall_app, !Forall_cons, !Forall_app, !Forall_cons in Hnn.
        rewrite Forall_app, Forall_cons, Forall_app.
        destruct Hnn as (? & Ha & ? & Hb & ?). split_and!; try done. by eapply merged_sane.
      * intros k. by eapply counts_merge.
    + exists parts. rewrite lookup_insert_ne by done. done.
Qed.
End statistics.

(** The statements that are executed leave every view attached to an empty
    table. *)
Lemma schema_attached `{ChSQL} d :
  attached (default [] (db_events d)) []
    (foldl (flip exec_ddl) (foldl (flip exec_ddl) d schema_drops) schema_stmts).
Proof.
  destruct d as [ev stats views]. cbn -[delete insert lookup union difference].
  split; cbn -[delete insert lookup union difference].
  - by rewrite app_nil_r.
  - intros v Hv. repeat (apply elem_of_cons in Hv as [->|Hv]; [cbn; set_solver|]). by apply elem_of_nil in Hv.
  - intros v Hv. exists []. split; [|split; [done|intros k; apply counts_nil]].
    match goal with |- context [delete "job_daily_stats" ?m] =>
      set (m0 := delete "job_daily_stats" m) end.
    assert (∀ v, v ∈ stats_views → m0 !! vw_target v = None) as Hnone.
    { clear. intros v Hv. unfold m0.
      repeat (apply elem_of_cons in Hv as [->|Hv]; [cbn; by simplify_map_eq|]). by apply elem_of_nil in Hv. }
    clearbody m0.
    assert (m0 !! "job_minute_stats" = None ∧ m0 !! "worker_minute_stats" = None ∧
      m0 !! "failure_minute_stats" = None ∧ m0 !! "job_hourly_stats" = None ∧
      m0 !! "job_daily_stats" = None) as (-> & H2 & H3 & H4 & H5).
    { split_and!; [apply (Hnone job_minute_stats)|apply (Hnone worker_minute_stats)|
        apply (Hnone failure_minute_stats)|apply (Hnone job_hourly_stats)|
        apply (Hnone job_daily_stats)]; set_solver. }
    repeat (rewrite lookup_insert_ne by done; rewrite ?H2, ?H3, ?H4, ?H5).
    repeat (apply elem_of_cons in Hv as [->|Hv]; [cbn; by simplify_map_eq|]). by apply elem_of_nil in Hv.
Qed.

Section ensure.
Context (exec_error : nat → option GoError) (Hok : ∀ n, exec_error n = None).

Lemma wp_conn_Exec s Q nd :
  Q None (Datatypes.S nd.1, exec_ddl s nd.2) → wp (conn_Exec exec_error s) Q nd.
Proof. destruct nd as [m d0]. intros HQ. unfold conn_Exec. wp_steps. rewrite Hok. by wp_steps. Qed.

Lemma wp_exec_all l Q nd :
  (∀ m, Q None (m, foldl (flip exec_ddl) nd.2 l)) → wp (exec_all exec_error l) Q nd.
Proof.
  revert nd. induction l as [|s l IH]; intros [m d0] HQ; cbn [exec_all]; wp_steps; [apply HQ|].
  apply wp_conn_Exec. by apply IH.
Qed.

Lemma wp_drops l (Q : () → nat * ChDB → Prop) nd :
  (∀ m, Q () (m, foldl (flip exec_ddl) nd.2 l)) →
  wp (forM_ l (λ s, _ ← conn_Exec exec_error s; mret ())) Q nd.
Proof.
  revert nd. induction l as [|s l IH]; intros [m d0] HQ; cbn [forM_]; [apply HQ|]. wp_step. wp_step.
  apply wp_conn_Exec. wp_step. by apply IH.
Qed.

(** C13: the statistics are those of the rows since the last start.  When no
    statement fails, [EnsureAdvancedSchema], which every start of the API, of
    the consumer and of a replay runs, keeps chronos_events, but afterwards,
    however blocks are inserted and rows merged, the statistics tables stand for
    the rows inserted since; what was inserted before is not in them any more.
    In the four SummingMergeTree tables the counts and durations of every key
    are exact, repetitions included, and so are the aggregate states of
    job_minute_stats (the identifiers and the durations that went into them).
    Its plain columns cnt, duration_sum and duration_count are only bounded by
    the exact values, since a merge keeps one of two values: the count of a key
    that has rows is between 1 and their number. *)
Theorem stats_since_start `{ChSQL} db n d :
  wp (EnsureAdvancedSchema exec_error db) (λ r nd, r = None ∧ ∀ rows d', stats_run nd.2 rows d' →
    db_events d' = Some (default [] (db_events d) ++ rows) ∧
    ∀ v, v ∈ stats_views → ∃ parts, db_stats d' !! vw_target v = Some parts ∧
      ∀ k, counts v rows parts k) (n, d).
Proof.
  unfold EnsureAdvancedSchema. wp_step.
  assert (wp (if bool_decide (db = "") then mret None else conn_Exec exec_error (CreateDatabase db))
    (λ r nd, r = None ∧ nd.2 = d) (n, d)) as Hdb by (case_bool_decide; [done|by apply wp_conn_Exec]).
  eapply wp_mono; [exact Hdb|]. intros r [n1 d1] [-> Hd1]. cbn in Hd1. subst d1. wp_step.
  apply wp_drops. intros m. apply wp_exec_all. intros m'. split; [done|]. intros rows d' Hrun.
  apply (run_attached (default [] (db_events d))) in Hrun as [He _ Hs]; [|apply schema_attached].
  split; [done|]. intros v Hv. destruct (Hs v Hv) as (parts & Hp & _ & Hc). by exists parts.
Qed.
End ensure.

(** ** A restart *)

#[local] Existing Instance sample_sql.

Definition sample_row (id : string) : EventRow :=
  row_of (sample_now 0) id (completed_event id).

(** A database with one event and its statistics. *)
Definition sample_stats : ChDB :=
  insert_block [sample_row "e1"]
    (EnsureAdvancedSchema (λ _, None) "chronos" (0%nat, mkChDB None ∅ ∅)).2.2.

(** After a restart and another event both events are there, and one of them is
    counted. *)
Lemma stats_since_start_witness :
  let d := insert_block [sample_row "e2"]
    (EnsureAdvancedSchema (λ _, None) "chronos" (0%nat, sample_stats)).2.2 in
  db_events d = Some [sample_row "e1"; sample_row "e2"] ∧
  ∃ parts, db_stats d !! "job_hourly_stats" = Some parts ∧
    total sr_cnt (toStartOfHour (sample_now 0), "", "JOB_COMPLETED") parts = 1.
Proof.
  intros d. destruct (stats_since_start (λ _, None) (λ _, eq_refl) "chronos" 0 sample_stats)
    as [_ Hrun].
  destruct (Hrun [sample_row "e2"] d) as [He Hs]; [apply (run_insert _ []), run_refl|].
  split; [rewrite He; by vm_compute|].
  destruct (Hs job_hourly_stats ltac:(do 3 right; left)) as (parts & Hp & Hc).
  exists parts. split; [exact Hp|].
  destruct (Hc (toStartOfHour (sample_now 0), "", "JOB_COMPLETED")) as (_ & _ & -> & _). by vm_compute.
Defined.

(** Two events of one minute in two blocks, whose rows are merged: the count of
    the minute is 1. *)
Example merge_loses_count :
  let d0 := (EnsureAdvancedSchema (λ _, None) "" (0%nat, mkChDB None ∅ ∅)).2.2 in
  ∃ parts d, stats_run d0 ([sample_row "e1"] ++ [sample_row "e2"]) d ∧
    db_stats d !! "job_minute_stats" = Some parts ∧
    total sr_cnt (toStartOfMinute (sample_now 0), "", "JOB_COMPLETED") parts = 1.
Proof.
  intros d0.
  pose (row j := mkStatRow (toStartOfMinute (sample_now 0)) "" "JOB_COMPLETED" 1 0 0 j []).
  pose (d2 := insert_block [sample_row "e2"] (insert_block [sample_row "e1"] d0)).
  assert (stats_run d0 ([sample_row "e1"] ++ [sample_row "e2"]) d2) as H2
    by exact (run_insert _ _ _ _ (run_insert _ [] _ _ (run_refl d0))).
  assert (db_stats d2 !! vw_target job_minute_stats =
    Some ([] ++ row ["j"] :: [] ++ row ["j"] :: [])) as Hp by by vm_compute.
  assert (merged AggregatingMergeTree (row ["j"]) (row ["j"]) (row ["j"; "j"])) as Hm
    by (do 4 (split; [reflexivity|]); exists (row ["j"]); split; [by left|by repeat split]).
  exists [row ["j"; "j"]]. clearbody d2.
  eexists. split; [exact (run_merge _ _ _ job_minute_stats _ _ _ _ _ _ H2 (list_elem_of_here _ _) Hp Hm)|].
  split; [exact (lookup_insert_eq _ _ _)|by vm_compute].
Qed.
