(* ===== verification/Replay.v ===== *)
(** * cmd/event-replay: a topic of events once more into ClickHouse

    The loop of [main] with its flags as arguments: it reads from the beginning,
    prints the events or inserts them in batches with [InsertEvents] of
    Ingest.v, and stops at a maximal number of events, on a signal, or when no
    message has come for a while.  The Kafka reader is a parameter
    ([ReplayReader]); as it is configured, without a group and without a
    partition, it reads partition 0 of the topic and none of the others. *)

From S2P Require Import Prelude.
From S2P Require Import Domain.
From S2P Require Import Ports.
From S2P Require Import Fixture.
From S2P Require Import Kafka.
From S2P Require Import Ingest.
From S2P Require Import Endpoints.
From S2P Require Import Queries.

(** [kafka.NewReader] without GroupID and Partition, and [reader.ReadMessage]
    with a deadline: the value of the next message, or an error.  [partition]
    are the messages of the topic, which nothing is written to meanwhile, by
    partition; documented: such a reader reads partition 0, in order. *)
Class ReplayReader (K : Type) := {
  read_message : M (nat * K) (result string);
  partition : K → nat → list string;
  read_offset : K → nat;
  read_spec k n : wp read_message (post n (λ r k', partition k' = partition k ∧
    match r with
    | Ok v => partition k 0%nat !! read_offset k = Some v ∧ read_offset k' = S (read_offset k)
    | Err _ => read_offset k' = read_offset k
    end)) (n, k);
}.

(** The messages the reader has still to read. *)
Definition unread `{ReplayReader K} (k : K) : list string := drop (read_offset k) (partition k 0%nat).

Lemma read_unread `{ReplayReader K} (k : K) n :
  wp read_message (post n (λ r k',
    match r with
    | Ok v => unread k = v :: unread k'
    | Err _ => unread k' = unread k
    end)) (n, k).
Proof.
  eapply wp_mono; [apply read_spec|]. intros r [n' k'] [Hn [Hp Hr]]. split; [done|].
  unfold unread. cbn [snd] in *. rewrite Hp. destruct r as [v|e]; [|by rewrite Hr].
  destruct Hr as [Hv ->]. by apply drop_S.
Qed.

(** [to] says where the events go. *)
Record Replay (K : Type) := mkReplay {
  rp_ingest : Ingest K;
  rp_stdout : list InEvent;
  rp_count : Z;
  rp_lastMsg : time;
}.
Arguments mkReplay {K} _ _ _ _.
Arguments rp_ingest {K} _.
Arguments rp_stdout {K} _.
Arguments rp_count {K} _.
Arguments rp_lastMsg {K} _.

(** How a round of the loop ends: with the next one, with [break], or with
    [os.Exit(1)]. *)
Inductive RoundEnd := Continue | Break | Exit (e : GoError).

Section replay.
Context `{Env, ClickHouse} {K : Type} `{!ReplayReader K}.
#[local] Abbreviation R := (M (nat * Replay K)).

(** [ctx.Err() != nil]: a signal has come. *)
Context (interrupted : nat → bool) (max : Z) (idle : Duration) (to : string).

Definition callR {A} (m : M (nat * Ingest K) A) : R A := λ ns,
  match ns with
  | (n, s) =>
      match m (n, rp_ingest s) with
      | (a, (n', i)) => (a, (n', mkReplay i (rp_stdout s) (rp_count s) (rp_lastMsg s)))
      end
  end.

Definition set_batch (b : list InEvent) (s : Replay K) : Replay K :=
  mkReplay (mkIngest (ig_client (rp_ingest s)) (ig_table (rp_ingest s)) b (ig_msgs (rp_ingest s)))
    (rp_stdout s) (rp_count s) (rp_lastMsg s).
Definition print_event (ev : InEvent) (s : Replay K) : Replay K :=
  mkReplay (rp_ingest s) (rp_stdout s ++ [ev]) (rp_count s) (rp_lastMsg s).
Definition count_event (s : Replay K) : Replay K :=
  mkReplay (rp_ingest s) (rp_stdout s) (int64 (rp_count s + 1)) (rp_lastMsg s).
Definition set_lastMsg (t : time) (s : Replay K) : Replay K :=
  mkReplay (rp_ingest s) (rp_stdout s) (rp_count s) t.

(** The switch on [to]; the batch is [ig_buf]. *)
Definition replay_event (ev : InEvent) : R RoundEnd :=
  if bool_decide (to = "stdout") then upd (print_event ev);; mret Continue
  else if bool_decide (to = "clickhouse") then
    upd (λ s, set_batch (ig_buf (rp_ingest s) ++ [ev]) s);;
    s ← getst;
    if bool_decide (100 ≤ length (ig_buf (rp_ingest s)))%nat then
      err ← callR (InsertEvents (ig_buf (rp_ingest s)));
      match err with
      | Some e => mret (Exit e)
      | None => upd (set_batch []);; mret Continue
      end
    else mret Continue
  else mret Continue.

Definition replay_round : R RoundEnd :=
  s ← getst;
  if bool_decide (0 < max) && bool_decide (max ≤ rp_count s) then mret Break
  else
    msg ← callR (callI read_message);
    match msg with
    | Err _ =>
        now ← ask env_now;
        if bool_decide (idle ≤ time_sub now (rp_lastMsg s)) then mret Break
        else
          done ← ask interrupted;
          mret (if done : bool then Break else Continue)
    | Ok v =>
        now ← ask env_now;
        upd (set_lastMsg now);;
        match event_Unmarshal v with
        | Err _ => mret Continue
        | Ok ev => upd count_event;; replay_event ev
        end
    end.

(** The loop, for at most [fuel] rounds: the error it exits with, if any. *)
Fixpoint replay_loop (fuel : nat) : R (option (option GoError)) :=
  match fuel with
  | O => mret None
  | Datatypes.S fuel =>
      r ← replay_round;
      match r with
      | Continue => replay_loop fuel
      | Break => mret (Some None)
      | Exit e => mret (Some (Some e))
      end
  end.

(** [main]: the number of replayed events, or the error of the exit. *)
Definition replay (fuel : nat) : R (option (result Z)) :=
  now ← ask env_now;
  upd (set_lastMsg now);;
  r ← replay_loop fuel;
  match r with
  | None => mret None
  | Some (Some e) => mret (Some (Err e))
  | Some None =>
      s ← getst;
      if bool_decide (to = "clickhouse") && bool_decide (0 < length (ig_buf (rp_ingest s)))%nat then
        err ← callR (InsertEvents (ig_buf (rp_ingest s)));
        match err with
        | Some e => mret (Some (Err e))
        | None => mret (Some (Ok (rp_count s)))
        end
      else mret (Some (Ok (rp_count s)))
  end.

(** ** What is replayed *)

(** The events among the values of a partition. *)
Definition decoded (values : list string) : list InEvent :=
  omap (λ v, match event_Unmarshal v with Ok e => Some e | Err _ => None end) values.

Lemma decoded_length l : (length (decoded l) ≤ length l)%nat.
Proof.
  induction l as [|v l IH]; cbn; [done|]. destruct (event_Unmarshal v); cbn; unfold decoded in IH; lia.
Qed.

Lemma decoded_app l l' : decoded (l ++ l') = decoded l ++ decoded l'.
Proof. apply omap_app. Qed.

(** The rows inserted are the ones of the events that are no longer in the
    batch. *)
Definition placed (events : list InEvent) (table0 : list EventRow) (out0 : list InEvent)
    (s : Replay K) : Prop :=
  if bool_decide (to = "stdout") then
    rp_stdout s = out0 ++ events ∧ ig_table (rp_ingest s) = table0 ∧ ig_buf (rp_ingest s) = []
  else if bool_decide (to = "clickhouse") then
    rp_stdout s = out0 ∧ ∃ ins out, events = ins ++ ig_buf (rp_ingest s) ∧
      ig_table (rp_ingest s) = table0 ++ out ∧ Forall2 row_for ins out
  else rp_stdout s = out0 ∧ ig_table (rp_ingest s) = table0 ∧ ig_buf (rp_ingest s) = [].

Definition client_of (s : Replay K) : K := ig_client (rp_ingest s).

Record progress (topic : list string) (table0 : list EventRow) (out0 : list InEvent)
    (s : Replay K) : Prop := {
  pr_bound : Z.of_nat (length topic) < 2 ^ 63;
  pr_seen : ∃ seen, topic = seen ++ unread (client_of s) ∧
    rp_count s = Z.of_nat (length (decoded seen)) ∧ placed (decoded seen) table0 out0 s;
  pr_max : 0 < max → rp_count s ≤ max;
}.

(** The reader fails only when its partition is read, and no signal comes. *)
Definition undisturbed : Prop :=
  (∀ n, interrupted n = false) ∧
  ∀ k n v l, unread k = v :: l → ∃ v', (read_message (n, k)).1 = Ok v'.

Definition at_end (s : Replay K) : Prop :=
  (0 < max ∧ rp_count s = max) ∨ (undisturbed → unread (client_of s) = []).

Lemma wp_callR {A} (m : M (nat * Ingest K) A) (P : A → nat * Ingest K → Prop)
    (Q : A → nat * Replay K → Prop) n (s : Replay K) :
  wp m P (n, rp_ingest s) →
  (∀ a n' i, P a (n', i) → Q a (n', mkReplay i (rp_stdout s) (rp_count s) (rp_lastMsg s))) →
  wp (callR m) Q (n, s).
Proof. unfold wp, callR. destruct (m (n, rp_ingest s)) as [a [n' i]]. eauto. Qed.

Lemma wp_read Q n (s : Replay K) :
  (∀ r n' k', (n ≤ n')%nat → r = (read_message (n, client_of s)).1 →
     match r with
     | Ok v => unread (client_of s) = v :: unread k'
     | Err _ => unread k' = unread (client_of s)
     end →
     Q r (n', mkReplay (mkIngest k' (ig_table (rp_ingest s)) (ig_buf (rp_ingest s))
                          (ig_msgs (rp_ingest s))) (rp_stdout s) (rp_count s) (rp_lastMsg s))) →
  wp (callR (callI read_message)) Q (n, s).
Proof.
  intros HQ. pose proof (read_unread (client_of s) n) as Hr. unfold client_of in *.
  unfold wp, post, callR, callI in *. destruct (read_message (n, ig_client (rp_ingest s))) as [r [n' k']].
  destruct Hr as [Hn Hr]. by apply HQ.
Qed.

Lemma wp_Insert_batch table0 out0 events n (s : Replay K) (Q : option GoError → nat * Replay K → Prop) :
  to = "clickhouse" → placed events table0 out0 s →
  (∀ r n' s', client_of s' = client_of s → rp_count s' = rp_count s → rp_lastMsg s' = rp_lastMsg s →
     (r = None → placed events table0 out0 (set_batch [] s')) → Q r (n', s')) →
  wp (callR (InsertEvents (ig_buf (rp_ingest s)))) Q (n, s).
Proof.
  intros Hto Hp HQ. eapply wp_callR; [apply wp_InsertEvents|].
  intros r n' i (new & Hi & Hr). cbn in Hi. subst i. apply HQ; [done..|]. intros Hnone.
  revert Hp. unfold placed. rewrite Hto. cbn. intros (Ho & ins & out & Hev & Ht & Hf). split; [done|].
  exists (ins ++ ig_buf (rp_ingest s)), (out ++ new). rewrite app_nil_r, app_assoc, <- Ht.
  split_and!; [done|done|]. apply Forall2_app; [done|by apply Hr].
Qed.

Lemma wp_replay_event ev table0 out0 events n (s : Replay K) :
  placed events table0 out0 s →
  wp (replay_event ev) (λ r ns', r ≠ Break ∧ (r = Continue →
    placed (events ++ [ev]) table0 out0 ns'.2 ∧ client_of ns'.2 = client_of s ∧
    rp_count ns'.2 = rp_count s ∧ rp_lastMsg ns'.2 = rp_lastMsg s)) (n, s).
Proof.
  intros Hp. unfold replay_event. case_bool_decide as Hout.
  { wp_steps. split; [done|]. intros _. revert Hp. unfold placed. rewrite Hout. cbn.
    intros (-> & ? & ?). by rewrite app_assoc. }
  case_bool_decide as Hch.
  2:{ wp_steps. split; [done|]. intros _. revert Hp. unfold placed.
      by rewrite (bool_decide_false _ Hout), (bool_decide_false _ Hch). }
  wp_steps.
  assert (placed (events ++ [ev]) table0 out0
    (set_batch (ig_buf (rp_ingest s) ++ [ev]) s)) as Hp'.
  { revert Hp. unfold placed. rewrite Hch. cbn. intros (Ho & ins & out & -> & Ht & Hf).
    split; [done|]. exists ins, out. by rewrite app_assoc. }
  case_bool_decide; wp_steps; [|done].
  eapply wp_Insert_batch; [done|exact Hp'|].
  intros [e|] n' s' Hc Hn Hl Hr; wp_steps; [done|]. split; [done|]. intros _. by split; [apply Hr|].
Qed.
Lemma placed_frame events table0 out0 (s s' : Replay K) :
  ig_table (rp_ingest s') = ig_table (rp_ingest s) → ig_buf (rp_ingest s') = ig_buf (rp_ingest s) →
  rp_stdout s' = rp_stdout s → placed events table0 out0 s → placed events table0 out0 s'.
Proof. unfold placed. by intros -> -> ->. Qed.

(** What a round does: it ends the loop at the end of what is to be replayed,
    or it takes a value off the partition, or the clock is still before the end of
    the idle time. *)
Lemma wp_replay_round topic table0 out0 n (s : Replay K) :
  in_range 64 idle → progress topic table0 out0 s →
  wp replay_round (λ r ns',
    match r with
    | Exit _ => True
    | Break => progress topic table0 out0 ns'.2 ∧ at_end ns'.2
    | Continue => progress topic table0 out0 ns'.2 ∧
        ((length (unread (client_of ns'.2)) < length (unread (client_of s)))%nat ∨
         unread (client_of ns'.2) = unread (client_of s) ∧ rp_lastMsg ns'.2 = rp_lastMsg s ∧
         (n < ns'.1)%nat ∧ ∃ m, (n ≤ m)%nat ∧ env_now m < rp_lastMsg s + idle)
    end) (n, s).
Proof.
  intros Hidle [Hb (seen & Htop & Hcount & Hp) Hmax]. unfold replay_round. wp_step. wp_step.
  destruct (decide (0 < max ∧ max ≤ rp_count s)) as [[Hpos Hm]|Hno].
  { rewrite !bool_decide_true by done. cbn [andb]. wp_steps. specialize (Hmax Hpos).
    split; [split; eauto|]. left. lia. }
  replace (bool_decide (0 < max) && bool_decide (max ≤ rp_count s)) with false
    by (symmetry; apply andb_false_iff; rewrite !bool_decide_eq_false; lia).
  wp_step. apply wp_read. intros r n1 k1 Hn1 Hr Hu.
  set (s1 := mkReplay _ _ _ _).
  assert (∀ l, placed l table0 out0 s → placed l table0 out0 s1) as Hfr by (intros l; by apply placed_frame).
  destruct r as [v|e].
  - assert (topic = (seen ++ [v]) ++ unread k1) as Htop' by (by rewrite <- app_assoc, Htop, Hu).
    assert (Z.of_nat (length (decoded (seen ++ [v]))) < 2 ^ 63) as Hlen.
    { eapply Z.le_lt_trans; [|exact Hb]. apply inj_le. rewrite Htop'.
      etrans; [apply decoded_length|]. rewrite (length_app (seen ++ [v])). lia. }
    wp_steps. destruct (event_Unmarshal v) as [ev|err] eqn:Hv; wp_steps.
    + eapply wp_mono; [apply (wp_replay_event ev table0 out0 (decoded seen))|].
      { by eapply placed_frame, Hfr. }
      intros r [n2 s2] [Hr2 Hs2]. destruct r; [|done..].
      destruct (Hs2 eq_refl) as (Hp2 & Hc2 & Hn2 & _). cbn [snd] in *.
      split; [|left; rewrite Hc2, Hu; cbn; lia].
      assert (decoded (seen ++ [v]) = decoded seen ++ [ev]) as Hd
        by (rewrite decoded_app; unfold decoded at 2; cbn; by rewrite Hv).
      assert (rp_count s2 = Z.of_nat (length (decoded (seen ++ [v])))) as Hcnt.
      { rewrite Hd, length_app in Hlen |- *. cbn in Hlen |- *. rewrite Hn2. cbn. rewrite Hcount.
        rewrite int64_id by (unfold in_range; lia). lia. }
      split; [done| |intros Hpos; rewrite Hcnt, Hd, length_app; cbn; lia].
      exists (seen ++ [v]). rewrite Hc2, Hd. by rewrite Hd in Hcnt.
    + split; [|left; rewrite Hu; cbn; lia].
      assert (decoded (seen ++ [v]) = decoded seen) as Hd
        by (rewrite decoded_app; unfold decoded at 2; cbn; rewrite Hv; apply app_nil_r).
      split; [done| |done]. exists (seen ++ [v]). rewrite Hd. split_and!; [done..|]. by eapply placed_frame, Hfr.
  - assert (progress topic table0 out0 s1) as Hpr.
    { split; [done| |done]. exists seen. change (client_of s1) with k1. rewrite Hu. auto. }
    wp_steps. case_bool_decide as Hi; wp_steps.
    + split; [done|]. right. intros [_ Hrel]. change (client_of s1) with k1. rewrite Hu.
      destruct (unread (client_of s)) eqn:E; [done|]. destruct (Hrel _ n _ _ E) as [v' Hv']. by rewrite <- Hr in Hv'.
    + destruct (interrupted _) eqn:Hint; wp_steps.
      * split; [done|]. right. intros [Hin _]. by rewrite Hin in Hint.
      * split; [done|]. right. split_and!; [done..|lia|]. exists n1. split; [lia|].
        revert Hi. unfold time_sub, in_range in *. change (2 ^ (64 - 1)) with (2 ^ 63) in *. lia.
Qed.

Context (Hclock : ∀ t, ∃ N, ∀ m, (N ≤ m)%nat → t ≤ env_now m).

(** The loop ends: what is left to read gets shorter, or the clock gets closer to the end
    of the idle time. *)
Lemma replay_loop_ends topic table0 out0 k d n (s : Replay K) N :
  in_range 64 idle → progress topic table0 out0 s →
  (length (unread (client_of s)) ≤ k)%nat → (N - n ≤ d)%nat →
  (∀ m, (N ≤ m)%nat → rp_lastMsg s + idle ≤ env_now m) →
  ∃ fuel0, ∀ fuel, (fuel0 ≤ fuel)%nat → wp (replay_loop fuel) (λ r ns', ∃ e, r = Some e ∧
    (e = None → progress topic table0 out0 ns'.2 ∧ at_end ns'.2)) (n, s).
Proof.
  intros Hidle. revert d n s N. induction k as [k IHk] using lt_wf_ind.
  induction d as [d IHd] using lt_wf_ind. intros n s N Hpr Hk Hd HN.
  pose proof (wp_replay_round topic table0 out0 n s Hidle Hpr) as Hround. unfold wp in Hround.
  destruct (replay_round (n, s)) as [r [n1 s1]] eqn:E. cbn [fst snd] in Hround.
  assert (∀ Q fuel, wp (match r with
                        | Continue => replay_loop fuel
                        | Break => mret (Some None)
                        | Exit e => mret (Some (Some e))
                        end) Q (n1, s1) → wp (replay_loop (Datatypes.S fuel)) Q (n, s)) as Hstep.
  { intros Q fuel HQ. cbn [replay_loop]. apply wp_bind. unfold wp at 1. by rewrite E. }
  assert (∀ fuel1, (∀ fuel, (fuel1 ≤ fuel)%nat → wp (match r with
                        | Continue => replay_loop fuel
                        | Break => mret (Some None)
                        | Exit e => mret (Some (Some e))
                        end) (λ r ns', ∃ e, r = Some e ∧
                          (e = None → progress topic table0 out0 ns'.2 ∧ at_end ns'.2)) (n1, s1)) →
    ∃ fuel0, ∀ fuel, (fuel0 ≤ fuel)%nat → wp (replay_loop fuel) (λ r ns', ∃ e, r = Some e ∧
      (e = None → progress topic table0 out0 ns'.2 ∧ at_end ns'.2)) (n, s)) as Hmore.
  { intros fuel1 Hf. exists (Datatypes.S fuel1). intros [|fuel] Hfuel; [lia|]. apply Hstep, Hf. lia. }
  destruct r as [| |e].
  - destruct Hround as [Hpr1 [Hlt|(Hu & Hl & Hn & m & Hm & Hlate)]].
    + destruct (Hclock (rp_lastMsg s1 + idle)) as [N1 HN1].
      destruct (IHk (length (unread (client_of s1))) ltac:(lia) (N1 - n1)%nat n1 s1 N1)
        as [fuel1 Hf]; [done..|]. by apply (Hmore fuel1).
    + assert (m < N)%nat by (destruct (decide (m < N)%nat); [done|]; specialize (HN m); lia).
      destruct (IHd (N - n1)%nat ltac:(lia) n1 s1 N) as [fuel1 Hf]; rewrite ?Hu, ?Hl; [done..|].
      by apply (Hmore fuel1).
  - apply (Hmore 0%nat). intros fuel _. wp_steps. exists None. done.
  - apply (Hmore 0%nat). intros fuel _. wp_steps. by exists (Some e).
Qed.

Lemma row_for_rows_of events t again out :
  rows_of events t → again ⊆ events → Forall2 row_for again out → rows_of again out.
Proof.
  intros Ht Hsub. induction 1 as [|e r again out (now & id & Hid & ->) _ IH]; constructor.
  - destruct (proj1 (list_elem_of_lookup _ _) (Hsub e ltac:(by left))) as [i Hi].
    destruct (Forall2_lookup_l _ _ _ _ _ Ht Hi) as (r' & _ & Hz & now' & id' & Hid' & _).
    split; [done|]. exists now, id. by rewrite (Hid _ Hid').
  - apply IH. set_solver.
Qed.

(** A successful replay of [count] events that leads from [s] to [s']: the values
    [seen] of partition 0. *)
Definition replayed (s : Replay K) (count : Z) (s' : Replay K) : Prop :=
  ∃ seen rest, partition (client_of s) 0%nat = seen ++ rest ∧ count = Z.of_nat (length (decoded seen)) ∧
    (0 < max → count ≤ max) ∧ (undisturbed → rest = [] ∨ 0 < max ∧ count = max) ∧
    (to = "stdout" → rp_stdout s' = rp_stdout s ++ decoded seen ∧
       ig_table (rp_ingest s') = ig_table (rp_ingest s)) ∧
    (to = "clickhouse" → ∃ out, ig_table (rp_ingest s') = ig_table (rp_ingest s) ++ out ∧
       Forall2 row_for (decoded seen) out ∧
       ∀ events, distinct_events events → rows_of events (ig_table (rp_ingest s)) →
         decoded seen ⊆ events →
         final_rows (ig_table (rp_ingest s')) = final_rows (ig_table (rp_ingest s))).

Lemma placed_replayed (s s1 : Replay K) seen rest s2 :
  partition (client_of s) 0%nat = seen ++ rest → rp_count s1 = Z.of_nat (length (decoded seen)) →
  (0 < max → rp_count s1 ≤ max) → at_end s1 → unread (client_of s1) = rest →
  placed (decoded seen) (ig_table (rp_ingest s)) (rp_stdout s) (set_batch [] s2) →
  replayed s (rp_count s1) s2.
Proof.
  intros Htop Hcnt Hmax Hend Hrest Hp. exists seen, rest. unfold placed in Hp. cbn in Hp.
  split_and!; [done..| | |].
  - intros Hun. destruct Hend as [?|Hend]; [by right|left; rewrite <- Hrest; by apply Hend].
  - intros Hto. rewrite bool_decide_true in Hp by done. tauto.
  - intros Hto. rewrite bool_decide_false, bool_decide_true in Hp by (by rewrite ?Hto).
    destruct Hp as (_ & ins & out & Hins & Ht & Hrows). rewrite app_nil_r in Hins. subst ins.
    exists out. split_and!; [done..|]. intros events Hdist Hev Hsub. rewrite Ht.
    eapply repeated_final; [done..|]. by eapply row_for_rows_of.
Qed.

(** C28: the replay of partition 0 is complete and harmless.  Once the clock
    passes every instant, the program ends, and when it ends with success it has
    replayed exactly the events of a beginning of partition 0 of the topic (and
    nothing of the other partitions), at most [max] if there is a maximum, and
    all of the partition or [max] of them unless the reader failed for the idle
    time or a signal came: to stdout, in order, or into ClickHouse, with one row
    for each.  And when the table holds a row for each event of a list whose
    events have distinct UUIDs as identifiers and a time, and the replayed ones
    are among them, the rows that are added change nothing that a query sees. *)
Theorem replay_exact n (s : Replay K) :
  in_range 64 idle → read_offset (client_of s) = 0%nat →
  Z.of_nat (length (partition (client_of s) 0%nat)) < 2 ^ 63 → rp_count s = 0 → ig_buf (rp_ingest s) = [] →
  ∃ fuel0, ∀ fuel, (fuel0 ≤ fuel)%nat → wp (replay fuel) (λ r ns', ∃ res, r = Some res ∧
    ∀ count, res = Ok count → replayed s count ns'.2) (n, s).
Proof.
  intros Hidle Hoff Hlen Hcount Hbuf. set (s0 := set_lastMsg (env_now n) s).
  assert (unread (client_of s) = partition (client_of s) 0%nat) as Hall by (unfold unread; by rewrite Hoff).
  set (topic := unread (client_of s)). set (table0 := ig_table (rp_ingest s)).
  assert (progress topic table0 (rp_stdout s) s0) as Hpr.
  { split; [by unfold topic; rewrite Hall| |change (rp_count s0) with (rp_count s); lia].
    exists []. split; [done|]. split; [exact Hcount|].
    change (decoded []) with (@nil InEvent). unfold placed. cbn. rewrite Hbuf.
    case_bool_decide; [by rewrite app_nil_r|].
    case_bool_decide; [|done]. split; [done|]. exists [], [].
    split_and!; [done|symmetry; apply app_nil_r|constructor]. }
  destruct (Hclock (rp_lastMsg s0 + idle)) as [N HN].
  destruct (replay_loop_ends topic table0 (rp_stdout s) _ _ (Datatypes.S n) s0 N Hidle Hpr
    (Nat.le_refl _) (Nat.le_refl _) HN) as [fuel0 Hf].
  exists fuel0. intros fuel Hfuel. unfold replay. wp_steps.
  eapply wp_mono; [by apply Hf|]. intros r [n1 s1] (e & -> & He). cbn [snd] in He.
  destruct e as [e|]; wp_steps; [by exists (Err e)|].
  destruct (He eq_refl) as [[_ (seen & Htop & Hcnt & Hp) Hmax] Hend].
  assert (∀ s2, placed (decoded seen) table0 (rp_stdout s) (set_batch [] s2) →
    replayed s (rp_count s1) s2) as Hfin by (intros s2; apply (placed_replayed s s1 seen (unread (client_of s1)) s2); by rewrite <- ?Hall).
  destruct (bool_decide_reflect (to = "clickhouse")) as [Hto|Hto]; cbn [andb];
    [case_bool_decide as Hne|].
  - wp_step. eapply wp_Insert_batch; [done|exact Hp|].
    intros [e|] n2 s2 Hc2 Hn2 _ Hr; wp_steps; [by exists (Err e)|].
    eexists. split; [done|]. intros count [= <-]. by apply Hfin, Hr.
  - wp_steps. eexists. split; [done|]. intros count [= <-]. apply Hfin.
    eapply placed_frame; [..|exact Hp]; [done| |done]. cbn. destruct (ig_buf (rp_ingest s1)); [done|cbn in Hne; lia].
  - wp_steps. eexists. split; [done|]. intros count [= <-]. apply Hfin.
    eapply placed_frame; [..|exact Hp]; [done| |done]. cbn. unfold placed in Hp.
    rewrite (bool_decide_false _ Hto) in Hp. case_bool_decide; by destruct_and?.
Qed.
End replay.

(** ** A topic in memory *)

#[local] Existing Instance sample_env.
#[local] Existing Instance sample_clickhouse.

(** Partition 0, the other partitions and the offset. *)
#[local] Instance topic_reader : ReplayReader (list string * list string * nat).
Proof.
  refine {|
    read_message := λ ns, match ns with
      | (n, (p0, ps, o)) =>
          match p0 !! o with
          | Some v => (Ok v, (Datatypes.S n, (p0, ps, Datatypes.S o)))
          | None => (Err DeadlineExceeded, (Datatypes.S n, (p0, ps, o)))
          end
      end;
    partition := λ k p, if Nat.eqb p 0 then k.1.1 else k.1.2;
    read_offset := snd |}.
  intros [[p0 ps] o] n. unfold wp, post. destruct (p0 !! o) as [v|] eqn:E; cbn; (split; [lia|]); by rewrite ?E.
Defined.

(** Two events and a value that is none, with both events in the table; a third
    event is in another partition. *)
Definition sample_table : list EventRow :=
  [row_of (sample_now 0) "e1" (sample_event "e1"); row_of (sample_now 0) "e2" (sample_event "e2")].
Definition sample_replay : Replay (list string * list string * nat) :=
  mkReplay (mkIngest (["e1"; "bad"; "e2"], ["e3"], 0%nat) sample_table [] []) [] 0 0.

Example replay_runs :
  let '(r, (_, s)) := replay (λ _, false) 0 (3 * Millisecond) "clickhouse" 10 (0%nat, sample_replay) in
  r = Some (Ok 2) ∧ length (ig_table (rp_ingest s)) = 4%nat ∧
  final_rows (ig_table (rp_ingest s)) = final_rows sample_table.
Proof. vm_compute. done. Qed.

Lemma replay_exact_witness :
  ∃ fuel0, ∀ fuel, (fuel0 ≤ fuel)%nat →
    wp (replay (λ _, false) 0 (3 * Millisecond) "clickhouse" fuel)
      (λ r ns', ∃ res, r = Some res ∧ ∀ count, res = Ok count →
         count = 2 ∧ final_rows (ig_table (rp_ingest ns'.2)) = final_rows sample_table)
      (0%nat, sample_replay).
Proof.
  destruct (replay_exact (λ _, false) 0 (3 * Millisecond) "clickhouse") with 0%nat sample_replay
    as [fuel0 Hf].
  - intros t. exists (Z.to_nat t). intros m Hm. change (env_now m) with (sample_now m).
    unfold sample_now, Hour, Second, Millisecond. lia.
  - done.
  - done.
  - done.
  - done.
  - done.
  - exists fuel0. intros fuel Hfuel. eapply wp_mono; [by apply Hf|].
    intros r ns' (res & -> & Hres). exists res. split; [done|]. intros count Hc.
    destruct (Hres count Hc) as (seen & rest & Htop & -> & _ & Hun & _ & Hch).
    destruct Hun as [->|[]]; [split; [done|]| |done].
    { intros [[p0 ps] o] n v l Hk. unfold unread in Hk. cbn in Hk |- *.
      assert (p0 !! o = Some v) as ->; [|by exists v].
      by rewrite <- (Nat.add_0_r o), <- lookup_drop, Hk. }
    rewrite app_nil_r in Htop. cbn in Htop. subst seen. split; [done|]. destruct (Hch eq_refl) as (out & _ & _ & Hfinal).
    apply (Hfinal [sample_event "e1"; sample_event "e2"]).
    + intros e e'. rewrite !elem_of_cons, !elem_of_nil.
      intros [->|[->|[]]] [->|[->|[]]] Heq; first [done|by vm_compute in Heq].
    + repeat constructor; by eexists _, _.
    + done.
Defined.
