(* ===== verification/Worker.v ===== *)
(** * internal/worker/worker.go: the worker process

    The state of [Worker] (the count of active jobs and the cancel functions of
    the running ones) and its RPC handlers.  The goroutine of an accepted job
    is an entry of [wk_running] until it reports; a cancel function is known by
    the number of its goroutine, and [wk_cancelled] are the contexts it ended.
    [ExecuteJob] is the composition of its test of the count ([capacity_test])
    and the rest ([start_job]): concurrent calls interleave between the two. *)

From S2P Require Import Prelude.
From S2P Require Import Float64.
From S2P Require Import Domain.
From S2P Require Import Config.
From S2P Require Import Ports.
From S2P Require Import Fixture.
From S2P Require Import WorkerClient.
From S2P Require Import Scheduler.
From S2P Require Import Results.
From S2P Require Import Grpc.

(** A running job: its request and the timeout of its context. *)
Record Task := mkTask {
  tk_req : ExecuteJobRequest;
  tk_timeout : Duration;
}.

Record WorkerState := mkWorkerState {
  wk_active : Z;
  wk_cancels : gmap string nat;
  wk_running : gmap nat Task;
  wk_cancelled : gset nat;
  wk_next : nat;
}.

Definition worker_New : WorkerState := mkWorkerState 0 ∅ ∅ ∅ 0.

Section worker.
Context (cfg : WorkerConfig) (token : string).

(** [int(w.active.Load()) >= w.cfg.Capacity] *)
Definition capacity_test (w : WorkerState) : bool :=
  bool_decide (wkc_Capacity cfg ≤ wk_active w).

(** The timeout of the job's context. *)
Definition task_timeout (req : ExecuteJobRequest) : Duration :=
  let timeout := dur_mul (er_TimeoutMs req) Millisecond in
  if bool_decide (timeout ≤ 0) then 30 * Second else timeout.

(** Counting the job, registering its cancel function and starting its
    goroutine. *)
Definition start_job (req : ExecuteJobRequest) (w : WorkerState) : WorkerState :=
  mkWorkerState (int32 (wk_active w + 1))
    (<[er_JobId req := wk_next w]> (wk_cancels w))
    (<[wk_next w := mkTask req (task_timeout req)]> (wk_running w))
    (wk_cancelled w) (Datatypes.S (wk_next w)).

Definition worker_ExecuteJob (req : ExecuteJobRequest) : M WorkerState ExecuteJobResponse := λ w,
  if capacity_test w then (mkExecuteJobResponse false "at capacity", w)
  else (mkExecuteJobResponse true "", start_job req w).

Definition cancelLocal (jobID : string) (w : WorkerState) : WorkerState :=
  match wk_cancels w !! jobID with
  | None => w
  | Some i => mkWorkerState (wk_active w) (wk_cancels w) (wk_running w)
                ({[i]} ∪ wk_cancelled w) (wk_next w)
  end.

(** The reply tells whether the job was known. *)
Definition worker_CancelJob (jobID : string) : M WorkerState bool := λ w,
  (bool_decide (is_Some (wk_cancels w !! jobID)), cancelLocal jobID w).

(** The deferred calls of the goroutine [i], last one first: it forgets its
    job's cancel function, ends its context and leaves the count. *)
Definition finish_task (i : nat) (w : WorkerState) : WorkerState :=
  match wk_running w !! i with
  | None => w
  | Some t =>
      mkWorkerState (int32 (wk_active w - 1)) (delete (er_JobId (tk_req t)) (wk_cancels w))
        (delete i (wk_running w)) ({[i]} ∪ wk_cancelled w) (wk_next w)
  end.

(** The message of [report]. *)
Definition report_request (req : ExecuteJobRequest) (result : ExecutionResult) :
    ReportResultRequest :=
  let reason := if bool_decide (res_Reason result = "")
                then (if res_Success result then ReasonSuccess else ReasonFailed)
                else res_Reason result in
  mkReportResultRequest (er_JobId req) (er_ExecutionId req) (wkc_ID cfg) (er_Attempt req)
    (res_Success result) (res_Output result) (res_Error result) (res_Retryable result)
    (Milliseconds (res_Duration result)) token reason.

(** What [session] sends (Session.v). *)
Definition register_request : RegisterRequest :=
  mkRegisterRequest (wkc_ID cfg) (wkc_AdvertiseAddr cfg) (int32 (wkc_Capacity cfg)) true true
    None token.

Definition heartbeat_request (w : WorkerState) : HeartbeatRequest :=
  mkHeartbeatRequest (wkc_ID cfg) (wk_active w) (int32 (wkc_Capacity cfg)) token.

(** The reply of a heartbeat: every listed job is cancelled. *)
Definition apply_heartbeat (resp : HeartbeatResponse) (w : WorkerState) : WorkerState :=
  foldl (λ w jobID, cancelLocal jobID w) w (hresp_CancelJobIds resp).

(** Worker id, capacity, active jobs and the constant true. *)
Definition worker_Health (w : WorkerState) : string * Z * Z * bool :=
  (wkc_ID cfg, int32 (wkc_Capacity cfg), wk_active w, true).

(** ** The worker as a state machine

    [pending] are the calls of [ExecuteJob] that passed the test and have not
    counted themselves yet. *)
Inductive worker_step : list ExecuteJobRequest * WorkerState →
                        list ExecuteJobRequest * WorkerState → Prop :=
  | worker_refuse pending w : capacity_test w = true → worker_step (pending, w) (pending, w)
  | worker_pass req pending w :
      capacity_test w = false → worker_step (pending, w) (req :: pending, w)
  | worker_start req pending w :
      worker_step (req :: pending, w) (pending, start_job req w)
  | worker_cancel jobID pending w : worker_step (pending, w) (pending, cancelLocal jobID w)
  | worker_beat resp pending w : worker_step (pending, w) (pending, apply_heartbeat resp w)
  | worker_finish i pending w :
      is_Some (wk_running w !! i) → worker_step (pending, w) (pending, finish_task i w).

(** The calls arrive one after the other: a test only while none is pending. *)
Inductive serial_step : list ExecuteJobRequest * WorkerState →
                        list ExecuteJobRequest * WorkerState → Prop :=
  | serial_intro a b :
      worker_step a b → (length a.1 ≤ 1)%nat → (length b.1 ≤ 1)%nat → serial_step a b.
End worker.

(** ** The invariant *)

Section worker_facts.
Context (cfg : WorkerConfig).

(** The count is the number of running jobs, numbers are not reused, and a
    registered cancel function belongs to a running goroutine of its job. *)
Definition worker_ok (pending : list ExecuteJobRequest) (w : WorkerState) : Prop :=
  wk_active w = Z.of_nat (size (wk_running w)) ∧
  wk_active w + Z.of_nat (length pending) ≤ Z.max 0 (wkc_Capacity cfg) ∧
  (∀ i, (wk_next w ≤ i)%nat → wk_running w !! i = None) ∧
  (∀ jobID i, wk_cancels w !! jobID = Some i →
     ∃ t, wk_running w !! i = Some t ∧ er_JobId (tk_req t) = jobID).

Lemma worker_ok_start req pending w :
  wkc_Capacity cfg < 2 ^ 31 → worker_ok (req :: pending) w → worker_ok pending (start_job req w).
Proof.
  intros Hcap (Ha & Hb & Hn & Hc). cbn in Hb. unfold worker_ok, start_job. cbn.
  rewrite (map_size_insert_None _ _ _ (Hn _ (le_n _))).
  no_wrap. split_and!; [lia|lia|..].
  - intros i Hi. rewrite lookup_insert_ne by lia. apply Hn. lia.
  - intros jobID i. rewrite lookup_insert. case_decide as Hj.
    + intros [= <-]. eexists. rewrite lookup_insert_eq. by subst.
    + intros Hi. destruct (Hc _ _ Hi) as (t & Ht & Hid). exists t. split; [|done].
      rewrite lookup_insert_ne; [done|]. intros <-. by rewrite Hn in Ht.
Qed.

Lemma worker_ok_cancel jobID pending w :
  worker_ok pending w → worker_ok pending (cancelLocal jobID w).
Proof. unfold cancelLocal. by destruct (wk_cancels w !! jobID). Qed.

Lemma worker_ok_beat resp pending w :
  worker_ok pending w → worker_ok pending (apply_heartbeat resp w).
Proof.
  unfold apply_heartbeat. revert w. induction (hresp_CancelJobIds resp) as [|id ids IH];
    intros w Hw; [done|]. cbn. by apply IH, worker_ok_cancel.
Qed.

Lemma worker_ok_finish i pending w :
  wkc_Capacity cfg < 2 ^ 31 →
  worker_ok pending w → is_Some (wk_running w !! i) → worker_ok pending (finish_task i w).
Proof.
  intros Hcap (Ha & Hb & Hn & Hc) [t Ht]. unfold finish_task. rewrite Ht. unfold worker_ok. cbn.
  assert (size (wk_running w) = Datatypes.S (size (delete i (wk_running w)))) as Hsz.
  { rewrite <- (insert_delete_id (wk_running w) i t Ht) at 1.
    apply map_size_insert_None, lookup_delete_eq. }
  no_wrap. split_and!; [lia|lia|..].
  - intros k Hk. rewrite lookup_delete_None. right. by apply Hn.
  - intros jobID k [Hne Hk]%lookup_delete_Some. destruct (Hc _ _ Hk) as (t' & Ht' & Hid).
    exists t'. split; [|done]. rewrite lookup_delete_ne; [done|]. intros <-.
    rewrite Ht in Ht'. by simplify_eq.
Qed.

(** C39: the worker respects its capacity.  While the calls of ExecuteJob come
    one after the other (one scheduler with one queue consumer), in every state
    the worker reaches, whatever cancellations, heartbeats and completions
    happen: the count it reports in its heartbeats is the number of jobs it
    runs, it never exceeds the capacity, and each registered cancel function
    belongs to a running goroutine of that very job. *)
Theorem worker_respects_capacity pending w :
  wkc_Capacity cfg < 2 ^ 31 →
  rtc (serial_step cfg) ([], worker_New) (pending, w) →
  wk_active w = Z.of_nat (size (wk_running w)) ∧
  wk_active w ≤ Z.max 0 (wkc_Capacity cfg) ∧
  (∀ jobID i, wk_cancels w !! jobID = Some i →
     ∃ t, wk_running w !! i = Some t ∧ er_JobId (tk_req t) = jobID).
Proof.
  intros Hcap Hr.
  assert (∀ a b, rtc (serial_step cfg) a b → worker_ok a.1 a.2 → worker_ok b.1 b.2) as Hinv.
  { induction 1 as [|a b c Hab _ IH]; [done|]. intros Ha. apply IH.
    destruct Hab as [a b Hstep Hla Hlb].
    destruct Hstep as [p w' ?|req p w' Ht|req p w'|id p w'|resp p w'|i p w' Hi]; cbn in *.
    - done.
    - unfold capacity_test in Ht. apply bool_decide_eq_false in Ht.
      destruct Ha as (H1 & H2 & H3 & H4). split_and!; [done| |done..].
      assert (length p = O) as E by lia. cbn. lia.
    - by apply worker_ok_start.
    - by apply worker_ok_cancel.
    - by apply worker_ok_beat.
    - by apply worker_ok_finish. }
  destruct (Hinv _ _ Hr) as (H1 & H2 & _ & H4); [|cbn in *; split_and!; [done|lia|done]].
  unfold worker_ok. cbn. rewrite map_size_empty. split_and!; [done|lia|done|].
  intros jobID i. by rewrite lookup_empty.
Qed.

(** Concurrent calls overrun the capacity.  The test of the count and the
    increment are two separate atomic operations: if calls of ExecuteJob arrive
    concurrently, then for any positive capacity the worker can end up running
    any number of jobs. *)
Theorem concurrent_calls_overrun (k : nat) (req : ExecuteJobRequest) :
  0 < wkc_Capacity cfg → Z.of_nat k < 2 ^ 31 →
  ∃ w, rtc (worker_step cfg) ([], worker_New) ([], w) ∧ wk_active w = Z.of_nat k.
Proof.
  intros Hcap Hk.
  assert (∀ m, rtc (worker_step cfg) ([], worker_New) (replicate m req, worker_New)) as Hpass.
  { induction m as [|m IH]; [done|]. eapply rtc_r; [exact IH|]. apply worker_pass.
    apply bool_decide_eq_false. cbn. lia. }
  assert (∀ m w, wk_active w + Z.of_nat m < 2 ^ 31 → 0 ≤ wk_active w →
    ∃ w', rtc (worker_step cfg) (replicate m req, w) ([], w') ∧
          wk_active w' = wk_active w + Z.of_nat m) as Hstart.
  { induction m as [|m IH]; intros w Hlt H0; [exists w; split; [done|lia]|].
    destruct (IH (start_job req w)) as (w' & Hr & Ha).
    - cbn. no_wrap. lia.
    - cbn. no_wrap. lia.
    - exists w'. split; [eapply rtc_l; [apply worker_start|exact Hr]|].
      rewrite Ha. cbn. no_wrap. lia. }
  destruct (Hstart k worker_New) as (w' & Hr & Ha); [cbn; lia|done|].
  exists w'. split; [etrans; [apply Hpass|exact Hr]|]. rewrite Ha. cbn. lia.
Qed.

(** What the scheduler decodes from a report. *)
Lemma result_of_report token (req : ExecuteJobRequest) (res : ExecutionResult) :
  result_of (report_request cfg token req res) =
  mkExecutionResult (res_Success res) (res_Output res) (res_Error res) (res_Retryable res)
    (dur_mul (Milliseconds (res_Duration res)) Millisecond) (res_Reason (with_reason res)).
Proof.
  unfold result_of, report_request. cbn. f_equal. unfold with_reason.
  case_bool_decide; [by destruct (res_Success res)|done].
Qed.

(** A decoded report leads [HandleResult] to the outcome of the executor's own
    result. *)
Lemma report_outcome token (req : ExecuteJobRequest) (res : ExecutionResult) (j : Job) attempt :
  outcome_state j attempt (result_of (report_request cfg token req res)) =
    outcome_state j attempt res ∧
  outcome_execution j (result_of (report_request cfg token req res)) = outcome_execution j res.
Proof.
  rewrite result_of_report, with_reason_eq. unfold outcome_state, outcome_execution. cbn.
  assert (reason_of (mkExecutionResult (res_Success res) (res_Output res) (res_Error res)
    (res_Retryable res) (dur_mul (Milliseconds (res_Duration res)) Millisecond) (reason_of res)) =
    reason_of res) as Hr; [|by rewrite Hr].
  destruct res as [su out er re d rs]. unfold reason_of. cbn.
  destruct (bool_decide_reflect (rs ≠ "")); [by rewrite bool_decide_true|by destruct su].
Qed.

(** The round trip of a dispatch.  What the scheduler sends with
    ExecuteJob comes back with the worker's report: for an attempt that fits an
    int32, the report of any result names the same job, the same execution and
    the same attempt, and the decoded result leads [HandleResult] to the same
    outcome as the executor's own result, with the duration cut to whole
    milliseconds. *)
Lemma report_roundtrip token (job : QueuedJob) (x : string) (res : ExecutionResult) (j : Job) :
  in_range 32 (q_Attempt job) → in_range 64 (res_Duration res) →
  let rq := report_request cfg token (execute_request job x) res in
  rq_JobId rq = q_JobID job ∧ rq_ExecutionId rq = x ∧ rq_Attempt rq = q_Attempt job ∧
  result_of rq = mkExecutionResult (res_Success res) (res_Output res) (res_Error res)
    (res_Retryable res) (res_Duration res - Z.rem (res_Duration res) Millisecond)
    (res_Reason (with_reason res)) ∧
  outcome_state j (rq_Attempt rq) (result_of rq) = outcome_state j (q_Attempt job) res.
Proof.
  intros Ha Hd rq.
  assert (rq_Attempt rq = q_Attempt job) as Hat.
  { unfold rq, report_request, execute_request. cbn. by apply int32_id. }
  split_and!; [done|done|done| |rewrite Hat; apply report_outcome].
  unfold rq. rewrite result_of_report. f_equal. unfold dur_mul, Milliseconds, Millisecond in *.
  pose proof (Z.quot_rem' (res_Duration res) 1000000).
  rewrite int64_id; [lia|]. unfold in_range in *.
  pose proof (Z.rem_bound_abs (res_Duration res) 1000000).
  pose proof (Z.rem_sign_mul (res_Duration res) 1000000). nia.
Qed.
End worker_facts.

(** ** A concrete worker *)

Definition sample_worker_config : WorkerConfig :=
  mkWorkerConfig "w1" ":9092" "w1:9092" 1 (5 * Second) "scheduler:9091" (30 * Second).

Definition sample_execute : ExecuteJobRequest :=
  mkExecuteJobRequest "j1" "x1" "job" JobTypeBuiltin None 1 30000 "".

(** One job is accepted, started and finished. *)
Lemma worker_respects_capacity_witness :
  wk_active (finish_task 0 (start_job sample_execute worker_New)) ≤ 1.
Proof.
  destruct (worker_respects_capacity sample_worker_config []
    (finish_task 0 (start_job sample_execute worker_New))) as (_ & Hle & _); [done| |exact Hle].
  eapply rtc_l; [apply serial_intro; [by apply (worker_pass _ sample_execute)|cbn; lia|cbn; lia]|].
  eapply rtc_l; [apply serial_intro; [apply worker_start|cbn; lia|cbn; lia]|].
  apply rtc_once, serial_intro; [|cbn; lia|cbn; lia]. apply worker_finish. cbn. by eexists.
Defined.

(** Two concurrent calls on a worker of capacity one. *)
Lemma concurrent_calls_overrun_witness :
  ∃ w, rtc (worker_step sample_worker_config) ([], worker_New) ([], w) ∧ wk_active w = 2.
Proof. by apply (concurrent_calls_overrun sample_worker_config 2 sample_execute). Defined.

Lemma report_roundtrip_witness :
  rq_Attempt (report_request sample_worker_config "t"
    (execute_request (queued_of (sample_job "j1" JobStateQueued "" 2) 0) "x")
    failure_result) = 2.
Proof.
  apply (report_roundtrip sample_worker_config "t"
    (queued_of (sample_job "j1" JobStateQueued "" 2) 0) "x" failure_result
    (sample_job "j1" JobStateRunning "w1" 2)); by vm_compute.
Defined.
