(* ===== verification/Session.v ===== *)
(** * internal/worker/worker.go: the session with the scheduler

    [session] of the worker over the scheduler's gRPC server (Grpc.v): the
    registration, the heartbeats and the departure.  A call that does not get
    through is an error of the network, given as an argument; the waiting
    between tries and the ticker are the order of the calls. *)

From S2P Require Import Prelude.
From S2P Require Import Float64.
From S2P Require Import Domain.
From S2P Require Import Auth.
From S2P Require Import Config.
From S2P Require Import Ports.
From S2P Require Import Fixture.
From S2P Require Import MemStore.
From S2P Require Import MemQueue.
From S2P Require Import Calls.
From S2P Require Import WorkerClient.
From S2P Require Import Scheduler.
From S2P Require Import Control.
From S2P Require Import Results.
From S2P Require Import Grpc.
From S2P Require Import Cancels.
From S2P Require Import Worker.

Section session.
Context `{Env, CronLib} {St Qu : Type} `{JobStore St, Queue Qu}.
Context (auth : Authenticator) (cfg : WorkerConfig) (token : string).
#[local] Abbreviation W := (World St Qu Service).

(** The closure [dial]; a nil error means that the worker is registered. *)
Definition session_dial (netErr : option GoError) : M W (option GoError) :=
  match netErr with
  | Some e => mret (Some e)
  | None =>
      r ← grpc_Register auth (register_request cfg token);
      match r with
      | (_, Some e) => mret (Some e)
      | (resp, None) =>
          if negb (rresp_Ok resp)
          then mret (Some (match rresp_Message resp with
                           | MsgUnauthorized => Errorf "register: unauthorized" []
                           | MsgRegistered => Errorf "register: registered" []
                           | MsgError e => Wrapf "register: %w" e
                           end))
          else mret None
      end
  end.

(** The loop before the session: one try after the other, until one
    succeeds. *)
Fixpoint session_connect (tries : list (option GoError)) : M W bool :=
  match tries with
  | [] => mret false
  | netErr :: tries' =>
      err ← session_dial netErr;
      match err with
      | None => mret true
      | Some _ => session_connect tries'
      end
  end.

(** One tick: the heartbeat, and a new registration (whose error is dropped)
    if it did not get through. *)
Definition session_tick (netErr dialErr : option GoError) (w : WorkerState) : M W WorkerState :=
  match netErr with
  | Some _ => _ ← session_dial dialErr; mret w
  | None =>
      r ← grpc_Heartbeat auth (heartbeat_request cfg token w);
      match r with
      | (_, Some _) => _ ← session_dial dialErr; mret w
      | (resp, None) => mret (apply_heartbeat resp w)
      end
  end.

(** The deferred call at the end. *)
Definition session_end : M W () :=
  _ ← grpc_Deregister auth (wkc_ID cfg) token; mret ().

(** Ticks whose heartbeats get through, with anything the worker does on its
    own in between. *)
Inductive beats : W → WorkerState → W → Prop :=
  | beats_nil s w : beats s w s
  | beats_tick dialErr s w w2 s' :
      beats (session_tick None dialErr w s).2 w2 s' → beats s w s'.
End session.

(** ** Cancellations on the worker *)

Lemma cancelLocal_cancels id w : wk_cancels (cancelLocal id w) = wk_cancels w.
Proof. unfold cancelLocal. by destruct (wk_cancels w !! id). Qed.

(** A reply ends the contexts of the listed jobs that run here, and nothing
    else. *)
Lemma apply_heartbeat_cancelled resp w i :
  i ∈ wk_cancelled (apply_heartbeat resp w) ↔
  i ∈ wk_cancelled w ∨ ∃ id, id ∈ hresp_CancelJobIds resp ∧ wk_cancels w !! id = Some i.
Proof.
  unfold apply_heartbeat. revert w. induction (hresp_CancelJobIds resp) as [|id l IH]; intros w.
  { cbn. set_solver. }
  cbn. rewrite IH, cancelLocal_cancels. unfold cancelLocal.
  destruct (wk_cancels w !! id) as [i'|] eqn:Hi; cbn; set_solver.
Qed.

Lemma apply_heartbeat_running resp w :
  wk_running (apply_heartbeat resp w) = wk_running w ∧
  wk_active (apply_heartbeat resp w) = wk_active w ∧
  wk_cancels (apply_heartbeat resp w) = wk_cancels w.
Proof.
  unfold apply_heartbeat. revert w. induction (hresp_CancelJobIds resp) as [|id l IH]; intros w; [done|].
  cbn. destruct (IH (cancelLocal id w)) as (-> & -> & ->). unfold cancelLocal.
  by destruct (wk_cancels w !! id).
Qed.

Section facts.
Context `{Env, CronLib} {St Qu : Type}.
Context `{!JobStore St, !StoreView St, !JobStoreLaws St, !Queue Qu}.
Context (auth : Authenticator) (cfg : WorkerConfig) (token : string).
#[local] Abbreviation W := (World St Qu Service).

(** C17: a cancellation reaches the job's context.  Once the cancellation of a
    job on this worker was requested, the next heartbeat that gets through
    (whatever became of the direct CancelJob RPC, and even when the scheduler
    has given the worker up) ends the context of the goroutine registered for
    the job; it ends exactly the contexts of the jobs that were pending and run
    here, and neither stops counting a job nor changes a stored one. *)
Theorem cancel_reaches_task dialErr (s : W) id j wk i :
  ValidWorkerToken auth token = true →
  jobs (g_store s) !! id = Some j → j_WorkerID j = wkc_ID cfg → wkc_ID cfg ≠ "" →
  wk_cancels wk !! id = Some i →
  wp (_ ← RequestCancel id; session_tick auth cfg token None dialErr wk) (λ wk' s',
    i ∈ wk_cancelled wk' ∧
    (∀ i', i' ∈ wk_cancelled wk' ↔ i' ∈ wk_cancelled wk ∨ ∃ id',
       (id' = id ∨ pending (sv_pendingCancels (g_svc s)) (wkc_ID cfg) id') ∧
       wk_cancels wk !! id' = Some i') ∧
    wk_running wk' = wk_running wk ∧ wk_active wk' = wk_active wk ∧
    jobs (g_store s') = jobs (g_store s)) s.
Proof.
  intros Ht Hj Hw Hne Hi. apply wp_bind. rewrite <- Hw in Hne |- *.
  eapply wp_mono; [by apply (wp_RequestCancel_listed s id j)|]. intros e s1 (_ & _ & Hb).
  unfold session_tick, grpc_Heartbeat, heartbeat_request. cbn [hr_Token]. rewrite Ht. cbn [negb].
  apply wp_bind, wp_bind. cbn [hr_WorkerId hr_ActiveJobs hr_Capacity]. rewrite <- Hw.
  eapply wp_mono; [apply Hb|]. intros [l e'] s2 (He & _ & Hjs & Hl). cbn in He, Hl. subst e'.
  apply wp_ret, wp_ret. pose proof (apply_heartbeat_cancelled (mkHeartbeatResponse true l) wk) as Hc.
  destruct (apply_heartbeat_running (mkHeartbeatResponse true l) wk) as (-> & -> & _).
  split_and!; [|intros i'|done..].
  - apply Hc. right. exists id. split; [|done]. apply Hl. by left.
  - rewrite Hc. cbn. by setoid_rewrite Hl.
Qed.

(** A worker that the scheduler has given up stays unknown for as long as its
    heartbeats get through: they are answered without an error, so that it
    never registers again. *)
Lemma lost_worker_stays_lost (s s' : W) wk :
  ValidWorkerToken auth token = true →
  beats auth cfg token s wk s' → sv_workers (g_svc s) !! wkc_ID cfg = None →
  sv_workers (g_svc s') !! wkc_ID cfg = None.
Proof.
  intros Ht Hb. induction Hb as [s wk|dialErr s wk w2 s' _ IH]; [done|]. intros Hno. apply IH.
  cut (wp (session_tick auth cfg token None dialErr wk)
         (λ _ s1, sv_workers (g_svc s1) !! wkc_ID cfg = None) s); [done|].
  unfold session_tick, grpc_Heartbeat, heartbeat_request. cbn [hr_Token]. rewrite Ht. cbn [negb].
  apply wp_bind, wp_bind. eapply wp_mono; [apply wp_Heartbeat|].
  intros [l e'] s2 (_ & He & _ & _ & _ & _ & Hm). cbn in He, Hm. subst e'. rewrite Hno in Hm.
  destruct Hm as [_ Hm]. apply wp_ret, wp_ret. by rewrite Hm.
Qed.
End facts.

(** ** On the in-memory store *)

#[local] Existing Instance sample_env.
#[local] Existing Instance sample_env_laws.
#[local] Existing Instance sample_cron.

(** "j1" runs as goroutine 0 of the worker "w1". *)
Lemma cancel_reaches_task_witness :
  let cfg := mkWorkerConfig "w1" ":9092" "w1:9092" 4 (5 * Second) "scheduler:9091" (30 * Second) in
  let wk := mkWorkerState 1 {["j1" := 0%nat]} ∅ ∅ 1 in
  let auth := auth_New ["k"] ["t"] false in
  0%nat ∈ wk_cancelled
    ((_ ← RequestCancel "j1"; session_tick auth cfg "t" None None wk) running_world).1.
Proof.
  intros cfg wk auth.
  destruct (cancel_reaches_task auth cfg "t" None running_world "j1"
    (sample_job "j1" JobStateRunning "w1" 1) wk 0) as [Hin _];
    [by vm_compute|by vm_compute|done|done|by vm_compute|exact Hin].
Defined.
