(* ===== verification/Task.v ===== *)
(** * internal/worker/worker.go: the goroutine of an accepted job

    What [ExecuteJob] starts for a job it accepts: the executor
    (Execution.v) runs, its result is reported to the scheduler (Grpc.v), and
    the deferred calls ([finish_task] of Worker.v) follow. *)

From S2P Require Import Prelude.
From S2P Require Import Float64.
From S2P Require Import Domain.
From S2P Require Import Auth.
From S2P Require Import Config.
From S2P Require Import Ports.
From S2P Require Import Fixture.
From S2P Require Import Execution.
From S2P Require Import MemStore.
From S2P Require Import MemQueue.
From S2P Require Import Calls.
From S2P Require Import WorkerClient.
From S2P Require Import Scheduler.
From S2P Require Import Lifecycle.
From S2P Require Import Control.
From S2P Require Import Results.
From S2P Require Import Grpc.
From S2P Require Import Worker.

Section task.
Context `{Env, CronLib, Lib} {St Qu : Type} `{JobStore St, Queue Qu}.
Context (auth : Authenticator) (cfg : WorkerConfig) (token : string).
#[local] Abbreviation W := (World St Qu Service).

(** The executor shares the clock and the network only. *)
Definition callE {A} (m : M (nat * ()) A) : M W A := λ w,
  match w with
  | mkWorld n s q v ev rp =>
      match m (n, ()) with (a, (n', _)) => (a, mkWorld n' s q v ev rp) end
  end.

(** [dialErr] is the error of the connection to the scheduler: the report is
    not repeated, and the reply is not looked at. *)
Definition report (dialErr : option GoError) (req : ExecuteJobRequest) (result : ExecutionResult) :
    M W () :=
  match dialErr with
  | Some _ => mret ()
  | None => _ ← grpc_ReportResult auth (report_request cfg token req result); mret ()
  end.

(** The body of the goroutine, for at most [fuel] rounds of a busy loop. *)
Definition run_task (fuel : nat) (ctx : Ctx) (dialErr : option GoError) (req : ExecuteJobRequest) :
    M W (option ExecutionResult) :=
  result ← callE (Execute fuel ctx (er_Type req) (er_Payload req));
  match result with
  | None => mret None
  | Some result => _ ← report dialErr req result; mret (Some result)
  end.

(** A call of [ExecuteJob] that is accepted, up to the end of its goroutine. *)
Definition serve_job (fuel : nat) (ctx : Ctx) (dialErr : option GoError) (req : ExecuteJobRequest)
    (wk : WorkerState) : M W (ExecuteJobResponse * option ExecutionResult * WorkerState) :=
  let '(resp, wk1) := worker_ExecuteJob cfg req wk in
  if eresp_Accepted resp then
    result ← run_task fuel ctx dialErr req;
    mret (resp, result, match result with
                        | None => wk1
                        | Some _ => finish_task (wk_next wk) wk1
                        end)
  else mret (resp, None, wk1).
End task.

(** ** What it leaves behind *)

Section facts.
Context `{Env, !EnvLaws, CronLib, Lib} {St Qu : Type}.
Context `{!JobStore St, !StoreView St, !JobStoreLaws St}.
Context `{!Queue Qu, !QueueView Qu, !QueueLaws Qu}.
Context (auth : Authenticator) (cfg : WorkerConfig) (token : string).
#[local] Abbreviation W := (World St Qu Service).

Lemma wp_callE {A} (m : M (nat * ()) A) P Q n s q v ev rp :
  wp m (λ a _, P a) (n, ()) → (∀ a n', P a → Q a (mkWorld n' s q v ev rp)) →
  wp (callE m : M W A) Q (mkWorld n s q v ev rp).
Proof. unfold wp, callE. destruct (m (n, ())) as [a [n' []]]. eauto. Qed.

(** The report of a job that is not over. *)
Lemma wp_report req res j (w : W) :
  ValidWorkerToken auth token = true →
  jobs (g_store w) !! er_JobId req = Some j → final (j_State j) = false →
  (sc_Type (j_Schedule j) = ScheduleRecurring →
     outcome_state j (er_Attempt req) res ≠ JobStateCompleted) →
  wp (report auth cfg token None req res) (λ _ w',
    ∃ res', outcome_state j (er_Attempt req) res' = outcome_state j (er_Attempt req) res ∧
      outcome_execution j res' = outcome_execution j res ∧
      res_Success res' = res_Success res ∧ res_Output res' = res_Output res ∧
      res_Error res' = res_Error res ∧
      result_post j (er_JobId req) (er_ExecutionId req) (wkc_ID cfg) (er_Attempt req) res' w w') w.
Proof.
  intros Ht Hj Hf Hrec. unfold report, grpc_ReportResult. apply wp_bind.
  assert (rq_Token (report_request cfg token req res) = token) as -> by done. rewrite Ht. cbn [negb].
  apply wp_bind. cbn [rq_JobId rq_ExecutionId rq_WorkerId rq_Attempt report_request].
  destruct (report_outcome cfg token req res j (er_Attempt req)) as [Ho Hx].
  eapply wp_mono; [apply (wp_HandleResult_stored _ _ _ _ _ j); [done|done|by rewrite Ho]|].
  intros r w' [-> Hpost]. apply wp_ret, wp_ret.
  exists (result_of (report_request cfg token req res)). by split_and!.
Qed.

(** With enough rounds the goroutine ends, and with its report through the job
    is settled as its result says. *)
Lemma wp_run_task N fuel ctx req j n s q v ev rp (Q : option ExecutionResult → W → Prop) :
  (∀ m, (N ≤ m)%nat →
     time_add (env_now (Datatypes.S n)) (burn_time (er_Payload req)) ≤ env_now m) →
  (N < fuel)%nat → ValidWorkerToken auth token = true →
  jobs s !! er_JobId req = Some j → final (j_State j) = false →
  sc_Type (j_Schedule j) ≠ ScheduleRecurring →
  (∀ n' res res' w', coherent res → outcome_state j (er_Attempt req) res' = outcome_state j (er_Attempt req) res →
     outcome_execution j res' = outcome_execution j res → res_Success res' = res_Success res →
     res_Output res' = res_Output res → res_Error res' = res_Error res →
     result_post j (er_JobId req) (er_ExecutionId req) (wkc_ID cfg) (er_Attempt req) res'
       (mkWorld n' s q v ev rp) w' → Q (Some res) w') →
  wp (run_task auth cfg token fuel ctx None req) Q (mkWorld n s q v ev rp).
Proof.
  intros HN Hfuel Ht Hj Hf Hrec HQ. unfold run_task. apply wp_bind.
  apply (wp_callE _ (λ r, r ≠ None ∧ ∀ res, r = Some res → coherent res)); [apply wp_and; [by apply (Execute_enough _ _ _ N)|apply wp_Execute_coherent]|].
  intros [res|] n' [Hres Hcoh]; [|done].
  apply wp_bind. eapply wp_mono; [by apply (wp_report req res j)|].
  intros [] w' (res' & H1' & H2' & H3' & H4' & H5' & Hpost). apply wp_ret. eapply HQ; eauto.
Qed.
End facts.
