(* ===== verification/EndToEnd.v ===== *)
(** * One job from its submission to its result

    The composition of the parts: the API takes a request, the queue hands the
    job to the scheduler, which pushes it to the worker; the worker executes it
    and reports; the scheduler settles the job. *)

From S2P Require Import Prelude.
From S2P Require Import Float64.
From S2P Require Import Domain.
From S2P Require Import Auth.
From S2P Require Import Config.
From S2P Require Import Ports.
From S2P Require Import Fixture.
From S2P Require Import Execution.
From S2P Require Import MemStore.
From S2P Require Import MemQueue.
From S2P Require Import Calls.
From S2P Require Import WorkerClient.
From S2P Require Import Scheduler.
From S2P Require Import Lifecycle.
From S2P Require Import Refinement.
From S2P Require Import Control.
From S2P Require Import Results.
From S2P Require Import Assign.
From S2P Require Import Delivery.
From S2P Require Import Liveness.
From S2P Require Import Grpc.
From S2P Require Import Api.
From S2P Require Import Worker.
From S2P Require Import Task.

Section chain.
Context `{Env, CronLib, Lib} {St : Type} `{JobStore St}.
Context (auth : Authenticator) (cfg : WorkerConfig) (token : string).
#[local] Abbreviation W := (World St MemQueue Service).

(** The request of the last RPC. *)
Definition last_push : M W (option ExecuteJobRequest) := λ w,
  (match last (g_rpcs w) with Some (RpcExecuteJob _ req) => Some req | _ => None end, w).

(** The API and a round of the consumer: the answer and what was pushed. *)
Definition dispatch_submission (req : CreateJobRequest) :
    M W (Response * option ExecuteJobRequest) :=
  resp ← createJob (Ok req);
  _ ← consume_one handleQueuedJob;
  push ← last_push;
  mret (resp, push).

(** And the worker's part. *)
Definition run_submission (fuel : nat) (ctx : Ctx) (req : CreateJobRequest) (wk : WorkerState) :
    M W (Response * option ExecutionResult * WorkerState) :=
  d ← dispatch_submission req;
  match d.2 with
  | None => mret (d.1, None, wk)
  | Some push =>
      r ← serve_job auth cfg token fuel ctx None push wk;
      mret (d.1, r.1.2, r.2)
  end.
End chain.

(** The slot that an assignment takes is the one a result gives back. *)
Lemma release_one_more t k c :
  sane t → t !! k = Some c → IsAssignable (wc_info c) = true →
  release_slot k (alter one_more k t) = t.
Proof.
  intros Hs Hk Ha. destruct (Hs k c Hk) as (Hid & Hact & Hcap).
  assert (w_ActiveJobs (wc_info c) < w_Capacity (wc_info c)) as Hlt.
  { unfold IsAssignable, AvailableSlots in Ha. apply andb_true_iff in Ha as [_ Ha].
    apply bool_decide_eq_true in Ha. rewrite int64_id in Ha by (unfold in_range; lia).
    case_bool_decide; lia. }
  unfold release_slot. rewrite lookup_alter_eq, Hk. cbn.
  rewrite (int64_id (_ + 1)) by (unfold in_range; lia). rewrite bool_decide_true by lia.
  rewrite <- (insert_alter one_more k t c Hk), insert_insert_eq. apply insert_id. rewrite Hk.
  unfold one_more, map_info. cbn. do 2 f_equal. destruct c as [info addr]. cbn in *. f_equal.
  rewrite (int64_id (w_ActiveJobs info + 1)) by (unfold in_range; lia).
  replace (w_ActiveJobs info + 1 - 1) with (w_ActiveJobs info) by lia.
  rewrite int64_id by (unfold in_range; lia). by destruct info.
Qed.

(** A success of a running job completes it. *)
Lemma success_completes j attempt res :
  coherent res → res_Success res = true → j_State j = JobStateRunning →
  outcome_state j attempt res = JobStateCompleted.
Proof.
  intros Hc Hs Hst. unfold coherent in Hc. rewrite Hs in Hc. destruct Hc as [Hr _].
  unfold outcome_state, reason_of. by rewrite Hr, Hst, Hs.
Qed.

(** An accepted job leaves the worker as it was. *)
Lemma finish_started (cfg : WorkerConfig) req wk :
  wkc_Capacity cfg < 2 ^ 31 → worker_ok cfg [] wk → capacity_test cfg wk = false →
  wk_active (finish_task (wk_next wk) (start_job req wk)) = wk_active wk ∧
  wk_running (finish_task (wk_next wk) (start_job req wk)) = wk_running wk.
Proof.
  intros Hcap (Ha & Hb & Hn & _) Hlt%bool_decide_eq_false. unfold finish_task, start_job. cbn.
  rewrite lookup_insert_eq. cbn. cbn in Hb. split.
  - rewrite (int32_id (wk_active wk + 1)) by (unfold in_range; lia).
    replace (wk_active wk + 1 - 1) with (wk_active wk) by lia.
    apply int32_id. unfold in_range. lia.
  - apply delete_insert_id. apply Hn. lia.
Qed.

Section facts.
Context `{Env, !EnvLaws, CronLib, Lib} {St : Type}.
Context `{!JobStore St, !StoreView St, !JobStoreLaws St}.
Context (auth : Authenticator) (cfg : WorkerConfig) (token : string).
#[local] Abbreviation W := (World St MemQueue Service).

(** The scheduler knows this worker only, which has a free slot. *)
Definition one_worker (w : W) : Prop :=
  sane (sv_workers (g_svc w)) ∧
  (∀ k, is_Some (sv_workers (g_svc w) !! k) → k = wkc_ID cfg) ∧
  ∃ c, sv_workers (g_svc w) !! wkc_ID cfg = Some c ∧ IsAssignable (wc_info c) = true.

(** The request that is pushed for a job of [req]. *)
Definition push_of (req : CreateJobRequest) (id x : string) (push : ExecuteJobRequest) : Prop :=
  er_JobId push = id ∧ er_ExecutionId push = x ∧ er_Attempt push = 1 ∧
  er_Type push = default_type (req_Type req) ∧
  er_Payload push = Some (default "{}" (req_Payload req)).

(** Between the two halves: the job runs on the worker as its first attempt. *)
Definition on_its_way (req : CreateJobRequest) (w : W) (push : option ExecuteJobRequest) (w2 : W) :
    Prop :=
  ∃ id x jr c t addr p, push = Some p ∧ push_of req id x p ∧ x ≠ "" ∧
    id ≠ "" ∧ jobs (g_store w) !! id = None ∧
    jobs (g_store w2) = <[id := jr]> (jobs (g_store w)) ∧
    same_spec (set_CreatedAt (j_CreatedAt jr) (job_of req id)) jr ∧
    j_State jr = JobStateRunning ∧ j_Attempt jr = 1 ∧
    (∃ m, execs (g_store w2) =
       <[x := stamp_execution x t (pending_execution m c x)]> (execs (g_store w)) ∧
       q_JobID m = id ∧ q_Attempt m = 0) ∧
    workers (g_store w2) = workers (g_store w) ∧ mq_items (g_queue w2) = [] ∧
    sv_workers (g_svc w2) = alter one_more (wkc_ID cfg) (sv_workers (g_svc w)) ∧
    g_rpcs w2 = g_rpcs w ++ [RpcExecuteJob addr p].

(** A round of the consumer for the only message, with willing workers. *)
Lemma wp_consume_dispatch m j n s q v ev rp :
  willing → mq_closed q = false → mq_items q = [m] →
  jobs s !! q_JobID m = Some j → queueable (j_State j) = true →
  (∃ k c, sv_workers v !! k = Some c ∧ IsAssignable (wc_info c) = true) →
  wp (consume_one handleQueuedJob) (λ _ w2, mq_items (g_queue w2) = [] ∧
    ∃ c, least_loaded (table (sv_workers v)) c ∧ ∃ x t j', x ≠ "" ∧
      assigned j m c x true j' ∧
      jobs (g_store w2) = <[q_JobID m := j']> (jobs s) ∧
      execs (g_store w2) = <[x := stamp_execution x t (pending_execution m c x)]> (execs s) ∧
      workers (g_store w2) = workers s ∧
      g_rpcs w2 = rp ++ [RpcExecuteJob (wc_conn c)
        (execute_request (set_q_Attempt_ExecutionID (int64 (q_Attempt m + 1)) x m) x)] ∧
      sv_workers (g_svc w2) = alter one_more (w_ID (wc_info c)) (sv_workers v))
    (mkWorld n s q v ev rp).
Proof.
  intros Hw Hc Hq Hj Hqb Hass. eapply wp_mono.
  { apply (wp_consume_one handleQueuedJob m [] n s q v ev rp
      (λ r s' v' rp', r = None ∧ ∃ c, least_loaded (table (sv_workers v)) c ∧
         dispatched j m c (mkWorld n s q v ev rp) r (mkWorld n s' q v' ev rp'))); [done|done|].
    intros n'. eapply wp_mono; [apply wp_and;
      [by apply (wp_handleQueuedJob_queueable _ _ j)|by apply wp_handleQueuedJob_willing]|].
    intros r w' [[(Hno & _)|(c & Hc2 & Hd)] ->]; cbn [g_svc] in *.
    { destruct Hass as (k & c & Hk & Ha). by rewrite (Hno _ _ Hk) in Ha. }
    destruct w' as [n2 s2 q2 v2 ev2 rp2]. cbn [g_store g_svc g_rpcs g_queue].
    split; [by destruct Hd as (? & ? & ? & _ & _ & _ & _ & _ & ? & _)|].
    split; [done|]. exists c. split; [done|].
    destruct Hd as (x & t' & j' & Hd). exists x, t', j'. cbn in *. naive_solver. }
  intros out w2 (err & _ & (-> & c & Hc2 & x & t & j' & Hx & Ha & Hjs & Hxs & Hws & _ & Hrp & Hsv)
    & _ & Hitems).
  rewrite bool_decide_true in Ha, Hsv by done. cbn [g_store g_queue g_svc g_rpcs] in *.
  split; [done|]. exists c. split; [done|]. exists x, t, j'. by split_and!.
Qed.

Lemma wp_dispatch_submission (w : W) req :
  willing → good w → valid_request req →
  sc_Type (default_schedule (req_Schedule req)) = ScheduleImmediate →
  req_IdempotencyKey req = "" ∨ idem (g_store w) !! req_IdempotencyKey req = None →
  mq_closed (g_queue w) = false → mq_items (g_queue w) = [] → one_worker w →
  wp (dispatch_submission req) (λ out w2, r_status out.1 = StatusCreated ∧
    on_its_way req w out.2 w2) w.
Proof.
  destruct w as [n s q v ev rp]. unfold one_worker. cbn [g_store g_queue g_svc].
  intros Hw Hg Hv Hsch Hkey Hc Hq (Hs & Hone & c0 & Hc0 & Ha0). unfold dispatch_submission.
  apply wp_bind, wp_createJob_new; [done..|].
  intros n1 s1 q1 ev1 now id t j1 resp Hr Ht Hid Hnew Hj1 Hx1 Hw1 Hc1 Hsub Hq1.
  assert (t = now) as ->.
  { unfold first_run in Ht. rewrite bool_decide_true in Ht by done. congruence. }
  rewrite bool_decide_true in Hsub, Hq1 by done. destruct Hsub as (Hspec & _ & _ & _ & Hst).
  destruct Hq1 as (tq & jq & Hready & Hjq & Hatt). cbn in Hready, Hc1.
  rewrite Hq in Hready. apply Permutation_singleton_r in Hready.
  assert (j_ID jq = id) as Hidq.
  { destruct Hjq as [Hi _]. destruct Hspec as [Hi' _]. cbn in Hi'. congruence. }
  apply wp_bind. eapply wp_mono; [apply (wp_consume_dispatch (queued_of jq tq) j1); try done|].
  { cbn. rewrite Hidq, Hj1. apply lookup_insert_eq. }
  { by rewrite Hst. }
  { eauto. }
  intros out w2 (Hitems & c & Hc2 & x & t' & j' & Hx & Ha & Hjs & Hxs & Hws & Hrp & Hsv).
  destruct Hc2 as ([k1 Hk1]%elem_of_table & _ & _).
  assert (k1 = wkc_ID cfg) as -> by eauto.
  assert (w_ID (wc_info c) = wkc_ID cfg) as Hcid by by eapply Hs.
  destruct Ha as (Hsp & _ & _ & Hat & _ & Hrun & _).
  apply wp_bind. unfold last_push. apply wp_ret. cbn [fst snd]. split; [done|].
  rewrite Hrp, last_snoc. cbn [q_JobID queued_of] in Hjs. rewrite Hidq in Hjs.
  eexists id, x, j', c, t', (wc_conn c), _. split; [done|]. split_and!; try done.
  - unfold push_of, same_spec in *. cbn in *. rewrite Hatt. destruct_and?.
    split_and!; [congruence|done|done|congruence|congruence].
  - cbn. by rewrite Hjs, Hj1, insert_insert_eq.
  - etrans; [|done]. assert (j_CreatedAt j' = j_CreatedAt j1) as -> by apply Hsp. done.
  - rewrite Hat. cbn. by rewrite Hatt.
  - exists (queued_of jq tq). cbn. by rewrite Hxs, Hx1.
  - cbn. congruence.
  - cbn. by rewrite Hsv, Hcid.
Qed.

(** C3: a submitted job runs, and its result is its outcome.  Let one worker
    with a free slot be registered, let the network deliver its answers and its
    report, and let the clock pass every instant.  A valid request for an
    immediate job under a new key is answered with 201, and after one round of
    the consumer and the worker's goroutine (which ends): exactly one job was
    created, as requested; it was pushed to the worker once, as its first
    attempt, and executed; it is settled in the state [outcome_state] assigns to
    the executor's result, COMPLETED when the result is a success; one execution
    record was added, with the job, the attempt, the output and the error; and
    queue, worker and the scheduler's count of its jobs are as before. *)
Theorem submission_runs (w : W) req wk ctx :
  good w → valid_request req →
  sc_Type (default_schedule (req_Schedule req)) = ScheduleImmediate →
  req_IdempotencyKey req = "" ∨ idem (g_store w) !! req_IdempotencyKey req = None →
  mq_closed (g_queue w) = false → mq_items (g_queue w) = [] → one_worker w →
  wkc_Capacity cfg < 2 ^ 31 → worker_ok cfg [] wk → capacity_test cfg wk = false →
  (∀ n addr r, env_ExecuteJob n addr r = Ok (Some (worker_ExecuteJob cfg r wk).1)) →
  ValidWorkerToken auth token = true →
  (∀ t, ∃ N, ∀ m, (N ≤ m)%nat → t ≤ env_now m) →
  ∃ fuel0, ∀ fuel, (fuel0 ≤ fuel)%nat →
    wp (run_submission auth cfg token fuel ctx req wk) (λ out w',
      ∃ resp res wk' id x jr j ex now addr push,
        out = (resp, Some res, wk') ∧ r_status resp = StatusCreated ∧
        jobs (g_store w) !! id = None ∧ jobs (g_store w') = <[id := j]> (jobs (g_store w)) ∧
        same_spec (set_CreatedAt (j_CreatedAt j) (job_of req id)) j ∧
        j_State jr = JobStateRunning ∧ same_spec jr j ∧ settled env_oob jr 1 now j ∧
        j_State j = outcome_state jr 1 res ∧
        (res_Success res = true → j_State j = JobStateCompleted ∧ j_CompletedAt j = Some now) ∧
        execs (g_store w') = <[x := ex]> (execs (g_store w)) ∧
        x_JobID ex = id ∧ x_Attempt ex = 1 ∧ x_State ex = outcome_execution jr res ∧
        x_Output ex = res_Output res ∧ x_Error ex = res_Error res ∧
        push_of req id x push ∧ g_rpcs w' = g_rpcs w ++ [RpcExecuteJob addr push] ∧
        mq_items (g_queue w') = [] ∧ sv_workers (g_svc w') = sv_workers (g_svc w) ∧
        wk_active wk' = wk_active wk ∧ wk_running wk' = wk_running wk) w.
Proof.
  intros Hg Hv Hsch Hkey Hc Hq Hone Hcap Hok Hct Hnet Ht Hclock.
  assert (willing) as Hw.
  { intros n addr r. eexists. rewrite Hnet. unfold worker_ExecuteJob. by rewrite Hct. }
  pose proof (wp_dispatch_submission w req Hw Hg Hv Hsch Hkey Hc Hq Hone) as Hd.
  unfold run_submission. unfold wp in Hd.
  destruct (dispatch_submission req w) as [[resp push] w2] eqn:Hrun. cbn [fst snd] in Hd.
  destruct Hd as (Hr & id & x & jr & c & t & addr & p & -> & Hp & Hx & Hid & Hnew & Hjs & Hspec &
    Hst & Hat & (m & Hxs & Hm & Hma) & Hws & Hitems & Hsv & Hrp).
  pose proof Hp as (Hpid & Hpx & Hpa & _).
  destruct (Hclock (time_add (env_now (Datatypes.S (g_tick w2))) (burn_time (er_Payload p))))
    as [N HN].
  exists (Datatypes.S N). intros fuel Hfuel. apply wp_bind. unfold wp at 1. rewrite Hrun. cbn [fst snd].
  apply wp_bind. unfold serve_job, worker_ExecuteJob. rewrite Hct. cbn [eresp_Accepted].
  apply wp_bind. destruct w2 as [n2 s2 q2 v2 ev2 rp2]. cbn [g_tick g_store g_queue g_svc g_rpcs] in *.
  destruct (finish_started cfg p wk Hcap Hok Hct) as [Hwa Hwr].
  eapply (wp_run_task _ _ _ N _ _ _ jr); [done|lia|done| |by rewrite Hst| |].
  { rewrite Hjs, Hpid. apply lookup_insert_eq. }
  { destruct Hspec as (_ & _ & _ & _ & _ & Hs & _). rewrite Hs. cbn. by rewrite Hsch. }
  rewrite Hpid, Hpx, Hpa.
  intros n' res res' w' Hcoh Ho Hox Hsu Hou Her ((now & j & Hset & Hj & Hjs') & [tx Hxs'] & Hi' & Hw' &
    Hq' & Hrp' & Hsv'). apply wp_ret, wp_ret. cbn [g_store g_queue g_svc g_rpcs fst snd] in *.
  eexists resp, res, _, id, x, jr, j, _, now, addr, p. split; [done|]. split; [done|].
  split; [done|]. split; [by rewrite Hjs', Hjs, insert_insert_eq|]. split.
  { etrans; [|apply Hset]. assert (j_CreatedAt j = j_CreatedAt jr) as -> by apply Hset. done. }
  split; [done|]. split; [apply Hset|]. split; [done|]. split; [congruence|]. split.
  { intros Hsucc. rewrite Hj, Ho. assert (outcome_state jr 1 res = JobStateCompleted) as Hout.
    { by apply success_completes. }
    split; [done|]. destruct Hset as (_ & _ & Hset). rewrite Hj, Ho, Hout in Hset.
    rewrite bool_decide_false in Hset by done. apply Hset. }
  split.
  { rewrite Hxs', bool_decide_false by done. by rewrite Hxs, alter_insert_eq. }
  cbn. split_and!; try done.
  - by rewrite Hma.
  - by rewrite Hrp', Hrp.
  - by rewrite Hq'.
  - rewrite Hsv'. cbn. rewrite Hsv. destruct Hone as (Hs & _ & c' & Hc' & Ha').
    by apply (release_one_more _ _ c').
Qed.
End facts.

(** ** A concrete run *)

#[local] Existing Instance sample_env.
#[local] Existing Instance sample_env_laws.
#[local] Existing Instance sample_cron.
#[local] Existing Instance sample_lib.

Definition echo_request : CreateJobRequest :=
  mkCreateJobRequest "job" "" (Some "echo") 0 (mkSchedule "" None 0 "" "") None 0 "" None.

Definition idle_world : World MemStore MemQueue Service :=
  sample_world [] [sample_conn "w1" 0].

Definition sample_auth : Authenticator := auth_New ["k"] ["t"] false.
Definition long_ctx : Ctx := mkCtx (2000 * Hour) DeadlineExceeded.

(** Its job is completed, after one attempt. *)
Example echo_completes :
  let w' := (run_submission sample_auth sample_worker_config "t" 10 long_ctx echo_request
               worker_New idle_world).2 in
  (λ kv : string * Job, (j_State kv.2, j_Attempt kv.2)) <$> map_to_list (jobs (g_store w'))
  = [(JobStateCompleted, 1)].
Proof. by vm_compute. Qed.

Lemma submission_runs_witness :
  ∃ fuel id j,
    jobs (g_store (run_submission sample_auth sample_worker_config "t" fuel long_ctx echo_request
      worker_New idle_world).2) !! id = Some j ∧ j_MaxAttempts j = 3.
Proof.
  destruct (submission_runs sample_auth sample_worker_config "t" idle_world echo_request worker_New
    long_ctx) as [fuel0 Hf].
  - sample_good.
  - split_and!; try done. by left.
  - done.
  - by left.
  - done.
  - done.
  - assert (sv_workers (g_svc idle_world) = {["w1" := (sample_conn "w1" 0).2]}) as E by reflexivity.
    unfold one_worker. rewrite E. split; [|split].
    + intros k c. rewrite lookup_singleton. case_decide; [|done].
      intros [= <-]. by split_and!.
    + intros k. rewrite lookup_singleton. by case_decide; [|intros [? ?]].
    + eexists. by split.
  - done.
  - split_and!; [done|cbn; lia|done|]. intros jobID i. cbn. by rewrite lookup_empty.
  - done.
  - done.
  - by vm_compute.
  - intros t. exists (Z.to_nat t). intros m Hm. change (env_now m) with (sample_now m).
    unfold sample_now, Hour, Second, Millisecond. lia.
  - destruct (Hf fuel0 (le_n _)) as (_ & _ & _ & id & _ & _ & j & _ & _ & _ & _ & _ & _ & _ & Hj &
      Hs & _).
    exists fuel0, id, j. rewrite Hj. split; [apply lookup_insert_eq|].
    destruct Hs as (_ & _ & _ & _ & _ & _ & _ & _ & _ & -> & _). done.
Defined.
