(* ===== verification/Outbox.v ===== *)
(** * internal/events and internal/outbox: events on their way to Kafka

    [Publisher.Emit] of events/publisher.go writes an event into the outbox of
    the store, [flush] of outbox/publisher.go hands batches of rows to the
    Kafka writer.  The Kafka client is a parameter: it may deliver any part of a
    batch before it fails. *)

From S2P Require Import Prelude.
From S2P Require Import Float64.
From S2P Require Import Domain.
From S2P Require Import Config.
From S2P Require Import Ports.
From S2P Require Import Fixture.
From S2P Require Import MemStore.

Record KafkaMessage := mkKafkaMessage {
  km_Topic : string;
  km_Key : string;
  km_Value : option Event;
  km_Time : time;
}.

(** [WriteMessages]: what reaches the topics, and the error.  Documented: a nil
    error means that all messages were written. *)
Class KafkaWriter := {
  WriteMessages : nat → list KafkaMessage → list KafkaMessage * option GoError;
  WriteMessages_ok n msgs :
    (WriteMessages n msgs).2 = None → (WriteMessages n msgs).1 = msgs;
}.

Section outbox.
Context `{Env, KafkaWriter} {St : Type} `{JobStore St}.
Context (topics : KafkaConfig) (schedulerID : string).

(** The store, and what has been written to Kafka. *)
#[local] Abbreviation O := (M (nat * (St * list KafkaMessage))).

Definition storeO {A} (m : M (nat * St) A) : O A := λ nsl,
  match nsl with
  | (n, (s, l)) => match m (n, s) with (a, (n', s')) => (a, (n', (s', l))) end
  end.

Definition writeO (msgs : list KafkaMessage) : O (option GoError) := λ nsl,
  match nsl with
  | (n, (s, l)) =>
      match WriteMessages n msgs with (out, err) => (err, (Datatypes.S n, (s, l ++ out))) end
  end.

(** [Emit] of events.Publisher (the publisher and its store are not nil; the
    payload is a literal that always marshals). *)
Definition publisher_Emit (ty : EventType) (jobID executionID workerID : string) (attempt : Z)
    (payload : option fields) : O (option GoError) :=
  id ← ask env_uuid;
  now ← ask env_now;
  storeO (store_InsertOutbox (mkEvent id ty 1 now None jobID executionID workerID schedulerID
                                attempt "" payload)).

(** [Emit] of events.NoopPublisher. *)
Definition noop_Emit (ty : EventType) (jobID executionID workerID : string) (attempt : Z)
    (payload : option fields) : O (option GoError) := mret None.

Definition topicFor (eventType : string) : string :=
  if String.prefix "JOB_" eventType then kc_JobEventsTopic topics
  else if String.prefix "WORKER_" eventType then kc_WorkerEventsTopic topics
  else if String.prefix "SCHEDULER_" eventType then kc_SchedulerEventsTopic topics
  else kc_JobEventsTopic topics.

(** The message of a row; its key is the job, or the event where there is no
    job. *)
Definition message_of (r : OutboxRow) : KafkaMessage :=
  mkKafkaMessage (topicFor (ob_EventType r))
    (if bool_decide (ob_AggregateID r = "") then ob_ID r else ob_AggregateID r)
    (ob_Payload r) (ob_CreatedAt r).

Definition flush : O (option GoError) :=
  rows ← storeO (store_FetchOutboxBatch 100);
  match rows with
  | Err e => mret (Some e)
  | Ok [] => mret None
  | Ok rows =>
      err ← writeO (message_of <$> rows);
      match err with
      | Some e => mret (Some e)
      | None => storeO (store_MarkOutboxPublished (ob_ID <$> rows))
      end
  end.
End outbox.

(** ** No event is lost *)

(** What the publisher relies on: the rows that are not published yet.  A call
    may fail, and a failed call may have had its effect. *)
Class OutboxLaws (S : Type) `{Env, JobStore S} := {
  outbox : S → list OutboxRow;
  InsertOutbox_spec k ev n s :
    ev_EventID ev = env_uuid k →
    wp (store_InsertOutbox ev) (post n (λ r s',
      (r ≠ None ∧ outbox s' ≡ₚ outbox s) ∨
      ∃ row, outbox s' ≡ₚ row :: outbox s ∧ ob_ID row = ev_EventID ev ∧
        ob_EventType row = EventType_string (ev_EventType ev) ∧
        ob_AggregateID row = ev_JobID ev)) (n, s);
  FetchOutboxBatch_spec limit n s :
    wp (store_FetchOutboxBatch limit) (post n (λ r s', s' = s ∧
      ∀ l, r = Ok l → l ⊆ outbox s)) (n, s);
  MarkOutboxPublished_spec ids n s :
    (∀ id, id ∈ ids → ∃ k, id = env_uuid k) →
    wp (store_MarkOutboxPublished ids) (post n (λ r s', outbox s' ⊆+ outbox s ∧
      ∀ row, row ∈ outbox s → row ∈ outbox s' ∨ ob_ID row ∈ ids)) (n, s);
}.

#[global] Instance mem_OutboxLaws `{Env} : OutboxLaws MemStore.
Proof.
  refine {| outbox := ms_outbox |}.
  - intros k ev n s _. cbn. unfold mem_InsertOutbox. wp_steps. split; [done|]. right.
    eexists. split; [symmetry; apply Permutation_cons_append|done].
  - intros limit n s. cbn. unfold mem_FetchOutboxBatch. wp_steps.
    destruct (bool_decide (_ < 0)); wp_steps; (split; [done|]); split; try done.
    intros l [= <-] r Hr. by apply elem_of_take in Hr as (i & Hi%list_elem_of_lookup_2 & _).
  - intros ids n s _. cbn. unfold mem_MarkOutboxPublished. wp_steps. split; [done|]. split.
    + apply sublist_submseteq, sublist_filter.
    + intros row Hr. destruct (decide (ob_ID row ∈ ids)); [by right|left].
      by apply list_elem_of_filter.
Defined.

Section delivery.
Context `{Env, !EnvLaws, KafkaWriter} {St : Type} `{!JobStore St, !OutboxLaws St}.
Context (topics : KafkaConfig) (schedulerID : string).
#[local] Abbreviation state := (nat * (St * list KafkaMessage))%type.

Definition rows (s : state) : list OutboxRow := outbox s.2.1.
Definition written (s : state) : list KafkaMessage := s.2.2.

(** Components emit events while the publisher flushes. *)
Inductive outbox_step : state → state → Prop :=
  | step_emit ty j x k a p s :
      outbox_step s (publisher_Emit schedulerID ty j x k a p s).2
  | step_flush s : outbox_step s (flush topics s).2.

(** Row identifiers are UUIDs that were handed out before, each once. *)
Definition outbox_ok (s : state) : Prop :=
  NoDup (ob_ID <$> rows s) ∧ ∀ r, r ∈ rows s → ∃ m, (m < s.1)%nat ∧ ob_ID r = env_uuid m.

(** Every row of [s] is still there or was written. *)
Definition kept (s s' : state) : Prop :=
  (∃ more, written s' = written s ++ more) ∧
  ∀ r, r ∈ rows s → r ∈ rows s' ∨ message_of topics r ∈ written s'.

#[global] Instance kept_preorder : PreOrder kept.
Proof.
  split.
  - intros s. split; [exists []; by rewrite app_nil_r|auto].
  - intros s1 s2 s3 [[m1 E1] Hr1] [[m2 E2] Hr2].
    split; [exists (m1 ++ m2); by rewrite E2, E1, app_assoc|].
    intros r Hr. destruct (Hr1 r Hr) as [Hr'|Hw]; [by apply Hr2|]. right. rewrite E2. set_solver.
Qed.

Lemma wp_storeO {A} (m : M (nat * St) A) P Q n s l :
  wp m P (n, s) → (∀ a n' s', P a (n', s') → Q a (n', (s', l))) → wp (storeO m) Q (n, (s, l)).
Proof. unfold wp, storeO. destruct (m (n, s)) as [a [n' s']]. eauto. Qed.

Lemma wp_writeO msgs (Q : option GoError → state → Prop) n s l :
  (∀ out err, (err = None → out = msgs) → Q err (Datatypes.S n, (s, l ++ out))) →
  wp (writeO msgs) Q (n, (s, l)).
Proof.
  intros HQ. unfold wp, writeO. pose proof (WriteMessages_ok n msgs) as Hok.
  destruct (WriteMessages n msgs) as [out err]. cbn in *. by apply HQ.
Qed.

Lemma outbox_ok_sub n n' (s s' : St) l l' :
  (n ≤ n')%nat → outbox s' ⊆+ outbox s → outbox_ok (n, (s, l)) → outbox_ok (n', (s', l')).
Proof.
  intros Hn Hsub [Hnd Hid]. split; cbn in *.
  - apply submseteq_Permutation in Hsub as [k Hp]. rewrite Hp, fmap_app in Hnd.
    by apply NoDup_app in Hnd as [? _].
  - intros r Hr. destruct (Hid r) as (m & Hm & ?); [by eapply elem_of_submseteq|].
    exists m. split; [cbn; lia|done].
Qed.

(** What an emission leaves behind: an event that was accepted is a new row. *)
Lemma wp_emit ty j x k a p (s : state) :
  outbox_ok s →
  wp (publisher_Emit schedulerID ty j x k a p) (λ r s', outbox_ok s' ∧
    written s' = written s ∧ (∀ row, row ∈ rows s → row ∈ rows s') ∧
    (r = None → ∃ row, row ∈ rows s' ∧
      ob_EventType row = EventType_string ty ∧ ob_AggregateID row = j)) s.
Proof.
  destruct s as [n [s l]]. intros Hok. unfold publisher_Emit. wp_steps.
  eapply wp_storeO; [by apply (InsertOutbox_spec n)|].
  intros r n' s' [Hn Hcase]. cbn in Hn. unfold rows. cbn [fst snd].
  destruct Hcase as [[Hr Hrows]|(row & Hrows & Hrid & Hty & Hagg)].
  { split_and!; [|done| |done].
    - eapply outbox_ok_sub; [|by apply Permutation_submseteq|exact Hok]. lia.
    - intros row. by rewrite Hrows. }
  destruct Hok as [Hnd Hid]. cbn in Hid, Hnd, Hrid. split_and!; [split|done| |].
  - cbn. rewrite Hrows. cbn. apply NoDup_cons. split; [|done].
    intros (r0 & Heq & Hr)%list_elem_of_fmap. destruct (Hid r0 Hr) as (m & Hm & Heq').
    rewrite Hrid, Heq' in Heq. apply env_uuid_inj in Heq. lia.
  - intros r0. cbn. rewrite Hrows, elem_of_cons. intros [->|Hr].
    + exists n. split; [lia|done].
    + destruct (Hid r0 Hr) as (m & Hm & Heq). exists m. split; [lia|done].
  - intros r0. rewrite Hrows. set_solver.
  - intros _. exists row. rewrite Hrows. set_solver.
Qed.

Lemma wp_flush (s : state) :
  outbox_ok s → wp (flush topics) (λ _ s', outbox_ok s' ∧ kept s s') s.
Proof.
  destruct s as [n [s l]]. intros Hok. unfold flush. wp_step.
  eapply wp_storeO; [apply FetchOutboxBatch_spec|].
  intros r n1 s1 (Hn1 & Hs1 & Hsub). cbn in Hn1, Hs1. subst s1.
  assert (∀ n' l' more, (n ≤ n')%nat → l' = l ++ more →
    outbox_ok (n', (s, l')) ∧ kept (n, (s, l)) (n', (s, l'))) as Hsame.
  { intros n' l' more Hn' ->. split; [by eapply outbox_ok_sub; [| |exact Hok]|].
    split; [by exists more|by left]. }
  destruct r as [[|b batch]|e]; [wp_steps; by apply (Hsame _ _ []); [|rewrite app_nil_r]| |].
  2:{ wp_steps. by apply (Hsame _ _ []); [|rewrite app_nil_r]. }
  specialize (Hsub _ eq_refl). wp_step. apply wp_writeO. intros out err Herr.
  destruct err as [e|]; [wp_steps; eapply Hsame; [lia|done]|].
  rewrite Herr by done. eapply wp_storeO; [apply MarkOutboxPublished_spec|].
  { intros id (r & -> & Hr)%list_elem_of_fmap. destruct Hok as [_ Hid].
    destruct (Hid r) as (k & _ & ?); [by apply Hsub|eauto]. }
  intros r n2 s2 (Hn2 & Hsm & Hf). cbn in Hn2. split; [by eapply outbox_ok_sub; [|exact Hsm|exact Hok]; lia|].
  split; [by eexists|]. unfold rows, written. cbn. intros r0 Hr.
  destruct (Hf r0 Hr) as [?|Hin]; [by left|right]. apply elem_of_app. right.
  apply list_elem_of_fmap in Hin as (r' & Heq & Hr').
  change (message_of topics r0 ∈ message_of topics <$> b :: batch). apply list_elem_of_fmap.
  exists r'. split; [|done]. f_equal. destruct Hok as [Hnd _].
  apply (NoDup_fmap_eq ob_ID (outbox s)); [done|done|by apply Hsub|done].
Qed.

Lemma outbox_step_kept s s' : outbox_step s s' → outbox_ok s → outbox_ok s' ∧ kept s s'.
Proof.
  intros Hstep Hok. destruct Hstep as [ty j x k a p s|s]; [|by apply (wp_flush s)].
  destruct (wp_emit ty j x k a p s Hok) as (Hok' & Hw & Hrows & _). split; [done|].
  split; [exists []; by rewrite app_nil_r|]. intros r Hr. left. by apply Hrows.
Qed.

Lemma outbox_steps_kept s s' : rtc outbox_step s s' → outbox_ok s → kept s s'.
Proof.
  induction 1 as [s|s1 s2 s3 Hs _ IH]; intros Hok; [reflexivity|].
  destruct (outbox_step_kept _ _ Hs Hok) as [Hok2 Hk]. etrans; [exact Hk|by apply IH].
Qed.

(** C24: no event is lost.  However emissions and flushes follow each other,
    whatever part of a batch Kafka accepts before it fails, and whichever calls of
    the store fail (with or without effect): what was written stays written, and
    every event that was ever in the outbox is still there or its message (under
    the job's key, on the topic of its kind) has been written.  An event whose
    emission did not fail is in the outbox. *)
Theorem events_not_lost s s' ty j x k a p :
  outbox_ok s → rtc outbox_step (publisher_Emit schedulerID ty j x k a p s).2 s' →
  (∃ more, written s' = written s ++ more) ∧
  (∀ r, r ∈ rows s → r ∈ rows s' ∨ message_of topics r ∈ written s') ∧
  ((publisher_Emit schedulerID ty j x k a p s).1 = None →
   ∃ row, ob_EventType row = EventType_string ty ∧ ob_AggregateID row = j ∧
     (row ∈ rows s' ∨ message_of topics row ∈ written s')).
Proof.
  intros Hok Hr. destruct (wp_emit ty j x k a p s Hok) as (Hok1 & Hw1 & Hrows & Hnew).
  destruct (outbox_steps_kept _ _ Hr Hok1) as [[more Hmore] Hk]. split_and!.
  - exists more. by rewrite Hmore, Hw1.
  - intros r Hin. by apply Hk, Hrows.
  - intros (row & Hin & Hty & Hj)%Hnew. exists row. auto.
Qed.
End delivery.

(** ** On the in-memory store *)

#[local] Existing Instance sample_env.
#[local] Existing Instance sample_env_laws.

(** Kafka accepts the first message of a batch and fails on longer ones. *)
Definition sample_kafka : KafkaWriter.
Proof.
  refine {| WriteMessages := λ _ msgs, (take 1 msgs,
    match msgs with [] | [_] => None | _ => Some (External "broker") end) |}.
  by intros n [|m [|m' ms]].
Defined.
#[local] Existing Instance sample_kafka.

Lemma events_not_lost_witness :
  let topics := mkKafkaConfig ["k:9092"] "jobs" "workers" "schedulers" "g" in
  let s := (publisher_Emit "s1" EventJobQueued "j1" "" "" 0 None (0%nat, (mem_New, []))).2 in
  ∃ row, ob_EventType row = "JOB_QUEUED" ∧ ob_AggregateID row = "j1" ∧
    (row ∈ rows (flush topics s).2 ∨ message_of topics row ∈ written (flush topics s).2).
Proof.
  intros topics s.
  destruct (events_not_lost topics "s1" (0%nat, (mem_New, [])) (flush topics s).2
    EventJobQueued "j1" "" "" 0 None) as (_ & _ & Hrow).
  - split; [constructor|]. by intros r ?%elem_of_nil.
  - apply rtc_once, step_flush.
  - by apply Hrow.
Defined.
