(* ===== verification/PgOutbox.v ===== *)
(** * The outbox on the database

    The Postgres store satisfies the laws of the outbox publisher, so that no
    event is lost on it either, whichever statements fail. *)

From S2P Require Import Prelude.
From S2P Require Import Float64.
From S2P Require Import Domain.
From S2P Require Import Config.
From S2P Require Import Ports.
From S2P Require Import Fixture.
From S2P Require Import MemStore.
From S2P Require Import Postgres.
From S2P Require Import PgProps.
From S2P Require Import PgQueries.
From S2P Require Import Outbox.

Section outbox.
Context `{Env, Pg, JsonLib, !PgLaws}.

(** The rows that are not published, in some order. *)
Definition pending (d : PgDB) : list OutboxRow :=
  scan_outbox <$> filter (λ ir, unpublished ir) (map_to_list (pg_outbox d)).

Lemma elem_of_pending r d :
  r ∈ pending d ↔ ∃ id row, r = scan_outbox (id, row) ∧ pg_outbox d !! id = Some row ∧
    or_published_at row = None.
Proof.
  unfold pending. rewrite list_elem_of_fmap. split.
  - intros ([id row] & -> & [Hu Hr]%list_elem_of_filter). apply elem_of_map_to_list in Hr.
    apply bool_decide_spec in Hu. eauto.
  - intros (id & row & -> & Hr & Hn). exists (id, row). split; [done|].
    rewrite list_elem_of_filter, elem_of_map_to_list. split; [by apply bool_decide_spec|done].
Qed.

Lemma pending_NoDup d : NoDup (ob_ID <$> pending d).
Proof.
  unfold pending. rewrite <- list_fmap_compose. apply NoDup_fmap_filter.
  apply (NoDup_fst_map_to_list (pg_outbox d)).
Qed.

Lemma pg_Insert_pending k ev n d :
  ev_EventID ev = env_uuid k →
  wp (pg_InsertOutbox ev) (post n (λ r d',
    (r ≠ None ∧ pending d' ≡ₚ pending d) ∨
    ∃ row, pending d' ≡ₚ row :: pending d ∧ ob_ID row = ev_EventID ev ∧
      ob_EventType row = EventType_string (ev_EventType ev) ∧
      ob_AggregateID row = ev_JobID ev)) (n, d).
Proof.
  intros Hid. unfold pg_InsertOutbox, post. wp_step. apply wp_stmt.
  { intros e. wp_steps. split; [lia|]. by left. }
  intros [] d' r Hins Hr. wp_steps. split; [lia|]. right.
  destruct (outbox_row ev) as [[id row]|] eqn:Hrow; [|done].
  destruct (pg_outbox d !! id) eqn:Hnone; [done|]. injection Hins as <-.
  exists (scan_outbox (id, row)). unfold outbox_row in Hrow. invert_row Hrow.
  match goal with H : col_text _ = Some _ |- _ => apply col_text_Some in H as -> end.
  unfold pending. cbn. rewrite map_to_list_insert by done. rewrite filter_cons_True by done.
  split; [done|]. rewrite Hid in *. match goal with H : pg_uuid _ = Some _ |- _ => rewrite pg_uuid_new in H end.
  naive_solver.
Qed.

Lemma pg_Fetch_pending limit n d :
  wp (pg_FetchOutboxBatch limit) (post n (λ r d', d' = d ∧
    ∀ l, r = Ok l → l ⊆ pending d)) (n, d).
Proof.
  unfold pg_FetchOutboxBatch, post. wp_steps. apply wp_query. intros r Hr. wp_steps.
  split; [lia|]. split; [done|]. destruct Hr as [->|[e ->]]; [|done]. unfold sql_limit.
  case_bool_decide; [done|]. intros l [= <-] x (ir & -> & Hin)%list_elem_of_fmap.
  apply elem_of_take in Hin as (i & Hin%list_elem_of_lookup_2 & _).
  rewrite select_perm in Hin by apply env_order_perm.
  apply list_elem_of_filter in Hin as [Hk Hin]. apply list_elem_of_fmap. exists ir. split; [done|].
  apply list_elem_of_filter. split; [|done]. revert Hk. by destruct (unpublished ir).
Qed.

(** One UPDATE of [MarkOutboxPublished]. *)
Lemma pending_publish now id d :
  let d' := set_pg_outbox (alter (published_row now) id (pg_outbox d)) d in
  pending d' ⊆+ pending d ∧ ∀ row, row ∈ pending d → row ∈ pending d' ∨ ob_ID row = id.
Proof.
  cbn zeta. assert (∀ i r, alter (published_row now) id (pg_outbox d) !! i = Some r →
    or_published_at r = None → pg_outbox d !! i = Some r) as Hback.
  { intros i r. rewrite lookup_alter. case_decide; [|done].
    subst. destruct (pg_outbox d !! i); [|done]. by intros [= <-]. }
  split.
  - apply NoDup_submseteq; [apply (NoDup_fmap_1 ob_ID), pending_NoDup|].
    intros x. rewrite !elem_of_pending. intros (i & r & -> & Hr & Hn). eauto 10.
  - intros x. rewrite !elem_of_pending. intros (i & r & -> & Hr & Hn). cbn.
    destruct (decide (i = id)) as [->|Hne]; [by right|]. left. exists i, r.
    by rewrite lookup_alter_ne.
Qed.

Lemma pg_Mark_pending ids n d :
  (∀ id, id ∈ ids → ∃ k, id = env_uuid k) →
  wp (pg_MarkOutboxPublished ids) (post n (λ r d', pending d' ⊆+ pending d ∧
    ∀ row, row ∈ pending d → row ∈ pending d' ∨ ob_ID row ∈ ids)) (n, d).
Proof.
  revert n d. induction ids as [|id ids IH]; intros n d Hids; unfold post; cbn [pg_MarkOutboxPublished].
  { wp_steps. split; [lia|]. split; [done|]. by left. }
  destruct (Hids id) as [k ->]; [set_solver|]. rewrite pg_uuid_new. wp_steps. apply wp_stmt.
  { intros e. wp_steps. split; [lia|]. split; [done|]. by left. }
  intros [] d' r [= <-] Hr. cbn beta zeta.
  destruct (pending_publish (pg_now n) (env_uuid k) d) as [Hsub Hkeep]. cbn zeta in Hsub, Hkeep.
  destruct Hr as [->|[e ->]].
  - cbn beta iota. eapply wp_mono; [apply IH; intros id Hid; apply Hids, elem_of_cons; by right|].
    intros r [n2 d2] (Hn & Hsub2 & Hkeep2). cbn in *.
    split; [lia|]. split; [by etrans|]. setoid_rewrite elem_of_cons.
    intros row [Hr| ->]%Hkeep; [|auto]. destruct (Hkeep2 _ Hr); auto.
  - wp_steps. split; [lia|]. split; [done|]. setoid_rewrite elem_of_cons.
    intros row [Hr| ->]%Hkeep; auto.
Qed.

#[global] Instance pg_OutboxLaws : OutboxLaws PgDB.
Proof.
  refine {| outbox := pending |}.
  - apply pg_Insert_pending.
  - apply pg_Fetch_pending.
  - apply pg_Mark_pending.
Defined.
End outbox.
