(* ===== verification/Registry.v ===== *)
(** * internal/queue/registry.go: the queue backends by name

    The table of factories; a queue of any backend is a value of [Q], and the
    factories of the two built-in backends are arguments. *)

From S2P Require Import Prelude.
From S2P Require Import Ports.
From S2P Require Import Config.
From S2P Require Import MemQueue.
From S2P Require Import Kafka.

(** domain.QueueConfig *)
Record BackendConfig := mkBackendConfig {
  bc_Backend : string;
  bc_KafkaBrokers : list string;
  bc_KafkaTopic : string;
  bc_KafkaGroup : string;
  bc_PostgresDSN : string;
  bc_RedisAddr : string;
}.

Section registry.
Context `{Env} {Q : Type}.

Definition QueueFactory : Type := BackendConfig → result Q.
Definition factories : Type := gmap string QueueFactory.

Definition registry_Register (name : string) (factory : QueueFactory) (m : factories) : factories :=
  <[name := factory]> m.

(** [init] of the package. *)
Definition registry_init (kafka memory : QueueFactory) : factories :=
  registry_Register "memory" memory (registry_Register "kafka" kafka ∅).

(** The names in the order of the range. *)
Definition registry_List : M (nat * factories) (list string) :=
  m ← getst;
  ask (λ n, env_order n (map_to_list m).*1).

Definition registry_New (cfg : BackendConfig) : M (nat * factories) (result Q) :=
  let backend := if bool_decide (bc_Backend cfg = "") then "kafka" else bc_Backend cfg in
  m ← getst;
  match m !! backend with
  | None =>
      names ← registry_List;
      mret (Err (Errorf "unknown queue backend %q (registered: %v)" (backend :: names)))
  | Some factory => mret (factory cfg)
  end.

(** [newActiveQueue] of internal/app/wire.go: [named] are the instances of the
    container's named services. *)
Definition newActiveQueue (named : string → result Q) (cfg : QueueConfig) :
    M (nat * factories) (result Q) :=
  let backend := if bool_decide (qc_Backend cfg = "") then "kafka" else qc_Backend cfg in
  if bool_decide (backend = "kafka") || bool_decide (backend = "memory")
  then mret (named backend)
  else registry_New (mkBackendConfig backend (qc_KafkaBrokers cfg) (qc_KafkaTopic cfg)
                       (qc_KafkaGroup cfg) "" "").

(** [queueBackends] of internal/api/server.go: the active backend and the
    registered ones. *)
Definition queueBackends (active : string) : M (nat * factories) (string * list string) :=
  registered ← registry_List;
  mret (active, registered).

(** The configured backend is the one that is built: its factory is the last
    one registered under its name, kafka when none is configured, and an unknown
    name is an error that lists exactly the registered names. *)
Lemma registry_New_spec cfg n m :
  let backend := if bool_decide (bc_Backend cfg = "") then "kafka" else bc_Backend cfg in
  wp (registry_New cfg) (λ r nm, nm.2 = m ∧
    match m !! backend with
    | Some factory => r = factory cfg
    | None => ∃ names, r = Err (Errorf "unknown queue backend %q (registered: %v)"
                                  (backend :: names)) ∧
        NoDup names ∧ ∀ k, k ∈ names ↔ is_Some (m !! k)
    end) (n, m).
Proof.
  intros backend. unfold registry_New, registry_List. fold backend. wp_steps.
  destruct (m !! backend); wp_steps; (split; [done|]); [done|].
  eexists. split; [done|]. split.
  - rewrite env_order_perm. apply NoDup_fst_map_to_list.
  - intros k. rewrite env_order_perm, list_elem_of_fmap. split.
    + intros ([k' f] & -> & Hk%elem_of_map_to_list). by exists f.
    + intros [f Hf]. exists (k, f). split; [done|]. by apply elem_of_map_to_list.
Qed.
End registry.

(** ** The built-in backends *)

(** A queue of one of the built-in kinds; [K] is the Kafka client. *)
Inductive AnyQueue (K : Type) :=
  | QKafka (q : KafkaQueue K)
  | QMemory (q : MemQueue).
Arguments QKafka {K} q.
Arguments QMemory {K} q.

Section builtin.
Context `{Env} {K : Type} `{!KafkaClient K} (client : K).

Definition kafka_factory (cfg : BackendConfig) : result (AnyQueue K) :=
  match kafka_New (mkKafkaQueueConfig (bc_KafkaBrokers cfg) (bc_KafkaTopic cfg)
                     (bc_KafkaGroup cfg)) client with
  | Ok q => Ok (QKafka q)
  | Err e => Err e
  end.
Definition memory_factory (cfg : BackendConfig) : result (AnyQueue K) := Ok (QMemory mq_New).

(** With the built-in backends an unset backend is Kafka, with the default
    topic and group where none is configured, and Kafka without brokers is an
    error. *)
Lemma builtin_backends cfg n :
  wp (registry_New cfg) (λ r _,
    (bc_Backend cfg = "memory" → r = Ok (QMemory mq_New)) ∧
    (bc_Backend cfg = "" ∨ bc_Backend cfg = "kafka" →
       match bc_KafkaBrokers cfg with
       | [] => r = Err (Errorf "kafka queue: brokers required" [])
       | _ => ∃ q, r = Ok (QKafka q) ∧ kq_closed q = false ∧
           kqc_Brokers (kq_cfg q) = bc_KafkaBrokers cfg ∧
           kqc_Topic (kq_cfg q) ≠ "" ∧ kqc_Group (kq_cfg q) ≠ ""
       end))
    (n, registry_init kafka_factory memory_factory).
Proof.
  eapply wp_mono; [apply registry_New_spec|]. intros r nm [_ Hr]. split.
  - intros Hb. rewrite Hb, bool_decide_false in Hr by done.
    by change (registry_init kafka_factory memory_factory !! "memory")
      with (Some memory_factory) in Hr.
  - intros Hb. assert (r = kafka_factory cfg) as ->.
    { revert Hr. replace (if bool_decide (bc_Backend cfg = "") then "kafka" else bc_Backend cfg)
        with "kafka" by (destruct Hb as [->|Hb]; [done|rewrite Hb; done]).
      by change (registry_init kafka_factory memory_factory !! "kafka")
        with (Some kafka_factory). }
    unfold kafka_factory, kafka_New. cbn [kqc_Brokers kqc_Topic kqc_Group].
    destruct (bc_KafkaBrokers cfg); [done|]. eexists. split; [done|]. cbn.
    clear Hr. split_and!; [done|done|by case_bool_decide|by case_bool_decide].
Qed.
End builtin.
