(* ===== verification/App.v ===== *)
(** * internal/app/wire.go: which parts a process is built from

    [Register] with the constructors it declares, as functions of the
    configuration.  The container (nexus) is a parameter: the result of its
    validation, and that a named service is what its constructor returns. *)

From S2P Require Import Prelude.
From S2P Require Import Domain.
From S2P Require Import Auth.
From S2P Require Import Config.
From S2P Require Import Ports.
From S2P Require Import MemQueue.
From S2P Require Import Kafka.
From S2P Require Import Registry.
From S2P Require Import Outbox.

Section app.
Context `{OS}.

(** The configuration and the authenticator of a process. *)
Definition Register (validate : Config → option GoError) (serviceName : string) :
    result (Config * Authenticator) :=
  let cfg := Load serviceName in
  match validate cfg with
  | Some e => Err (Wrapf "nexus validate: %w" e)
  | None => Ok (cfg, auth_New (auc_APIKeys (c_Auth cfg)) (auc_WorkerTokens (c_Auth cfg))
                       (auc_Disabled (c_Auth cfg)))
  end.

Inductive Level := LevelDebug | LevelInfo | LevelWarn | LevelError.

(** The level of [Logger]. *)
Definition log_level : Level :=
  let v := Getenv "CHRONOS_LOG_LEVEL" in
  if bool_decide (v = "debug") then LevelDebug
  else if bool_decide (v = "warn") then LevelWarn
  else if bool_decide (v = "error") then LevelError
  else LevelInfo.

(** A registered process accepts the configured keys, and never the empty one. *)
Lemma Register_keys validate service cfg a key :
  Register validate service = Ok (cfg, a) → au_disabled a = false →
  ValidAPIKey a key = true ↔ key ∈ auc_APIKeys (c_Auth cfg).
Proof.
  unfold Register. destruct (validate _); [done|]. intros [= <- <-] Hd. cbn in Hd.
  unfold ValidAPIKey. cbn [au_disabled auth_New au_apiKeys]. rewrite Hd.
  rewrite bool_decide_eq_true, elem_of_non_empty. split; [by intros [_ ?]|].
  intros Hin. split; [|done]. exact (splitCSV_non_empty _ _ Hin).
Qed.
End app.

Section queues.
Context `{Env} {K : Type} `{!KafkaClient K} (client : K).

Definition newKafkaQueue (cfg : QueueConfig) : result (AnyQueue K) :=
  match kafka_New (mkKafkaQueueConfig (qc_KafkaBrokers cfg) (qc_KafkaTopic cfg)
                     (qc_KafkaGroup cfg)) client with
  | Ok q => Ok (QKafka q)
  | Err e => Err e
  end.
Definition newMemoryQueue (cfg : QueueConfig) : result (AnyQueue K) := Ok (QMemory mq_New).

(** The services that are declared by name. *)
Definition named_queue (cfg : QueueConfig) (name : string) : result (AnyQueue K) :=
  if bool_decide (name = "kafka") then newKafkaQueue cfg
  else if bool_decide (name = "memory") then newMemoryQueue cfg
  else Err (Errorf "not declared: %s" [name]).

(** The queue of a process: the in-memory one only if it is configured, Kafka
    if nothing is, and no process starts with any other name. *)
Lemma active_queue cfg n :
  wp (newActiveQueue (named_queue cfg) cfg) (λ r _,
    if bool_decide (qc_Backend cfg = "memory") then r = Ok (QMemory mq_New)
    else if bool_decide (qc_Backend cfg = "") || bool_decide (qc_Backend cfg = "kafka")
    then r = newKafkaQueue cfg
    else ∃ names, r = Err (Errorf "unknown queue backend %q (registered: %v)"
                             (qc_Backend cfg :: names)) ∧ names ≡ₚ ["kafka"; "memory"])
    (n, registry_init (kafka_factory client) (memory_factory)).
Proof.
  unfold newActiveQueue. destruct (decide (qc_Backend cfg = "")) as [He|Hne].
  { rewrite He. by wp_steps. }
  rewrite (bool_decide_false _ Hne). destruct (decide (qc_Backend cfg = "memory")) as [->|Hm];
    [by wp_steps|]. destruct (decide (qc_Backend cfg = "kafka")) as [->|Hk]; [by wp_steps|].
  rewrite (bool_decide_false _ Hm), (bool_decide_false _ Hk). cbn [orb].
  eapply wp_mono; [apply registry_New_spec|]. cbn [bc_Backend]. rewrite (bool_decide_false _ Hne).
  intros r nm [_ Hr]. match type of Hr with match ?x with _ => _ end => assert (x = None) as Hx end.
  { unfold registry_init, registry_Register.
    do 2 (etrans; [by apply (lookup_insert_ne (M:=gmap string)); congruence|]).
    apply (lookup_empty (M:=gmap string)). }
  rewrite Hx in Hr. destruct Hr as (names & -> & Hnd & Hin). exists names. split; [done|].
  apply NoDup_Permutation; [done|by apply NoDup_cons; split; [set_solver|apply NoDup_singleton]|].
  intros k. rewrite Hin. unfold registry_init, registry_Register. etrans;
    [apply (lookup_insert_is_Some' (M:=gmap string))|]. rewrite elem_of_cons, list_elem_of_singleton.
  split; intros [Hkm|Hkm].
  - by right.
  - left. apply (lookup_insert_is_Some' (M:=gmap string)) in Hkm as [Hkm|Hkm]; [done|].
    by apply (lookup_empty_is_Some (M:=gmap string)) in Hkm.
  - right. apply (lookup_insert_is_Some' (M:=gmap string)). by left.
  - by left.
Qed.
End queues.

Section publisher.
Context `{Env} {St : Type} `{JobStore St} (schedulerID : string).

(** [newEventPublisher]: the method [Emit] of the publisher; only the Postgres
    store has an outbox that is read. *)
Definition newEventPublisher (isPostgres : bool) :
    EventType → string → string → string → Z → option fields →
    M (nat * (St * list KafkaMessage)) (option GoError) :=
  if isPostgres then publisher_Emit schedulerID else noop_Emit.
End publisher.
