(* ===== verification/Routes.v ===== *)
(** * internal/api/server.go: the HTTP handler of the API

    [Handler] as the table of its routes, the ones of the group behind
    [HTTPMiddleware], and [serve], which answers a request.  The router (chi) is
    a parameter with its documented matching of paths ([ChiLaws]); decoding of
    JSON is one too.  Of the other middleware RequestID and RealIP have no
    effect the handlers see, Recoverer and Timeout (panics and requests of more
    than 60 seconds) are left out. *)

From S2P Require Import Prelude.
From S2P Require Import Float64.
From S2P Require Import Domain.
From S2P Require Import Auth.
From S2P Require Import Config.
From S2P Require Import Ports.
From S2P Require Import Fixture.
From S2P Require Import MemStore.
From S2P Require Import MemQueue.
From S2P Require Import Calls.
From S2P Require Import Scheduler.
From S2P Require Import Control.
From S2P Require Import Api.
From S2P Require Import Endpoints.
From S2P Require Import Registry.

Definition StatusUnauthorized : Z := 401.
Definition StatusMethodNotAllowed : Z := 405.

(** What the handlers read of a request; query parameters and headers are empty
    when absent. *)
Record HttpRequest := mkHttpRequest {
  hr_Method : string;
  hr_Path : string;
  hr_XApiKey : string;
  hr_Authorization : string;
  hr_Query : string → string;
  hr_Body : string;
}.

(** What is written: the response of a handler, or a status with a text that
    the router or the middleware writes. *)
Inductive Answer (R : Type) :=
  | AnswerJobs (r : Response)
  | AnswerAnalytics (r : Reply R)
  | AnswerHealth (r : Reply string)
  | AnswerReady (r : Reply (string * string))
  | AnswerBackends (active : string) (registered : list string)
  | AnswerText (status : Z).
Arguments AnswerJobs {R} _.
Arguments AnswerAnalytics {R} _.
Arguments AnswerHealth {R} _.
Arguments AnswerReady {R} _.
Arguments AnswerBackends {R} _ _.
Arguments AnswerText {R} _.

Definition answer_status {R} (a : Answer R) : Z :=
  match a with
  | AnswerJobs r => r_status r
  | AnswerAnalytics r => rp_status r
  | AnswerHealth r => rp_status r
  | AnswerReady r => rp_status r
  | AnswerBackends _ _ => StatusOK
  | AnswerText status => status
  end.

(** ** The router *)

(** The segments of a path between its slashes. *)
Fixpoint split_slashes (l part : list Ascii.ascii) : list string :=
  match l with
  | [] => [String.string_of_list_ascii (reverse part)]
  | c :: l' =>
      if bool_decide (Ascii.nat_of_ascii c = 47%nat)
      then String.string_of_list_ascii (reverse part) :: split_slashes l' []
      else split_slashes l' (c :: part)
  end.
Definition segments (s : string) : list string :=
  split_slashes (String.list_ascii_of_string s) [].

(** A pattern matches a path segment by segment, "{id}" any segment that is not
    empty, which is the URL parameter.  (A path with nothing in that place, such as
    /v1/jobs//cancel, is taken to match none; the documentation of the router
    leaves it open.) *)
Fixpoint match_segments (pat path : list string) (id : string) : option string :=
  match pat, path with
  | [], [] => Some id
  | p :: pat', s :: path' =>
      if bool_decide (p = "{id}") then
        if bool_decide (s = "") then None else match_segments pat' path' s
      else if bool_decide (p = s) then match_segments pat' path' id else None
  | _, _ => None
  end.
Definition match_path (pat path : string) : option string :=
  match_segments (segments pat) (segments path) "".

Inductive Routed :=
  | RouteFound (i : nat) (id : string)
  | RouteNotFound
  | RouteMethodNotAllowed.

(** [chi_route table method path]: the number of the route that serves a
    request and its URL parameter. *)
Class Chi := chi_route : list (string * string) → string → string → Routed.

(** Documented: a route serves the requests with its method whose path its
    pattern matches. *)
Class ChiLaws `{Chi} : Prop := {
  chi_found table meth path i id : chi_route table meth path = RouteFound i id →
    ∃ pat, table !! i = Some (meth, pat) ∧ match_path pat path = Some id;
  chi_total table meth path i pat id : table !! i = Some (meth, pat) →
    match_path pat path = Some id → ∃ j id', chi_route table meth path = RouteFound j id';
}.

(** The value of [strconv.Atoi], whose error is dropped: 0 for what is no number,
    and the nearest [int] for one that is out of range. *)
Definition Atoi_value (s : string) : Z :=
  let number l := match l with [] => 0 | _ => default 0 (digits l 0) end in
  let value := match String.list_ascii_of_string s with
    | c :: l =>
        if bool_decide (Ascii.nat_of_ascii c = 45%nat) then - number l
        else if bool_decide (Ascii.nat_of_ascii c = 43%nat) then number l
        else number (c :: l)
    | [] => 0
    end in
  Z.max (- 2 ^ 63) (Z.min (2 ^ 63 - 1) value).

Section handler.
Context `{Env, CronLib, Chi} {St Qu R : Type} `{JobStore St, Queue Qu, !Analytics R}.
#[local] Abbreviation W := (World St Qu (list (list TimeRange))).

(** [decode] is [json.Decode] of a body, [available] whether a querier is
    attached, [ping] the database of the store, if any, and its ping, and
    [backends] the registered queue backends. *)
Context (decode : string → result CreateJobRequest) (available : bool)
  (ping : nat → option (option GoError)) {Fac : Type} (backends : gmap string Fac).

(** The ranges that were queried are the state of the analytics handlers. *)
Definition callA {A} (m : M (nat * list (list TimeRange)) A) : M W A := λ w,
  match w with
  | mkWorld n s q v ev rp =>
      match m (n, v) with (a, (n', v')) => (a, mkWorld n' s q v' ev rp) end
  end.

#[local] Abbreviation HandlerFunc := (HttpRequest → string → M W (Answer R)).

Definition handle_healthz : HandlerFunc := λ _ _, mret (AnswerHealth healthz).
Definition handle_readyz : HandlerFunc := λ _ _,
  p ← askW ping; mret (AnswerReady (readyz p queue_Name)).
Definition handle_createJob : HandlerFunc := λ r _,
  a ← createJob (decode (hr_Body r)); mret (AnswerJobs a).
Definition handle_listJobs : HandlerFunc := λ r _,
  a ← listJobs (hr_Query r "state") (Atoi_value (hr_Query r "limit")); mret (AnswerJobs a).
Definition handle_getJob : HandlerFunc := λ _ id, a ← getJob id; mret (AnswerJobs a).
Definition handle_cancelJob : HandlerFunc := λ _ id, a ← cancelJob id; mret (AnswerJobs a).
Definition handle_listWorkers : HandlerFunc := λ _ _, a ← listWorkers; mret (AnswerJobs a).
Definition handle_queueBackends : HandlerFunc := λ _ _,
  registered ← askW (λ n, env_order n (map_to_list backends).*1);
  mret (AnswerBackends queue_Name registered).

(** An analytics handler reads the parameters [from] and [to]. *)
Definition handle_analytics (h : string → string → (string → string) →
    M (nat * list (list TimeRange)) (Reply R)) : HandlerFunc := λ r _,
  a ← callA (h (hr_Query r "from") (hr_Query r "to") (hr_Query r)); mret (AnswerAnalytics a).

Definition public_routes : list (string * string * HandlerFunc) :=
  [("GET", "/healthz", handle_healthz);
   ("GET", "/readyz", handle_readyz)].

(** The group behind the middleware. *)
Definition group_routes : list (string * string * HandlerFunc) :=
  [("POST", "/v1/jobs", handle_createJob);
   ("GET", "/v1/jobs", handle_listJobs);
   ("GET", "/v1/jobs/{id}", handle_getJob);
   ("POST", "/v1/jobs/{id}/cancel", handle_cancelJob);
   ("GET", "/v1/workers", handle_listWorkers);
   ("GET", "/v1/queue/backends", handle_queueBackends);
   ("GET", "/v1/analytics/throughput",
     handle_analytics (λ from to q, analyticsThroughput available from to (q "grain")));
   ("GET", "/v1/analytics/latency", handle_analytics (λ from to _, analyticsLatency available from to));
   ("GET", "/v1/analytics/failures", handle_analytics (λ from to _, analyticsFailures available from to));
   ("GET", "/v1/analytics/retries", handle_analytics (λ from to _, analyticsFailures available from to));
   ("GET", "/v1/analytics/workers", handle_analytics (λ from to _, analyticsWorkers available from to));
   ("GET", "/v1/analytics/queue", handle_analytics (λ from to _, analyticsQueue available from to));
   ("GET", "/v1/analytics/scheduler", handle_analytics (λ from to _, analyticsScheduler available from to));
   ("GET", "/v1/analytics/capacity",
     handle_analytics (λ from to q, analyticsCapacity available from to (q "target_per_worker")));
   ("GET", "/v1/analytics/anomalies",
     handle_analytics (λ from to q, analyticsAnomalies available from to (q "window")))].

(** [r.Use(s.auth.HTTPMiddleware)] *)
Definition authenticated (a : Authenticator) (h : HandlerFunc) : HandlerFunc := λ r id,
  HTTPMiddleware a (hr_XApiKey r) (hr_Authorization r) (h r id)
    (mret (AnswerText StatusUnauthorized)).

Definition Handler (a : Authenticator) : list (string * string * HandlerFunc) :=
  public_routes ++ ((λ route : string * string * HandlerFunc, (route.1, authenticated a route.2)) <$> group_routes).

(** The answer to a request. *)
Definition serve (a : Authenticator) (r : HttpRequest) : M W (Answer R) :=
  let table := Handler a in
  match chi_route table.*1 (hr_Method r) (hr_Path r) with
  | RouteFound i id =>
      match table !! i with
      | Some route => route.2 r id
      | None => mret (AnswerText StatusNotFound)
      end
  | RouteNotFound => mret (AnswerText StatusNotFound)
  | RouteMethodNotAllowed => mret (AnswerText StatusMethodNotAllowed)
  end.

(** ** Who is answered by what *)

(** The methods and patterns of the table. *)
Definition route_keys : list (string * string) :=
  (public_routes ++ group_routes).*1.

Lemma Handler_keys a : (Handler a).*1 = route_keys.
Proof. done. Qed.

Lemma Handler_lookup a i meth pat h :
  (public_routes ++ group_routes) !! i = Some (meth, pat, h) →
  Handler a !! i = Some (meth, pat, if bool_decide (i < 2)%nat then h else authenticated a h).
Proof.
  intros Hi. destruct (decide (i < 2)%nat) as [Hlt|Hge];
    [rewrite bool_decide_true by done|rewrite bool_decide_false by done].
  - unfold Handler. rewrite lookup_app_l in Hi |- * by done. done.
  - unfold Handler. rewrite lookup_app_r in Hi |- * by (cbn; lia).
    rewrite list_lookup_fmap. cbn [length public_routes] in *. by rewrite Hi.
Qed.

(** Two patterns that one path can match. *)
Fixpoint overlap (pat pat' : list string) : bool :=
  match pat, pat' with
  | [], [] => true
  | p :: pat, p' :: pat' =>
      (bool_decide (p = "{id}") || bool_decide (p' = "{id}") || bool_decide (p = p')) &&
      overlap pat pat'
  | _, _ => false
  end.

Lemma match_overlap pat pat' path x x' id id' :
  match_segments pat path x = Some id → match_segments pat' path x' = Some id' →
  overlap pat pat' = true.
Proof.
  revert pat' path x x'. induction pat as [|p pat IH]; intros pat' [|s path] x x' Hm Hm';
    destruct pat' as [|p' pat']; cbn in *; try done.
  repeat case_bool_decide; simplify_eq; cbn; try done; by eapply IH.
Qed.

(** No request is served by two routes. *)
Lemma routes_unambiguous i j meth pat pat' path id id' :
  route_keys !! i = Some (meth, pat) → route_keys !! j = Some (meth, pat') →
  match_path pat path = Some id → match_path pat' path = Some id' → i = j.
Proof.
  intros Hi Hj Hm Hm'. pose proof (match_overlap _ _ _ _ _ _ _ Hm Hm') as Ho.
  assert (forallb (λ i, forallb (λ j,
    bool_decide (i = j) ||
    match route_keys !! i, route_keys !! j with
    | Some (m, p), Some (m', p') =>
        negb (bool_decide (m = m')) || negb (overlap (segments p) (segments p'))
    | _, _ => true
    end) (seq 0 17)) (seq 0 17) = true) as Hall by by vm_compute.
  rewrite forallb_forall in Hall.
  pose proof (lookup_lt_Some _ _ _ Hi) as Hli. pose proof (lookup_lt_Some _ _ _ Hj) as Hlj.
  change (length route_keys) with 17%nat in Hli, Hlj.
  specialize (Hall i ltac:(apply in_seq; lia)). rewrite forallb_forall in Hall.
  specialize (Hall j ltac:(apply in_seq; lia)). rewrite Hi, Hj, Ho in Hall.
  rewrite (bool_decide_true (meth = meth)) in Hall by done.
  case_bool_decide; [done|]. by rewrite orb_false_l in Hall.
Qed.

Lemma serve_found `{!ChiLaws} a r i meth pat h id :
  (public_routes ++ group_routes) !! i = Some (meth, pat, h) →
  hr_Method r = meth → match_path pat (hr_Path r) = Some id →
  serve a r = (if bool_decide (i < 2)%nat then h else authenticated a h) r id.
Proof.
  intros Hi <- Hm. unfold serve. rewrite Handler_keys.
  assert (route_keys !! i = Some (hr_Method r, pat)) as Hk
    by (unfold route_keys; by rewrite list_lookup_fmap, Hi).
  destruct (chi_total route_keys _ (hr_Path r) i pat id Hk Hm) as (j & id' & Hr).
  rewrite Hr. destruct (chi_found _ _ _ _ _ Hr) as (pat' & Hk' & Hm').
  assert (i = j) as <- by by eapply routes_unambiguous.
  assert (pat' = pat) as -> by congruence. assert (id' = id) as -> by congruence.
  by rewrite (Handler_lookup _ _ _ _ _ Hi).
Qed.

(** The request is one for the route. *)
Definition is_for (r : HttpRequest) (meth pat id : string) : Prop :=
  hr_Method r = meth ∧ match_path pat (hr_Path r) = Some id.

(** Nothing but the clock has moved. *)
Definition untouched (w w' : W) : Prop :=
  g_store w' = g_store w ∧ g_queue w' = g_queue w ∧ g_svc w' = g_svc w ∧
  g_events w' = g_events w ∧ g_rpcs w' = g_rpcs w.

Lemma public_untouched meth pat h r id (w : W) :
  (meth, pat, h) ∈ public_routes → wp (h r id) (λ _ w', untouched w w') w.
Proof.
  destruct w as [n s q v ev rp]. intros Hin. repeat (apply elem_of_cons in Hin as [Hin|Hin]).
  - simplify_eq. by run.
  - simplify_eq. unfold handle_readyz. by run.
  - by apply elem_of_nil in Hin.
Qed.

(** C33: who is answered by what.  A request that presents one of the configured
    non-empty API keys, in X-API-Key or, when that header is absent, after
    "ApiKey " in Authorization, or any request when authentication is disabled,
    is answered by the handler of the one route whose method and pattern it
    matches.  Without a key the routes under /v1 answer 401, and whatever the
    router does, nothing is stored, enqueued, emitted or queried; the health
    endpoints answer everyone.  A request that matches no route is answered with
    404 or 405 and has no effect. *)
Theorem api_access_exact `{!ChiLaws} apiKeys tokens disabled r (w : W) :
  let a := auth_New apiKeys tokens disabled in
  let key := presented_key (hr_XApiKey r) (hr_Authorization r) in
  let allowed := disabled = true ∨ (key ≠ "" ∧ key ∈ apiKeys) in
  (∀ meth pat h id, (meth, pat, h) ∈ public_routes → is_for r meth pat id → serve a r = h r id) ∧
  (∀ meth pat h id, (meth, pat, h) ∈ group_routes → is_for r meth pat id →
     (allowed → serve a r = h r id) ∧
     (¬ allowed → serve a r = mret (AnswerText StatusUnauthorized))) ∧
  ((∀ meth pat id, (meth, pat) ∈ route_keys → ¬ is_for r meth pat id) →
     serve a r = mret (AnswerText StatusNotFound) ∨
     serve a r = mret (AnswerText StatusMethodNotAllowed)) ∧
  (¬ allowed → wp (serve a r) (λ _ w', untouched w w') w).
Proof.
  intros a key allowed.
  assert (∀ (h : HttpRequest → string → M W (Answer R)) id,
    (allowed → authenticated a h r id = h r id) ∧
    (¬ allowed → authenticated a h r id = mret (AnswerText StatusUnauthorized))) as Hauth.
  { intros h id. unfold authenticated, HTTPMiddleware, ValidAPIKey, allowed. cbn.
    destruct disabled; [naive_solver|].
    fold key. case_bool_decide as Hk; rewrite elem_of_non_empty in Hk; naive_solver. }
  split_and!.
  - intros meth pat h id [i Hi]%list_elem_of_lookup [Hm Hp].
    assert (i < 2)%nat as Hlt by by apply lookup_lt_Some in Hi.
    rewrite (serve_found a r i meth pat h id); [by rewrite bool_decide_true| |done..].
    by rewrite lookup_app_l by done.
  - intros meth pat h id [i Hi]%list_elem_of_lookup [Hm Hp].
    rewrite (serve_found a r (2 + i) meth pat h id);
      [rewrite bool_decide_false by lia; apply Hauth|exact Hi|done..].
  - intros Hnone. unfold serve. rewrite Handler_keys.
    destruct (chi_route _ _ _) as [i id| |] eqn:Hr; [|by left|by right].
    apply chi_found in Hr as (pat & Hk & Hm).
    destruct (Hnone _ _ id (list_elem_of_lookup_2 _ _ _ Hk)). by split.
  - intros Hno. unfold serve. rewrite Handler_keys.
    destruct (chi_route _ _ _) as [i id| |]; [|by repeat split..].
    destruct ((public_routes ++ group_routes) !! i) as [[[meth pat] h]|] eqn:Hi.
    + rewrite (Handler_lookup _ _ _ _ _ Hi). cbn [snd]. case_bool_decide as Hlt.
      * rewrite lookup_app_l in Hi by done. apply list_elem_of_lookup_2 in Hi.
        by eapply public_untouched.
      * rewrite (proj2 (Hauth h id) Hno). by repeat split.
    + assert (Handler a !! i = None) as ->; [|by repeat split].
      apply lookup_ge_None in Hi. apply lookup_ge_None. exact Hi.
Qed.
End handler.

(** ** A router *)

(** The first route of the method that matches; 405 if only routes of other
    methods match. *)
Definition first_route : Chi := λ table meth path,
  match list_find (λ k : string * string,
          k.1 = meth ∧ is_Some (match_path k.2 path)) table with
  | Some (i, k) => RouteFound i (default "" (match_path k.2 path))
  | None =>
      match list_find (λ k : string * string, is_Some (match_path k.2 path)) table with
      | Some _ => RouteMethodNotAllowed
      | None => RouteNotFound
      end
  end.

Lemma first_route_laws : @ChiLaws first_route.
Proof.
  split; unfold chi_route, first_route; intros table meth path i.
  - intros id. case_match eqn:Hf; [|by case_match]. destruct p as [j [m pat]].
    intros [= <- <-]. apply list_find_Some in Hf as (Hj & [<- [id' Hm]] & _).
    cbn [fst snd] in *. exists pat. by rewrite Hm.
  - intros pat id Hi Hm. case_match eqn:Hf; [destruct p as [j k]; eauto|].
    apply list_find_None in Hf. rewrite Forall_forall in Hf.
    destruct (Hf (meth, pat)); [by eapply list_elem_of_lookup_2|]. split; [done|]. by exists id.
Qed.

#[local] Existing Instance sample_env.
#[local] Existing Instance sample_env_laws.
#[local] Existing Instance sample_cron.
#[local] Existing Instance first_route.
#[local] Existing Instance first_route_laws.

(** No analytics. *)
Definition no_analytics : Analytics () := {|
  Parse_RFC3339 := λ _, Err (External "cannot parse");
  Parse_Duration := λ _, None;
  Parse_Float := λ _, None;
  q_Throughput := λ _ _ _, Ok ();
  q_Latency := λ _ _, Ok ();
  q_Failures := λ _ _, Ok ();
  q_Workers := λ _ _, Ok ();
  q_Queue := λ _ _, Ok ();
  q_Scheduler := λ _ _, Ok ();
  q_Capacity := λ _ _ _, Ok ();
  q_Anomalies := λ _ _ _, Ok ();
|}.

Definition api_world (jobs : list Job) : World MemStore MemQueue (list (list TimeRange)) :=
  let w := sample_world jobs [] in mkWorld 0 (g_store w) (g_queue w) [] [] [].

Definition sample_serve (r : HttpRequest) :
    M (World MemStore MemQueue (list (list TimeRange))) (Answer ()) :=
  @serve _ _ _ _ _ _ _ _ no_analytics (λ _, Err (External "not JSON")) false (λ _, None) () ∅
    (auth_New ["k1"] [] false) r.

(** A cancellation with a key is carried out, one without is not. *)
Definition cancel_request (key : string) : HttpRequest :=
  mkHttpRequest "POST" "/v1/jobs/j1/cancel" key "" (λ _, "") "".

Lemma api_access_exact_witness :
  let w := api_world [sample_job "j1" JobStateRunning "w1" 1] in
  answer_status (sample_serve (cancel_request "k1") w).1 = StatusAccepted ∧
  answer_status (sample_serve (cancel_request "k2") w).1 = StatusUnauthorized ∧
  g_store (sample_serve (cancel_request "k2") w).2 = g_store w ∧
  answer_status (sample_serve (mkHttpRequest "GET" "/v1/jobs/" "k1" "" (λ _, "") "") w).1 =
    StatusNotFound.
Proof.
  intros w.
  pose proof (λ r, @api_access_exact _ _ _ _ _ _ _ _ no_analytics (λ _, Err (External "not JSON"))
    false (λ _, None) () ∅ _ ["k1"] [] false r w) as Hx. unfold sample_serve.
  assert (∀ key, is_for (cancel_request key) "POST" "/v1/jobs/{id}/cancel" "j1") as Hfor
    by (intros key; split; [done|by vm_compute]).
  assert (¬ (false = true ∨ "k2" ≠ "" ∧ "k2" ∈ ["k1"])) as Hno
    by (intros [?|[_ Hin]]; [done|set_solver]).
  split_and!.
  - destruct (Hx (cancel_request "k1")) as (_ & Hgroup & _).
    destruct (Hgroup _ _ handle_cancelJob "j1" ltac:(do 3 right; left) (Hfor "k1")) as [Heq _].
    rewrite Heq; [by vm_compute|]. right. split; [done|]. cbn. set_solver.
  - destruct (Hx (cancel_request "k2")) as (_ & Hgroup & _).
    destruct (Hgroup _ _ handle_cancelJob "j1" ltac:(do 3 right; left) (Hfor "k2")) as [_ Heq].
    by rewrite (Heq Hno).
  - destruct (Hx (cancel_request "k2")) as (_ & _ & _ & Hu). by apply Hu.
  - by vm_compute.
Defined.
