(* ===== verification/Process.v ===== *)
(** * Processes: connections and waiting

    How the parts of a process are opened and closed: [postgres.New],
    [NewClickHouse], [EnsureTopic], and the methods that wait for the end ([Run]
    of the worker, the scheduler, the outbox publisher and the analytics
    consumer, [Serve] of the gRPC server).  The main functions are Commands.v.

    A process is a trace of what it does outside ([Action]); what it is answered,
    and what happens while it waits, is a parameter ([Host]).  [emits] is the
    logic of traces. *)

From S2P Require Import Prelude.
From S2P Require Import Domain.
From S2P Require Import Auth.
From S2P Require Import Config.
From S2P Require Import Ports.
From S2P Require Import Fixture.
From S2P Require Import MemQueue.
From S2P Require Import Kafka.
From S2P Require Import Registry.
From S2P Require Import Outbox.
From S2P Require Import App.

(** What has to be closed: the services of the container, a connection pool, a
    client, a reader, a writer. *)
Inductive Resource :=
  | ResStore | ResQueue | ResDB | ResClickHouse | ResKafkaConn (addr : string)
  | ResWriter (brokers : list string) | ResReader (topic : string).

#[global] Instance Resource_eq_dec : EqDecision Resource.
Proof. solve_decision. Defined.

Inductive Action :=
  | Acquire (r : Resource)
  | Release (r : Resource)
  | SetPool (maxOpen maxIdle : Z) (maxLifetime : Duration)
  | CreateTopics (topic : string) (partitions replicas : Z)
  | EnsureSchema
  | SetAnalytics
  | Listening (addr : string)
  | Emitted (e : EmitCall)
  | Consume (topic : string)
  | GracefulStop
  | Shutdown (timeout : Duration)
  | Sleep (d : Duration).

(** clickhouse.Options, as far as the code sets them *)
Record ChOptions := mkChOptions {
  co_Addr : list string;
  co_Database : string;
}.

(** The goroutines of the waiting methods. *)
Inductive Child := ServeLoop | SessionLoop | PollLoop | ConsumerLoop | RunLoop.

(** What ends while a process waits. *)
Inductive End := CtxEnds (e : GoError) | ChildEnds (c : Child) (err : option GoError).

Inductive Svc := SvcStore | SvcQueue | SvcPublisher | SvcExecutor.

Class Host := {
  host_sql_Open : nat → string → option GoError;
  host_sql_Ping : nat → option GoError;
  (** clickhouse.ParseDSN, Open and Ping, and EnsureSchema (Schema.v) *)
  host_ParseDSN : string → result ChOptions;
  host_ch_Open : nat → ChOptions → option GoError;
  host_ch_Ping : nat → option GoError;
  host_EnsureSchema : nat → option GoError;
  (** kafka.Dial, Conn.Controller (its address) and CreateTopics *)
  host_Dial : nat → string → option GoError;
  host_Controller : nat → result string;
  host_CreateTopics : nat → option GoError;
  host_Listen : nat → string → option GoError;
  (** what ends from here on, in order *)
  host_ends : nat → list End;
  (** the container: the error of the constructor *)
  host_Get : nat → Svc → option GoError;
  (** [q.Name()] *)
  host_queue_Name : string;
}.

(** How a wait ended. *)
Inductive Woken := Waiting | Done (e : GoError) | Failed (err : option GoError).

(** The final [select] of a method: the context or the first child that
    [sends] its end. *)
Fixpoint await (sends : Child → option GoError → bool) (l : list End) : Woken :=
  match l with
  | [] => Waiting
  | CtxEnds e :: _ => Done e
  | ChildEnds c err :: l => if sends c err then Failed err else await sends l
  end.

(** [if err != nil && ctx.Err() == nil { errCh <- err }]: the context has not
    ended before. *)
Definition sends_error (err : option GoError) : bool := bool_decide (err ≠ None).

Section process.
Context `{OS, Host}.
#[local] Abbreviation P := (M (nat * list Action)).

Definition act (a : Action) : P () := upd (λ l, l ++ [a]).

(** ** Opening *)

Definition postgres_New (cfg : PostgresConfig) : P (result ()) :=
  err ← ask (λ n, host_sql_Open n (pc_DSN cfg));
  match err with
  | Some e => mret (Err e)
  | None =>
      act (Acquire ResDB);;
      act (SetPool (pc_MaxOpenConns cfg) (pc_MaxIdleConns cfg) (pc_ConnMaxLifetime cfg));;
      err ← ask host_sql_Ping;
      match err with
      | Some e => act (Release ResDB);; mret (Err (Wrapf "postgres ping: %w" e))
      | None => mret (Ok ())
      end
  end.

(** [newJobStore] of wire.go. *)
Definition newJobStore (cfg : Config) : P (result ()) := postgres_New (c_Postgres cfg).

(** The options of a DSN; one that does not parse is taken for an address. *)
Definition ch_options (dsn database : string) : ChOptions :=
  let opts := match host_ParseDSN dsn with
              | Ok opts => opts
              | Err _ => mkChOptions [dsn] database
              end in
  if bool_decide (database = "") then opts else mkChOptions (co_Addr opts) database.

Definition NewClickHouse (cfg : ClickHouseConfig) : P (result ()) :=
  err ← ask (λ n, host_ch_Open n (ch_options (cc_DSN cfg) (cc_Database cfg)));
  match err with
  | Some e => mret (Err e)
  | None =>
      act (Acquire ResClickHouse);;
      err ← ask host_ch_Ping;
      match err with
      | Some e => act (Release ResClickHouse);; mret (Err (Wrapf "clickhouse ping: %w" e))
      | None => mret (Ok ())
      end
  end.

(** The deferred calls close both connections on every path. *)
Definition EnsureTopic (brokers : list string) (topic : string) (partitions : Z) :
    P (option GoError) :=
  let partitions := if bool_decide (partitions < 1) then 3 else partitions in
  match brokers with
  | [] => mret (Some (GoPanic "index out of range"))
  | broker :: _ =>
      err ← ask (λ n, host_Dial n broker);
      match err with
      | Some e => mret (Some e)
      | None =>
          act (Acquire (ResKafkaConn broker));;
          controller ← ask host_Controller;
          match controller with
          | Err e => act (Release (ResKafkaConn broker));; mret (Some e)
          | Ok addr =>
              err ← ask (λ n, host_Dial n addr);
              match err with
              | Some e => act (Release (ResKafkaConn broker));; mret (Some e)
              | None =>
                  act (Acquire (ResKafkaConn addr));;
                  act (CreateTopics topic partitions 1);;
                  err ← ask host_CreateTopics;
                  act (Release (ResKafkaConn addr));;
                  act (Release (ResKafkaConn broker));;
                  mret err
              end
          end
      end
  end.

(** ** Waiting

    Nothing while the method waits, or the error it returns. *)

(** [Run] of the worker: the gRPC server sends its end, the session (Session.v)
    an error that is not the end of the context. *)
Definition worker_Run (addr : string) : P (option (option GoError)) :=
  err ← ask (λ n, host_Listen n addr);
  match err with
  | Some e => mret (Some (Some e))
  | None =>
      act (Listening addr);;
      ends ← ask host_ends;
      match await (λ c err, match c with
                            | ServeLoop => true
                            | SessionLoop => sends_error err
                            | _ => false
                            end) ends with
      | Waiting => mret None
      | Done e => act GracefulStop;; mret (Some (Some e))
      | Failed err => mret (Some err)
      end
  end.

(** [Serve] of the scheduler's gRPC server. *)
Definition grpc_Serve (addr : string) : P (option (option GoError)) :=
  err ← ask (λ n, host_Listen n addr);
  match err with
  | Some e => mret (Some (Some e))
  | None =>
      act (Listening addr);;
      ends ← ask host_ends;
      match await (λ c _, match c with ServeLoop => true | _ => false end) ends with
      | Waiting => mret None
      | Done e => act GracefulStop;; mret (Some (Some e))
      | Failed err => mret (Some err)
      end
  end.

(** [Run] of the scheduler with its two events: the polling loop (Control.v)
    never ends it, the consumer of the queue does with an error. *)
Definition service_Run (cfg : SchedulerConfig) : P (option (option GoError)) :=
  act (Emitted (mkEmitCall EventSchedulerStarted "" "" "" 0
                  (Some [("scheduler_id", AString (cfg_ID cfg))])));;
  ends ← ask host_ends;
  match await (λ c err, match c with ConsumerLoop => sends_error err | _ => false end) ends with
  | Waiting => mret None
  | Done e =>
      act (Emitted (mkEmitCall EventSchedulerStopped "" "" "" 0 None));;
      mret (Some (Some e))
  | Failed err => mret (Some err)
  end.

(** [Run] of the analytics consumer: one goroutine per topic, which is the loop
    of Ingest.v. *)
Definition consumer_Run (cfg : KafkaConfig) : P (option (option GoError)) :=
  forM_ [kc_JobEventsTopic cfg; kc_WorkerEventsTopic cfg; kc_SchedulerEventsTopic cfg]
    (λ topic, act (Consume topic));;
  ends ← ask host_ends;
  match await (λ c err, match c with ConsumerLoop => sends_error err | _ => false end) ends with
  | Waiting => mret None
  | Done e => mret (Some (Some e))
  | Failed err => mret (Some err)
  end.

(** [New] and [Run] of the outbox publisher: only the context ends the loop
    over [flush] (Outbox.v). *)
Definition outbox_New (cfg : KafkaConfig) : P () := act (Acquire (ResWriter (kc_Brokers cfg))).
Definition outbox_Run (cfg : KafkaConfig) : P (option (option GoError)) :=
  ends ← ask host_ends;
  match await (λ _ _, false) ends with
  | Done e => act (Release (ResWriter (kc_Brokers cfg)));; mret (Some (Some e))
  | _ => mret None
  end.
End process.

(** ** What a trace leaves open *)

Definition delta (r : Resource) (a : Action) : Z :=
  match a with
  | Acquire r' => if bool_decide (r = r') then 1 else 0
  | Release r' => if bool_decide (r = r') then -1 else 0
  | _ => 0
  end.
Definition held (r : Resource) (l : list Action) : Z := foldr (λ a z, delta r a + z) 0 l.

(** Every resource that was acquired is released. *)
Definition closed (l : list Action) : Prop := ∀ r, held r l = 0.

Definition slept (l : list Action) : Duration :=
  foldr (λ a z, match a with Sleep d => d + z | _ => z end) 0 l.

Lemma held_app r l1 l2 : held r (l1 ++ l2) = held r l1 + held r l2.
Proof.
  unfold held. induction l1 as [|a l1 IH]; [done|]. cbn [app foldr]. rewrite IH. lia.
Qed.

Lemma slept_app l1 l2 : slept (l1 ++ l2) = slept l1 + slept l2.
Proof.
  unfold slept. induction l1 as [|a l1 IH]; [done|]. cbn [app foldr]. rewrite IH.
  destruct a; lia.
Qed.

(** [emits m Q]: whatever came before, [m] adds a trace that [Q] relates to its
    result. *)
Definition emits {A} (m : M (nat * list Action) A) (Q : A → list Action → Prop) : Prop :=
  ∀ n l, wp m (λ a s, ∃ l', s.2 = l ++ l' ∧ Q a l') (n, l).

Lemma emits_ret {A} (a : A) (Q : A → list Action → Prop) : Q a [] → emits (mret a) Q.
Proof. intros HQ n l. apply wp_ret. exists []. by rewrite app_nil_r. Qed.

Lemma emits_ask {A} (f : nat → A) (Q : A → list Action → Prop) :
  (∀ n, Q (f n) []) → emits (ask f) Q.
Proof. intros HQ n l. apply wp_ask. exists []. by rewrite app_nil_r. Qed.

Lemma emits_act a (Q : () → list Action → Prop) : Q () [a] → emits (act a) Q.
Proof. intros HQ n l. apply wp_upd. by exists [a]. Qed.

Lemma emits_bind {A B} (m : M (nat * list Action) A) (f : A → M (nat * list Action) B) Q
    (R : B → list Action → Prop) :
  emits m Q → (∀ a l1, Q a l1 → emits (f a) (λ b l2, R b (l1 ++ l2))) → emits (m ≫= f) R.
Proof.
  intros Hm Hf n l. apply wp_bind. eapply wp_mono; [apply Hm|].
  intros a [n' l''] (l1 & Hl & HQ). cbn in Hl. subst l''. eapply wp_mono; [by apply Hf|].
  intros b s (l2 & -> & HR). exists (l1 ++ l2). by rewrite app_assoc.
Qed.

Lemma emits_mono {A} (m : M (nat * list Action) A) (Q R : A → list Action → Prop) :
  emits m Q → (∀ a l, Q a l → R a l) → emits m R.
Proof.
  intros Hm HQ n l. eapply wp_mono; [apply Hm|]. intros a s (l' & ? & ?). eauto.
Qed.

(** One step: an action, a reading of the environment, or the end. *)
Lemma emits_do {A} a (f : () → M (nat * list Action) A) (Q : A → list Action → Prop) :
  emits (f ()) (λ b l, Q b (a :: l)) → emits (act a ≫= f) Q.
Proof.
  intros Hf. eapply emits_bind; [by apply (emits_act a (λ _ l, l = [a]))|]. by intros [] ? ->.
Qed.

Lemma emits_asked {A B} (f : nat → A) (g : A → M (nat * list Action) B)
    (Q : B → list Action → Prop) :
  (∀ n, emits (g (f n)) Q) → emits (ask f ≫= g) Q.
Proof.
  intros Hg. eapply emits_bind; [by apply (emits_ask f (λ a l, l = [] ∧ ∃ n, a = f n)); eauto|].
  intros ? ? (-> & n & ->). apply Hg.
Qed.

Lemma emits_forM {A} (f : A → Action) (xs : list A) :
  emits (forM_ xs (λ x, act (f x))) (λ _ l, l = f <$> xs).
Proof.
  induction xs as [|x xs IH]; [by apply emits_ret|]. cbn. apply emits_do.
  eapply emits_mono; [exact IH|]. by intros ? l ->.
Qed.

Lemma emits_pure {A B} (a : A) (g : A → M (nat * list Action) B) Q :
  emits (g a) Q → emits (mret a ≫= g) Q.
Proof. done. Qed.

Ltac emit_step :=
  match goal with
  | |- emits (mret _) _ => apply emits_ret
  | |- emits (act _ ≫= _) _ => apply emits_do
  | |- emits (mret _ ≫= _) _ => apply emits_pure
  | |- emits (ask _ ≫= _) _ => apply emits_asked; intros ?n
  | |- emits (act _) _ => apply emits_act
  | |- emits (match ?x with _ => _ end) _ => let E := fresh "E" in destruct x eqn:E
  end; cbn beta iota zeta.
Ltac emit_steps := repeat emit_step.

(** What a trace of known pieces holds. *)
Ltac holds :=
  intros; unfold closed in *; intros;
  repeat match goal with |- context [held ?r (?a :: ?l)] =>
    change (held r (a :: l)) with (delta r a + held r l) end;
  rewrite ?held_app; cbn [delta held foldr];
  repeat match goal with H : ∀ r, held r _ = _ |- _ => rewrite H end;
  repeat case_bool_decide; subst; try congruence; lia.

Section opening.
Context `{OS, Host}.

(** What is opened is held if there is no error, and nothing otherwise. *)
Lemma postgres_New_holds cfg :
  emits (postgres_New cfg) (λ r l, slept l = 0 ∧ ∀ x, held x l =
    if bool_decide (x = ResDB) then match r with Ok _ => 1 | Err _ => 0 end else 0).
Proof. unfold postgres_New. emit_steps; split; try done; holds. Qed.

Definition ch_up : Prop := ∀ n, host_ch_Ping n = None ∧ ∀ o, host_ch_Open n o = None.

Lemma NewClickHouse_holds cfg :
  emits (NewClickHouse cfg) (λ r l, slept l = 0 ∧ (ch_up → r = Ok ()) ∧ ∀ x, held x l =
    if bool_decide (x = ResClickHouse) then match r with Ok _ => 1 | Err _ => 0 end else 0).
Proof.
  unfold NewClickHouse. emit_steps; (split; [done|]; split; [|holds]); [| |done].
  - intros Hup. destruct (Hup n) as [_ Ho]. by rewrite Ho in E.
  - intros Hup. destruct (Hup n0) as [Hp _]. by rewrite Hp in E0.
Qed.

Lemma EnsureTopic_closed brokers topic partitions :
  emits (EnsureTopic brokers topic partitions) (λ _ l, slept l = 0 ∧ closed l).
Proof. unfold EnsureTopic. emit_steps; split; try done; holds. Qed.
End opening.
