(* ===== verification/Commands.v ===== *)
(** * cmd/: the main functions

    What each process opens, waits for, closes, and the status it exits with, in
    the traces of Process.v.  [os.Exit] skips the deferred calls; a panic of
    [MustGet] ends with status 2, as the Go runtime does.  The container (nexus)
    is part of [Host]; its validation is an argument, as in App.v. *)

From S2P Require Import Prelude.
From S2P Require Import Domain.
From S2P Require Import Auth.
From S2P Require Import Config.
From S2P Require Import Ports.
From S2P Require Import Fixture.
From S2P Require Import Execution.
From S2P Require Import Ingest.
From S2P Require Import Replay.
From S2P Require Import App.
From S2P Require Import Process.

(** http.ErrServerClosed *)
Definition ErrServerClosed : GoError := External "http: Server closed".

Section commands.
Context `{OS, Host} (validate : Config → option GoError).
#[local] Abbreviation P := (M (nat * list Action)).
(** The exit status, none as long as the process runs. *)
#[local] Abbreviation Exit := (option Z).

(** [nexus.MustGet] panics if the service cannot be built. *)
Definition MustGet (svc : Svc) (k : P Exit) : P Exit :=
  err ← ask (λ n, host_Get n svc);
  match err with
  | Some _ => mret (Some 2)
  | None =>
      match svc with
      | SvcStore => act (Acquire ResStore);; k
      | SvcQueue => act (Acquire ResQueue);; k
      | _ => k
      end
  end.

Definition ensure_schema : P (option GoError) :=
  act EnsureSchema;; ask host_EnsureSchema.

(** [if err := x.Run(ctx); err != nil && err != context.Canceled { os.Exit(1) }] *)
Definition exit_on_error (r : option (option GoError)) (k : P Exit) : P Exit :=
  match r with
  | None => mret None
  | Some (Some e) => if bool_decide (e = ContextCanceled) then k else mret (Some 1)
  | Some None => k
  end.

(** ** cmd/api *)

(** The analytics plane is optional: whether there is one to be closed. *)
Definition api_analytics (cfg : ClickHouseConfig) : P bool :=
  if negb (bool_decide (cc_DSN cfg = "")) &&
     negb (bool_decide (Getenv "CHRONOS_ANALYTICS_DISABLED" = "1")) then
    ch ← NewClickHouse cfg;
    match ch with
    | Err _ => mret false
    | Ok _ => _ ← ensure_schema; act SetAnalytics;; mret true
    end
  else mret false.

(** [ListenAndServe] in its goroutine and [<-ctx.Done()]: whether the process
    goes on to its end. *)
Definition api_wait (addr : string) : P bool :=
  err ← ask (λ n, host_Listen n addr);
  match err with
  | Some _ => mret true
  | None =>
      act (Listening addr);;
      ends ← ask host_ends;
      match await (λ c err, match c, err with
                            | ServeLoop, Some e => negb (bool_decide (e = ErrServerClosed))
                            | _, _ => false
                            end) ends with
      | Waiting => mret false
      | _ => mret true
      end
  end.

Definition api_main : P Exit :=
  match Register validate "api" with
  | Err _ => mret (Some 1)
  | Ok (cfg, _) =>
      MustGet SvcStore (MustGet SvcQueue (MustGet SvcPublisher (
        ch ← api_analytics (c_ClickHouse cfg);
        over ← api_wait (ac_HTTPAddr (c_API cfg));
        if over : bool then
          act (Shutdown (10 * Second));;
          act (Release ResQueue);;
          act (Release ResStore);;
          (if ch : bool then act (Release ResClickHouse) else mret ());;
          mret (Some 0)
        else mret None)))
  end.

(** ** cmd/scheduler *)

(** Both goroutines, [service_Run] and [grpc_Serve], send their end. *)
Definition scheduler_main : P Exit :=
  match Register validate "scheduler" with
  | Err _ => mret (Some 1)
  | Ok (cfg, _) =>
      MustGet SvcStore (MustGet SvcQueue (MustGet SvcPublisher (
        let brokers := qc_KafkaBrokers (c_Queue cfg) in
        (if bool_decide (host_queue_Name = "kafka") && bool_decide (0 < length brokers)%nat then
           _ ← EnsureTopic brokers (qc_KafkaTopic (c_Queue cfg)) 3; mret ()
         else mret ());;
        ends ← ask host_ends;
        match await (λ c _, match c with RunLoop | ServeLoop => true | _ => false end) ends with
        | Waiting => mret None
        | _ =>
            act (Sleep (200 * Millisecond));;
            act (Release ResQueue);;
            act (Release ResStore);;
            mret (Some 0)
        end)))
  end.

(** ** cmd/worker *)

Definition worker_token (cfg : AuthConfig) : string :=
  match auc_WorkerTokens cfg with
  | token :: _ => token
  | [] => "dev-worker-token-change-me"
  end.

(** The store is optional; its deferred [Close] is skipped by [os.Exit].  Both
    ways to the executor give one with the configured timeout. *)
Definition worker_main : P Exit :=
  match Register validate "worker" with
  | Err _ => mret (Some 1)
  | Ok (cfg, _) =>
      err ← ask (λ n, host_Get n SvcStore);
      (match err with None => act (Acquire ResStore) | Some _ => mret () end);;
      _ ← ask (λ n, host_Get n SvcExecutor);
      r ← worker_Run (wkc_ListenAddr (c_Worker cfg));
      exit_on_error r (
        (match err with None => act (Release ResStore) | Some _ => mret () end);;
        mret (Some 0))
  end.

(** ** cmd/outbox-publisher *)

Definition outbox_main : P Exit :=
  match Register validate "outbox-publisher" with
  | Err _ => mret (Some 1)
  | Ok (cfg, _) =>
      MustGet SvcStore (
        let kafka := c_Kafka cfg in
        (if bool_decide (0 < length (kc_Brokers kafka))%nat then
           _ ← EnsureTopic (kc_Brokers kafka) (kc_JobEventsTopic kafka) 3;
           _ ← EnsureTopic (kc_Brokers kafka) (kc_WorkerEventsTopic kafka) 3;
           _ ← EnsureTopic (kc_Brokers kafka) (kc_SchedulerEventsTopic kafka) 3;
           mret ()
         else mret ());;
        outbox_New kafka;;
        r ← outbox_Run kafka;
        exit_on_error r (act (Release ResStore);; mret (Some 0)))
  end.

(** ** cmd/analytics-consumer *)

(** The loop of attempts: the error of the last one. *)
Fixpoint ch_connect (tries : nat) (cfg : ClickHouseConfig) (err : option GoError) :
    P (option GoError) :=
  match tries with
  | O => mret err
  | S tries =>
      writer ← NewClickHouse cfg;
      match writer with
      | Ok _ => mret None
      | Err e => act (Sleep (2 * Second));; ch_connect tries cfg (Some e)
      end
  end.

Definition consumer_main : P Exit :=
  let cfg := Load "analytics-consumer" in
  err ← ch_connect 30 (c_ClickHouse cfg) None;
  match err with
  | Some _ => mret (Some 1)
  | None =>
      err ← ensure_schema;
      match err with
      | Some _ => mret (Some 1)
      | None =>
          r ← consumer_Run (c_Kafka cfg);
          exit_on_error r (act (Release ResClickHouse);; mret (Some 0))
      end
  end.

Inductive Command := CmdAPI | CmdScheduler | CmdWorker | CmdOutbox | CmdConsumer.

Definition command (c : Command) : P Exit :=
  match c with
  | CmdAPI => api_main
  | CmdScheduler => scheduler_main
  | CmdWorker => worker_main
  | CmdOutbox => outbox_main
  | CmdConsumer => consumer_main
  end.

Lemma ensure_schema_holds :
  emits ensure_schema (λ err l, slept l = 0 ∧ closed l ∧ ∃ n, err = host_EnsureSchema n).
Proof.
  unfold ensure_schema. apply emits_do, emits_ask. intros n. repeat split. eauto.
Qed.
End commands.

(** ** cmd/event-replay

    [main] around the loop of Replay.v, with the flags as arguments. *)
Section replay_command.
Context `{Env, ClickHouse, OS, Host} {K : Type} `{!ReplayReader K}.
#[local] Abbreviation RP := (M (nat * (list Action * Replay K))).

Definition callP {A} (m : M (nat * list Action) A) : RP A := λ ns,
  match m (ns.1, ns.2.1) with (a, (n, l)) => (a, (n, (l, ns.2.2))) end.
Definition callL {A} (m : M (nat * Replay K) A) : RP A := λ ns,
  match m (ns.1, ns.2.2) with (a, (n, s)) => (a, (n, (ns.2.1, s))) end.

(** The connection of [-to clickhouse]: whether the process goes on. *)
Definition replay_open (cfg : ClickHouseConfig) (to : string) : M (nat * list Action) bool :=
  if bool_decide (to = "clickhouse") then
    ch ← NewClickHouse cfg;
    match ch with
    | Err _ => mret false
    | Ok _ => _ ← ensure_schema; mret true
    end
  else mret true.

Definition replay_main (interrupted : nat → bool) (max : Z) (idle : Duration)
    (topic to : string) (fuel : nat) : RP (option Z) :=
  let cfg := Load "event-replay" in
  opened ← callP (replay_open (c_ClickHouse cfg) to);
  if opened : bool then
    callP (act (Acquire (ResReader topic)));;
    r ← callL (replay interrupted max idle to fuel);
    match r with
    | None => mret None
    | Some (Err _) => mret (Some 1)
    | Some (Ok _) =>
        callP (act (Release (ResReader topic)));;
        callP (if bool_decide (to = "clickhouse") then act (Release ResClickHouse) else mret ());;
        mret (Some 0)
    end
  else mret (Some 1).

Lemma wp_callP {A} (m : M (nat * list Action) A) Q n l s :
  wp m (λ a s', Q a (s'.1, (s'.2, s))) (n, l) → wp (callP m) Q (n, (l, s)).
Proof. unfold wp, callP. cbn. by destruct (m (n, l)) as [a [n' l']]. Qed.

Lemma wp_callL {A} (m : M (nat * Replay K) A) Q n l s :
  wp m (λ a s', Q a (s'.1, (l, s'.2))) (n, s) → wp (callL m) Q (n, (l, s)).
Proof. unfold wp, callL. cbn. by destruct (m (n, s)) as [a [n' s']]. Qed.

Lemma replay_open_holds cfg to :
  emits (replay_open cfg to) (λ b l, ∀ x, held x l =
    if bool_decide (x = ResClickHouse) && bool_decide (to = "clickhouse") && b then 1 else 0).
Proof.
  unfold replay_open. case_bool_decide as Hto; [|apply emits_ret; intros x; by rewrite andb_false_r].
  eapply emits_bind; [apply NewClickHouse_holds|]. intros [[]|e] l1 (_ & _ & Hl).
  - eapply emits_bind; [apply ensure_schema_holds|]. intros err l2 (_ & Hl2 & _).
    apply emits_ret. rewrite app_nil_r. intros x. rewrite held_app, Hl, Hl2. cbn.
    repeat case_bool_decide; done.
  - apply emits_ret. intros x. rewrite held_app, Hl, andb_false_r. by case_bool_decide.
Qed.

(** With status 0 nothing is left open. *)
Lemma replay_main_closed interrupted max idle topic to fuel n s :
  wp (replay_main interrupted max idle topic to fuel)
    (λ r s', r = Some 0 → closed s'.2.1) (n, ([], s)).
Proof.
  unfold replay_main. apply wp_bind, wp_callP. eapply wp_mono; [apply replay_open_holds|].
  intros [|] [n1 l] (l1 & -> & Hl1); [|by apply wp_ret].
  apply wp_bind, wp_callP, wp_upd, wp_bind, wp_callL, wp_all. intros [[c|e]|] [n2 s2]; [|done..].
  apply wp_bind, wp_callP, wp_upd, wp_bind, wp_callP. case_bool_decide as Hto.
  - apply wp_upd, wp_ret. intros _ x. cbn [fst snd app]. rewrite !held_app, Hl1. cbn.
    repeat case_bool_decide; subst; try done; lia.
  - apply wp_ret, wp_ret. intros _ x. cbn [fst snd app]. rewrite !held_app, Hl1. cbn.
    rewrite andb_false_r. by case_bool_decide.
Qed.
End replay_command.

(** ** How the processes end *)
Section ends.
Context `{OS, Host} (validate : Config → option GoError).

(** A signal comes in the end, whatever else ends before. *)
Definition signalled : Prop :=
  ∀ n, ∃ l1 l2, host_ends n = l1 ++ CtxEnds ContextCanceled :: l2.

(** Everything can be opened, and nothing ends before the signal. *)
Record undisturbed : Prop := {
  u_validate cfg : validate cfg = None;
  u_Get n svc : host_Get n svc = None;
  u_ch : ch_up;
  u_EnsureSchema n : host_EnsureSchema n = None;
  u_Listen n addr : host_Listen n addr = None;
  u_ends n : ∃ l, host_ends n = CtxEnds ContextCanceled :: l;
}.

Lemma await_ends sends l1 e l2 : await sends (l1 ++ CtxEnds e :: l2) ≠ Waiting.
Proof. induction l1 as [|[] l1 IH]; cbn; [done..|]. by case_match. Qed.

Lemma await_silent l err : await (λ _ _, false) l ≠ Failed err.
Proof. by induction l as [|[]]. Qed.

Lemma await_signal sends n : signalled → await sends (host_ends n) ≠ Waiting.
Proof. intros Hs. destruct (Hs n) as (l1 & l2 & ->). apply await_ends. Qed.

Lemma await_undisturbed sends n :
  undisturbed → await sends (host_ends n) = Done ContextCanceled.
Proof. intros Hu. by destruct (u_ends Hu n) as [l ->]. Qed.

(** The result of a method that waits, and what it leaves open. *)
Definition returns (owed : Resource → Z) (r : option (option GoError)) (l : list Action) : Prop :=
  r ≠ None ∧ slept l = 0 ∧ (∀ x, held x l = owed x) ∧
  (undisturbed → r = Some (Some ContextCanceled)).

Context (Hsig : signalled).

Ltac awaits Hd :=
  match goal with
  | |- context [await ?f (host_ends ?n)] =>
      pose proof (await_signal f n Hsig); pose proof (await_undisturbed f n) as Hd;
      destruct (await f (host_ends n)); [done| |]
  end.

Ltac returned Hd :=
  emit_steps; repeat (split; [done|]); let Hu := fresh in intros Hu;
  by first [injection (Hd Hu) as -> | discriminate (Hd Hu)].

Lemma worker_Run_returns addr : emits (worker_Run addr) (returns (λ _, 0)).
Proof.
  unfold worker_Run. do 2 emit_step.
  - emit_step. repeat (split; [done|]). intros Hu. by rewrite (u_Listen Hu) in E.
  - do 2 emit_step. awaits Hd; returned Hd.
Qed.

Lemma outbox_Run_returns cfg :
  emits (outbox_Run cfg)
    (returns (λ x, if bool_decide (x = ResWriter (kc_Brokers cfg)) then -1 else 0)).
Proof.
  unfold outbox_Run. emit_step. pose proof (await_silent (host_ends n)) as Hf.
  awaits Hd; [|by destruct (Hf err)]. do 2 emit_step. split; [done|]. split; [done|].
  split; [holds|]. intros Hu. by injection (Hd Hu) as ->.
Qed.

Lemma consumer_Run_returns cfg : emits (consumer_Run cfg) (returns (λ _, 0)).
Proof.
  unfold consumer_Run. eapply emits_bind; [apply (emits_forM Consume)|]. intros _ l ->.
  emit_step. awaits Hd; returned Hd.
Qed.

Lemma api_wait_over addr :
  emits (api_wait addr) (λ over l, over = true ∧ slept l = 0 ∧ closed l).
Proof.
  unfold api_wait. do 2 emit_step; [by emit_steps|]. do 2 emit_step. awaits Hd; by emit_steps.
Qed.

Lemma api_analytics_holds cfg :
  emits (api_analytics cfg) (λ ch l, slept l = 0 ∧ ∀ x, held x l =
    if bool_decide (x = ResClickHouse) && ch then 1 else 0).
Proof.
  unfold api_analytics. emit_step; [|apply emits_ret; split; [done|]; intros x; by rewrite andb_false_r].
  eapply emits_bind; [apply NewClickHouse_holds|]. intros [[]|e] l1 (Hs & _ & Hl).
  - eapply emits_bind; [apply ensure_schema_holds|]. intros err l2 (Hs2 & Hl2 & _).
    apply emits_do, emits_ret. rewrite !slept_app, Hs, Hs2. split; [done|]. intros x.
    rewrite !held_app, Hl, Hl2. cbn. by repeat case_bool_decide.
  - apply emits_ret. rewrite app_nil_r. split; [done|]. intros x. rewrite Hl, andb_false_r.
    by destruct (bool_decide (x = _)).
Qed.

(** Two seconds after each failed attempt. *)
Lemma ch_connect_holds tries cfg err :
  (0 < tries)%nat ∨ err ≠ None →
  emits (ch_connect tries cfg err) (λ r l,
    slept l ≤ Z.of_nat tries * (2 * Second) ∧ (undisturbed → (0 < tries)%nat → r = None) ∧
    ∀ x, held x l =
      if bool_decide (x = ResClickHouse) then match r with None => 1 | Some _ => 0 end else 0).
Proof.
  revert err. induction tries as [|tries IH]; intros err Herr.
  { apply emits_ret. split; [done|]. split; [lia|]. intros x. destruct err; [by case_bool_decide|].
    destruct Herr; [lia|done]. }
  cbn [ch_connect]. eapply emits_bind; [apply NewClickHouse_holds|].
  intros [[]|e] l1 (Hs & Hup & Hl); cbn.
  - apply emits_ret. rewrite app_nil_r, Hs. split; [unfold Second; lia|]. split; [done|]. intros x.
    by rewrite Hl.
  - apply emits_do. eapply emits_mono; [apply IH; by right|]. intros r l2 (Hs2 & _ & Hl2).
    rewrite slept_app, Hs. cbn [slept foldr]. fold (slept l2). split; [unfold Second in *; lia|].
    split; [intros Hu; discriminate (Hup (u_ch Hu))|]. intros x.
    rewrite held_app, Hl. cbn. fold (held x l2). rewrite Hl2. by repeat case_bool_decide.
Qed.

Definition service_of (c : Command) : string :=
  match c with
  | CmdAPI => "api"
  | CmdScheduler => "scheduler"
  | CmdWorker => "worker"
  | CmdOutbox => "outbox-publisher"
  | CmdConsumer => "analytics-consumer"
  end.

(** The process is over: its status, and what its trace leaves. *)
Definition exits (c : Command) (r : option Z) (l : list Action) : Prop :=
  ∃ status, r = Some status ∧ (status = 0 ∨ status = 1 ∨ status = 2) ∧
    (status = 0 → closed l) ∧ slept l ≤ Minute ∧ (undisturbed → status = 0) ∧
    (c = CmdAPI ∨ c = CmdScheduler → status = 1 → validate (Load (service_of c)) ≠ None).

Lemma exits_ok c l : closed l → slept l ≤ Minute → exits c (Some 0) l.
Proof. intros. exists 0. auto 10. Qed.

Lemma exits_panic c l : slept l ≤ Minute → ¬ undisturbed → exits c (Some 2) l.
Proof. intros. exists 2. repeat split; auto; done. Qed.

Lemma exits_failed c l :
  slept l ≤ Minute → ¬ undisturbed →
  (c = CmdAPI ∨ c = CmdScheduler → validate (Load (service_of c)) ≠ None) →
  exits c (Some 1) l.
Proof. intros. exists 1. repeat split; auto; done. Qed.

Lemma Register_exits c k :
  (∀ cfg a, emits (k (cfg, a)) (exits c)) →
  emits (match Register validate (service_of c) with
         | Err _ => mret (Some 1)
         | Ok ca => k ca
         end) (exits c).
Proof.
  intros Hk. unfold Register. destruct (validate _) as [e|] eqn:E; [|apply Hk].
  apply emits_ret, exits_failed; [done| |by rewrite E]. intros Hu. by rewrite (u_validate Hu) in E.
Qed.

Definition opened (svc : Svc) : list Action :=
  match svc with
  | SvcStore => [Acquire ResStore]
  | SvcQueue => [Acquire ResQueue]
  | _ => []
  end.

Lemma MustGet_exits c l0 svc k :
  slept l0 = 0 → emits k (λ r l, exits c r ((l0 ++ opened svc) ++ l)) →
  emits (MustGet svc k) (λ r l, exits c r (l0 ++ l)).
Proof.
  intros Hs Hk. unfold MustGet. do 2 emit_step.
  - apply emits_ret. rewrite app_nil_r. apply exits_panic; [by rewrite Hs|].
    intros Hu. by rewrite (u_Get Hu) in E.
  - emit_step; try apply emits_do; (eapply emits_mono; [apply Hk|]); intros r l; cbn beta;
      rewrite <- app_assoc; done.
Qed.

(** After [Run] the rest of [main] is reached unless an error is reported. *)
Lemma exit_on_error_exits c (run : M (nat * list Action) (option (option GoError))) k owed l0 :
  c ≠ CmdAPI → c ≠ CmdScheduler → slept l0 ≤ Minute →
  emits run (returns owed) →
  (∀ l1, slept l1 = 0 → (∀ x, held x l1 = owed x) →
     emits k (λ r l, exits c r (l0 ++ l1 ++ l))) →
  emits (r ← run; exit_on_error r k) (λ r l, exits c r (l0 ++ l)).
Proof.
  intros Hc1 Hc2 Hs Hrun Hk. eapply emits_bind; [apply Hrun|].
  intros r l1 (Hr & Hs1 & Hl1 & Hu). unfold exit_on_error.
  destruct r as [[e|]|]; [|by apply Hk|done]. case_bool_decide as He; [by apply Hk|].
  apply emits_ret. rewrite app_nil_r. apply exits_failed; [by rewrite slept_app, Hs1, Z.add_0_r| |].
  - intros U. by injection (Hu U) as ->.
  - by intros [].
Qed.

(** The traces of pieces, one after the other. *)
Ltac totals :=
  cbn [opened]; rewrite ?slept_app;
  repeat match goal with H : slept _ = _ |- _ => rewrite H end;
  unfold closed in *; intros; rewrite ?held_app;
  repeat match goal with H : ∀ x, held x _ = _ |- _ => rewrite H end;
  cbn; repeat case_bool_decide; subst; done || (unfold Minute, Second, Millisecond in *; lia).

Lemma optional_topics (b : bool) m :
  emits m (λ _ l, slept l = 0 ∧ closed l) →
  emits (if b then m else mret ()) (λ _ l, slept l = 0 ∧ closed l).
Proof. intros Hm. destruct b; [done|]. by apply emits_ret. Qed.

Lemma api_exits : emits (api_main validate) (exits CmdAPI).
Proof.
  apply (Register_exits CmdAPI). intros cfg a.
  apply (MustGet_exits _ []); [done|]. do 2 (apply MustGet_exits; [done|]).
  eapply emits_bind; [apply api_analytics_holds|]. intros ch l1 (Hs1 & Hl1).
  eapply emits_bind; [apply api_wait_over|]. intros ? l2 (-> & Hs2 & Hl2).
  do 3 emit_step. destruct ch; emit_steps; apply exits_ok; totals.
Qed.

Lemma scheduler_exits : emits (scheduler_main validate) (exits CmdScheduler).
Proof.
  apply (Register_exits CmdScheduler). intros cfg a.
  apply (MustGet_exits _ []); [done|]. do 2 (apply MustGet_exits; [done|]).
  eapply emits_bind.
  { apply optional_topics. eapply emits_bind; [apply EnsureTopic_closed|].
    intros ? l ?. apply emits_ret. by rewrite app_nil_r. }
  intros _ l1 [Hs1 Hl1]. emit_step. awaits Hd; emit_steps; apply exits_ok; totals.
Qed.

Lemma outbox_exits : emits (outbox_main validate) (exits CmdOutbox).
Proof.
  apply (Register_exits CmdOutbox). intros cfg a. apply (MustGet_exits _ []); [done|].
  eapply emits_bind.
  { apply optional_topics. do 3 (eapply emits_bind; [apply EnsureTopic_closed|]; intros ? ? []).
    apply emits_ret. split; totals. }
  intros _ l1 [Hs1 Hl1]. unfold outbox_New. emit_step.
  eapply emits_mono;
    [eapply (exit_on_error_exits CmdOutbox _ _ _
       ([Acquire ResStore] ++ l1 ++ [Acquire (ResWriter (kc_Brokers (c_Kafka cfg)))]));
       [done|done|totals|apply outbox_Run_returns|]
    |intros r l; by rewrite <- !app_assoc].
  intros l2 Hs2 Hl2. emit_steps. apply exits_ok; totals.
Qed.

Lemma worker_exits : emits (worker_main validate) (exits CmdWorker).
Proof.
  apply (Register_exits CmdWorker). intros cfg a. emit_step.
  destruct (host_Get n SvcStore); do 2 emit_step.
  - eapply (exit_on_error_exits CmdWorker _ _ _ []); [done|done|done|apply worker_Run_returns|].
    intros l1 Hs1 Hl1. emit_steps. apply exits_ok; totals.
  - eapply (exit_on_error_exits CmdWorker _ _ _ [Acquire ResStore]);
      [done|done|done|apply worker_Run_returns|].
    intros l1 Hs1 Hl1. emit_steps. apply exits_ok; totals.
Qed.

Lemma consumer_exits : emits consumer_main (exits CmdConsumer).
Proof.
  unfold consumer_main. cbv zeta. eapply emits_bind; [apply ch_connect_holds; left; lia|].
  intros [e|] l1 (Hs1 & Hup & Hl1).
  { apply emits_ret. rewrite app_nil_r. apply exits_failed; [by rewrite Hs1| |by intros []].
    intros Hu. by specialize (Hup Hu ltac:(lia)). }
  eapply emits_bind; [apply ensure_schema_holds|]. intros err l2 (Hs2 & Hl2 & m & ->).
  destruct (host_EnsureSchema m) as [e|] eqn:E.
  - apply emits_ret. apply exits_failed; [|intros Hu|by intros []].
    + rewrite !slept_app, Hs2. cbn. unfold Minute, Second in *. lia.
    + by rewrite (u_EnsureSchema Hu) in E.
  - eapply emits_mono;
      [eapply (exit_on_error_exits CmdConsumer _ _ _ (l1 ++ l2));
       [done|done| |apply consumer_Run_returns|]
    |intros r l; cbn beta; by rewrite <- !app_assoc].
    + rewrite slept_app, Hs2. unfold Minute, Second in *. lia.
    + intros l3 Hs3 Hl3. emit_steps. apply exits_ok.
      * totals.
      * rewrite !slept_app, Hs2, Hs3. cbn. unfold Minute, Second in *. lia.
Qed.

(** C25: Once a signal comes every process ends, whatever failed before, with
    the status 0, 1 or 2, and what it waits for on the way takes a minute at
    most (the consumer's 30 attempts to reach ClickHouse).  With status 0 all it
    has opened is closed: the store, the queue, the connections of
    [EnsureTopic], the writer of the outbox, the pool of ClickHouse.  A process
    that could open everything and was not disturbed ends with status 0.  The
    API and the scheduler have status 1 only if they cannot be wired: a listener
    or a loop that failed is not reported. *)
Theorem commands_exit c : emits (command validate c) (exits c).
Proof.
  destruct c; [apply api_exits|apply scheduler_exits|apply worker_exits|apply outbox_exits|
               apply consumer_exits].
Qed.
End ends.

(** A worker's first token is one the scheduler accepts if both read the same
    configuration with a token in it. *)
Lemma worker_token_valid `{OS} service keys disabled token tokens :
  auc_WorkerTokens (c_Auth (Load service)) = token :: tokens →
  ValidWorkerToken (auth_New keys (auc_WorkerTokens (c_Auth (Load service))) disabled)
    (worker_token (c_Auth (Load service))) = true.
Proof.
  intros Ht. unfold worker_token. rewrite Ht. unfold ValidWorkerToken. cbn [auth_New au_disabled].
  destruct disabled; [done|]. apply bool_decide_eq_true. cbn [auth_New au_workerTokens].
  rewrite elem_of_non_empty. split; [|by left]. intros ->.
  apply (splitCSV_non_empty (getEnv "CHRONOS_WORKER_TOKENS" "dev-worker-token-change-me") ""); [|done].
  change (splitCSV _) with (auc_WorkerTokens (c_Auth (Load service))). rewrite Ht. by left.
Qed.

(** ** A host *)

Definition default_os : OS := {|
  Getenv _ := ""; Hostname := "host"; Getpid := "1"; ParseDuration _ := None |}.

(** ClickHouse answers from the reading [down] of the environment on; loops end
    with an error before the signal, or nothing does. *)
Definition sample_host (fails : bool) (down : nat) : Host := {|
  host_sql_Open _ _ := None; host_sql_Ping _ := None;
  host_ParseDSN _ := Ok (mkChOptions ["clickhouse:9000"] "");
  host_ch_Open _ _ := None;
  host_ch_Ping n := if bool_decide (n < down)%nat then Some (External "refused") else None;
  host_EnsureSchema _ := None;
  host_Dial _ _ := None; host_Controller _ := Ok "kafka:9092"; host_CreateTopics _ := None;
  host_Listen _ _ := None;
  host_ends _ :=
    (if fails then [ChildEnds ServeLoop (Some (External "bind"));
                    ChildEnds ConsumerLoop (Some (External "broker"))] else []) ++
    [CtxEnds ContextCanceled];
  host_Get _ _ := None;
  host_queue_Name := "kafka" |}.

(** The analytics consumer waits for ClickHouse, which is down for two attempts;
    without an error it ends with status 0, and with one with status 1, its connection not closed.  The API
    ends with status 0 although its listener failed. *)
Example sample_commands :
  let run fails c := (@command default_os (sample_host fails 5) (λ _, None) c (0%nat, [])) in
  (run false CmdConsumer).1 = Some 0 ∧
  (run false CmdConsumer).2.2 =
    [Acquire ResClickHouse; Release ResClickHouse; Sleep (2 * Second);
     Acquire ResClickHouse; Release ResClickHouse; Sleep (2 * Second);
     Acquire ResClickHouse; EnsureSchema; Consume "chronos.job-events";
     Consume "chronos.worker-events"; Consume "chronos.scheduler-events";
     Release ResClickHouse] ∧
  (run true CmdConsumer).1 = Some 1 ∧ held ResClickHouse (run true CmdConsumer).2.2 = 1 ∧
  (run true CmdAPI).1 = Some 0 ∧ (run true CmdScheduler).1 = Some 0 ∧
  (run true CmdWorker).1 = Some 1 ∧ held ResStore (run true CmdWorker).2.2 = 1.
Proof. by vm_compute. Qed.

Lemma commands_exit_witness :
  let H := sample_host false 0 in
  @signalled H ∧ @undisturbed H (λ _, None) ∧
  emits (@command default_os H (λ _, None) CmdConsumer)
    (@exits default_os H (λ _, None) CmdConsumer).
Proof.
  cbv zeta. assert (@signalled (sample_host false 0)) as Hs by (intros n; by eexists [], []).
  split; [done|]. split; [split; try done; intros n; by eexists|]. by apply commands_exit.
Defined.
